(* ===== verification/_CoqProject ===== *)
-Q . S2P
Prelude.v
GoStrings.v
GoLib.v
Goroutines.v
GoTime.v
GoJson.v
Tenant.v
MemoryStore.v
Resolver.v
TenantCtx.v
CachedStore.v
CacheFlights.v
Middleware.v
EventBus.v
EventCodec.v
BanChecker.v
BanRaces.v
RetryQueue.v
RetryTiming.v
Admin.v
AdminCalls.v
Propagation.v
Delivery.v
Rbac.v
Metrics.v
RateLimit.v
RateBounds.v
RedisRateLimit.v
RateLimiters.v
RedisBounds.v
BrokerBus.v
Config.v
Site.v
SiteRequests.v
Server.v
ServerRequests.v
Lifecycle.v
HealthProbe.v
ResponseBodies.v
LoadTest.v
LoadProcess.v
