(* ===== verification/Prelude.v ===== *)
(** * tenant-core: a verification development

    tenant-core is a Go library for multi-tenant services, with a reference server.
    A request is mapped to a tenant by a [Resolver] and a [Store] (assembled in a
    [Manager]), the tenant is put in the request's context by a middleware adapter,
    and handlers ask RBAC, rate limiters and metrics about it.  Administrators change
    a tenant's state through [admin.Service], which writes the store, then publishes
    an event on an [EventBus] (with a retry queue for failures); a [BanChecker] on
    every instance follows the events and an initial snapshot.

    ** How Go is modelled

    A function that reads and writes shared state and may panic is [GoM S A], a
    function from a state to a state and an outcome (this file).  Package [Tenant] has
    the world: a heap of [Tenant] structs and of role arrays (a Go struct copy shares
    its slice's array), and the clock, a sequence of readings; theorems quantify over
    all clocks, some over those that never go back.  [int], [int64] and
    [time.Duration] are integers with the wrap-around of [wrap64] wherever the code
    does arithmetic on unbounded input (backoff, TTL, counters).  Interfaces are type
    classes ([Resolver], [Store], [AdminStore], [EventBus]); what [Store] promises its
    callers is the class [StoreContract], which the adapters' theorems use and the two
    stores discharge.  A mutex's critical section is one step, and so is a method of a
    [sync.Map]; concurrency is a step relation that interleaves such steps, and
    reachability is [trace].  An event handler, which the bus starts on a goroutine of its
    own, is a [routine]: code cut at each access of shared state, so that between the Load
    and the Store of [BanChecker.apply] any other goroutine can run.  Third-party
    code (singleflight, Gin, Echo, x/time/rate, Redis, the brokers' clients, the
    Prometheus client) and what the integrating application supplies (the
    authenticator, the limit functions) are parameters: classes whose laws state
    documented behaviour, each with a concrete instance used in the witnesses.

    ** The files, in order

    - [Prelude], [GoStrings], [GoLib]: the effect monad, integers, traces and their
      simulation and invariant lemmas; [strings], [strconv.Atoi] and [%d] (printed
      with 20 digits of fuel, enough for every 64-bit integer: [Atoi_fmt_d]); errors
      and [errors.Is], contexts, HTTP requests, responses and [http.ServeMux].
    - [Goroutines]: code cut at its accesses of shared state, pools of goroutines that
      run it one access at a time, and what one of them saw and did.
    - [GoTime], [GoJson]: what encoding/json does with a string and a [time.Time]:
      RFC 3339 text and the calendar, UTF-8, string escapes, the scanner and parser.
    - [Tenant]: tenant.go.  [Manager], its options and [Resolve].
    - [MemoryStore]: store/memory.go.  It refines a map of tenant values under any
      client that writes the structs it holds; no method panics; the role array is
      shared with the copies it returns.
    - [Resolver]: resolver/subdomain.go and cachekey/.  Exactly which hosts name which
      tenant; when cache keys of two tenants can coincide.
    - [TenantCtx]: tenantctx/ and tenanttest/.  What was stored is read back.
    - [CachedStore]: store/cached.go.  It keeps the store contract; a state change is
      visible after the TTL at the latest and a ban at once.
    - [CacheFlights]: [CachedStore.Get] with any number of concurrent callers and shared
      flights.  When the TTL bounds the age of an answer, and a run in which it does not.
    - [Middleware]: the four adapters.  A handler runs with the tenant of its host or
      not at all.
    - [EventBus]: eventbus/ and its in-memory bus.  Every handler runs once per event,
      from start to end, its accesses interleaved with those of the others.
    - [EventCodec]: a [TenantEvent] as JSON, written and read back.
    - [BanChecker]: banchecker/.  When [apply] calls follow each other, their order does
      not matter, provided writes with the same timestamp agree.
    - [BanRaces]: [apply] calls that overlap.  When those of a tenant that are at their
      Store at the same time store in the order of their timestamps, the newest write
      stays, and there is always a schedule that does so; there is a run in which the
      older of two overlapping writes stays.
    - [RetryQueue]: admin/retry_queue.go.  Bound, accounting, progress, one pass of
      the worker, backoff, shutdown of the worker.
    - [RetryTiming]: the queue in real time, with the ticker of its worker.  A deadline
      for every attempt, hence for every event to be delivered or reported; none is given up early.
    - [Admin]: admin/admin.go, http.go, auth.go.  Store and events tell the same story;
      authentication and status codes.
    - [AdminCalls]: administrative calls and the snapshot cut at each access of shared
      state, the part common to the next two files.
    - [Propagation]: the service, the store, the in-memory bus and a checker together.
      Administrative calls, handlers and the snapshot overlap freely; the checker follows
      the store on every tenant whose own calls do not overlap and whose entry is stored
      in that order, from the next change on if they were not before.
      Neither condition can go: there is a run in which the calls overlap and one in
      which only the handlers do, and the checker disagrees with the store.
    - [Delivery]: the same with the retry queue over any bus that may refuse, lose and
      repeat events.  Under the same conditions the checker still follows the store,
      except for the events that were lost or reported.
    - [Rbac]: rbac/.  Access is exactly what the latest definitions grant.
    - [Metrics]: metrics/ and metrics/prometheus/.  No update is lost;
      as many label values as the vector has labels, and a panic exactly when tenant
      labels are on and a tenant's id is not UTF-8.
    - [RateLimit], [RateBounds]: ratelimit/.  One bucket per tenant, however calls race;
      at most the burst plus the rate times the span goes through.
    - [RedisRateLimit], [RedisBounds]: ratelimit/redis/.  The shared fixed-window quota is
      exact for windows of at least a millisecond when the calls of a window reach Redis
      within the life of its counter; at most twice the limit goes through around a
      window's end, and that is reached; what is left of the quota when clocks and delays
      are arbitrary; a window below a millisecond is never enforced.
    - [RateLimiters]: the interface of the two.  Tenants do not share quota, whichever
      implementation is behind it.
    - [BrokerBus]: eventbus/redis/ and eventbus/nats/.  No subscription survives [Stop];
      published events reach remote handlers, and the checkers of other instances end as
      if they came one after the other when an entry is stored in order.
    - [Config]: the configuration of cmd/server/, and the port and URL of
      cmd/healthcheck/.  Which environments are accepted, the TTL's range.
    - [Site], [SiteRequests]: the pipeline of store, cache, resolver and middleware that
      the programs assemble; any number of requests that overlap and share flights of the
      cache are answered as if each was alone.
    - [Server], [ServerRequests], [Lifecycle]: cmd/server/.  The server's response is a
      function of the request, also when requests overlap; startup, readiness, signals,
      shutdown and exit codes of the process.
    - [HealthProbe]: cmd/healthcheck/ against that process.  Its exit code tells whether
      the server answers in time.
    - [ResponseBodies]: the JSON bodies of the Admin API and of the server as bytes, and
      that a JSON reader gets back what the handlers meant.
    - [LoadTest], [LoadProcess]: the three programs of loadtest/servers/.  What they
      answer, that the scenarios compare like with like, and their processes: overlapping
      requests, the profiling goroutine, failing listeners and the exit code.

    A theorem that a run of the program returns is stated as such (an existential over
    the result, or a next step from every reachable state), never only as partial
    correctness; no operation of the model is cut off by fuel except the printing of
    digits above.

    ** What is not modelled

    Log output other than the retry queue's CRITICAL lines, the service's ERROR lines, the
    messages of cmd/server (without their attributes) and the lines of the load-test
    servers; cancellation of contexts (only the worker's [select] and the timeouts of
    Redis commands and of the health check look at it); the capacity of slices; the
    monotonic part of [time.Time]; the text of JSON errors; the Allow header of 405
    responses; the redirects of [http.ServeMux] for paths that are not clean (a request's
    path is its list of segments, so only canonical paths can be written); sockets (a
    listening server accepts a connection with its request in one step); what the
    handlers of net/http/pprof answer; the execution speed of anything but a pass of the
    retry worker, whose duration is a parameter.

    Some steps are coarser than the code or take a library's contract as the rule: a pass
    of the retry worker reads [time.Now] and collects the due events under the lock in one
    step; a singleflight function's end and the removal of its key are one step, and
    callers of a key in flight share its result, as singleflight documents; that no
    request is accepted after [Shutdown] closed the listeners is net/http's documented
    behaviour and part of the rule for accepting.  The text of [http.Error] is kept
    without its final newline, which [ResponseBodies] adds where bodies are bytes. *)
From stdpp Require Export base gmap strings list.
From Stdlib Require Export ZArith Lia.
Set Default Goal Selector "!".

(** ** The effect of a Go function

    A Go function that reads and writes shared state and may panic is a
    function from the state to the new state and an outcome.  A panic keeps the
    state reached so far, because [recover] resumes from it. *)
Inductive outcome (A : Type) : Type :=
| Ret (a : A)
| Panic (msg : string).
Arguments Ret {A} a.
Arguments Panic {A} msg.

Definition GoM (S A : Type) : Type := S → S * outcome A.

#[global] Instance GoM_ret S : MRet (GoM S) := λ A a s, (s, Ret a).
#[global] Instance GoM_bind S : MBind (GoM S) := λ A B f m s,
  match m s with
  | (s', Ret a) => f a s'
  | (s', Panic msg) => (s', Panic msg)
  end.

Definition go_panic {S A} (msg : string) : GoM S A := λ s, (s, Panic msg).
Definition go_get {S} : GoM S S := λ s, (s, Ret s).
Definition go_put {S} (s : S) : GoM S unit := λ _, (s, Ret tt).

(** [recover] in a deferred function: the panic is swallowed, the state stays. *)
Definition go_recover {S} (m : GoM S unit) : GoM S unit := λ s, ((m s).1, Ret tt).

(** A call on an object that is a part [S] of a larger object [T]; [W] is the
    rest of the program's state, which both share. *)
Definition zoom {S T W A} (get : T → S) (put : S → T → T)
    (m : GoM (S * W) A) : GoM (T * W) A := λ tw,
  let '(t, w) := tw in
  let '((s', w'), o) := m (get t, w) in
  ((put s' t, w'), o).

(** The state and the result of a computation that did not panic. *)
Definition run_state {S A} (m : GoM S A) (s : S) : S := (m s).1.
Definition run_result {S A} (m : GoM S A) (s : S) : outcome A := (m s).2.

(** The computation returns a value: it does not panic. *)
Definition returns {S A} (m : GoM S A) (s : S) : Prop := ∃ s' a, m s = (s', Ret a).

(** ** Machine integers

    Go's [int], [int64] and [time.Duration] are 64-bit two's complement. *)
Definition wrap64 (z : Z) : Z := (z + 2 ^ 63) mod 2 ^ 64 - 2 ^ 63.
Definition min_int64 : Z := - 2 ^ 63.
Definition max_int64 : Z := 2 ^ 63 - 1.
Definition int64_range (z : Z) : Prop := (min_int64 ≤ z ≤ max_int64)%Z.

(** Go's [x << n] on an [int64]: a count of 64 or more gives 0. *)
Definition shl64 (x n : Z) : Z :=
  if (64 <=? n)%Z then 0%Z else wrap64 (Z.shiftl x n).

(** The [uint] conversion of an [int]. *)
Definition uint64_of (z : Z) : Z := z mod 2 ^ 64.

Lemma wrap64_id z : int64_range z → wrap64 z = z.
Proof.
  unfold int64_range, min_int64, max_int64, wrap64. intros H.
  rewrite Z.mod_small; lia.
Qed.

Lemma wrap64_range z : int64_range (wrap64 z).
Proof.
  unfold int64_range, min_int64, max_int64, wrap64.
  pose proof (Z.mod_pos_bound (z + 2 ^ 63) (2 ^ 64)). lia.
Qed.

Lemma wrap64_add_mod a b : wrap64 (wrap64 a + b) = wrap64 (a + b).
Proof.
  unfold wrap64.
  replace ((a + 2 ^ 63) mod 2 ^ 64 - 2 ^ 63 + b + 2 ^ 63)%Z
    with ((a + 2 ^ 63) mod 2 ^ 64 + b)%Z by lia.
  rewrite Zplus_mod_idemp_l. do 2 f_equal. lia.
Qed.

(** ** Labelled traces of a step relation, and forward simulation *)
Inductive trace {A E} (step : A → E → A → Prop) : A → list E → A → Prop :=
| trace_nil a : trace step a [] a
| trace_cons a e b tr c : step a e b → trace step b tr c → trace step a (e :: tr) c.

Lemma trace_sim {A B E} (stepA : A → E → A → Prop) (stepB : B → E → B → Prop)
    (inv : A → Prop) (f : A → B) :
  (∀ a e a', stepA a e a' → inv a → inv a' ∧ stepB (f a) e (f a')) →
  ∀ a tr a', trace stepA a tr a' → inv a → inv a' ∧ trace stepB (f a) tr (f a').
Proof.
  intros Hsim a tr a'. induction 1 as [a|a e b tr c Hs _ IH]; intros Hinv.
  - split; [done | constructor].
  - destruct (Hsim _ _ _ Hs Hinv) as [Hb HB]. destruct (IH Hb) as [Hc HC].
    split; [done |]. by eapply trace_cons.
Qed.

Lemma trace_inv {A E} (step : A → E → A → Prop) (inv : A → Prop) :
  (∀ a e a', step a e a' → inv a → inv a') →
  ∀ a tr a', trace step a tr a' → inv a → inv a'.
Proof. intros Hstep a tr a'. induction 1; eauto. Qed.

Lemma trace_mono {A E} (step step' : A → E → A → Prop) :
  (∀ a e a', step a e a' → step' a e a') → ∀ a tr a', trace step a tr a' → trace step' a tr a'.
Proof. intros Hs a tr a'. induction 1; econstructor; eauto. Qed.

Lemma trace_app {A E} (step : A → E → A → Prop) a tr1 b tr2 c :
  trace step a tr1 b → trace step b tr2 c → trace step a (tr1 ++ tr2) c.
Proof. induction 1; intros; simpl; [done | econstructor; eauto]. Qed.

Lemma trace_split {A E} (step : A → E → A → Prop) a tr1 tr2 c :
  trace step a (tr1 ++ tr2) c → ∃ b, trace step a tr1 b ∧ trace step b tr2 c.
Proof.
  revert a; induction tr1 as [|ev tr1 IH]; intros a Htr; [exists a; split; [constructor | done] |].
  inversion Htr as [|? ? b ? ? Hs Hrest]; subst. destruct (IH _ Hrest) as (b' & ? & ?).
  exists b'. split; [by econstructor | done].
Qed.

(** When every state that is not finished can go on to a smaller one, some run
    finishes. *)
Lemma trace_measure {A E} (step : A → E → A → Prop) (P : A → Prop) (m : A → nat) :
  (∀ a, P a → m a ≠ 0 → ∃ tr a', trace step a tr a' ∧ P a' ∧ m a' < m a) →
  ∀ a, P a → ∃ tr a', trace step a tr a' ∧ P a' ∧ m a' = 0.
Proof.
  intros Hstep a. remember (m a) as n eqn:Hn. revert a Hn.
  induction n as [n IH] using lt_wf_ind; intros a -> HP.
  destruct (decide (m a = 0)) as [H0|H0]; [exists [], a; eauto using trace_nil |].
  destruct (Hstep a HP H0) as (tr & a' & Htr & HP' & Hlt).
  destruct (IH _ Hlt a' eq_refl HP') as (tr' & a2 & Htr' & ? & ?).
  exists (tr ++ tr'), a2. eauto using trace_app.
Qed.

(** ** Lists *)
Lemma filter_iff_in {A} (P Q : A → Prop) `{!∀ x, Decision (P x), !∀ x, Decision (Q x)} (l : list A) :
  (∀ x, x ∈ l → P x ↔ Q x) → filter P l = filter Q l.
Proof.
  induction l as [|x l IH]; intros Hl; [done |]. rewrite !filter_cons, IH by set_solver.
  specialize (Hl x ltac:(by left)). repeat case_decide; tauto.
Qed.

Lemma elem_of_drop_in {A} (x : A) k l : x ∈ drop k l → x ∈ l.
Proof. intros Hx. rewrite <- (take_drop k l). apply elem_of_app. by right. Qed.

(** ** Automation *)
Create HintDb golib.
#[export] Hint Resolve wrap64_id wrap64_range : golib.

Ltac go_unfold :=
  unfold run_state, run_result, zoom, mbind, mret, GoM_bind, GoM_ret,
    go_get, go_put, go_panic, go_recover in *.

(** Unfold the monad and run it, splitting on the tests the code makes. *)
Ltac go_step :=
  go_unfold; simpl in *;
  repeat (case_match; simpl in *; simplify_eq; try done).

(** Destruct the pairs and existentials of the context. *)
Ltac deconj :=
  repeat match goal with
  | H : _ ∧ _ |- _ => destruct H
  | H : ∃ _, _ |- _ => destruct H
  end.
