(* ===== verification/GoStrings.v ===== *)
(** * Go strings

    The functions of packages [strings], [strconv] and [fmt] that the program
    calls, on Go strings as byte strings ([String.string]), with the facts about
    them that the components share.  A substring test is written as the library
    documents it: position by position from the left. *)
From S2P Require Import Prelude.
From Stdlib Require Export Ascii.
Set Default Goal Selector "!".
#[global] Arguments String.append !_ _ : simpl nomatch.

(** [s[:n]] and [s[n:]] for [n] in range. *)
Fixpoint str_take (n : nat) (s : string) : string :=
  match n, s with
  | S n, String c s => String c (str_take n s)
  | _, _ => ""
  end.

Fixpoint str_drop (n : nat) (s : string) : string :=
  match n, s with
  | S n, String _ s => str_drop n s
  | _, _ => s
  end.

(** [strings.Index]: the first position at which [sub] occurs; [None] is -1. *)
Fixpoint strings_Index (s sub : string) : option nat :=
  if String.prefix sub s then Some 0
  else match s with
       | "" => None
       | String _ s => S <$> strings_Index s sub
       end.

(** [strings.Contains]. *)
Definition strings_Contains (s sub : string) : bool :=
  match strings_Index s sub with Some _ => true | None => false end.

(** [strings.HasSuffix]: [len(s) >= len(suf) && s[len(s)-len(suf):] == suf]. *)
Definition strings_HasSuffix (s suf : string) : bool :=
  (String.length suf <=? String.length s)%nat &&
  String.eqb (str_drop (String.length s - String.length suf) s) suf.

(** [strings.TrimSuffix]. *)
Definition strings_TrimSuffix (s suf : string) : string :=
  if strings_HasSuffix s suf then str_take (String.length s - String.length suf) s
  else s.

(** The character [c] occurs in [s]. *)
Fixpoint str_mem (c : ascii) (s : string) : bool :=
  match s with
  | "" => false
  | String d s => Ascii.eqb c d || str_mem c s
  end.

(** One character as a string. *)
Definition str1 (c : ascii) : string := String c "".

#[global] Arguments str_mem c%_char s.
#[global] Arguments str1 c%_char.

(** ** Decimal numbers: [strconv.Atoi] and the [%d] verb of [fmt] *)

Definition digit_val (c : ascii) : option Z :=
  let n := Z.of_nat (nat_of_ascii c) in
  if ((48 <=? n) && (n <=? 57))%Z then Some (n - 48)%Z else None.

(** The value of a string of digits read after [acc]; [None] at the first
    byte that is not a digit. *)
Fixpoint digits_val (acc : Z) (s : string) : option Z :=
  match s with
  | "" => Some acc
  | String c s =>
      match digit_val c with
      | Some d => digits_val (10 * acc + d) s
      | None => None
      end
  end.

(** [strconv.Atoi]: an optional sign, then at least one digit and nothing else,
    then the range of a 64-bit [int].  [None] is a non-nil error. *)
Definition strconv_Atoi (s : string) : option Z :=
  let signed (neg : bool) (ds : string) :=
    match ds with
    | "" => None
    | _ =>
        match digits_val 0 ds with
        | None => None
        | Some n =>
            let v := if neg then (- n)%Z else n in
            if ((min_int64 <=? v) && (v <=? max_int64))%Z then Some v else None
        end
    end in
  match s with
  | String "+" ds => signed false ds
  | String "-" ds => signed true ds
  | _ => signed false s
  end.

Definition digit_char (d : Z) : ascii := ascii_of_nat (Z.to_nat (d + 48)).

(** The decimal digits of a non-negative number, least significant first cut off
    by [fuel]; [fuel] digits are enough for a number below [10 ^ fuel]. *)
Fixpoint dec_digits (fuel : nat) (n : Z) (acc : string) : string :=
  match fuel with
  | 0 => acc
  | S fuel =>
      let acc := String (digit_char (n mod 10)) acc in
      if (n <? 10)%Z then acc else dec_digits fuel (n / 10) acc
  end.

(** [%d] of a 64-bit integer: at most 20 digits, a minus sign in front. *)
Definition fmt_d (n : Z) : string :=
  if (n <? 0)%Z then String "-" (dec_digits 20 (- n) "") else dec_digits 20 n "".

(** ** Lemmas *)
Lemma str_take_app a b : str_take (String.length a) (a +:+ b) = a.
Proof. induction a; simpl; [by destruct b | by rewrite IHa]. Qed.

Lemma str_drop_app a b : str_drop (String.length a) (a +:+ b) = b.
Proof. induction a; simpl; [by destruct b | done]. Qed.

Lemma str_take_drop n s : str_take n s +:+ str_drop n s = s.
Proof. revert s; induction n; intros [|c s]; cbn; [done.. |]. by rewrite IHn. Qed.

Lemma str_length_app a b :
  String.length (a +:+ b) = String.length a + String.length b.
Proof. induction a; simpl; auto. Qed.

Lemma str_app_assoc a b c : (a +:+ b) +:+ c = a +:+ (b +:+ c).
Proof. induction a; simpl; congruence. Qed.

Lemma str_app_nil_r a : a +:+ "" = a.
Proof. induction a; simpl; congruence. Qed.

Lemma str_app_inv_head a b c : a +:+ b = a +:+ c → b = c.
Proof. induction a; simpl; [done | intros [=]; auto]. Qed.

Lemma HasSuffix_true s suf :
  strings_HasSuffix s suf = true ↔ ∃ p, s = p +:+ suf.
Proof.
  unfold strings_HasSuffix. rewrite andb_true_iff, Nat.leb_le, String.eqb_eq. split.
  - intros [Hle Heq]. exists (str_take (String.length s - String.length suf) s).
    rewrite <- Heq at 2. symmetry. apply str_take_drop.
  - intros [p ->]. rewrite str_length_app. split; [lia |].
    replace (_ - _) with (String.length p) by lia. apply str_drop_app.
Qed.

Lemma TrimSuffix_app p suf : strings_TrimSuffix (p +:+ suf) suf = p.
Proof.
  unfold strings_TrimSuffix.
  rewrite (proj2 (HasSuffix_true (p +:+ suf) suf)) by eauto.
  rewrite str_length_app. replace (_ - _) with (String.length p) by lia.
  apply str_take_app.
Qed.

Lemma prefix_str1 c s :
  String.prefix (str1 c) s = match s with "" => false | String d _ => Ascii.eqb c d end.
Proof.
  destruct s as [|d s]; simpl; [done |].
  destruct (ascii_dec c d) as [->|Hne].
  - rewrite Ascii.eqb_refl. by destruct s.
  - by rewrite (proj2 (Ascii.eqb_neq c d)).
Qed.

Lemma Index_str1_None c s : strings_Index s (str1 c) = None ↔ str_mem c s = false.
Proof.
  induction s as [|d s IH]; [done |].
  cbn [strings_Index str_mem]. rewrite prefix_str1.
  destruct (Ascii.eqb c d); simpl; [done |]. rewrite <- IH.
  by destruct (strings_Index s (str1 c)).
Qed.

Lemma Index_str1_Some c s i :
  strings_Index s (str1 c) = Some i →
  str_mem c (str_take i s) = false ∧ s = str_take i s +:+ str1 c +:+ str_drop (S i) s.
Proof.
  revert i; induction s as [|d s IH]; intros i; [done |].
  cbn [strings_Index]. rewrite prefix_str1.
  destruct (Ascii.eqb_spec c d) as [->|Hne].
  - intros [= <-]. split; [done |]. simpl. by destruct s.
  - destruct (strings_Index s (str1 c)) as [j|] eqn:Hj; [|done].
    intros [= <-]. destruct (IH j eq_refl) as [Hm Hs]. split.
    + simpl. by rewrite (proj2 (Ascii.eqb_neq c d)), Hm.
    + cbn [str_take str_drop]. simpl. f_equal. exact Hs.
Qed.

Lemma Contains_str1 c s : strings_Contains s (str1 c) = str_mem c s.
Proof.
  unfold strings_Contains.
  destruct (strings_Index s (str1 c)) eqn:E.
  - destruct (str_mem c s) eqn:M; [done |]. by apply Index_str1_None in M; congruence.
  - by apply Index_str1_None in E.
Qed.

Lemma str_mem_app c a b : str_mem c (a +:+ b) = str_mem c a || str_mem c b.
Proof. induction a as [|d a IH]; simpl; [done |]. by rewrite IH, orb_assoc. Qed.

(** Two strings split by the first occurrence of a separator that neither
    prefix contains are split the same way. *)
Lemma str_sep_inj c a a' b b' :
  str_mem c a = false → str_mem c a' = false →
  a +:+ String c b = a' +:+ String c b' → a = a' ∧ b = b'.
Proof.
  revert a'; induction a as [|d a IH]; intros [|d' a']; simpl.
  - by intros _ _ [= ->].
  - intros _ H [= -> _]. by rewrite Ascii.eqb_refl in H.
  - intros H _ [= <- _]. by rewrite Ascii.eqb_refl in H.
  - intros [_ Ha]%orb_false_iff [_ Ha']%orb_false_iff [= -> Heq].
    destruct (IH a' Ha Ha' Heq) as [-> ->]. done.
Qed.

(** The same for the last occurrence. *)
Lemma str_last_sep_inj c a a' b b' :
  str_mem c b = false → str_mem c b' = false →
  a +:+ String c b = a' +:+ String c b' → a = a' ∧ b = b'.
Proof.
  intros Hb Hb'. revert a'; induction a as [|d a IH]; intros [|d' a']; simpl.
  - by intros [= ->].
  - intros [= -> ->]. rewrite str_mem_app in Hb. simpl in Hb.
    by rewrite Ascii.eqb_refl, orb_true_r in Hb.
  - intros [= -> <-]. rewrite str_mem_app in Hb'. simpl in Hb'.
    by rewrite Ascii.eqb_refl, orb_true_r in Hb'.
  - intros [= -> Heq]. by destruct (IH a' Heq) as [-> ->].
Qed.

(** ** Printing and parsing decimal numbers *)
Lemma digit_char_cases d :
  (0 ≤ d < 10)%Z → digit_val (digit_char d) = Some d ∧ digit_char d ≠ ":"%char.
Proof.
  intros Hd.
  assert (d = 0 ∨ d = 1 ∨ d = 2 ∨ d = 3 ∨ d = 4 ∨ d = 5 ∨ d = 6 ∨ d = 7 ∨ d = 8 ∨ d = 9)%Z as Hc by lia.
  repeat destruct Hc as [->|Hc]; subst; split_and!; done.
Qed.

(** Induction over the digits: a property of the suffix that adding a digit keeps. *)
Lemma dec_digits_ind (P : Z → string → Prop) fuel n acc :
  (0 ≤ n < 10 ^ Z.of_nat fuel)%Z → fuel ≠ 0 → 
  (∀ m acc, (0 ≤ m)%Z → P m acc → P (m / 10)%Z (String (digit_char (m mod 10)) acc)) →
  P n acc → ∃ d s, (0 ≤ d < 10)%Z ∧ dec_digits fuel n acc = String (digit_char d) s ∧
    P 0%Z (dec_digits fuel n acc).
Proof.
  intros Hn Hf HP. revert n acc Hn Hf. induction fuel as [|fuel IH]; intros n acc Hn Hf Hacc; [done |].
  cbn [dec_digits]. pose proof (Z.mod_pos_bound n 10 ltac:(lia)) as Hm.
  destruct (Z.ltb_spec n 10).
  - exists (n mod 10)%Z, acc. split_and!; [lia | lia | done |].
    replace 0%Z with (n / 10)%Z by (apply Z.div_small; lia). apply HP; [lia | done].
  - destruct fuel as [|fuel]; [simpl in Hn; lia |].
    apply IH; [|done|apply HP; [lia | done]].
    rewrite (Nat2Z.inj_succ (S fuel)), Z.pow_succ_r in Hn by lia.
    split; [apply Z.div_pos; lia | apply Z.div_lt_upper_bound; lia].
Qed.

Lemma dec_digits_spec n :
  (0 ≤ n < 10 ^ 20)%Z →
  ∃ d s, (0 ≤ d < 10)%Z ∧ dec_digits 20 n "" = String (digit_char d) s ∧
    digits_val 0 (dec_digits 20 n "") = Some n ∧ str_mem ":" (dec_digits 20 n "") = false.
Proof.
  intros Hn.
  destruct (dec_digits_ind (λ m acc, digits_val m acc = Some n ∧ str_mem ":" acc = false) 20 n "")
    as (d & s & ? & ? & ? & ?); [exact Hn | done | | done | eauto 10].
  intros m acc Hm [Hv Hc]. pose proof (Z.mod_pos_bound m 10 ltac:(lia)) as Hd.
  destruct (digit_char_cases (m mod 10)) as (Hdv & Hcol); [lia |]. cbn [digits_val str_mem]. rewrite Hdv, Hc.
  split; [|apply orb_false_iff; split; [|done]; apply Ascii.eqb_neq; congruence].
  rewrite <- (Z_div_mod_eq_full m 10). exact Hv.
Qed.

(** A string that starts with a digit has no sign. *)
Lemma Atoi_unsigned c s d :
  digit_val c = Some d →
  strconv_Atoi (String c s) =
  match digits_val 0 (String c s) with
  | None => None
  | Some n => if ((min_int64 <=? n) && (n <=? max_int64))%Z then Some n else None
  end.
Proof. by destruct c as [[] [] [] [] [] [] [] []]. Qed.

(** [Atoi] reads back what [%d] prints. *)
Lemma Atoi_fmt_d n : int64_range n → strconv_Atoi (fmt_d n) = Some n.
Proof.
  unfold int64_range, min_int64, max_int64. intros Hn. unfold fmt_d.
  destruct (Z.ltb_spec n 0).
  - destruct (dec_digits_spec (- n)) as (d & s & Hd & E & Hv & _); [lia |].
    rewrite E in *. cbn [strconv_Atoi]. rewrite Hv, Z.opp_involutive.
    unfold min_int64, max_int64. by rewrite !(proj2 (Z.leb_le _ _)) by lia.
  - destruct (dec_digits_spec n) as (d & s & Hd & E & Hv & _); [lia |].
    rewrite E in *. destruct (digit_char_cases d Hd) as (Hdv & _).
    rewrite (Atoi_unsigned _ _ _ Hdv), Hv. unfold min_int64, max_int64.
    by rewrite !(proj2 (Z.leb_le _ _)) by lia.
Qed.

Lemma fmt_d_inj n m : int64_range n → int64_range m → fmt_d n = fmt_d m → n = m.
Proof. intros Hn Hm E. apply Atoi_fmt_d in Hn, Hm. congruence. Qed.

Lemma fmt_d_no_colon n : int64_range n → str_mem ":" (fmt_d n) = false.
Proof.
  unfold int64_range, min_int64, max_int64. intros Hn. unfold fmt_d. destruct (Z.ltb_spec n 0).
  - destruct (dec_digits_spec (- n)) as (d & s & Hd & E & _ & Hc); [lia |]. cbn [str_mem]. by rewrite Hc.
  - destruct (dec_digits_spec n) as (d & s & Hd & E & _ & Hc); [lia | done].
Qed.

Create Rewrite HintDb golib_str.
#[export] Hint Rewrite str_app_assoc str_app_nil_r str_length_app str_mem_app
  Contains_str1 TrimSuffix_app : golib_str.
