(* ===== verification/GoLib.v ===== *)
(** * The parts of Go's standard library the program is written against

    Pointers, [error] values with [errors.Is], [context.Context] with
    [context.WithValue], and the pieces of [net/http] the handlers use:
    [Request], [ResponseWriter], [http.Error] and [http.ServeMux]. *)
From S2P Require Import Prelude GoStrings.
Set Default Goal Selector "!".

(** ** Pointers: [None] is [nil]. *)
Abbreviation loc := nat (only parsing).
Abbreviation ptr := (option nat) (only parsing).

(** ** Errors

    The sentinel errors of the program and of the packages it uses are distinct
    pointers, so each is a constructor.  [errorf] is any other error value with its message (an error of
    a foreign implementation, or [fmt.Errorf] without [%w]); [wrapError] is
    [fmt.Errorf] with one [%w] operand. *)
Inductive error : Type :=
| ErrTenantNotFound
| ErrTenantAlreadyExists
| ErrNoTenant
| ErrStopped (pkg : string)
| ErrServerClosed
| DeadlineExceeded
| errorf (msg : string)
| wrapError (msg : string) (err : error).

#[global] Instance error_eq_dec : EqDecision error.
Proof. solve_decision. Defined.

(** [errors.Is]: the error itself or one it wraps equals the target. *)
Fixpoint errors_Is (err target : error) : bool :=
  bool_decide (err = target) ||
  match err with
  | wrapError _ e => errors_Is e target
  | _ => false
  end.

(** The [Error] method. *)
Fixpoint error_Error (err : error) : string :=
  match err with
  | ErrTenantNotFound => "tenant not found"
  | ErrTenantAlreadyExists => "tenant already exists"
  | ErrNoTenant => "resolver: no tenant found in request"
  | ErrStopped pkg => pkg +:+ ": bus is stopped"
  | ErrServerClosed => "http: Server closed"
  | DeadlineExceeded => "context deadline exceeded"
  | errorf msg => msg
  | wrapError msg e => msg +:+ ": " +:+ error_Error e
  end.

(** A result [(A, error)] of which exactly one part is meaningful. *)
Inductive result (A : Type) : Type :=
| Ok (a : A)
| Err (e : error).
Arguments Ok {A} a.
Arguments Err {A} e.

(** Unlike [injection], this leaves the values as they are. *)
Lemma Ok_inj {A} (x y : A) : Ok x = Ok y → x = y.
Proof. congruence. Qed.

(** ** Contexts

    A key of [context.WithValue] is compared by its dynamic type and its value;
    an interface value that a context carries is, for this program, a tenant
    pointer or something else. *)
Record ctxKey := mkKey { ck_type : string; ck_val : Z }.

#[global] Instance ctxKey_eq_dec : EqDecision ctxKey.
Proof. solve_decision. Defined.

Inductive any : Type :=
| anyTenant (p : ptr)
| anyOther (tag : string).

Inductive context : Type :=
| Background
| valueCtx (parent : context) (key : ctxKey) (val : any).

(** [ctx.Value(key)]; [None] is the [nil] interface. *)
Fixpoint ctx_Value (ctx : context) (key : ctxKey) : option any :=
  match ctx with
  | Background => None
  | valueCtx parent k v => if decide (k = key) then Some v else ctx_Value parent key
  end.

(** [context.WithValue] panics on a [nil] parent. *)
Definition context_WithValue (ctx : option context) (key : ctxKey) (v : any) :
    outcome context :=
  match ctx with
  | None => Panic "cannot create context from nil parent"
  | Some c => Ret (valueCtx c key v)
  end.

(** ** HTTP

    [r_path] is the path as the multiplexer matches it: the segments between
    slashes, each percent-decoded, of a path already in its canonical form. *)
Record Request := mkRequest {
  r_Method : string;
  r_Host : string;
  r_path : list string;
  r_ctx : context
}.

(** [r.WithContext(ctx)]: a shallow copy of the request with another context. *)
Definition Request_WithContext (r : Request) (ctx : context) : Request :=
  mkRequest (r_Method r) (r_Host r) (r_path r) ctx.

Inductive json : Type :=
| JNull
| JString (s : string)
| JArray (l : list json)
| JObject (fields : list (string * json)).

(** What is written to the body: text, or one JSON value with its newline. *)
Inductive chunk : Type :=
| Text (s : string)
| JSON (j : json).

(** A response under construction.  [rw_status] is [None] until the header is
    sent; header changes after that do not reach the client. *)
Record ResponseWriter := mkRW {
  rw_header : gmap string string;
  rw_status : option Z;
  rw_body : list chunk
}.

Definition rw_new : ResponseWriter := mkRW ∅ None [].

Definition Header_Set (k v : string) (w : ResponseWriter) : ResponseWriter :=
  match rw_status w with
  | None => mkRW (<[k:=v]> (rw_header w)) None (rw_body w)
  | Some _ => w
  end.

(** [WriteHeader]: only the first call counts. *)
Definition WriteHeader (code : Z) (w : ResponseWriter) : ResponseWriter :=
  match rw_status w with
  | None => mkRW (rw_header w) (Some code) (rw_body w)
  | Some _ => w
  end.

(** A write sends a 200 header first when none was sent. *)
Definition Write (c : chunk) (w : ResponseWriter) : ResponseWriter :=
  let w := WriteHeader 200 w in mkRW (rw_header w) (rw_status w) (rw_body w ++ [c]).

(** [http.Error]. *)
Definition http_Error (msg : string) (code : Z) (w : ResponseWriter) : ResponseWriter :=
  let w := Header_Set "Content-Type" "text/plain; charset=utf-8" w in
  let w := Header_Set "X-Content-Type-Options" "nosniff" w in
  Write (Text msg) (WriteHeader code w).

Definition StatusOK : Z := 200.
Definition StatusNoContent : Z := 204.
Definition StatusUnauthorized : Z := 401.
Definition StatusForbidden : Z := 403.
Definition StatusNotFound : Z := 404.
Definition StatusMethodNotAllowed : Z := 405.
Definition StatusConflict : Z := 409.
Definition StatusInternalServerError : Z := 500.
Definition StatusServiceUnavailable : Z := 503.

(** A handler over a program state [S]. *)
Definition Handler (S : Type) : Type := ResponseWriter → Request → GoM S ResponseWriter.

(** ** [http.ServeMux] *)
Inductive pathSeg : Type :=
| Lit (s : string)
| Wild (name : string).

(** A pattern: an optional method and the segments; [pat_rest] is a trailing
    slash, which matches every remaining segment. *)
Record pattern := mkPattern {
  pat_method : option string;
  pat_segs : list pathSeg;
  pat_rest : bool
}.

Fixpoint match_segs (ps : list pathSeg) (rest : bool) (path : list string) :
    option (gmap string string) :=
  match ps, path with
  | [], [] => Some ∅
  | [], _ :: _ => if rest then Some ∅ else None
  | Lit s :: ps, x :: path => if decide (s = x) then match_segs ps rest path else None
  | Wild n :: ps, x :: path => insert n x <$> match_segs ps rest path
  | _ :: _, [] => None
  end.

(** A [GET] pattern also serves [HEAD]. *)
Definition match_method (pm : option string) (m : string) : bool :=
  match pm with
  | None => true
  | Some p => bool_decide (p = m) || (bool_decide (p = "GET") && bool_decide (m = "HEAD"))
  end.

(** A handler registered on a mux also receives the path values. *)
Definition routeHandler (S : Type) : Type :=
  gmap string string → Handler S.

(** Routes are listed most specific first, so the first match is the one
    [ServeMux] selects. *)
Definition route (S : Type) : Type := pattern * routeHandler S.

Fixpoint mux_find {S} (routes : list (route S)) (m : string) (path : list string) :
    option (gmap string string * routeHandler S) :=
  match routes with
  | [] => None
  | (p, h) :: routes =>
      match match_segs (pat_segs p) (pat_rest p) path with
      | Some vals =>
          if match_method (pat_method p) m then Some (vals, h) else mux_find routes m path
      | None => mux_find routes m path
      end
  end.

(** Some route has the path, whatever the method. *)
Definition mux_path_known {S} (routes : list (route S)) (path : list string) : bool :=
  existsb (λ r, match match_segs (pat_segs r.1) (pat_rest r.1) path with
                | Some _ => true | None => false end) routes.

Definition mux_ServeHTTP {S} (routes : list (route S)) : Handler S := λ w r,
  match mux_find routes (r_Method r) (r_path r) with
  | Some (vals, h) => h vals w r
  | None =>
      if mux_path_known routes (r_path r)
      then mret (http_Error "Method Not Allowed" StatusMethodNotAllowed w)
      else mret (http_Error "404 page not found" StatusNotFound w)
  end.

(** ** Lemmas *)
Lemma errors_Is_refl e : errors_Is e e = true.
Proof. destruct e; cbn [errors_Is]; rewrite bool_decide_true; done. Qed.

Lemma errors_Is_wrap msg e target :
  errors_Is e target = true → errors_Is (wrapError msg e) target = true.
Proof. intros H. cbn [errors_Is]. rewrite H. apply orb_true_r. Qed.

#[export] Hint Resolve errors_Is_refl errors_Is_wrap : golib.
