(* ===== verification/Goroutines.v ===== *)
(** * Goroutines

    A goroutine is cut at its accesses of shared state: an access reads and changes the
    state in one step (a method of [sync.Map], a critical section of a mutex), and what
    it read decides how the goroutine goes on.  [pool_step] interleaves the accesses of
    any number of goroutines in any order; a goroutine that ends with a panic nobody
    recovered ends the process, so nothing moves any more. *)
From S2P Require Import Prelude.
Set Default Goal Selector "!".

Inductive routine (W : Type) : Type :=
| REnd (o : outcome unit)
| RAct (upd : W → W) (next : W → routine W).
Arguments REnd {W} o.
Arguments RAct {W} upd next.

(** The goroutine's code when nothing else runs. *)
Fixpoint routine_run {W} (t : routine W) : GoM W unit := λ w,
  match t with
  | REnd o => (w, o)
  | RAct upd next => routine_run (next w) (upd w)
  end.

(** [recover] in a deferred function. *)
Fixpoint routine_recover {W} (t : routine W) : routine W :=
  match t with
  | REnd _ => REnd (Ret tt)
  | RAct upd next => RAct upd (λ w, routine_recover (next w))
  end.

(** Code that makes one access. *)
Definition atomically {W} (m : GoM W unit) : routine W := RAct (λ w, (m w).1) (λ w, REnd (m w).2).

(** A complete run of the goroutine, which found the states [ws] at its accesses. *)
Inductive execution {W} : routine W → list W → outcome unit → Prop :=
| ex_end o : execution (REnd o) [] o
| ex_act upd next w ws o : execution (next w) ws o → execution (RAct upd next) (w :: ws) o.

(** No goroutine has panicked. *)
Definition alive {W} (ts : list (routine W)) : Prop := ∀ msg, REnd (Panic msg) ∉ ts.

(** Goroutine [i] makes its next access; the label has the state it found. *)
Inductive pool_step {W} : W * list (routine W) → nat * W → W * list (routine W) → Prop :=
| pool_run w ts i upd next :
    alive ts → ts !! i = Some (RAct upd next) →
    pool_step (w, ts) (i, w) (upd w, <[i := next w]> ts).

(** All have returned. *)
Definition pool_done {W} (ts : list (routine W)) : Prop := Forall (λ t, t = REnd (Ret tt)) ts.

(** What goroutine [i] found in a run of the pool. *)
Definition found_by {W} (i : nat) (tr : list (nat * W)) : list W :=
  omap (λ a, if decide (a.1 = i) then Some a.2 else None) tr.

Section pools.
Context {W : Type}.
Implicit Types (w : W) (t : routine W) (ts : list (routine W)).

(** ** Recovered goroutines *)
Lemma recover_no_panic t msg : routine_recover t ≠ REnd (Panic msg).
Proof. by destruct t. Qed.

Lemma recover_execution t ws o :
  execution (routine_recover t) ws o → o = Ret tt ∧ ∃ o', execution t ws o'.
Proof.
  remember (routine_recover t) as t' eqn:Ht. intros Hex. revert t Ht.
  induction Hex as [o|upd next w ws o _ IH]; intros [o'|upd' next'] [=]; subst.
  - split; [done |]. exists o'. apply ex_end.
  - destruct (IH _ eq_refl) as [-> [o' Ho']]. split; [done |]. exists o'. by apply ex_act.
Qed.

(** Code run alone is an execution, and an execution found alone is code run alone. *)
Lemma run_recover t w : routine_run (routine_recover t) w = ((routine_run t w).1, Ret tt).
Proof. revert w; induction t as [o|upd next IH]; intros w; simpl; [done | apply IH]. Qed.

(** The goroutines are recovered ones. *)
Definition recovered ts : Prop := ∀ t, t ∈ ts → ∃ t', t = routine_recover t'.

Lemma recovered_alive ts : recovered ts → alive ts.
Proof. intros Hr msg Hin. destruct (Hr _ Hin) as [t' E]. by apply (recover_no_panic t' msg). Qed.

Lemma recovered_fmap {A} (f : A → routine W) xs : recovered ((λ x, routine_recover (f x)) <$> xs).
Proof. intros t (x & -> & _)%list_elem_of_fmap. eauto. Qed.

Lemma recovered_app ts ts' : recovered (ts ++ ts') ↔ recovered ts ∧ recovered ts'.
Proof. unfold recovered. setoid_rewrite elem_of_app. naive_solver. Qed.

Lemma done_recovered ts : pool_done ts → recovered ts.
Proof.
  unfold pool_done. rewrite Forall_forall. intros Hd t Ht. exists (REnd (Ret tt)).
  by rewrite (Hd t Ht).
Qed.

(** Replacing the goroutine in the middle. *)
Lemma insert_middle {A} (l1 l2 : list A) i x y :
  length l1 = i → <[i := y]> (l1 ++ x :: l2) = l1 ++ y :: l2.
Proof. intros <-. by rewrite <- (Nat.add_0_r (length l1)), insert_app_r. Qed.

(** ** A run of the pool, goroutine by goroutine *)

(** A goroutine that ended in a run of the pool made one complete run of its code. *)
Lemma pool_execution w ts tr w' ts' i t o :
  trace pool_step (w, ts) tr (w', ts') → ts !! i = Some t → ts' !! i = Some (REnd o) →
  execution t (found_by i tr) o.
Proof.
  remember (w, ts) as s eqn:Hs. remember (w', ts') as s' eqn:Hs'. intros Htr. revert w ts t Hs Hs'.
  induction Htr as [s|s a s1 tr s2 Hstep _ IH]; intros w ts t -> Hs' Hi Hend.
  - injection Hs' as <- <-. rewrite Hi in Hend. injection Hend as ->. apply ex_end.
  - inversion Hstep as [w0 ts0 j upd next _ Hj]; subst. unfold found_by. simpl.
    destruct (decide (j = i)) as [->|Hne].
    + rewrite Hi in Hj. injection Hj as ->. apply ex_act. eapply IH; [done | done | | done].
      apply list_lookup_insert_eq. by eapply lookup_lt_Some.
    + eapply IH; [done | done | | done]. by rewrite list_lookup_insert_ne.
Qed.

Lemma pool_length w ts tr w' ts' :
  trace pool_step (w, ts) tr (w', ts') →
  length ts' = length ts ∧ ∀ a, a ∈ tr → a.1 < length ts.
Proof.
  remember (w, ts) as s eqn:Hs. remember (w', ts') as s' eqn:Hs'. intros Htr. revert w ts Hs Hs'.
  induction Htr as [s|s a s1 tr s2 Hstep _ IH]; intros w ts -> Hs'.
  - injection Hs' as <- <-. split; [done | by intros a ?%not_elem_of_nil].
  - inversion Hstep as [w0 ts0 j upd next _ Hj]; subst.
    destruct (IH _ _ eq_refl eq_refl) as [Hl Hin]. rewrite length_insert in *. split; [done |].
    intros a [->|Ha]%elem_of_cons; [by eapply lookup_lt_Some | by apply Hin].
Qed.

(** ** Running to the end *)
Lemma pool_run_one t ts1 ts2 w :
  recovered (ts1 ++ ts2) →
  ∃ tr, trace pool_step (w, ts1 ++ routine_recover t :: ts2) tr
    ((routine_run t w).1, ts1 ++ REnd (Ret tt) :: ts2).
Proof.
  intros Hr. revert w; induction t as [o|upd next IH]; intros w; simpl; [exists []; apply trace_nil |].
  destruct (IH w (upd w)) as [tr Htr]. exists ((length ts1, w) :: tr).
  eapply trace_cons; [|exact Htr].
  replace (ts1 ++ routine_recover (next w) :: ts2)
    with (<[length ts1 := routine_recover (next w)]>
            (ts1 ++ RAct upd (λ w, routine_recover (next w)) :: ts2)) by by apply insert_middle.
  apply (pool_run w _ _ upd (λ w, routine_recover (next w))); [|by apply list_lookup_middle].
  apply recovered_alive. apply recovered_app in Hr as [H1 H2]. apply recovered_app. split; [done |].
  intros x [->|Hx]%elem_of_cons; [|by apply H2]. by exists (RAct upd next).
Qed.

(** One after the other. *)
Lemma pool_runs_in_order {A} (f : A → routine W) xs w :
  ∃ tr ts, trace pool_step (w, (λ x, routine_recover (f x)) <$> xs) tr
    (foldl (λ w x, (routine_run (f x) w).1) w xs, ts) ∧ pool_done ts.
Proof.
  enough (∀ (dn : list (routine W)) w, pool_done dn → ∃ tr ts,
    trace pool_step (w, dn ++ ((λ x, routine_recover (f x)) <$> xs)) tr
      (foldl (λ w x, (routine_run (f x) w).1) w xs, ts) ∧ pool_done ts) as H.
  { apply (H [] w). constructor. }
  clear w. induction xs as [|x xs IH]; intros dn w Hd; simpl.
  - exists [], dn. rewrite app_nil_r. split; [apply trace_nil | done].
  - destruct (pool_run_one (f x) dn ((λ x, routine_recover (f x)) <$> xs) w) as [tr1 Htr1].
    { apply recovered_app. split; [by apply done_recovered | apply recovered_fmap]. }
    destruct (IH (dn ++ [REnd (Ret tt)]) (routine_run (f x) w).1) as (tr2 & ts & Htr2 & Hts).
    { apply Forall_app. split; [done | by constructor]. }
    rewrite <- app_assoc in Htr2. exists (tr1 ++ tr2), ts. split; [by eapply trace_app | done].
Qed.

(** ** Goroutines that make one access run in some order *)
Definition one_access {A} (m : A → GoM W unit) (p : A * bool) : routine W :=
  if p.2 then REnd (Ret tt) else routine_recover (atomically (m p.1)).

(** The goroutines that have not run. *)
Definition unrun {A} (ps : list (A * bool)) : list A :=
  omap (λ p : A * bool, if p.2 then None else Some p.1) ps.

Lemma one_access_runs {A} (m : A → GoM W unit) (ps : list (A * bool)) w tr w' ts :
  trace pool_step (w, one_access m <$> ps) tr (w', ts) → pool_done ts →
  ∃ ys, ys ≡ₚ unrun ps ∧ length tr = length ys ∧ w' = foldl (λ w x, (m x w).1) w ys.
Proof.
  remember (w, one_access m <$> ps) as s eqn:Hs. remember (w', ts) as s' eqn:Hs'.
  intros Htr. revert w ps Hs Hs'.
  induction Htr as [s|s a s1 tr s2 Hstep _ IH]; intros w ps -> Hs' Hd.
  - injection Hs' as -> <-. exists []. split; [|done]. enough (unrun ps = []) as -> by done.
    induction ps as [|[x [|]] ps IHp]; [done | |]; apply Forall_cons in Hd as [H1 H2]; [by apply IHp | done].
  - inversion Hstep as [w0 ts0 i upd next Hal Hi]; subst. rewrite list_lookup_fmap in Hi.
    apply fmap_Some in Hi as ([x [|]] & Hi & E); [done |]. injection E as -> ->.
    destruct (IH (m x w).1 (<[i := (x, true)]> ps)) as (ys & Hp & Hl & ->); [by rewrite list_fmap_insert | done | done |].
    exists (x :: ys). simpl. split_and!; [|lia|done].
    rewrite <- (take_drop_middle _ _ _ Hi) in Hp |- *.
    rewrite insert_middle in Hp by (apply length_take_le, Nat.lt_le_incl; by eapply lookup_lt_Some). unfold unrun in *. rewrite omap_app in *. simpl in *.
    rewrite Hp. apply Permutation_middle.
Qed.

End pools.
