(* ===== verification/GoTime.v ===== *)
(** * Package time: instants as RFC 3339 text

    [Time.MarshalJSON] and [Time.UnmarshalJSON], which encoding/json calls for a
    [time.Time] field: the text with nanoseconds that is written, and the text that is
    accepted, which is more ([time.Parse] takes one-digit hours, a comma before the
    fraction, and offsets of 24 hours).  An instant is the number of nanoseconds since
    the Unix epoch; text is a list of bytes.  Reading back what was written is exact to
    the nanosecond. *)
From S2P Require Import Prelude GoStrings GoLib.
Set Default Goal Selector "!".
Local Open Scope Z_scope.

(** [lia] knows quotients and remainders. *)
Local Ltac Zify.zify_post_hook ::= Z.to_euclidean_division_equations.

(** The bytes of a Go string. *)
Definition bytes_of (s : string) : list Z :=
  (λ c, Z.of_N (N_of_ascii c)) <$> String.list_ascii_of_string s.

Definition string_of (l : list Z) : string :=
  String.string_of_list_ascii ((λ b, ascii_of_N (Z.to_N b)) <$> l).

Definition is_byte (b : Z) : Prop := 0 ≤ b < 256.

(** ** The calendar

    Years are counted from March, so that the leap day is the last of its year; 719468
    days lie between March 1 of year 0 and the epoch. *)
Definition is_leap (y : Z) : bool :=
  (y mod 4 =? 0) && (negb (y mod 100 =? 0) || (y mod 400 =? 0)).

(** [daysIn]. *)
Definition days_in (m y : Z) : Z :=
  if m =? 2 then (if is_leap y then 29 else 28)
  else if (m =? 4) || (m =? 6) || (m =? 9) || (m =? 11) then 30 else 31.

(** The day number of a date, and the date of a day number. *)
Definition days_of_date (y m d : Z) : Z :=
  let y' := if m <=? 2 then y - 1 else y in
  let mp := if m <=? 2 then m + 9 else m - 3 in
  365 * y' + y' / 4 - y' / 100 + y' / 400 + (153 * mp + 2) / 5 + (d - 1) - 719468.

Definition date_of_days (n : Z) : Z * Z * Z :=
  let r400 := (n + 719468) mod 146097 in
  let c := Z.min (r400 / 36524) 3 in
  let r100 := r400 - 36524 * c in
  let q := r100 / 1461 in
  let r4 := r100 - 1461 * q in
  let a := Z.min (r4 / 365) 3 in
  let doy := r4 - 365 * a in
  let mp := (5 * doy + 2) / 153 in
  let y := 400 * ((n + 719468) / 146097) + 100 * c + 4 * q + a in
  let m := if mp <? 10 then mp + 3 else mp - 9 in
  (if m <=? 2 then y + 1 else y, m, doy - (153 * mp + 2) / 5 + 1).

(** ** Digits *)
Definition is_digit (b : Z) : bool := (48 <=? b) && (b <=? 57).

(** The last [k] decimal digits of [n], as [appendInt] writes a number of that width. *)
Fixpoint pad (k : nat) (n : Z) : list Z :=
  match k with
  | O => []
  | S k => (48 + (n / 10 ^ Z.of_nat k) mod 10) :: pad k n
  end.

(** Without the zeros at the end. *)
Fixpoint trim (ds : list Z) : list Z :=
  match ds with
  | [] => []
  | d :: ds => match trim ds with
               | [] => if d =? 48 then [] else [d]
               | ds' => d :: ds'
               end
  end.

(** The digits after the point as a number of [10 ^ -k]: [parseNanoseconds] with [k] = 9
    ignores further digits. *)
Fixpoint frac (k : nat) (ds : list Z) : Z :=
  match k, ds with
  | S k, d :: ds => (d - 48) * 10 ^ Z.of_nat k + frac k ds
  | _, _ => 0
  end.

(** ** Writing *)
Definition ns_per_second : Z := 1000000000.
Definition seconds_per_day : Z := 86400.

(** [appendNano] with layout [.999999999]: nothing for zero. *)
Definition nano_text (ns : Z) : list Z :=
  match trim (pad 9 ns) with [] => [] | ds => 46 :: ds end.

(** The zone: [Z], or the sign, hours and minutes of the offset in seconds, rounded
    towards zero. *)
Definition zone_text (offset : Z) : list Z :=
  if offset =? 0 then [90]
  else
    let zone := Z.quot offset 60 in
    (if zone <? 0 then 45 else 43) :: pad 2 (Z.abs zone / 60) ++ 58 :: pad 2 (Z.abs zone mod 60).

Definition clock_text (sod : Z) : list Z :=
  pad 2 (sod / 3600) ++ 58 :: pad 2 (sod / 60 mod 60) ++ 58 :: pad 2 (sod mod 60).

(** [Time.MarshalJSON] without the quotes: the instant [t] in a zone [offset] seconds
    east of UTC.  It is refused when the year does not have four digits or the zone is a
    day or more away. *)
Definition time_text (offset t : Z) : result (list Z) :=
  let local := t / ns_per_second + offset in
  let '(y, m, d) := date_of_days (local / seconds_per_day) in
  if (y <? 0) || (9999 <? y) then
    Err (errorf "Time.MarshalJSON: year outside of range [0,9999]")
  else if 24 <=? Z.abs (Z.quot offset 60) / 60 then
    Err (errorf "Time.MarshalJSON: timezone hour outside of range [0,23]")
  else
    Ok (pad 4 y ++ 45 :: pad 2 m ++ 45 :: pad 2 d ++ 84 :: clock_text (local mod seconds_per_day) ++
        nano_text (t mod ns_per_second) ++ zone_text offset).

(** ** Reading *)

(** [skip] of one character of the layout. *)
Definition skip (c : Z) (s : list Z) : option (list Z) :=
  match s with b :: s' => if b =? c then Some s' else None | [] => None end.

(** [getnum]: two digits, or one when [fixed] is not set. *)
Definition getnum (fixed : bool) (s : list Z) : option (Z * list Z) :=
  match s with
  | b0 :: s1 =>
      if is_digit b0 then
        match s1 with
        | b1 :: s2 =>
            if is_digit b1 then Some (10 * (b0 - 48) + (b1 - 48), s2)
            else if fixed then None else Some (b0 - 48, s1)
        | [] => if fixed then None else Some (b0 - 48, s1)
        end
      else None
  | [] => None
  end.

(** [getnum] followed by the range test. *)
Definition getnum_in (fixed : bool) (lo hi : Z) (s : list Z) : option (Z * list Z) :=
  '(n, s') ← getnum fixed s;
  if (lo <=? n) && (n <=? hi) then Some (n, s') else None.

(** The four digits of the year. *)
Definition getyear (s : list Z) : option (Z * list Z) :=
  '(a, s1) ← getnum true s;
  '(b, s2) ← getnum true s1;
  Some (100 * a + b, s2).

(** The digits at the front. *)
Fixpoint span_digits (s : list Z) : list Z * list Z :=
  match s with
  | b :: s' => if is_digit b then let '(ds, r) := span_digits s' in (b :: ds, r) else ([], s)
  | [] => ([], [])
  end.

(** An optional fraction of the seconds, after a point or a comma. *)
Definition getfrac (s : list Z) : Z * list Z :=
  match s with
  | p :: b :: s' =>
      if ((p =? 46) || (p =? 44)) && is_digit b then
        let '(ds, r) := span_digits (b :: s') in (frac 9 ds, r)
      else (0, s)
  | _ => (0, s)
  end.

(** The zone, to the end of the text: its offset in seconds. *)
Definition getzone (s : list Z) : option Z :=
  match s with
  | [90] => Some 0
  | sign :: s1 =>
      '(hr, s2) ← getnum_in true 0 24 s1;
      s3 ← skip 58 s2;
      '(mm, s4) ← getnum_in true 0 60 s3;
      match s4 with
      | [] => if sign =? 43 then Some ((hr * 60 + mm) * 60)
              else if sign =? 45 then Some (- ((hr * 60 + mm) * 60)) else None
      | _ => None
      end
  | [] => None
  end.

(** [Time.UnmarshalJSON] on the text between the quotes: [time.Parse] with layout
    [RFC3339].  The day is tested against its month at the end. *)
Definition time_parse (s : list Z) : option Z :=
  '(y, s) ← getyear s;
  s ← skip 45 s;
  '(m, s) ← getnum_in true 1 12 s;
  s ← skip 45 s;
  '(d, s) ← getnum true s;
  s ← skip 84 s;
  '(hour, s) ← getnum_in false 0 23 s;
  s ← skip 58 s;
  '(min, s) ← getnum_in true 0 59 s;
  s ← skip 58 s;
  '(sec, s) ← getnum_in true 0 59 s;
  let '(ns, s) := getfrac s in
  offset ← getzone s;
  if (1 <=? d) && (d <=? days_in m y) then
    Some ((days_of_date y m d * seconds_per_day + hour * 3600 + min * 60 + sec - offset) *
            ns_per_second + ns)
  else None.

(** The zero [time.Time]: January 1 of year 1, UTC. *)
Definition time_zero : Z := days_of_date 1 1 1 * seconds_per_day * ns_per_second.

Example time_text_example :
  (string_of <$> match time_text 3600 1704164645120000000 with Ok l => Some l | Err _ => None end) =
  Some "2024-01-02T04:04:05.12+01:00".
Proof. vm_compute. reflexivity. Qed.

Example time_parse_example :
  time_parse (bytes_of "2024-01-02T4:04:05,12+01:00") = Some 1704164645120000000.
Proof. vm_compute. reflexivity. Qed.

(** ** The calendar is a bijection *)
(** ** The calendar *)

(** A day in its cycle of 400 years is determined by the century, the group of four
    years, the year and the day of the year. *)
Lemma cycle_parts r :
  0 ≤ r < 146097 →
  let c := Z.min (r / 36524) 3 in
  let q := (r - 36524 * c) / 1461 in
  let a := Z.min ((r - 36524 * c - 1461 * q) / 365) 3 in
  let doy := r - 36524 * c - 1461 * q - 365 * a in
  0 ≤ c ≤ 3 ∧ 0 ≤ q ≤ 24 ∧ 0 ≤ a ≤ 3 ∧ 0 ≤ doy ≤ 365 ∧
  (doy = 365 → a = 3 ∧ (q = 24 → c = 3)).
Proof.
  intros Hr c q a doy.
  assert (0 ≤ c ≤ 3 ∧ 36524 * c ≤ r ∧ (r < 36524 * c + 36524 ∨ c = 3)) as (Hc & Hc1 & Hc2)
    by (unfold c; lia).
  clearbody c.
  assert (0 ≤ q ≤ 24 ∧ 0 ≤ r - 36524 * c - 1461 * q < 1461) as (Hq & Hq1) by (unfold q; lia).
  clearbody q.
  assert (0 ≤ a ≤ 3 ∧ 0 ≤ doy ≤ 365 ∧ (doy = 365 → a = 3)) as (Ha & Hd & Hd1)
    by (unfold doy, a; lia).
  split_and!; lia.
Qed.

(** The year a cycle's parts make. *)
Lemma cycle_year e c q a :
  0 ≤ c ≤ 3 → 0 ≤ q ≤ 24 → 0 ≤ a ≤ 3 →
  let y := 400 * e + 100 * c + 4 * q + a in
  365 * y + y / 4 - y / 100 + y / 400 = 146097 * e + 36524 * c + 1461 * q + 365 * a ∧
  (a = 3 → (q = 24 → c = 3) → is_leap (y + 1) = true).
Proof.
  intros Hc Hq Ha y. unfold y, is_leap. split; [lia |]. intros -> Hqc.
  apply andb_true_intro. split; [lia |].
  destruct (decide (q = 24)) as [->|Hq24]; [rewrite (Hqc eq_refl); lia |].
  apply orb_true_intro. left. apply negb_true_iff, Z.eqb_neq.
  replace (400 * e + 100 * c + 4 * q + 3 + 1) with ((4 * q + 4) + (4 * e + c) * 100) by lia.
  rewrite Z_mod_plus_full. lia.
Qed.

(** The month of a day of the year that begins in March. *)
Lemma month_parts doy y :
  0 ≤ doy ≤ 365 → (doy = 365 → is_leap (y + 1) = true) →
  let mp := (5 * doy + 2) / 153 in
  let m := if mp <? 10 then mp + 3 else mp - 9 in
  let d := doy - (153 * mp + 2) / 5 + 1 in
  0 ≤ mp ≤ 11 ∧ 1 ≤ m ≤ 12 ∧ (m <=? 2) = negb (mp <? 10) ∧
  1 ≤ d ≤ days_in m (if m <=? 2 then y + 1 else y).
Proof.
  intros Hd Hl mp m d.
  assert (0 ≤ mp ≤ 11) as Hmp by (unfold mp; lia).
  assert (153 * mp ≤ 5 * doy + 2 < 153 * mp + 153) as Hb by (unfold mp; lia).
  unfold d, m, days_in. clearbody mp.
  assert (mp = 0 ∨ mp = 1 ∨ mp = 2 ∨ mp = 3 ∨ mp = 4 ∨ mp = 5 ∨ mp = 6 ∨ mp = 7 ∨ mp = 8 ∨ mp = 9 ∨
    mp = 10 ∨ mp = 11) as Hcases by lia.
  clear m d. destruct_or! Hcases; subst mp;
    repeat match goal with
    | |- context [?a =? ?b] => let v := eval vm_compute in (a =? b) in change (a =? b) with v
    | |- context [?a <=? ?b] => let v := eval vm_compute in (a <=? b) in change (a <=? b) with v
    | |- context [?a <? ?b] => let v := eval vm_compute in (a <? b) in change (a <? b) with v
    end; cbn [orb negb]; try lia.
  destruct (decide (doy = 365)) as [E|E]; [rewrite (Hl E); lia |].
  destruct (is_leap (y + 1)); lia.
Qed.

(** A day number's date is a date of the calendar, and its day number is that. *)
Lemma date_of_days_inv n y m d :
  date_of_days n = (y, m, d) →
  days_of_date y m d = n ∧ 1 ≤ m ≤ 12 ∧ 1 ≤ d ≤ days_in m y.
Proof.
  unfold date_of_days.
  set (e := (n + 719468) / 146097). set (r := (n + 719468) mod 146097).
  assert (n + 719468 = 146097 * e + r ∧ 0 ≤ r < 146097) as [HN Hr] by (unfold e, r; lia).
  clearbody e r. pose proof (cycle_parts r Hr) as Hp.
  set (c := Z.min (r / 36524) 3) in *. set (q := (r - 36524 * c) / 1461) in *.
  set (a := Z.min ((r - 36524 * c - 1461 * q) / 365) 3) in *.
  set (doy := r - 36524 * c - 1461 * q - 365 * a) in *. cbv zeta in Hp.
  destruct Hp as (Hc & Hq & Ha & Hdoy & Hlast).
  destruct (cycle_year e c q a Hc Hq Ha) as [Hy Hleap].
  set (y0 := 400 * e + 100 * c + 4 * q + a) in *.
  destruct (month_parts doy y0 Hdoy) as (Hmp & Hm & Hm2 & Hd); [by intros [? ?]%Hlast; auto |].
  set (mp := (5 * doy + 2) / 153) in *. intros [= <- <- <-].
  split; [|done]. unfold days_of_date. rewrite Hm2.
  assert (doy = r - 36524 * c - 1461 * q - 365 * a) as Hdoy' by done.
  clearbody c q a doy y0 mp. destruct (mp <? 10); cbn [negb].
  - replace (mp + 3 - 3) with mp by lia. lia.
  - replace (y0 + 1 - 1) with y0 by lia. replace (mp - 9 + 9) with mp by lia. lia.
Qed.

(** ** Digits read back *)
Lemma digit_ok d : 0 ≤ d < 10 → is_digit (48 + d) = true.
Proof. unfold is_digit. lia. Qed.

Lemma pad_digits k n : Forall (λ b, is_digit b = true) (pad k n).
Proof. induction k as [|k IH]; simpl; constructor; [|done]. apply digit_ok. lia. Qed.

Lemma frac_trim k ds : frac k (trim ds) = frac k ds.
Proof.
  revert k; induction ds as [|d ds IH]; intros k; [done |]. simpl.
  destruct (trim ds) as [|e es] eqn:E.
  - destruct k as [|k]; simpl; [by destruct (d =? 48) |]. rewrite <- IH.
    destruct (Z.eqb_spec d 48) as [->|_]; destruct k; simpl; lia.
  - destruct k as [|k]; [done |]. cbn [frac]. by rewrite <- IH.
Qed.

Lemma frac_pad k n : frac k (pad k n) = n mod 10 ^ Z.of_nat k.
Proof.
  induction k as [|k IH]; [simpl; by rewrite Z.mod_1_r |]. cbn [pad frac]. rewrite IH.
  replace (48 + (n / 10 ^ Z.of_nat k) mod 10 - 48) with ((n / 10 ^ Z.of_nat k) mod 10) by lia.
  replace (Z.of_nat (S k)) with (Z.of_nat k + 1) by lia.
  rewrite Z.pow_add_r, Z.pow_1_r, Z.rem_mul_r by lia. lia.
Qed.

Lemma trim_digits ds : Forall (λ b, is_digit b = true) ds → Forall (λ b, is_digit b = true) (trim ds).
Proof.
  induction 1 as [|d ds Hd _ IH]; [done |]. simpl. destruct (trim ds); [|by constructor].
  destruct (d =? 48); by repeat constructor.
Qed.

Lemma getnum_pad n s fixed : 0 ≤ n < 100 → getnum fixed (pad 2 n ++ s) = Some (n, s).
Proof.
  intros Hn. cbn [pad app getnum Z.of_nat]. rewrite !digit_ok by lia. do 2 f_equal.
  change (10 ^ Z.of_nat 1) with 10. change (10 ^ 0) with 1. lia.
Qed.

Lemma getnum_in_pad n s fixed lo hi :
  0 ≤ n < 100 → lo ≤ n ≤ hi → getnum_in fixed lo hi (pad 2 n ++ s) = Some (n, s).
Proof.
  intros Hn Hr. unfold getnum_in. rewrite getnum_pad by done. simpl.
  by rewrite (proj2 (Z.leb_le _ _)), (proj2 (Z.leb_le _ _)) by lia.
Qed.

Lemma pad_4 y : pad 4 y = pad 2 (y / 100) ++ pad 2 y.
Proof.
  cbn [pad app]. f_equal; [|f_equal].
  - change (10 ^ Z.of_nat 3) with 1000. change (10 ^ Z.of_nat 1) with 10. lia.
  - change (10 ^ Z.of_nat 2) with 100. change (10 ^ Z.of_nat 0) with 1. lia.
Qed.

Lemma pad_mod n : pad 2 n = pad 2 (n mod 100).
Proof.
  cbn [pad]. change (10 ^ Z.of_nat 1) with 10. change (10 ^ Z.of_nat 0) with 1.
  f_equal; [lia |]. f_equal. lia.
Qed.

Lemma getyear_pad y s : 0 ≤ y ≤ 9999 → getyear (pad 4 y ++ s) = Some (y, s).
Proof.
  intros Hy. unfold getyear. rewrite pad_4, <- app_assoc, getnum_pad by lia. cbn [mbind option_bind].
  rewrite (pad_mod y). rewrite (getnum_pad (y mod 100)) by lia. cbn [mbind option_bind]. do 2 f_equal. lia.
Qed.

Lemma span_digits_app ds s :
  Forall (λ b, is_digit b = true) ds →
  match s with [] => True | b :: _ => is_digit b = false end →
  span_digits (ds ++ s) = (ds, s).
Proof.
  intros Hds Hs. induction Hds as [|d ds Hd _ IH]; simpl.
  - destruct s as [|b s]; [done |]. simpl. by rewrite Hs.
  - by rewrite Hd, IH.
Qed.

(** ** An instant read back *)

(** A zone begins with neither a digit nor a separator. *)
Lemma zone_text_head offset :
  ∃ b l, zone_text offset = b :: l ∧ is_digit b = false ∧ (b =? 46) = false ∧ (b =? 44) = false.
Proof.
  unfold zone_text. destruct (offset =? 0); [by eexists _, _ |].
  destruct (Z.quot offset 60 <? 0); by eexists _, _.
Qed.

Lemma getfrac_nano ns offset :
  0 ≤ ns < ns_per_second → getfrac (nano_text ns ++ zone_text offset) = (ns, zone_text offset).
Proof.
  intros Hns. destruct (zone_text_head offset) as (b & l & -> & Hd & Hp & Hc).
  assert (frac 9 (trim (pad 9 ns)) = ns) as Hv.
  { rewrite frac_trim, frac_pad, Z.mod_small; [done |]. exact Hns. }
  pose proof (trim_digits _ (pad_digits 9 ns)) as Hds.
  unfold nano_text. destruct (trim (pad 9 ns)) as [|d ds]; cbn [app getfrac].
  - simpl in Hv. subst ns. destruct l; [done |]. by rewrite Hp, Hc.
  - cbn [Z.eqb Pos.eqb orb]. pose proof Hds as [Hd0 _]%Forall_cons. rewrite Hd0. cbn [andb].
    change (d :: (ds ++ b :: l)) with ((d :: ds) ++ b :: l).
    rewrite span_digits_app by done. by rewrite Hv.
Qed.

Lemma getzone_text offset :
  Z.abs (Z.quot offset 60) / 60 < 24 → getzone (zone_text offset) = Some (60 * Z.quot offset 60).
Proof.
  intros Hz. unfold zone_text. destruct (Z.eqb_spec offset 0) as [->|Hne]; [done |].
  set (zone := Z.quot offset 60) in *. clearbody zone. unfold getzone.
  set (tl := pad 2 (Z.abs zone / 60) ++ 58 :: pad 2 (Z.abs zone mod 60)).
  assert (∀ sign, (sign =? 43) || (sign =? 45) = true →
    ('(hr, s2) ← getnum_in true 0 24 tl; s3 ← skip 58 s2; '(mm, s4) ← getnum_in true 0 60 s3;
     match s4 with
     | [] => if sign =? 43 then Some ((hr * 60 + mm) * 60)
             else if sign =? 45 then Some (- ((hr * 60 + mm) * 60)) else None
     | _ => None
     end) = Some (if sign =? 43 then Z.abs zone * 60 else - (Z.abs zone * 60))) as Hall.
  { intros sign Hs. unfold tl. rewrite getnum_in_pad by lia. cbn [mbind option_bind skip Z.eqb Pos.eqb].
    rewrite <- (app_nil_r (pad 2 (Z.abs zone mod 60))). rewrite getnum_in_pad by lia.
    cbn [mbind option_bind]. destruct (sign =? 43); [f_equal; lia |]. simpl in Hs. rewrite Hs. f_equal. lia. }
  destruct (Z.ltb_spec zone 0).
  - transitivity (Some (- (Z.abs zone * 60))); [|f_equal; lia]. exact (Hall 45 eq_refl).
  - transitivity (Some (Z.abs zone * 60)); [|f_equal; lia]. exact (Hall 43 eq_refl).
Qed.

Lemma clock_parts sod :
  0 ≤ sod < seconds_per_day →
  0 ≤ sod / 3600 ≤ 23 ∧ 0 ≤ sod / 60 mod 60 ≤ 59 ∧ 0 ≤ sod mod 60 ≤ 59 ∧
  sod / 3600 * 3600 + sod / 60 mod 60 * 60 + sod mod 60 = sod.
Proof. unfold seconds_per_day. intros H. lia. Qed.

Lemma days_in_le m y : days_in m y ≤ 31.
Proof. unfold days_in. repeat case_match; lia. Qed.

(** What is read is the instant that was written, up to the seconds of the zone's offset,
    which the text does not have. *)
Lemma time_parse_text offset t txt :
  time_text offset t = Ok txt →
  time_parse txt = Some (t + Z.rem offset 60 * ns_per_second).
Proof.
  unfold time_text. set (local := t / ns_per_second + offset).
  destruct (date_of_days (local / seconds_per_day)) as [[y m] d] eqn:E.
  destruct (date_of_days_inv _ _ _ _ E) as (Hn & Hm & Hd). pose proof (days_in_le m y) as Hd31.
  destruct (Z.ltb_spec y 0); [done |]. destruct (Z.ltb_spec 9999 y); [done |]. cbn [orb].
  destruct (Z.leb_spec 24 (Z.abs (Z.quot offset 60) / 60)) as [|Hz]; [done |]. intros <-%Ok_inj.
  assert (0 ≤ local mod seconds_per_day < seconds_per_day) as Hsod by (unfold seconds_per_day; lia).
  destruct (clock_parts _ Hsod) as (Hh & Hmi & Hs & Hsum).
  unfold time_parse, clock_text. rewrite getyear_pad by lia. cbn [mbind option_bind skip Z.eqb Pos.eqb].
  rewrite getnum_in_pad by lia. cbn [mbind option_bind skip Z.eqb Pos.eqb].
  rewrite getnum_pad by lia. cbn [mbind option_bind skip Z.eqb Pos.eqb].
  rewrite <- !app_assoc, getnum_in_pad by lia. cbn [app mbind option_bind skip Z.eqb Pos.eqb].
  rewrite <- !app_assoc, getnum_in_pad by lia. cbn [app mbind option_bind skip Z.eqb Pos.eqb].
  rewrite getnum_in_pad by lia. cbn [mbind option_bind].
  rewrite getfrac_nano by (unfold ns_per_second; lia).
  rewrite getzone_text by done. cbn [mbind option_bind].
  rewrite (proj2 (Z.leb_le 1 d)), (proj2 (Z.leb_le d _)) by lia. cbn [andb]. f_equal.
  rewrite Hn. unfold local in *. unfold seconds_per_day, ns_per_second in *. lia.
Qed.

(** An instant is written unless its year or its zone is out of range. *)
Lemma time_text_refused offset t :
  match time_text offset t with
  | Ok _ => True
  | Err _ =>
      let '(y, _, _) := date_of_days ((t / ns_per_second + offset) / seconds_per_day) in
      ¬ (0 ≤ y ≤ 9999 ∧ Z.abs offset < 24 * 3600)
  end.
Proof.
  destruct (time_text offset t) as [txt|e] eqn:E; [done |].
  unfold time_text in E. destruct (date_of_days _) as [[y m] d].
  destruct (Z.ltb_spec y 0); [lia |]. destruct (Z.ltb_spec 9999 y); [lia |]. cbn [orb] in E.
  destruct (Z.leb_spec 24 (Z.abs (Z.quot offset 60) / 60)); [|done]. lia.
Qed.

(** ** The characters of the text: digits, signs, point, colon, T and Z *)
Definition time_char (b : Z) : Prop := 43 ≤ b ≤ 90.

Lemma digits_time_chars ds : Forall (λ b, is_digit b = true) ds → Forall time_char ds.
Proof. intros H. eapply Forall_impl; [exact H |]. intros b Hb. unfold is_digit, time_char in *. lia. Qed.

Lemma pad_time_chars k n : Forall time_char (pad k n).
Proof. apply digits_time_chars, pad_digits. Qed.

Lemma time_text_chars offset t txt : time_text offset t = Ok txt → Forall time_char txt.
Proof.
  unfold time_text. destruct (date_of_days _) as [[y m] d]. repeat case_match; [done | done |]. intros <-%Ok_inj.
  assert (Forall time_char (nano_text (t mod ns_per_second))) as Hn.
  { unfold nano_text. pose proof (digits_time_chars _ (trim_digits _ (pad_digits 9 (t mod ns_per_second)))) as Hd.
    destruct (trim _); [done |]. constructor; [unfold time_char; lia | done]. }
  assert (Forall time_char (zone_text offset)) as Hz.
  { unfold zone_text. repeat case_match; rewrite ?Forall_cons, ?Forall_app, ?Forall_cons; split_and!;
      try apply pad_time_chars; try constructor; unfold time_char; lia. }
  unfold clock_text. rewrite <- !app_assoc. repeat (rewrite Forall_app || rewrite Forall_cons || cbn [app]).
  split_and!; try apply pad_time_chars; try done; unfold time_char; lia.
Qed.
