(* ===== verification/GoJson.v ===== *)
(** * Packages encoding/json and unicode/utf8: JSON text

    What the brokers' codec uses of encoding/json: how a string is written, and how a
    payload is read into a value.  Text is a list of bytes.  Reading is the scanner's
    automaton: tokens byte by byte, then a stack of open arrays and objects as the
    scanner keeps it, so that both are structural in the input and need no fuel.

    Writing a string replaces bytes that are not UTF-8 by U+FFFD; that is all a string
    loses on the way ([unquote_quote]); every string the scanner lets through can be
    unquoted ([lex_unquotes]). *)
From S2P Require Import Prelude GoStrings GoLib GoTime.
Set Default Goal Selector "!".
Local Open Scope Z_scope.
Local Ltac Zify.zify_post_hook ::= Z.to_euclidean_division_equations.

Definition between (lo hi b : Z) : bool := (lo <=? b) && (b <=? hi).

(** ** UTF-8 *)
Definition RuneError : Z := 65533.

Definition is_cont (b : Z) : bool := between 128 191 b.

(** The first two bytes of an encoding of three and of four bytes: no overlong form, no
    surrogate, nothing above U+10FFFF. *)
Definition lead3 (b0 b1 : Z) : bool :=
  ((b0 =? 224) && between 160 191 b1) || (between 225 236 b0 && is_cont b1) ||
  ((b0 =? 237) && between 128 159 b1) || (between 238 239 b0 && is_cont b1).

Definition lead4 (b0 b1 : Z) : bool :=
  ((b0 =? 240) && between 144 191 b1) || (between 241 243 b0 && is_cont b1) ||
  ((b0 =? 244) && between 128 143 b1).

(** [utf8.DecodeRune] over the whole text: each rune with the bytes it was read from; a
    byte that begins no encoding is [RuneError] with that one byte. *)
Fixpoint runes (s : list Z) : list (Z * list Z) :=
  match s with
  | [] => []
  | b0 :: s1 =>
      if b0 <? 128 then (b0, [b0]) :: runes s1
      else
        match s1 with
        | [] => (RuneError, [b0]) :: runes s1
        | b1 :: s2 =>
            if between 194 223 b0 && is_cont b1 then
              (64 * (b0 - 192) + (b1 - 128), [b0; b1]) :: runes s2
            else
              match s2 with
              | [] => (RuneError, [b0]) :: runes s1
              | b2 :: s3 =>
                  if lead3 b0 b1 && is_cont b2 then
                    (4096 * (b0 - 224) + 64 * (b1 - 128) + (b2 - 128), [b0; b1; b2]) :: runes s3
                  else
                    match s3 with
                    | [] => (RuneError, [b0]) :: runes s1
                    | b3 :: s4 =>
                        if lead4 b0 b1 && is_cont b2 && is_cont b3 then
                          (262144 * (b0 - 240) + 4096 * (b1 - 128) + 64 * (b2 - 128) + (b3 - 128),
                           [b0; b1; b2; b3]) :: runes s4
                        else (RuneError, [b0]) :: runes s1
                    end
              end
        end
  end.

(** [utf8.EncodeRune]. *)
Definition is_surrogate (r : Z) : bool := between 55296 57343 r.

Definition encode_rune (r : Z) : list Z :=
  if (r <? 0) || (1114111 <? r) || is_surrogate r then [239; 191; 189]
  else if r <? 128 then [r]
  else if r <? 2048 then [192 + r / 64; 128 + r mod 64]
  else if r <? 65536 then [224 + r / 4096; 128 + r / 64 mod 64; 128 + r mod 64]
  else [240 + r / 262144; 128 + r / 4096 mod 64; 128 + r / 64 mod 64; 128 + r mod 64].

(** A byte that is not part of an encoding. *)
Definition is_bad (x : Z * list Z) : bool :=
  match x with (r, [_]) => r =? RuneError | _ => false end.

Definition valid_utf8 (s : list Z) : Prop := Forall (λ x, is_bad x = false) (runes s).

(** The text with every bad byte replaced by U+FFFD. *)
Definition to_valid (s : list Z) : list Z := runes s ≫= λ x, encode_rune x.1.

(** ** Writing a string: [appendString] with HTML escaping *)
Definition hexdigit (d : Z) : Z := if d <? 10 then 48 + d else 87 + d.

(** [htmlSafeSet]: not a control character, not one of the characters quote,
    backslash, [<], [>] and [&]. *)
Definition html_safe (b : Z) : bool :=
  (32 <=? b) && negb ((b =? 34) || (b =? 92) || (b =? 60) || (b =? 62) || (b =? 38)).

Definition escape_ascii (b : Z) : list Z :=
  if (b =? 34) || (b =? 92) then [92; b]
  else if b =? 8 then [92; 98]
  else if b =? 12 then [92; 102]
  else if b =? 10 then [92; 110]
  else if b =? 13 then [92; 114]
  else if b =? 9 then [92; 116]
  else [92; 117; 48; 48; hexdigit (b / 16); hexdigit (b mod 16)].

Definition quote_rune (x : Z * list Z) : list Z :=
  let '(r, bs) := x in
  if r <? 128 then (if html_safe r then bs else escape_ascii r)
  else if is_bad x then [92; 117; 102; 102; 102; 100]
  else if (r =? 8232) || (r =? 8233) then [92; 117; 50; 48; 50; hexdigit (r mod 16)]
  else bs.

(** The text between the quotes, and the string. *)
Definition quote (s : list Z) : list Z := runes s ≫= quote_rune.
Definition quote_string (s : list Z) : list Z := 34 :: quote s ++ [34].

(** ** Reading a string: [unquote], on the runes between the quotes *)
Definition hexval (r : Z) : option Z :=
  if is_digit r then Some (r - 48)
  else if between 97 102 r then Some (r - 87)
  else if between 65 70 r then Some (r - 55)
  else None.

Definition hex4 (a b c d : Z) : option Z :=
  a ← hexval a; b ← hexval b; c ← hexval c; d ← hexval d;
  Some (4096 * a + 256 * b + 16 * c + d).

(** [utf16.DecodeRune] when the two are a surrogate pair. *)
Definition decode_pair (r1 r2 : Z) : option Z :=
  if between 55296 56319 r1 && between 56320 57343 r2 then
    Some (65536 + 1024 * (r1 - 55296) + (r2 - 56320))
  else None.

(** The character an escape stands for. *)
Definition simple_escape (e : Z) : option Z :=
  if (e =? 34) || (e =? 92) || (e =? 47) || (e =? 39) then Some e
  else if e =? 98 then Some 8
  else if e =? 102 then Some 12
  else if e =? 110 then Some 10
  else if e =? 114 then Some 13
  else if e =? 116 then Some 9
  else None.

Definition prepend (l : list Z) (o : option (list Z)) : option (list Z) := (app l) <$> o.

Fixpoint unquote (us : list Z) : option (list Z) :=
  match us with
  | [] => Some []
  | c :: us1 =>
      if c =? 92 then
        match us1 with
        | [] => None
        | e :: us2 =>
            if e =? 117 then
              match us2 with
              | h1 :: h2 :: h3 :: h4 :: us3 =>
                  match hex4 h1 h2 h3 h4 with
                  | None => None
                  | Some r =>
                      if is_surrogate r then
                        match us3 with
                        | a :: u :: k1 :: k2 :: k3 :: k4 :: us4 =>
                            match (if (a =? 92) && (u =? 117) then
                                     r2 ← hex4 k1 k2 k3 k4; decode_pair r r2
                                   else None) with
                            | Some dec => prepend (encode_rune dec) (unquote us4)
                            | None => prepend (encode_rune RuneError) (unquote us3)
                            end
                        | _ => prepend (encode_rune RuneError) (unquote us3)
                        end
                      else prepend (encode_rune r) (unquote us3)
                  end
              | _ => None
              end
            else
              match simple_escape e with
              | None => None
              | Some b => prepend [b] (unquote us2)
              end
        end
      else if (c =? 34) || (c <? 32) then None
      else prepend (encode_rune c) (unquote us1)
  end.

Definition unquote_bytes (raw : list Z) : option (list Z) := unquote (runes raw).*1.

(** ** Tokens *)
Inductive token : Type :=
| TLBrace | TRBrace | TLBracket | TRBracket | TComma | TColon
| TNull | TTrue | TFalse | TNumber
| TString (raw : list Z).

(** Where a number is: after its minus sign, a leading zero, other digits, the point,
    digits after it, the exponent's letter, its sign, its digits. *)
Inductive num_state : Type := NMinus | NZero | NInt | NDot | NFrac | NExp | NExpSign | NExpInt.

(** Where the scanner is: between tokens; in a string, after its backslash, or with [k] hex
    digits of [\u] to come; in a literal with the characters to come; in a number. *)
Inductive lex_state : Type :=
| LStart
| LString (raw : list Z)
| LEscape (raw : list Z)
| LHex (k : nat) (raw : list Z)
| LLiteral (t : token) (rest : list Z)
| LNumber (n : num_state).

Definition is_space (c : Z) : bool := (c =? 32) || (c =? 9) || (c =? 13) || (c =? 10).

(** A character between tokens. *)
Definition lex_begin (c : Z) : option (list token * lex_state) :=
  if is_space c then Some ([], LStart)
  else if c =? 123 then Some ([TLBrace], LStart)
  else if c =? 125 then Some ([TRBrace], LStart)
  else if c =? 91 then Some ([TLBracket], LStart)
  else if c =? 93 then Some ([TRBracket], LStart)
  else if c =? 44 then Some ([TComma], LStart)
  else if c =? 58 then Some ([TColon], LStart)
  else if c =? 34 then Some ([], LString [])
  else if c =? 110 then Some ([], LLiteral TNull [117; 108; 108])
  else if c =? 116 then Some ([], LLiteral TTrue [114; 117; 101])
  else if c =? 102 then Some ([], LLiteral TFalse [97; 108; 115; 101])
  else if c =? 45 then Some ([], LNumber NMinus)
  else if c =? 48 then Some ([], LNumber NZero)
  else if is_digit c then Some ([], LNumber NInt)
  else None.

(** The next state of a number; [None] when the character is not part of it. *)
Definition num_next (n : num_state) (c : Z) : option num_state :=
  let e := (c =? 101) || (c =? 69) in
  match n with
  | NMinus => if c =? 48 then Some NZero else if is_digit c then Some NInt else None
  | NZero => if c =? 46 then Some NDot else if e then Some NExp else None
  | NInt => if is_digit c then Some NInt else if c =? 46 then Some NDot else if e then Some NExp else None
  | NDot => if is_digit c then Some NFrac else None
  | NFrac => if is_digit c then Some NFrac else if e then Some NExp else None
  | NExp => if (c =? 43) || (c =? 45) then Some NExpSign else if is_digit c then Some NExpInt else None
  | NExpSign | NExpInt => if is_digit c then Some NExpInt else None
  end.

Definition num_complete (n : num_state) : bool :=
  match n with NZero | NInt | NFrac | NExpInt => true | _ => false end.

Definition is_escape (c : Z) : bool :=
  (c =? 34) || (c =? 92) || (c =? 47) || (c =? 98) || (c =? 102) || (c =? 110) || (c =? 114) || (c =? 116).

Definition lex_step (st : lex_state) (c : Z) : option (list token * lex_state) :=
  match st with
  | LStart => lex_begin c
  | LString raw =>
      if c =? 34 then Some ([TString raw], LStart)
      else if c =? 92 then Some ([], LEscape (raw ++ [c]))
      else if c <? 32 then None
      else Some ([], LString (raw ++ [c]))
  | LEscape raw =>
      if c =? 117 then Some ([], LHex 3 (raw ++ [c]))
      else if is_escape c then Some ([], LString (raw ++ [c]))
      else None
  | LHex k raw =>
      match hexval c with
      | None => None
      | Some _ => Some ([], match k with O => LString (raw ++ [c]) | S k => LHex k (raw ++ [c]) end)
      end
  | LLiteral t rest =>
      match rest with
      | [] => None
      | x :: rest =>
          if c =? x then
            match rest with [] => Some ([t], LStart) | _ => Some ([], LLiteral t rest) end
          else None
      end
  | LNumber n =>
      match num_next n c with
      | Some n' => Some ([], LNumber n')
      | None =>
          if num_complete n then '(ts, st') ← lex_begin c; Some (TNumber :: ts, st') else None
      end
  end.

Fixpoint lex (st : lex_state) (s : list Z) : option (list token) :=
  match s with
  | [] =>
      match st with
      | LStart => Some []
      | LNumber n => if num_complete n then Some [TNumber] else None
      | _ => None
      end
  | c :: s =>
      '(ts, st') ← lex_step st c;
      rest ← lex st' s;
      Some (ts ++ rest)
  end.

(** ** Values

    A string is kept as it is written; of a number only that it is one. *)
Inductive jvalue : Type :=
| VNull
| VBool (b : bool)
| VNumber
| VString (raw : list Z)
| VArray (elems : list jvalue)
| VObject (members : list (list Z * jvalue)).

(** The scanner's stack of open arrays and objects; an array has its elements so far, an
    object its members so far and the key being read. *)
Inductive frame : Type :=
| InArray (elems : list jvalue)
| InObject (members : list (list Z * jvalue)) (key : list Z).

(** What comes next: a value (or, with [true], the end of an empty array), a key (or the end
    of an empty object), a colon, or what may follow a complete value. *)
Inductive expect : Type :=
| PBegin (empty_ok : bool)
| PKey (empty_ok : bool)
| PColon
| PEnd (v : jvalue).

Definition maxNestingDepth : nat := Z.to_nat 10000.

(** [pushParseState]. *)
Definition push (f : frame) (stack : list frame) (e : expect) : option (list frame * expect) :=
  if decide (length stack < maxNestingDepth)%nat then Some (f :: stack, e) else None.

Definition scalar (t : token) : option jvalue :=
  match t with
  | TNull => Some VNull
  | TTrue => Some (VBool true)
  | TFalse => Some (VBool false)
  | TNumber => Some VNumber
  | TString raw => Some (VString raw)
  | _ => None
  end.

Definition parse_step (st : list frame * expect) (t : token) : option (list frame * expect) :=
  match st with
  | (stack, PBegin empty_ok) =>
      match t, stack with
      | TLBrace, _ => push (InObject [] []) stack (PKey true)
      | TLBracket, _ => push (InArray []) stack (PBegin true)
      | TRBracket, InArray vs :: stack' => if empty_ok then Some (stack', PEnd (VArray vs)) else None
      | _, _ => v ← scalar t; Some (stack, PEnd v)
      end
  | (InObject ms _ :: stack', PKey empty_ok) =>
      match t with
      | TString raw => Some (InObject ms raw :: stack', PColon)
      | TRBrace => if empty_ok then Some (stack', PEnd (VObject ms)) else None
      | _ => None
      end
  | (stack, PColon) => match t with TColon => Some (stack, PBegin false) | _ => None end
  | (InArray vs :: stack', PEnd v) =>
      match t with
      | TComma => Some (InArray (vs ++ [v]) :: stack', PBegin false)
      | TRBracket => Some (stack', PEnd (VArray (vs ++ [v])))
      | _ => None
      end
  | (InObject ms key :: stack', PEnd v) =>
      match t with
      | TComma => Some (InObject (ms ++ [(key, v)]) [] :: stack', PKey false)
      | TRBrace => Some (stack', PEnd (VObject (ms ++ [(key, v)])))
      | _ => None
      end
  | _ => None
  end.

Fixpoint parse_tokens (st : list frame * expect) (ts : list token) : option jvalue :=
  match ts with
  | [] => match st with ([], PEnd v) => Some v | _ => None end
  | t :: ts => st' ← parse_step st t; parse_tokens st' ts
  end.

(** A whole text as one value. *)
Definition json_parse (s : list Z) : option jvalue :=
  ts ← lex LStart s; parse_tokens ([], PBegin false) ts.

Example json_parse_example :
  json_parse (bytes_of " [1, -0.5e+7, {}, []] ") = Some (VArray [VNumber; VNumber; VObject []; VArray []]) ∧
  json_parse (bytes_of "[1,]") = None ∧ json_parse (bytes_of "01") = None ∧
  json_parse (bytes_of "nul") = None ∧ json_parse (bytes_of "null") = Some VNull.
Proof. vm_compute. done. Qed.

(** ** UTF-8 decodes what it encodes *)
Definition valid_rune (r : Z) : Prop := 0 ≤ r < 55296 ∨ 57344 ≤ r ≤ 1114111.

(** What [runes] can read at the front of a text. *)
Inductive chunk : Z * list Z → Prop :=
| chunk_bad b : 128 ≤ b < 256 → chunk (RuneError, [b])
| chunk_good r : valid_rune r → chunk (r, encode_rune r).

Ltac bytewise := unfold lead3, lead4, is_cont, is_surrogate, between in *.

Lemma encode_cases r :
  valid_rune r →
  (r < 128 ∧ encode_rune r = [r]) ∨
  (128 ≤ r < 2048 ∧ encode_rune r = [192 + r / 64; 128 + r mod 64]) ∨
  (2048 ≤ r < 65536 ∧ encode_rune r = [224 + r / 4096; 128 + r / 64 mod 64; 128 + r mod 64]) ∨
  (65536 ≤ r ∧ encode_rune r =
     [240 + r / 262144; 128 + r / 4096 mod 64; 128 + r / 64 mod 64; 128 + r mod 64]).
Proof.
  unfold valid_rune, encode_rune. intros Hr.
  replace ((r <? 0) || (1114111 <? r) || is_surrogate r) with false by (bytewise; lia).
  destruct (Z.ltb_spec r 128); [auto |]. destruct (Z.ltb_spec r 2048); [auto |].
  destruct (Z.ltb_spec r 65536); auto 10.
Qed.

(** A decoded rune is one whose encoding was there. *)
Lemma chunk_encoded r bs : valid_rune r → encode_rune r = bs → chunk (r, bs).
Proof. intros Hr <-. by constructor. Qed.

Lemma chunk2 b0 b1 :
  between 194 223 b0 && is_cont b1 = true → chunk (64 * (b0 - 192) + (b1 - 128), [b0; b1]).
Proof.
  intros H. set (r := 64 * (b0 - 192) + (b1 - 128)).
  assert (128 ≤ r < 2048 ∧ r / 64 = b0 - 192 ∧ r mod 64 = b1 - 128) as (Hr & E1 & E2)
    by (unfold r; bytewise; lia).
  apply chunk_encoded; [unfold valid_rune; lia |].
  destruct (encode_cases r) as [[? _]|[[_ ->]|[[? _]|[? _]]]]; [unfold valid_rune; lia | lia | | lia | lia].
  rewrite E1, E2. f_equal; [lia | f_equal; lia].
Qed.

Lemma chunk3 b0 b1 b2 :
  lead3 b0 b1 && is_cont b2 = true →
  chunk (4096 * (b0 - 224) + 64 * (b1 - 128) + (b2 - 128), [b0; b1; b2]).
Proof.
  intros H. set (r := 4096 * (b0 - 224) + 64 * (b1 - 128) + (b2 - 128)).
  assert (224 ≤ b0 ≤ 239 ∧ 128 ≤ b1 < 192 ∧ 128 ≤ b2 < 192 ∧ 2048 ≤ r < 65536 ∧ valid_rune r)
    as (H0 & H1 & H2 & Hr & Hv) by (unfold r, valid_rune; bytewise; lia).
  assert (r / 4096 = b0 - 224 ∧ r / 64 mod 64 = b1 - 128 ∧ r mod 64 = b2 - 128) as (E1 & E2 & E3)
    by (unfold r; clear -H0 H1 H2; lia).
  apply chunk_encoded; [done |].
  destruct (encode_cases r Hv) as [[? _]|[[? _]|[[_ ->]|[? _]]]]; [lia | lia | | lia].
  rewrite E1, E2, E3. repeat (f_equal; [lia |]). f_equal; lia.
Qed.

Lemma chunk4 b0 b1 b2 b3 :
  lead4 b0 b1 && is_cont b2 && is_cont b3 = true →
  chunk (262144 * (b0 - 240) + 4096 * (b1 - 128) + 64 * (b2 - 128) + (b3 - 128), [b0; b1; b2; b3]).
Proof.
  intros H. set (r := 262144 * (b0 - 240) + 4096 * (b1 - 128) + 64 * (b2 - 128) + (b3 - 128)).
  assert (240 ≤ b0 ≤ 244 ∧ 128 ≤ b1 < 192 ∧ 128 ≤ b2 < 192 ∧ 128 ≤ b3 < 192 ∧ 65536 ≤ r ≤ 1114111)
    as (H0 & H1 & H2 & H3 & Hr) by (unfold r; bytewise; lia).
  assert (r / 262144 = b0 - 240 ∧ r / 4096 mod 64 = b1 - 128 ∧ r / 64 mod 64 = b2 - 128 ∧
    r mod 64 = b3 - 128) as (E1 & E2 & E3 & E4) by (unfold r; clear -H0 H1 H2 H3; lia).
  apply chunk_encoded; [unfold valid_rune; lia |].
  destruct (encode_cases r) as [[? _]|[[? _]|[[? _]|[_ ->]]]]; [unfold valid_rune; lia | lia | lia | lia |].
  rewrite E1, E2, E3, E4. repeat (f_equal; [lia |]). f_equal; lia.
Qed.

Lemma runes_step s :
  Forall is_byte s → s ≠ [] → ∃ x s', s = x.2 ++ s' ∧ runes s = x :: runes s' ∧ chunk x.
Proof.
  destruct s as [|b0 s1]; intros Hs Hne; [done |]. apply Forall_cons in Hs as [Hb Hs]. unfold is_byte in Hb.
  cbn [runes]. destruct (Z.ltb_spec b0 128) as [H|H].
  { exists (b0, [b0]), s1. split_and!; [done | done |]. apply chunk_encoded; [unfold valid_rune; lia |].
    destruct (encode_cases b0) as [[_ ->]|[[? _]|[[? _]|[? _]]]]; [unfold valid_rune; lia | done | lia..]. }
  assert (∃ x s', b0 :: s1 = x.2 ++ s' ∧ (RuneError, [b0]) :: runes s1 = x :: runes s' ∧ chunk x) as Hbad.
  { exists (RuneError, [b0]), s1. split_and!; [done | done |]. constructor. lia. }
  destruct s1 as [|b1 s2]; [done |]. destruct (between 194 223 b0 && is_cont b1) eqn:E2.
  { eexists _, s2. split; [|split; [reflexivity | by apply chunk2]]. done. }
  destruct s2 as [|b2 s3]; [done |]. destruct (lead3 b0 b1 && is_cont b2) eqn:E3.
  { eexists _, s3. split; [|split; [reflexivity | by apply chunk3]]. done. }
  destruct s3 as [|b3 s4]; [done |]. destruct (lead4 b0 b1 && is_cont b2 && is_cont b3) eqn:E4; [|done].
  eexists _, s4. split; [|split; [reflexivity | by apply chunk4]]. done.
Qed.

(** Induction over the runes of a text. *)
Lemma runes_ind (P : list Z → Prop) :
  P [] →
  (∀ x s s', chunk x → s = x.2 ++ s' → runes s = x :: runes s' → Forall is_byte s' → P s' → P s) →
  ∀ s, Forall is_byte s → P s.
Proof.
  intros Hnil Hcons s. remember (length s) as n eqn:Hn. revert s Hn.
  induction n as [n IH] using lt_wf_ind; intros s -> Hs.
  destruct (decide (s = [])) as [->|Hne]; [done |].
  destruct (runes_step s Hs Hne) as (x & s' & E & Er & Hx).
  assert (Forall is_byte s') as Hs' by (rewrite E in Hs; by apply Forall_app in Hs as [_ ?]).
  apply (Hcons x s s'); [done.. |]. apply (IH (length s')); [|done..].
  assert (x.2 ≠ []) as Hx2.
  { destruct Hx as [|r Hr]; [done |]. simpl. by destruct (encode_cases r Hr) as [[_ ->]|[[_ ->]|[[_ ->]|[_ ->]]]]. }
  rewrite E, length_app. destruct x.2; [done | simpl; lia].
Qed.

Lemma runes_ascii l s :
  Forall (λ b, b < 128) l → runes (l ++ s) = ((λ b, (b, [b])) <$> l) ++ runes s.
Proof.
  induction 1 as [|b l Hb _ IH]; [done |]. cbn [app runes]. rewrite (proj2 (Z.ltb_lt b 128) Hb), IH. done.
Qed.

(** An encoding is read back, whatever follows. *)
Lemma runes_encode r s :
  valid_rune r → runes (encode_rune r ++ s) = (r, encode_rune r) :: runes s.
Proof.
  intros Hr. destruct (encode_cases r Hr) as [[H ->]|[[H ->]|[[H ->]|[H ->]]]]; cbn [app runes].
  - by rewrite (proj2 (Z.ltb_lt r 128) H).
  - rewrite (proj2 (Z.ltb_ge _ 128)) by lia.
    replace (between 194 223 _ && is_cont _) with true by (bytewise; lia). do 2 f_equal. lia.
  - rewrite (proj2 (Z.ltb_ge _ 128)) by lia.
    replace (between 194 223 _ && is_cont _) with false by (bytewise; lia).
    replace (lead3 _ _ && is_cont _) with true by (unfold valid_rune in Hr; bytewise; lia).
    do 2 f_equal. lia.
  - unfold valid_rune in Hr. rewrite (proj2 (Z.ltb_ge _ 128)) by lia.
    replace (between 194 223 _ && is_cont _) with false by (bytewise; lia).
    replace (lead3 _ _ && is_cont _) with false by (bytewise; lia).
    replace (lead4 _ _ && is_cont _ && is_cont _) with true by (bytewise; lia).
    do 2 f_equal. lia.
Qed.

Lemma chunk_good_not_bad r : valid_rune r → is_bad (r, encode_rune r) = false.
Proof.
  intros Hr. destruct (encode_cases r Hr) as [[H ->]|[[_ ->]|[[_ ->]|[_ ->]]]]; try done.
  unfold is_bad, RuneError. lia.
Qed.

(** ** A string read back *)
Lemma hexval_hexdigit d : 0 ≤ d < 16 → hexval (hexdigit d) = Some d.
Proof.
  intros Hd. unfold hexdigit, hexval, is_digit. destruct (Z.ltb_spec d 10).
  - rewrite (proj2 (andb_true_iff _ _)) by lia. f_equal. lia.
  - replace ((48 <=? 87 + d) && (87 + d <=? 57)) with false by lia.
    replace (between 97 102 (87 + d)) with true by (bytewise; lia). f_equal. lia.
Qed.

Lemma hexdigit_ascii d : 0 ≤ d < 16 → 48 ≤ hexdigit d < 128.
Proof. unfold hexdigit. destruct (Z.ltb_spec d 10); lia. Qed.

(** A [\u] escape of a character that is not a surrogate. *)
Lemma unquote_u a b c d r us :
  hex4 a b c d = Some r → is_surrogate r = false →
  unquote (92 :: 117 :: a :: b :: c :: d :: us) = prepend (encode_rune r) (unquote us).
Proof. intros Hh Hs. cbn [unquote Z.eqb Pos.eqb]. by rewrite Hh, Hs. Qed.

Lemma encode_ascii b : 0 ≤ b < 128 → encode_rune b = [b].
Proof.
  intros Hb. destruct (encode_cases b) as [[_ ->]|[[? _]|[[? _]|[? _]]]]; [unfold valid_rune; lia | done | lia..].
Qed.

Lemma unquote_escape b us :
  0 ≤ b < 128 → html_safe b = false →
  unquote (escape_ascii b ++ us) = prepend [b] (unquote us).
Proof.
  intros Hb Hs. unfold escape_ascii.
  destruct (Z.eqb_spec b 34) as [->|]; [done |]. destruct (Z.eqb_spec b 92) as [->|]; [done |]. cbn [orb].
  destruct (Z.eqb_spec b 8) as [->|]; [done |]. destruct (Z.eqb_spec b 12) as [->|]; [done |].
  destruct (Z.eqb_spec b 10) as [->|]; [done |]. destruct (Z.eqb_spec b 13) as [->|]; [done |].
  destruct (Z.eqb_spec b 9) as [->|]; [done |]. cbn [app].
  rewrite (unquote_u _ _ _ _ b); [by rewrite encode_ascii | | bytewise; lia].
  unfold hex4. rewrite !hexval_hexdigit by lia. simpl. f_equal. lia.
Qed.

Lemma escape_ascii_ascii b : 0 ≤ b < 128 → Forall (λ c, c < 128) (escape_ascii b).
Proof.
  intros Hb. unfold escape_ascii.
  repeat match goal with |- context [if ?t then _ else _] => destruct t end; repeat constructor; try lia.
  all: apply hexdigit_ascii; lia.
Qed.

Lemma fst_singles l : ((λ b : Z, (b, [b])) <$> l).*1 = l.
Proof. rewrite <- list_fmap_compose. apply list_fmap_id. Qed.

Lemma unquote_chunk x s :
  chunk x →
  unquote (runes (quote_rune x ++ s)).*1 = prepend (encode_rune x.1) (unquote (runes s).*1).
Proof.
  intros [b Hb|r Hr]; cbn [fst].
  - change (quote_rune (RuneError, [b])) with [92; 117; 102; 102; 102; 100].
    rewrite runes_ascii by (repeat constructor; lia). rewrite fmap_app, fst_singles. by apply unquote_u.
  - unfold quote_rune. rewrite chunk_good_not_bad by done. destruct (Z.ltb_spec r 128) as [H|H].
    + assert (0 ≤ r < 128) as Hr' by (unfold valid_rune in Hr; lia).
      destruct (html_safe r) eqn:Hs.
      * rewrite runes_encode by done. cbn [fmap list_fmap fst unquote]. unfold html_safe in Hs.
        rewrite (proj2 (Z.eqb_neq r 92)) by lia. by replace ((r =? 34) || (r <? 32)) with false by lia.
      * rewrite runes_ascii by by apply escape_ascii_ascii. rewrite fmap_app, fst_singles, unquote_escape by done.
        by rewrite encode_ascii.
    + destruct (Z.eqb_spec r 8232) as [->|]; [by rewrite runes_ascii by (repeat constructor; done) |].
      destruct (Z.eqb_spec r 8233) as [->|]; [by rewrite runes_ascii by (repeat constructor; done) |].
      cbn [orb]. rewrite runes_encode by done. cbn [fmap list_fmap fst unquote].
      rewrite (proj2 (Z.eqb_neq r 92)) by lia. by replace ((r =? 34) || (r <? 32)) with false by lia.
Qed.

(** A string that is written and read is the string with the bad bytes replaced. *)
Lemma unquote_quote s : Forall is_byte s → unquote_bytes (quote s) = Some (to_valid s).
Proof.
  revert s. apply runes_ind; [done |]. intros x s s' Hx -> Hr _ IH. unfold unquote_bytes, quote, to_valid in *.
  rewrite Hr. cbn [mbind list_bind]. rewrite unquote_chunk by done. by rewrite IH.
Qed.

(** Nothing is replaced exactly in valid UTF-8. *)
Lemma to_valid_iff s : Forall is_byte s → to_valid s = s ↔ valid_utf8 s.
Proof.
  intros Hs. enough ((length s ≤ length (to_valid s))%nat ∧ (to_valid s = s ↔ valid_utf8 s)) by tauto.
  revert s Hs. apply runes_ind; [split; [done |]; split; [constructor | done] |].
  intros x s s' Hx -> Hr _ [Hl IH]. unfold to_valid, valid_utf8 in *. rewrite Hr. cbn [mbind list_bind].
  rewrite Forall_cons, !length_app. destruct Hx as [b Hb|r Hv]; cbn [fst snd].
  - change (encode_rune RuneError) with [239; 191; 189]. split; [simpl; lia |].
    split; [|by intros [? _]]. intros E%(f_equal length). rewrite !length_app in E. simpl in E. lia.
  - rewrite chunk_good_not_bad by done. split; [lia |]. rewrite <- IH. split; [|by intros [_ ->]].
    intros E. by apply app_inv_head in E.
Qed.

(** ** Scanning what was written *)

(** A character a string holds as it is. *)
Definition plain (b : Z) : Prop := 32 ≤ b ∧ b ≠ 34 ∧ b ≠ 92.

Lemma lex_silent st c st' s : lex_step st c = Some ([], st') → lex st (c :: s) = lex st' s.
Proof. intros H. cbn [lex]. rewrite H. cbn [mbind option_bind]. by destruct (lex st' s). Qed.

Lemma lex_plain raw l s :
  Forall plain l → lex (LString raw) (l ++ s) = lex (LString (raw ++ l)) s.
Proof.
  intros Hl. revert raw; induction Hl as [|b l (H1 & H2 & H3) _ IH]; intros raw; [by rewrite app_nil_r |].
  cbn [app]. rewrite (lex_silent _ b (LString (raw ++ [b]))); [by rewrite IH, <- app_assoc |]. simpl.
  by rewrite (proj2 (Z.eqb_neq b 34)), (proj2 (Z.eqb_neq b 92)), (proj2 (Z.ltb_ge b 32)).
Qed.

Lemma lex_hex_escape raw a b c d r s :
  hex4 a b c d = Some r →
  lex (LString raw) (92 :: 117 :: a :: b :: c :: d :: s) =
  lex (LString (raw ++ [92; 117; a; b; c; d])) s.
Proof.
  unfold hex4. intros H. destruct (hexval a) eqn:Ea, (hexval b) eqn:Eb, (hexval c) eqn:Ec, (hexval d) eqn:Ed;
    try done.
  erewrite lex_silent; [|done]. erewrite lex_silent; [|done].
  do 4 (erewrite lex_silent; [|cbn [lex_step]; rewrite ?Ea, ?Eb, ?Ec, ?Ed; reflexivity]).
  by rewrite <- !app_assoc.
Qed.

Lemma lex_escape raw b s :
  0 ≤ b < 128 → lex (LString raw) (escape_ascii b ++ s) = lex (LString (raw ++ escape_ascii b)) s.
Proof.
  intros Hb. unfold escape_ascii.
  assert (∀ e, is_escape e = true → e ≠ 117 →
    lex (LString raw) ([92; e] ++ s) = lex (LString (raw ++ [92; e])) s) as Hesc.
  { intros e He Hu. cbn [app]. erewrite lex_silent; [|done].
    rewrite (lex_silent _ e (LString ((raw ++ [92]) ++ [e]))); [by rewrite <- app_assoc |].
    cbn [lex_step]. by rewrite (proj2 (Z.eqb_neq e 117)), He. }
  destruct ((b =? 34) || (b =? 92)) eqn:E; [apply Hesc; [unfold is_escape|]; lia |].
  destruct (b =? 8); [by apply Hesc |]. destruct (b =? 12); [by apply Hesc |].
  destruct (b =? 10); [by apply Hesc |]. destruct (b =? 13); [by apply Hesc |].
  destruct (b =? 9); [by apply Hesc |].
  apply (lex_hex_escape _ _ _ _ _ b). unfold hex4. rewrite !hexval_hexdigit by lia. simpl. f_equal. lia.
Qed.

Lemma encode_plain r : valid_rune r → 128 ≤ r → Forall plain (encode_rune r).
Proof.
  intros Hr H. unfold plain. destruct (encode_cases r Hr) as [[? _]|[[? ->]|[[? ->]|[? ->]]]]; [lia |..];
    repeat constructor; lia.
Qed.

Lemma lex_chunk raw x s :
  chunk x → lex (LString raw) (quote_rune x ++ s) = lex (LString (raw ++ quote_rune x)) s.
Proof.
  intros [b Hb|r Hr].
  - by apply (lex_hex_escape _ _ _ _ _ RuneError).
  - unfold quote_rune. rewrite chunk_good_not_bad by done. destruct (Z.ltb_spec r 128) as [H|H].
    + assert (0 ≤ r < 128) as Hr' by (unfold valid_rune in Hr; lia).
      destruct (html_safe r) eqn:Hs; [|by apply lex_escape]. rewrite encode_ascii by done.
      apply lex_plain. repeat constructor; unfold html_safe in Hs; lia.
    + destruct ((r =? 8232) || (r =? 8233)) eqn:E; [|by apply lex_plain, encode_plain].
      apply (lex_hex_escape _ _ _ _ _ r). unfold hex4. rewrite hexval_hexdigit by lia. simpl. f_equal. lia.
Qed.

Lemma lex_quote raw s t :
  Forall is_byte s → lex (LString raw) (quote s ++ t) = lex (LString (raw ++ quote s)) t.
Proof.
  intros Hs. revert s Hs raw. refine (runes_ind _ _ _); [intros raw; by rewrite app_nil_r |].
  intros x s s' Hx -> Hr _ IH raw. unfold quote in *. rewrite Hr. cbn [mbind list_bind].
  by rewrite <- app_assoc, lex_chunk, IH, <- app_assoc.
Qed.

(** A token that ends. *)
Lemma lex_emit st c t s : lex_step st c = Some ([t], LStart) → lex st (c :: s) = cons t <$> lex LStart s.
Proof. intros H. cbn [lex]. rewrite H. cbn [mbind option_bind]. by destruct (lex LStart s). Qed.

Lemma lex_quote_string s t :
  Forall is_byte s → lex LStart (quote_string s ++ t) = cons (TString (quote s)) <$> lex LStart t.
Proof.
  intros Hs. unfold quote_string. cbn [app]. erewrite lex_silent; [|done].
  rewrite <- app_assoc, lex_quote by done. by apply lex_emit.
Qed.

Lemma lex_plain_string l t :
  Forall plain l → lex LStart (34 :: l ++ 34 :: t) = cons (TString l) <$> lex LStart t.
Proof.
  intros Hl. erewrite lex_silent; [|done]. rewrite lex_plain by done. by apply lex_emit.
Qed.

(** ** The text of a string is made of bytes *)
Lemma encode_bytes r : valid_rune r → Forall is_byte (encode_rune r).
Proof.
  intros Hr. unfold is_byte. destruct (encode_cases r Hr) as [[? ->]|[[? ->]|[[? ->]|[? ->]]]];
    unfold valid_rune in Hr; repeat constructor; lia.
Qed.

Lemma quote_rune_bytes x : chunk x → Forall is_byte (quote_rune x).
Proof.
  assert (∀ d, 0 ≤ d < 16 → is_byte (hexdigit d)) as Hhex
    by (intros d Hd; pose proof (hexdigit_ascii d Hd); unfold is_byte; lia).
  intros [b Hb|r Hr]; [repeat apply Forall_cons_2; try apply Forall_nil_2; unfold is_byte; lia |].
  unfold quote_rune. rewrite chunk_good_not_bad by done.
  destruct (Z.ltb_spec r 128); [destruct (html_safe r); [by apply encode_bytes |] |].
  - unfold valid_rune in Hr. unfold escape_ascii.
    repeat match goal with |- context [if ?t then _ else _] => destruct t end; repeat apply Forall_cons_2; try apply Forall_nil_2; try (apply Hhex; lia).
    all: unfold is_byte; lia.
  - destruct (_ || _); [|by apply encode_bytes]. repeat apply Forall_cons_2; try apply Forall_nil_2; try (apply Hhex; lia).
    all: unfold is_byte; lia.
Qed.

Lemma quote_bytes s : Forall is_byte s → Forall is_byte (quote s).
Proof.
  revert s. apply runes_ind; [constructor |]. intros x s s' Hx -> Hr _ IH. unfold quote in *.
  rewrite Hr. cbn [mbind list_bind]. apply Forall_app. split; [by apply quote_rune_bytes | done].
Qed.

Lemma to_valid_bytes s : Forall is_byte s → Forall is_byte (to_valid s).
Proof.
  revert s. apply runes_ind; [constructor |]. intros x s s' Hx -> Hr _ IH. unfold to_valid in *.
  rewrite Hr. cbn [mbind list_bind]. apply Forall_app. split; [|done].
  destruct Hx as [b Hb|r Hv]; apply encode_bytes; [|done]. cbn [fst]. unfold valid_rune, RuneError. lia.
Qed.

Lemma push_ok f stack e : (length stack < 100)%nat → push f stack e = Some (f :: stack, e).
Proof.
  intros H. unfold push, maxNestingDepth. rewrite decide_True; [done |].
  apply Nat.lt_trans with 100%nat; [done |]. apply Nat2Z.inj_lt. rewrite Z2Nat.id; lia.
Qed.

(** ** A scanned string can be unquoted

    [unquote] fails on no string the scanner lets through: its failure is not a way in
    which a payload is refused. *)
Inductive scanned : list Z → Prop :=
| scanned_nil : scanned []
| scanned_plain b l : plain b → scanned l → scanned (b :: l)
| scanned_escape e l : is_escape e = true → scanned l → scanned (92 :: e :: l)
| scanned_hex a b c d r l :
    hex4 a b c d = Some r → scanned l → scanned (92 :: 117 :: a :: b :: c :: d :: l).

Lemma scanned_app l l' : scanned l → scanned l' → scanned (l ++ l').
Proof. induction 1; intros; simpl; eauto using scanned. Qed.

Lemma hexval_range h x : hexval h = Some x → 48 ≤ h < 128 ∧ 0 ≤ x < 16.
Proof. unfold hexval, is_digit, between. repeat case_match; intros; simplify_eq; lia. Qed.

Lemma hex4_range a b c d r :
  hex4 a b c d = Some r → Forall (λ h, h < 128) [a; b; c; d].
Proof.
  unfold hex4. destruct (hexval a) eqn:Ea, (hexval b) eqn:Eb, (hexval c) eqn:Ec, (hexval d) eqn:Ed; try done.
  intros _. apply hexval_range in Ea, Eb, Ec, Ed. repeat constructor; lia.
Qed.

(** The bytes of an encoding are read as they are, so that what follows is scanned too. *)
Lemma scanned_drop x s : Forall (λ b, 128 ≤ b) x → scanned (x ++ s) → scanned s.
Proof.
  induction 1 as [|b x Hb _ IH]; [done |]. cbn [app]. intros Hs. apply IH.
  inversion Hs; subst; [done | lia | lia].
Qed.

Lemma chunk_high r : valid_rune r → 128 ≤ r → Forall (λ b, 128 ≤ b) (encode_rune r).
Proof.
  intros Hr H. destruct (encode_cases r Hr) as [[? _]|[[? ->]|[[? ->]|[? ->]]]]; [lia |..];
    unfold valid_rune in Hr; repeat apply Forall_cons_2; try apply Forall_nil_2; lia.
Qed.

Lemma prepend_some l o : is_Some o → is_Some (prepend l o).
Proof. intros [x ->]. by eexists. Qed.

Lemma runes_fst_ascii l s :
  Forall (λ b, b < 128) l → (runes (l ++ s)).*1 = l ++ (runes s).*1.
Proof. intros Hl. by rewrite runes_ascii, fmap_app, fst_singles. Qed.

(** After a [\u] escape: with a surrogate the next escape may be consumed as well. *)
Lemma unquote_hex_some a b c d r l :
  hex4 a b c d = Some r → is_Some (unquote (runes l).*1) →
  (∀ k1 k2 k3 k4 us, (runes l).*1 = 92 :: 117 :: k1 :: k2 :: k3 :: k4 :: us → is_Some (unquote us)) →
  is_Some (unquote (92 :: 117 :: a :: b :: c :: d :: (runes l).*1)).
Proof.
  intros Hh Hl Hpair. cbn [unquote Z.eqb Pos.eqb]. rewrite Hh.
  destruct (is_surrogate r); [|by apply prepend_some].
  destruct (runes l).*1 as [|x [|u [|k1 [|k2 [|k3 [|k4 us]]]]]] eqn:E; try (by apply prepend_some).
  destruct (Z.eqb_spec x 92) as [->|]; [|by apply prepend_some].
  destruct (Z.eqb_spec u 117) as [->|]; [|by apply prepend_some]. cbn [andb].
  destruct (hex4 k1 k2 k3 k4 ≫= decode_pair r); apply prepend_some; [by eapply Hpair | done].
Qed.

(** A plain byte begins a rune that stands for itself. *)
Lemma scanned_rune b l :
  Forall is_byte (b :: l) → plain b → scanned l →
  ∃ r s', (runes (b :: l)).*1 = r :: (runes s').*1 ∧ (r =? 92) = false ∧ ((r =? 34) || (r <? 32)) = false ∧
    scanned s' ∧ (length s' ≤ length l)%nat ∧ Forall is_byte s'.
Proof.
  intros Hb (H32 & H34 & H92) Hl.
  destruct (runes_step (b :: l) Hb) as (x & s' & E & Er & Hx); [done |].
  assert (Forall is_byte s') as Hb' by (rewrite E in Hb; by apply Forall_app in Hb as [_ ?]).
  exists x.1, s'. rewrite Er. split; [done |].
  destruct Hx as [b' Hb''|r Hr]; cbn [fst snd] in *.
  - injection E as -> ->. done.
  - destruct (decide (r < 128)) as [Hlt|Hge].
    + rewrite encode_ascii in E by (unfold valid_rune in Hr; lia). injection E as -> ->.
      split_and!; try done; lia.
    + assert (scanned s') as Hs'.
      { apply (scanned_drop (encode_rune r)); [apply chunk_high; [done | lia] |]. rewrite <- E. by constructor. }
      split_and!; try done; try lia.
      destruct (encode_cases r Hr) as [[? _]|[[_ Ee]|[[_ Ee]|[_ Ee]]]]; [lia |..]; rewrite Ee in E;
        injection E as _ ->; simpl; lia.
Qed.

Lemma unquote_scanned s : Forall is_byte s → scanned s → is_Some (unquote_bytes s).
Proof.
  unfold unquote_bytes. remember (length s) as n eqn:Hn. revert s Hn.
  induction n as [n IH] using lt_wf_ind; intros s -> Hb Hs.
  destruct Hs as [|b l Hp Hl|e l He Hl|a b c d r l Hh Hl].
  - by eexists.
  - destruct (scanned_rune b l Hb Hp Hl) as (r & s' & -> & H92 & H34 & Hs' & Hlen & Hb').
    cbn [unquote]. rewrite H92, H34. apply prepend_some. apply (IH (length s')); [simpl; lia | done..].
  - apply Forall_cons in Hb as [_ [_ Hb]%Forall_cons].
    change (92 :: e :: l) with ([92; e] ++ l).
    rewrite runes_fst_ascii by (unfold is_escape in He; repeat constructor; lia).
    cbn [app unquote Z.eqb Pos.eqb]. rewrite (proj2 (Z.eqb_neq e 117)) by (unfold is_escape in He; lia).
    assert (is_Some (simple_escape e)) as [x ->].
    { unfold is_escape in He. unfold simple_escape. repeat case_match; try (by eexists). lia. }
    apply prepend_some. apply (IH (length l)); [simpl; lia | done..].
  - do 6 apply Forall_cons in Hb as [_ Hb]. pose proof (hex4_range _ _ _ _ _ Hh) as Hhex.
    change (92 :: 117 :: a :: b :: c :: d :: l) with ([92; 117; a; b; c; d] ++ l).
    rewrite runes_fst_ascii by (do 2 (constructor; [lia |]); done).
    cbn [app]. apply (unquote_hex_some _ _ _ _ r); [done | apply (IH (length l)); [simpl; lia | done..] |].
    intros k1 k2 k3 k4 us. destruct Hl as [|b' l' Hp Hl'|e l' He Hl'|a' b' c' d' r' l' Hh' Hl'].
    + done.
    + destruct (scanned_rune b' l' Hb Hp Hl') as (r' & s' & -> & H92 & _). intros [= -> _]. done.
    + change (92 :: e :: l') with ([92; e] ++ l'). rewrite runes_fst_ascii by (unfold is_escape in He; repeat constructor; lia).
      intros [= -> _]. done.
    + do 6 apply Forall_cons in Hb as [_ Hb].
      change (92 :: 117 :: a' :: b' :: c' :: d' :: l') with ([92; 117; a'; b'; c'; d'] ++ l').
      rewrite runes_fst_ascii by (do 2 (constructor; [lia |]); exact (hex4_range _ _ _ _ _ Hh')).
      intros [= _ _ _ _ <-]. apply (IH (length l')); [simpl; lia | done..].
Qed.

(** What the scanner has of a string. *)
Definition lex_inv (st : lex_state) : Prop :=
  match st with
  | LString raw => Forall is_byte raw ∧ scanned raw
  | LEscape raw => ∃ r0, raw = r0 ++ [92] ∧ Forall is_byte r0 ∧ scanned r0
  | LHex k raw =>
      ∃ r0 hs, raw = r0 ++ 92 :: 117 :: hs ∧ Forall is_byte r0 ∧ scanned r0 ∧
        Forall (λ h, is_Some (hexval h)) hs ∧ (length hs + k = 3)%nat
  | LLiteral t _ => ∀ raw, t ≠ TString raw
  | _ => True
  end.

Definition token_ok (t : token) : Prop := ∀ raw, t = TString raw → Forall is_byte raw ∧ scanned raw.

Lemma lex_begin_inv c ts st : lex_begin c = Some (ts, st) → Forall token_ok ts ∧ lex_inv st.
Proof.
  unfold lex_begin. intros H.
  repeat match type of H with (if ?t then _ else _) = _ => destruct t end; simplify_eq; simpl;
    try (split; [repeat constructor; done | done || (split; constructor)]).
Qed.

Lemma is_escape_byte e : is_escape e = true → is_byte e.
Proof. unfold is_escape, is_byte. lia. Qed.

Lemma lex_step_inv st c ts st' :
  is_byte c → lex_inv st → lex_step st c = Some (ts, st') → Forall token_ok ts ∧ lex_inv st'.
Proof.
  intros Hc Hi. destruct st as [|raw|raw|k raw|t rest|n]; simpl in *.
  - apply lex_begin_inv.
  - destruct Hi as [Hb Hs]. destruct (Z.eqb_spec c 34); [intros [= <- <-]|].
    { split; [|done]. constructor; [|done]. by intros ? [= <-]. }
    destruct (Z.eqb_spec c 92) as [->|]; [intros [= <- <-]; split; [done |]; by exists raw |].
    destruct (Z.ltb_spec c 32); [done |]. intros [= <- <-]. split; [done |]. split.
    + apply Forall_app. split; [done | by constructor].
    + apply scanned_app; [done |]. constructor; [by split_and!; lia | constructor].
  - destruct Hi as (r0 & -> & Hb & Hs). destruct (Z.eqb_spec c 117) as [->|]; [intros [= <- <-]|].
    { split; [done |]. exists r0, []. rewrite <- app_assoc. by split_and!. }
    destruct (is_escape c) eqn:He; [|done]. intros [= <- <-]. split; [done |]. rewrite <- app_assoc. split.
    + apply Forall_app. split; [done |]. repeat apply Forall_cons_2; try apply Forall_nil_2; [|done].
      unfold is_byte. lia.
    + apply scanned_app; [done |]. simpl. by apply scanned_escape; [|constructor].
  - destruct Hi as (r0 & hs & -> & Hb & Hs & Hh & Hlen). destruct (hexval c) as [x|] eqn:Hx; [|done].
    intros [= <- <-]. split; [done |].
    assert (Forall (λ h, is_Some (hexval h)) (hs ++ [c])) as Hh' by (apply Forall_app; split; [done | by repeat constructor]).
    destruct k as [|k]; simpl.
    + destruct (hs ++ [c]) as [|h1 [|h2 [|h3 [|h4 [|]]]]] eqn:E;
        apply (f_equal length) in E as El; rewrite length_app in El; simpl in El; try lia.
      rewrite <- app_assoc. simpl. rewrite E. rewrite !Forall_cons in Hh'.
      destruct Hh' as ([x1 E1] & [x2 E2] & [x3 E3] & [x4 E4] & _). split.
      * apply hexval_range in E1, E2, E3, E4. apply Forall_app. split; [done |].
        unfold is_byte. repeat apply Forall_cons_2; try apply Forall_nil_2; lia.
      * apply scanned_app; [done |]. eapply scanned_hex; [|constructor].
        unfold hex4. rewrite E1, E2, E3, E4. reflexivity.
    + exists r0, (hs ++ [c]). rewrite <- app_assoc. simpl. split_and!; [done.. |].
      rewrite length_app. simpl. lia.
  - destruct rest as [|x rest]; [done |]. destruct (c =? x); [|done].
    destruct rest; intros [= <- <-]; (split; [|done]); [|done]. constructor; [|done]. intros raw ->. by destruct (Hi raw).
  - destruct (num_next n c); [by intros [= <- <-] |]. destruct (num_complete n); [|done].
    destruct (lex_begin c) as [[ts0 st0]|] eqn:E; [|done]. intros [= <- <-].
    apply lex_begin_inv in E as [? ?]. split; [|done]. constructor; [|done]. done.
Qed.

(** Every string of a scanned text can be unquoted. *)
Lemma lex_unquotes s ts raw :
  Forall is_byte s → lex LStart s = Some ts → TString raw ∈ ts → is_Some (unquote_bytes raw).
Proof.
  intros Hs Hl Hin. enough (Forall token_ok ts) as Hok.
  { rewrite Forall_forall in Hok. destruct (Hok _ Hin raw eq_refl). by apply unquote_scanned. }
  assert (lex_inv LStart) as Hi by done. clear Hin. revert Hi Hl. generalize LStart as st. revert ts.
  induction Hs as [|c s Hc _ IH]; intros ts st Hi.
  - simpl. destruct st; try done; [by intros [= <-] |]. destruct (num_complete n); [|done].
    intros [= <-]. by repeat constructor.
  - cbn [lex]. destruct (lex_step st c) as [[ts1 st1]|] eqn:E; [|done]. cbn [mbind option_bind].
    destruct (lex_step_inv _ _ _ _ Hc Hi E) as [H1 H2].
    destruct (lex st1 s) as [rest|] eqn:Er; [|done]. intros [= <-]. apply Forall_app. split; [done |]. by eapply IH.
Qed.
