(* ===== verification/Tenant.v ===== *)
(** * Package tenant: the data model, the interfaces and the Manager

    Tenants are Go structs behind pointers, and their [Roles] field is a slice
    that points to a backing array, so the model has a heap of structs and a heap
    of arrays: copying a struct copies the slice header and shares the array. *)
From S2P Require Import Prelude GoStrings GoLib.
Set Default Goal Selector "!".

Abbreviation TenantID := string (only parsing).
Abbreviation Role := string (only parsing).
Abbreviation State := string (only parsing).

Definition Active : State := "active".
Definition Disabled : State := "disabled".
Definition Banned : State := "banned".

(** A slice header of a [[]Role]: the backing array, the offset of the first
    element and the length.  The capacity is left out: no code of the program
    appends to such a slice. *)
Record Slice := mkSlice { sl_arr : loc; sl_off : nat; sl_len : nat }.

#[global] Instance Slice_eq_dec : EqDecision Slice.
Proof. solve_decision. Defined.

(** [Tenant]; [Tenant_Roles] is [None] for a [nil] slice. *)
Record Tenant := mkTenant {
  Tenant_ID : TenantID;
  Tenant_State : State;
  Tenant_Roles : option Slice
}.

#[global] Instance Tenant_eq_dec : EqDecision Tenant.
Proof. solve_decision. Defined.

(** ** The heap

    A location is an index; allocation appends, so a location once valid stays
    valid and a fresh one is the current length. *)
Record heap := mkHeap { structs : list Tenant; arrays : list (list Role) }.

Definition heap_empty : heap := mkHeap [] [].

(** [&Tenant{...}] or [cp := *t; &cp]. *)
Definition heap_alloc (t : Tenant) (h : heap) : loc * heap :=
  (length (structs h), mkHeap (structs h ++ [t]) (arrays h)).

Definition heap_load (h : heap) (l : loc) : option Tenant := structs h !! l.

(** [*p = t] for a valid pointer. *)
Definition heap_store (l : loc) (t : Tenant) (h : heap) : heap :=
  mkHeap (<[l:=t]> (structs h)) (arrays h).

(** [[]Role{...}]. *)
Definition heap_alloc_roles (rs : list Role) (h : heap) : Slice * heap :=
  (mkSlice (length (arrays h)) 0 (length rs), mkHeap (structs h) (arrays h ++ [rs])).

(** The elements a [for range] over the slice visits. *)
Definition slice_elems (h : heap) (s : option Slice) : list Role :=
  match s with
  | None => []
  | Some s => take (sl_len s) (drop (sl_off s) (default [] (arrays h !! sl_arr s)))
  end.

(** [s[i] = r] for [i] in range; out of range panics and changes nothing. *)
Definition slice_set (s : Slice) (i : nat) (r : Role) (h : heap) : heap :=
  if decide (i < sl_len s)
  then mkHeap (structs h)
         (alter (λ a, <[sl_off s + i := r]> a) (sl_arr s) (arrays h))
  else h.

(** The roles of a tenant as a handler reads them. *)
Definition tenant_roles (h : heap) (t : Tenant) : list Role := slice_elems h (Tenant_Roles t).

(** ** The world: the heap and the clock

    [time.Now] returns the next reading of [w_clock] in nanoseconds; theorems
    quantify over every clock that never goes back. *)
Record world := mkWorld { w_heap : heap; w_clock : nat → Z; w_pos : nat }.

Definition clock_monotone (c : nat → Z) : Prop := ∀ i j, i ≤ j → (c i ≤ c j)%Z.

(** The reading the next [time.Now] returns. *)
Definition next_now (w : world) : Z := w_clock w (w_pos w).

Definition set_heap (h : heap) (w : world) : world := mkWorld h (w_clock w) (w_pos w).

(** One reading later. *)
Definition tick (w : world) : world := mkWorld (w_heap w) (w_clock w) (S (w_pos w)).

Definition time_Now {T} : GoM (T * world) Z := λ sw,
  let '(s, w) := sw in
  ((s, tick w), Ret (next_now w)).

(** A pointer dereference panics on [nil]. *)
Definition deref {S} (p : ptr) : GoM (S * world) Tenant := λ sw,
  match p ≫= heap_load (w_heap sw.2) with
  | Some t => (sw, Ret t)
  | None => (sw, Panic "invalid memory address or nil pointer dereference")
  end.

(** [cp := v; return &cp]. *)
Definition new_tenant {S} (t : Tenant) : GoM (S * world) loc := λ sw,
  let '(s, w) := sw in
  ((s, set_heap (heap_alloc t (w_heap w)).2 w), Ret (heap_alloc t (w_heap w)).1).

(** ** The interfaces *)
Class Resolver (R : Type) := {
  Resolver_Resolve : R → Request → result TenantID
}.

(** The object [S] is the receiver; the methods may change it and the world. *)
Class Store (S : Type) := {
  Store_Get : context → TenantID → GoM (S * world) (result ptr);
  Store_IsBanned : context → TenantID → GoM (S * world) (result bool)
}.

(** The methods return [None] for a [nil] error. *)
Class AdminStore (S : Type) := {
  AdminStore_Create : context → ptr → GoM (S * world) (option error);
  AdminStore_Update : context → ptr → GoM (S * world) (option error);
  AdminStore_SetState : context → TenantID → State → GoM (S * world) (option error)
}.

(** What a method call leaves in place: every struct that was allocated keeps its
    value, the role arrays are unchanged, and the clock only advances. *)
Definition world_extends (w w' : world) : Prop :=
  (∀ l t, heap_load (w_heap w) l = Some t → heap_load (w_heap w') l = Some t) ∧
  arrays (w_heap w') = arrays (w_heap w) ∧
  w_clock w' = w_clock w ∧ w_pos w ≤ w_pos w'.

(** What a [Store] promises its callers about [Get]: under the store's own
    invariant it returns, keeps the invariant, disturbs nothing else, and a tenant
    it returns is an allocated struct whose [ID] is the id asked for. *)
Class StoreContract (S : Type) `{!Store S} := {
  store_inv : S → heap → Prop;
  store_get_returns ctx id s w :
    store_inv s (w_heap w) → returns (Store_Get ctx id) (s, w);
  store_get_inv ctx id s w s' w' r :
    store_inv s (w_heap w) → Store_Get ctx id (s, w) = ((s', w'), Ret r) →
    store_inv s' (w_heap w') ∧ world_extends w w';
  store_get_id ctx id s w s' w' p :
    store_inv s (w_heap w) → Store_Get ctx id (s, w) = ((s', w'), Ret (Ok p)) →
    ∃ l t, p = Some l ∧ heap_load (w_heap w') l = Some t ∧ Tenant_ID t = id
}.

(** ** Manager *)
Record Manager (R S : Type) := mkManager {
  mgr_resolver : option R;
  mgr_store : option S
}.
Arguments mkManager {R S} _ _.
Arguments mgr_resolver {R S} _.
Arguments mgr_store {R S} _.

(** [type Option func( *Manager)]. *)
Definition Option (R S : Type) : Type := Manager R S → Manager R S.

Definition WithResolver {R S} (r : R) : Option R S := λ m,
  mkManager (Some r) (mgr_store m).

Definition WithStore {R S} (s : S) : Option R S := λ m,
  mkManager (mgr_resolver m) (Some s).

(** [New]: the options in order, then the two required fields. *)
Definition tenant_New {R S} (options : list (Option R S)) : outcome (Manager R S) :=
  let m := foldl (λ m opt, opt m) (mkManager None None) options in
  match mgr_resolver m, mgr_store m with
  | None, _ => Panic "tenant: resolver is required"
  | _, None => Panic "tenant: store is required"
  | Some _, Some _ => Ret m
  end.

(** A call of the manager's store; a [nil] interface panics. *)
Definition mgr_call {R S A} (f : GoM (S * world) A) : GoM (Manager R S * world) A :=
  λ mw, let '(m, w) := mw in
  match mgr_store m with
  | None => ((m, w), Panic "nil store")
  | Some s =>
      let '((s', w'), o) := f (s, w) in
      ((mkManager (mgr_resolver m) (Some s'), w'), o)
  end.

Definition Manager_Resolve {R S : Type} `{!Resolver R, !Store S} (r : Request) :
    GoM (Manager R S * world) (result ptr) :=
  mw ← go_get;
  match mgr_resolver mw.1 with
  | None => go_panic "nil resolver"
  | Some rs =>
      match Resolver_Resolve rs r with
      | Err e => mret (Err e)
      | Ok id =>
          res ← mgr_call (Store_Get (r_ctx r) id);
          match res with
          | Err e => mret (Err e)
          | Ok t => mret (Ok t)
          end
      end
  end.

(** ** Heap lemmas *)
Lemma heap_alloc_loc t h : (heap_alloc t h).1 = length (structs h).
Proof. done. Qed.

Lemma heap_alloc_length t h : length (structs (heap_alloc t h).2) = S (length (structs h)).
Proof. unfold heap_alloc; simpl. rewrite length_app; simpl. lia. Qed.

Lemma heap_store_length l t h : length (structs (heap_store l t h)) = length (structs h).
Proof. apply length_insert. Qed.

Lemma heap_alloc_load t h : heap_load (heap_alloc t h).2 (heap_alloc t h).1 = Some t.
Proof. unfold heap_load, heap_alloc; simpl. by apply list_lookup_middle. Qed.

Lemma heap_alloc_load_old t h l v :
  heap_load h l = Some v → heap_load (heap_alloc t h).2 l = Some v.
Proof. unfold heap_load, heap_alloc; simpl. intros. by apply lookup_app_l_Some. Qed.

Lemma heap_load_lt h l v : heap_load h l = Some v → l < length (structs h).
Proof. apply lookup_lt_Some. Qed.

Lemma heap_store_load h l t v :
  heap_load h l = Some v → heap_load (heap_store l t h) l = Some t.
Proof.
  intros Hl. unfold heap_load, heap_store; simpl.
  apply list_lookup_insert_eq. by eapply heap_load_lt.
Qed.

Lemma heap_store_load_ne h l l' t :
  l ≠ l' → heap_load (heap_store l t h) l' = heap_load h l'.
Proof. intros. unfold heap_load, heap_store; simpl. by apply list_lookup_insert_ne. Qed.

(** Writing an element through one slice header is seen through every other
    header of the same array. *)
Lemma slice_elems_set h s i r :
  i < length (slice_elems h (Some s)) →
  slice_elems (slice_set s i r h) (Some s) = <[i := r]> (slice_elems h (Some s)).
Proof.
  simpl. rewrite length_take, length_drop. intros Hi.
  unfold slice_set. rewrite decide_True by lia. simpl. rewrite list_lookup_alter_eq.
  destruct (arrays h !! sl_arr s) as [a|]; simpl in *; [|lia].
  rewrite drop_insert_ge by lia. rewrite take_insert_lt by lia. do 2 f_equal. lia.
Qed.

Lemma slice_set_load s i r h l : heap_load (slice_set s i r h) l = heap_load h l.
Proof. unfold slice_set. by case_decide. Qed.

Lemma world_extends_refl w : world_extends w w.
Proof. by split_and!. Qed.

Lemma world_extends_trans w1 w2 w3 :
  world_extends w1 w2 → world_extends w2 w3 → world_extends w1 w3.
Proof.
  intros (Ha & Hb & Hc & Hd) (Ha' & Hb' & Hc' & Hd').
  split_and!; [eauto | congruence | congruence | lia].
Qed.

Lemma world_extends_alloc w t : world_extends w (set_heap (heap_alloc t (w_heap w)).2 w).
Proof.
  split_and!; [|done..]. intros l v Hl. cbn [set_heap w_heap]. by apply heap_alloc_load_old.
Qed.

Lemma world_extends_now w : world_extends w (tick w).
Proof. split_and!; simpl; [done.. | lia]. Qed.

Lemma world_extends_clock w w' :
  world_extends w w' → clock_monotone (w_clock w) → (next_now w ≤ next_now w')%Z.
Proof. intros (_ & _ & Hc & Hp) Hm. unfold next_now. rewrite Hc. by apply Hm. Qed.

(** Project out of the state records without unfolding heap operations. *)
Ltac world_simpl := cbn [w_heap w_clock w_pos set_heap tick fst snd] in *.

Create HintDb tenant.
#[export] Hint Resolve heap_alloc_load heap_alloc_load_old heap_load_lt
  heap_store_load heap_store_load_ne world_extends_refl world_extends_alloc
  world_extends_now : tenant.
