(* ===== verification/MemoryStore.v ===== *)
(** * Package store: [MemoryStore]

    The store of [store/memory.go]: a map from tenant ids to pointers to structs
    the store owns.  Every method runs under the store's mutex, so a method is one
    atomic step; concurrent callers are sequences of such steps.

    The specification is a finite map from ids to tenant values
    ([spec_step]); [ms_step] is the implementation driven by clients that hold
    pointers of their own and may write the structs behind them at any time. *)
From S2P Require Import Prelude GoStrings GoLib Tenant.
Set Default Goal Selector "!".

Record MemoryStore := mkMemoryStore { ms_tenants : gmap TenantID loc }.

Definition NewMemoryStore : MemoryStore := mkMemoryStore ∅.

(** [ms.tenants[id] = l]. *)
Definition ms_insert (id : TenantID) (l : loc) : GoM (MemoryStore * world) unit := λ sw,
  ((mkMemoryStore (<[id:=l]> (ms_tenants sw.1)), sw.2), Ret tt).

(** [*l = t]. *)
Definition write_tenant {S} (l : loc) (t : Tenant) : GoM (S * world) unit := λ sw,
  ((sw.1, set_heap (heap_store l t (w_heap sw.2)) sw.2), Ret tt).

Definition MemoryStore_Get (ctx : context) (id : TenantID) :
    GoM (MemoryStore * world) (result ptr) :=
  sw ← go_get;
  match ms_tenants sw.1 !! id with
  | None => mret (Err ErrTenantNotFound)
  | Some l =>
      cp ← deref (Some l);
      l' ← new_tenant cp;
      mret (Ok (Some l'))
  end.

Definition MemoryStore_set (t : ptr) : GoM (MemoryStore * world) unit :=
  cp ← deref t;
  l ← new_tenant cp;
  ms_insert (Tenant_ID cp) l.

Definition MemoryStore_IsBanned (ctx : context) (id : TenantID) :
    GoM (MemoryStore * world) (result bool) :=
  sw ← go_get;
  match ms_tenants sw.1 !! id with
  | None => mret (Err ErrTenantNotFound)
  | Some l =>
      t ← deref (Some l);
      mret (Ok (bool_decide (Tenant_State t = Banned)))
  end.

Definition MemoryStore_Create (ctx : context) (t : ptr) :
    GoM (MemoryStore * world) (option error) :=
  cp ← deref t;
  sw ← go_get;
  match ms_tenants sw.1 !! Tenant_ID cp with
  | Some _ => mret (Some ErrTenantAlreadyExists)
  | None =>
      l ← new_tenant cp;
      _ ← ms_insert (Tenant_ID cp) l;
      mret None
  end.

Definition MemoryStore_Update (ctx : context) (t : ptr) :
    GoM (MemoryStore * world) (option error) :=
  cp ← deref t;
  sw ← go_get;
  match ms_tenants sw.1 !! Tenant_ID cp with
  | None => mret (Some ErrTenantNotFound)
  | Some _ =>
      l ← new_tenant cp;
      _ ← ms_insert (Tenant_ID cp) l;
      mret None
  end.

Definition MemoryStore_SetState (ctx : context) (id : TenantID) (state : State) :
    GoM (MemoryStore * world) (option error) :=
  sw ← go_get;
  match ms_tenants sw.1 !! id with
  | None => mret (Some ErrTenantNotFound)
  | Some l =>
      t ← deref (Some l);
      _ ← write_tenant l (mkTenant (Tenant_ID t) state (Tenant_Roles t));
      mret None
  end.

#[global] Instance MemoryStore_Store : Store MemoryStore := {
  Store_Get := MemoryStore_Get;
  Store_IsBanned := MemoryStore_IsBanned
}.

#[global] Instance MemoryStore_AdminStore : AdminStore MemoryStore := {
  AdminStore_Create := MemoryStore_Create;
  AdminStore_Update := MemoryStore_Update;
  AdminStore_SetState := MemoryStore_SetState
}.

(** ** The invariant and the abstract view *)

(** Every entry points to an allocated struct whose [ID] field is the key. *)
Definition ms_wf (ms : MemoryStore) (h : heap) : Prop :=
  ∀ id l, ms_tenants ms !! id = Some l →
    ∃ t, heap_load h l = Some t ∧ Tenant_ID t = id.

(** The tenants by value. *)
Definition ms_view (ms : MemoryStore) (h : heap) : gmap TenantID Tenant :=
  omap (heap_load h) (ms_tenants ms).

(** ** The specification: a map of tenant values *)
Inductive store_event : Type :=
| EvGet (id : TenantID) (r : result (option Tenant))
| EvIsBanned (id : TenantID) (r : result bool)
| EvCreate (t : Tenant) (r : option error)
| EvUpdate (t : Tenant) (r : option error)
| EvSetState (id : TenantID) (s : State) (r : option error)
| EvClient.

Definition with_state (s : State) (t : Tenant) : Tenant :=
  mkTenant (Tenant_ID t) s (Tenant_Roles t).

(** What an event does to the map, and which result it must carry. *)
Definition spec_step (m : gmap TenantID Tenant) (ev : store_event)
    (m' : gmap TenantID Tenant) : Prop :=
  match ev with
  | EvGet id r =>
      m' = m ∧ r = match m !! id with Some t => Ok (Some t) | None => Err ErrTenantNotFound end
  | EvIsBanned id r =>
      m' = m ∧ r = match m !! id with
                   | Some t => Ok (bool_decide (Tenant_State t = Banned))
                   | None => Err ErrTenantNotFound end
  | EvCreate t r =>
      match m !! Tenant_ID t with
      | Some _ => m' = m ∧ r = Some ErrTenantAlreadyExists
      | None => m' = <[Tenant_ID t := t]> m ∧ r = None
      end
  | EvUpdate t r =>
      match m !! Tenant_ID t with
      | Some _ => m' = <[Tenant_ID t := t]> m ∧ r = None
      | None => m' = m ∧ r = Some ErrTenantNotFound
      end
  | EvSetState id s r =>
      match m !! id with
      | Some t => m' = <[id := with_state s t]> m ∧ r = None
      | None => m' = m ∧ r = Some ErrTenantNotFound
      end
  | EvClient => m' = m
  end.

(** The event is a call that writes the tenant [id]. *)
Definition touches (id : TenantID) (ev : store_event) : Prop :=
  match ev with
  | EvUpdate t _ => Tenant_ID t = id
  | EvSetState id' _ _ => id' = id
  | _ => False
  end.

(** ** The implementation with its clients

    [own] are the locations clients hold: structs they allocated and copies [Get]
    returned.  A client may overwrite any of them between two method calls. *)
Record ms_sys := mkSys { sys_ms : MemoryStore; sys_w : world; sys_own : gset nat }.

Definition val_of (w : world) (r : result ptr) : result (option Tenant) :=
  match r with
  | Ok p => Ok (p ≫= heap_load (w_heap w))
  | Err e => Err e
  end.

Definition own_of (r : result ptr) : gset nat :=
  match r with Ok (Some l) => {[l]} | _ => ∅ end.

Inductive ms_step : ms_sys → store_event → ms_sys → Prop :=
| step_get ms w C ctx id ms' w' r v :
    MemoryStore_Get ctx id (ms, w) = ((ms', w'), Ret r) → val_of w' r = v →
    ms_step (mkSys ms w C) (EvGet id v) (mkSys ms' w' (own_of r ∪ C))
| step_isbanned ms w C ctx id ms' w' r :
    MemoryStore_IsBanned ctx id (ms, w) = ((ms', w'), Ret r) →
    ms_step (mkSys ms w C) (EvIsBanned id r) (mkSys ms' w' C)
| step_create ms w C ctx l t ms' w' r :
    l ∈ C → heap_load (w_heap w) l = Some t →
    MemoryStore_Create ctx (Some l) (ms, w) = ((ms', w'), Ret r) →
    ms_step (mkSys ms w C) (EvCreate t r) (mkSys ms' w' C)
| step_update ms w C ctx l t ms' w' r :
    l ∈ C → heap_load (w_heap w) l = Some t →
    MemoryStore_Update ctx (Some l) (ms, w) = ((ms', w'), Ret r) →
    ms_step (mkSys ms w C) (EvUpdate t r) (mkSys ms' w' C)
| step_setstate ms w C ctx id s ms' w' r :
    MemoryStore_SetState ctx id s (ms, w) = ((ms', w'), Ret r) →
    ms_step (mkSys ms w C) (EvSetState id s r) (mkSys ms' w' C)
| step_client_new ms w C t :
    ms_step (mkSys ms w C) EvClient
      (mkSys ms (set_heap (heap_alloc t (w_heap w)).2 w)
         ({[ (heap_alloc t (w_heap w)).1 ]} ∪ C))
| step_client_write ms w C l t :
    l ∈ C →
    ms_step (mkSys ms w C) EvClient (mkSys ms (set_heap (heap_store l t (w_heap w)) w) C).

(** The store never shares a struct with a client. *)
Definition sys_inv (s : ms_sys) : Prop :=
  ms_wf (sys_ms s) (w_heap (sys_w s)) ∧
  (∀ l, l ∈ sys_own s → l < length (structs (w_heap (sys_w s)))) ∧
  (∀ id l, ms_tenants (sys_ms s) !! id = Some l → l ∉ sys_own s).

Definition sys_view (s : ms_sys) : gmap TenantID Tenant :=
  ms_view (sys_ms s) (w_heap (sys_w s)).

(** ** Lemmas on the view *)
Lemma view_lookup ms h id : ms_view ms h !! id = ms_tenants ms !! id ≫= heap_load h.
Proof. apply lookup_omap. Qed.

Lemma view_Some ms h id t :
  ms_view ms h !! id = Some t ↔
  ∃ l, ms_tenants ms !! id = Some l ∧ heap_load h l = Some t.
Proof. rewrite view_lookup, bind_Some. naive_solver. Qed.

Lemma view_None ms h id :
  ms_wf ms h → ms_view ms h !! id = None → ms_tenants ms !! id = None.
Proof.
  intros Hwf. rewrite view_lookup, bind_None. intros [?|(l & Hl & Hn)]; [done |].
  destruct (Hwf _ _ Hl) as (t & Ht & _). congruence.
Qed.

Lemma view_id ms h id t : ms_wf ms h → ms_view ms h !! id = Some t → Tenant_ID t = id.
Proof.
  intros Hwf (l & Hl & Ht)%view_Some. destruct (Hwf _ _ Hl) as (? & ? & ?). congruence.
Qed.

Lemma view_alloc ms h t : ms_wf ms h → ms_view ms (heap_alloc t h).2 = ms_view ms h.
Proof.
  intros Hwf. apply map_eq; intros id. rewrite !view_lookup.
  destruct (ms_tenants ms !! id) as [l|] eqn:Hl; [|done]; simpl.
  destruct (Hwf _ _ Hl) as (v & Hv & _). rewrite Hv. by apply heap_alloc_load_old.
Qed.

Lemma view_insert_new ms h t :
  ms_wf ms h →
  ms_view (mkMemoryStore (<[Tenant_ID t := (heap_alloc t h).1]> (ms_tenants ms)))
    (heap_alloc t h).2 = <[Tenant_ID t := t]> (ms_view ms h).
Proof.
  intros Hwf. rewrite <- (view_alloc _ _ t Hwf). unfold ms_view.
  apply map_eq; intros id. rewrite lookup_omap; simpl.
  rewrite !lookup_insert. case_decide; simpl; [apply heap_alloc_load | by rewrite lookup_omap].
Qed.

Lemma view_store_other ms h l t :
  (∀ id l', ms_tenants ms !! id = Some l' → l' ≠ l) →
  ms_view ms (heap_store l t h) = ms_view ms h.
Proof.
  intros Hne. apply map_eq; intros id. rewrite !view_lookup.
  destruct (ms_tenants ms !! id) as [l'|] eqn:Hl; [|done]; simpl.
  apply heap_store_load_ne. intros ->. by eapply Hne.
Qed.

Lemma ms_wf_inj ms h id id' l :
  ms_wf ms h → ms_tenants ms !! id = Some l → ms_tenants ms !! id' = Some l → id = id'.
Proof.
  intros Hwf H1 H2. destruct (Hwf _ _ H1) as (t & ? & <-).
  destruct (Hwf _ _ H2) as (t' & ? & <-). congruence.
Qed.

Lemma view_store_same ms h id l t t' :
  ms_wf ms h → ms_tenants ms !! id = Some l → heap_load h l = Some t →
  ms_view ms (heap_store l t' h) = <[id := t']> (ms_view ms h).
Proof.
  intros Hwf Hl Ht. apply map_eq; intros id'. rewrite view_lookup, lookup_insert.
  case_decide as Heq; [subst; rewrite Hl; simpl; eauto with tenant |].
  rewrite view_lookup. destruct (ms_tenants ms !! id') as [l'|] eqn:Hl'; [|done]; simpl.
  apply heap_store_load_ne. intros ->. by eapply Heq, ms_wf_inj.
Qed.

(** ** What each method does, by cases on the view *)
Section methods.
Context (ms : MemoryStore) (w : world) (ctx : context).
Hypothesis (Hwf : ms_wf ms (w_heap w)).

Lemma Get_eq id :
  MemoryStore_Get ctx id (ms, w) =
  match ms_view ms (w_heap w) !! id with
  | None => ((ms, w), Ret (Err ErrTenantNotFound))
  | Some t => ((ms, set_heap (heap_alloc t (w_heap w)).2 w),
               Ret (Ok (Some (heap_alloc t (w_heap w)).1)))
  end.
Proof using Hwf.
  unfold MemoryStore_Get, deref, new_tenant. go_unfold; simpl. rewrite view_lookup.
  destruct (ms_tenants ms !! id) as [l|] eqn:Hl; simpl; [|done].
  destruct (Hwf _ _ Hl) as (t & Ht & _). by rewrite Ht.
Qed.

Lemma IsBanned_eq id :
  MemoryStore_IsBanned ctx id (ms, w) =
  ((ms, w), Ret match ms_view ms (w_heap w) !! id with
                | None => Err ErrTenantNotFound
                | Some t => Ok (bool_decide (Tenant_State t = Banned))
                end).
Proof using Hwf.
  unfold MemoryStore_IsBanned, deref. go_unfold; simpl. rewrite view_lookup.
  destruct (ms_tenants ms !! id) as [l|] eqn:Hl; simpl; [|done].
  destruct (Hwf _ _ Hl) as (t & Ht & _). by rewrite Ht.
Qed.

Lemma Create_eq l t :
  heap_load (w_heap w) l = Some t →
  MemoryStore_Create ctx (Some l) (ms, w) =
  match ms_view ms (w_heap w) !! Tenant_ID t with
  | Some _ => ((ms, w), Ret (Some ErrTenantAlreadyExists))
  | None => ((mkMemoryStore (<[Tenant_ID t := (heap_alloc t (w_heap w)).1]> (ms_tenants ms)),
              set_heap (heap_alloc t (w_heap w)).2 w), Ret None)
  end.
Proof using Hwf.
  intros Ht. unfold MemoryStore_Create, deref, new_tenant, ms_insert.
  go_unfold; simpl. rewrite Ht; simpl. rewrite view_lookup.
  destruct (ms_tenants ms !! Tenant_ID t) as [l'|] eqn:Hl; simpl; [|done].
  destruct (Hwf _ _ Hl) as (t' & Ht' & _). by rewrite Ht'.
Qed.

Lemma Update_eq l t :
  heap_load (w_heap w) l = Some t →
  MemoryStore_Update ctx (Some l) (ms, w) =
  match ms_view ms (w_heap w) !! Tenant_ID t with
  | None => ((ms, w), Ret (Some ErrTenantNotFound))
  | Some _ => ((mkMemoryStore (<[Tenant_ID t := (heap_alloc t (w_heap w)).1]> (ms_tenants ms)),
                set_heap (heap_alloc t (w_heap w)).2 w), Ret None)
  end.
Proof using Hwf.
  intros Ht. unfold MemoryStore_Update, deref, new_tenant, ms_insert.
  go_unfold; simpl. rewrite Ht; simpl. rewrite view_lookup.
  destruct (ms_tenants ms !! Tenant_ID t) as [l'|] eqn:Hl; simpl; [|done].
  destruct (Hwf _ _ Hl) as (t' & Ht' & _). by rewrite Ht'.
Qed.

Lemma SetState_eq id s :
  MemoryStore_SetState ctx id s (ms, w) =
  match ms_tenants ms !! id, ms_view ms (w_heap w) !! id with
  | Some l, Some t =>
      ((ms, set_heap (heap_store l (with_state s t) (w_heap w)) w), Ret None)
  | _, _ => ((ms, w), Ret (Some ErrTenantNotFound))
  end.
Proof using Hwf.
  unfold MemoryStore_SetState, deref, write_tenant. go_unfold; simpl. rewrite view_lookup.
  destruct (ms_tenants ms !! id) as [l|] eqn:Hl; simpl; [|done].
  destruct (Hwf _ _ Hl) as (t & Ht & _). by rewrite Ht.
Qed.

End methods.

(** ** The invariant is kept *)
Lemma ms_wf_alloc ms h t : ms_wf ms h → ms_wf ms (heap_alloc t h).2.
Proof.
  intros Hwf id l Hl. destruct (Hwf _ _ Hl) as (v & ? & ?).
  exists v. eauto with tenant.
Qed.

Lemma ms_wf_insert_new ms h t :
  ms_wf ms h →
  ms_wf (mkMemoryStore (<[Tenant_ID t := (heap_alloc t h).1]> (ms_tenants ms))) (heap_alloc t h).2.
Proof.
  intros Hwf id l. simpl. rewrite lookup_insert. case_decide; intros Hl; simplify_eq.
  - exists t. split; [apply heap_alloc_load | done].
  - exact (ms_wf_alloc ms h t Hwf id l Hl).
Qed.

Lemma ms_wf_store ms h l t :
  ms_wf ms h → (∀ id, ms_tenants ms !! id = Some l → Tenant_ID t = id) →
  ms_wf ms (heap_store l t h).
Proof.
  intros Hwf Hid id l' Hl'. destruct (Hwf _ _ Hl') as (v & Hv & ?).
  destruct (decide (l = l')) as [<-|Hne].
  - exists t. split; [eauto with tenant | auto].
  - exists v. by rewrite heap_store_load_ne.
Qed.

Lemma ms_wf_new h : ms_wf NewMemoryStore h.
Proof. intros id l. simpl. by rewrite lookup_empty. Qed.

#[export] Hint Resolve ms_wf_alloc ms_wf_insert_new ms_wf_store ms_wf_new : tenant.

#[global] Program Instance MemoryStore_Contract : StoreContract MemoryStore := {
  store_inv := ms_wf
}.
Next Obligation.
  intros ctx id ms w Hwf. unfold returns; simpl. rewrite Get_eq by done.
  case_match; eauto.
Qed.
Next Obligation.
  intros ctx id ms w ms' w' r Hwf E; simpl in *. rewrite Get_eq in E by done.
  case_match; simplify_eq; [|by auto with tenant].
  split; [by apply ms_wf_alloc | apply world_extends_alloc].
Qed.
Next Obligation.
  intros ctx id ms w ms' w' p Hwf E; simpl in *. rewrite Get_eq in E by done.
  destruct (ms_view ms (w_heap w) !! id) as [t|] eqn:Hv; [|done]. injection E as <- <- <-.
  apply view_Some in Hv as (l & Hl & Ht). destruct (Hwf _ _ Hl) as (t' & Ht' & <-).
  eexists _, t. split; [done |]. split; [apply heap_alloc_load | congruence].
Qed.

Ltac sys_simpl := cbn [sys_ms sys_w sys_own ms_tenants spec_step] in *; world_simpl.

Lemma sys_inv_alloc ms w C t :
  sys_inv (mkSys ms w C) →
  sys_inv (mkSys ms (set_heap (heap_alloc t (w_heap w)).2 w)
             ({[ (heap_alloc t (w_heap w)).1 ]} ∪ C)).
Proof.
  intros (Hwf & Hown & Hdisj). unfold sys_inv; sys_simpl.
  split_and!; [by apply ms_wf_alloc | ..].
  - intros l Hl. rewrite heap_alloc_length. rewrite heap_alloc_loc in Hl.
    apply elem_of_union in Hl as [->%elem_of_singleton|Hl%Hown]; lia.
  - intros id l Hl. rewrite not_elem_of_union, not_elem_of_singleton. split; [|eauto].
    intros ->. rewrite heap_alloc_loc in Hl.
    destruct (Hwf _ _ Hl) as (t' & Ht'%heap_load_lt & _). lia.
Qed.

Lemma sys_inv_insert ms w C t :
  sys_inv (mkSys ms w C) →
  sys_inv (mkSys (mkMemoryStore (<[Tenant_ID t := (heap_alloc t (w_heap w)).1]> (ms_tenants ms)))
             (set_heap (heap_alloc t (w_heap w)).2 w) C).
Proof.
  intros (Hwf & Hown & Hdisj). unfold sys_inv; sys_simpl.
  split_and!; [by apply ms_wf_insert_new | ..].
  - intros l Hl%Hown. rewrite heap_alloc_length. lia.
  - intros id l. sys_simpl. rewrite lookup_insert. case_decide; intros Hl; simplify_eq; [|eauto].
    rewrite heap_alloc_loc. intros Hin%Hown. lia.
Qed.

Lemma sys_inv_store ms w C l t :
  sys_inv (mkSys ms w C) →
  (∀ id, ms_tenants ms !! id = Some l → Tenant_ID t = id) →
  sys_inv (mkSys ms (set_heap (heap_store l t (w_heap w)) w) C).
Proof.
  intros (Hwf & Hown & Hdisj) Hid. unfold sys_inv; sys_simpl.
  split_and!; [by apply ms_wf_store | | done].
  intros l' Hl'. rewrite heap_store_length. auto.
Qed.

(** The invariant reads the heap and is stable when clients hold less. *)
Lemma sys_inv_weaken ms w w' C C' :
  w_heap w' = w_heap w → C' ⊆ C → sys_inv (mkSys ms w C) → sys_inv (mkSys ms w' C').
Proof.
  intros Hh HC (Hwf & Ho & Hd). unfold sys_inv; sys_simpl. rewrite Hh.
  split_and!; [done | set_solver | set_solver].
Qed.

(** One step of the store keeps the invariant and is a step of the map. *)
Lemma ms_step_refines s ev s' :
  ms_step s ev s' → sys_inv s → sys_inv s' ∧ spec_step (sys_view s) ev (sys_view s').
Proof.
  intros Hstep Hinv. pose proof Hinv as (Hwf & Hown & Hdisj).
  inversion Hstep as [??? ctx id ???? E|??? ctx id ??? E|??? ctx l t ??? Hin Ht E
    |??? ctx l t ??? Hin Ht E|??? ctx id st ??? E|??? t|??? l t Hin]; subst;
    unfold sys_view in *; sys_simpl.
  - rewrite Get_eq in E by done.
    destruct (ms_view ms (w_heap w) !! id) as [t|] eqn:Hv; simplify_eq; sys_simpl.
    + split; [by apply sys_inv_alloc |]. split; [by apply view_alloc |].
      unfold val_of. f_equal. apply heap_alloc_load.
    + cbn [own_of val_of]. by rewrite (left_id_L ∅ (∪)).
  - rewrite IsBanned_eq in E by done. simplify_eq. done.
  - rewrite (Create_eq _ _ _ Hwf _ _ Ht) in E.
    destruct (ms_view ms (w_heap w) !! Tenant_ID t) eqn:Hv; simplify_eq; sys_simpl; [done |].
    split; [by apply sys_inv_insert |]. by split; [apply view_insert_new|].
  - rewrite (Update_eq _ _ _ Hwf _ _ Ht) in E.
    destruct (ms_view ms (w_heap w) !! Tenant_ID t) eqn:Hv; simplify_eq; sys_simpl; [|done].
    split; [by apply sys_inv_insert |]. by split; [apply view_insert_new|].
  - rewrite SetState_eq in E by done.
    destruct (ms_view ms (w_heap w) !! id) as [t|] eqn:Hv.
    + pose proof Hv as (l & Hl & Ht)%view_Some. rewrite Hl in E. simplify_eq. split.
      * apply sys_inv_store; [done |]. intros id' Hl'.
        destruct (Hwf _ _ Hl') as (? & ? & ?). simpl. congruence.
      * by split; [eapply view_store_same|].
    + by destruct (ms_tenants ms !! id); simplify_eq.
  - split; [by apply sys_inv_alloc | by apply view_alloc].
  - split; [apply sys_inv_store; [done |] |].
    + intros id Hl. exfalso. by eapply Hdisj.
    + apply view_store_other. intros id l' Hl' ->. by eapply Hdisj.
Qed.

(** A struct that neither a client nor the store holds is left alone. *)
Definition unshared (s : ms_sys) (l : loc) : Prop :=
  (l ∉ sys_own s) ∧ (∀ id, ms_tenants (sys_ms s) !! id ≠ Some l).

Lemma unshared_alloc (w : world) (C : gset nat) t l v :
  heap_load (w_heap w) l = Some v → l ∉ C → l ∉ {[ (heap_alloc t (w_heap w)).1 ]} ∪ C.
Proof.
  intros Hl%heap_load_lt HC. rewrite heap_alloc_loc.
  rewrite not_elem_of_union, not_elem_of_singleton. split; [lia | done].
Qed.

Lemma unshared_insert ms w C t l v :
  heap_load (w_heap w) l = Some v → unshared (mkSys ms w C) l →
  heap_load (heap_alloc t (w_heap w)).2 l = Some v ∧
  unshared (mkSys (mkMemoryStore (<[Tenant_ID t := (heap_alloc t (w_heap w)).1]> (ms_tenants ms)))
              (set_heap (heap_alloc t (w_heap w)).2 w) C) l.
Proof.
  intros Hl [HC Hr]. split; [by apply heap_alloc_load_old |]. split; [done |]. sys_simpl.
  intros id. rewrite lookup_insert, heap_alloc_loc. case_decide; [|apply Hr].
  apply heap_load_lt in Hl. intros [= <-]. lia.
Qed.

Lemma ms_step_frame s ev s' l v :
  ms_step s ev s' → sys_inv s → heap_load (w_heap (sys_w s)) l = Some v → unshared s l →
  heap_load (w_heap (sys_w s')) l = Some v ∧ unshared s' l.
Proof.
  intros Hstep (Hwf & _) Hl Hu. pose proof Hu as [HC Hr].
  inversion Hstep as [??? ctx id ???? E|??? ctx id ??? E|??? ctx l' t ??? Hin Ht E
    |??? ctx l' t ??? Hin Ht E|??? ctx id st ??? E|??? t|??? l' t Hin]; subst; sys_simpl.
  - rewrite Get_eq in E by done.
    destruct (ms_view ms (w_heap w) !! id) as [t|]; simplify_eq; sys_simpl.
    + split; [by apply heap_alloc_load_old |]. split; [|done].
      by apply (unshared_alloc w C t l v).
    + split; [done |]. split; [|done]. simpl. set_solver.
  - rewrite IsBanned_eq in E by done. by simplify_eq.
  - rewrite (Create_eq _ _ _ Hwf _ _ Ht) in E. case_match; simplify_eq; [done |].
    by apply unshared_insert.
  - rewrite (Update_eq _ _ _ Hwf _ _ Ht) in E. case_match; simplify_eq; [|done].
    by apply unshared_insert.
  - rewrite SetState_eq in E by done. repeat case_match; simplify_eq; try done.
    sys_simpl. rewrite heap_store_load_ne; [done |]. intros ->. by eapply Hr.
  - split; [by apply heap_alloc_load_old |]. split; [|done].
    by apply (unshared_alloc w C t l v).
  - split; [|done]. rewrite heap_store_load_ne; [done |]. by intros ->.
Qed.

(** The methods read no clock. *)
Lemma ms_step_clock s ev s' :
  ms_step s ev s' → sys_inv s →
  w_clock (sys_w s') = w_clock (sys_w s) ∧ w_pos (sys_w s') = w_pos (sys_w s).
Proof.
  intros Hstep (Hwf & _).
  inversion Hstep as [??? ctx id ???? E|??? ctx id ??? E|??? ctx l' t ??? Hin Ht E
    |??? ctx l' t ??? Hin Ht E|??? ctx id st ??? E|??? t|??? l' t Hin]; subst; sys_simpl; try done.
  - rewrite Get_eq in E by done. by destruct (ms_view _ _ !! _); simplify_eq.
  - rewrite IsBanned_eq in E by done. by simplify_eq.
  - rewrite (Create_eq _ _ _ Hwf _ _ Ht) in E. by case_match; simplify_eq.
  - rewrite (Update_eq _ _ _ Hwf _ _ Ht) in E. by case_match; simplify_eq.
  - rewrite SetState_eq in E by done. by repeat case_match; simplify_eq.
Qed.

Lemma spec_step_untouched m ev m' id t :
  spec_step m ev m' → m !! id = Some t → ¬ touches id ev → m' !! id = Some t.
Proof.
  intros Hs Hid Ht. destruct ev; simpl in *; repeat case_match; deconj; subst;
    try done; rewrite lookup_insert_ne; congruence.
Qed.

Lemma sys_inv_init w : sys_inv (mkSys NewMemoryStore w ∅).
Proof. split_and!; simpl; [apply ms_wf_new | set_solver | done]. Qed.

Lemma view_new w : sys_view (mkSys NewMemoryStore w ∅) = ∅.
Proof. apply omap_empty. Qed.

(** (C5) Refinement of [MemoryStore] by a map of tenant values: every run of the
    store's methods, interleaved in any order with clients that allocate tenants
    and overwrite the structs they hold (the ones they passed to [Create] or
    [Update] and the copies [Get] gave them), is a run of the map with the same
    arguments and the same results, errors included; a client's write is never
    visible in it. *)
Theorem memory_store_refines_map w tr s :
  trace ms_step (mkSys NewMemoryStore w ∅) tr s → trace spec_step ∅ tr (sys_view s).
Proof.
  intros Htr. rewrite <- (view_new w).
  apply (trace_sim _ _ sys_inv sys_view ms_step_refines _ _ _ Htr). apply sys_inv_init.
Qed.

Definition demo_clock : nat → Z := λ n, Z.of_nat n.
Definition demo_world : world := mkWorld heap_empty demo_clock 0.
Definition demo_tenant : Tenant := mkTenant "acme" Active None.

(** A client allocates a tenant, creates it in the store, then bans its own copy:
    the store still answers [Active]. *)
Lemma memory_store_refines_map_witness :
  ∃ s, trace spec_step ∅
         [EvClient; EvCreate demo_tenant None; EvClient;
          EvGet "acme" (Ok (Some demo_tenant))] (sys_view s).
Proof.
  eexists. eapply (memory_store_refines_map demo_world).
  eapply trace_cons; [apply (step_client_new _ _ _ demo_tenant) |].
  eapply trace_cons; [eapply (step_create _ _ _ Background 0); [set_solver | done | reflexivity] |].
  eapply trace_cons; [eapply (step_client_write _ _ _ 0 (mkTenant "acme" Banned None)); set_solver |].
  eapply trace_cons; [eapply (step_get _ _ _ Background "acme"); reflexivity |].
  apply trace_nil.
Defined.

(** (C35) The methods of a store that any run reached return: none panics on a
    pointer a client holds, whatever the arguments, and [Create] and [Update]
    panic on a [nil] tenant, leaving the store as it was. *)
Theorem memory_store_total w tr s ctx id st l :
  trace ms_step (mkSys NewMemoryStore w ∅) tr s → l ∈ sys_own s →
  let c := (sys_ms s, sys_w s) in
  returns (MemoryStore_Get ctx id) c ∧ returns (MemoryStore_IsBanned ctx id) c ∧
  returns (MemoryStore_SetState ctx id st) c ∧
  returns (MemoryStore_Create ctx (Some l)) c ∧ returns (MemoryStore_Update ctx (Some l)) c ∧
  (∃ msg, MemoryStore_Create ctx None c = (c, Panic msg)) ∧
  (∃ msg, MemoryStore_Update ctx None c = (c, Panic msg)).
Proof.
  intros Htr Hl.
  destruct (trace_sim _ _ sys_inv sys_view ms_step_refines _ _ _ Htr (sys_inv_init w))
    as [(Hwf & Hown & _) _].
  destruct (lookup_lt_is_Some_2 _ _ (Hown _ Hl)) as [t Ht]. unfold returns; simpl.
  rewrite Get_eq, IsBanned_eq, SetState_eq, (Create_eq _ _ _ Hwf _ _ Ht),
    (Update_eq _ _ _ Hwf _ _ Ht) by done.
  split_and!; try (repeat case_match; eauto; done); by eexists.
Qed.

Lemma memory_store_total_witness :
  returns (MemoryStore_Create Background (Some 0))
    (NewMemoryStore, set_heap (heap_alloc demo_tenant heap_empty).2 demo_world).
Proof.
  eapply (memory_store_total demo_world [EvClient]
    (mkSys NewMemoryStore (set_heap (heap_alloc demo_tenant heap_empty).2 demo_world) _)
    Background "acme" Active 0).
  - eapply trace_cons; [apply (step_client_new _ _ _ demo_tenant) | apply trace_nil].
  - set_solver.
Defined.

(** [Get] copies the struct and not the role array: whenever a stored tenant
    has at least [i + 1] roles, the caller that received a copy from [Get] and
    assigns [copy.Roles[i] = r] changes the roles of the stored tenant, so the
    next [Get] of the same id by anyone carries [r]. *)
Theorem get_shares_role_array ms w ctx id t i r p ms1 w1 :
  ms_wf ms (w_heap w) →
  ms_view ms (w_heap w) !! id = Some t →
  i < length (tenant_roles (w_heap w) t) →
  MemoryStore_Get ctx id (ms, w) = ((ms1, w1), Ret (Ok (Some p))) →
  ∃ copy sl,
    heap_load (w_heap w1) p = Some copy ∧ Tenant_Roles copy = Some sl ∧
    let h2 := slice_set sl i r (w_heap w1) in
    ms_view ms1 h2 !! id = Some t ∧
    tenant_roles h2 t = <[i := r]> (tenant_roles (w_heap w) t).
Proof.
  intros Hwf Hv Hi E. rewrite Get_eq, Hv in E by done. injection E as <- <- <-.
  exists t. unfold tenant_roles in *.
  destruct (Tenant_Roles t) as [sl|] eqn:Hs; [|simpl in Hi; lia].
  exists sl. split; [apply heap_alloc_load |]. split; [done |]. cbv zeta. split.
  - apply view_Some in Hv as (l & Hl & Ht). apply view_Some.
    exists l. rewrite slice_set_load. split; [done |]. by apply (heap_alloc_load_old t).
  - exact (slice_elems_set (heap_alloc t (w_heap w)).2 sl i r Hi).
Qed.

Definition demo_roles_heap : heap :=
  mkHeap [mkTenant "globex" Active (Some (mkSlice 0 0 1))] [["viewer"]].

(** A viewer becomes an administrator in the store through its copy. *)
Lemma get_shares_role_array_witness :
  ∃ copy sl, copy = mkTenant "globex" Active (Some (mkSlice 0 0 1)) ∧
    Tenant_Roles copy = Some sl ∧
    tenant_roles (slice_set sl 0 "admin" demo_roles_heap) copy = ["admin"].
Proof.
  destruct (get_shares_role_array (mkMemoryStore {["globex" := 0]})
    (mkWorld demo_roles_heap demo_clock 0) Background "globex"
    (mkTenant "globex" Active (Some (mkSlice 0 0 1))) 0 "admin" 1
    (mkMemoryStore {["globex" := 0]})
    (mkWorld (heap_alloc (mkTenant "globex" Active (Some (mkSlice 0 0 1))) demo_roles_heap).2
       demo_clock 0)) as (copy & sl & Hc & Hs & _ & Hr).
  - intros id l. simpl. rewrite lookup_singleton. case_decide; [|done].
    intros [= <-]. eexists; split; [reflexivity | done].
  - vm_compute. reflexivity.
  - simpl. lia.
  - reflexivity.
  - simpl in Hc. injection Hc as <-. exists (mkTenant "globex" Active (Some (mkSlice 0 0 1))), sl.
    split; [done |]. split; [done |]. injection Hs as <-. exact Hr.
Defined.
