(* ===== verification/Resolver.v ===== *)
(** * Package resolver: [SubdomainResolver], and package cachekey

    Which hosts identify which tenant, and what that gives for the cache keys
    built from the resolved ids. *)
From S2P Require Import Prelude GoStrings GoLib Tenant.
Set Default Goal Selector "!".

Record SubdomainResolver := mkSubdomainResolver { sr_baseDomain : string }.

Definition NewSubdomainResolver (baseDomain : string) : SubdomainResolver :=
  mkSubdomainResolver baseDomain.

(** Strip an optional port. *)
Definition strip_port (host : string) : string :=
  match strings_Index host ":" with
  | Some idx => str_take idx host
  | None => host
  end.

Definition SubdomainResolver_Resolve (sr : SubdomainResolver) (r : Request) :
    result TenantID :=
  let host := strip_port (r_Host r) in
  let suffix := "." +:+ sr_baseDomain sr in
  if negb (strings_HasSuffix host suffix) then Err ErrNoTenant
  else
    let subdomain := strings_TrimSuffix host suffix in
    if bool_decide (subdomain = "") then Err ErrNoTenant
    else if bool_decide (subdomain = "") || strings_Contains subdomain "." then Err ErrNoTenant
    else Ok subdomain.

#[global] Instance SubdomainResolver_Resolver : Resolver SubdomainResolver := {
  Resolver_Resolve := SubdomainResolver_Resolve
}.

(** [fmt.Sprintf("tenant:%s:%s", tenantID, key)]. *)
Definition Key (tenantID : TenantID) (key : string) : string :=
  "tenant:" +:+ tenantID +:+ ":" +:+ key.

(** ** Lemmas *)
Lemma strip_port_no_colon host : str_mem ":" (strip_port host) = false.
Proof.
  unfold strip_port. change ":" with (str1 ":").
  destruct (strings_Index host (str1 ":")) as [i|] eqn:E.
  - by apply Index_str1_Some in E as [? _].
  - by apply Index_str1_None.
Qed.

(** The host is the stripped host followed by nothing or by a port. *)
Lemma strip_port_split host :
  ∃ port, host = strip_port host +:+ port ∧ (port = "" ∨ ∃ p, port = ":" +:+ p).
Proof.
  unfold strip_port. change ":" with (str1 ":").
  destruct (strings_Index host (str1 ":")) as [i|] eqn:E.
  - apply Index_str1_Some in E as [_ Hs]. eauto.
  - exists "". rewrite str_app_nil_r. auto.
Qed.

Lemma strip_port_app a port :
  str_mem ":" a = false → (port = "" ∨ ∃ p, port = ":" +:+ p) → strip_port (a +:+ port) = a.
Proof.
  intros Ha Hport. destruct (strip_port_split (a +:+ port)) as (q & Hq & Hq').
  pose proof (strip_port_no_colon (a +:+ port)) as Hs.
  destruct Hport as [->|[p ->]], Hq' as [->|[p' ->]];
    rewrite ?str_app_nil_r in *; try done.
  - rewrite Hq, str_mem_app in Ha. simpl in Ha. by rewrite orb_true_r in Ha.
  - rewrite <- Hq, str_mem_app in Hs. simpl in Hs. by rewrite orb_true_r in Hs.
  - by destruct (str_sep_inj ":"%char _ _ _ _ Ha Hs Hq).
Qed.

Lemma Resolve_Ok_host sr r id :
  SubdomainResolver_Resolve sr r = Ok id ↔
  strip_port (r_Host r) = id +:+ "." +:+ sr_baseDomain sr ∧ id ≠ "" ∧ str_mem "." id = false.
Proof.
  unfold SubdomainResolver_Resolve. change (strings_Contains ?s ".") with (strings_Contains s (str1 ".")).
  destruct (strings_HasSuffix (strip_port (r_Host r)) _) eqn:Hs; simpl negb; cbv iota.
  - apply HasSuffix_true in Hs as [p Hp]. rewrite Hp, TrimSuffix_app, Contains_str1.
    split.
    + repeat case_bool_decide; simpl; try done. destruct (str_mem "." p) eqn:M; [done |].
      by intros [= <-].
    + intros (Heq & Hne & Hd).
      apply (f_equal (λ s, strings_TrimSuffix s ("." +:+ sr_baseDomain sr))) in Heq.
      rewrite !TrimSuffix_app in Heq. subst p.
      rewrite !bool_decide_false by done. by rewrite Hd.
  - split; [done |]. intros (Heq & _). rewrite Heq in Hs.
    by rewrite (proj2 (HasSuffix_true _ _)) in Hs by eauto.
Qed.

Lemma Resolve_Err sr r e : SubdomainResolver_Resolve sr r = Err e → e = ErrNoTenant.
Proof. unfold SubdomainResolver_Resolve. repeat case_match; congruence. Qed.

(** An id that a host resolved to holds no separator and is not empty. *)
Lemma Resolve_id_clean sr r id :
  SubdomainResolver_Resolve sr r = Ok id →
  id ≠ "" ∧ str_mem "." id = false ∧ str_mem ":" id = false.
Proof.
  intros (Hh & ? & ?)%Resolve_Ok_host. split_and!; [done.. |].
  pose proof (strip_port_no_colon (r_Host r)) as Hc.
  rewrite Hh, str_mem_app in Hc. by apply orb_false_iff in Hc as [? _].
Qed.

#[export] Hint Resolve Resolve_Err Resolve_id_clean : tenant.

(** (C29) [SubdomainResolver.Resolve] answers the tenant [id] exactly for the hosts
    [id.<base domain>] with an optional [:port], where [id] is one non-empty label
    (no dot, no colon) and the base domain has no colon; every other request is
    rejected, always with [ErrNoTenant]. *)
Theorem subdomain_resolve_spec sr r id :
  (SubdomainResolver_Resolve sr r = Ok id ↔
   id ≠ "" ∧ str_mem "." id = false ∧
   str_mem ":" (id +:+ sr_baseDomain sr) = false ∧
   ∃ port, r_Host r = id +:+ "." +:+ sr_baseDomain sr +:+ port ∧
           (port = "" ∨ ∃ p, port = ":" +:+ p)) ∧
  (∀ e, SubdomainResolver_Resolve sr r = Err e → e = ErrNoTenant).
Proof.
  split; [|apply Resolve_Err]. rewrite Resolve_Ok_host. split.
  - intros (Hh & Hne & Hd). destruct (strip_port_split (r_Host r)) as (port & Hp & Hport).
    pose proof (strip_port_no_colon (r_Host r)) as Hc. rewrite Hh, !str_mem_app in Hc.
    split_and!; [done | done | by rewrite str_mem_app; simpl in Hc |].
    exists port. split; [|done]. rewrite Hp, Hh at 1. by rewrite !str_app_assoc.
  - intros (Hne & Hd & Hc & port & Hh & Hport). split; [|done]. rewrite Hh.
    replace (id +:+ "." +:+ sr_baseDomain sr +:+ port)
      with ((id +:+ "." +:+ sr_baseDomain sr) +:+ port) by by rewrite !str_app_assoc.
    apply strip_port_app; [|done]. rewrite !str_mem_app in *. by simpl.
Qed.

(** (C21) Isolation of cache keys for resolved tenants: two keys built for tenants
    that the [SubdomainResolver] resolved requests to are equal only for the same tenant and the same
    application key, whatever the application keys contain. *)
Theorem cache_key_isolation sr sr' r r' id id' k k' :
  SubdomainResolver_Resolve sr r = Ok id → SubdomainResolver_Resolve sr' r' = Ok id' →
  Key id k = Key id' k' → id = id' ∧ k = k'.
Proof.
  intros (_ & _ & H1)%Resolve_id_clean (_ & _ & H2)%Resolve_id_clean.
  unfold Key. intros Heq%str_app_inv_head. by apply (str_sep_inj ":"%char).
Qed.

Definition demo_request (host : string) : Request := mkRequest "GET" host ["api"; "me"] Background.

Lemma cache_key_isolation_witness :
  Key "acme" "u:1" = Key "acme" "u:1" ∧ "acme" = "acme".
Proof.
  destruct (cache_key_isolation (NewSubdomainResolver "localhost")
    (NewSubdomainResolver "localhost") (demo_request "acme.localhost:8080")
    (demo_request "acme.localhost") "acme" "acme" "u:1" "u:1") as [H _];
    [vm_compute; reflexivity .. |]. split; [reflexivity | exact H].
Defined.

(** [Key] does not separate tenants whose ids may hold a colon: for every id
    and every application key with a colon in it, a different tenant id and
    another key give the same cache key. *)
Theorem cache_key_collision id a b :
  Key id (a +:+ ":" +:+ b) = Key (id +:+ ":" +:+ a) b ∧ id ≠ id +:+ ":" +:+ a.
Proof.
  unfold Key. autorewrite with golib_str. split; [done |].
  intros H%(f_equal String.length). rewrite !str_length_app in H. simpl in H. lia.
Qed.
