(* ===== verification/TenantCtx.v ===== *)
(** * Packages tenantctx and tenanttest

    The tenant travels in the request's context under a key of a private type. *)
From S2P Require Import Prelude GoStrings GoLib Tenant.
Set Default Goal Selector "!".

(** [type contextKey int]: unexported, so only this package makes such keys. *)
Definition contextKey : string := "tenantctx.contextKey".

Definition tenantContextKey : ctxKey := mkKey contextKey 0.

Definition WithTenant (ctx : option context) (t : ptr) : outcome context :=
  context_WithValue ctx tenantContextKey (anyTenant t).

(** [ctx.Value(k).( *tenant.Tenant)] with the comma-ok form. *)
Definition FromContext (ctx : option context) : ptr :=
  match ctx with
  | None => None
  | Some c =>
      match ctx_Value c tenantContextKey with
      | Some (anyTenant t) => t
      | _ => None
      end
  end.

(** ** Package tenanttest *)
Definition WithFakeTenantFull (ctx : option context) (t : ptr) : outcome context :=
  WithTenant ctx t.

(** Allocates the fake tenant, then stores the pointer. *)
Definition WithFakeTenant {S} (ctx : option context) (id : TenantID) (state : State) :
    GoM (S * world) context :=
  l ← new_tenant (mkTenant id state None);
  match WithFakeTenantFull ctx (Some l) with
  | Ret c => mret c
  | Panic msg => go_panic msg
  end.

(** What any other code may do to a context on its way: add values under keys of
    its own types. *)
Fixpoint with_values (c : context) (vs : list (ctxKey * any)) : context :=
  match vs with
  | [] => c
  | (k, v) :: vs => with_values (valueCtx c k v) vs
  end.

(** ** Lemmas *)
Lemma WithTenant_Some c t :
  WithTenant (Some c) t = Ret (valueCtx c tenantContextKey (anyTenant t)).
Proof. done. Qed.

Lemma Value_with_values c vs :
  Forall (λ kv, ck_type kv.1 ≠ contextKey) vs →
  ctx_Value (with_values c vs) tenantContextKey = ctx_Value c tenantContextKey.
Proof.
  revert c; induction vs as [|[k v] vs IH]; intros c Hvs; [done |].
  inversion_clear Hvs as [|? ? Hk Hvs']. simpl. rewrite IH by done. simpl.
  rewrite decide_False; [done |]. intros ->. by apply Hk.
Qed.

Lemma FromContext_WithTenant c t :
  FromContext (Some (valueCtx c tenantContextKey (anyTenant t))) = t.
Proof. unfold FromContext. cbn [ctx_Value]. by rewrite decide_True. Qed.

#[export] Hint Rewrite FromContext_WithTenant : golib_str.

(** The tenant put in a context is the one read back: whatever values other
    packages add on top (under keys of their own types) and whatever tenant was
    in the parent, [FromContext] returns the pointer of the innermost
    [WithTenant]; a second request's context is not affected, and the parent
    still holds what it held. *)
Theorem tenantctx_roundtrip parent t t' vs c :
  Forall (λ kv, ck_type kv.1 ≠ contextKey) vs →
  WithTenant (Some parent) t = Ret c →
  FromContext (Some (with_values c vs)) = t ∧
  FromContext (Some (with_values parent vs)) = FromContext (Some parent) ∧
  (∀ c', WithTenant (Some c) t' = Ret c' →
     FromContext (Some c') = t' ∧ FromContext (Some c) = t).
Proof.
  intros Hvs Hc. rewrite WithTenant_Some in Hc. injection Hc as <-.
  unfold FromContext at 1 2 3. rewrite !Value_with_values by done.
  cbn [ctx_Value]. rewrite decide_True by done. split_and!; [done | done |].
  intros c'. rewrite WithTenant_Some. intros [= <-].
  by rewrite !FromContext_WithTenant.
Qed.

Lemma tenantctx_roundtrip_witness :
  FromContext (Some (with_values (valueCtx Background tenantContextKey (anyTenant (Some 4)))
    [(mkKey "trace.key" 0, anyOther "span")])) = Some 4.
Proof.
  apply (tenantctx_roundtrip Background (Some 4) None).
  - repeat constructor. vm_compute. discriminate.
  - reflexivity.
Defined.
