(* ===== verification/CachedStore.v ===== *)
(** * Package store: [CachedStore]

    The TTL cache of [store/cached.go] in front of any [Store].  The call of the
    source goes through [singleflight.Group.Do] of golang.org/x/sync, a parameter
    of the model: the class [Singleflight], with the documented behaviour of [Do]
    for a caller with no duplicate in flight as [SingleflightLaw]. *)
From S2P Require Import Prelude GoStrings GoLib Tenant MemoryStore.
Set Default Goal Selector "!".

Class Singleflight := {
  sf_Do : ∀ {W A : Type}, string → GoM W (result A) → GoM W (result A)
}.

Class SingleflightLaw `{!Singleflight} := {
  sf_Do_alone W A key (fn : GoM W (result A)) w : sf_Do key fn w = fn w
}.

Record cacheEntry := mkEntry { ce_tenant : ptr; ce_expiresAt : Z }.

Record CachedStore (S : Type) := mkCachedStore {
  cs_source : S;
  cs_ttl : Z;
  cs_cache : gmap TenantID cacheEntry
}.
Arguments mkCachedStore {S} _ _ _.
Arguments cs_source {S} _.
Arguments cs_ttl {S} _.
Arguments cs_cache {S} _.

Definition NewCachedStore {S} (source : S) (ttl : Z) : CachedStore S :=
  mkCachedStore source ttl ∅.

Definition set_source {S} (s : S) (cs : CachedStore S) : CachedStore S :=
  mkCachedStore s (cs_ttl cs) (cs_cache cs).

(** [cs.cache[id] = e]. *)
Definition cs_insert {S} (id : TenantID) (e : cacheEntry) :
    GoM (CachedStore S * world) unit := λ cw,
  ((mkCachedStore (cs_source cw.1) (cs_ttl cw.1) (<[id:=e]> (cs_cache cw.1)), cw.2), Ret tt).

Section cached.
Context {S : Type} `{!Store S} `{!Singleflight}.

(** The function passed to [Do]: ask the source, keep what it answers. *)
Definition cs_fill (ctx : context) (id : TenantID) : GoM (CachedStore S * world) (result ptr) :=
  r ← zoom cs_source set_source (Store_Get ctx id);
  match r with
  | Err e => mret (Err e)
  | Ok t =>
      now ← time_Now;
      cw ← go_get;
      _ ← cs_insert id (mkEntry t (now + cs_ttl cw.1));
      mret (Ok t)
  end.

(** The entry of [id] when it is present and not expired; the clock is read only
    for an entry that is present. *)
Definition cs_probe (id : TenantID) : GoM (CachedStore S * world) (option ptr) :=
  cw ← go_get;
  match cs_cache cw.1 !! id with
  | None => mret None
  | Some entry =>
      now ← time_Now;
      mret (if (now <? ce_expiresAt entry)%Z then Some (ce_tenant entry) else None)
  end.

Definition CachedStore_Get (ctx : context) (id : TenantID) :
    GoM (CachedStore S * world) (result ptr) :=
  hit ← cs_probe id;
  match hit with
  | Some t => mret (Ok t)
  | None =>
      v ← sf_Do id (cs_fill ctx id);
      match v with
      | Err e => mret (Err e)
      | Ok t => mret (Ok t)
      end
  end.

Definition CachedStore_IsBanned (ctx : context) (id : TenantID) :
    GoM (CachedStore S * world) (result bool) :=
  zoom cs_source set_source (Store_IsBanned ctx id).

#[global] Instance CachedStore_Store : Store (CachedStore S) := {
  Store_Get := CachedStore_Get;
  Store_IsBanned := CachedStore_IsBanned
}.

(** The pointer is to an allocated tenant of that id. *)
Definition tenant_at (h : heap) (id : TenantID) (p : ptr) : Prop :=
  ∃ l t, p = Some l ∧ heap_load h l = Some t ∧ Tenant_ID t = id.

(** Every entry points to an allocated tenant of its own id. *)
Definition cache_ok (c : gmap TenantID cacheEntry) (h : heap) : Prop :=
  ∀ id e, c !! id = Some e → tenant_at h id (ce_tenant e).

Definition cs_wf `{!StoreContract S} (cs : CachedStore S) (h : heap) : Prop :=
  store_inv (cs_source cs) h ∧ cache_ok (cs_cache cs) h.

End cached.

(** ** What [Get] does, by cases *)
Section cached_lemmas.
Context {S : Type} {HS : Store S} {SF : Singleflight} {SFL : SingleflightLaw}.

(** The cache has no entry for [id] that is fresh at [w]; [w0] is the world in
    which the source is asked. *)
Definition cs_miss (cs : CachedStore S) (id : TenantID) (w w0 : world) : Prop :=
  (cs_cache cs !! id = None ∧ w0 = w) ∨
  (∃ e, cs_cache cs !! id = Some e ∧ (ce_expiresAt e ≤ next_now w)%Z ∧ w0 = tick w).

Lemma cached_Get_hit ctx id cs w e :
  cs_cache cs !! id = Some e → (next_now w < ce_expiresAt e)%Z →
  CachedStore_Get ctx id (cs, w) = ((cs, tick w), Ret (Ok (ce_tenant e))).
Proof.
  intros He Hlt. unfold CachedStore_Get, cs_probe, time_Now. go_unfold; simpl.
  rewrite He; simpl. by rewrite (proj2 (Z.ltb_lt _ _) Hlt).
Qed.

Lemma cached_Get_miss ctx id cs w w0 :
  cs_miss cs id w w0 →
  CachedStore_Get ctx id (cs, w) =
  match Store_Get ctx id (cs_source cs, w0) with
  | ((s1, w1), Ret (Ok t)) =>
      ((mkCachedStore s1 (cs_ttl cs)
          (<[id := mkEntry t (next_now w1 + cs_ttl cs)]> (cs_cache cs)), tick w1), Ret (Ok t))
  | ((s1, w1), Ret (Err e)) => ((set_source s1 cs, w1), Ret (Err e))
  | ((s1, w1), Panic msg) => ((set_source s1 cs, w1), Panic msg)
  end.
Proof using SFL.
  intros Hm. unfold CachedStore_Get, cs_probe, time_Now. go_unfold; simpl.
  destruct Hm as [[Hn ->] | (e & He & Hle & ->)].
  - rewrite Hn; simpl. rewrite sf_Do_alone. unfold cs_fill, time_Now, cs_insert. go_unfold; simpl.
    by destruct (Store_Get ctx id (cs_source cs, w)) as [[s1 w1] [[t|e]|msg]].
  - rewrite He; simpl. rewrite (proj2 (Z.ltb_ge _ _) Hle), sf_Do_alone.
    unfold cs_fill, time_Now, cs_insert. go_unfold; simpl.
    by destruct (Store_Get ctx id (cs_source cs, tick w)) as [[s1 w1] [[t|e']|msg]].
Qed.

(** Every lookup is a hit or a miss. *)
Lemma cs_hit_or_miss cs id w :
  (∃ e, cs_cache cs !! id = Some e ∧ (next_now w < ce_expiresAt e)%Z) ∨
  (∃ w0, cs_miss cs id w w0 ∧ world_extends w w0 ∧ w_heap w0 = w_heap w).
Proof.
  destruct (cs_cache cs !! id) as [e|] eqn:He.
  - destruct (Z.lt_ge_cases (next_now w) (ce_expiresAt e)) as [?|?]; [left; eauto |].
    right. exists (tick w). split; [right; eauto | auto with tenant].
  - right. exists w. split; [left; auto | auto with tenant].
Qed.

Lemma cache_ok_extends c w w' :
  world_extends w w' → cache_ok c (w_heap w) → cache_ok c (w_heap w').
Proof.
  intros (Hh & _) Hc id e He. destruct (Hc _ _ He) as (l & t & ? & ? & ?). exists l, t. eauto.
Qed.

Lemma cache_ok_insert c h id e :
  cache_ok c h → tenant_at h id (ce_tenant e) → cache_ok (<[id := e]> c) h.
Proof. intros Hc He id' e'. rewrite lookup_insert. case_decide; naive_solver. Qed.

Context {SC : StoreContract S}.

(** [Get] under the invariant: returns, keeps it, and answers the right tenant. *)
Lemma cached_Get_wf ctx id cs w :
  cs_wf cs (w_heap w) →
  ∃ cs' w' r, CachedStore_Get ctx id (cs, w) = ((cs', w'), Ret r) ∧
    cs_wf cs' (w_heap w') ∧ world_extends w w' ∧
    ∀ p, r = Ok p → tenant_at (w_heap w') id p.
Proof using SFL.
  intros [Hi Hc]. destruct (cs_hit_or_miss cs id w) as [(e & He & Hlt)|(w0 & Hm & Hext & Hh)].
  { rewrite (cached_Get_hit _ _ _ _ _ He Hlt). do 3 eexists; split_and!; eauto with tenant.
    - by split.
    - intros p [= <-]. apply (Hc _ _ He). }
  rewrite (cached_Get_miss _ _ _ _ _ Hm). rewrite <- Hh in Hi.
  destruct (store_get_returns ctx id _ _ Hi) as ([s1 w1] & r & E). rewrite E.
  destruct (store_get_inv _ _ _ _ _ _ _ Hi E) as [Hi1 Hext1].
  assert (world_extends w w1) as Hew by by eapply world_extends_trans.
  pose proof (cache_ok_extends _ _ _ Hew Hc) as Hc1.
  destruct r as [p|err]; (do 3 eexists; split; [reflexivity |]); [|by split_and!].
  pose proof (store_get_id _ _ _ _ _ _ _ Hi E) as Hid. split_and!.
  - split; [done |]. by apply cache_ok_insert.
  - eapply world_extends_trans; [exact Hew | apply world_extends_now].
  - intros p' [= <-]. exact Hid.
Qed.

#[global] Program Instance CachedStore_Contract : StoreContract (CachedStore S) := {
  store_inv := cs_wf
}.
Next Obligation.
  intros ctx id cs w Hwf. destruct (cached_Get_wf ctx id cs w Hwf) as (cs' & w' & r & E & _).
  by exists (cs', w'), r.
Qed.
Next Obligation.
  intros ctx id cs w cs' w' r Hwf E; simpl in *.
  destruct (cached_Get_wf ctx id cs w Hwf) as (? & ? & ? & E' & ? & ? & _).
  rewrite E in E'. by simplify_eq.
Qed.
Next Obligation.
  intros ctx id cs w cs' w' p Hwf E; simpl in *.
  destruct (cached_Get_wf ctx id cs w Hwf) as (? & ? & ? & E' & _ & _ & Ht).
  rewrite E in E'. simplify_eq. by apply Ht.
Qed.

End cached_lemmas.

(** After any successful [Get] the cache holds the returned pointer. *)
Lemma cached_Get_entry {S : Type} {HS : Store S} {SF : Singleflight} {SFL : SingleflightLaw}
    ctx id (cs : CachedStore S) w cs1 w1 p :
  CachedStore_Get ctx id (cs, w) = ((cs1, w1), Ret (Ok p)) →
  ∃ e, cs_cache cs1 !! id = Some e ∧ ce_tenant e = p.
Proof.
  intros E. destruct (cs_hit_or_miss cs id w) as [(e & He & Hlt)|(w0 & Hm & _)].
  - rewrite (cached_Get_hit _ _ _ _ _ He Hlt) in E. simplify_eq. eauto.
  - rewrite (cached_Get_miss _ _ _ _ _ Hm) in E.
    destruct (Store_Get ctx id (cs_source cs, w0)) as [[s1 w1'] [[t|e]|msg]]; simplify_eq.
    simpl. rewrite lookup_insert_eq. eauto.
Qed.

(** The cache hands out its own struct: the pointer a [Get] returns is the one
    the entry keeps, so what a caller writes through it ([*p = t'], any field, the
    id included) is what every other caller of the same tenant receives until the
    entry expires. *)
Theorem cached_get_shares_tenant {S : Type} {HS : Store S} {SF : Singleflight}
    {SFL : SingleflightLaw} ctx ctx' id (cs : CachedStore S) w cs1 w1 l t t' :
  CachedStore_Get ctx id (cs, w) = ((cs1, w1), Ret (Ok (Some l))) →
  heap_load (w_heap w1) l = Some t →
  (∀ e, cs_cache cs1 !! id = Some e → next_now w1 < ce_expiresAt e)%Z →
  let w2 := set_heap (heap_store l t' (w_heap w1)) w1 in
  CachedStore_Get ctx' id (cs1, w2) = ((cs1, tick w2), Ret (Ok (Some l))) ∧
  heap_load (w_heap (tick w2)) l = Some t'.
Proof.
  intros E Ht Hfresh w2. destruct (cached_Get_entry _ _ _ _ _ _ _ E) as (e & He & Hp).
  split; [|by apply (heap_store_load _ _ _ t)].
  rewrite <- Hp. apply cached_Get_hit; [done | by apply Hfresh].
Qed.

(** ** The cache in front of a [MemoryStore], over time

    Requests go through the cache while administrators and other code use the
    source directly, in any interleaving; time passes at any point.  Clients do
    not write through the pointers [CachedStore.Get] returns (what happens when
    they do is [cached_get_shares_tenant]). *)
Record cs_sys := mkCSys {
  csys_cs : CachedStore MemoryStore;
  csys_w : world;
  csys_own : gset nat
}.

Inductive cs_event : Type :=
| CEvGet (id : TenantID) (r : result ptr)
| CEvSource (ev : store_event)
| CEvTick.

Definition csys_source (s : cs_sys) : ms_sys :=
  mkSys (cs_source (csys_cs s)) (csys_w s) (csys_own s).

Section timed.
Context {SF : Singleflight} {SFL : SingleflightLaw}.

Inductive cs_step : cs_sys → cs_event → cs_sys → Prop :=
| cstep_get cs w C ctx id cs' w' r :
    CachedStore_Get ctx id (cs, w) = ((cs', w'), Ret r) →
    cs_step (mkCSys cs w C) (CEvGet id r) (mkCSys cs' w' C)
| cstep_source cs w C ev ms' w' C' :
    ms_step (mkSys (cs_source cs) w C) ev (mkSys ms' w' C') →
    cs_step (mkCSys cs w C) (CEvSource ev) (mkCSys (set_source ms' cs) w' C')
| cstep_tick cs w C :
    cs_step (mkCSys cs w C) CEvTick (mkCSys cs (tick w) C).

(** An entry holds a private copy of a tenant of its id, and expires at most one
    TTL from now. *)
Definition entry_inv (s : cs_sys) (id : TenantID) (e : cacheEntry) : Prop :=
  ∃ l t, ce_tenant e = Some l ∧ heap_load (w_heap (csys_w s)) l = Some t ∧
    Tenant_ID t = id ∧ unshared (csys_source s) l ∧
    (ce_expiresAt e ≤ next_now (csys_w s) + cs_ttl (csys_cs s))%Z.

Definition cs_inv (s : cs_sys) : Prop :=
  sys_inv (csys_source s) ∧ clock_monotone (w_clock (csys_w s)) ∧
  ∀ id e, cs_cache (csys_cs s) !! id = Some e → entry_inv s id e.

(** The three ways a [Get] ends when the source is a [MemoryStore]. *)
Lemma cs_Get_cases ctx id cs w C cs' w' r :
  cs_inv (mkCSys cs w C) →
  CachedStore_Get ctx id (cs, w) = ((cs', w'), Ret r) →
  (∃ e, cs_cache cs !! id = Some e ∧ (next_now w < ce_expiresAt e)%Z ∧
        r = Ok (ce_tenant e) ∧ cs' = cs ∧ w' = tick w) ∨
  (∃ w0, w0 ∈ [w; tick w] ∧ ms_view (cs_source cs) (w_heap w) !! id = None ∧
        r = Err ErrTenantNotFound ∧ cs' = cs ∧ w' = w0) ∨
  (∃ w0 t, w0 ∈ [w; tick w] ∧ ms_view (cs_source cs) (w_heap w) !! id = Some t ∧
        let l := (heap_alloc t (w_heap w)).1 in
        r = Ok (Some l) ∧
        cs' = mkCachedStore (cs_source cs) (cs_ttl cs)
                (<[id := mkEntry (Some l) (next_now w0 + cs_ttl cs)]> (cs_cache cs)) ∧
        w' = tick (set_heap (heap_alloc t (w_heap w)).2 w0)).
Proof using SFL.
  intros ((Hwf & _) & _) E.
  destruct (cs_hit_or_miss cs id w) as [(e & He & Hlt)|(w0 & Hm & _ & Hh)].
  { left. rewrite (cached_Get_hit _ _ _ _ _ He Hlt) in E. simplify_eq. eauto 10. }
  right. assert (w0 ∈ [w; tick w]) as Hw0.
  { destruct Hm as [[_ ->]|(? & _ & _ & ->)]; set_solver. }
  rewrite (cached_Get_miss _ _ _ _ _ Hm) in E. simpl in E.
  rewrite Get_eq in E by by rewrite Hh. rewrite Hh in E.
  destruct (ms_view (cs_source cs) (w_heap w) !! id) as [t|] eqn:Hv.
  - right. exists w0, t. injection E as <- <- <-. done.
  - left. exists w0. injection E as <- <- <-. by destruct cs.
Qed.

Ltac csys_simpl :=
  cbn [csys_cs csys_w csys_own csys_source cs_source cs_ttl cs_cache set_source
       sys_ms sys_w sys_own ms_tenants spec_step
       w_heap w_clock w_pos set_heap tick fst snd] in *.

Lemma entry_inv_mono s s' id e :
  entry_inv s id e →
  (∀ l t, heap_load (w_heap (csys_w s)) l = Some t → unshared (csys_source s) l →
     heap_load (w_heap (csys_w s')) l = Some t ∧ unshared (csys_source s') l) →
  (next_now (csys_w s) ≤ next_now (csys_w s'))%Z →
  cs_ttl (csys_cs s') = cs_ttl (csys_cs s) →
  entry_inv s' id e.
Proof.
  intros (l & t & Hp & Hl & Hid & Hu & Hle) Hf Hn Ht.
  destruct (Hf _ _ Hl Hu). exists l, t. split_and!; [done.. | lia].
Qed.

Lemma next_now_le w w' :
  clock_monotone (w_clock w) → w_clock w' = w_clock w → w_pos w ≤ w_pos w' →
  (next_now w ≤ next_now w')%Z.
Proof. intros Hm Hc Hp. unfold next_now. rewrite Hc. by apply Hm. Qed.

(** Reading the clock or allocating a copy leaves the entries as they are. *)
Lemma cs_inv_later cs w w' C :
  cs_inv (mkCSys cs w C) → w_clock w' = w_clock w → w_pos w ≤ w_pos w' →
  (w_heap w' = w_heap w ∨ ∃ t, w_heap w' = (heap_alloc t (w_heap w)).2) →
  cs_inv (mkCSys cs w' C).
Proof.
  intros (Hsi & Hm & He) Hc Hp Hh. pose proof (next_now_le _ _ Hm Hc Hp) as Hn.
  split_and!; csys_simpl.
  - destruct Hh as [Hh|[t Hh]]; [by eapply sys_inv_weaken |].
    eapply sys_inv_weaken; [| |by apply (sys_inv_alloc _ w C t)]; [done | set_solver].
  - by rewrite Hc.
  - intros id e Hid%He. eapply entry_inv_mono; [exact Hid | | done | done].
    csys_simpl. intros l v Hl Hu. split; [|exact Hu].
    destruct Hh as [->|[t ->]]; [done | by apply heap_alloc_load_old].
Qed.

Lemma elem_of_now w0 w : w0 ∈ [w; tick w] →
  w_clock w0 = w_clock w ∧ w_pos w ≤ w_pos w0 ∧ w_heap w0 = w_heap w.
Proof.
  intros [->|[->|[]%not_elem_of_nil]%elem_of_cons]%elem_of_cons; split_and!; simpl; auto with lia.
Qed.

Lemma cs_step_inv s ev s' : cs_step s ev s' → cs_inv s → cs_inv s'.
Proof using SFL.
  intros Hstep Hinv. inversion Hstep as [???? id ??? E|?????? C' Hms|]; subst.
  - destruct (cs_Get_cases _ _ _ _ _ _ _ _ Hinv E)
      as [(e & He & Hlt & -> & -> & ->)|[(w0 & Hw0 & Hv & -> & -> & ->)
         |(w0 & t & Hw0 & Hv & -> & -> & ->)]].
    + eapply cs_inv_later; [exact Hinv | done | simpl; lia | by left].
    + apply elem_of_now in Hw0 as (? & ? & ?). eapply cs_inv_later; eauto.
    + apply elem_of_now in Hw0 as (Hc & Hp & Hh).
      set (w1 := tick (set_heap (heap_alloc t (w_heap w)).2 w0)).
      assert (cs_inv (mkCSys cs w1 C)) as (Hsi & Hm & Hes).
      { eapply cs_inv_later; [exact Hinv | done | simpl; lia |]. right. by exists t. }
      split_and!; [exact Hsi | exact Hm |]. csys_simpl. intros id' e'.
      rewrite lookup_insert. case_decide as Hid; [|by intros ?%Hes]. subst id'.
      intros [= <-]. pose proof Hinv as (Hsi0 & _ & _). destruct Hsi0 as (Hwf & Ho & _).
      eexists _, t. split_and!; csys_simpl; [reflexivity | apply heap_alloc_load | | |].
      * by eapply view_id.
      * rewrite heap_alloc_loc. split; csys_simpl; [intros Hl%Ho; lia |].
        intros id'' Hl. destruct (Hwf _ _ Hl) as (? & ?%heap_load_lt & _). lia.
      * cbn [ce_expiresAt]. apply Z.add_le_mono_r.
        apply next_now_le; simpl; [|done | lia]. rewrite Hc. apply Hinv.
  - destruct Hinv as (Hsi & Hm & Hes). destruct (ms_step_clock _ _ _ Hms Hsi) as [Hc Hp].
    split_and!; csys_simpl; [by apply (ms_step_refines _ _ _ Hms) | by rewrite Hc |].
    intros id e He%Hes. eapply entry_inv_mono; [exact He | | |done].
    + intros l t Hl Hu. by apply (ms_step_frame _ _ _ _ _ Hms).
    + apply next_now_le; [done | done |]. csys_simpl. lia.
  - eapply cs_inv_later; [exact Hinv | done | simpl; lia | by left].
Qed.

(** From time [T0] on the source holds [id] in state [st], and an entry that says
    otherwise expires by [T0 + ttl]. *)
Definition settled (id : TenantID) (st : State) (T0 : Z) (s : cs_sys) : Prop :=
  (∃ t, sys_view (csys_source s) !! id = Some t ∧ Tenant_State t = st) ∧
  ∀ e, cs_cache (csys_cs s) !! id = Some e →
    (ce_expiresAt e ≤ T0 + cs_ttl (csys_cs s))%Z ∨
    ∃ l t, ce_tenant e = Some l ∧ heap_load (w_heap (csys_w s)) l = Some t ∧
      Tenant_State t = st ∧ unshared (csys_source s) l.

Definition cs_quiet (id : TenantID) (ev : cs_event) : Prop :=
  match ev with CEvSource ev => ¬ touches id ev | _ => True end.

Lemma settled_later id st T0 cs w w' C :
  settled id st T0 (mkCSys cs w C) → ms_wf (cs_source cs) (w_heap w) →
  (w_heap w' = w_heap w ∨ ∃ t, w_heap w' = (heap_alloc t (w_heap w)).2) →
  settled id st T0 (mkCSys cs w' C).
Proof.
  intros [(t & Ht & Hst) He] Hwf Hh. unfold settled, sys_view in *. csys_simpl. split.
  - exists t. split; [|done]. destruct Hh as [->|[t' ->]]; [done |]. by rewrite view_alloc.
  - intros e Hid. destruct (He e Hid) as [?|(l & v & ? & ? & ? & ?)]; [by left |].
    right. exists l, v. split_and!; [done | | done | done].
    destruct Hh as [->|[t' ->]]; [done | by apply heap_alloc_load_old].
Qed.

Lemma settled_step id st T0 s ev s' :
  cs_step s ev s' → cs_inv s → cs_quiet id ev → settled id st T0 s → settled id st T0 s'.
Proof using SFL.
  intros Hstep Hinv Hq Hset. pose proof Hinv as (Hsi & _). pose proof Hsi as (Hwf & _).
  inversion Hstep as [???? id' ??? E|?????? C' Hms|]; subst; csys_simpl.
  - destruct (cs_Get_cases _ _ _ _ _ _ _ _ Hinv E)
      as [(e & He & Hlt & -> & -> & ->)|[(w0 & Hw0 & Hv & -> & -> & ->)
         |(w0 & t & Hw0 & Hv & -> & -> & ->)]].
    + eapply settled_later; [exact Hset | done | by left].
    + apply elem_of_now in Hw0 as (? & ? & ?). eapply settled_later; eauto.
    + set (w1 := tick _).
      assert (settled id st T0 (mkCSys cs w1 C)) as [Hsrc Hes].
      { eapply settled_later; [exact Hset | done |]. right. by exists t. }
      split; [exact Hsrc |]. csys_simpl. intros e. rewrite lookup_insert.
      case_decide as Hid; [|by intros ?%Hes]. subst id'. intros [= <-]. right.
      destruct Hset as [(t' & Ht' & Hst) _]. unfold sys_view in Ht'; csys_simpl.
      rewrite Hv in Ht'. injection Ht' as <-. eexists _, t.
      split_and!; [reflexivity | apply heap_alloc_load | done |].
      destruct Hsi as (_ & Ho & _). rewrite heap_alloc_loc. split; csys_simpl.
      * intros Hl%Ho. lia.
      * intros id'' Hl. destruct (Hwf _ _ Hl) as (? & ?%heap_load_lt & _). lia.
  - destruct Hset as [(t & Ht & Hst) He].
    destruct (ms_step_refines _ _ _ Hms Hsi) as [_ Hspec]. split; csys_simpl.
    + exists t. split; [|done]. by eapply spec_step_untouched.
    + intros e Hid. destruct (He e Hid) as [?|(l & v & ? & Hl & ? & Hu)]; [by left |].
      right. exists l, v. by destruct (ms_step_frame _ _ _ _ _ Hms Hsi Hl Hu).
  - eapply settled_later; [exact Hset | done | by left].
Qed.

Lemma cs_step_ttl s ev s' :
  cs_step s ev s' → cs_inv s → cs_ttl (csys_cs s') = cs_ttl (csys_cs s).
Proof using SFL.
  intros Hstep Hinv. inversion Hstep as [???? id' ??? E| |]; subst; csys_simpl; [|done..].
  by destruct (cs_Get_cases _ _ _ _ _ _ _ _ Hinv E)
    as [(? & ? & ? & ? & -> & ?)|[(? & ? & ? & ? & -> & ?)|(? & ? & ? & ? & ? & -> & ?)]].
Qed.

Lemma settled_trace id st T0 s tr s' :
  trace cs_step s tr s' → Forall (cs_quiet id) tr → cs_inv s → settled id st T0 s →
  cs_inv s' ∧ settled id st T0 s' ∧ cs_ttl (csys_cs s') = cs_ttl (csys_cs s).
Proof using SFL.
  induction 1 as [s|a e b tr c Hs _ IH]; intros Hq Hinv Hset; [done |].
  apply Forall_cons in Hq as [Hqe Hq].
  destruct (IH Hq (cs_step_inv _ _ _ Hs Hinv) (settled_step _ _ _ _ _ _ Hs Hinv Hqe Hset))
    as (? & ? & ->).
  split_and!; [done.. |]. by eapply cs_step_ttl.
Qed.

Definition cs_init (ttl : Z) (w : world) : cs_sys :=
  mkCSys (NewCachedStore NewMemoryStore ttl) w ∅.

Lemma cs_reachable ttl w tr s :
  clock_monotone (w_clock w) → trace cs_step (cs_init ttl w) tr s →
  cs_inv s ∧ cs_ttl (csys_cs s) = ttl.
Proof using SFL.
  intros Hm Htr.
  refine (trace_inv cs_step (λ s, cs_inv s ∧ cs_ttl (csys_cs s) = ttl) _ _ _ _ Htr _).
  - intros a ev b Hs [Hi Ht]. split; [by eapply cs_step_inv |].
    by rewrite (cs_step_ttl _ _ _ Hs Hi).
  - split; [|done]. split_and!; [apply sys_inv_init | done |].
    intros id e. simpl. by rewrite lookup_empty.
Qed.

(** A successful [SetState] on the source settles the new state now. *)
Lemma setstate_settles id st s s' :
  cs_step s (CEvSource (EvSetState id st None)) s' → cs_inv s →
  cs_inv s' ∧ settled id st (next_now (csys_w s')) s'.
Proof using SFL.
  intros Hs Hinv. pose proof (cs_step_inv _ _ _ Hs Hinv) as Hinv'. split; [done |].
  destruct Hinv' as (_ & _ & He). split.
  - destruct Hinv as (Hsi & _). inversion Hs as [|?????? C' Hms|]; subst.
    destruct (ms_step_refines _ _ _ Hms Hsi) as [_ Hspec]. csys_simpl.
    destruct (sys_view _ !! id) as [t|]; destruct Hspec as [Hv Hr]; [|done].
    unfold csys_source. csys_simpl. rewrite Hv, lookup_insert_eq. eauto.
  - intros e Hid. left. destruct (He _ _ Hid) as (? & ? & _ & _ & _ & _ & ?). done.
Qed.

Lemma cs_inv_wf s : cs_inv s → cs_wf (csys_cs s) (w_heap (csys_w s)).
Proof.
  intros ((Hwf & _) & _ & He). split; [exact Hwf |].
  intros id e Hid. destruct (He _ _ Hid) as (l & t & ? & ? & ? & _). by exists l, t.
Qed.

(** What a settled state means for the next request once [T0 + ttl] has passed. *)
Lemma settled_get ctx id st T0 s :
  cs_inv s → settled id st T0 s → (T0 + cs_ttl (csys_cs s) ≤ next_now (csys_w s))%Z →
  ∃ cs' w' l t, CachedStore_Get ctx id (csys_cs s, csys_w s) = ((cs', w'), Ret (Ok (Some l))) ∧
    heap_load (w_heap w') l = Some t ∧ Tenant_ID t = id ∧ Tenant_State t = st.
Proof using SFL.
  intros Hinv [(t & Hv & Hst) He] Hle. destruct s as [cs w C]. csys_simpl.
  destruct (cached_Get_wf ctx id cs w (cs_inv_wf _ Hinv)) as (cs' & w' & r & E & _ & _ & Hid).
  rewrite E. unfold sys_view in Hv. csys_simpl.
  destruct (cs_Get_cases _ _ _ _ _ _ _ _ Hinv E)
      as [(e & Hc & Hlt & -> & -> & ->)|[(w0 & Hw0 & Hn & _)|(w0 & t' & Hw0 & Hv' & -> & -> & ->)]].
  - destruct (He e Hc) as [?|(l & v & Hp & Hl & Hs & _)]; [lia |]. rewrite Hp in *.
    destruct (Hid _ eq_refl) as (? & v' & [= <-] & Hl' & Hvid). csys_simpl.
    rewrite Hl in Hl'. injection Hl' as <-. by do 4 eexists.
  - congruence.
  - rewrite Hv in Hv'. injection Hv' as <-. do 4 eexists. split_and!; [done | | | done].
    + apply heap_alloc_load.
    + eapply view_id; [apply Hinv | done].
Qed.

(** A state change reaches every request within one TTL: once [SetState] on
    the source of truth has put [id] in state [st], then whatever requests, writes
    to other tenants and client code run next, a [Get] through the cache at least
    [ttl] after it returns the tenant [id] in state [st] (provided nobody changed
    [id] again meanwhile and the clock never goes back). *)
Theorem state_change_propagates_within_ttl ttl w tr1 s0 id st s1 tr2 s2 ctx :
  clock_monotone (w_clock w) →
  trace cs_step (cs_init ttl w) tr1 s0 →
  cs_step s0 (CEvSource (EvSetState id st None)) s1 →
  trace cs_step s1 tr2 s2 → Forall (cs_quiet id) tr2 →
  (next_now (csys_w s1) + ttl ≤ next_now (csys_w s2))%Z →
  ∃ cs' w' l t, CachedStore_Get ctx id (csys_cs s2, csys_w s2) = ((cs', w'), Ret (Ok (Some l))) ∧
    heap_load (w_heap w') l = Some t ∧ Tenant_ID t = id ∧ Tenant_State t = st.
Proof using SFL.
  intros Hm Htr1 Hs Htr2 Hq Hle. destruct (cs_reachable _ _ _ _ Hm Htr1) as [Hi0 Ht0].
  destruct (setstate_settles _ _ _ _ Hs Hi0) as [Hi1 Hset1].
  destruct (settled_trace _ _ _ _ _ _ Htr2 Hq Hi1 Hset1) as (Hi2 & Hset2 & Ht2).
  eapply settled_get; [done | done |].
  by rewrite Ht2, (cs_step_ttl _ _ _ Hs Hi0), Ht0.
Qed.

(** (C11) A ban is seen at once through the cache: from the moment the source has
    the tenant banned, and as long as nobody changes it again, [IsBanned] of the
    cached store answers true, whatever the cache holds and however little time
    has passed. *)
Theorem ban_bypasses_cache ttl w tr1 s0 id s1 tr2 s2 ctx :
  clock_monotone (w_clock w) →
  trace cs_step (cs_init ttl w) tr1 s0 →
  cs_step s0 (CEvSource (EvSetState id Banned None)) s1 →
  trace cs_step s1 tr2 s2 → Forall (cs_quiet id) tr2 →
  CachedStore_IsBanned ctx id (csys_cs s2, csys_w s2) =
    ((csys_cs s2, csys_w s2), Ret (Ok true)).
Proof using SFL.
  intros Hm Htr1 Hs Htr2 Hq. destruct (cs_reachable _ _ _ _ Hm Htr1) as [Hi0 Ht0].
  destruct (setstate_settles _ _ _ _ Hs Hi0) as [Hi1 Hset1].
  destruct (settled_trace _ _ _ _ _ _ Htr2 Hq Hi1 Hset1) as (((Hwf & _) & _) & [(t & Hv & Hst) _] & _).
  destruct s2 as [[src tl c] w2 C]. unfold CachedStore_IsBanned, sys_view in *. csys_simpl.
  unfold zoom; simpl. rewrite IsBanned_eq, Hv by done. by rewrite bool_decide_true.
Qed.

End timed.

(** ** Concrete runs *)
Definition direct_sf : Singleflight := {| sf_Do := λ W A key fn, fn |}.

Lemma direct_sf_law : @SingleflightLaw direct_sf.
Proof. by constructor. Qed.

Lemma demo_clock_monotone : clock_monotone demo_clock.
Proof. intros i j Hij. unfold demo_clock. lia. Qed.

(** A store with the active tenant acme, cached by a first request. *)
Definition demo_csys (pos : nat) (st : State) (cached : bool) : cs_sys :=
  mkCSys
    (mkCachedStore (mkMemoryStore {["acme" := 1]}) 2
       (if cached then {["acme" := mkEntry (Some 2) 2]} else ∅))
    (mkWorld (mkHeap ([mkTenant "acme" Active None; mkTenant "acme" st None] ++
                      if cached then [mkTenant "acme" Active None] else []) [])
       demo_clock pos)
    {[0]}.

Definition demo_tr1 : list cs_event :=
  [CEvSource EvClient; CEvSource (EvCreate demo_tenant None); CEvGet "acme" (Ok (Some 2))].

Lemma demo_run1 : trace (@cs_step direct_sf) (cs_init 2 demo_world) demo_tr1 (demo_csys 1 Active true).
Proof.
  eapply trace_cons; [eapply cstep_source, (step_client_new _ _ _ demo_tenant) |].
  eapply trace_cons; [eapply cstep_source, (step_create _ _ _ Background 0); [set_solver | done | reflexivity] |].
  eapply trace_cons; [eapply (@cstep_get direct_sf _ _ _ Background); reflexivity |].
  vm_compute. apply trace_nil.
Qed.

Lemma demo_disable st :
  @cs_step direct_sf (demo_csys 1 Active true)
    (CEvSource (EvSetState "acme" st None)) (demo_csys 1 st true).
Proof.
  refine (cstep_source _ _ _ _ _ _ _ (step_setstate _ _ _ Background "acme" st _ _ _ _)).
  vm_compute. reflexivity.
Qed.

Lemma demo_ticks st :
  trace (@cs_step direct_sf) (demo_csys 1 st true) [CEvTick; CEvTick] (demo_csys 3 st true).
Proof. do 2 (eapply trace_cons; [apply cstep_tick |]). apply trace_nil. Qed.

(** Two readings of the clock later the disabled tenant is seen as disabled. *)
Lemma state_change_propagates_within_ttl_witness :
  ∃ cs' w' l t,
    @CachedStore_Get _ _ direct_sf Background "acme" (csys_cs (demo_csys 3 Disabled true),
      csys_w (demo_csys 3 Disabled true)) = ((cs', w'), Ret (Ok (Some l))) ∧
    heap_load (w_heap w') l = Some t ∧ Tenant_ID t = "acme" ∧ Tenant_State t = Disabled.
Proof.
  apply (@state_change_propagates_within_ttl direct_sf direct_sf_law 2 demo_world demo_tr1
    (demo_csys 1 Active true) "acme" Disabled (demo_csys 1 Disabled true)
    [CEvTick; CEvTick] (demo_csys 3 Disabled true) Background).
  - exact demo_clock_monotone.
  - exact demo_run1.
  - exact (demo_disable Disabled).
  - exact (demo_ticks Disabled).
  - repeat constructor.
  - vm_compute. discriminate.
Defined.

(** The ban is seen while the cached entry still says active. *)
Lemma ban_bypasses_cache_witness :
  @CachedStore_IsBanned _ _ Background "acme" (csys_cs (demo_csys 1 Banned true),
      csys_w (demo_csys 1 Banned true)) =
    ((csys_cs (demo_csys 1 Banned true), csys_w (demo_csys 1 Banned true)), Ret (Ok true)).
Proof.
  apply (@ban_bypasses_cache direct_sf direct_sf_law 2 demo_world demo_tr1
    (demo_csys 1 Active true) "acme" (demo_csys 1 Banned true)
    [] (demo_csys 1 Banned true) Background).
  - exact demo_clock_monotone.
  - exact demo_run1.
  - exact (demo_disable Banned).
  - apply trace_nil.
  - constructor.
Defined.

(** One caller's write to its tenant reaches the next caller. *)
Lemma cached_get_shares_tenant_witness :
  ∃ cs w w',
    @CachedStore_Get _ _ direct_sf Background "acme" (cs, w) = ((cs, w'), Ret (Ok (Some 2))) ∧
    heap_load (w_heap w') 2 = Some (mkTenant "globex" Active None).
Proof.
  destruct (@cached_get_shares_tenant _ _ direct_sf direct_sf_law Background Background "acme"
    (csys_cs (demo_csys 0 Active false)) (csys_w (demo_csys 0 Active false))
    (csys_cs (demo_csys 1 Active true)) (csys_w (demo_csys 1 Active true)) 2
    (mkTenant "acme" Active None) (mkTenant "globex" Active None)) as [H1 H2].
  - vm_compute. reflexivity.
  - reflexivity.
  - intros e. simpl. rewrite lookup_singleton. case_decide; [|done]. intros [= <-].
    vm_compute. reflexivity.
  - eexists _, _, _. split; [exact H1 | exact H2].
Defined.
