(* ===== verification/CacheFlights.v ===== *)
(** * Package store: [CachedStore] under concurrent callers

    [CachedStore] runs a [Get] as a whole; here a [Get] is cut at each access of
    shared state, so that any number of callers, the source and the clock interleave.
    Calls that miss go through [singleflight.Group.Do]: the first starts a flight (one
    execution of the function passed to [Do]), and a call for a key with a flight under
    way waits for it and receives its result, which is what the package documents.

    A flight asks the source, and only afterwards reads the clock for the entry's
    expiry; how long that takes decides how old an entry can become. *)
From S2P Require Import Prelude GoStrings GoLib Tenant MemoryStore CachedStore.
Set Default Goal Selector "!".

(** Where a call of [Get] is: before the lookup, before [time.Now] with the entry it
    found, before [Do], waiting for a flight, returned. *)
Inductive get_call : Type :=
| GProbe (id : TenantID)
| GCheck (id : TenantID) (entry : cacheEntry)
| GDo (id : TenantID)
| GWait (id : TenantID) (flight : nat)
| GRet (id : TenantID) (r : result ptr).

(** Where the function passed to [Do] is: before [source.Get], before the critical
    section that stores the entry, returned. *)
Inductive flight_phase : Type :=
| FAsk
| FGot (t : ptr)
| FEnd (r : result ptr).

Record flight := mkFlight { fl_id : TenantID; fl_phase : flight_phase }.

Definition under_way (f : flight) : bool := match fl_phase f with FEnd _ => false | _ => true end.

Record cf_sys := mkCF {
  cf_cs : cs_sys;
  cf_calls : list get_call;
  cf_flights : list flight
}.

Inductive cf_event : Type :=
| CFCall (id : TenantID)
| CFStep
| CFSource (ev : store_event).

Inductive cf_step : cf_sys → cf_event → cf_sys → Prop :=
| cf_call s calls fls id :
    cf_step (mkCF s calls fls) (CFCall id) (mkCF s (calls ++ [GProbe id]) fls)
| cf_probe s calls fls i id :
    calls !! i = Some (GProbe id) →
    cf_step (mkCF s calls fls) CFStep
      (mkCF s (<[i := match cs_cache (csys_cs s) !! id with
                      | None => GDo id
                      | Some entry => GCheck id entry
                      end]> calls) fls)
| cf_check cs w C calls fls i id entry :
    calls !! i = Some (GCheck id entry) →
    cf_step (mkCF (mkCSys cs w C) calls fls) CFStep
      (mkCF (mkCSys cs (tick w) C)
         (<[i := if (next_now w <? ce_expiresAt entry)%Z
                 then GRet id (Ok (ce_tenant entry)) else GDo id]> calls) fls)
| cf_lead s calls fls i id :
    calls !! i = Some (GDo id) →
    (∀ k f, fls !! k = Some f → fl_id f = id → under_way f = false) →
    cf_step (mkCF s calls fls) CFStep
      (mkCF s (<[i := GWait id (length fls)]> calls) (fls ++ [mkFlight id FAsk]))
| cf_join s calls fls i id k f :
    calls !! i = Some (GDo id) →
    fls !! k = Some f → fl_id f = id → under_way f = true →
    cf_step (mkCF s calls fls) CFStep (mkCF s (<[i := GWait id k]> calls) fls)
| cf_ask cs w C calls fls k id ctx ms' w' r :
    fls !! k = Some (mkFlight id FAsk) →
    MemoryStore_Get ctx id (cs_source cs, w) = ((ms', w'), Ret r) →
    cf_step (mkCF (mkCSys cs w C) calls fls) CFStep
      (mkCF (mkCSys (set_source ms' cs) w' C) calls
         (<[k := mkFlight id (match r with Ok t => FGot t | Err e => FEnd (Err e) end)]> fls))
| cf_fill cs w C calls fls k id t :
    fls !! k = Some (mkFlight id (FGot t)) →
    cf_step (mkCF (mkCSys cs w C) calls fls) CFStep
      (mkCF (mkCSys (mkCachedStore (cs_source cs) (cs_ttl cs)
               (<[id := mkEntry t (next_now w + cs_ttl cs)]> (cs_cache cs))) (tick w) C)
         calls (<[k := mkFlight id (FEnd (Ok t))]> fls))
| cf_return s calls fls i id k r :
    calls !! i = Some (GWait id k) → fls !! k = Some (mkFlight id (FEnd r)) →
    cf_step (mkCF s calls fls) CFStep (mkCF s (<[i := GRet id r]> calls) fls)
| cf_source cs w C calls fls ev ms' w' C' :
    ms_step (mkSys (cs_source cs) w C) ev (mkSys ms' w' C') →
    cf_step (mkCF (mkCSys cs w C) calls fls) (CFSource ev)
      (mkCF (mkCSys (set_source ms' cs) w' C') calls fls)
| cf_tick cs w C calls fls :
    cf_step (mkCF (mkCSys cs w C) calls fls) CFStep (mkCF (mkCSys cs (tick w) C) calls fls).

Definition cf_init (ttl : Z) (w : world) : cf_sys := mkCF (cs_init ttl w) [] [].

(** The step does not change the tenant [id]. *)
Definition cf_quiet (id : TenantID) (ev : cf_event) : Prop :=
  match ev with CFSource ev => ¬ touches id ev | _ => True end.

Definition cf_now (s : cf_sys) : Z := next_now (csys_w (cf_cs s)).
Definition cf_ttl (s : cf_sys) : Z := cs_ttl (csys_cs (cf_cs s)).

(** The pointer is to a struct of tenant [id] that nobody writes and that satisfies
    [P]. *)
Definition copy_of (P : Tenant → Prop) (s : cs_sys) (id : TenantID) (p : ptr) : Prop :=
  ∃ l t, p = Some l ∧ heap_load (w_heap (csys_w s)) l = Some t ∧ Tenant_ID t = id ∧ P t ∧
    unshared (csys_source s) l.

Definition in_state (st : State) (t : Tenant) : Prop := Tenant_State t = st.

(** ** The invariant *)

(** A call that waits, waits for a flight of its key. *)
Definition waits_ok (s : cf_sys) : Prop :=
  ∀ i id k, cf_calls s !! i = Some (GWait id k) → ∃ ph, cf_flights s !! k = Some (mkFlight id ph).

Record cf_inv (s : cf_sys) : Prop := {
  ci_sys : sys_inv (csys_source (cf_cs s));
  ci_clock : clock_monotone (w_clock (csys_w (cf_cs s)));
  ci_cache id e : cs_cache (csys_cs (cf_cs s)) !! id = Some e →
    (ce_expiresAt e ≤ cf_now s + cf_ttl s)%Z;
  ci_wait : waits_ok s
}.

(** What every step leaves of the world. *)
Record cs_extends (s s' : cs_sys) : Prop := {
  ce_copies P id p : copy_of P s id p → copy_of P s' id p;
  ce_now : (next_now (csys_w s) ≤ next_now (csys_w s'))%Z;
  ce_ttl : cs_ttl (csys_cs s') = cs_ttl (csys_cs s);
  ce_sys : sys_inv (csys_source s');
  ce_clock : clock_monotone (w_clock (csys_w s'))
}.

Ltac cf_simpl :=
  unfold csys_source, cf_now, cf_ttl in *;
  cbn [cf_cs cf_calls cf_flights csys_cs csys_w csys_own csys_source cs_source cs_ttl cs_cache set_source
       sys_ms sys_w sys_own ms_tenants w_heap w_clock w_pos set_heap tick fst snd fl_id fl_phase
       ce_tenant ce_expiresAt] in *.

(** The clock was read, or the source copied a tenant for a caller. *)
Lemma extends_world cs cs' w w' C :
  sys_inv (mkSys (cs_source cs) w C) → clock_monotone (w_clock w) →
  cs_source cs' = cs_source cs → cs_ttl cs' = cs_ttl cs →
  w_clock w' = w_clock w → w_pos w ≤ w_pos w' →
  (w_heap w' = w_heap w ∨ ∃ t, w_heap w' = (heap_alloc t (w_heap w)).2) →
  cs_extends (mkCSys cs w C) (mkCSys cs' w' C).
Proof.
  intros Hsi Hm Hsrc Httl Hc Hp Hh. split; cf_simpl; rewrite ?Hsrc, ?Hc; try done;
    [| by apply next_now_le |].
  - intros P id p (l & t & -> & Hl & Hid & HP & Hu). exists l, t. cf_simpl. rewrite Hsrc.
    split_and!; try done. destruct Hh as [->|[t' ->]]; [done | by apply heap_alloc_load_old].
  - destruct Hh as [Hh|[t Hh]]; [by eapply sys_inv_weaken |].
    eapply sys_inv_weaken; [| |by apply (sys_inv_alloc _ w C t)]; [done | set_solver].
Qed.

Lemma cf_step_extends s ev s' :
  cf_step s ev s' → sys_inv (csys_source (cf_cs s)) → clock_monotone (w_clock (csys_w (cf_cs s))) →
  cs_extends (cf_cs s) (cf_cs s').
Proof.
  intros Hs Hsi Hm. assert (cs_extends (cf_cs s) (cf_cs s)) as Hrefl by by split.
  destruct Hs as [| | | | | cs w C calls fls k id ctx ms' w' r Hk E| | | cs w C calls fls ev ms' w' C' Hms|];
    try exact Hrefl; cf_simpl;
    try (by apply extends_world; cf_simpl; [..|lia|left]).
  - rewrite Get_eq in E by apply Hsi.
    destruct (ms_view (cs_source cs) (w_heap w) !! id) as [t|]; injection E as <- <- <-;
      apply extends_world; cf_simpl; try done; [right; by exists t | by left].
  - destruct (ms_step_clock _ _ _ Hms Hsi) as [Hc Hp]. cf_simpl.
    split; cf_simpl; try done.
    + intros P id p (l & t & -> & Hl & Hid & HP & Hu). exists l, t.
      destruct (ms_step_frame _ _ _ _ _ Hms Hsi Hl Hu) as [? ?]. by split_and!.
    + apply next_now_le; [done | done |]. lia.
    + by apply (ms_step_refines _ _ _ Hms).
    + by rewrite Hc.
Qed.

Lemma waits_step s ev s' : cf_step s ev s' → waits_ok s → waits_ok s'.
Proof.
  intros Hs Hw j id k Hj. assert (cf_calls s !! j = Some (GWait id k) ∨
    ∃ ph, cf_flights s' !! k = Some (mkFlight id ph)) as [Hj'|?]; [|clear Hj|done].
  - destruct Hs; cf_simpl; auto.
    + apply lookup_app_Some in Hj as [?|[_ ?%list_elem_of_lookup_2%list_elem_of_singleton]]; [auto | done].
    + apply list_lookup_insert_Some in Hj as [(-> & E & _)|[_ ?]]; [|auto]. by case_match.
    + apply list_lookup_insert_Some in Hj as [(-> & E & _)|[_ ?]]; [|auto]. by case_match.
    + apply list_lookup_insert_Some in Hj as [(-> & E & _)|[_ ?]]; [|auto]. injection E as <- <-.
      right. exists FAsk. by apply list_lookup_middle.
    + apply list_lookup_insert_Some in Hj as [(-> & E & _)|[_ ?]]; [|auto]. injection E as <- <-.
      right. destruct f as [fid ph]; cf_simpl; subst. eauto.
    + apply list_lookup_insert_Some in Hj as [(-> & E & _)|[_ ?]]; [done | auto].
  - destruct (Hw _ _ _ Hj') as [ph Hph]. destruct Hs; cf_simpl; eauto.
    + exists ph. by apply lookup_app_l_Some.
    + destruct (decide (k0 = k)) as [->|Hne]; [|rewrite list_lookup_insert_ne by done; eauto].
      rewrite list_lookup_insert_eq by by eapply lookup_lt_Some. simplify_eq. eauto.
    + destruct (decide (k0 = k)) as [->|Hne]; [|rewrite list_lookup_insert_ne by done; eauto].
      rewrite list_lookup_insert_eq by by eapply lookup_lt_Some. simplify_eq. eauto.
Qed.

Lemma cf_step_inv s ev s' : cf_step s ev s' → cf_inv s → cf_inv s'.
Proof.
  intros Hs [Hsi Hm Hc Hw]. pose proof (cf_step_extends _ _ _ Hs Hsi Hm) as [_ Hnow Httl Hsi' Hm'].
  split; [done | done | |].
  - unfold cf_now, cf_ttl in *. rewrite Httl. intros id e He.
    assert (cs_cache (csys_cs (cf_cs s)) !! id = Some e ∨
      (ce_expiresAt e ≤ next_now (csys_w (cf_cs s')) + cs_ttl (csys_cs (cf_cs s)))%Z) as [He'|?];
      [|specialize (Hc _ _ He'); lia | done].
    destruct Hs; cf_simpl; auto.
    rewrite lookup_insert in He. case_decide; [|auto]. injection He as <-. right. cf_simpl. lia.
  - by eapply waits_step.
Qed.

Lemma cf_inv_init ttl w : clock_monotone (w_clock w) → cf_inv (cf_init ttl w).
Proof.
  intros Hm. split; cf_simpl; [apply sys_inv_init | done | |]; simpl.
  - intros id e. by rewrite lookup_empty.
  - by intros i id k.
Qed.

(** ** After a state change *)

(** The source has [id] in state [st], and so have the flights that asked it, except
    for those that had their answer when the flights were [old]. *)
Record settling (id : TenantID) (st : State) (old : list flight) (s : cf_sys) : Prop := {
  sg_source : ∃ t, sys_view (csys_source (cf_cs s)) !! id = Some t ∧ Tenant_State t = st;
  sg_flights k p : cf_flights s !! k = Some (mkFlight id (FGot p)) →
    copy_of (in_state st) (cf_cs s) id p ∨ old !! k = Some (mkFlight id (FGot p))
}.

(** What the source hands out is a copy of what it has. *)
Lemma get_copies cs w C ctx id ms' w' r t :
  sys_inv (mkSys (cs_source cs) w C) → ms_view (cs_source cs) (w_heap w) !! id = Some t →
  MemoryStore_Get ctx id (cs_source cs, w) = ((ms', w'), Ret r) →
  ∃ p, r = Ok p ∧ copy_of (in_state (Tenant_State t)) (mkCSys (set_source ms' cs) w' C) id p.
Proof.
  intros (Hwf & Ho & Hd) Hv E. cf_simpl. rewrite Get_eq, Hv in E by done. injection E as <- <- <-.
  eexists. split; [reflexivity |]. eexists _, t. cf_simpl.
  split_and!; [reflexivity | apply heap_alloc_load | by eapply view_id | done |].
  rewrite ?heap_alloc_loc. split; cf_simpl.
  - intros Hl%Ho. cf_simpl. lia.
  - intros id' Hl. destruct (Hwf _ _ Hl) as (? & ?%heap_load_lt & _). lia.
Qed.

Lemma source_step s ev s' id st :
  cf_step s ev s' → cf_inv s → cf_quiet id ev →
  (∃ t, sys_view (csys_source (cf_cs s)) !! id = Some t ∧ Tenant_State t = st) →
  ∃ t, sys_view (csys_source (cf_cs s')) !! id = Some t ∧ Tenant_State t = st.
Proof.
  intros Hs [Hsi _ _ _] Hq (t & Ht & Hst). unfold sys_view in *.
  destruct Hs as [| | | | | cs w C calls fls k id' ctx ms' w' r Hk E| | | cs w C calls fls ev ms' w' C' Hms|];
    cf_simpl; try (exists t; done).
  - exists t. split; [|done]. rewrite Get_eq in E by apply Hsi.
    destruct (ms_view (cs_source cs) (w_heap w) !! id') as [t'|]; [|by injection E as <- <- <-].
    assert (ms' = cs_source cs ∧ w' = set_heap (heap_alloc t' (w_heap w)).2 w) as [-> ->] by (split; congruence).
    cbn [set_heap w_heap]. by rewrite view_alloc by apply Hsi.
  - exists t. split; [|done]. destruct (ms_step_refines _ _ _ Hms Hsi) as [_ Hspec].
    by eapply (spec_step_untouched _ _ _ _ _ Hspec).
Qed.

Lemma settling_step id st old s ev s' :
  cf_step s ev s' → cf_inv s → cf_quiet id ev → settling id st old s → settling id st old s'.
Proof.
  intros Hs Hi Hq [Hsrc Hfl]. split; [by eapply source_step |]. intros k p Hk.
  pose proof (cf_step_extends _ _ _ Hs (ci_sys _ Hi) (ci_clock _ Hi)) as [Hcp _ _ _ _].
  assert (copy_of (in_state st) (cf_cs s') id p ∨ cf_flights s !! k = Some (mkFlight id (FGot p)))
    as [?|Hk']; [clear Hcp | by left | by destruct (Hfl _ _ Hk'); [left; apply Hcp | right]].
  destruct Hsrc as (t & Ht & Hst). unfold sys_view in Ht.
  destruct Hs as [| | | | | cs w C calls fls k' id' ctx ms' w' r Hk' E|cs w C calls fls k' id' p' Hk'| | |];
    cf_simpl; auto.
  - apply lookup_app_Some in Hk as [?|[_ Hk%list_elem_of_lookup_2%list_elem_of_singleton]]; [auto | done].
  - apply list_lookup_insert_Some in Hk as [(-> & Ef & _)|[_ ?]]; [|auto]. injection Ef as -> Er.
    destruct (get_copies _ _ C _ _ _ _ _ _ (ci_sys _ Hi) Ht E) as (p0 & -> & Hp0).
    injection Er as <-. left. by rewrite Hst in Hp0.
  - apply list_lookup_insert_Some in Hk as [(-> & Ef & _)|[_ ?]]; [done | auto].
Qed.

(** From time [T] on, what the cache still has of an older state expires by
    [T + ttl]. *)
Record settled (id : TenantID) (st : State) (T : Z) (s : cf_sys) : Prop := {
  sd_settling : settling id st [] s;
  sd_cache e : cs_cache (csys_cs (cf_cs s)) !! id = Some e →
    (ce_expiresAt e ≤ T + cf_ttl s)%Z ∨ copy_of (in_state st) (cf_cs s) id (ce_tenant e)
}.

Lemma cf_settled_step id st T s ev s' :
  cf_step s ev s' → cf_inv s → cf_quiet id ev → settled id st T s → settled id st T s'.
Proof.
  intros Hs Hi Hq [Hsg Hc]. split; [by eapply settling_step |]. intros e He.
  pose proof (cf_step_extends _ _ _ Hs (ci_sys _ Hi) (ci_clock _ Hi)) as [Hcp _ Httl _ _].
  assert (copy_of (in_state st) (cf_cs s') id (ce_tenant e) ∨ cs_cache (csys_cs (cf_cs s)) !! id = Some e)
    as [?|He']; [| by right | destruct (Hc _ He') as [?|?]; [left | right; by apply Hcp];
                              unfold cf_ttl in *; by rewrite Httl].
  destruct Hsg as [_ Hfl].
  destruct Hs as [| | | | | |cs w C calls fls k id' p Hk| | |]; cf_simpl; auto.
  rewrite lookup_insert in He. case_decide as Hid; [|auto]. subst id'. injection He as <-. left. cf_simpl.
  destruct (Hfl _ _ Hk) as [Hp|?]; [|done]. by apply Hcp.
Qed.

(** A call of [Get] for [id] that started after [T + ttl]. *)
Definition call_fresh (id : TenantID) (st : State) (T : Z) (s : cf_sys) (c : get_call) : Prop :=
  match c with
  | GProbe id' | GDo id' => id' = id
  | GCheck id' e => id' = id ∧
      ((ce_expiresAt e ≤ T + cf_ttl s)%Z ∨ copy_of (in_state st) (cf_cs s) id (ce_tenant e))
  | GWait id' k => id' = id ∧
      ∀ ph, cf_flights s !! k = Some (mkFlight id ph) →
        match ph with
        | FAsk => True
        | FGot p => copy_of (in_state st) (cf_cs s) id p
        | FEnd r => ∃ p, r = Ok p ∧ copy_of (in_state st) (cf_cs s) id p
        end
  | GRet id' r => id' = id ∧ ∃ p, r = Ok p ∧ copy_of (in_state st) (cf_cs s) id p
  end.

(** A call stays fresh when the flight it waits for, if any, stays as it is. *)
Lemma call_fresh_keep id st T s s' c :
  call_fresh id st T s c → cs_extends (cf_cs s) (cf_cs s') →
  (∀ id' k, c = GWait id' k → cf_flights s' !! k = cf_flights s !! k) →
  call_fresh id st T s' c.
Proof.
  intros Hc [Hcp _ Httl _ _] Hfl. revert Hc.
  destruct c as [| id' e| |id' k|id' r]; simpl; unfold cf_ttl in *; rewrite ?Httl; try done.
  - intros [? [?|?]]; auto.
  - intros [-> Hph]. split; [done |]. intros ph. rewrite (Hfl _ _ eq_refl). intros Hk. specialize (Hph _ Hk).
    destruct ph as [|p|r]; [done | by apply Hcp |]. destruct Hph as (p & -> & ?). eauto.
  - intros [-> (p & -> & ?)]. eauto.
Qed.

(** The flight that a call waits for goes on. *)
Lemma call_fresh_flight id st T s s' c k f f' :
  call_fresh id st T s c → cs_extends (cf_cs s) (cf_cs s') → cf_flights s !! k = Some f →
  cf_flights s' = <[k := f']> (cf_flights s) → fl_id f' = fl_id f →
  (fl_id f = id → call_fresh id st T s (GWait id k) → call_fresh id st T s' (GWait id k)) →
  call_fresh id st T s' c.
Proof.
  intros Hc He Hk Hfl Hid Hgo. destruct c as [| | |id' k'|]; try (by eapply call_fresh_keep).
  destruct (decide (k' = k)) as [->|Hne].
  - destruct Hc as [-> Hph]. destruct (decide (fl_id f = id)) as [E|E]; [by apply Hgo |].
    split; [done |]. intros ph. rewrite Hfl, list_lookup_insert_eq by by eapply lookup_lt_Some.
    intros [= ->]. simpl in Hid. congruence.
  - eapply call_fresh_keep; [exact Hc | done |]. intros ? ? [= <- <-].
    by rewrite Hfl, list_lookup_insert_ne.
Qed.

(** Call [n] after the step: changed by it, or as it was. *)
Lemma call_at (calls : list get_call) i n c c1 :
  calls !! n = Some c → <[i := c1]> calls !! n = Some (if decide (i = n) then c1 else c).
Proof.
  intros Hn. case_decide as Hi.
  - subst. apply list_lookup_insert_eq. by eapply lookup_lt_Some.
  - by rewrite list_lookup_insert_ne.
Qed.

Lemma call_fresh_step id st T n c s ev s' :
  cf_step s ev s' → cf_inv s → cf_quiet id ev → settled id st T s → (T + cf_ttl s ≤ cf_now s)%Z →
  cf_calls s !! n = Some c → call_fresh id st T s c →
  ∃ c', cf_calls s' !! n = Some c' ∧ call_fresh id st T s' c'.
Proof.
  intros Hs Hi Hq [[Hsrc Hfl] Hcache] Hnow Hn Hc.
  pose proof (cf_step_extends _ _ _ Hs (ci_sys _ Hi) (ci_clock _ Hi)) as Hext.
  pose proof (λ id' k E, ci_wait _ Hi n id' k E) as Hwait.
  destruct Hs as [s calls fls id'|s calls fls i id' Hc1|cs w C calls fls i id' e Hc1|s calls fls i id' Hc1 Hno
    |s calls fls i id' k f Hc1 Hk Hid Huw|cs w C calls fls k id' ctx ms' w' r Hk E
    |cs w C calls fls k id' p Hk|s calls fls i id' k r Hc1 Hk|cs w C calls fls ev ms' w' C' Hms|cs w C calls fls];
    cbn [cf_calls cf_flights] in *.
  - exists c. split; [by apply lookup_app_l_Some | by eapply call_fresh_keep].
  - rewrite (call_at _ _ _ _ _ Hn). eexists. split; [reflexivity |]. case_decide; [|by eapply call_fresh_keep].
    subst i. rewrite Hc1 in Hn. injection Hn as <-. simpl in Hc. subst id'.
    destruct (cs_cache (csys_cs s) !! id) as [e|] eqn:He; [|done]. split; [done |]. by apply Hcache.
  - rewrite (call_at _ _ _ _ _ Hn). eexists. split; [reflexivity |]. case_decide; [|by eapply call_fresh_keep].
    subst i. rewrite Hc1 in Hn. injection Hn as <-. destruct Hc as [-> He].
    destruct (Z.ltb_spec (next_now w) (ce_expiresAt e)); [|done]. split; [done |]. eexists. split; [reflexivity |].
    destruct He as [He|He]; [cf_simpl; lia | by apply Hext].
  - rewrite (call_at _ _ _ _ _ Hn). eexists. split; [reflexivity |]. case_decide.
    + subst i. rewrite Hc1 in Hn. injection Hn as <-. simpl in Hc. subst id'. split; [done |].
      intros ph. cbn [cf_flights]. rewrite list_lookup_middle by done. by intros [= <-].
    + eapply call_fresh_keep; [exact Hc | done |]. intros id1 k ->. cbn [cf_flights].
      destruct (Hwait _ _ Hn) as [ph Hph]. rewrite Hph. by apply lookup_app_l_Some.
  - rewrite (call_at _ _ _ _ _ Hn). eexists. split; [reflexivity |]. case_decide; [|by eapply call_fresh_keep].
    subst i. rewrite Hc1 in Hn. injection Hn as <-. simpl in Hc. subst id'. destruct f as [fid ph0]; cf_simpl; subst fid.
    split; [done |]. intros ph. cbn [cf_flights]. rewrite Hk. intros [= <-].
    destruct ph0 as [|p|r]; [done | | done]. by destruct (Hfl _ _ Hk).
  - exists c. split; [done |]. eapply call_fresh_flight; [exact Hc | done | exact Hk | reflexivity | done |].
    simpl. intros -> _. split; [done |]. intros ph. cbn [cf_flights].
    rewrite list_lookup_insert_eq by by eapply lookup_lt_Some. intros [= <-].
    destruct Hsrc as (t & Ht & Hst). unfold sys_view in Ht.
    destruct (get_copies _ _ C _ _ _ _ _ _ (ci_sys _ Hi) Ht E) as (p0 & -> & Hp0). by rewrite Hst in Hp0.
  - exists c. split; [done |]. eapply call_fresh_flight; [exact Hc | done | exact Hk | reflexivity | done |].
    simpl. intros -> _. split; [done |]. intros ph. cbn [cf_flights].
    rewrite list_lookup_insert_eq by by eapply lookup_lt_Some. intros [= <-]. exists p. split; [done |].
    destruct (Hfl _ _ Hk) as [Hp|?]; [|done]. by apply Hext.
  - rewrite (call_at _ _ _ _ _ Hn). eexists. split; [reflexivity |]. case_decide; [|by eapply call_fresh_keep].
    subst i. rewrite Hc1 in Hn. injection Hn as <-. destruct Hc as [-> Hph]. split; [done |].
    exact (Hph _ Hk).
  - exists c. split; [done |]. by eapply call_fresh_keep.
  - exists c. split; [done |]. by eapply call_fresh_keep.
Qed.

(** ** Runs in which nobody changes the tenant *)
Definition quiet_step (id : TenantID) (s : cf_sys) (ev : cf_event) (s' : cf_sys) : Prop :=
  cf_step s ev s' ∧ cf_quiet id ev.

Lemma quiet_trace_inv id (I : cf_sys → Prop) s tr s' :
  (∀ s ev s', cf_step s ev s' → cf_quiet id ev → cf_inv s → I s → I s') →
  trace (quiet_step id) s tr s' → cf_inv s → I s → cf_inv s' ∧ I s'.
Proof.
  intros Hstep Htr Hi HI.
  refine (trace_inv (quiet_step id) (λ x, cf_inv x ∧ I x) _ _ _ _ Htr (conj Hi HI)).
  intros a ev b [Hs Hq] [Ha HIa]. split; [by eapply cf_step_inv | by eapply Hstep].
Qed.

Lemma quiet_trace_now id s tr s' :
  trace (quiet_step id) s tr s' → cf_inv s → (cf_now s ≤ cf_now s')%Z ∧ cf_ttl s' = cf_ttl s.
Proof.
  intros Htr Hi.
  refine (proj2 (quiet_trace_inv id (λ x, (cf_now s ≤ cf_now x)%Z ∧ cf_ttl x = cf_ttl s) _ _ _ _ Htr Hi _));
    [|split; [lia | done]].
  intros a ev b Hs _ Ha [Hn Ht].
  pose proof (cf_step_extends _ _ _ Hs (ci_sys _ Ha) (ci_clock _ Ha)) as [_ ? ? _ _].
  unfold cf_now, cf_ttl in *. split; [lia | congruence].
Qed.

(** A successful [SetState] leaves only the flights that have asked already. *)
Lemma setstate_settling id st s s' :
  cf_step s (CFSource (EvSetState id st None)) s' → cf_inv s → settling id st (cf_flights s') s'.
Proof.
  intros Hs [Hsi _ _ _]. inversion Hs as [| | | | | | | |cs w C calls fls ev ms' w' C' Hms|]; subst.
  split; cf_simpl; [|by auto]. destruct (ms_step_refines _ _ _ Hms Hsi) as [_ Hspec]. cbn [spec_step] in Hspec.
  destruct (sys_view _ !! id) as [t|]; destruct Hspec as [Hv Hr]; [|done].
  rewrite Hv, lookup_insert_eq. eauto.
Qed.

(** [settled] holds as soon as the flights that had asked before the change are over. *)
Lemma settling_settled id st old s :
  cf_inv s → settling id st old s →
  (∀ k p, old !! k = Some (mkFlight id (FGot p)) → cf_flights s !! k ≠ Some (mkFlight id (FGot p))) →
  settled id st (cf_now s) s.
Proof.
  intros Hi [Hsrc Hfl] Hold. split; [split; [done |] |].
  - intros k p Hk. destruct (Hfl _ _ Hk) as [?|Ho]; [by left |]. by destruct (Hold _ _ Ho).
  - intros e He. left. by apply (ci_cache _ Hi id).
Qed.

(** ** Every call returns *)
Definition flight_weight (f : option flight) : nat :=
  match f with
  | Some (mkFlight _ FAsk) => 3
  | Some (mkFlight _ (FGot _)) => 2
  | _ => 1
  end.

Definition call_weight (fls : list flight) (c : option get_call) : nat :=
  match c with
  | Some (GProbe _) => 6
  | Some (GCheck _ _) => 5
  | Some (GDo _) => 4
  | Some (GWait _ k) => flight_weight (fls !! k)
  | _ => 0
  end.

(** Some flight of the key is under way, or none is. *)
Lemma under_way_dec (fls : list flight) id :
  (∃ k f, fls !! k = Some f ∧ fl_id f = id ∧ under_way f = true) ∨
  (∀ k f, fls !! k = Some f → fl_id f = id → under_way f = false).
Proof.
  induction fls as [|f fls [(k & g & Hk & ?)|IH]]; [by right | left; by exists (S k), g |].
  destruct (decide (fl_id f = id ∧ under_way f = true)) as [Hf|Hf]; [left; by exists 0, f |].
  right. intros [|k] g; [|apply IH]. intros [= <-] Hid. destruct (under_way f); naive_solver.
Qed.

Lemma get_call_step id n s c :
  sys_inv (csys_source (cf_cs s)) → waits_ok s → cf_calls s !! n = Some c → call_weight (cf_flights s) (Some c) ≠ 0 →
  ∃ s' c', quiet_step id s CFStep s' ∧ cf_calls s' !! n = Some c' ∧
    call_weight (cf_flights s') (Some c') < call_weight (cf_flights s) (Some c).
Proof.
  intros Hsi Hwait Hn Hw. destruct s as [[cs w C] calls fls]; cbn [cf_calls cf_flights] in *.
  destruct c as [id'|id' e|id'|id' k|id' r]; [| | | |done].
  - eexists _, _. split; [by split; [eapply cf_probe; exact Hn |] |]. cbn [cf_calls cf_flights].
    rewrite (call_at _ _ _ _ _ Hn), decide_True by done. split; [done |]. case_match; simpl; lia.
  - eexists _, _. split; [by split; [eapply cf_check; exact Hn |] |]. cbn [cf_calls cf_flights].
    rewrite (call_at _ _ _ _ _ Hn), decide_True by done. split; [done |]. case_match; simpl; lia.
  - destruct (under_way_dec fls id') as [(k & f & Hk & Hf & Hu)|Hno].
    + eexists _, _. split; [by split; [eapply cf_join; [exact Hn | exact Hk | done | done] |] |].
      cbn [cf_calls cf_flights]. rewrite (call_at _ _ _ _ _ Hn), decide_True by done. split; [done |].
      simpl. rewrite Hk. destruct f as [? []]; simpl; lia.
    + eexists _, _. split; [by split; [eapply cf_lead; [exact Hn | exact Hno] |] |].
      cbn [cf_calls cf_flights]. rewrite (call_at _ _ _ _ _ Hn), decide_True by done. split; [done |].
      simpl. rewrite list_lookup_middle by done. simpl. lia.
  - destruct (Hwait _ _ _ Hn) as [ph Hk]. cbn [cf_flights] in Hk. destruct ph as [|p|r].
    + destruct (MemoryStore_Get Background id' (cs_source cs, w)) as [[ms' w'] o] eqn:E.
      assert (∃ r, o = Ret r) as [r ->].
      { rewrite Get_eq in E by apply Hsi. case_match; simplify_eq; eauto. }
      eexists _, _. split; [by split; [eapply cf_ask; [exact Hk | exact E] |] |].
      cbn [cf_calls cf_flights]. split; [exact Hn |]. simpl. rewrite Hk.
      rewrite list_lookup_insert_eq by by eapply lookup_lt_Some. destruct r; simpl; lia.
    + eexists _, _. split; [by split; [eapply cf_fill; exact Hk |] |].
      cbn [cf_calls cf_flights]. split; [exact Hn |]. simpl. rewrite Hk.
      rewrite list_lookup_insert_eq by by eapply lookup_lt_Some. simpl. lia.
    + eexists _, _. split; [by split; [eapply cf_return; [exact Hn | exact Hk] |] |].
      cbn [cf_calls cf_flights]. rewrite (call_at _ _ _ _ _ Hn), decide_True by done. split; [done |].
      simpl. rewrite Hk. simpl. lia.
Qed.

Lemma call_returns id n s c :
  cf_inv s → cf_calls s !! n = Some c →
  ∃ tr s' id' r, trace (quiet_step id) s tr s' ∧ cf_calls s' !! n = Some (GRet id' r).
Proof.
  intros Hi Hn.
  destruct (trace_measure (quiet_step id) (λ s, cf_inv s ∧ is_Some (cf_calls s !! n))
    (λ s, call_weight (cf_flights s) (cf_calls s !! n))) with s as (tr & s' & Htr & [_ [c' Hc']] & Hw);
    [|by eauto|].
  - intros a [Ha [c1 Hc1]] Hne. rewrite Hc1 in Hne. destruct (get_call_step id _ _ _ (ci_sys _ Ha) (ci_wait _ Ha) Hc1 Hne) as (a' & c2 & Hs & Hc2 & Hlt).
    exists [CFStep], a'. split; [eapply trace_cons; [exact Hs | apply trace_nil] |].
    rewrite Hc1, Hc2. split; [split; [|done] | done]. eapply cf_step_inv; [apply Hs | done].
  - rewrite Hc' in Hw. destruct c' as [| | |id' k|id' r]; simpl in Hw; try lia; [|by eauto 10].
    unfold flight_weight in Hw. repeat case_match; lia.
Qed.

(** Call [n], for [id], started late enough. *)
Definition watched (id : TenantID) (st : State) (T : Z) (n : nat) (s : cf_sys) : Prop :=
  settled id st T s ∧ (T + cf_ttl s ≤ cf_now s)%Z ∧
  ∃ c, cf_calls s !! n = Some c ∧ call_fresh id st T s c.

Lemma watched_step id st T n s ev s' :
  cf_step s ev s' → cf_quiet id ev → cf_inv s → watched id st T n s → watched id st T n s'.
Proof.
  intros Hs Hq Hi (Hd & Hn & c & Hc & Hf).
  split_and!; [by eapply cf_settled_step | | by eapply call_fresh_step].
  destruct (quiet_trace_now id s [ev] s') as [? ->]; [|done|lia].
  eapply trace_cons; [by split | apply trace_nil].
Qed.

Lemma watched_start id st T s s' :
  cf_step s (CFCall id) s' → cf_inv s → settled id st T s → (T + cf_ttl s ≤ cf_now s)%Z →
  watched id st T (length (cf_calls s)) s'.
Proof.
  intros Hs Hi Hd Hn. split; [by eapply cf_settled_step |]. inversion Hs; subst. split; [exact Hn |].
  exists (GProbe id). split; [by apply list_lookup_middle | done].
Qed.

Lemma step_ttl s ev s' : cf_step s ev s' → cf_inv s → cf_ttl s' = cf_ttl s.
Proof. intros Hs Hi. by destruct (cf_step_extends _ _ _ Hs (ci_sys _ Hi) (ci_clock _ Hi)). Qed.

Lemma cf_reachable ttl w tr s :
  clock_monotone (w_clock w) → trace cf_step (cf_init ttl w) tr s → cf_inv s ∧ cf_ttl s = ttl.
Proof.
  intros Hm Htr.
  refine (trace_inv cf_step (λ s, cf_inv s ∧ cf_ttl s = ttl) _ _ _ _ Htr _).
  - intros a ev b Hs [Ha Ht]. split; [by eapply cf_step_inv |]. by rewrite (step_ttl _ _ _ Hs Ha).
  - split; [by apply cf_inv_init | done].
Qed.

(** (C9) How long a state change takes under concurrent callers.  [SetState] on the
    source puts [id] in state [st]; nobody changes [id] again; at [s2] the flights that
    had asked the source before the change have stored their entry or ended; the time
    at [s3] is at least one TTL later.  Then a [Get] for [id] that starts at [s3] can
    always return, whatever other callers do, and it returns a copy of tenant [id] in
    state [st], whether it hits the cache, leads a flight or waits for one that was
    already under way. *)
Theorem concurrent_change_propagates ttl w tr0 s0 id st s1 tr1 s2 tr2 s3 tr3 s4 :
  clock_monotone (w_clock w) →
  trace cf_step (cf_init ttl w) tr0 s0 →
  cf_step s0 (CFSource (EvSetState id st None)) s1 →
  trace (quiet_step id) s1 tr1 s2 →
  (∀ k p, cf_flights s1 !! k = Some (mkFlight id (FGot p)) →
     cf_flights s2 !! k ≠ Some (mkFlight id (FGot p))) →
  trace (quiet_step id) s2 tr2 s3 → (cf_now s2 + ttl ≤ cf_now s3)%Z →
  trace (quiet_step id) s3 (CFCall id :: tr3) s4 →
  let n := length (cf_calls s3) in
  (∃ tr s5 r, trace (quiet_step id) s4 tr s5 ∧ cf_calls s5 !! n = Some (GRet id r)) ∧
  (∀ r, cf_calls s4 !! n = Some (GRet id r) →
     ∃ p, r = Ok p ∧ copy_of (in_state st) (cf_cs s4) id p).
Proof.
  intros Hm Htr0 Hset Htr1 Hold Htr2 Hle Htr3 n.
  destruct (cf_reachable _ _ _ _ Hm Htr0) as [Hi0 Ht0].
  pose proof (cf_step_inv _ _ _ Hset Hi0) as Hi1. pose proof (setstate_settling _ _ _ _ Hset Hi0) as Hs1.
  pose proof (step_ttl _ _ _ Hset Hi0) as Ht1.
  destruct (quiet_trace_inv id (settling id st (cf_flights s1)) _ _ _
    ltac:(intros; by eapply settling_step) Htr1 Hi1 Hs1) as [Hi2 Hs2].
  pose proof (settling_settled _ _ _ _ Hi2 Hs2 Hold) as Hd2.
  destruct (quiet_trace_inv id (settled id st (cf_now s2)) _ _ _
    ltac:(intros; by eapply cf_settled_step) Htr2 Hi2 Hd2) as [Hi3 Hd3].
  destruct (quiet_trace_now _ _ _ _ Htr1 Hi1) as [_ Ht2]. destruct (quiet_trace_now _ _ _ _ Htr2 Hi2) as [_ Ht3].
  inversion Htr3 as [|? ? s3' ? ? [Hcall _] Htr4]; subst.
  assert (watched id st (cf_now s2) n s3') as Hw3.
  { apply watched_start; [done | done | done |]. rewrite Ht3, Ht2, Ht1. done. }
  destruct (quiet_trace_inv id _ _ _ _ (watched_step id st (cf_now s2) n) Htr4
    (cf_step_inv _ _ _ Hcall Hi3) Hw3) as [Hi4 Hw4].
  pose proof Hw4 as (_ & _ & c & Hc & Hf). split.
  - destruct (call_returns id n s4 c Hi4 Hc) as (tr & s5 & id' & r & Htr5 & Hr).
    destruct (quiet_trace_inv id _ _ _ _ (watched_step id st (cf_now s2) n) Htr5 Hi4 Hw4)
      as [_ (_ & _ & c5 & Hc5 & Hf5)].
    rewrite Hr in Hc5. injection Hc5 as <-. destruct Hf5 as [-> _]. eauto.
  - intros r Hr. rewrite Hc in Hr. injection Hr as ->. apply Hf.
Qed.

(** ** A whole [Get] is a run of these steps *)
Lemma call_app (calls : list get_call) c c' : <[length calls := c']> (calls ++ [c]) = calls ++ [c'].
Proof. by rewrite insert_app_r_alt, Nat.sub_diag by done. Qed.

(** A step of the cache itself. *)
Definition cf_tau (s : cf_sys) (ev : cf_event) (s' : cf_sys) : Prop := cf_step s ev s' ∧ ev = CFStep.

(** A flight of our own, from [Do] to the return. *)
Lemma lead_runs {SF : Singleflight} ctx id cs w cs' w' C calls fls r :
  (∀ k f, fls !! k = Some f → fl_id f = id → under_way f = false) →
  cs_fill ctx id (cs, w) = ((cs', w'), Ret r) →
  ∃ tr fls', trace cf_tau (mkCF (mkCSys cs w C) (calls ++ [GDo id]) fls) tr
    (mkCF (mkCSys cs' w' C) (calls ++ [GRet id r]) fls').
Proof.
  intros Hno E. unfold cs_fill, time_Now, cs_insert in E. go_unfold. cbn [fst snd] in E.
  destruct (MemoryStore_Get ctx id (cs_source cs, w)) as [[ms1 w1] [r1|msg]] eqn:Eg; simpl in E; rewrite Eg in E; [|done].
  assert (∀ c, (calls ++ [c]) !! length calls = Some c) as Hat by (intros; by apply list_lookup_middle).
  assert (∀ f, (fls ++ [f]) !! length fls = Some f) as Hfl by (intros; by apply list_lookup_middle).
  assert (∀ f f', <[length fls := f']> (fls ++ [f]) = fls ++ [f']) as Hins.
  { intros. by rewrite insert_app_r_alt, Nat.sub_diag by done. }
  destruct r1 as [t|e]; simpl in E; injection E as <- <- <-; eexists _, _.
  - eapply trace_cons; [by split; [apply (cf_lead _ _ _ (length calls) id) |] |]. rewrite call_app.
    eapply trace_cons; [by split; [eapply (cf_ask _ _ _ _ _ (length fls) id ctx) |] |]. rewrite Hins.
    eapply trace_cons; [by split; [apply (cf_fill _ _ _ _ _ (length fls) id t) |] |]. rewrite Hins.
    eapply trace_cons; [by split; [apply (cf_return _ _ _ (length calls) id (length fls)) |] |]. rewrite call_app.
    apply trace_nil.
  - eapply trace_cons; [by split; [apply (cf_lead _ _ _ (length calls) id) |] |]. rewrite call_app.
    eapply trace_cons; [by split; [eapply (cf_ask _ _ _ _ _ (length fls) id ctx) |] |]. rewrite Hins.
    eapply trace_cons; [by split; [apply (cf_return _ _ _ (length calls) id (length fls)) |] |]. rewrite call_app.
    apply trace_nil.
Qed.

Lemma get_runs {SF : Singleflight} {SFL : SingleflightLaw} ctx id cs w cs' w' C calls fls r :
  (∀ k f, fls !! k = Some f → fl_id f = id → under_way f = false) →
  CachedStore_Get ctx id (cs, w) = ((cs', w'), Ret r) →
  ∃ s tr fls', cf_step (mkCF (mkCSys cs w C) calls fls) (CFCall id) s ∧ trace cf_tau s tr
    (mkCF (mkCSys cs' w' C) (calls ++ [GRet id r]) fls').
Proof.
  intros Hno E. assert (∀ c, (calls ++ [c]) !! length calls = Some c) as Hat by (intros; by apply list_lookup_middle).
  unfold CachedStore_Get, cs_probe, time_Now in E. go_unfold. cbn [fst snd] in E.
  destruct (cs_cache cs !! id) as [e|] eqn:He; simpl in E; [destruct (Z.ltb_spec (next_now w) (ce_expiresAt e)) as [Hlt|Hge]; simpl in E |].
  - injection E as <- <- <-. eexists _, _, fls. split; [apply (cf_call _ _ _ id) |].
    eapply trace_cons; [by split; [apply (cf_probe _ _ _ (length calls) id) |] |]. cbn [csys_cs]. rewrite He, call_app.
    eapply trace_cons; [by split; [apply (cf_check _ _ _ _ _ (length calls) id e) |] |].
    rewrite call_app, (proj2 (Z.ltb_lt _ _) Hlt). apply trace_nil.
  - rewrite sf_Do_alone in E.
    destruct (cs_fill ctx id (cs, tick w)) as [[cs1 w1] [r1|msg]] eqn:Ef; [|done].
    destruct (lead_runs ctx id cs (tick w) cs1 w1 C calls fls r1 Hno Ef) as (tr & fls' & Htr).
    assert (cs1 = cs' ∧ w1 = w' ∧ r1 = r) as (-> & -> & ->) by (destruct r1; simplify_eq; done).
    eexists _, _, fls'. split; [apply (cf_call _ _ _ id) |].
    eapply trace_cons; [by split; [apply (cf_probe _ _ _ (length calls) id) |] |]. cbn [csys_cs]. rewrite He, call_app.
    eapply trace_cons; [by split; [apply (cf_check _ _ _ _ _ (length calls) id e) |] |].
    rewrite call_app, (proj2 (Z.ltb_ge _ _) Hge). exact Htr.
  - rewrite sf_Do_alone in E.
    destruct (cs_fill ctx id (cs, w)) as [[cs1 w1] [r1|msg]] eqn:Ef; [|done].
    destruct (lead_runs ctx id cs w cs1 w1 C calls fls r1 Hno Ef) as (tr & fls' & Htr).
    assert (cs1 = cs' ∧ w1 = w' ∧ r1 = r) as (-> & -> & ->) by (destruct r1; simplify_eq; done).
    eexists _, _, fls'. split; [apply (cf_call _ _ _ id) |].
    eapply trace_cons; [by split; [apply (cf_probe _ _ _ (length calls) id) |] |]. cbn [csys_cs]. rewrite He, call_app.
    exact Htr.
Qed.

(** ** Concrete runs: a source of one tenant, a TTL of two readings of the clock *)

(** The store has acme in state [st] at location 1; location 2 is the copy the first
    flight got while acme was active. *)
Definition demo_cf (pos : nat) (st : State) (cache : gmap TenantID cacheEntry)
    (calls : list get_call) (fls : list flight) : cf_sys :=
  mkCF (mkCSys (mkCachedStore (mkMemoryStore {["acme" := 1]}) 2 cache)
          (mkWorld (mkHeap [demo_tenant; mkTenant "acme" st None; demo_tenant] []) demo_clock pos) {[0]})
    calls fls.

Definition asked : list flight := [mkFlight "acme" (FGot (Some 2))].
Definition landed : list flight := [mkFlight "acme" (FEnd (Ok (Some 2)))].

(** A first [Get] has led a flight, which has its answer and has not stored it. *)
Lemma demo_asked :
  ∃ tr, trace cf_step (cf_init 2 demo_world) tr (demo_cf 0 Active ∅ [GWait "acme" 0] asked).
Proof.
  eexists.
  eapply trace_cons; [eapply cf_source, (step_client_new _ _ _ demo_tenant) |].
  eapply trace_cons; [eapply cf_source, (step_create _ _ _ Background 0); [set_solver | done | reflexivity] |].
  eapply trace_cons; [apply (cf_call _ _ _ "acme") |].
  eapply trace_cons; [by apply (cf_probe _ _ _ 0 "acme") |].
  eapply trace_cons; [by apply (cf_lead _ _ _ 0 "acme") |].
  eapply trace_cons; [by eapply (cf_ask _ _ _ _ _ 0 "acme" Background) |].
  vm_compute. apply trace_nil.
Qed.

Lemma demo_change st :
  cf_step (demo_cf 0 Active ∅ [GWait "acme" 0] asked) (CFSource (EvSetState "acme" st None))
    (demo_cf 0 st ∅ [GWait "acme" 0] asked).
Proof.
  refine (cf_source _ _ _ _ _ _ _ _ _ (step_setstate _ _ _ Background "acme" st _ _ _ _)).
  vm_compute. reflexivity.
Qed.

Lemma demo_tick pos st cache calls fls :
  quiet_step "acme" (demo_cf pos st cache calls fls) CFStep (demo_cf (S pos) st cache calls fls).
Proof. by split; [apply cf_tick |]. Qed.

(** The flight stores what it got, with an expiry counted from now. *)
Lemma demo_fill pos st :
  quiet_step "acme" (demo_cf pos st ∅ [GWait "acme" 0] asked) CFStep
    (demo_cf (S pos) st {["acme" := mkEntry (Some 2) (Z.of_nat pos + 2)]} [GWait "acme" 0] landed).
Proof. split; [|done]. exact (cf_fill _ _ _ _ asked 0 "acme" (Some 2) eq_refl). Qed.

(** The flight ends one reading after the change; two readings later the entry is too
    old, and a new call leads a flight of its own. *)
Lemma concurrent_change_propagates_witness :
  ∃ tr s5 r,
    trace (quiet_step "acme")
      (demo_cf 3 Disabled {["acme" := mkEntry (Some 2) 2]} [GWait "acme" 0; GProbe "acme"] landed) tr s5 ∧
    cf_calls s5 !! 1 = Some (GRet "acme" r).
Proof.
  destruct demo_asked as [tr0 Htr0].
  apply (concurrent_change_propagates 2 demo_world tr0
    (demo_cf 0 Active ∅ [GWait "acme" 0] asked) "acme" Disabled
    (demo_cf 0 Disabled ∅ [GWait "acme" 0] asked) [CFStep]
    (demo_cf 1 Disabled {["acme" := mkEntry (Some 2) 2]} [GWait "acme" 0] landed) [CFStep; CFStep]
    (demo_cf 3 Disabled {["acme" := mkEntry (Some 2) 2]} [GWait "acme" 0] landed) []
    (demo_cf 3 Disabled {["acme" := mkEntry (Some 2) 2]} [GWait "acme" 0; GProbe "acme"] landed)).
  - exact demo_clock_monotone.
  - exact Htr0.
  - exact (demo_change Disabled).
  - eapply trace_cons; [exact (demo_fill 0 Disabled) | apply trace_nil].
  - intros [|k] p; [done |]. done.
  - do 2 (eapply trace_cons; [apply demo_tick |]). apply trace_nil.
  - vm_compute. discriminate.
  - eapply trace_cons; [split; [apply cf_call | done] | apply trace_nil].
Defined.

(** The TTL alone does not bound how old an answer is.  The expiry is counted
    from the moment the flight stores its entry, not from the moment it asked: here a
    flight asks, the tenant is disabled, the flight stores what it got three readings of
    the clock later, and a [Get] that starts after [ttl] has passed since the change
    returns the tenant as active. *)
Theorem slow_flight_outlives_ttl :
  ∃ tr0 s0 s1 tr1 s2 tr2 s3 l t,
    trace cf_step (cf_init 2 demo_world) tr0 s0 ∧
    cf_step s0 (CFSource (EvSetState "acme" Disabled None)) s1 ∧
    trace (quiet_step "acme") s1 tr1 s2 ∧ (cf_now s1 + 2 ≤ cf_now s2)%Z ∧
    trace (quiet_step "acme") s2 (CFCall "acme" :: tr2) s3 ∧
    cf_calls s3 !! length (cf_calls s2) = Some (GRet "acme" (Ok (Some l))) ∧
    heap_load (w_heap (csys_w (cf_cs s3))) l = Some t ∧ Tenant_State t = Active.
Proof.
  destruct demo_asked as [tr0 Htr0].
  eexists tr0, (demo_cf 0 Active ∅ [GWait "acme" 0] asked), (demo_cf 0 Disabled ∅ [GWait "acme" 0] asked), [CFStep; CFStep; CFStep; CFStep],
    (demo_cf 4 Disabled {["acme" := mkEntry (Some 2) 5]} [GWait "acme" 0] landed), [CFStep; CFStep],
    (demo_cf 5 Disabled {["acme" := mkEntry (Some 2) 5]}
       [GWait "acme" 0; GRet "acme" (Ok (Some 2))] landed), 2, demo_tenant.
  split_and!; [exact Htr0 | exact (demo_change Disabled) | | by vm_compute | | done..].
  - do 3 (eapply trace_cons; [apply demo_tick |]).
    eapply trace_cons; [exact (demo_fill 3 Disabled) | apply trace_nil].
  - eapply trace_cons; [split; [apply cf_call | done] |].
    eapply trace_cons; [by split; [apply (cf_probe _ _ _ 1 "acme") |] |].
    eapply trace_cons; [by split; [apply (cf_check _ _ _ _ _ 1 "acme" (mkEntry (Some 2) 5)) |] |].
    apply trace_nil.
Qed.
