(* ===== verification/Middleware.v ===== *)
(** * Packages middleware/nethttp, middleware/chi, middleware/gin, middleware/echo

    Each adapter resolves the tenant of a request, rejects the request when that
    fails, and otherwise passes it on with the tenant in its context.  The
    program's state is the manager, the application's own state [A] and the
    world.  Gin and Echo are third-party frameworks: the operations of their
    contexts that the adapters call are the classes [GinContext] and
    [EchoContext]. *)
From S2P Require Import Prelude GoStrings GoLib Tenant Resolver MemoryStore CachedStore TenantCtx.
Set Default Goal Selector "!".

Section adapters.
Context {R S A : Type} {HR : Resolver R} {HS : Store S}.

(** The state of the program the handlers run in. *)
Definition app : Type := (Manager R S * A) * world.

(** [m.Resolve(r)] on the manager inside the program's state. *)
Definition resolve (r : Request) : GoM app (result ptr) :=
  zoom (T := Manager R S * A) fst (λ m t, (m, t.2)) (Manager_Resolve r).

(** [tenantctx.WithTenant] where the context is known not to be [nil]. *)
Definition with_tenant (ctx : context) (t : ptr) : GoM app context :=
  match WithTenant (Some ctx) t with
  | Ret c => mret c
  | Panic msg => go_panic msg
  end.

(** [nethttp.Wrap]. *)
Definition Wrap (next : Handler app) : Handler app := λ w r,
  res ← resolve r;
  match res with
  | Err _ => mret (http_Error "tenant not found" StatusNotFound w)
  | Ok t =>
      ctx ← with_tenant (r_ctx r) t;
      next w (Request_WithContext r ctx)
  end.

(** [chi.Middleware]. *)
Definition chi_Middleware : Handler app → Handler app := λ next w r,
  res ← resolve r;
  match res with
  | Err _ => mret (http_Error "tenant not found" StatusNotFound w)
  | Ok t =>
      ctx ← with_tenant (r_ctx r) t;
      let r := Request_WithContext r ctx in
      next w r
  end.





End adapters.

Arguments app : clear implicits.

(** ** What resolution gives the adapters *)
Section served.
Context {S A : Type} {HS : Store S} {SC : StoreContract S}.

Abbreviation sapp := (app SubdomainResolver S A).

(** A manager built by [New] from a resolver and a store. *)
Definition managed (sr : SubdomainResolver) (st : S) : Manager SubdomainResolver S :=
  mkManager (Some sr) (Some st).

(** The request [r'] is [r] with, in its context, a tenant whose id is [id]. *)
Definition carries_tenant (r r' : Request) (id : TenantID) (h : heap) : Prop :=
  r_Method r' = r_Method r ∧ r_Host r' = r_Host r ∧ r_path r' = r_path r ∧
  ∃ l t, FromContext (Some (r_ctx r')) = Some l ∧ heap_load h l = Some t ∧ Tenant_ID t = id.

(** The outcome of resolution: an error that leaves the application and the store
    invariant alone, or a tenant of the host's subdomain. *)
Lemma resolve_cases (sr : SubdomainResolver) (st : S) (a : A) w r :
  store_inv st (w_heap w) →
  ∃ st' w' res, resolve r ((managed sr st, a), w) = (((managed sr st', a), w'), Ret res) ∧
    store_inv st' (w_heap w') ∧ world_extends w w' ∧
    match SubdomainResolver_Resolve sr r with
    | Err e => res = Err e ∧ st' = st ∧ w' = w
    | Ok id => Store_Get (r_ctx r) id (st, w) = ((st', w'), Ret res)
    end.
Proof.
  intros Hi. unfold resolve, Manager_Resolve, mgr_call, managed. go_unfold; simpl.
  destruct (SubdomainResolver_Resolve sr r) as [id|e] eqn:Hr; simpl.
  - destruct (store_get_returns (r_ctx r) id st w Hi) as ([st' w'] & res & E).
    destruct (store_get_inv _ _ _ _ _ _ _ Hi E) as [Hi' Hext]. rewrite E.
    destruct res as [p|e]; (eexists st', w', _; split_and!; [reflexivity | done..]).
  - exists st, w, (Err e). split_and!; [done | done | apply world_extends_refl | done..].
Qed.

(** The adapters' common core, continuation by continuation. *)
Lemma adapter_cases {B} (reject : B) (next : Request → GoM sapp B) sr st (a : A) w r :
  store_inv st (w_heap w) →
  let m := res ← resolve r;
           match res with
           | Err _ => mret reject
           | Ok t => ctx ← with_tenant (r_ctx r) t; next (Request_WithContext r ctx)
           end in
  (∃ st' w', m ((managed sr st, a), w) = (((managed sr st', a), w'), Ret reject) ∧
     store_inv st' (w_heap w') ∧ world_extends w w' ∧
     (∀ id, SubdomainResolver_Resolve sr r = Ok id →
        ∃ e, Store_Get (r_ctx r) id (st, w) = ((st', w'), Ret (Err e)))) ∨
  (∃ st' w' id r', SubdomainResolver_Resolve sr r = Ok id ∧
     m ((managed sr st, a), w) = next r' ((managed sr st', a), w') ∧
     store_inv st' (w_heap w') ∧ world_extends w w' ∧ carries_tenant r r' id (w_heap w')).
Proof.
  intros Hi m. destruct (resolve_cases sr st a w r Hi) as (st' & w' & res & E & Hi' & Hext & Hc).
  subst m. unfold mbind, GoM_bind. rewrite E.
  destruct res as [p|e].
  - right. destruct (SubdomainResolver_Resolve sr r) as [id|e'] eqn:Hr; [|by destruct Hc].
    destruct (store_get_id _ _ _ _ _ _ _ Hi Hc) as (l & t & -> & Ht & Hid).
    eexists st', w', id, (Request_WithContext r _). split_and!; [done | reflexivity | done | done |].
    split_and!; [done..|]. exists l, t. split_and!; [apply FromContext_WithTenant | done | done].
  - left. exists st', w'. split_and!; [done | done | done |]. intros id Hr. rewrite Hr in Hc. eauto.
Qed.

(** (C12) The net/http and Chi adapters, over any store that keeps the [Store]
    contract: either the request is answered 404 "tenant not found" without the
    wrapped handler running (the application state is untouched), which happens
    exactly when the host identifies no tenant or the store reports an error for
    it, or the wrapped handler runs once on the same request whose context holds a
    tenant whose ID is the subdomain of the host: never another tenant's. *)
Theorem wrap_serves_resolved_tenant (next : Handler sapp) sr st (a : A) w rw r :
  store_inv st (w_heap w) →
  let s := ((managed sr st, a), w) in
  chi_Middleware next rw r s = Wrap next rw r s ∧
  ((∃ st' w', Wrap next rw r s =
       (((managed sr st', a), w'), Ret (http_Error "tenant not found" StatusNotFound rw)) ∧
     (∀ id, SubdomainResolver_Resolve sr r = Ok id →
        ∃ e, Store_Get (r_ctx r) id (st, w) = ((st', w'), Ret (Err e)))) ∨
   (∃ st' w' id r', SubdomainResolver_Resolve sr r = Ok id ∧
     Wrap next rw r s = next rw r' ((managed sr st', a), w') ∧
     store_inv st' (w_heap w') ∧ carries_tenant r r' id (w_heap w'))).
Proof.
  intros Hi s. split; [done |]. unfold Wrap.
  destruct (adapter_cases (http_Error "tenant not found" StatusNotFound rw) (next rw)
              sr st a w r Hi) as [(st' & w' & E & ? & _ & ?)|(st' & w' & id & r' & ? & E & ? & _ & ?)].
  - left. exists st', w'. split; [exact E | done].
  - right. exists st', w', id, r'. split_and!; [done | exact E | done | done].
Qed.


End served.

(** ** A concrete server *)

(** A handler that answers 200 with the id of the tenant in the context. *)
Definition echo_id {R S A} : Handler (app R S A) := λ rw r,
  match FromContext (Some (r_ctx r)) with
  | None => mret (http_Error "no tenant in context" StatusInternalServerError rw)
  | Some l => t ← deref (Some l); mret (Write (JSON (JString (Tenant_ID t))) rw)
  end.

Definition demo_store : MemoryStore := mkMemoryStore {["acme" := 0]}.
Definition demo_heap : heap := mkHeap [mkTenant "acme" Banned None] [].

Lemma demo_store_wf : ms_wf demo_store demo_heap.
Proof.
  intros id l. simpl. rewrite lookup_singleton. case_decide; [|done].
  intros [= <-]. by exists (mkTenant "acme" Banned None).
Qed.

Lemma wrap_serves_resolved_tenant_witness :
  (∃ st' w' id r',
     SubdomainResolver_Resolve (NewSubdomainResolver "localhost") (demo_request "acme.localhost") = Ok id ∧
     Wrap (S := MemoryStore) (A := unit) echo_id rw_new (demo_request "acme.localhost")
       ((managed (NewSubdomainResolver "localhost") demo_store, tt), mkWorld demo_heap demo_clock 0) =
     echo_id rw_new r' ((managed (NewSubdomainResolver "localhost") st', tt), w') ∧
     carries_tenant (demo_request "acme.localhost") r' id (w_heap w')).
Proof.
  destruct (wrap_serves_resolved_tenant (S := MemoryStore) (SC := MemoryStore_Contract) echo_id
    (NewSubdomainResolver "localhost") demo_store tt (mkWorld demo_heap demo_clock 0) rw_new
    (demo_request "acme.localhost") demo_store_wf)
    as [_ [(st' & w' & E & _)|(st' & w' & id & r' & H1 & H2 & _ & H3)]].
  - exfalso. vm_compute in E. discriminate.
  - exists st', w', id, r'. split; [exact H1 |]. split; [exact H2 | exact H3].
Defined.




