(* ===== verification/EventBus.v ===== *)
(** * Package eventbus: the interface and [MemoryEventBus]

    A handler is a Go closure over the program's state [W], cut at its accesses of it
    ([Goroutines]).  [Publish] starts one goroutine per handler. *)
From S2P Require Import Prelude GoStrings GoLib Goroutines Tenant.
Set Default Goal Selector "!".

Record TenantEvent := mkEvent {
  ev_TenantID : TenantID;
  ev_State : State;
  ev_Timestamp : Z
}.

#[global] Instance TenantEvent_eq_dec : EqDecision TenantEvent.
Proof. solve_decision. Defined.

Definition EventHandler (W : Type) : Type := TenantEvent → routine W.

(** [EventBus]: what publishing and subscribing do to the bus object [B] whose
    handlers run over [W]; [None] is a [nil] error. *)
Class EventBus (B W : Type) := {
  EventBus_Publish : context → TenantEvent → B → B * option error;
  EventBus_Subscribe : EventHandler W → B → B * option error
}.

Record MemoryEventBus (W : Type) := mkMemoryEventBus { meb_handlers : list (EventHandler W) }.
Arguments mkMemoryEventBus {W} _.
Arguments meb_handlers {W} _.

Definition NewMemoryEventBus {W} : MemoryEventBus W := mkMemoryEventBus [].

Definition MemoryEventBus_Subscribe {W} (handler : EventHandler W) (b : MemoryEventBus W) :
    MemoryEventBus W * option error :=
  (mkMemoryEventBus (meb_handlers b ++ [handler]), None).

(** [safeCall]: a panic of the handler is recovered (and logged). *)
Definition safeCall {W} (h : EventHandler W) (event : TenantEvent) : routine W :=
  routine_recover (h event).

(** The handlers are copied, then each gets its goroutine. *)
Definition MemoryEventBus_Publish {W} (ctx : context) (event : TenantEvent)
    (b : MemoryEventBus W) : MemoryEventBus W * list (routine W) * option error :=
  let handlers := meb_handlers b in
  (b, (λ h, safeCall h event) <$> handlers, None).

(** The bus together with the goroutines it has started. *)
Definition runningBus (W : Type) : Type := MemoryEventBus W * list (routine W).

#[global] Instance MemoryEventBus_EventBus W : EventBus (runningBus W) W := {
  EventBus_Publish ctx event b :=
    let '(b', ts, err) := MemoryEventBus_Publish ctx event b.1 in ((b', b.2 ++ ts), err);
  EventBus_Subscribe h b :=
    let '(b', err) := MemoryEventBus_Subscribe h b.1 in ((b', b.2), err)
}.

(** The state after handlers of one access ran in the given order on the event. *)
Definition run_handlers {W} (event : TenantEvent) (ms : list (TenantEvent → GoM W unit)) (w : W) : W :=
  foldl (λ w m, (m event w).1) w ms.

(** (C33) [Publish] never fails, and delivers: the goroutines it starts can always
    run to the end, and however the scheduler interleaves their accesses of shared state,
    when all have ended each handler subscribed before the call has made exactly one
    complete run on the event, also beside handlers that panicked; nobody else has made
    an access.  Handlers that make a single access have run one after the other, each
    once, in some order.  Handlers subscribed later get nothing from the call. *)
Theorem publish_delivers_to_all {W} ctx event (b : MemoryEventBus W) w :
  ∃ ts, MemoryEventBus_Publish ctx event b = (b, ts, None) ∧
    (∃ tr w' ts', trace pool_step (w, ts) tr (w', ts') ∧ pool_done ts') ∧
    (∀ tr w' ts', trace pool_step (w, ts) tr (w', ts') → pool_done ts' →
       (∀ i h, meb_handlers b !! i = Some h → ∃ o, execution (h event) (found_by i tr) o) ∧
       (∀ a, a ∈ tr → is_Some (meb_handlers b !! a.1)) ∧
       (∀ ms, meb_handlers b = (λ m event, atomically (m event)) <$> ms →
          ∃ ms', ms' ≡ₚ ms ∧ length tr = length ms' ∧ w' = run_handlers event ms' w)) ∧
    (∀ h, (MemoryEventBus_Publish ctx event (MemoryEventBus_Subscribe h b).1).1.2 =
          ts ++ [safeCall h event]).
Proof.
  eexists; split; [reflexivity |]. split_and!.
  - destruct (pool_runs_in_order (λ h : EventHandler W, h event) (meb_handlers b) w) as (tr & ts & Htr & Hd).
    eauto.
  - intros tr w' ts' Htr Hd. destruct (pool_length _ _ _ _ _ Htr) as [Hlen Hin]. rewrite length_fmap in *.
    split_and!.
    + intros i h Hh. destruct (lookup_lt_is_Some_2 ts' i) as [t Ht].
      { rewrite Hlen. by eapply lookup_lt_Some. }
      pose proof (Forall_lookup_1 _ _ _ _ Hd Ht) as ->.
      apply (recover_execution _ _ (Ret tt)). eapply pool_execution; [exact Htr | | exact Ht].
      apply list_lookup_fmap_Some. by exists h.
    + intros a Ha%Hin. by apply lookup_lt_is_Some_2.
    + intros ms Hms. rewrite Hms in Htr.
      replace ((λ h : EventHandler W, safeCall h event) <$> ((λ m event, atomically (m event)) <$> ms))
        with (one_access (λ m, m event) <$> ((λ m : TenantEvent → GoM W unit, (m, false)) <$> ms)) in Htr
        by (rewrite <- !list_fmap_compose; done).
      destruct (one_access_runs _ _ _ _ _ _ Htr Hd) as (ys & Hp & Hl & ->). exists ys. split_and!; [|done|done].
      rewrite Hp. clear. induction ms as [|m ms IH]; [done |]. simpl. by rewrite IH.
  - intros h. simpl. by rewrite fmap_app.
Qed.
