(* ===== verification/EventCodec.v ===== *)
(** * [TenantEvent] as JSON

    [json.Marshal] and [json.Unmarshal] at [TenantEvent], which is what the distributed
    buses send and receive.  An event is written as an object with its three fields; any
    object is read, its members in any order and among others, the last of a name
    winning, names compared as encoding/json does: exactly, or with case folded.  [null]
    leaves a field, and the whole event, as it is.

    A [time.Time] is written in its own zone; [zone] is the offset, in seconds east of
    UTC, of the writer's zone at an instant. *)
From S2P Require Import Prelude GoStrings GoLib GoTime GoJson Tenant EventBus.
Set Default Goal Selector "!".
Local Open Scope Z_scope.

(** ** Writing *)
Section write.
Context (zone : Z → Z).

Definition member (name : string) (v : list Z) : list Z := quote_string (bytes_of name) ++ 58 :: v.

Definition event_text (event : TenantEvent) : result (list Z) :=
  match time_text (zone (ev_Timestamp event)) (ev_Timestamp event) with
  | Err e => Err (wrapError "json: error calling MarshalJSON for type time.Time" e)
  | Ok txt =>
      Ok (123 :: member "TenantID" (quote_string (bytes_of (ev_TenantID event))) ++
          44 :: member "State" (quote_string (bytes_of (ev_State event))) ++
          44 :: member "Timestamp" (34 :: txt ++ [34]) ++ [125])
  end.

Definition json_Marshal (event : TenantEvent) : result string :=
  match event_text event with Ok l => Ok (string_of l) | Err e => Err e end.

End write.

(** ** Reading *)
Inductive field : Type := FTenantID | FState | FTimestamp.

#[global] Instance field_eq_dec : EqDecision field.
Proof. solve_decision. Defined.

Definition fields : list (string * field) :=
  [("TenantID", FTenantID); ("State", FState); ("Timestamp", FTimestamp)].

(** [foldName], as far as it can make a name of ASCII letters: U+017F folds to S and
    U+212A to K. *)
Definition fold_rune (r : Z) : Z :=
  if between 97 122 r then r - 32 else if r =? 383 then 83 else if r =? 8490 then 75 else r.

Definition fold_name (key : list Z) : list Z := fold_rune <$> (runes key).*1.

(** The field of a key: by its exact name, or else by its folded name. *)
Definition field_of (key : list Z) : option field :=
  match list_find (λ nf, bytes_of nf.1 = key) fields with
  | Some (_, nf) => Some nf.2
  | None => (λ inf, inf.2.2) <$> list_find (λ nf, fold_name (bytes_of nf.1) = fold_name key) fields
  end.

(** A member's value stored in its field; [None] is a type error. *)
Definition set_field (f : field) (v : jvalue) (event : TenantEvent) : option TenantEvent :=
  match v with
  | VNull => Some event
  | VString raw =>
      match f with
      | FTenantID => s ← unquote_bytes raw; Some (mkEvent (string_of s) (ev_State event) (ev_Timestamp event))
      | FState => s ← unquote_bytes raw; Some (mkEvent (ev_TenantID event) (string_of s) (ev_Timestamp event))
      | FTimestamp => t ← time_parse raw; Some (mkEvent (ev_TenantID event) (ev_State event) t)
      end
  | _ => None
  end.

Definition set_member (event : TenantEvent) (m : list Z * jvalue) : option TenantEvent :=
  key ← unquote_bytes m.1;
  match field_of key with
  | None => Some event
  | Some f => set_field f m.2 event
  end.

Fixpoint set_members (ms : list (list Z * jvalue)) (event : TenantEvent) : option TenantEvent :=
  match ms with
  | [] => Some event
  | m :: ms => event' ← set_member event m; set_members ms event'
  end.

(** [var event TenantEvent]. *)
Definition event_zero : TenantEvent := mkEvent "" "" time_zero.

Definition decode_event (v : jvalue) : option TenantEvent :=
  match v with
  | VNull => Some event_zero
  | VObject ms => set_members ms event_zero
  | _ => None
  end.

(** Why reading failed is only logged, so that errors are not told apart. *)
Definition json_Unmarshal (data : string) : result TenantEvent :=
  match v ← json_parse (bytes_of data); decode_event v with
  | Some event => Ok event
  | None => Err (errorf "json")
  end.

(** ** Strings and their bytes *)
Lemma bytes_of_bytes s : Forall is_byte (bytes_of s).
Proof.
  unfold bytes_of. apply Forall_fmap, Forall_forall. intros c _. unfold compose, is_byte.
  pose proof (N_ascii_bounded c). lia.
Qed.

Lemma string_of_bytes s : string_of (bytes_of s) = s.
Proof.
  unfold string_of, bytes_of. rewrite <- list_fmap_compose.
  rewrite <- (String.string_of_list_ascii_of_string s) at 2. f_equal.
  rewrite <- (list_fmap_id (String.list_ascii_of_string s)) at 2.
  apply list_fmap_ext. intros _ c _. unfold compose. by rewrite N2Z.id, ascii_N_embedding.
Qed.

Lemma bytes_of_string l : Forall is_byte l → bytes_of (string_of l) = l.
Proof.
  intros Hl. unfold string_of, bytes_of. rewrite String.list_ascii_of_string_of_list_ascii.
  induction Hl as [|b l Hb _ IH]; [done |]. cbn [fmap list_fmap]. rewrite IH. f_equal.
  unfold is_byte in Hb. rewrite N_ascii_embedding by lia. lia.
Qed.

(** ** What was written is read *)

(** A string as it arrives: with the bytes that are not UTF-8 replaced by U+FFFD. *)
Definition clean (s : string) : string := string_of (to_valid (bytes_of s)).

Lemma clean_iff s : clean s = s ↔ valid_utf8 (bytes_of s).
Proof.
  rewrite <- to_valid_iff by apply bytes_of_bytes. unfold clean. split; intros E.
  - rewrite <- (bytes_of_string (to_valid (bytes_of s))) by (apply to_valid_bytes, bytes_of_bytes). by rewrite E.
  - by rewrite E, string_of_bytes.
Qed.

(** The value an event is written as. *)
Definition event_value (event : TenantEvent) (txt : list Z) : jvalue :=
  VObject [(quote (bytes_of "TenantID"), VString (quote (bytes_of (ev_TenantID event))));
           (quote (bytes_of "State"), VString (quote (bytes_of (ev_State event))));
           (quote (bytes_of "Timestamp"), VString txt)].

Lemma event_text_parses zone event txt l :
  time_text (zone (ev_Timestamp event)) (ev_Timestamp event) = Ok txt →
  event_text zone event = Ok l → json_parse l = Some (event_value event txt).
Proof.
  intros Ht. unfold event_text. rewrite Ht. intros <-%Ok_inj. pose proof (time_text_chars _ _ _ Ht) as Hc.
  assert (Forall plain txt) as Hp
    by (eapply Forall_impl; [exact Hc |]; unfold time_char, plain; intros; lia).
  unfold json_parse, member. erewrite lex_emit; [|done]. rewrite <- !app_assoc.
  rewrite lex_quote_string by apply bytes_of_bytes. cbn [app]. erewrite lex_emit; [|done].
  rewrite lex_quote_string by apply bytes_of_bytes. cbn [app]. erewrite lex_emit; [|done].
  rewrite <- ?app_assoc, lex_quote_string by apply bytes_of_bytes. cbn [app]. erewrite lex_emit; [|done].
  rewrite lex_quote_string by apply bytes_of_bytes. cbn [app]. erewrite lex_emit; [|done].
  rewrite <- ?app_assoc, lex_quote_string by apply bytes_of_bytes. cbn [app]. erewrite lex_emit; [|done].
  rewrite <- ?app_assoc. cbn [app]. rewrite lex_plain_string by done. erewrite lex_emit; [|done].
  cbn [lex fmap option_fmap option_map mbind option_bind parse_tokens parse_step].
  rewrite push_ok by (simpl; lia). done.
Qed.

(** The three keys are those of the fields. *)
Lemma set_own_member name f v event :
  (name, f) ∈ fields → set_member event (quote (bytes_of name), v) = set_field f v event.
Proof.
  intros Hf. unfold set_member. cbn [fst snd].
  assert (unquote_bytes (quote (bytes_of name)) = Some (bytes_of name) ∧ field_of (bytes_of name) = Some f)
    as [-> E]; [|cbn [mbind option_bind]; by rewrite E].
  unfold fields in Hf. rewrite !elem_of_cons, elem_of_nil in Hf.
  destruct_or! Hf; injection Hf as -> -> || done; vm_compute; done.
Qed.

Lemma event_value_decodes event txt t :
  time_parse txt = Some t →
  decode_event (event_value event txt) =
    Some (mkEvent (clean (ev_TenantID event)) (clean (ev_State event)) t).
Proof.
  intros Ht. unfold event_value, decode_event. cbn [set_members].
  rewrite (set_own_member "TenantID" FTenantID) by (unfold fields; set_solver). unfold set_field at 1.
  rewrite unquote_quote by apply bytes_of_bytes. cbn [mbind option_bind].
  rewrite (set_own_member "State" FState) by (unfold fields; set_solver). unfold set_field at 1.
  rewrite unquote_quote by apply bytes_of_bytes. cbn [mbind option_bind].
  rewrite (set_own_member "Timestamp" FTimestamp) by (unfold fields; set_solver). unfold set_field.
  by rewrite Ht.
Qed.

Lemma event_text_bytes zone event l : event_text zone event = Ok l → Forall is_byte l.
Proof.
  unfold event_text. destruct (time_text _ _) as [txt|e] eqn:Ht; [|done]. intros <-%Ok_inj.
  assert (Forall is_byte txt) as Htxt.
  { eapply Forall_impl; [exact (time_text_chars _ _ _ Ht) |]. unfold time_char, is_byte. intros; lia. }
  unfold member, quote_string.
  repeat (rewrite Forall_app || rewrite Forall_cons || rewrite Forall_nil || cbn [app]).
  split_and!; try done; try (apply quote_bytes, bytes_of_bytes); unfold is_byte; lia.
Qed.

(** What is read from what was written, in any zone: the seconds of its offset are lost. *)
Lemma Unmarshal_written zone event data :
  json_Marshal zone event = Ok data →
  json_Unmarshal data =
    Ok (mkEvent (clean (ev_TenantID event)) (clean (ev_State event))
          (ev_Timestamp event + Z.rem (zone (ev_Timestamp event)) 60 * ns_per_second)).
Proof.
  unfold json_Marshal. destruct (event_text zone event) as [l|e] eqn:El; [|done].
  intros <-%Ok_inj. unfold json_Unmarshal. rewrite bytes_of_string by by eapply event_text_bytes.
  destruct (time_text (zone (ev_Timestamp event)) (ev_Timestamp event)) as [txt|e] eqn:Ht;
    [|unfold event_text in El; by rewrite Ht in El].
  rewrite (event_text_parses _ _ _ _ Ht El). cbn [mbind option_bind].
  by rewrite (event_value_decodes _ _ _ (time_parse_text _ _ _ Ht)).
Qed.

Lemma Unmarshal_Marshal zone event data :
  Z.rem (zone (ev_Timestamp event)) 60 = 0 → json_Marshal zone event = Ok data →
  json_Unmarshal data =
    Ok (mkEvent (clean (ev_TenantID event)) (clean (ev_State event)) (ev_Timestamp event)).
Proof. intros Hz Hm. by rewrite (Unmarshal_written _ _ _ Hm), Hz, Z.add_0_r. Qed.

(** The instant has a year of four digits in the writer's zone, and the zone is less than
    a day away from UTC: always, for a clock that is roughly right. *)
Definition in_range (zone : Z → Z) (t : Z) : Prop :=
  let '(y, _, _) := date_of_days ((t / ns_per_second + zone t) / seconds_per_day) in
  0 ≤ y ≤ 9999 ∧ Z.abs (zone t) < 24 * 3600.

(** (C24) An event on its way through a broker.  For every event and every writer's zone:
    either its timestamp cannot be written (a year outside 0 to 9999, or a zone a day or
    more away) and [Marshal] reports it, or what [Marshal] writes is read by [Unmarshal] as
    an event with the same tenant id and state, except that bytes which are not UTF-8 become
    U+FFFD, and with the same timestamp to the nanosecond, except that it is shifted by the
    seconds the zone's offset has beyond whole minutes, which RFC 3339 cannot express.  So
    an event is unchanged exactly when the writer's zone is a whole number of minutes from
    UTC and its strings are valid UTF-8, whatever characters they hold. *)
Theorem event_codec_roundtrip zone event :
  match json_Marshal zone event with
  | Err _ => ¬ in_range zone (ev_Timestamp event)
  | Ok data =>
      ∃ event', json_Unmarshal data = Ok event' ∧
        ev_Timestamp event' = ev_Timestamp event + Z.rem (zone (ev_Timestamp event)) 60 * ns_per_second ∧
        ev_TenantID event' = clean (ev_TenantID event) ∧ ev_State event' = clean (ev_State event) ∧
        (event' = event ↔ Z.rem (zone (ev_Timestamp event)) 60 = 0 ∧
           valid_utf8 (bytes_of (ev_TenantID event)) ∧ valid_utf8 (bytes_of (ev_State event)))
  end.
Proof.
  destruct (json_Marshal zone event) as [data|e] eqn:E.
  - eexists. split; [by eapply Unmarshal_written |]. split_and!; [done.. |].
    rewrite <- !clean_iff. destruct event as [id st t]; simpl.
    assert (∀ z, t + z * ns_per_second = t ↔ z = 0) as Ht by (intros z; unfold ns_per_second; lia).
    rewrite <- (Ht (Z.rem (zone t) 60)). split; [by intros [= -> -> ->] | by intros (-> & -> & ->)].
  - unfold in_range. unfold json_Marshal, event_text in E. pose proof (time_text_refused (zone (ev_Timestamp event)) (ev_Timestamp event)) as Hr.
    destruct (time_text _ _) as [txt|e']; [done |]. by destruct (date_of_days _) as [[y m] d].
Qed.

(** A ban, from a writer one hour east of UTC, of a tenant whose id needs escapes. *)
Definition odd_event : TenantEvent := mkEvent "a<b>" "banned" 1704164645120000000.

Lemma event_codec_roundtrip_witness :
  ∃ data, json_Marshal (λ _, 3600) odd_event = Ok data ∧ json_Unmarshal data = Ok odd_event.
Proof.
  pose proof (event_codec_roundtrip (λ _, 3600) odd_event) as H.
  destruct (json_Marshal (λ _, 3600) odd_event) as [data|e] eqn:E; [|vm_compute in E; discriminate].
  destruct H as (event' & Hu & _ & _ & _ & Heq). exists data. split; [reflexivity |].
  rewrite Hu. f_equal. apply Heq. split; [done |]. vm_compute. split; repeat constructor.
Defined.

(** What else is read: members in any order and case, unknown ones and [null]s. *)
Definition dq (s : string) : string := string_of (34 :: bytes_of s ++ [34]).

Example Unmarshal_lenient :
  json_Unmarshal ("{" +:+ dq "extra" +:+ ": [1, {}], " +:+ dq "STATE" +:+ " : " +:+ dq "banned" +:+
    ", " +:+ dq "Timestamp" +:+ ":null}") = Ok (mkEvent "" "banned" time_zero) ∧
  json_Unmarshal "null" = Ok event_zero ∧
  json_Unmarshal ("{" +:+ dq "TenantID" +:+ ":1}") = Err (errorf "json").
Proof. vm_compute. done. Qed.
