(* ===== verification/BanChecker.v ===== *)
(** * Package banchecker

    The in-memory list of banned tenants, fed by events and by one snapshot of the
    source of truth, resolved by timestamp.  [BanChecker_apply] is a goroutine's code
    with its two accesses of the [sync.Map]; this file runs such code without
    interruption, [BanRaces] interleaves it. *)
From S2P Require Import Prelude GoStrings GoLib Goroutines Tenant EventBus.
Set Default Goal Selector "!".

Record banEntry := mkBan { be_banned : bool; be_updatedAt : Z }.

#[global] Instance banEntry_eq_dec : EqDecision banEntry.
Proof. solve_decision. Defined.

Record BanChecker := mkBanChecker { bc_banned : gmap TenantID banEntry }.

(** The test of [apply] on what [Load] returned: the stored data is more recent. *)
Definition newer (existing : option banEntry) (at_ : Z) : bool :=
  match existing with
  | Some e => (at_ <? be_updatedAt e)%Z
  | None => false
  end.

(** [bc.banned.Store]. *)
Definition bc_Store (id : TenantID) (banned : bool) (at_ : Z) (bc : BanChecker) : BanChecker :=
  mkBanChecker (<[id := mkBan banned at_]> (bc_banned bc)).

(** [apply] after the test, and the whole: [Load] changes nothing, and the entry it
    found decides whether [Store] follows. *)
Definition apply_store (id : TenantID) (banned : bool) (at_ : Z) : routine BanChecker :=
  RAct (bc_Store id banned at_) (λ _, REnd (Ret tt)).

Definition BanChecker_apply (id : TenantID) (banned : bool) (at_ : Z) : routine BanChecker :=
  RAct (λ bc, bc) (λ bc,
    if newer (bc_banned bc !! id) at_ then REnd (Ret tt) else apply_store id banned at_).

Definition BanChecker_handleEvent : EventHandler BanChecker := λ event,
  BanChecker_apply (ev_TenantID event) (bool_decide (ev_State event = Banned)) (ev_Timestamp event).

(** [New]: subscribes to the bus; a failure of [Subscribe] is discarded. *)
Definition BanChecker_New {B} `{!EventBus B BanChecker} (bus : B) : BanChecker * B :=
  (mkBanChecker ∅, (EventBus_Subscribe BanChecker_handleEvent bus).1).

Definition BanChecker_IsBanned (id : TenantID) (bc : BanChecker) : bool :=
  match bc_banned bc !! id with
  | None => false
  | Some e => be_banned e
  end.

Section load.
Context {S : Type} `{!Store S}.

Definition bc_apply_m (id : TenantID) (banned : bool) (at_ : Z) :
    GoM ((BanChecker * S) * world) unit := λ s,
  let '(bc, o) := routine_run (BanChecker_apply id banned at_) s.1.1 in (((bc, s.1.2), s.2), o).

(** The loop over the ids; it stops at the first error of the source. *)
Fixpoint load_loop (ctx : context) (snapshotTime : Z) (ids : list TenantID) :
    GoM ((BanChecker * S) * world) (option error) :=
  match ids with
  | [] => mret None
  | id :: ids =>
      r ← zoom (T := BanChecker * S) snd (λ s t, (t.1, s)) (Store_IsBanned ctx id);
      match r with
      | Err e => mret (Some e)
      | Ok banned =>
          _ ← bc_apply_m id banned snapshotTime;
          load_loop ctx snapshotTime ids
      end
  end.

Definition BanChecker_LoadInitialBannedList (ctx : context) (ids : list TenantID) :
    GoM ((BanChecker * S) * world) (option error) :=
  snapshotTime ← time_Now;
  load_loop ctx snapshotTime ids.

End load.

(** ** Sequences of writes *)
Record ban_write := mkWrite { bw_id : TenantID; bw_banned : bool; bw_at : Z }.

Definition write_of (event : TenantEvent) : ban_write :=
  mkWrite (ev_TenantID event) (bool_decide (ev_State event = Banned)) (ev_Timestamp event).

Definition apply_write (bc : BanChecker) (w : ban_write) : BanChecker :=
  (routine_run (BanChecker_apply (bw_id w) (bw_banned w) (bw_at w)) bc).1.

Definition apply_all (ws : list ban_write) (bc : BanChecker) : BanChecker :=
  foldl apply_write bc ws.

(** Two writes about a tenant with one timestamp say the same. *)
Definition agree (ws : list ban_write) : Prop :=
  ∀ w w', w ∈ ws → w' ∈ ws → bw_id w = bw_id w' → bw_at w = bw_at w' → bw_banned w = bw_banned w'.

(** ** Lemmas *)
Lemma apply_lookup_ne bc w id :
  bw_id w ≠ id → bc_banned (apply_write bc w) !! id = bc_banned bc !! id.
Proof.
  intros Hne. unfold apply_write. simpl. case_match; simpl; [done |].
  by rewrite lookup_insert_ne.
Qed.

(** What a write makes of the entry of its tenant. *)
Definition merge (existing : option banEntry) (banned : bool) (at_ : Z) : option banEntry :=
  if newer existing at_ then existing else Some (mkBan banned at_).

Lemma apply_lookup_eq bc w :
  bc_banned (apply_write bc w) !! bw_id w =
  merge (bc_banned bc !! bw_id w) (bw_banned w) (bw_at w).
Proof.
  unfold apply_write, merge. simpl. case_match; simpl; [done |].
  by rewrite lookup_insert_eq.
Qed.

Lemma merge_comm o b a b' a' :
  (a = a' → b = b') → merge (merge o b a) b' a' = merge (merge o b' a') b a.
Proof.
  intros Hag. unfold merge, newer. destruct o as [[eb ea]|]; simpl;
    repeat match goal with
    | |- context [Z.ltb ?x ?y] => destruct (Z.ltb_spec x y); simpl
    end; try done; try lia;
    assert (a = a') as -> by lia; by rewrite Hag.
Qed.

Lemma bc_eq bc bc' : bc_banned bc = bc_banned bc' → bc = bc'.
Proof. destruct bc, bc'; simpl. congruence. Qed.

(** Two writes that agree commute, whatever was stored before. *)
Lemma apply_comm bc w w' :
  (bw_id w = bw_id w' → bw_at w = bw_at w' → bw_banned w = bw_banned w') →
  apply_write (apply_write bc w) w' = apply_write (apply_write bc w') w.
Proof.
  intros Hag. apply bc_eq, map_eq. intros id.
  destruct (decide (bw_id w = id)) as [Hw|Hw], (decide (bw_id w' = id)) as [Hw'|Hw'].
  - subst id. specialize (Hag (eq_sym Hw')). rewrite <- Hw' at 1.
    rewrite !apply_lookup_eq, Hw', apply_lookup_eq, <- Hw', apply_lookup_eq, Hw'.
    by apply merge_comm.
  - subst id. rewrite apply_lookup_ne, !apply_lookup_eq, apply_lookup_ne by done. done.
  - subst id. rewrite (apply_lookup_ne (apply_write bc w') w), !apply_lookup_eq, apply_lookup_ne by done. done.
  - by rewrite !apply_lookup_ne.
Qed.

Lemma agree_cons w ws : agree (w :: ws) → agree ws.
Proof. intros H w1 w2 ? ?. apply H; by right. Qed.

Lemma agree_perm ws ws' : ws ≡ₚ ws' → agree ws → agree ws'.
Proof. intros Hp H w w'. rewrite <- Hp. apply H. Qed.

Lemma apply_all_perm ws ws' bc :
  ws ≡ₚ ws' → agree ws → apply_all ws bc = apply_all ws' bc.
Proof.
  intros Hp. revert bc. induction Hp as [|w ws ws' _ IH|w w' ws|ws1 ws2 ws3 H12 IH12 _ IH23];
    intros bc Hag; [done | | |].
  - apply IH. by eapply agree_cons.
  - simpl. f_equal. apply apply_comm. apply Hag; set_solver.
  - rewrite IH12 by done. apply IH23. by eapply agree_perm.
Qed.

(** The latest write about a tenant decides, wherever it stands in the list. *)
Lemma apply_all_latest ws bc w :
  w ∈ ws → agree ws →
  (∀ w', w' ∈ ws → bw_id w' = bw_id w → (bw_at w' ≤ bw_at w)%Z) →
  (∀ e, bc_banned bc !! bw_id w = Some e → (be_updatedAt e ≤ bw_at w)%Z) →
  bc_banned (apply_all ws bc) !! bw_id w = Some (mkBan (bw_banned w) (bw_at w)).
Proof.
  intros [ws' Hp]%elem_of_Permutation Hag Hmax Hold.
  rewrite (apply_all_perm ws (ws' ++ [w]));
    [|etrans; [exact Hp | apply Permutation_cons_append] | done].
  unfold apply_all. rewrite foldl_app. simpl. fold (apply_all ws' bc).
  rewrite apply_lookup_eq. unfold merge.
  enough (newer (bc_banned (apply_all ws' bc) !! bw_id w) (bw_at w) = false) as -> by done.
  assert (∀ w', w' ∈ ws' → bw_id w' = bw_id w → (bw_at w' ≤ bw_at w)%Z) as Hmax'.
  { intros w' Hw'. apply Hmax. rewrite Hp. by right. }
  clear Hp Hag Hmax. revert bc Hold. induction ws' as [|w1 ws' IH]; intros bc Hold; simpl.
  - destruct (bc_banned bc !! bw_id w) as [e|] eqn:He; [|done].
    apply Z.ltb_ge. by apply Hold.
  - apply IH; [set_solver |]. intros e.
    destruct (decide (bw_id w1 = bw_id w)) as [Hid|Hid].
    + rewrite <- Hid, apply_lookup_eq. unfold merge. case_match; intros He.
      * apply Hold. by rewrite <- Hid.
      * injection He as <-. simpl. apply Hmax'; [by left | done].
    + rewrite apply_lookup_ne by done. apply Hold.
Qed.

(** An entry comes from a latest write about the tenant, and there is one as soon
    as there is a write. *)
Lemma apply_all_entry ws id :
  match bc_banned (apply_all ws (mkBanChecker ∅)) !! id with
  | None => ∀ w, w ∈ ws → bw_id w ≠ id
  | Some e => ∃ w, w ∈ ws ∧ bw_id w = id ∧ e = mkBan (bw_banned w) (bw_at w) ∧
      ∀ w', w' ∈ ws → bw_id w' = id → (bw_at w' ≤ bw_at w)%Z
  end.
Proof.
  induction ws as [|x ws IH] using rev_ind; simpl.
  - rewrite lookup_empty. by intros w ?%not_elem_of_nil.
  - unfold apply_all. rewrite foldl_app. simpl. fold (apply_all ws (mkBanChecker ∅)).
    assert (∀ w, w ∈ ws ++ [x] ↔ w ∈ ws ∨ w = x) as Hin.
    { intros w. by rewrite elem_of_app, list_elem_of_singleton. }
    destruct (decide (bw_id x = id)) as [<-|Hne].
    + rewrite apply_lookup_eq. unfold merge, newer.
      destruct (bc_banned (apply_all ws _) !! bw_id x) as [e|].
      2:{ exists x. rewrite Hin. split_and!; [by right | done | done |].
          intros w' [?| ->]%Hin Hid; [by destruct (IH w') | lia]. }
      destruct IH as (w & Hw & Hid & -> & Hmax). simpl.
      destruct (Z.ltb_spec (bw_at x) (bw_at w)).
      * exists w. rewrite Hin. split_and!; [by left | done | done |].
        intros w' [?| ->]%Hin ?; [by apply Hmax | lia].
      * exists x. rewrite Hin. split_and!; [by right | done | done |].
        intros w' [?| ->]%Hin ?; [|lia]. etrans; [by apply Hmax | done].
    + rewrite apply_lookup_ne by done.
      destruct (bc_banned (apply_all ws _) !! id) as [e|].
      2:{ intros w [?| ->]%Hin; [by apply IH | done]. }
      destruct IH as (w & Hw & Hid & -> & Hmax). exists w. rewrite Hin.
      split_and!; [by left | done | done |]. intros w' [?| ->]%Hin ?; [by apply Hmax | done].
Qed.

(** (C19) The checker converges whatever the delivery order: applying the same
    writes (events and snapshot entries), each to its end before the next, in two
    different orders gives the same state, provided two writes about one tenant with equal
    timestamps agree; and a tenant whose entry, if it had one, was not newer than all its
    writes is reported banned exactly when its write with the latest timestamp says so. *)
Theorem ban_checker_converges ws ws' bc w :
  agree ws → ws' ≡ₚ ws → w ∈ ws →
  (∀ w', w' ∈ ws → bw_id w' = bw_id w → (bw_at w' ≤ bw_at w)%Z) →
  (∀ e, bc_banned bc !! bw_id w = Some e → (be_updatedAt e ≤ bw_at w)%Z) →
  apply_all ws' bc = apply_all ws bc ∧
  BanChecker_IsBanned (bw_id w) (apply_all ws' bc) = bw_banned w.
Proof.
  intros Hag Hp Hw Hmax Hold.
  rewrite <- (apply_all_perm ws ws' bc) by done. split; [done |].
  unfold BanChecker_IsBanned. by rewrite apply_all_latest.
Qed.

Definition demo_writes : list ban_write :=
  [mkWrite "acme" true 10; mkWrite "acme" false 5; mkWrite "globex" true 7].

Lemma ban_checker_converges_witness :
  apply_all (rev demo_writes) (mkBanChecker ∅) = apply_all demo_writes (mkBanChecker ∅) ∧
  BanChecker_IsBanned "acme" (apply_all (rev demo_writes) (mkBanChecker ∅)) = true.
Proof.
  apply (ban_checker_converges demo_writes (rev demo_writes) (mkBanChecker ∅) (mkWrite "acme" true 10)).
  - intros w w' Hw Hw'. unfold demo_writes in *.
    repeat (apply elem_of_cons in Hw as [->|Hw]); try by apply not_elem_of_nil in Hw.
    all: repeat (apply elem_of_cons in Hw' as [->|Hw']); try by apply not_elem_of_nil in Hw'.
    all: simpl; congruence.
  - symmetry. apply Permutation_rev.
  - by left.
  - intros w' Hw'. unfold demo_writes in *.
    repeat (apply elem_of_cons in Hw' as [->|Hw']); try by apply not_elem_of_nil in Hw'.
    all: simpl; lia.
  - intros e. simpl. by rewrite lookup_empty.
Defined.
