(* ===== verification/BanRaces.v ===== *)
(** * Concurrent [apply]

    Goroutines inside [BanChecker.apply] interleave between their [Load] and their
    [Store].  Stale data can win, in exactly one way: a goroutine stores while another one
    with older data about the tenant is between its own two accesses.  [converging] is
    what holds of a tenant's entry as long as that does not happen; it speaks of any
    number of goroutines and of the snapshot, which runs [apply] too. *)
From S2P Require Import Prelude GoStrings GoLib Goroutines Tenant EventBus BanChecker.
Set Default Goal Selector "!".

(** A handler's goroutine before [Load], and between [Load] and [Store]. *)
Definition at_load (x : ban_write) : routine BanChecker :=
  routine_recover (BanChecker_apply (bw_id x) (bw_banned x) (bw_at x)).
Definition at_store (x : ban_write) : routine BanChecker :=
  routine_recover (apply_store (bw_id x) (bw_banned x) (bw_at x)).

Definition store_write (x : ban_write) : BanChecker → BanChecker :=
  bc_Store (bw_id x) (bw_banned x) (bw_at x).

(** No goroutine of [ts], and none of the [others], is between its two accesses with older
    data about the tenant than [y]. *)
Definition oldest (id : TenantID) (ts : list (routine BanChecker)) (others : list ban_write)
    (y : ban_write) : Prop :=
  bw_id y = id → ∀ z, at_store z ∈ ts ∨ z ∈ others → bw_id z = id → (bw_at y ≤ bw_at z)%Z.

(** Goroutine [i] of [ts] stores about [id] in order, if that is what it does next. *)
Definition in_order (id : TenantID) (ts : list (routine BanChecker)) (others : list ban_write)
    (i : nat) : Prop :=
  ∀ y, ts !! i = Some (at_store y) → oldest id ts others y.

(** ** Goroutines by their position *)
Inductive apply_thread : Type :=
| AStart (x : ban_write)
| ALoaded (x : ban_write)
| ADone.

Definition thread_routine (t : apply_thread) : routine BanChecker :=
  match t with AStart x => at_load x | ALoaded x => at_store x | ADone => REnd (Ret tt) end.

(** The writes that are loaded, and those that are not through. *)
Definition loaded (ds : list apply_thread) : list ban_write :=
  omap (λ t, match t with ALoaded x => Some x | _ => None end) ds.
Definition todo (ds : list apply_thread) : list ban_write :=
  omap (λ t, match t with AStart x | ALoaded x => Some x | ADone => None end) ds.

Lemma at_store_inj x y : at_store x = at_store y → x = y.
Proof.
  intros E. assert (store_write x (mkBanChecker ∅) = store_write y (mkBanChecker ∅)) as E'.
  { injection E as E. exact (f_equal (λ f, f (mkBanChecker ∅)) E). }
  apply (f_equal (λ bc, bc_banned bc !! bw_id y)) in E'. cbn [store_write bc_Store bc_banned] in E'.
  rewrite lookup_insert_eq in E'. apply lookup_insert_Some in E' as [[Hid [= Hb Ha]]|[_ ?%lookup_empty_Some]]; [|done].
  destruct x, y. simpl in *. congruence.
Qed.

Lemma at_load_store x y : at_load x ≠ at_store y.
Proof.
  intros E. injection E as E _. apply (f_equal (λ f, bc_banned (f (mkBanChecker ∅)) !! bw_id y)) in E.
  simpl in E. by rewrite lookup_empty, lookup_insert_eq in E.
Qed.

Lemma thread_at_store t y : thread_routine t = at_store y ↔ t = ALoaded y.
Proof.
  destruct t as [x|x|]; simpl; split; try done.
  - intros E. by apply at_load_store in E.
  - by intros ->%at_store_inj.
  - by intros [= ->].
Qed.

Lemma elem_of_loaded ds z : z ∈ loaded ds ↔ ALoaded z ∈ ds.
Proof.
  unfold loaded. rewrite list_elem_of_omap. split.
  - intros ([| |] & Hin & [= ->]). done.
  - intros Hin. by eexists.
Qed.

Lemma at_store_loaded ds z : at_store z ∈ thread_routine <$> ds ↔ z ∈ loaded ds.
Proof.
  rewrite elem_of_loaded, list_elem_of_fmap. split.
  - intros (t & E & Hin). symmetry in E. apply thread_at_store in E as ->. done.
  - intros Hin. by exists (ALoaded z).
Qed.

Lemma todo_done ds : pool_done (thread_routine <$> ds) ↔ todo ds = [].
Proof.
  unfold pool_done. induction ds as [|t ds IH]; simpl; [done |]. rewrite Forall_cons, IH.
  destruct t; simpl; naive_solver.
Qed.

Lemma loaded_todo ds x : x ∈ loaded ds → x ∈ todo ds.
Proof. unfold loaded, todo. rewrite !list_elem_of_omap. intros (t & ? & ?). exists t. by destruct t. Qed.

Lemma threads_recovered ds : recovered (thread_routine <$> ds).
Proof.
  intros t ([x|x|] & -> & _)%list_elem_of_fmap; simpl; [by eexists.. |]. by exists (REnd (Ret tt)).
Qed.

(** What one access of the pool does. *)
Inductive thread_access (bc : BanChecker) (ds : list apply_thread) (i : nat) :
    BanChecker → list apply_thread → Prop :=
| access_skip d1 x d2 :
    ds = d1 ++ AStart x :: d2 → i = length d1 → newer (bc_banned bc !! bw_id x) (bw_at x) = true →
    thread_access bc ds i bc (d1 ++ ADone :: d2)
| access_load d1 x d2 :
    ds = d1 ++ AStart x :: d2 → i = length d1 → newer (bc_banned bc !! bw_id x) (bw_at x) = false →
    thread_access bc ds i bc (d1 ++ ALoaded x :: d2)
| access_store d1 x d2 :
    ds = d1 ++ ALoaded x :: d2 → i = length d1 →
    thread_access bc ds i (store_write x bc) (d1 ++ ADone :: d2).

Lemma pool_thread_step bc ds a bc' ts' :
  pool_step (bc, thread_routine <$> ds) a (bc', ts') ↔
  a.2 = bc ∧ ∃ ds', ts' = thread_routine <$> ds' ∧ thread_access bc ds a.1 bc' ds'.
Proof.
  split.
  - intros Hs. inversion Hs as [w ts i upd next Hal Hi E1 E2 E3]; subst. split; [done |]. simpl.
    rewrite list_lookup_fmap in Hi. apply fmap_Some in Hi as (t & Hi & Et).
    pose proof (take_drop_middle _ _ _ Hi) as E.
    assert (length (take i ds) = i) as Hlen by (apply length_take_le, Nat.lt_le_incl; by eapply lookup_lt_Some).
    rewrite <- E, fmap_app, fmap_cons, insert_middle by (by rewrite length_fmap).
    destruct t as [x|x|]; [| |done]; injection Et as -> ->.
    + destruct (newer (bc_banned bc !! bw_id x) (bw_at x)) eqn:Hn.
      * eexists. split; [|by eapply access_skip]. by rewrite fmap_app.
      * eexists. split; [|by eapply access_load]. by rewrite fmap_app.
    + eexists. split; [|by eapply access_store]. by rewrite fmap_app.
  - intros (Ha & ds' & -> & Hac). destruct a as [i w]. simpl in *. subst w.
    assert (∀ d1 t d2 t' upd next, ds = d1 ++ t :: d2 → i = length d1 → ds' = d1 ++ t' :: d2 →
      thread_routine t = RAct upd next → thread_routine t' = next bc → bc' = upd bc →
      pool_step (bc, thread_routine <$> ds) (i, bc) (bc', thread_routine <$> ds')) as Hrun.
    { intros d1 t d2 t' upd next -> -> -> Ht Ht' ->. rewrite !fmap_app, !fmap_cons, Ht, Ht'.
      rewrite <- (insert_middle _ _ (length d1) (RAct upd next) (next bc)) by by rewrite length_fmap.
      constructor.
      - pose proof (recovered_alive _ (threads_recovered (d1 ++ t :: d2))) as Hal.
        by rewrite fmap_app, fmap_cons, Ht in Hal.
      - apply list_lookup_middle. by rewrite length_fmap. }
    destruct Hac as [d1 x d2 E Hi Hn|d1 x d2 E Hi Hn|d1 x d2 E Hi];
      (eapply Hrun; [exact E | exact Hi | reflexivity | reflexivity | | done]); simpl; by rewrite ?Hn.
Qed.

(** The positions of the writes after an access. *)
Lemma access_todo bc ds i bc' ds' :
  thread_access bc ds i bc' ds' →
  (todo ds ≡ₚ todo ds' ∧ bc' = bc ∧ ∃ x, loaded ds' ≡ₚ x :: loaded ds ∧
     newer (bc_banned bc !! bw_id x) (bw_at x) = false) ∨
  (∃ x, todo ds ≡ₚ x :: todo ds' ∧ bc' = bc ∧ loaded ds' = loaded ds ∧
     newer (bc_banned bc !! bw_id x) (bw_at x) = true) ∨
  (∃ x, todo ds ≡ₚ x :: todo ds' ∧ loaded ds ≡ₚ x :: loaded ds' ∧ bc' = store_write x bc ∧
     (thread_routine <$> ds) !! i = Some (at_store x)).
Proof.
  assert (∀ {A} (f : apply_thread → option A) d1 t d2, omap f (d1 ++ t :: d2) ≡ₚ
    option_list (f t) ++ omap f (d1 ++ d2)) as Hmid.
  { intros A f d1 t d2. rewrite !omap_app. simpl. destruct (f t); simpl; [|done].
    symmetry. apply Permutation_middle. }
  destruct 1 as [d1 x d2 -> -> Hn|d1 x d2 -> -> Hn|d1 x d2 -> ->]; unfold todo, loaded.
  - right; left. exists x. split_and!; [by rewrite !Hmid | done | by rewrite !omap_app | done].
  - left. split_and!; [by rewrite !Hmid | done |]. exists x. split; [by rewrite !Hmid | done].
  - right; right. exists x. split_and!; [by rewrite !Hmid | by rewrite !Hmid | done |].
    rewrite fmap_app, fmap_cons. apply list_lookup_middle. by rewrite length_fmap.
Qed.

(** ** What a tenant's entry is *)
Section converging.
Context (id : TenantID) (old : Z → Prop).
Hypothesis old_down : ∀ a b, (a ≤ b)%Z → old b → old a.

(** Not later, as far as times that are not [old] are concerned. *)
Definition le_old (a b : Z) : Prop := old a ∨ (a ≤ b)%Z.

Lemma le_old_trans a b c : le_old a b → le_old b c → le_old a c.
Proof using old_down. intros [?|?] [?|?]; unfold le_old; eauto using Z.le_trans. Qed.

(** [e0] is the entry at the beginning, [ld] are the writes that are loaded and [ap] those
    that are through: the entry is that of the latest write (or the first one, when all
    were stale), and no loaded write is staler than it. *)
Record converging (e0 : option banEntry) (bc : BanChecker) (ld ap : list ban_write) : Prop := {
  cv_entry :
    (bc_banned bc !! id = e0 ∧ ∀ x, x ∈ ap → bw_id x = id → newer e0 (bw_at x) = true) ∨
    (∃ w, w ∈ ap ∧ bw_id w = id ∧ bc_banned bc !! id = Some (mkBan (bw_banned w) (bw_at w)) ∧
       (∀ x, x ∈ ap → bw_id x = id → le_old (bw_at x) (bw_at w)) ∧
       (∀ e, e0 = Some e → le_old (be_updatedAt e) (bw_at w)));
  cv_loaded y e : y ∈ ld → bw_id y = id → bc_banned bc !! id = Some e →
    le_old (be_updatedAt e) (bw_at y)
}.

Lemma newer_false e (x : Z) : newer (Some e) x = false → (be_updatedAt e ≤ x)%Z.
Proof. apply Z.ltb_ge. Qed.

Lemma cv_init bc : converging (bc_banned bc !! id) bc [] [].
Proof. split; [left; split; [done |] | intros y e]; by intros ? ?%not_elem_of_nil || by intros ?%not_elem_of_nil. Qed.

Lemma cv_same e0 bc ld ap ld' ap' :
  (∀ x, x ∈ ld' → x ∈ ld) → (∀ x, x ∈ ap ↔ x ∈ ap') →
  converging e0 bc ld ap → converging e0 bc ld' ap'.
Proof. intros Hl Ha [He Hld]. split; [|naive_solver]. setoid_rewrite <- Ha. exact He. Qed.

Lemma cv_load e0 bc ld ap x :
  newer (bc_banned bc !! bw_id x) (bw_at x) = false →
  converging e0 bc ld ap → converging e0 bc (x :: ld) ap.
Proof.
  intros Hn [He Hld]. split; [done |]. intros y e [->|Hy]%elem_of_cons Hid E; [|by eapply Hld].
  right. rewrite Hid, E in Hn. by apply newer_false.
Qed.

Lemma cv_skip e0 bc ld ap x :
  newer (bc_banned bc !! bw_id x) (bw_at x) = true →
  converging e0 bc ld ap → converging e0 bc ld (x :: ap).
Proof.
  intros Hn [He Hld]. split; [|done]. destruct He as [[E Hall]|(w & Hw & Hid & E & Hall & H0)].
  - left. split; [done |]. intros y [->|Hy]%elem_of_cons Hid; [|by apply Hall]. by rewrite Hid, E in Hn.
  - right. exists w. split_and!; [by right | done | done | | done].
    intros y [->|Hy]%elem_of_cons Hidy; [|by apply Hall]. rewrite Hidy, E in Hn. right.
    apply Z.ltb_lt in Hn. simpl in Hn. lia.
Qed.

Lemma cv_store e0 bc ld ap x :
  x ∈ ld → (bw_id x = id → ∀ z, z ∈ ld → bw_id z = id → le_old (bw_at x) (bw_at z)) →
  converging e0 bc ld ap → converging e0 (store_write x bc) ld (x :: ap).
Proof using old_down.
  intros Hx Hmin [He Hld]. unfold store_write, bc_Store.
  destruct (decide (bw_id x = id)) as [Hid|Hid].
  - split; simpl; rewrite Hid, lookup_insert_eq.
    2: { intros y e Hy Hidy [= <-]. by apply Hmin. }
    right. exists x. assert (∀ e, bc_banned bc !! id = Some e → le_old (be_updatedAt e) (bw_at x)) as Hcur.
    { intros e. by apply Hld. }
    split_and!; [by left | done | done | |].
    + intros y [->|Hy]%elem_of_cons Hidy; [by right |].
      destruct He as [[E Hall]|(w & Hw & Hidw & E & Hall & H0)].
      * specialize (Hall _ Hy Hidy). destruct e0 as [e|]; [|done].
        eapply le_old_trans; [|by apply Hcur]. right. apply Z.ltb_lt in Hall. lia.
      * eapply le_old_trans; [by apply Hall | exact (Hcur _ E)].
    + intros e ->. destruct He as [[E Hall]|(w & Hw & Hidw & E & Hall & H0)]; [by apply Hcur |].
      eapply le_old_trans; [by apply H0 | exact (Hcur _ E)].
  - split; simpl; rewrite lookup_insert_ne by done; [|done].
    destruct He as [[E Hall]|(w & Hw & Hidw & E & Hall & H0)].
    + left. split; [done |]. intros y [->|Hy]%elem_of_cons; [done | by apply Hall].
    + right. exists w. split_and!; [by right | done | done | | done].
      intros y [->|Hy]%elem_of_cons; [done | by apply Hall].
Qed.

(** An access of a goroutine of the pool, the [others] being loaded elsewhere. *)
Lemma cv_pool e0 bc ds others ap a bc' ts' :
  pool_step (bc, thread_routine <$> ds) a (bc', ts') →
  (∀ y, (thread_routine <$> ds) !! a.1 = Some (at_store y) → bw_id y = id →
     ∀ z, z ∈ loaded ds ++ others → bw_id z = id → le_old (bw_at y) (bw_at z)) →
  converging e0 bc (loaded ds ++ others) ap →
  ∃ ds' ap', ts' = thread_routine <$> ds' ∧ ap' ++ todo ds' ≡ₚ ap ++ todo ds ∧
    converging e0 bc' (loaded ds' ++ others) ap'.
Proof using old_down.
  intros (_ & ds' & -> & Hac)%pool_thread_step Hord Hcv. exists ds'.
  destruct (access_todo _ _ _ _ _ Hac) as
    [(Htd & -> & x & Hld & Hn)|[(x & Htd & -> & Hld & Hn)|(x & Htd & Hld & -> & Hat)]].
  - exists ap. split_and!; [done | by rewrite Htd |]. eapply cv_same; [| |exact (cv_load _ _ _ _ x Hn Hcv)]; [|done].
    intros y. rewrite Hld. simpl. done.
  - exists (x :: ap). split_and!; [done | rewrite Htd; by apply Permutation_middle |].
    rewrite Hld. by apply cv_skip.
  - exists (x :: ap). split_and!; [done | rewrite Htd; by apply Permutation_middle |].
    eapply cv_same; [| |apply (cv_store e0 bc (loaded ds ++ others) ap x); [| |exact Hcv]]; [|done| |].
    + intros y. rewrite Hld. simpl. set_solver.
    + rewrite Hld. by left.
    + exact (Hord x Hat).
Qed.

(** [oldest], as far as times that are not [old] are concerned. *)
Definition oldest_than (ts : list (routine BanChecker)) (others : list ban_write) (y : ban_write) : Prop :=
  bw_id y = id → ∀ z, at_store z ∈ ts ∨ z ∈ others → bw_id z = id → le_old (bw_at y) (bw_at z).

Lemma oldest_weaken ts others y : oldest id ts others y → oldest_than ts others y.
Proof. intros Ho Hid z Hz Hidz. right. by apply Ho. Qed.

Lemma oldest_le ds others y :
  oldest_than (thread_routine <$> ds) others y → bw_id y = id →
  ∀ z, z ∈ loaded ds ++ others → bw_id z = id → le_old (bw_at y) (bw_at z).
Proof.
  intros Ho Hid z Hz Hidz. apply Ho; [done | | done]. rewrite at_store_loaded. by apply elem_of_app.
Qed.

(** ** A checker with the goroutines of its subscription

    They have [td] still to write, others are loaded elsewhere. *)
Definition told (bc : BanChecker) (ts : list (routine BanChecker)) (others ap td : list ban_write) : Prop :=
  ∃ ds, ts = thread_routine <$> ds ∧ td = todo ds ∧ converging None bc (loaded ds ++ others) ap.

Lemma told_init : told (mkBanChecker ∅) [] [] [] [].
Proof. exists []. split_and!; [done | done |]. exact (cv_init (mkBanChecker ∅)). Qed.

Lemma told_done bc ts others ap td : told bc ts others ap td → pool_done ts ↔ td = [].
Proof. intros (ds & -> & -> & _). apply todo_done. Qed.

Lemma told_start bc ts others ap td event :
  told bc ts others ap td →
  told bc (ts ++ [safeCall BanChecker_handleEvent event]) others ap (td ++ [write_of event]).
Proof.
  intros (ds & -> & -> & Hcv). exists (ds ++ [AStart (write_of event)]). split_and!.
  - by rewrite fmap_app.
  - unfold todo. by rewrite omap_app.
  - unfold loaded in *. rewrite omap_app. simpl. by rewrite app_nil_r.
Qed.

Lemma told_run bc ts others ap td a bc' ts' :
  pool_step (bc, ts) a (bc', ts') →
  (∀ y, ts !! a.1 = Some (at_store y) → oldest_than ts others y) → told bc ts others ap td →
  ∃ ap' td', told bc' ts' others ap' td' ∧ ap' ++ td' ≡ₚ ap ++ td.
Proof using old_down.
  intros Hs Ho (ds & -> & -> & Hcv).
  destruct (cv_pool None bc ds others ap a bc' ts' Hs) as (ds' & ap' & -> & Hp & Hcv'); [|done|].
  { intros y Hy. apply oldest_le. by apply Ho. }
  exists ap', (todo ds'). split; [|done]. by exists ds'.
Qed.

Lemma told_load bc ts ap td x :
  newer (bc_banned bc !! bw_id x) (bw_at x) = false →
  told bc ts [] ap td → told bc ts [x] ap td.
Proof.
  intros Hn (ds & -> & -> & Hcv). exists ds. split_and!; [done | done |].
  eapply cv_same; [| |exact (cv_load _ _ _ _ x Hn Hcv)]; [|done]. set_solver.
Qed.

Lemma told_skip bc ts others ap td x :
  newer (bc_banned bc !! bw_id x) (bw_at x) = true →
  told bc ts others ap td → told bc ts others (x :: ap) td.
Proof. intros Hn (ds & -> & -> & Hcv). exists ds. split_and!; [done | done |]. by apply cv_skip. Qed.

Lemma told_store bc ts ap td x :
  oldest_than ts [x] x → told bc ts [x] ap td → told (store_write x bc) ts [] (x :: ap) td.
Proof using old_down.
  intros Ho (ds & -> & -> & Hcv). exists ds. split_and!; [done | done |].
  eapply cv_same; [| |apply (cv_store None bc (loaded ds ++ [x]) ap x); [| |exact Hcv]]; [|done| |].
  - set_solver.
  - set_solver.
  - by apply oldest_le.
Qed.

End converging.

(** Without any order, [converging] still says where the entry comes from. *)
Definition anything (a : Z) : Prop := True.

Lemma le_anything a b : le_old anything a b.
Proof. by left. Qed.

(** From a moment on at which all writes are [old]. *)
Lemma cv_restart id old bc ld ap :
  (∀ x, x ∈ ap → bw_id x = id → old (bw_at x)) →
  converging id anything None bc ld ap → converging id old None bc ld ap.
Proof.
  intros Hold [He Hld]. split.
  - destruct He as [?|(w & Hw & Hid & E & Hall & H0)]; [by left |]. right. exists w.
    split_and!; [done | done | done | | done]. intros x Hx Hidx. left. by apply Hold.
  - intros y e _ _ E. left. destruct He as [[E' _]|(w & Hw & Hid & E' & _)]; [congruence |].
    rewrite E in E'. injection E' as ->. by apply Hold.
Qed.

Lemma told_restart id old bc ts others ap td :
  (∀ x, x ∈ ap → bw_id x = id → old (bw_at x)) →
  told id anything bc ts others ap td → told id old bc ts others ap td.
Proof. intros Hold (ds & -> & -> & Hcv). exists ds. split_and!; [done | done | by apply cv_restart]. Qed.

(** ** Goroutines of one pool *)

(** Every store of the run about [id] is in order. *)
Definition pool_ordered (id : TenantID) (s : BanChecker * list (routine BanChecker))
    (a : nat * BanChecker) (s' : BanChecker * list (routine BanChecker)) : Prop :=
  pool_step s a s' ∧ in_order id s.2 [] a.1.

Definition pool_calm (s : BanChecker * list (routine BanChecker))
    (a : nat * BanChecker) (s' : BanChecker * list (routine BanChecker)) : Prop :=
  pool_step s a s' ∧ ∀ id, in_order id s.2 [] a.1.

Lemma todo_start xs : todo (AStart <$> xs) = xs.
Proof. induction xs as [|x xs IH]; [done |]. exact (f_equal (cons x) IH). Qed.

Lemma loaded_start xs : loaded (AStart <$> xs) = [].
Proof. unfold loaded. by induction xs. Qed.

Lemma ordered_converging id bc xs tr bc' ts' :
  trace (pool_ordered id) (bc, at_load <$> xs) tr (bc', ts') → pool_done ts' →
  ∃ ap, ap ≡ₚ xs ∧ converging id (λ _, False) (bc_banned bc !! id) bc' [] ap.
Proof.
  intros Htr Hd.
  assert (∃ ds ap, ts' = thread_routine <$> ds ∧ ap ++ todo ds ≡ₚ xs ∧
    converging id (λ _, False) (bc_banned bc !! id) bc' (loaded ds ++ []) ap) as (ds & ap & -> & Hp & Hcv).
  { refine (trace_inv (pool_ordered id) (λ s, ∃ ds ap, s.2 = thread_routine <$> ds ∧ ap ++ todo ds ≡ₚ xs ∧
      converging id (λ _, False) (bc_banned bc !! id) s.1 (loaded ds ++ []) ap) _ _ _ _ Htr _).
    - intros [bc1 ts1] a [bc2 ts2] [Hs Ho] (ds & ap & E & Hp & Hcv). simpl in *. subst ts1.
      assert (∀ y, (thread_routine <$> ds) !! a.1 = Some (at_store y) → bw_id y = id →
        ∀ z, z ∈ loaded ds ++ [] → bw_id z = id → le_old (λ _, False) (bw_at y) (bw_at z)) as Hord.
      { intros y Hy. apply oldest_le, oldest_weaken. by apply Ho. }
      destruct (cv_pool id (λ _, False) (λ _ _ _ F, F) _ _ _ _ _ _ _ _ Hs Hord Hcv) as (ds' & ap' & -> & Hp' & Hcv').
      exists ds', ap'. split_and!; [done | by rewrite Hp' | done].
    - exists (AStart <$> xs), []. simpl. rewrite todo_start, loaded_start. split_and!; [|done|apply cv_init].
      by rewrite <- list_fmap_compose. }
  apply todo_done in Hd. exists ap. rewrite Hd, app_nil_r in Hp. split; [done |].
  eapply cv_same; [| |exact Hcv]; [by intros x ?%not_elem_of_nil | done].
Qed.

(** The writes of one tenant end as if they had been applied one after the other. *)
Lemma ordered_applies id bc xs tr bc' ts' :
  agree xs → trace (pool_ordered id) (bc, at_load <$> xs) tr (bc', ts') → pool_done ts' →
  bc_banned bc' !! id = bc_banned (apply_all xs bc) !! id.
Proof.
  intros Hag Htr Hd. destruct (ordered_converging _ _ _ _ _ _ Htr Hd) as (ap & Hp & [He _]).
  destruct He as [[-> Hall]|(w & Hw & <- & -> & Hall & H0)]; symmetry.
  - clear Htr. assert (∀ x, x ∈ xs → bw_id x = id → newer (bc_banned bc !! id) (bw_at x) = true) as Hall'.
    { intros x. rewrite <- Hp. apply Hall. }
    clear -Hall'. induction xs as [|x xs IH] using rev_ind; [done |].
    unfold apply_all. rewrite foldl_app. simpl. fold (apply_all xs bc).
    specialize (IH ltac:(intros; apply Hall'; set_solver)). destruct (decide (bw_id x = id)) as [Hid|Hid].
    + rewrite <- Hid at 1. rewrite apply_lookup_eq, Hid, IH. unfold merge. rewrite Hall'; set_solver.
    + by rewrite apply_lookup_ne.
  - apply apply_all_latest.
    + by rewrite <- Hp.
    + done.
    + intros x Hx Hid. rewrite <- Hp in Hx. by destruct (Hall x Hx Hid).
    + intros e He. by destruct (H0 e He).
Qed.

(** ** Some goroutine can always go on in order *)
Lemma oldest_write (l : list ban_write) : l ≠ [] → ∃ m, m ∈ l ∧ ∀ z, z ∈ l → (bw_at m ≤ bw_at z)%Z.
Proof.
  induction l as [|x [|y l] IH]; intros Hne; [done | exists x; split; [by left |] |].
  - by intros z ->%list_elem_of_singleton.
  - destruct (IH ltac:(done)) as (m & Hm & Hmin). destruct (decide (bw_at x ≤ bw_at m)%Z).
    + exists x. split; [by left |]. intros z [->|Hz]%elem_of_cons; [done |]. specialize (Hmin z Hz). lia.
    + exists m. split; [by right |]. intros z [->|Hz]%elem_of_cons; [lia | by apply Hmin].
Qed.

Definition thread_weight (ds : list apply_thread) : nat := length (todo ds) + length (todo ds) - length (loaded ds).

Lemma loaded_le_todo ds : length (loaded ds) ≤ length (todo ds).
Proof.
  induction ds as [|[] ds IH]; [done | exact (le_S _ _ IH) | exact (le_n_S _ _ IH) | exact IH].
Qed.

Lemma access_weight bc ds i bc' ds' : thread_access bc ds i bc' ds' → thread_weight ds' < thread_weight ds.
Proof.
  intros Hac. unfold thread_weight. pose proof (loaded_le_todo ds). pose proof (loaded_le_todo ds').
  destruct (access_todo _ _ _ _ _ Hac) as
    [(Htd & _ & x & Hld & _)|[(x & Htd & _ & Hld & _)|(x & Htd & Hld & _ & _)]];
    apply Permutation_length in Htd; try apply Permutation_length in Hld; try rewrite Hld in *; simpl in *; lia.
Qed.

(** A goroutine that loads is in order. *)
Lemma load_in_order id ds others d1 x d2 i :
  ds = d1 ++ AStart x :: d2 → i = length d1 → in_order id (thread_routine <$> ds) others i.
Proof.
  intros -> -> y Hy. exfalso. rewrite fmap_app, fmap_cons, list_lookup_middle in Hy by by rewrite length_fmap.
  apply (inj Some) in Hy. by apply at_load_store in Hy.
Qed.

(** Nothing else is between [Load] and [Store]. *)
Lemma alone_in_order id ds d1 x d2 i :
  ds = d1 ++ ALoaded x :: d2 → loaded d1 = [] → loaded d2 = [] → i = length d1 →
  in_order id (thread_routine <$> ds) [] i.
Proof.
  intros -> H1 H2 -> y Hy Hid z [Hz|Hz] Hidz; [|by apply not_elem_of_nil in Hz].
  rewrite fmap_app, fmap_cons, list_lookup_middle in Hy by by rewrite length_fmap.
  apply (inj Some), at_store_inj in Hy as <-. apply at_store_loaded in Hz.
  unfold loaded in Hz. rewrite omap_app in Hz. fold (loaded d1) in Hz. rewrite H1 in Hz.
  change (z ∈ x :: loaded d2) in Hz. rewrite H2 in Hz.
  by apply list_elem_of_singleton in Hz as ->.
Qed.

(** A goroutine that is not through goes on in order, unless one of the [others] is the
    first to store. *)
Lemma pool_goes_on bc ds others :
  todo ds ≠ [] →
  (∃ a bc' ds', pool_step (bc, thread_routine <$> ds) a (bc', thread_routine <$> ds') ∧
     (∀ id, in_order id (thread_routine <$> ds) others a.1) ∧ thread_weight ds' < thread_weight ds) ∨
  ∃ x, x ∈ others ∧ ∀ id, oldest id (thread_routine <$> ds) others x.
Proof.
  intros Hne.
  assert (∀ i bc' ds', thread_access bc ds i bc' ds' →
    (∀ id, in_order id (thread_routine <$> ds) others i) →
    ∃ a bc' ds', pool_step (bc, thread_routine <$> ds) a (bc', thread_routine <$> ds') ∧
     (∀ id, in_order id (thread_routine <$> ds) others a.1) ∧ thread_weight ds' < thread_weight ds) as Hgo.
  { intros i bc' ds' Hac Ho. exists (i, bc), bc', ds'. split_and!; [|done|by eapply access_weight].
    apply pool_thread_step. eauto. }
  destruct (decide (loaded ds ++ others = [])) as [Hnil|Hsome].
  - left. apply app_nil in Hnil as [Hl _].
    assert (∃ x, AStart x ∈ ds) as [x (d1 & d2 & Hds)%list_elem_of_split].
    { destruct (todo ds) as [|x l] eqn:E; [done |]. exists x.
      assert (x ∈ todo ds) as Hx by (rewrite E; by left). unfold todo in Hx.
      apply list_elem_of_omap in Hx as ([y|y|] & Hin & [= ->]); [done |].
      apply elem_of_loaded in Hin. rewrite Hl in Hin. by apply not_elem_of_nil in Hin. }
    assert (∀ id, in_order id (thread_routine <$> ds) others (length d1)) as Ho
      by (intros id; by eapply load_in_order).
    destruct (newer (bc_banned bc !! bw_id x) (bw_at x)) eqn:Hn.
    + by eapply Hgo; [eapply access_skip |].
    + by eapply Hgo; [eapply access_load |].
  - destruct (oldest_write _ Hsome) as (m & [Hm|Hm]%elem_of_app & Hmin).
    + left. apply elem_of_loaded, list_elem_of_split in Hm as (d1 & d2 & Hds).
      eapply Hgo; [by eapply access_store |]. intros id y Hy _ z Hz _.
      rewrite Hds, fmap_app, fmap_cons, list_lookup_middle in Hy by by rewrite length_fmap.
      apply (inj Some), at_store_inj in Hy as <-. rewrite at_store_loaded in Hz. apply Hmin. by apply elem_of_app.
    + right. exists m. split; [done |]. intros id _ z Hz _. rewrite at_store_loaded in Hz.
      apply Hmin. by apply elem_of_app.
Qed.

Lemma pool_calm_ends bc ds :
  ∃ tr bc' ts', trace pool_calm (bc, thread_routine <$> ds) tr (bc', ts') ∧ pool_done ts'.
Proof.
  assert (∃ tr s, trace pool_calm (bc, thread_routine <$> ds) tr s ∧ pool_done s.2) as (tr & [bc' ts'] & ? & ?);
    [|by eauto].
  remember (thread_weight ds) as n eqn:Hn. revert bc ds Hn.
  induction n as [n IH] using lt_wf_ind. intros bc ds ->.
  destruct (decide (todo ds = [])) as [Hd|Hd]; [eexists [], _; split; [apply trace_nil | by apply todo_done] |].
  destruct (pool_goes_on bc ds [] Hd) as [(a & bc1 & ds1 & Hs & Ho & Hlt)|(x & Hx & _)];
    [|by apply not_elem_of_nil in Hx].
  destruct (IH _ Hlt bc1 ds1 eq_refl) as (tr & s & Htr & Hds). exists (a :: tr), s.
  split; [|done]. eapply trace_cons; [split; [exact Hs | exact Ho] | exact Htr].
Qed.

(** Out of order, stale data wins: for every tenant and every pair of writes of which one
    is older, two goroutines that both [Load] before either [Store]s can end with the older
    one in the map (for example a snapshot's "not banned" over a later ban event). *)
Theorem concurrent_apply_can_regress old new :
  bw_id old = bw_id new → (bw_at old < bw_at new)%Z →
  ∃ tr bc ts, trace pool_step (mkBanChecker ∅, [at_load old; at_load new]) tr (bc, ts) ∧ pool_done ts ∧
    bc_banned bc !! bw_id new = Some (mkBan (bw_banned old) (bw_at old)).
Proof.
  intros Hid Hlt.
  assert (∀ bc ds i bc' ds', thread_access bc ds i bc' ds' →
    pool_step (bc, thread_routine <$> ds) (i, bc) (bc', thread_routine <$> ds')) as Hgo.
  { intros. apply pool_thread_step. eauto. }
  eexists _, _, (thread_routine <$> [ADone; ADone]). split; [|split].
  - change [at_load old; at_load new] with (thread_routine <$> [AStart old; AStart new]).
    eapply trace_cons; [by eapply Hgo, (access_load _ _ _ [] old [_]) |]. simpl app.
    eapply trace_cons; [by eapply Hgo, (access_load _ _ _ [_] new []) |]. simpl app.
    eapply trace_cons; [by eapply Hgo, (access_store _ _ _ [_] new []) |]. simpl app.
    eapply trace_cons; [by eapply Hgo, (access_store _ _ _ [] old [_]) |]. apply trace_nil.
  - by apply todo_done.
  - simpl. by rewrite Hid, lookup_insert_eq.
Qed.

Lemma concurrent_apply_can_regress_witness :
  ∃ tr bc ts, trace pool_step
      (mkBanChecker ∅, [at_load (mkWrite "acme" false 5); at_load (mkWrite "acme" true 10)]) tr (bc, ts) ∧
    pool_done ts ∧ bc_banned bc !! "acme" = Some (mkBan false 5).
Proof. apply (concurrent_apply_can_regress (mkWrite "acme" false 5) (mkWrite "acme" true 10)); done. Defined.
