(* ===== verification/RetryQueue.v ===== *)
(** * Package admin: [PublishRetryQueue]

    The bounded retry queue of [admin/retry_queue.go].  Pending events are shared
    by pointer between the queue and the worker, so the queue has a table of
    [pendingEvent] structs and lists of indices into it.  [retryDue] locks twice:
    it collects what is due, publishes without the lock, and locks again to record
    the outcomes; [q_step] lets [Enqueue] run between any two of these. *)
From S2P Require Import Prelude GoStrings GoLib Tenant EventBus.
Set Default Goal Selector "!".

Definition defaultMaxRetries : Z := 5.
Definition defaultMaxSize : Z := 1000.
Definition defaultBaseBackoff : Z := 1000000000.

Record pendingEvent := mkPE {
  pe_event : TenantEvent;
  pe_attempts : Z;
  pe_nextAttemptAt : Z
}.

(** The two CRITICAL lines: an event dropped to make room, and an event given up. *)
Inductive logline : Type :=
| LogFull (pe : nat) (attempts : Z)
| LogExhausted (pe : nat) (attempts : Z) (err : error).

Record PublishRetryQueue := mkQ {
  q_pes : list pendingEvent;
  q_pending : list nat;
  q_maxRetries : Z;
  q_maxSize : Z;
  q_baseBackoff : Z;
  q_log : list logline
}.

Definition NewPublishRetryQueue : PublishRetryQueue :=
  mkQ [] [] defaultMaxRetries defaultMaxSize defaultBaseBackoff [].

Definition q_with (pes : list pendingEvent) (pending : list nat) (log : list logline)
    (q : PublishRetryQueue) : PublishRetryQueue :=
  mkQ pes pending (q_maxRetries q) (q_maxSize q) (q_baseBackoff q) log.

Definition attempts_of (q : PublishRetryQueue) (p : nat) : Z :=
  match q_pes q !! p with Some pe => pe_attempts pe | None => 0 end.

(** The drop of the oldest entry; [q.pending[0]] of an empty slice panics. *)
Definition make_room : GoM (PublishRetryQueue * world) unit := λ qw,
  let '(q, w) := qw in
  if (q_maxSize q <=? Z.of_nat (length (q_pending q)))%Z then
    match q_pending q with
    | [] => ((q, w), Panic "index out of range [0] with length 0")
    | dropped :: rest =>
        ((q_with (q_pes q) rest (q_log q ++ [LogFull dropped (attempts_of q dropped)]) q, w), Ret tt)
    end
  else ((q, w), Ret tt).

(** [q.pending = append(q.pending, &pendingEvent{...})]. *)
Definition q_append (pe : pendingEvent) : GoM (PublishRetryQueue * world) unit := λ qw,
  let '(q, w) := qw in
  ((q_with (q_pes q ++ [pe]) (q_pending q ++ [length (q_pes q)]) (q_log q) q, w), Ret tt).

Definition PublishRetryQueue_Enqueue (event : TenantEvent) : GoM (PublishRetryQueue * world) unit :=
  _ ← make_room;
  now ← time_Now;
  q_append (mkPE event 0 now).

Definition PublishRetryQueue_PendingCount (q : PublishRetryQueue) : nat := length (q_pending q).

(** [q.baseBackoff * time.Duration(1<<uint(attempts-1))]. *)
Definition PublishRetryQueue_backoff (q : PublishRetryQueue) (attempts : Z) : Z :=
  wrap64 (q_baseBackoff q * shl64 1 (uint64_of (attempts - 1))).

Fixpoint index_from (i : nat) (pe : nat) (pending : list nat) : option nat :=
  match pending with
  | [] => None
  | p :: pending => if decide (p = pe) then Some i else index_from (S i) pe pending
  end.

Definition PublishRetryQueue_indexOf (q : PublishRetryQueue) (pe : nat) : option nat :=
  index_from 0 pe (q_pending q).

Definition PublishRetryQueue_removeAt (i : nat) (q : PublishRetryQueue) : PublishRetryQueue :=
  q_with (q_pes q) (take i (q_pending q) ++ drop (S i) (q_pending q)) (q_log q) q.

(** The pending events whose time has come: [!pe.nextAttemptAt.After(now)]. *)
Definition is_due (now : Z) (q : PublishRetryQueue) (p : nat) : bool :=
  match q_pes q !! p with
  | Some pe => (pe_nextAttemptAt pe <=? now)%Z
  | None => false
  end.

Definition q_due (now : Z) (q : PublishRetryQueue) : list nat :=
  filter (λ p, is_due now q p = true) (q_pending q).

(** The body of the second loop of [retryDue] for one event and its outcome. *)
Definition settle_one (pe : nat) (err : option error) : GoM (PublishRetryQueue * world) unit :=
  qw ← go_get;
  let q := qw.1 in
  match PublishRetryQueue_indexOf q pe with
  | None => mret tt
  | Some idx =>
      match err with
      | None => go_put (PublishRetryQueue_removeAt idx q, qw.2)
      | Some e =>
          match q_pes q !! pe with
          | None => mret tt
          | Some x =>
              if (pe_attempts x <? q_maxRetries q)%Z then
                let attempts := (pe_attempts x + 1)%Z in
                now ← time_Now;
                qw ← go_get;
                go_put (q_with
                  (<[pe := mkPE (pe_event x) attempts
                             (now + PublishRetryQueue_backoff q attempts)]> (q_pes q))
                  (q_pending q) (q_log q) q, qw.2)
              else
                go_put (PublishRetryQueue_removeAt idx
                  (q_with (q_pes q) (q_pending q)
                     (q_log q ++ [LogExhausted pe (pe_attempts x) e]) q), qw.2)
          end
      end
  end.

Fixpoint settle_all (outcomes : list (nat * option error)) : GoM (PublishRetryQueue * world) unit :=
  match outcomes with
  | [] => mret tt
  | (pe, err) :: outcomes => _ ← settle_one pe err; settle_all outcomes
  end.

Section worker.
Context {B W : Type} `{!EventBus B W}.

(** The publish loop, outside the lock. *)
Fixpoint publish_all (ctx : context) (q : PublishRetryQueue) (due : list nat) (b : B) :
    B * list (nat * option error) :=
  match due with
  | [] => (b, [])
  | p :: due =>
      match q_pes q !! p with
      | None => publish_all ctx q due b
      | Some pe =>
          let '(b1, err) := EventBus_Publish ctx (pe_event pe) b in
          let '(b2, outcomes) := publish_all ctx q due b1 in
          (b2, (p, err) :: outcomes)
      end
  end.

(** [retryDue] when nothing runs in between. *)
Definition PublishRetryQueue_retryDue (ctx : context) :
    GoM ((PublishRetryQueue * B) * world) unit := λ s,
  let '((q, b), w) := s in
  let now := next_now w in
  let due := q_due now q in
  match due with
  | [] => (((q, b), tick w), Ret tt)
  | _ =>
      let '(b', outcomes) := publish_all ctx q due b in
      let '((q', w'), o) := settle_all outcomes (q, tick w) in
      (((q', b'), w'), o)
  end.

(** ** The queue, its worker and concurrent callers of [Enqueue]

    The worker is between ticks, or it has published the events of [outcomes] and
    still has those of [todo] to publish.  [qs_hist] records what happened. *)
Inductive worker_phase : Type :=
| Waiting
| Publishing (outcomes : list (nat * option error)) (todo : list nat).

Inductive q_event : Type :=
| QEnqueue (p : nat) (event : TenantEvent)
| QPublish (p : nat) (err : option error)
| QTick.

Record q_sys := mkQSys {
  qs_q : PublishRetryQueue;
  qs_bus : B;
  qs_w : world;
  qs_phase : worker_phase;
  qs_hist : list q_event
}.

Inductive q_step : q_sys → q_event → q_sys → Prop :=
| qstep_enqueue q b w ph h event q' w' :
    PublishRetryQueue_Enqueue event (q, w) = ((q', w'), Ret tt) →
    q_step (mkQSys q b w ph h) (QEnqueue (length (q_pes q)) event)
      (mkQSys q' b w' ph (h ++ [QEnqueue (length (q_pes q)) event]))
| qstep_collect q b w h :
    q_step (mkQSys q b w Waiting h) QTick
      (mkQSys q b (tick w) (Publishing [] (q_due (next_now w) q)) (h ++ [QTick]))
| qstep_publish q b w outcomes p todo h pe ctx b' err :
    q_pes q !! p = Some pe →
    EventBus_Publish ctx (pe_event pe) b = (b', err) →
    q_step (mkQSys q b w (Publishing outcomes (p :: todo)) h) (QPublish p err)
      (mkQSys q b' w (Publishing (outcomes ++ [(p, err)]) todo) (h ++ [QPublish p err]))
| qstep_settle q b w outcomes h q' w' :
    settle_all outcomes (q, w) = ((q', w'), Ret tt) →
    q_step (mkQSys q b w (Publishing outcomes []) h) QTick
      (mkQSys q' b w' Waiting (h ++ [QTick])).

End worker.

Arguments q_sys : clear implicits.

(** How often the event [p] was handed to the bus. *)
Definition is_publish (p : nat) (e : q_event) : bool :=
  match e with QPublish p' _ => bool_decide (p' = p) | _ => false end.

Definition publishes (p : nat) (h : list q_event) : nat :=
  length (filter (λ e, is_publish p e = true) h).

(** The bus accepted [p]. *)
Definition delivered (p : nat) (h : list q_event) : Prop := QPublish p None ∈ h.

(** A CRITICAL line names [p]. *)
Definition logged (p : nat) (log : list logline) : Prop :=
  ∃ a, LogFull p a ∈ log ∨ ∃ e, LogExhausted p a e ∈ log.

(** ** The invariant *)
Section invariant.
Context {B W : Type} {HB : EventBus B W}.

(** What holds of one event [p]: at most one publish more than the failures
    counted, none more when its outcome is not waiting to be recorded, and it is
    pending, delivered or logged. *)
Definition event_inv (q : PublishRetryQueue) (h : list q_event)
    (rem : list (nat * option error)) (todo : list nat) (p : nat) (pe : pendingEvent) : Prop :=
  (0 ≤ pe_attempts pe ≤ q_maxRetries q)%Z ∧
  (Z.of_nat (publishes p h) ≤ pe_attempts pe + 1)%Z ∧
  (p ∈ q_pending q → p ∉ rem.*1 → Z.of_nat (publishes p h) ≤ pe_attempts pe)%Z ∧
  (p ∈ todo → Z.of_nat (publishes p h) ≤ pe_attempts pe)%Z ∧
  (p ∈ q_pending q ∨ delivered p h ∨ logged p (q_log q)).

Record q_inv (q : PublishRetryQueue) (h : list q_event)
    (rem : list (nat * option error)) (todo : list nat) : Prop := {
  qi_retries : (0 ≤ q_maxRetries q)%Z;
  qi_nodup : NoDup (q_pending q);
  qi_alloc p : p ∈ q_pending q ∨ p ∈ rem.*1 ∨ p ∈ todo ∨ publishes p h ≠ 0 →
    p < length (q_pes q);
  qi_size : (Z.of_nat (length (q_pending q)) ≤ q_maxSize q)%Z;
  qi_events p pe : q_pes q !! p = Some pe → event_inv q h rem todo p pe;
  qi_ok p : (p, None) ∈ rem → delivered p h;
  qi_phase : NoDup (rem.*1 ++ todo)
}.

Definition phase_rem (ph : worker_phase) : list (nat * option error) :=
  match ph with Waiting => [] | Publishing outcomes _ => outcomes end.
Definition phase_todo (ph : worker_phase) : list nat :=
  match ph with Waiting => [] | Publishing _ todo => todo end.

Definition qs_inv (s : q_sys B) : Prop :=
  q_inv (qs_q s) (qs_hist s) (phase_rem (qs_phase s)) (phase_todo (qs_phase s)).

Lemma publishes_snoc p h e :
  publishes p (h ++ [e]) = publishes p h + if is_publish p e then 1 else 0.
Proof.
  unfold publishes. rewrite filter_app, length_app. f_equal.
  unfold filter; simpl. by destruct (is_publish p e).
Qed.

Lemma delivered_snoc p h e : delivered p h → delivered p (h ++ [e]).
Proof. unfold delivered. set_solver. Qed.

Lemma logged_snoc p log l : logged p log → logged p (log ++ [l]).
Proof. intros (a & [?|(e & ?)]); exists a; [left | right; exists e]; set_solver. Qed.

(** What [Enqueue] does to the queue. *)
Lemma Enqueue_cases event q w q' w' :
  PublishRetryQueue_Enqueue event (q, w) = ((q', w'), Ret tt) →
  ∃ rest log', w' = tick w ∧
    q' = q_with (q_pes q ++ [mkPE event 0 (next_now w)]) (rest ++ [length (q_pes q)]) log' q ∧
    ((rest = q_pending q ∧ log' = q_log q ∧ (Z.of_nat (length rest) < q_maxSize q)%Z) ∨
     (∃ d, q_pending q = d :: rest ∧ log' = q_log q ++ [LogFull d (attempts_of q d)])).
Proof.
  unfold PublishRetryQueue_Enqueue, make_room, time_Now, q_append. go_unfold; simpl.
  destruct (Z.leb_spec (q_maxSize q) (Z.of_nat (length (q_pending q)))).
  - destruct (q_pending q) as [|d rest] eqn:Hp; [done |]. intros [= <- <-].
    eexists _, _. split_and!; [done | done |]. right. eauto.
  - intros [= <- <-]. eexists _, _. split_and!; [done | done |]. left. auto.
Qed.

(** The search and the removal, as an operation on the list. *)
Lemma index_from_Some i pe l idx :
  index_from i pe l = Some idx → ∃ k, idx = i + k ∧ l !! k = Some pe.
Proof.
  revert i; induction l as [|x l IH]; intros i; simpl; [done |].
  case_decide as Hx; [intros [= <-]; exists 0; subst; auto with lia |].
  intros (k & -> & ?)%IH. exists (S k). auto with lia.
Qed.

Lemma index_from_None i pe l : index_from i pe l = None → pe ∉ l.
Proof.
  revert i; induction l as [|x l IH]; intros i; simpl; [set_solver |].
  case_decide; [done |]. intros ?%IH. set_solver.
Qed.

Definition removed (p : nat) (l l' : list nat) : Prop :=
  NoDup l' ∧ length l' < length l ∧ ∀ x, x ∈ l' ↔ x ∈ l ∧ x ≠ p.

Lemma removed_middle p l1 l2 : NoDup (l1 ++ p :: l2) → removed p (l1 ++ p :: l2) (l1 ++ l2).
Proof.
  intros (H1 & Hd & [Hp2 H2]%NoDup_cons)%NoDup_app. unfold removed.
  rewrite !length_app; simpl. split_and!; [| lia |].
  - apply NoDup_app. split_and!; [done | | done]. intros x Hx Hx2. apply (Hd x Hx). by right.
  - intros x. rewrite !elem_of_app, elem_of_cons. split; [|tauto].
    intros Hx. split; [tauto |]. intros ->. destruct Hx as [Hx|Hx]; [|done].
    apply (Hd p Hx). by left.
Qed.

Lemma removeAt_removed q p idx :
  NoDup (q_pending q) → PublishRetryQueue_indexOf q p = Some idx →
  removed p (q_pending q) (take idx (q_pending q) ++ drop (S idx) (q_pending q)).
Proof.
  intros Hnd (k & -> & Hk)%index_from_Some. simpl in *.
  pose proof (take_drop_middle _ _ _ Hk) as E.
  remember (take k (q_pending q)) as l1. remember (drop (S k) (q_pending q)) as l2.
  rewrite <- E in Hnd |- *. by apply removed_middle.
Qed.

(** What the second loop does with one outcome. *)
Lemma settle_one_cases p err q w q' w' pe :
  NoDup (q_pending q) → q_pes q !! p = Some pe →
  settle_one p err (q, w) = ((q', w'), Ret tt) →
  ((p ∉ q_pending q) ∧ q' = q) ∨
  (p ∈ q_pending q ∧
   ((err = None ∧ ∃ l, removed p (q_pending q) l ∧ q' = q_with (q_pes q) l (q_log q) q) ∨
    (∃ e t, err = Some e ∧ (pe_attempts pe < q_maxRetries q)%Z ∧
       q' = q_with (<[p := mkPE (pe_event pe) (pe_attempts pe + 1) t]> (q_pes q))
              (q_pending q) (q_log q) q) ∨
    (∃ e l, err = Some e ∧ (q_maxRetries q ≤ pe_attempts pe)%Z ∧ removed p (q_pending q) l ∧
       q' = q_with (q_pes q) l (q_log q ++ [LogExhausted p (pe_attempts pe) e]) q))).
Proof.
  intros Hnd Hpe. unfold settle_one, time_Now. go_unfold; simpl.
  destruct (PublishRetryQueue_indexOf q p) as [idx|] eqn:Hi.
  - pose proof (removeAt_removed _ _ _ Hnd Hi) as Hr.
    apply index_from_Some in Hi as (k & _ & Hk). intros E. right.
    split; [by apply list_elem_of_lookup_2 in Hk |].
    destruct err as [e|]; [|left; injection E as <- <-; eauto].
    rewrite Hpe in E. right. destruct (Z.ltb_spec (pe_attempts pe) (q_maxRetries q)).
    + left. injection E as <- <-. eauto 10.
    + right. injection E as <- <-. eauto 10.
  - intros [= <- <-]. left. split; [by eapply index_from_None | done].
Qed.

Lemma publishes_other p h e : is_publish p e = false → publishes p (h ++ [e]) = publishes p h.
Proof. intros He. rewrite publishes_snoc, He. lia. Qed.

Lemma q_inv_enqueue event q w q' w' h rem todo :
  q_inv q h rem todo → PublishRetryQueue_Enqueue event (q, w) = ((q', w'), Ret tt) →
  q_inv q' (h ++ [QEnqueue (length (q_pes q)) event]) rem todo.
Proof.
  intros [Hr Hnd Hal Hsz Hev Hok Hph] (rest & log' & _ & -> & Hrest)%Enqueue_cases.
  assert (∀ x, x ∈ rest → x ∈ q_pending q) as Hsub.
  { destruct Hrest as [(-> & _)|(d & -> & _)]; [done | intros; by right]. }
  assert (length (q_pes q) ∉ rest) as Hfresh.
  { intros Hx%Hsub. specialize (Hal _ (or_introl Hx)). lia. }
  split; simpl; [done | | | | | intros p Hp; by apply delivered_snoc, Hok | done].
  - apply NoDup_app. split_and!; [|set_solver|apply NoDup_singleton].
    destruct Hrest as [(-> & _)|(d & Hd & _)]; [done |]. rewrite Hd in Hnd.
    by apply NoDup_cons in Hnd as [_ ?].
  - intros p Hp. rewrite length_app; simpl. rewrite publishes_other in Hp by done.
    destruct (decide (p = length (q_pes q))) as [->|Hne]; [lia |].
    enough (p < length (q_pes q)) by lia. apply Hal. set_solver.
  - rewrite length_app; simpl. destruct Hrest as [(-> & _ & ?)|(d & Hd & _)]; [lia |].
    rewrite Hd in Hsz. simpl in Hsz. lia.
  - intros p pe Hp. unfold event_inv; simpl. rewrite publishes_other by done.
    destruct (decide (p = length (q_pes q))) as [->|Hne].
    + rewrite lookup_app_r, Nat.sub_diag in Hp by done. injection Hp as <-. simpl.
      assert (publishes (length (q_pes q)) h = 0) as ->.
      { destruct (decide (publishes (length (q_pes q)) h = 0)) as [?|Hne]; [done |].
        specialize (Hal (length (q_pes q))). lia. }
      split_and!; [lia | lia | lia | intros; lia | intros; lia |]. left. set_solver.
    + assert (q_pes q !! p = Some pe) as Hp'.
      { apply lookup_app_Some in Hp as [?|[? Hp]]; [done |].
        apply list_lookup_singleton_Some in Hp as [? _]. lia. }
      destruct (Hev _ _ Hp') as (? & ? & H3 & H4 & H5). split; [done |]. split_and!; [done | | done |].
      * intros [Hx|Hx%list_elem_of_singleton]%elem_of_app; [|done]. auto.
      * destruct H5 as [Hx|[Hx|Hx]]; [|right; left; by apply delivered_snoc|].
        -- destruct Hrest as [(-> & _)|(d & Hd & ->)]; [left; set_solver |].
           rewrite Hd in Hx. apply elem_of_cons in Hx as [->|Hx]; [|left; set_solver].
           right; right. exists (attempts_of q d). left. set_solver.
        -- right; right. destruct Hrest as [(_ & -> & _)|(d & _ & ->)]; [done |].
           by apply logged_snoc.
Qed.

Lemma q_inv_tick q h rem todo : q_inv q h rem todo → q_inv q (h ++ [QTick]) rem todo.
Proof.
  intros [Hr Hnd Hal Hsz Hev Hok Hph]. split; try done.
  - intros p. rewrite publishes_other by done. apply Hal.
  - intros p pe (? & ? & ? & ? & H5)%Hev. unfold event_inv.
    rewrite publishes_other by done. split; [done |]. split_and!; [done.. |].
    destruct H5 as [?|[?|?]]; auto using delivered_snoc.
  - intros p Hp. by apply delivered_snoc, Hok.
Qed.

Lemma q_inv_collect q h now : q_inv q h [] [] → q_inv q h [] (q_due now q).
Proof.
  intros [Hr Hnd Hal Hsz Hev Hok Hph]. unfold q_due. split; try done; simpl.
  - intros p Hp. apply Hal. rewrite list_elem_of_filter in Hp. tauto.
  - intros p pe (? & ? & H3 & H4 & H5)%Hev. split; [done |]. split_and!; [done | done | | done].
    intros [_ Hp]%list_elem_of_filter. apply H3; [done | apply not_elem_of_nil].
  - by apply NoDup_filter.
Qed.

Lemma q_inv_publish q h rem p todo err :
  q_inv q h rem (p :: todo) →
  q_inv q (h ++ [QPublish p err]) (rem ++ [(p, err)]) todo.
Proof.
  intros [Hr Hnd Hal Hsz Hev Hok Hph].
  assert (p ∉ todo) as Hnt by by apply NoDup_app in Hph as (_ & _ & [? _]%NoDup_cons).
  split; try done.
  - intros x. rewrite publishes_snoc, fmap_app; simpl. intros Hx. apply Hal.
    case_bool_decide; set_solver by lia.
  - intros x pe Hx. destruct (Hev _ _ Hx) as (H1 & H2 & H3 & H4 & H5).
    unfold event_inv. rewrite publishes_snoc, fmap_app; simpl.
    case_bool_decide as Hxp.
    + subst x. split; [done |]. split_and!; [specialize (H4 ltac:(by left)); lia | | done |].
      * intros _ Hn. exfalso. apply Hn. set_solver.
      * destruct H5 as [?|[?|?]]; auto using delivered_snoc.
    + rewrite Nat.add_0_r. split; [done |]. split_and!; [done | | |].
      * intros Hp Hn. apply H3; [done | set_solver].
      * intros ?. apply H4. by right.
      * destruct H5 as [?|[?|?]]; auto using delivered_snoc.
  - intros x [Hx|Hx%list_elem_of_singleton]%elem_of_app; [by apply delivered_snoc, Hok |].
    injection Hx as -> <-. unfold delivered. set_solver.
  - rewrite fmap_app; simpl. by rewrite <- app_assoc.
Qed.

(** Removing [p] from the pending list, once it is accounted for. *)
Lemma q_inv_remove q h p err rem l log :
  q_inv q h ((p, err) :: rem) [] → removed p (q_pending q) l →
  (delivered p h ∨ logged p log) → (∀ x, logged x (q_log q) → logged x log) →
  q_inv (q_with (q_pes q) l log q) h rem [].
Proof.
  intros [Hr Hnd Hal Hsz Hev Hok Hph] (Hnl & Hlen & Hmem) Hacc Hlog. split; simpl.
  - done.
  - done.
  - intros x Hx. apply Hal. rewrite Hmem in Hx. set_solver.
  - lia.
  - intros x pe (? & ? & H3 & H4 & H5)%Hev. split; [done |]. simpl. split_and!; [done | | done |].
    + rewrite Hmem. intros [Hx Hne] Hn. apply H3; [done |]. set_solver.
    + rewrite Hmem. destruct (decide (x = p)) as [->|Hne]; [tauto |].
      destruct H5 as [?|[?|?]]; auto.
  - intros x Hx. apply Hok. by right.
  - by apply NoDup_cons in Hph as [_ ?].
Qed.

Lemma q_inv_settle_one p err q w q' w' h rem :
  q_inv q h ((p, err) :: rem) [] → settle_one p err (q, w) = ((q', w'), Ret tt) →
  q_inv q' h rem [].
Proof.
  intros Hinv E. pose proof Hinv as [Hr Hnd Hal Hsz Hev Hok Hph].
  assert (is_Some (q_pes q !! p)) as [pe Hpe].
  { apply lookup_lt_is_Some_2, Hal. right; left. by left. }
  destruct (settle_one_cases _ _ _ _ _ _ _ Hnd Hpe E)
    as [[Hp ->]|[Hp [(-> & l & Hl & ->)|[(e & t & -> & Hlt & ->)|(e & l & -> & Hge & Hl & ->)]]]].
  - split; try done.
    + intros x Hx. apply Hal. set_solver.
    + intros x pe' Hx. destruct (Hev _ _ Hx) as (? & ? & H3 & H4 & H5).
      split; [done |]. split_and!; [done | | done | done].
      intros Hxp Hn. apply H3; [done |]. set_solver.
    + intros x Hx. apply Hok. by right.
    + by apply NoDup_cons in Hph as [_ ?].
  - eapply q_inv_remove; [done | done | left; apply Hok; by left | done].
  - split; simpl; try done.
    + intros x Hx. rewrite length_insert. apply Hal. set_solver.
    + intros x pe' Hx. destruct (decide (x = p)) as [->|Hne].
      * rewrite list_lookup_insert_eq in Hx by by eapply lookup_lt_Some. injection Hx as <-.
        destruct (Hev _ _ Hpe) as (? & ? & _ & _ & ?). split; simpl; [lia |].
        split_and!; [lia | intros; lia | intros []%not_elem_of_nil | by left].
      * rewrite list_lookup_insert_ne in Hx by done.
        destruct (Hev _ _ Hx) as (? & ? & H3 & H4 & H5). split; [done |]. simpl.
        split_and!; [done | | done | done]. intros Hxp Hn. apply H3; [done |]. set_solver.
    + intros x Hx. apply Hok. by right.
    + by apply NoDup_cons in Hph as [_ ?].
  - eapply q_inv_remove; [done | done | |].
    + right. eexists. right. eexists. apply elem_of_app. right. by left.
    + intros x. apply logged_snoc.
Qed.

Lemma settle_one_returns p err s : ∃ s', settle_one p err s = (s', Ret tt).
Proof. unfold settle_one, time_Now. go_unfold. repeat case_match; simplify_eq; eauto. Qed.

Lemma settle_all_returns outcomes s : ∃ s', settle_all outcomes s = (s', Ret tt).
Proof.
  revert s; induction outcomes as [|[p err] outcomes IH]; intros s; simpl; [by eexists |].
  unfold mbind, GoM_bind. destruct (settle_one_returns p err s) as [s' ->]. apply IH.
Qed.

Lemma q_inv_settle_all outcomes q w q' w' h :
  q_inv q h outcomes [] → settle_all outcomes (q, w) = ((q', w'), Ret tt) → q_inv q' h [] [].
Proof.
  revert q w; induction outcomes as [|[p err] outcomes IH]; intros q w Hinv; simpl.
  - by intros [= <- <-].
  - unfold mbind, GoM_bind. destruct (settle_one_returns p err (q, w)) as [[q1 w1] E].
    rewrite E. apply IH. by eapply q_inv_settle_one.
Qed.

Lemma q_step_inv (s : q_sys B) ev s' : q_step s ev s' → qs_inv s → qs_inv s'.
Proof.
  intros Hstep Hinv. unfold qs_inv in *. destruct Hstep; simpl in *.
  - by eapply q_inv_enqueue.
  - by apply q_inv_tick, q_inv_collect.
  - by apply q_inv_publish.
  - apply q_inv_tick. by eapply q_inv_settle_all.
Qed.

(** A queue that has been created and not used yet, with any positive limits. *)
Definition fresh_queue (q : PublishRetryQueue) : Prop :=
  q_pes q = [] ∧ q_pending q = [] ∧ q_log q = [] ∧
  (0 ≤ q_maxRetries q)%Z ∧ (1 ≤ q_maxSize q)%Z.

Lemma qs_inv_init q b w :
  fresh_queue q → qs_inv (mkQSys q b w Waiting []).
Proof.
  intros (Hpes & Hp & Hl & Hr & Hs). split; simpl; rewrite ?Hp, ?Hpes; simpl; try done.
  - constructor.
  - intros p Hx. unfold publishes in Hx. simpl in Hx.
    destruct Hx as [[]%not_elem_of_nil|[[]%not_elem_of_nil|[[]%not_elem_of_nil|?]]]; lia.
  - lia.
  - intros p []%not_elem_of_nil.
  - constructor.
Qed.

End invariant.

(** ** What the invariant gives *)
Section reachable.
Context {B W : Type} {HB : EventBus B W}.

(** An enqueued event keeps its struct and its payload. *)
Definition enq_inv (s : q_sys B) : Prop :=
  ∀ p event, QEnqueue p event ∈ qs_hist s →
    ∃ pe, q_pes (qs_q s) !! p = Some pe ∧ pe_event pe = event.

Definition keeps_events (q q' : PublishRetryQueue) : Prop :=
  ∀ p pe, q_pes q !! p = Some pe → ∃ pe', q_pes q' !! p = Some pe' ∧ pe_event pe' = pe_event pe.

#[global] Instance keeps_events_preorder : PreOrder keeps_events.
Proof.
  split; [intros q p pe; eauto |]. intros q1 q2 q3 H1 H2 p pe Hp.
  destruct (H1 _ _ Hp) as (pe2 & Hp2 & E). destruct (H2 _ _ Hp2) as (pe3 & Hp3 & E3).
  exists pe3. split; [done | congruence].
Qed.

Lemma settle_one_keeps p err q w q' w' :
  settle_one p err (q, w) = ((q', w'), Ret tt) → keeps_events q q'.
Proof.
  unfold settle_one, time_Now. go_unfold; simpl.
  repeat case_match; intros; simplify_eq; try reflexivity; intros x pe Hx; simpl; eauto.
  destruct (decide (x = p)) as [->|Hne]; [|by rewrite list_lookup_insert_ne; eauto].
  rewrite list_lookup_insert_eq by by eapply lookup_lt_Some. eexists; split; [done |].
  simpl. congruence.
Qed.

Lemma settle_all_keeps outcomes q w q' w' :
  settle_all outcomes (q, w) = ((q', w'), Ret tt) → keeps_events q q'.
Proof.
  revert q w; induction outcomes as [|[p err] outcomes IH]; intros q w; simpl.
  - by intros [= <- <-].
  - unfold mbind, GoM_bind. destruct (settle_one_returns p err (q, w)) as [[q1 w1] E].
    rewrite E. intros ?%IH. transitivity q1; [by eapply settle_one_keeps | done].
Qed.

Lemma enq_inv_keeps (s s' : q_sys B) ev :
  enq_inv s → keeps_events (qs_q s) (qs_q s') → qs_hist s' = qs_hist s ++ [ev] →
  (∀ p event, ev = QEnqueue p event →
     ∃ pe, q_pes (qs_q s') !! p = Some pe ∧ pe_event pe = event) →
  enq_inv s'.
Proof.
  intros Hs Hk Hh Hev p event. rewrite Hh, elem_of_app, list_elem_of_singleton.
  intros [(pe & Hp & <-)%Hs|<-]; [by apply Hk | by apply Hev].
Qed.

Lemma enq_step (s : q_sys B) ev s' : q_step s ev s' → enq_inv s → enq_inv s'.
Proof.
  intros Hstep Hs. destruct Hstep as [q b w ph h event q' w' E| | |q b w outs h q' w' E];
    (eapply enq_inv_keeps; [exact Hs | simpl | done | simpl]); try done.
  - apply Enqueue_cases in E as (rest & log' & _ & -> & _). intros p pe Hp. simpl.
    exists pe. split; [by apply lookup_app_l_Some | done].
  - intros p event' [= <- <-]. apply Enqueue_cases in E as (rest & log' & _ & -> & _).
    simpl. eexists. rewrite lookup_app_r, Nat.sub_diag by done. done.
  - by eapply settle_all_keeps.
Qed.

Lemma reachable_inv q b w tr (s : q_sys B) :
  fresh_queue q → trace q_step (mkQSys q b w Waiting []) tr s → qs_inv s ∧ enq_inv s.
Proof.
  intros Hf Htr. split.
  - eapply (trace_inv q_step qs_inv); [apply q_step_inv | done | by apply qs_inv_init].
  - eapply (trace_inv q_step enq_inv); [apply enq_step | done |].
    intros p event []%not_elem_of_nil.
Qed.

(** The limits are set when the queue is made. *)
Definition same_limits (q q' : PublishRetryQueue) : Prop :=
  q_maxSize q' = q_maxSize q ∧ q_maxRetries q' = q_maxRetries q ∧
  q_baseBackoff q' = q_baseBackoff q.

Lemma settle_all_limits outcomes q w q' w' :
  settle_all outcomes (q, w) = ((q', w'), Ret tt) → same_limits q q'.
Proof.
  revert q w; induction outcomes as [|[p err] outcomes IH]; intros q w; simpl.
  - by intros [= <- <-].
  - unfold mbind, GoM_bind. destruct (settle_one_returns p err (q, w)) as [[q1 w1] E].
    rewrite E. intros (? & ? & ?)%IH. revert E. unfold settle_one, time_Now. go_unfold; simpl.
    repeat case_match; intros; simplify_eq; simpl in *; done.
Qed.

Lemma reachable_limits (s : q_sys B) tr s' :
  trace q_step s tr s' → same_limits (qs_q s) (qs_q s').
Proof.
  intros Htr. apply (trace_inv q_step (λ x, same_limits (qs_q s) (qs_q x))) in Htr;
    [done | | done].
  intros x e x' Hstep (? & ? & ?). destruct Hstep as [q b w ph h event q' w' E| | |q b w o h q' w' E];
    simpl in *; try done.
  - apply Enqueue_cases in E as (rest & log' & _ & -> & _). done.
  - apply settle_all_limits in E as (? & ? & ?). repeat split; congruence.
Qed.

(** (C3) The queue is bounded and loses nothing silently.  However [Enqueue] and
    the worker interleave and whatever the bus answers, at most [maxSize] events
    wait, an event is handed to the bus at most [maxRetries + 1] times, and every
    event that was enqueued is still pending with its payload, was accepted by the
    bus, or is named by a CRITICAL log line. *)
Theorem retry_queue_accounts_for_events q b w tr (s : q_sys B) :
  fresh_queue q → trace q_step (mkQSys q b w Waiting []) tr s →
  (Z.of_nat (PublishRetryQueue_PendingCount (qs_q s)) ≤ q_maxSize q)%Z ∧
  ∀ p event, QEnqueue p event ∈ qs_hist s →
    (Z.of_nat (publishes p (qs_hist s)) ≤ q_maxRetries q + 1)%Z ∧
    ((p ∈ q_pending (qs_q s) ∧ ∃ pe, q_pes (qs_q s) !! p = Some pe ∧ pe_event pe = event) ∨
     delivered p (qs_hist s) ∨ logged p (q_log (qs_q s))).
Proof.
  intros Hf Htr. destruct (reachable_inv _ _ _ _ _ Hf Htr) as [Hi He].
  destruct (reachable_limits _ _ _ Htr) as (Hms & Hmr & _). simpl in *.
  destruct Hi as [_ _ _ Hsz Hev _ _]. rewrite <- Hms. split; [exact Hsz |].
  intros p event (pe & Hp & <-)%He. destruct (Hev _ _ Hp) as (? & ? & _ & _ & Hacc).
  split; [lia |]. destruct Hacc as [?|?]; [left; split; eauto | by right].
Qed.

(** The system never blocks: from every reachable state [Enqueue] returns for
    every event, and the worker has a step: it can start a pass, publish the next
    due event, or record the outcomes. *)
Theorem retry_queue_progress q b w tr (s : q_sys B) :
  fresh_queue q → trace q_step (mkQSys q b w Waiting []) tr s →
  (∀ event, ∃ s', q_step s (QEnqueue (length (q_pes (qs_q s))) event) s') ∧
  (∃ ev s', q_step s ev s' ∧ ∀ p event, ev ≠ QEnqueue p event).
Proof.
  intros Hf Htr. destruct (reachable_inv _ _ _ _ _ Hf Htr) as [Hi _].
  destruct (reachable_limits _ _ _ Htr) as (Hms & _ & _). simpl in *.
  destruct Hf as (_ & _ & _ & _ & Hpos). rewrite <- Hms in Hpos.
  destruct s as [qc bc wc ph h]. unfold qs_inv in Hi; simpl in *. split.
  - intros event. destruct (PublishRetryQueue_Enqueue event (qc, wc)) as [[q' w'] o] eqn:E.
    pose proof E as E'. unfold PublishRetryQueue_Enqueue, make_room, time_Now, q_append in E'.
    go_unfold; simpl in *.
    destruct (Z.leb_spec (q_maxSize qc) (Z.of_nat (length (q_pending qc)))), (q_pending qc);
      simplify_eq/=; try lia; eexists; by eapply qstep_enqueue.
  - destruct ph as [|outs [|p todo]].
    + exists QTick. eexists. split; [apply qstep_collect | done].
    + destruct (settle_all_returns outs (qc, wc)) as [[q' w'] E].
      exists QTick. eexists. split; [by eapply qstep_settle | done].
    + assert (is_Some (q_pes qc !! p)) as [pe Hpe].
      { apply lookup_lt_is_Some_2, (qi_alloc _ _ _ _ Hi). do 2 right. left. by left. }
      destruct (EventBus_Publish Background (pe_event pe) bc) as [b' err] eqn:Eb.
      exists (QPublish p err). eexists. split; [by eapply qstep_publish | done].
Qed.

End reachable.

(** ** One pass of the worker, and the backoff *)

(** The outcome recorded for [p]; [None] when [p] was not published. *)
Fixpoint outcome_of (outcomes : list (nat * option error)) (p : nat) : option (option error) :=
  match outcomes with
  | [] => None
  | (x, err) :: outcomes => if decide (x = p) then Some err else outcome_of outcomes p
  end.

(** What a pass makes of one pending event: gone after a success or a last
    failure, otherwise kept, with one more attempt after a failure. *)
Definition stays (q : PublishRetryQueue) (res : option (option error)) (p : nat) : bool :=
  match res with
  | None => true
  | Some None => false
  | Some (Some _) => (attempts_of q p <? q_maxRetries q)%Z
  end.

(** The struct of an event with this outcome, when the pass began in [w]. *)
Definition bumped (q : PublishRetryQueue) (w : world) (res : option (option error))
    (pe pe' : pendingEvent) : Prop :=
  match res with
  | Some (Some _) =>
      if (pe_attempts pe <? q_maxRetries q)%Z then
        ∃ i, w_pos w ≤ i ∧
          pe' = mkPE (pe_event pe) (pe_attempts pe + 1)
                  (w_clock w i + PublishRetryQueue_backoff q (pe_attempts pe + 1))
      else pe' = pe
  | _ => pe' = pe
  end.

Section one_pass.
Context {B W : Type} {HB : EventBus B W}.

Lemma filter_ne_notin (p : nat) (l : list nat) : p ∉ l → filter (λ x, x ≠ p) l = l.
Proof.
  induction l as [|x l IH]; intros Hp; [done |].
  rewrite filter_cons_True by set_solver. rewrite IH; set_solver.
Qed.

Lemma index_from_filter i p l k :
  NoDup l → index_from i p l = Some k →
  take (k - i) l ++ drop (S (k - i)) l = filter (λ x, x ≠ p) l ∧ i ≤ k.
Proof.
  revert i k; induction l as [|x l IH]; intros i k Hnd; simpl; [done |].
  apply NoDup_cons in Hnd as [Hx Hnd]. rewrite filter_cons.
  case_decide as Hxp; subst.
  - intros [= <-]. rewrite Nat.sub_diag. simpl. split; [|done].
    rewrite decide_False by tauto. rewrite drop_0. symmetry. by apply filter_ne_notin.
  - intros Hk. destruct (IH _ _ Hnd Hk) as [E Hle]. split; [|lia].
    replace (k - i) with (S (k - S i)) by lia. simpl. rewrite decide_True by done.
    f_equal. exact E.
Qed.

Lemma removeAt_filter q p idx :
  NoDup (q_pending q) → PublishRetryQueue_indexOf q p = Some idx →
  q_pending (PublishRetryQueue_removeAt idx q) = filter (λ x, x ≠ p) (q_pending q).
Proof.
  intros Hnd Hi. destruct (index_from_filter _ _ _ _ Hnd Hi) as [E _].
  rewrite Nat.sub_0_r in E. exact E.
Qed.

Lemma filter_true (P : nat → Prop) `{!∀ x, Decision (P x)} (l : list nat) :
  (∀ x, x ∈ l → P x) → filter P l = l.
Proof.
  induction l as [|x l IH]; intros HP; [done |].
  rewrite filter_cons_True by (apply HP; by left). rewrite IH; [done |].
  intros y Hy. apply HP. by right.
Qed.

Lemma settle_one_spec p err q w pe :
  NoDup (q_pending q) → p ∈ q_pending q → q_pes q !! p = Some pe →
  ∃ q' w' pe', settle_one p err (q, w) = ((q', w'), Ret tt) ∧
    q_pending q' = filter (λ x, x ≠ p ∨ stays q (Some err) x = true) (q_pending q) ∧
    q_pes q' = <[p := pe']> (q_pes q) ∧ bumped q w (Some err) pe pe' ∧
    same_limits q q' ∧ w_clock w' = w_clock w ∧ w_pos w ≤ w_pos w'.
Proof.
  intros Hnd Hp Hpe. unfold settle_one, time_Now. go_unfold; simpl.
  destruct (PublishRetryQueue_indexOf q p) as [idx|] eqn:Hi;
    [|by apply index_from_None in Hi].
  pose proof (removeAt_filter _ _ _ Hnd Hi) as Hr.
  assert (attempts_of q p = pe_attempts pe) as Ha by (unfold attempts_of; by rewrite Hpe).
  destruct err as [e|]; [rewrite Hpe; destruct (Z.ltb_spec (pe_attempts pe) (q_maxRetries q)) |];
    eexists _, _, _; (split; [reflexivity |]); simpl.
  - split_and!; [| reflexivity | by exists (w_pos w) | done | done | lia].
    symmetry. apply filter_true. intros x _. destruct (decide (x = p)) as [->|?]; [|by left].
    right. apply Z.ltb_lt. lia.
  - split_and!; [| symmetry; by apply list_insert_id | done | done | done | done].
    unfold PublishRetryQueue_removeAt in Hr. simpl in *. rewrite Hr. apply list_filter_iff.
    intros x. split; [by left |]. intros [?|Hx%Z.ltb_lt]; [done |]. intros ->. lia.
  - split_and!; [| symmetry; by apply list_insert_id | done | done | done | done].
    simpl in Hr. rewrite Hr. apply list_filter_iff. naive_solver.
Qed.

(** Settling one event leaves the fate of the others as it was. *)
Lemma stays_other q q' p pe' res x :
  same_limits q q' → q_pes q' = <[p := pe']> (q_pes q) → x ≠ p → stays q' res x = stays q res x.
Proof.
  intros (_ & Hm & _) Hq Hx. unfold stays, attempts_of. rewrite Hm, Hq, list_lookup_insert_ne by done.
  done.
Qed.

Lemma bumped_later q q' w w' res pe pe' :
  same_limits q q' → w_clock w' = w_clock w → w_pos w ≤ w_pos w' →
  bumped q' w' res pe pe' → bumped q w res pe pe'.
Proof.
  intros (_ & Hm & Hb) Hc Hpos. unfold bumped, PublishRetryQueue_backoff. rewrite Hm, Hb, Hc.
  destruct res as [[e|]|]; [|done..]. case_match; [|done].
  intros (i & Hi & ->). exists i. split; [lia | done].
Qed.

Lemma outcome_of_notin outs p : p ∉ outs.*1 → outcome_of outs p = None.
Proof.
  induction outs as [|[x e] outs IH]; simpl; intros Hp; [done |].
  rewrite decide_False by set_solver. apply IH. set_solver.
Qed.

Lemma settle_all_spec outs q w :
  NoDup (q_pending q) → (∀ p, p ∈ q_pending q → p < length (q_pes q)) →
  NoDup outs.*1 → (∀ p, p ∈ outs.*1 → p ∈ q_pending q) →
  ∃ q' w', settle_all outs (q, w) = ((q', w'), Ret tt) ∧
    q_pending q' = filter (λ p, stays q (outcome_of outs p) p = true) (q_pending q) ∧
    (∀ p pe, q_pes q !! p = Some pe →
       ∃ pe', q_pes q' !! p = Some pe' ∧ bumped q w (outcome_of outs p) pe pe').
Proof.
  revert q w; induction outs as [|[p err] outs IH]; intros q w Hnd Hal Hno Hin.
  - exists q, w. split_and!; [done | | intros p pe Hp; by exists pe]. symmetry. by apply filter_true.
  - apply NoDup_cons in Hno as [Hp Hno].
    assert (p ∈ q_pending q) as Hpp by (apply Hin; by left).
    destruct (lookup_lt_is_Some_2 _ _ (Hal _ Hpp)) as [pe Hpe].
    destruct (settle_one_spec p err q w pe Hnd Hpp Hpe)
      as (q1 & w1 & pe1 & E1 & Hf1 & Hpes1 & Hb1 & Hl1 & Hc1 & Hw1).
    destruct (IH q1 w1) as (q2 & w2 & E2 & Hf2 & Hb2).
    + rewrite Hf1. by apply NoDup_filter.
    + intros x. rewrite Hf1, list_elem_of_filter, Hpes1, length_insert. naive_solver.
    + done.
    + intros x Hx. rewrite Hf1, list_elem_of_filter. split; [left | apply Hin; by right].
      by intros ->.
    + exists q2, w2. split_and!.
      * simpl. unfold mbind, GoM_bind. by rewrite E1.
      * rewrite Hf2, Hf1, list_filter_filter. apply list_filter_iff. intros x. simpl.
        destruct (decide (p = x)) as [<-|Hne].
        -- rewrite outcome_of_notin by done. simpl. naive_solver.
        -- rewrite (stays_other q q1 p pe1) by done. naive_solver.
      * intros x pe0 Hx. simpl. destruct (decide (p = x)) as [<-|Hne].
        -- simplify_eq. destruct (Hb2 p pe1) as (pe2 & ? & Hpe2).
           { rewrite Hpes1. apply list_lookup_insert_eq. by eapply lookup_lt_Some. }
           rewrite outcome_of_notin in Hpe2 by done. simpl in Hpe2. subst. eauto.
        -- destruct (Hb2 x pe0) as (pe2 & ? & Hpe2).
           { by rewrite Hpes1, list_lookup_insert_ne. }
           exists pe2. split; [done |]. by eapply bumped_later.
Qed.

Lemma publish_all_fst ctx q due (b : B) :
  (∀ p, p ∈ due → p < length (q_pes q)) → (publish_all ctx q due b).2.*1 = due.
Proof.
  revert b; induction due as [|p due IH]; intros b Hal; simpl; [done |].
  destruct (lookup_lt_is_Some_2 _ _ (Hal p ltac:(by left))) as [pe ->].
  destruct (EventBus_Publish ctx (pe_event pe) b) as [b1 err].
  specialize (IH b1 ltac:(intros; apply Hal; by right)).
  destruct (publish_all ctx q due b1) as [b2 outs]. simpl in *. f_equal. exact IH.
Qed.

(** The early return when nothing is due changes nothing. *)
Lemma retryDue_unfold ctx q (b : B) w :
  PublishRetryQueue_retryDue ctx ((q, b), w) =
  let '(b', outcomes) := publish_all ctx q (q_due (next_now w) q) b in
  let '((q', w'), o) := settle_all outcomes (q, tick w) in (((q', b'), w'), o).
Proof. unfold PublishRetryQueue_retryDue. by destruct (q_due (next_now w) q). Qed.

(** (C20) What an undisturbed pass of [retryDue] does: it publishes exactly the due
    events, in queue order, and returns; an event that was accepted, or that failed
    with no retry left, leaves the queue and the others keep their order; a failed
    event with retries left has one attempt more and is rescheduled by the backoff
    after a clock reading of this pass; an event that was not due is untouched. *)
Theorem retry_pass_spec ctx q (b : B) w :
  NoDup (q_pending q) → (∀ p, p ∈ q_pending q → p < length (q_pes q)) →
  let outs := (publish_all ctx q (q_due (next_now w) q) b).2 in
  outs.*1 = q_due (next_now w) q ∧
  ∃ q' b' w', PublishRetryQueue_retryDue ctx ((q, b), w) = (((q', b'), w'), Ret tt) ∧
    q_pending q' = filter (λ p, stays q (outcome_of outs p) p = true) (q_pending q) ∧
    (∀ p pe, q_pes q !! p = Some pe →
       ∃ pe', q_pes q' !! p = Some pe' ∧ bumped q w (outcome_of outs p) pe pe').
Proof.
  intros Hnd Hal outs.
  assert (outs.*1 = q_due (next_now w) q) as Ho.
  { apply publish_all_fst. intros p [_ ?]%list_elem_of_filter. auto. }
  split; [done |].
  destruct (settle_all_spec outs q (tick w)) as (q' & w' & E & Hf & Hb); [done | done | | |].
  - rewrite Ho. by apply NoDup_filter.
  - intros p. rewrite Ho. by intros [_ ?]%list_elem_of_filter.
  - assert (∀ p pe, q_pes q !! p = Some pe →
      ∃ pe', q_pes q' !! p = Some pe' ∧ bumped q w (outcome_of outs p) pe pe') as Hb'.
    { intros p pe Hp. destruct (Hb p pe Hp) as (pe' & ? & ?). exists pe'. split; [done |].
      apply (bumped_later q q w (tick w)); [done | done | simpl; lia | done]. }
    rewrite retryDue_unfold. subst outs.
    destruct (publish_all ctx q (q_due (next_now w) q) b) as [b' outs']. cbn [snd] in *.
    rewrite E. eauto 10.
Qed.

End one_pass.

(** The backoff before the [n]-th retry is [baseBackoff * 2^(n-1)] as long as
    that is a [time.Duration]; the default queue, which counts at most five failed
    attempts, waits 1, 2, 4, 8 and 16 seconds and is never near overflow. *)
Theorem backoff_schedule q attempts :
  (1 ≤ attempts)%Z → (0 < q_baseBackoff q)%Z →
  (q_baseBackoff q * 2 ^ (attempts - 1) ≤ max_int64)%Z →
  PublishRetryQueue_backoff q attempts = (q_baseBackoff q * 2 ^ (attempts - 1))%Z ∧
  (λ n, PublishRetryQueue_backoff NewPublishRetryQueue n / defaultBaseBackoff)%Z
    <$> [1; 2; 3; 4; 5]%Z = [1; 2; 4; 8; 16]%Z.
Proof.
  intros Ha Hb Hfit. split; [|reflexivity].
  assert (2 ^ (attempts - 1) ≤ max_int64)%Z as Hp by nia.
  assert (attempts - 1 < 63)%Z as Hlt.
  { destruct (Z.lt_ge_cases (attempts - 1) 63) as [?|Hge]; [done |].
    apply (Z.pow_le_mono_r 2) in Hge; [|lia]. unfold max_int64 in Hp. lia. }
  unfold PublishRetryQueue_backoff, shl64, uint64_of. rewrite Z.mod_small by lia.
  rewrite (proj2 (Z.leb_gt _ _)) by lia. rewrite Z.shiftl_mul_pow2 by lia.
  assert (0 < 2 ^ (attempts - 1))%Z by (apply Z.pow_pos_nonneg; lia).
  rewrite Z.mul_1_l, (wrap64_id (2 ^ _)) by (unfold int64_range, min_int64; lia).
  apply wrap64_id. unfold int64_range, min_int64. nia.
Qed.

Lemma backoff_schedule_witness :
  PublishRetryQueue_backoff NewPublishRetryQueue 5 = 16000000000%Z.
Proof.
  apply (backoff_schedule NewPublishRetryQueue 5); by vm_compute.
Defined.

(** ** Concrete runs

    A bus that gives the listed answers, one per publish, then accepts. *)
Definition scriptedBus : Type := list (option error).

#[global] Instance scriptedBus_EventBus : EventBus scriptedBus unit := {
  EventBus_Publish ctx event b :=
    match b with [] => ([], None) | err :: b => (b, err) end;
  EventBus_Subscribe h b := (b, None)
}.

Definition queue_world : world := mkWorld heap_empty Z.of_nat 0.
Definition ban_acme : TenantEvent := mkEvent "acme" Banned 7.
Definition ban_beta : TenantEvent := mkEvent "beta" Banned 8.

(** A queue with room for [n] events and otherwise the default policy. *)
Definition sized_queue (n : Z) : PublishRetryQueue :=
  mkQ [] [] defaultMaxRetries n defaultBaseBackoff [].

Lemma sized_queue_fresh n : (1 ≤ n)%Z → fresh_queue (sized_queue n).
Proof. intros ?. unfold fresh_queue, sized_queue, defaultMaxRetries; simpl. split_and!; (done || lia). Qed.

(** The queue holds one event; it comes due, and while it is being published a
    second event is enqueued, which drops the first; then the bus accepts it. *)
Definition overtaken : q_sys scriptedBus :=
  mkQSys (mkQ [mkPE ban_acme 0 0; mkPE ban_beta 0 2] [1] 5 1 defaultBaseBackoff [LogFull 0 0])
    [] (mkWorld heap_empty Z.of_nat 3) Waiting
    [QEnqueue 0 ban_acme; QTick; QEnqueue 1 ban_beta; QPublish 0 None; QTick].

Lemma overtaken_reachable :
  trace q_step (mkQSys (sized_queue 1) ([] : scriptedBus) queue_world Waiting [])
    [QEnqueue 0 ban_acme; QTick; QEnqueue 1 ban_beta; QPublish 0 None; QTick] overtaken.
Proof.
  eapply trace_cons; [by eapply (qstep_enqueue (sized_queue 1)) |].
  eapply trace_cons; [apply qstep_collect |]. simpl.
  eapply trace_cons; [by eapply qstep_enqueue |].
  eapply trace_cons; [by eapply (qstep_publish _ _ _ _ _ _ _ _ Background) |].
  eapply trace_cons; [by eapply qstep_settle |]. apply trace_nil.
Qed.

Lemma retry_queue_accounts_for_events_witness :
  (Z.of_nat (PublishRetryQueue_PendingCount (qs_q overtaken)) ≤ 1)%Z.
Proof.
  apply (retry_queue_accounts_for_events (sized_queue 1) ([] : scriptedBus) queue_world _ overtaken
    (sized_queue_fresh 1 ltac:(lia)) overtaken_reachable).
Defined.

Lemma retry_queue_progress_witness :
  ∃ ev s', q_step overtaken ev s' ∧ ∀ p event, ev ≠ QEnqueue p event.
Proof.
  apply (retry_queue_progress (sized_queue 1) ([] : scriptedBus) queue_world _ overtaken
    (sized_queue_fresh 1 ltac:(lia)) overtaken_reachable).
Defined.

(** One event fails and is rescheduled, the other is accepted and leaves. *)
Definition two_pending : PublishRetryQueue :=
  mkQ [mkPE ban_acme 1 0; mkPE ban_beta 0 0] [0; 1] 5 10 defaultBaseBackoff [].

Lemma retry_pass_spec_witness :
  ∃ q' b' w', PublishRetryQueue_retryDue Background
      ((two_pending, [Some (errorf "down"); None] : scriptedBus), queue_world) =
      (((q', b'), w'), Ret tt) ∧ q_pending q' = [0].
Proof.
  destruct (retry_pass_spec Background two_pending [Some (errorf "down"); None] queue_world)
    as [_ (q' & b' & w' & E & Hp & _)].
  - apply (bool_decide_unpack _). reflexivity.
  - intros p. simpl. rewrite !elem_of_cons, elem_of_nil. lia.
  - exists q', b', w'. split; [exact E | exact Hp].
Defined.

(** An event can leave its place while the worker publishes it: with a full
    queue, [Enqueue] during the publish drops the very event that is being
    published, so an event the bus accepts is also reported by a CRITICAL line as
    lost, and [indexOf] does return -1. *)
Theorem due_event_can_be_dropped_while_published :
  ∃ tr (s : q_sys scriptedBus) p,
    trace q_step (mkQSys (sized_queue 1) ([] : scriptedBus) queue_world Waiting []) tr s ∧
    delivered p (qs_hist s) ∧ logged p (q_log (qs_q s)) ∧
    PublishRetryQueue_indexOf (qs_q s) p = None.
Proof.
  eexists _, overtaken, 0. split; [exact overtaken_reachable |].
  unfold delivered, logged. simpl. split_and!; [set_solver | | done].
  exists 0%Z. left. by left.
Qed.

(** ** The worker goroutine: [Start], [run] and [Stop]

    [run] waits in [select] for the context, [stopCh] or a tick; a tick runs
    [retryDue].  It closes [doneCh] when it returns.  A call of [Stop] closes
    [stopCh] (which panics when it is closed already) and waits for [doneCh]. *)
Inductive run_phase : Type := NotStarted | Selecting | Retrying | Returned.

Record worker := mkWorker {
  wk_phase : run_phase;
  wk_stopCh : bool;
  wk_doneCh : bool;
  wk_ctxDone : bool;
  wk_stopping : nat
}.

Definition NewWorker : worker := mkWorker NotStarted false false false 0.

Inductive wk_event : Type :=
| WStart | WCancel | WStop | WStopPanics | WStopReturns | WTick | WRetried | WReturn.

Inductive wk_step : worker → wk_event → worker → Prop :=
| wk_start sc dc cd n :
    wk_step (mkWorker NotStarted sc dc cd n) WStart (mkWorker Selecting sc dc cd n)
| wk_cancel ph sc dc cd n :
    wk_step (mkWorker ph sc dc cd n) WCancel (mkWorker ph sc dc true n)
| wk_stop ph dc cd n :
    wk_step (mkWorker ph false dc cd n) WStop (mkWorker ph true dc cd (S n))
| wk_stop_panics ph dc cd n :
    wk_step (mkWorker ph true dc cd n) WStopPanics (mkWorker ph true dc cd n)
| wk_stop_returns ph sc cd n :
    wk_step (mkWorker ph sc true cd (S n)) WStopReturns (mkWorker ph sc true cd n)
| wk_tick sc dc cd n :
    wk_step (mkWorker Selecting sc dc cd n) WTick (mkWorker Retrying sc dc cd n)
| wk_retried sc dc cd n :
    wk_step (mkWorker Retrying sc dc cd n) WRetried (mkWorker Selecting sc dc cd n)
| wk_return sc dc cd n :
    cd = true ∨ sc = true →
    wk_step (mkWorker Selecting sc dc cd n) WReturn (mkWorker Returned sc true cd n).

(** [doneCh] is closed exactly when the worker has returned, and somebody waits in
    [Stop] only after [stopCh] was closed. *)
Definition wk_inv (w : worker) : Prop :=
  (wk_doneCh w = true ↔ wk_phase w = Returned) ∧ (0 < wk_stopping w → wk_stopCh w = true) ∧
  wk_stopping w ≤ 1.

Lemma wk_step_inv w ev w' : wk_step w ev w' → wk_inv w → wk_inv w'.
Proof.
  intros Hstep (H1 & H2 & H3). destruct Hstep; unfold wk_inv in *; simpl in *;
    split_and!; try naive_solver lia.
Qed.

Definition is_work (ev : wk_event) : Prop := ev = WTick ∨ ev = WRetried ∨ ev = WStart.

Lemma returned_step w ev w' :
  wk_step w ev w' → wk_phase w = Returned → wk_phase w' = Returned ∧ ¬ is_work ev.
Proof. unfold is_work. intros Hstep Hp. destruct Hstep; simpl in *; try done; naive_solver. Qed.

Lemma returned_trace w tr w' :
  trace wk_step w tr w' → wk_phase w = Returned → ∀ ev, ev ∈ tr → ¬ is_work ev.
Proof.
  induction 1 as [w|w ev w1 tr w2 Hstep _ IH]; intros Hp ev'; [by intros ?%not_elem_of_nil |].
  destruct (returned_step _ _ _ Hstep Hp) as [Hp1 Hev].
  intros [->|Hin]%elem_of_cons; [done | by apply IH].
Qed.

(** (C32) [Stop] stops: when a call of [Stop] has returned, the worker has returned
    and never publishes again, also when a tick, the context's cancellation and
    [Stop] race; and a call that waits on a started worker can always return, after
    at most the pass in progress. *)
Theorem stop_waits_for_the_worker tr w :
  trace wk_step NewWorker tr w →
  (∀ tr1 tr2, tr = tr1 ++ WStopReturns :: tr2 → wk_phase w = Returned ∧ ∀ ev, ev ∈ tr2 → ¬ is_work ev) ∧
  (0 < wk_stopping w → wk_phase w ≠ NotStarted →
     ∃ tr' w', trace wk_step w (tr' ++ [WStopReturns]) w' ∧ length tr' ≤ 2).
Proof.
  intros Htr. assert (wk_inv NewWorker) as Hinit by (split_and!; simpl; naive_solver lia).
  split.
  - intros tr1 tr2 ->.
    apply trace_split in Htr as (w1 & Htr1 & Htr2).
    inversion Htr2 as [|? ? w2 ? ? Hs Hrest]; subst.
    destruct (trace_inv _ _ wk_step_inv _ _ _ Htr1 Hinit) as (Hd & _).
    assert (wk_phase w2 = Returned) as Hw2 by (inversion Hs; subst; simpl in *; naive_solver).
    split; [|by eapply returned_trace].
    apply (trace_inv wk_step (λ w, wk_phase w = Returned)) in Hrest; [done | | done].
    intros a e a' Ha Hp. by eapply returned_step.
  - intros Hn Hp. destruct (trace_inv _ _ wk_step_inv _ _ _ Htr Hinit) as (Hd & Hsc & _).
    destruct w as [ph sc dc cd [|n]]; simpl in *; [lia |]. rewrite (Hsc Hn) in *. clear Hsc Hn Htr.
    destruct ph; [done | | |].
    + eexists [WReturn], _. split; [|simpl; lia]. simpl.
      eapply trace_cons; [apply wk_return; by right |].
      eapply trace_cons; [apply wk_stop_returns | apply trace_nil].
    + eexists [WRetried; WReturn], _. split; [|simpl; lia]. simpl.
      eapply trace_cons; [apply wk_retried |].
      eapply trace_cons; [apply wk_return; by right |].
      eapply trace_cons; [apply wk_stop_returns | apply trace_nil].
    + rewrite (proj2 Hd eq_refl). eexists [], _. split; [|simpl; lia]. simpl.
      eapply trace_cons; [apply wk_stop_returns | apply trace_nil].
Qed.

(** [Stop] arrives during a pass. *)
Lemma stop_waits_for_the_worker_witness :
  ∃ tr' w', trace wk_step (mkWorker Retrying true false false 1) (tr' ++ [WStopReturns]) w' ∧
    length tr' ≤ 2.
Proof.
  apply (stop_waits_for_the_worker [WStart; WTick; WStop] (mkWorker Retrying true false false 1)).
  - eapply trace_cons; [apply wk_start |]. eapply trace_cons; [apply wk_tick |].
    eapply trace_cons; [apply wk_stop |]. apply trace_nil.
  - simpl. lia.
  - discriminate.
Defined.
