(* ===== verification/RetryTiming.v ===== *)
(** * [PublishRetryQueue] in real time

    [RetryQueue] lets the worker's ticks come at any moment.  Here the worker selects on
    a [time.Ticker] with the period [tickInterval], and time passes between the steps of
    [q_step].  Two assumptions bound the surroundings: the goroutine takes a tick that is
    ready within [latency], and the publishes of one pass take [pass_time] together.
    Every clock reading of a step is the moment at which the step happens.  What follows
    is a deadline for every event. *)
From S2P Require Import Prelude GoStrings GoLib Tenant EventBus RetryQueue.
Set Default Goal Selector "!".

Definition tickInterval : Z := 200000000.

(** A [time.Ticker]: when it fires next, and whether its channel, which has room for one
    tick, is full.  A tick that finds it full is dropped. *)
Record Ticker := mkTicker { tk_next : Z; tk_C : bool }.

Definition NewTicker (now : Z) : Ticker := mkTicker (now + tickInterval) false.
Definition Ticker_fire (tk : Ticker) : Ticker := mkTicker (tk_next tk + tickInterval) true.
Definition Ticker_receive (tk : Ticker) : Ticker := mkTicker (tk_next tk) false.

(** The sum of the first [n] backoffs. *)
Fixpoint retry_span (q : PublishRetryQueue) (n : nat) : Z :=
  match n with
  | 0 => 0
  | S n => (retry_span q n + PublishRetryQueue_backoff q (Z.of_nat (S n)))%Z
  end.

Section timing.
Context {B W : Type} {HB : EventBus B W}.
Context (latency pass_time : Z).

(** [ts_begin] is when the last pass began, [ts_ready] since when the tick in the channel
    can be received, and [ts_enq] when each event was enqueued. *)
Record t_sys := mkT {
  ts_sys : q_sys B;
  ts_now : Z;
  ts_ticker : Ticker;
  ts_begin : Z;
  ts_ready : Z;
  ts_enq : list Z
}.

Definition at_time (now : Z) (s : q_sys B) : q_sys B :=
  mkQSys (qs_q s) (qs_bus s) (mkWorld (w_heap (qs_w s)) (λ _, now) (w_pos (qs_w s)))
    (qs_phase s) (qs_hist s).

Inductive t_event : Type :=
| TEnqueue (p : nat) (event : TenantEvent)
| TFire
| TReceive
| TPublish (p : nat) (err : option error)
| TSettle
| TDelay (d : Z).

Inductive t_step : t_sys → t_event → t_sys → Prop :=
| t_enqueue s s' now tk bg rd enq p event :
    q_step (at_time now s) (QEnqueue p event) s' →
    t_step (mkT s now tk bg rd enq) (TEnqueue p event) (mkT s' now tk bg rd (enq ++ [now]))
| t_fire s now tk bg rd enq :
    tk_next tk = now →
    t_step (mkT s now tk bg rd enq) TFire
      (mkT s now (Ticker_fire tk) bg (if tk_C tk then rd else now) enq)
| t_receive s s' now tk bg rd enq :
    qs_phase s = Waiting → tk_C tk = true →
    q_step (at_time now s) QTick s' →
    t_step (mkT s now tk bg rd enq) TReceive (mkT s' now (Ticker_receive tk) now rd enq)
| t_publish s s' now tk bg rd enq p err :
    q_step (at_time now s) (QPublish p err) s' →
    t_step (mkT s now tk bg rd enq) (TPublish p err) (mkT s' now tk bg rd enq)
| t_settle s s' now tk bg rd enq outcomes :
    qs_phase s = Publishing outcomes [] →
    q_step (at_time now s) QTick s' →
    t_step (mkT s now tk bg rd enq) TSettle
      (mkT s' now tk bg (if tk_C tk then now else rd) enq)
| t_delay s now tk bg rd enq d :
    (0 < d)%Z → (now + d ≤ tk_next tk)%Z →
    (qs_phase s = Waiting → tk_C tk = true → now + d ≤ rd + latency)%Z →
    (qs_phase s ≠ Waiting → now + d ≤ bg + pass_time)%Z →
    t_step (mkT s now tk bg rd enq) (TDelay d) (mkT s (now + d) tk bg rd enq).

(** [Start] at time [now], on a queue that was not used before. *)
Definition t_start (q : PublishRetryQueue) (b : B) (w : world) (now : Z) : t_sys :=
  mkT (mkQSys q b w Waiting []) now (NewTicker now) now now [].

(** The longest time from the start of a pass to the start of the next. *)
Definition pass_gap : Z := (Z.max tickInterval pass_time + latency)%Z.

(** When the outcome of attempt [n + 1] of an event is recorded at the latest, counted
    from the moment it was enqueued. *)
Definition attempt_deadline (q : PublishRetryQueue) (n : nat) : Z :=
  (retry_span q n + Z.of_nat (S n) * (pass_gap + pass_time))%Z.

(** ** The invariant *)
Context (q0 : PublishRetryQueue).
Context (Hlat : (0 ≤ latency)%Z) (Hpass : (0 ≤ pass_time)%Z).
Context (Hback : ∀ i, (1 ≤ i ≤ q_maxRetries q0)%Z → (0 ≤ PublishRetryQueue_backoff q0 i)%Z).

(** The events the worker has in its hands. *)
Definition in_hands (ph : worker_phase) : list nat := (phase_rem ph).*1 ++ phase_todo ph.

(** An event with [n] failed attempts comes due in time and not before its backoffs are
    over; it comes due after the last pass began, or that pass has it in its hands and
    began when it was due, and in time. *)
Definition event_timely (hands : list nat) (bg t : Z) (p : nat) (pe : pendingEvent) : Prop :=
  ∃ n, pe_attempts pe = Z.of_nat n ∧
    (t + retry_span q0 n ≤ pe_nextAttemptAt pe ≤
       t + retry_span q0 n + Z.of_nat n * (pass_gap + pass_time))%Z ∧
    (if decide (p ∈ hands) then pe_nextAttemptAt pe ≤ bg ≤ pe_nextAttemptAt pe + pass_gap
     else bg ≤ pe_nextAttemptAt pe)%Z.

(** An event whose attempts are exhausted was enqueued all its backoffs before the last
    pass began. *)
Definition given_up_late (bg : Z) (enq : list Z) (log : list logline) : Prop :=
  ∀ p a e, LogExhausted p a e ∈ log →
    ∃ t, enq !! p = Some t ∧ (t + retry_span q0 (Z.to_nat (q_maxRetries q0)) ≤ bg)%Z.

Definition queue_timely (hands : list nat) (bg : Z) (enq : list Z) (q : PublishRetryQueue) : Prop :=
  length enq = length (q_pes q) ∧
  (∀ p pe t, p ∈ q_pending q → q_pes q !! p = Some pe → enq !! p = Some t →
    event_timely hands bg t p pe) ∧
  given_up_late bg enq (q_log q).

Record t_inv (s : t_sys) : Prop := {
  tv_sys : qs_inv (ts_sys s);
  tv_enq_inv : enq_inv (ts_sys s);
  tv_limits : same_limits q0 (qs_q (ts_sys s));
  tv_next : (tk_next (ts_ticker s) - tickInterval ≤ ts_now s ≤ tk_next (ts_ticker s))%Z;
  tv_begin : (ts_begin s ≤ ts_now s)%Z;
  tv_empty : tk_C (ts_ticker s) = false → (tk_next (ts_ticker s) ≤ ts_begin s + tickInterval)%Z;
  tv_pass : qs_phase (ts_sys s) ≠ Waiting → (ts_now s ≤ ts_begin s + pass_time)%Z;
  tv_ready : tk_C (ts_ticker s) = true → qs_phase (ts_sys s) = Waiting →
    (ts_now s ≤ ts_ready s + latency)%Z;
  tv_fired : tk_C (ts_ticker s) = true → (ts_ready s ≤ ts_begin s + Z.max tickInterval pass_time)%Z;
  tv_events : queue_timely (in_hands (qs_phase (ts_sys s))) (ts_begin s) (ts_enq s) (qs_q (ts_sys s))
}.

Lemma backoff_limits q i : same_limits q0 q → PublishRetryQueue_backoff q i = PublishRetryQueue_backoff q0 i.
Proof. intros (_ & _ & Hb). unfold PublishRetryQueue_backoff. by rewrite Hb. Qed.

(** Passes follow each other within [pass_gap]. *)
Lemma begin_recent s : t_inv s → (ts_now s ≤ ts_begin s + pass_gap)%Z.
Proof using Hlat.
  intros [_ _ _ Hn _ He Hp Hr Hf _]. unfold pass_gap. destruct (qs_phase (ts_sys s)).
  - destruct (tk_C (ts_ticker s)).
    + specialize (Hr eq_refl eq_refl). specialize (Hf eq_refl). lia.
    + specialize (He eq_refl). lia.
  - specialize (Hp ltac:(done)). lia.
Qed.

Lemma pending_deadline s p pe t n :
  t_inv s → p ∈ q_pending (qs_q (ts_sys s)) → q_pes (qs_q (ts_sys s)) !! p = Some pe →
  ts_enq s !! p = Some t → pe_attempts pe = Z.of_nat n → (ts_now s ≤ t + attempt_deadline q0 n)%Z.
Proof using Hlat Hpass.
  intros Hs Hp Hpe Ht Hn. pose proof (begin_recent _ Hs) as Hb.
  destruct (tv_events _ Hs) as (_ & Hev & _). destruct (Hev _ _ _ Hp Hpe Ht) as (n' & Hn' & Hle & Hh).
  assert (n' = n) as -> by lia. unfold attempt_deadline. rewrite Nat2Z.inj_succ.
  case_decide as Hin; [|lia].
  assert (qs_phase (ts_sys s) ≠ Waiting) as Hw by (intros Hw; rewrite Hw in Hin; by apply not_elem_of_nil in Hin).
  pose proof (tv_pass _ Hs Hw). lia.
Qed.

Lemma event_timely_hands hands hands' bg t p pe :
  (p ∈ hands ↔ p ∈ hands') → event_timely hands bg t p pe → event_timely hands' bg t p pe.
Proof. intros Hh (n & ? & ? & Hb). exists n. repeat case_decide; tauto. Qed.

(** Settling an outcome takes the event out of the worker's hands. *)
Lemma timely_drop p hands bg enq q q' :
  queue_timely (p :: hands) bg enq q → q_pes q' = q_pes q →
  (∀ x, x ∈ q_pending q' → x ∈ q_pending q ∧ x ≠ p) → given_up_late bg enq (q_log q') →
  queue_timely hands bg enq q'.
Proof.
  intros (Hl & Hev & _) Hpes Hin Hg. split_and!; [by rewrite Hpes | | done]. intros x pe t Hx Hpe Ht. rewrite Hpes in Hpe.
  destruct (Hin _ Hx) as [Hx' Hne]. eapply event_timely_hands; [|by eapply Hev]. set_solver.
Qed.

Lemma given_up_snoc bg enq log l :
  given_up_late bg enq log → given_up_late bg enq [l] → given_up_late bg enq (log ++ [l]).
Proof. intros H1 H2 p a e [Hin|Hin]%elem_of_app; [by eapply H1 | by eapply H2]. Qed.

Lemma timely_reschedule p hands bg now enq q x :
  (bg ≤ now ≤ bg + pass_time)%Z → same_limits q0 q → p ∉ hands → p ∈ q_pending q →
  q_pes q !! p = Some x → (0 ≤ pe_attempts x < q_maxRetries q)%Z →
  queue_timely (p :: hands) bg enq q →
  queue_timely hands bg enq
    (q_with (<[p := mkPE (pe_event x) (pe_attempts x + 1)
                      (now + PublishRetryQueue_backoff q (pe_attempts x + 1))]> (q_pes q))
       (q_pending q) (q_log q) q).
Proof using Hback Hlat Hpass.
  intros Hnow Hl Hp Hpp Hx Ha (Hlen & Hev & Hg). split_and!; simpl; [by rewrite length_insert | | done].
  intros y pe t Hy Hpe Ht. destruct (decide (y = p)) as [->|Hne].
  - rewrite list_lookup_insert_eq in Hpe by by eapply lookup_lt_Some. injection Hpe as <-.
    destruct (Hev _ _ _ Hpp Hx Ht) as (n & Hn & Hle & Hb). rewrite decide_True in Hb by by left.
    rewrite backoff_limits by done. destruct Hl as (_ & Hm & _).
    pose proof (Hback (pe_attempts x + 1) ltac:(lia)). exists (S n). simpl retry_span.
    cbn [pe_attempts pe_nextAttemptAt]. rewrite Hn in *. rewrite Nat2Z.inj_succ.
    replace (Z.of_nat n + 1)%Z with (Z.succ (Z.of_nat n)) in * by lia.
    rewrite decide_False by done. split_and!; lia.
  - rewrite list_lookup_insert_ne in Hpe by done.
    eapply event_timely_hands; [|by eapply Hev]. set_solver.
Qed.

(** The worker gives up an event only after its last backoff. *)
Lemma given_up_exhausted p hands bg enq q x e :
  same_limits q0 q → p ∈ q_pending q → q_pes q !! p = Some x →
  (0 ≤ pe_attempts x)%Z → pe_attempts x = q_maxRetries q →
  queue_timely (p :: hands) bg enq q → given_up_late bg enq [LogExhausted p (pe_attempts x) e].
Proof.
  intros (_ & Hm & _) Hp Hx Ha Hmax (Hlen & Hev & _) p' a' e' [= -> -> ->]%list_elem_of_singleton.
  destruct (lookup_lt_is_Some_2 enq p) as [t Ht]; [rewrite Hlen; by eapply lookup_lt_Some |].
  exists t. split; [done |]. destruct (Hev _ _ _ Hp Hx Ht) as (n & Hn & Hle & Hb).
  rewrite decide_True in Hb by by left. replace (Z.to_nat (q_maxRetries q0)) with n by lia. lia.
Qed.

Lemma settle_one_timely p err rem bg now enq q w q' w' h :
  (bg ≤ now ≤ bg + pass_time)%Z → q_inv q h ((p, err) :: rem) [] → same_limits q0 q →
  next_now w = now → queue_timely (p :: rem.*1) bg enq q →
  settle_one p err (q, w) = ((q', w'), Ret tt) → queue_timely rem.*1 bg enq q'.
Proof using Hback Hlat Hpass.
  intros Hnow Hinv Hl Hw Hq. unfold settle_one, time_Now. go_unfold; simpl.
  destruct (PublishRetryQueue_indexOf q p) as [idx|] eqn:Hi.
  2: { apply index_from_None in Hi. intros [= <- <-]. eapply timely_drop; [done | done | |].
       - intros x Hx. split; [done |]. by intros ->.
       - apply Hq. }
  pose proof (removeAt_removed _ _ _ (qi_nodup _ _ _ _ Hinv) Hi) as (_ & _ & Hrem).
  assert (p ∈ q_pending q) as Hpp.
  { apply index_from_Some in Hi as (k & _ & Hk). by eapply list_elem_of_lookup_2. }
  destruct err as [e|]; [|intros [= <- <-]; eapply timely_drop; [done | done | apply Hrem | apply Hq]].
  destruct (q_pes q !! p) as [x|] eqn:Hx.
  2: { apply lookup_ge_None in Hx. pose proof (qi_alloc _ _ _ _ Hinv p ltac:(by left)). lia. }
  destruct (Z.ltb_spec (pe_attempts x) (q_maxRetries q)).
  - intros [= <- <-]. rewrite Hw. apply timely_reschedule; try done.
    + pose proof (qi_phase _ _ _ _ Hinv) as Hnd. rewrite app_nil_r in Hnd. by apply NoDup_cons in Hnd as [? _].
    + destruct (qi_events _ _ _ _ Hinv _ _ Hx). lia.
  - intros [= <- <-]. eapply timely_drop; [done | done | apply Hrem |].
    apply given_up_snoc; [apply Hq |]. eapply given_up_exhausted; try done;
      destruct (qi_events _ _ _ _ Hinv _ _ Hx); lia.
Qed.

Lemma settle_one_clock p err q w q' w' :
  settle_one p err (q, w) = ((q', w'), Ret tt) → w_clock w' = w_clock w.
Proof.
  unfold settle_one, time_Now. go_unfold; simpl. repeat case_match; intros; simplify_eq; done.
Qed.

Lemma settle_one_limits p err q w q' w' :
  settle_one p err (q, w) = ((q', w'), Ret tt) → same_limits q q'.
Proof. intros E. apply (settle_all_limits [(p, err)] q w q' w'). simpl. unfold mbind, GoM_bind. by rewrite E. Qed.

Lemma limits_trans q q' : same_limits q0 q → same_limits q q' → same_limits q0 q'.
Proof. intros (? & ? & ?) (? & ? & ?). split_and!; congruence. Qed.

Lemma settle_all_timely rem bg now enq q w q' w' h :
  (bg ≤ now ≤ bg + pass_time)%Z → q_inv q h rem [] → same_limits q0 q →
  w_clock w = (λ _, now) → queue_timely rem.*1 bg enq q →
  settle_all rem (q, w) = ((q', w'), Ret tt) → queue_timely [] bg enq q'.
Proof using Hback Hlat Hpass.
  intros Hnow. revert q w; induction rem as [|[p err] rem IH]; intros q w Hinv Hl Hc Hq; simpl.
  - by intros [= <- <-].
  - unfold mbind, GoM_bind. destruct (settle_one_returns p err (q, w)) as [[q1 w1] E]. rewrite E. apply IH.
    + by eapply q_inv_settle_one.
    + eapply limits_trans; [done | by eapply settle_one_limits].
    + by rewrite (settle_one_clock _ _ _ _ _ _ E).
    + eapply settle_one_timely; try done. unfold next_now. by rewrite Hc.
Qed.

(** [Enqueue] adds an event that is due now. *)
Lemma enqueue_timely event hands bg enq q w q' w' :
  (bg ≤ next_now w)%Z → length (q_pes q) ∉ hands →
  PublishRetryQueue_Enqueue event (q, w) = ((q', w'), Ret tt) →
  queue_timely hands bg enq q → queue_timely hands bg (enq ++ [next_now w]) q'.
Proof.
  intros Hb Hh (rest & log' & -> & -> & Hrest)%Enqueue_cases (Hl & Hev & Hg).
  split_and!; simpl; [rewrite !length_app; simpl; lia | |].
  2: { intros p a e Hin. assert (LogExhausted p a e ∈ q_log q) as (t & Ht & ?)%Hg.
       { destruct Hrest as [(_ & -> & _)|(d & _ & ->)]; set_solver. }
       exists t. split; [by apply lookup_app_l_Some | done]. }
  intros p pe t Hp Hpe Ht. apply lookup_app_Some in Hpe as [Hpe|[Hge Hpe]].
  - pose proof (lookup_lt_Some _ _ _ Hpe). rewrite lookup_app_l in Ht by lia.
    apply (Hev p pe t); [|done|done]. apply elem_of_app in Hp as [Hp|Hp%list_elem_of_singleton]; [|lia].
    destruct Hrest as [(-> & _)|(d & -> & _)]; [done | by right].
  - apply list_lookup_singleton_Some in Hpe as [Heq <-].
    assert (p = length (q_pes q)) as -> by lia.
    rewrite lookup_app_r, Hl, Nat.sub_diag in Ht by lia. injection Ht as <-.
    exists 0. rewrite decide_False by done. simpl. split_and!; lia.
Qed.

(** A pass collects what is due; the other events come due later. *)
Lemma collect_timely bg now enq q :
  (bg ≤ now ≤ bg + pass_gap)%Z →
  queue_timely [] bg enq q → queue_timely (q_due now q) now enq q.
Proof.
  intros Hnow (Hl & Hev & Hg). split_and!; [done | |].
  2: { intros p a e (t & ? & ?)%Hg. exists t. split; [done | lia]. }
  intros p pe t Hp Hpe Ht.
  destruct (Hev _ _ _ Hp Hpe Ht) as (n & Hn & Hle & Hb). exists n. split; [done |]. split; [done |].
  rewrite decide_False in Hb by apply not_elem_of_nil. unfold q_due, is_due.
  case_decide as Hd; rewrite list_elem_of_filter, Hpe in Hd;
    destruct (Z.leb_spec (pe_nextAttemptAt pe) now); (lia || naive_solver).
Qed.

(** What a step of the queue at time [now] leaves of the invariant, apart from the
    deadlines. *)
Lemma q_step_keeps now s ev s' :
  q_step (at_time now s) ev s' → qs_inv s → enq_inv s → same_limits q0 (qs_q s) →
  qs_inv s' ∧ enq_inv s' ∧ same_limits q0 (qs_q s').
Proof.
  intros Hs Hi He Hl. split_and!; [exact (q_step_inv _ _ _ Hs Hi) | exact (enq_step _ _ _ Hs He) |].
  eapply limits_trans; [exact Hl |].
  exact (reachable_limits _ _ _ (trace_cons _ _ _ _ _ _ Hs (trace_nil _ _))).
Qed.

Lemma hands_alloc (s : q_sys B) p : qs_inv s → p ∈ in_hands (qs_phase s) → p < length (q_pes (qs_q s)).
Proof. intros Hi Hp. apply (qi_alloc _ _ _ _ Hi). unfold in_hands in Hp. set_solver. Qed.

Lemma t_step_inv s ev s' : t_step s ev s' → t_inv s → t_inv s'.
Proof using Hlat Hpass Hback.
  intros Hs Hv. pose proof (begin_recent _ Hv) as Hgap. destruct Hv as [Hi He Hl Hn Hb Hemp Hp Hr Hf Hev].
  destruct Hs as [s s' now tk bg rd enq p event Hq|s now tk bg rd enq Hfire|s s' now tk bg rd enq Hw Hc Hq
    |s s' now tk bg rd enq p err Hq|s s' now tk bg rd enq outs Hph Hq|s now tk bg rd enq d Hd Hnx Hlt Hpt];
    simpl in *; try (destruct (q_step_keeps _ _ _ _ Hq Hi He Hl) as (Hi' & He' & Hl')).
  - assert (qs_phase s' = qs_phase s) as Hph by by inversion Hq; subst.
    split; simpl; rewrite ?Hph; try done. inversion Hq as [q b w ph h ev' q' w' E| | |]; subst. simpl.
    refine (enqueue_timely event _ bg enq _ (qs_w (at_time now s)) q' w' Hb _ E Hev). intros Hin%hands_alloc; [lia | done].
  - unfold tickInterval in *. split; simpl; unfold tickInterval; try done; try lia; destruct (tk_C tk); intros;
      repeat match goal with H : ?x = ?x → _ |- _ => specialize (H eq_refl) end; try lia; auto; lia.
  - inversion Hq as [|q b w h| |]; subst; [|congruence].
    split; simpl; try done; try (intros; lia).
    unfold in_hands. simpl. rewrite Hw in Hev. eapply collect_timely; [|exact Hev]. lia.
  - assert (∃ outs todo, qs_phase s = Publishing outs (p :: todo) ∧ qs_q s' = qs_q s ∧
      qs_phase s' = Publishing (outs ++ [(p, err)]) todo) as (outs & todo & Hph & Hqq & Hph').
    { by inversion Hq; subst; eauto. }
    split; simpl; rewrite ?Hph'; try done; [intros _; apply Hp; by rewrite Hph |].
    rewrite Hph in Hev. unfold in_hands in *. simpl in *.
    rewrite fmap_app, <- app_assoc, Hqq. exact Hev.
  - inversion Hq as [| | |q b w outs' h q' w' E]; subst; [congruence |].
    assert (outs' = outs) as -> by congruence.
    specialize (Hp ltac:(by rewrite Hph)). split; simpl; try done.
    + intros ->. lia.
    + intros ->. lia.
    + refine (settle_all_timely outs bg now enq _ (qs_w (at_time now s)) q' w' (qs_hist s) (conj Hb Hp) _ Hl eq_refl _ E).
      * unfold qs_inv in Hi. rewrite Hph in Hi. exact Hi.
      * rewrite Hph in Hev. unfold in_hands in Hev. simpl in Hev. by rewrite app_nil_r in Hev.
  - split; simpl; try done; try lia; auto.
Qed.

Lemma t_start_inv b w now : fresh_queue q0 → t_inv (t_start q0 b w now).
Proof using HB Hlat.
  intros Hf. destruct (reachable_inv q0 b w [] _ Hf (trace_nil _ _)) as [Hi He].
  destruct Hf as (Hpes & Hpe & Hlog & _). split; simpl; unfold tickInterval; try done; try lia.
  split_and!; [by rewrite Hpes | |].
  - intros p pe t. rewrite Hpe. by intros ?%not_elem_of_nil.
  - intros p a e. rewrite Hlog. by intros ?%not_elem_of_nil.
Qed.

(** ** Time goes on

    The assumptions never stop the clock: the worker can finish the pass in progress
    without delay, take the tick that waits, and sleep until the ticker fires. *)
Definition calm (tk : Ticker) (now : Z) (s : t_sys) : Prop :=
  t_inv s ∧ qs_phase (ts_sys s) = Waiting ∧ ts_ticker s = tk ∧ ts_now s = now.

Lemma t_trace_cons s ev s1 (P : t_sys → Prop) :
  t_step s ev s1 → t_inv s → (t_inv s1 → ∃ tr s', trace t_step s1 tr s' ∧ P s') →
  ∃ tr s', trace t_step s tr s' ∧ P s'.
Proof using Hlat Hpass Hback.
  intros Hs Hi Hrest. destruct (Hrest (t_step_inv _ _ _ Hs Hi)) as (tr & s' & Htr & HP).
  exists (ev :: tr), s'. eauto using trace_cons.
Qed.

Lemma finish_pass s :
  t_inv s → ∃ tr s', trace t_step s tr s' ∧ calm (ts_ticker s) (ts_now s) s'.
Proof using HB Hlat Hpass Hback.
  intros Hi. destruct s as [[q b w [|outs todo] h] now tk bg rd enq]; simpl.
  { eexists [], _. split; [apply trace_nil | done]. }
  revert b w outs h Hi; induction todo as [|p todo IH]; intros b w outs h Hi.
  - destruct (settle_all_returns outs (q, mkWorld (w_heap w) (λ _, now) (w_pos w))) as [[q' w'] E].
    eapply t_trace_cons; [by eapply t_settle, qstep_settle | done |].
    intros Hi'. eexists [], _. split; [apply trace_nil | done].
  - assert (is_Some (q_pes q !! p)) as [pe Hpe].
    { apply lookup_lt_is_Some_2, (hands_alloc _ _ (tv_sys _ Hi)). unfold in_hands. set_solver. }
    destruct (EventBus_Publish Background (pe_event pe) b) as [b' err] eqn:Eb.
    eapply t_trace_cons; [by eapply t_publish, qstep_publish | done |]. apply IH.
Qed.

Lemma empty_channel s :
  t_inv s → ∃ tr s', trace t_step s tr s' ∧ calm (Ticker_receive (ts_ticker s)) (ts_now s) s'.
Proof using HB Hlat Hpass Hback.
  intros Hi. destruct (finish_pass s Hi) as (tr & s1 & Htr & Hi1 & Hw & Htk & Hnow).
  rewrite <- Htk, <- Hnow. destruct (tk_C (ts_ticker s1)) eqn:Hc.
  - destruct s1 as [[q b w ph h] now tk bg rd enq]; simpl in *. subst ph.
    assert (∃ tr' s', trace t_step (mkT (mkQSys q b w Waiting h) now tk bg rd enq) tr' s' ∧
      calm (Ticker_receive tk) now s') as (tr' & s' & Htr' & ?).
    { eapply t_trace_cons; [apply t_receive; [done | done | apply qstep_collect] | done |].
      intros Hi'. exact (finish_pass _ Hi'). }
    exists (tr ++ tr'), s'. eauto using trace_app.
  - exists tr, s1. split; [done |]. split_and!; [done | done | | done].
    destruct (ts_ticker s1). unfold Ticker_receive. simpl in *. by subst.
Qed.

Lemma next_fire s :
  t_inv s → ∃ tr s', trace t_step s tr s' ∧ t_inv s' ∧
    tk_next (ts_ticker s') = (tk_next (ts_ticker s) + tickInterval)%Z.
Proof using HB Hlat Hpass Hback.
  intros Hi. destruct (empty_channel s Hi) as (tr & [s1 now tk bg rd enq] & Htr & Hi1 & Hw & Htk & Hnow).
  simpl in *. pose proof (tv_next _ Hi1) as Hn. simpl in Hn.
  assert (∃ tr' s', trace t_step (mkT s1 now tk bg rd enq) tr' s' ∧ t_inv s' ∧
    tk_next (ts_ticker s') = (tk_next tk + tickInterval)%Z) as (tr' & s' & Htr' & Hi' & Hnx).
  { assert (∀ bg rd, t_inv (mkT s1 (tk_next tk) tk bg rd enq) → ∃ tr' s',
      trace t_step (mkT s1 (tk_next tk) tk bg rd enq) tr' s' ∧ t_inv s' ∧
      tk_next (ts_ticker s') = (tk_next tk + tickInterval)%Z) as Hfire.
    { intros bg' rd' Hi'. eapply t_trace_cons; [by apply t_fire | done |].
      intros Hi2. eexists [], _. split; [apply trace_nil | done]. }
    destruct (decide (now = tk_next tk)) as [->|Hne]; [by apply Hfire |].
    eapply t_trace_cons; [apply (t_delay _ _ _ _ _ _ (tk_next tk - now)) | done |].
    - lia.
    - lia.
    - subst tk. done.
    - done.
    - replace (now + (tk_next tk - now))%Z with (tk_next tk) by lia. apply Hfire. }
  exists (tr ++ tr'), s'. split; [by eapply trace_app |]. split; [done |]. by rewrite Hnx, Htk.
Qed.

Lemma time_passes s T : t_inv s → ∃ tr s', trace t_step s tr s' ∧ (T ≤ ts_now s')%Z.
Proof using HB Hlat Hpass Hback.
  intros Hi. assert (∀ n, ∃ tr s', trace t_step s tr s' ∧ t_inv s' ∧
    tk_next (ts_ticker s') = (tk_next (ts_ticker s) + Z.of_nat n * tickInterval)%Z) as Hn.
  { induction n as [|n (tr & s1 & Htr & Hi1 & H1)]; [exists [], s; split_and!; [apply trace_nil | done | lia] |].
    destruct (next_fire s1 Hi1) as (tr' & s2 & Htr' & Hi2 & H2). exists (tr ++ tr'), s2.
    split_and!; [by eapply trace_app | done | lia]. }
  destruct (Hn (Z.to_nat (T - tk_next (ts_ticker s) + tickInterval))) as (tr & s' & Htr & Hi' & E).
  exists tr, s'. split; [done |]. pose proof (tv_next _ Hi'). unfold tickInterval in *. lia.
Qed.

Lemma retry_span_mono n m :
  n ≤ m → (Z.of_nat m ≤ q_maxRetries q0)%Z → (retry_span q0 n ≤ retry_span q0 m)%Z.
Proof using Hback.
  induction 1 as [|m Hle IH]; intros Hm; [done |]. simpl retry_span.
  pose proof (Hback (Z.of_nat (S m)) ltac:(lia)). specialize (IH ltac:(lia)). lia.
Qed.

Lemma deadline_mono n :
  (Z.of_nat n ≤ q_maxRetries q0)%Z →
  (attempt_deadline q0 n ≤ attempt_deadline q0 (Z.to_nat (q_maxRetries q0)))%Z.
Proof using Hlat Hpass Hback.
  intros Hn. pose proof (retry_span_mono n (Z.to_nat (q_maxRetries q0)) ltac:(lia) ltac:(lia)).
  unfold attempt_deadline, pass_gap, tickInterval. nia.
Qed.

(** An event whose last deadline has passed is no longer pending. *)
Lemma event_settled s p event :
  t_inv s → QEnqueue p event ∈ qs_hist (ts_sys s) →
  ∃ t, ts_enq s !! p = Some t ∧
    (t + attempt_deadline q0 (Z.to_nat (q_maxRetries q0)) < ts_now s →
     delivered p (qs_hist (ts_sys s)) ∨ logged p (q_log (qs_q (ts_sys s))))%Z.
Proof using Hlat Hpass Hback.
  intros Hi (pe & Hpe & _)%(tv_enq_inv _ Hi). destruct (tv_events _ Hi) as (Hl & _ & _).
  destruct (lookup_lt_is_Some_2 (ts_enq s) p) as [t Ht]; [rewrite Hl; by eapply lookup_lt_Some |].
  exists t. split; [done |]. intros Hlate.
  destruct (qi_events _ _ _ _ (tv_sys _ Hi) _ _ Hpe) as (Ha & _ & _ & _ & [Hp|Hdone]); [exfalso | done].
  destruct (tv_limits _ Hi) as (_ & Hm & _).
  pose proof (pending_deadline s p pe t (Z.to_nat (pe_attempts pe)) Hi Hp Hpe Ht ltac:(lia)).
  pose proof (deadline_mono (Z.to_nat (pe_attempts pe)) ltac:(lia)). lia.
Qed.

End timing.

(** (C4) Retries happen in time.  With a worker that takes a ready tick within
    [latency] and whose passes take at most [pass_time], however the ticker, the worker,
    the bus and callers of [Enqueue] interleave: an event that is pending with [n] failed
    attempts was enqueued at most [attempt_deadline n] ago, that is the first [n] backoffs
    and, for each of the [n + 1] attempts, a tick period (or a pass), the latency and a
    pass; so an event older than the last deadline was accepted by the bus or is named by a
    CRITICAL line; an event whose attempts are reported as exhausted was enqueued at least
    the sum of all the backoffs ago, so it is never given up early; and the clock is never stuck, some run reaches any later moment. *)
Theorem retry_deadlines {B W} {HB : EventBus B W} latency pass_time q b w t0 tr s :
  (0 ≤ latency)%Z → (0 ≤ pass_time)%Z → fresh_queue q →
  (∀ i, (1 ≤ i ≤ q_maxRetries q)%Z → (0 ≤ PublishRetryQueue_backoff q i)%Z) →
  trace (t_step latency pass_time) (t_start q b w t0) tr s →
  (∀ p pe t n, p ∈ q_pending (qs_q (ts_sys s)) → q_pes (qs_q (ts_sys s)) !! p = Some pe →
     ts_enq s !! p = Some t → pe_attempts pe = Z.of_nat n →
     (ts_now s ≤ t + attempt_deadline latency pass_time q n)%Z) ∧
  (∀ p event, QEnqueue p event ∈ qs_hist (ts_sys s) → ∃ t, ts_enq s !! p = Some t ∧
     (t + attempt_deadline latency pass_time q (Z.to_nat (q_maxRetries q)) < ts_now s →
      delivered p (qs_hist (ts_sys s)) ∨ logged p (q_log (qs_q (ts_sys s))))%Z) ∧
  (∀ p a e, LogExhausted p a e ∈ q_log (qs_q (ts_sys s)) → ∃ t, ts_enq s !! p = Some t ∧
     (t + retry_span q (Z.to_nat (q_maxRetries q)) ≤ ts_now s)%Z) ∧
  (∀ T, ∃ tr' s', trace (t_step latency pass_time) s tr' s' ∧ (T ≤ ts_now s')%Z).
Proof.
  intros Hlat Hpass Hf Hback Htr.
  assert (t_inv latency pass_time q s) as Hi.
  { eapply (trace_inv (t_step latency pass_time) (t_inv latency pass_time q)); [| exact Htr | by apply t_start_inv].
    by apply t_step_inv. }
  split_and!; [intros; by eapply pending_deadline | intros; by eapply event_settled | | intros; by eapply time_passes].
  intros p a e (t & Ht & Hle)%(proj2 (proj2 (tv_events _ _ _ _ Hi))). exists t. split; [done |].
  pose proof (tv_begin _ _ _ _ Hi). lia.
Qed.

(** ** The default queue

    It counts at most five failed attempts, so its backoffs are positive and add up to
    31 seconds. *)
Lemma default_backoff_pos i :
  (1 ≤ i ≤ q_maxRetries NewPublishRetryQueue)%Z → (0 ≤ PublishRetryQueue_backoff NewPublishRetryQueue i)%Z.
Proof.
  simpl. unfold defaultMaxRetries. intros Hi.
  assert (i = 1 ∨ i = 2 ∨ i = 3 ∨ i = 4 ∨ i = 5)%Z as [->|[->|[->|[->| ->]]]] by lia; by vm_compute.
Qed.

Lemma default_queue_fresh : fresh_queue NewPublishRetryQueue.
Proof. by unfold fresh_queue. Qed.

(** A bus that refuses once: the event is enqueued when the worker starts, fails at the
    first tick and is due again a second later. *)
Definition refused_once : t_sys :=
  mkT (mkQSys (mkQ [mkPE ban_acme 1 (tickInterval + defaultBaseBackoff)] [0] defaultMaxRetries defaultMaxSize
                defaultBaseBackoff []) ([] : scriptedBus)
         (mkWorld heap_empty (λ _, tickInterval) 3) Waiting
         [QEnqueue 0 ban_acme; QTick; QPublish 0 (Some (errorf "down")); QTick])
    tickInterval (mkTicker (tickInterval + tickInterval) false) tickInterval tickInterval [0%Z].

Lemma refused_once_reachable :
  trace (t_step 0 0) (t_start NewPublishRetryQueue ([Some (errorf "down")] : scriptedBus) queue_world 0)
    [TEnqueue 0 ban_acme; TDelay tickInterval; TFire; TReceive; TPublish 0 (Some (errorf "down")); TSettle]
    refused_once.
Proof.
  eapply trace_cons; [by eapply t_enqueue, (qstep_enqueue NewPublishRetryQueue) |].
  eapply trace_cons; [by eapply (t_delay _ _ _ 0) |].
  eapply trace_cons; [by apply t_fire |].
  eapply trace_cons; [by apply t_receive; [| |apply qstep_collect] |].
  eapply trace_cons; [by eapply t_publish, (qstep_publish _ _ _ _ _ _ _ _ Background) |].
  eapply trace_cons; [by eapply t_settle, qstep_settle |]. apply trace_nil.
Qed.

(** A default queue with an idle machine settles every event within 32.2 seconds
    and gives none up before 31 seconds. *)
Lemma retry_deadlines_witness :
  attempt_deadline 0 0 NewPublishRetryQueue 5 = 32200000000%Z ∧
  retry_span NewPublishRetryQueue 5 = 31000000000%Z ∧
  (ts_now refused_once ≤ 0 + attempt_deadline 0 0 NewPublishRetryQueue 1)%Z ∧
  ∃ tr' s', trace (t_step 0 0) refused_once tr' s' ∧ (40000000000 ≤ ts_now s')%Z.
Proof.
  destruct (retry_deadlines 0 0 NewPublishRetryQueue ([Some (errorf "down")] : scriptedBus) queue_world 0
    _ refused_once ltac:(lia) ltac:(lia) default_queue_fresh default_backoff_pos refused_once_reachable)
    as (Hd & _ & _ & Ht).
  split; [reflexivity |]. split; [reflexivity |]. split; [by eapply (Hd 0 _ 0%Z 1); [left | reflexivity..] | apply Ht].
Defined.
