(* ===== verification/Admin.v ===== *)
(** * Package admin: [Service] and its HTTP API

    [Service] owns no state of its own: it holds the store, the bus and, when the
    option is given, the retry queue, over any [AdminStore] and any [EventBus].
    [HTTPHandler] maps three PATCH routes to it, behind an authenticator that the
    integrating application supplies. *)
From S2P Require Import Prelude GoStrings GoLib Tenant MemoryStore EventBus RetryQueue.
From Stdlib Require Import Sorting.Sorted.
Set Default Goal Selector "!".

(** The ERROR line of [transition]. *)
Record errline := mkErrline { el_id : TenantID; el_state : State; el_err : error }.

Record Service (S B : Type) := mkService {
  svc_store : S;
  svc_bus : B;
  svc_retryQueue : option PublishRetryQueue;
  svc_log : list errline
}.
Arguments mkService {S B} _ _ _ _.
Arguments svc_store {S B} _.
Arguments svc_bus {S B} _.
Arguments svc_retryQueue {S B} _.
Arguments svc_log {S B} _.

Definition ServiceOption (S B : Type) : Type := Service S B → Service S B.

Definition svc_set_queue {S B} (q : option PublishRetryQueue) (s : Service S B) : Service S B :=
  mkService (svc_store s) (svc_bus s) q (svc_log s).

Definition WithPublishRetryQueue {S B} (q : PublishRetryQueue) : ServiceOption S B :=
  svc_set_queue (Some q).

Definition NewAdminService {S B} (store : S) (bus : B) (opts : list (ServiceOption S B)) :
    Service S B :=
  foldl (λ s opt, opt s) (mkService store bus None []) opts.

Section service.
Context {S B W : Type} {HS : AdminStore S} {HB : EventBus B W}.

(** The three calls of [transition] on the parts of the service. *)
Definition svc_SetState (ctx : context) (id : TenantID) (state : State) :
    GoM (Service S B * world) (option error) :=
  zoom svc_store (λ st s, mkService st (svc_bus s) (svc_retryQueue s) (svc_log s))
    (AdminStore_SetState ctx id state).

Definition svc_Publish (ctx : context) (event : TenantEvent) :
    GoM (Service S B * world) (option error) := λ sw,
  let '(s, w) := sw in
  let '(b', err) := EventBus_Publish ctx event (svc_bus s) in
  ((mkService (svc_store s) b' (svc_retryQueue s) (svc_log s), w), Ret err).

Definition svc_Printf (l : errline) : GoM (Service S B * world) unit := λ sw,
  let '(s, w) := sw in
  ((mkService (svc_store s) (svc_bus s) (svc_retryQueue s) (svc_log s ++ [l]), w), Ret tt).

(** [if s.retryQueue != nil { s.retryQueue.Enqueue(event) }]. *)
Definition svc_Enqueue (event : TenantEvent) : GoM (Service S B * world) unit := λ sw,
  let '(s, w) := sw in
  match svc_retryQueue s with
  | None => ((s, w), Ret tt)
  | Some q =>
      let '((q', w'), o) := PublishRetryQueue_Enqueue event (q, w) in
      ((svc_set_queue (Some q') s, w'), o)
  end.

(** What follows the reading of the clock. *)
Definition Service_announce (ctx : context) (event : TenantEvent) :
    GoM (Service S B * world) (option error) :=
  err ← svc_Publish ctx event;
  match err with
  | Some e =>
      _ ← svc_Printf (mkErrline (ev_TenantID event) (ev_State event) e);
      _ ← svc_Enqueue event;
      mret (Some e)
  | None => mret None
  end.

Definition Service_transition (ctx : context) (id : TenantID) (state : State) :
    GoM (Service S B * world) (option error) :=
  err ← svc_SetState ctx id state;
  match err with
  | Some e => mret (Some e)
  | None =>
      now ← time_Now;
      Service_announce ctx (mkEvent id state now)
  end.

Definition Service_Ban (ctx : context) (id : TenantID) := Service_transition ctx id Banned.
Definition Service_Disable (ctx : context) (id : TenantID) := Service_transition ctx id Disabled.
Definition Service_Activate (ctx : context) (id : TenantID) := Service_transition ctx id Active.

End service.

Arguments svc_Enqueue : simpl never.
Arguments Service_announce : simpl never.

(** ** The HTTP API *)
Record Principal := mkPrincipal { pr_ID : string; pr_Roles : list string }.

(** [Authenticator] is implemented outside this repository. *)
Definition Authenticator : Type := Request → result Principal.

Definition json_error (msg : string) : chunk := JSON (JObject [("error", JString msg)]).

(** A JSON error response, as [withAuth] and [writeError] both write it. *)
Definition respond_error (status : Z) (msg : string) (w : ResponseWriter) : ResponseWriter :=
  Write (json_error msg) (WriteHeader status (Header_Set "Content-Type" "application/json" w)).

(** The [switch] of [writeError]: the first case that matches. *)
Definition error_status (err : error) : Z :=
  if errors_Is err ErrTenantNotFound then StatusNotFound
  else if errors_Is err ErrTenantAlreadyExists then StatusConflict
  else StatusInternalServerError.

Definition writeError (err : error) (w : ResponseWriter) : ResponseWriter :=
  respond_error (error_status err) (error_Error err) w.

Section http.
Context {S B W : Type} {HS : AdminStore S} {HB : EventBus B W}.

Definition withAuth (authenticator : option Authenticator)
    (next : routeHandler (Service S B * world)) : routeHandler (Service S B * world) :=
  λ vals w r,
  match authenticator with
  | None => next vals w r
  | Some authenticate =>
      match authenticate r with
      | Err _ => mret (respond_error StatusUnauthorized "unauthorized" w)
      | Ok _ => next vals w r
      end
  end.

(** [r.PathValue("id")]: the empty string when there is no such wildcard. *)
Definition path_id (vals : gmap string string) : TenantID := default "" (vals !! "id").

(** The body the three handlers share, for one of the service's methods. *)
Definition handle_with
    (method : context → TenantID → GoM (Service S B * world) (option error)) :
    routeHandler (Service S B * world) := λ vals w r,
  err ← method (r_ctx r) (path_id vals);
  match err with
  | Some e => mret (writeError e w)
  | None => mret (WriteHeader StatusNoContent w)
  end.

Definition handleBan : routeHandler (Service S B * world) := handle_with Service_Ban.
Definition handleDisable : routeHandler (Service S B * world) := handle_with Service_Disable.
Definition handleActivate : routeHandler (Service S B * world) := handle_with Service_Activate.

Record HTTPHandler := mkHTTPHandler {
  hh_authenticator : option Authenticator;
  hh_mux : list (route (Service S B * world))
}.

Definition HTTPHandlerOption : Type := HTTPHandler → HTTPHandler.

Definition WithAuthenticator (a : Authenticator) : HTTPHandlerOption := λ h,
  mkHTTPHandler (Some a) (hh_mux h).

(** [PATCH /tenants/{id}/<verb>]. *)
Definition tenant_pattern (verb : string) : pattern :=
  mkPattern (Some "PATCH") [Lit "tenants"; Wild "id"; Lit verb] false.

Definition NewHTTPHandler (opts : list HTTPHandlerOption) : HTTPHandler :=
  let h := foldl (λ h opt, opt h) (mkHTTPHandler None []) opts in
  let auth := hh_authenticator h in
  mkHTTPHandler auth
    (hh_mux h ++
     [ (tenant_pattern "ban", withAuth auth handleBan);
       (tenant_pattern "disable", withAuth auth handleDisable);
       (tenant_pattern "activate", withAuth auth handleActivate) ]).

Definition HTTPHandler_ServeHTTP (h : HTTPHandler) : Handler (Service S B * world) :=
  mux_ServeHTTP (hh_mux h).

End http.

Arguments HTTPHandler : clear implicits.
Arguments HTTPHandlerOption : clear implicits.

(** ** Histories of transitions

    A bus that records every call of [Publish] with its answer. *)
Record recBus (B : Type) := mkRec { rb_bus : B; rb_calls : list (TenantEvent * option error) }.
Arguments mkRec {B} _ _.
Arguments rb_bus {B} _.
Arguments rb_calls {B} _.

#[global] Instance recBus_EventBus {B W : Type} {HB : EventBus B W} : EventBus (recBus B) W := {
  EventBus_Publish ctx event b :=
    let '(b', err) := EventBus_Publish ctx event (rb_bus b) in
    (mkRec b' (rb_calls b ++ [(event, err)]), err);
  EventBus_Subscribe h b :=
    let '(b', err) := EventBus_Subscribe h (rb_bus b) in (mkRec b' (rb_calls b), err)
}.

(** What an event says about the store. *)
Definition apply_event (m : gmap TenantID Tenant) (event : TenantEvent) : gmap TenantID Tenant :=
  alter (with_state (ev_State event)) (ev_TenantID event) m.

Definition answer : Type := (TenantID * State) * option error.

Definition known (m : gmap TenantID Tenant) (a : answer) : Prop := is_Some (m !! a.1.1).
#[global] Instance known_dec m a : Decision (known m a).
Proof. unfold known. apply _. Defined.

Section history.
Context {B W : Type} {HB : EventBus B W}.
Abbreviation Svc := (Service MemoryStore (recBus B)).

(** Administrative calls one after the other, with what each returned. *)
Fixpoint run_transitions (ctx : context) (ops : list (TenantID * State)) :
    GoM (Svc * world) (list answer) :=
  match ops with
  | [] => mret []
  | op :: ops =>
      err ← Service_transition ctx op.1 op.2;
      rest ← run_transitions ctx ops;
      mret ((op, err) :: rest)
  end.

Definition svc_view (s : Svc) (w : world) : gmap TenantID Tenant :=
  ms_view (svc_store s) (w_heap w).

(** The events ever enqueued, and those of a history that the bus refused. *)
Definition queue_events (s : Svc) : list TenantEvent :=
  match svc_retryQueue s with Some q => pe_event <$> q_pes q | None => [] end.

Definition refused (evs : list (TenantEvent * option error)) : list TenantEvent :=
  omap (λ e, match e.2 with Some _ => Some e.1 | None => None end) evs.

(** A configured queue has room for at least one event. *)
Definition queue_ok (s : Svc) : Prop :=
  match svc_retryQueue s with Some q => (1 ≤ q_maxSize q)%Z | None => True end.

Definition svc_inv (s : Svc) (w : world) : Prop :=
  ms_wf (svc_store s) (w_heap w) ∧ queue_ok s.

Lemma Enqueue_returns event q w :
  (1 ≤ q_maxSize q)%Z →
  ∃ q', PublishRetryQueue_Enqueue event (q, w) = ((q', tick w), Ret tt) ∧
    q_pes q' = q_pes q ++ [mkPE event 0 (next_now w)] ∧ q_maxSize q' = q_maxSize q.
Proof.
  intros Hq. unfold PublishRetryQueue_Enqueue, make_room, time_Now, q_append. go_unfold; simpl.
  destruct (Z.leb_spec (q_maxSize q) (Z.of_nat (length (q_pending q)))), (q_pending q);
    simpl in *; try lia; eauto.
Qed.

Lemma svc_Enqueue_spec (s : Svc) event w :
  queue_ok s →
  ∃ s' w', svc_Enqueue event (s, w) = ((s', w'), Ret tt) ∧
    svc_store s' = svc_store s ∧ svc_bus s' = svc_bus s ∧ svc_log s' = svc_log s ∧ queue_ok s' ∧
    world_extends w w' ∧ w_heap w' = w_heap w ∧
    queue_events s' = queue_events s ++ (match svc_retryQueue s with Some _ => [event] | None => [] end) ∧
    (is_Some (svc_retryQueue s') ↔ is_Some (svc_retryQueue s)).
Proof.
  unfold svc_Enqueue, queue_ok, queue_events. intros Hq. destruct (svc_retryQueue s) as [q|] eqn:Eq.
  - destruct (Enqueue_returns event q w Hq) as (q' & E & Hp & Hm). rewrite E. eexists _, _.
    split; [reflexivity |]. simpl. rewrite Hp, Hm, fmap_app.
    split_and!; auto with tenant; done.
  - eexists _, _. split; [reflexivity |]. rewrite Eq, app_nil_r. split_and!; auto with tenant; done.
Qed.

(** One transition of a tenant the store does not have, and of one it has. *)
Lemma transition_unknown ctx id st (s : Svc) w :
  svc_inv s w → svc_view s w !! id = None →
  Service_transition ctx id st (s, w) = ((s, w), Ret (Some ErrTenantNotFound)).
Proof.
  intros [Hwf _] Hid. unfold Service_transition, svc_SetState. go_unfold. simpl.
  rewrite SetState_eq by done. unfold svc_view in Hid. rewrite Hid.
  by destruct s, (ms_tenants _ !! id).
Qed.

(** [SetState] on a tenant the store has. *)
Lemma SetState_known ctx id st ms w t :
  ms_wf ms (w_heap w) → ms_view ms (w_heap w) !! id = Some t →
  ∃ h', MemoryStore_SetState ctx id st (ms, w) = ((ms, set_heap h' w), Ret None) ∧
    ms_wf ms h' ∧ ms_view ms h' = alter (with_state st) id (ms_view ms (w_heap w)).
Proof.
  intros Hwf Hid. rewrite SetState_eq by done. rewrite Hid.
  destruct (proj1 (view_Some _ _ _ _) Hid) as (l & Hl & Ht). rewrite Hl.
  eexists. split; [reflexivity |]. split.
  - apply ms_wf_store; [done |]. intros id' Hl'. simpl.
    rewrite (ms_wf_inj _ _ _ _ _ Hwf Hl' Hl). by eapply view_id.
  - erewrite view_store_same by done. apply map_eq. intros id'.
    rewrite lookup_insert, lookup_alter. case_decide; [subst; by rewrite Hid | done].
Qed.

(** The publish of an event, with its log line and the queue on failure. *)
Lemma announce_spec ctx ev (s : Svc) w :
  queue_ok s →
  ∃ s' w' err, Service_announce ctx ev (s, w) = ((s', w'), Ret err) ∧
    svc_store s' = svc_store s ∧ queue_ok s' ∧ world_extends w w' ∧ w_heap w' = w_heap w ∧
    rb_calls (svc_bus s') = rb_calls (svc_bus s) ++ [(ev, err)] ∧
    (is_Some (svc_retryQueue s) → queue_events s' = queue_events s ++ refused [(ev, err)]) ∧
    (is_Some (svc_retryQueue s') ↔ is_Some (svc_retryQueue s)).
Proof.
  intros Hq. unfold Service_announce, svc_Publish. go_unfold; simpl.
  destruct (EventBus_Publish ctx ev (rb_bus (svc_bus s))) as [b' [e|]]; simpl.
  - match goal with |- context [svc_Enqueue ev (?s0, w)] =>
      destruct (svc_Enqueue_spec s0 ev w Hq) as (s' & w' & E & Hst & Hb & _ & Hq' & Hw & Hh & Hqe & Hsome)
    end.
    rewrite E. eexists _, _, _. split; [reflexivity |]. simpl in *.
    split_and!; [done | done | done | done | by rewrite Hb | | done].
    intros [q Hsq]. unfold queue_events in *. simpl in *. rewrite Hsq in *. exact Hqe.
  - eexists _, _, _. split; [reflexivity |]. simpl.
    split_and!; auto with tenant. intros _. by rewrite app_nil_r.
Qed.

Lemma transition_known ctx id st (s : Svc) w t :
  svc_inv s w → svc_view s w !! id = Some t →
  ∃ s' w' err, Service_transition ctx id st (s, w) = ((s', w'), Ret err) ∧
    svc_inv s' w' ∧ w_clock w' = w_clock w ∧ w_pos w < w_pos w' ∧
    svc_view s' w' = apply_event (svc_view s w) (mkEvent id st (next_now w)) ∧
    rb_calls (svc_bus s') = rb_calls (svc_bus s) ++ [(mkEvent id st (next_now w), err)] ∧
    (is_Some (svc_retryQueue s) →
       queue_events s' = queue_events s ++ refused [(mkEvent id st (next_now w), err)]) ∧
    (is_Some (svc_retryQueue s') ↔ is_Some (svc_retryQueue s)).
Proof.
  intros [Hwf Hq] Hid. unfold Service_transition, svc_SetState. go_unfold. simpl.
  destruct (SetState_known ctx id st _ _ _ Hwf Hid) as (h' & -> & Hwf' & Hv). simpl.
  match goal with |- context [Service_announce ctx ?ev (?s0, ?w0)] =>
    destruct (announce_spec ctx ev s0 w0 Hq)
      as (s' & w' & err & E & Hst & Hq' & (_ & _ & Hc & Hp) & Hh & Hcalls & Hqe & Hsome)
  end.
  exists s', w', err. split; [exact E |]. simpl in *.
  unfold svc_inv, svc_view, apply_event. rewrite Hst, Hh. simpl.
  split_and!; try done; lia.
Qed.

Lemma known_apply m ev a : known (apply_event m ev) a ↔ known m a.
Proof. unfold known, apply_event. apply lookup_alter_is_Some. Qed.

(** What a sequence of calls [ops] from [s] made of it: the answers, and the events
    handed to the bus. *)
Record story (ops : list (TenantID * State)) (s : Svc) (w : world) (s' : Svc) (w' : world)
    (answers : list answer) (evs : list (TenantEvent * option error)) : Prop := {
  st_ops : answers.*1 = ops;
  st_calls : rb_calls (svc_bus s') = rb_calls (svc_bus s) ++ evs;
  st_known : filter (known (svc_view s w)) answers =
    (λ e, ((ev_TenantID e.1, ev_State e.1), e.2)) <$> evs;
  st_unknown a : a ∈ answers → ¬ known (svc_view s w) a → a.2 = Some ErrTenantNotFound;
  st_view : svc_view s' w' = foldl apply_event (svc_view s w) evs.*1;
  st_sorted : StronglySorted Z.le (ev_Timestamp <$> evs.*1);
  st_later : Forall (λ e, next_now w ≤ ev_Timestamp e.1)%Z evs;
  st_queue : is_Some (svc_retryQueue s) → queue_events s' = queue_events s ++ refused evs
}.

Lemma story_nil s w : story [] s w s w [] [].
Proof.
  split; rewrite ?app_nil_r; try done; [by intros a ?%not_elem_of_nil | constructor].
Qed.

Lemma story_known_cons id st err ops s w s1 w1 s2 w2 answers evs :
  let ev := mkEvent id st (next_now w) in
  is_Some (svc_view s w !! id) → (next_now w ≤ next_now w1)%Z →
  svc_view s1 w1 = apply_event (svc_view s w) ev →
  rb_calls (svc_bus s1) = rb_calls (svc_bus s) ++ [(ev, err)] →
  (is_Some (svc_retryQueue s) → queue_events s1 = queue_events s ++ refused [(ev, err)]) →
  (is_Some (svc_retryQueue s1) ↔ is_Some (svc_retryQueue s)) →
  story ops s1 w1 s2 w2 answers evs →
  story ((id, st) :: ops) s w s2 w2 (((id, st), err) :: answers) ((ev, err) :: evs).
Proof.
  intros ev Hid Hnow Hv Hcalls Hqe Hsome [Hans Hcalls2 Hf Hun Hv2 Hso Hle Hq2].
  rewrite Hv in Hf, Hv2. split; simpl.
  - by rewrite <- Hans.
  - by rewrite Hcalls2, Hcalls, <- app_assoc.
  - rewrite filter_cons_True by exact Hid. f_equal.
    etrans; [|exact Hf]. apply list_filter_iff. intros a. by rewrite known_apply.
  - intros a [->|Ha]%elem_of_cons Hk; [by destruct Hk |].
    apply Hun; [done |]. by rewrite Hv, known_apply.
  - done.
  - constructor; [done |]. rewrite !Forall_fmap. eapply Forall_impl; [exact Hle |]. simpl. lia.
  - constructor; [simpl; lia |]. eapply Forall_impl; [exact Hle |]. simpl. lia.
  - intros Hs. rewrite Hq2, Hqe by tauto. rewrite <- app_assoc. unfold refused. by rewrite <- omap_app.
Qed.

Lemma story_unknown_cons id st ops s w s2 w2 answers evs :
  svc_view s w !! id = None → story ops s w s2 w2 answers evs →
  story ((id, st) :: ops) s w s2 w2 (((id, st), Some ErrTenantNotFound) :: answers) evs.
Proof.
  intros Hid [Hans Hcalls2 Hf Hun Hv2 Hso Hle Hq2].
  assert (¬ known (svc_view s w) ((id, st), Some ErrTenantNotFound)) as Hk.
  { unfold known; simpl. rewrite Hid. by intros [? ?]. }
  split; simpl; try done.
  - by rewrite <- Hans.
  - by rewrite filter_cons_False.
  - intros a [->|Ha]%elem_of_cons; [done | by apply Hun].
Qed.

(** (C10) The store and the events tell the same story.  Over any sequence of
    administrative calls: every call returns; a call for a tenant the store does not
    have answers [ErrTenantNotFound], changes nothing and publishes nothing; every
    other call publishes exactly one event, after the state was applied, and returns
    the bus's answer; the final content of the store is the initial content with the
    published events applied in order; their timestamps never decrease; and with a
    retry queue exactly the refused events were enqueued. *)
Theorem service_events_match_store ctx ops (s : Svc) w :
  svc_inv s w → clock_monotone (w_clock w) →
  ∃ s' w' answers evs, run_transitions ctx ops (s, w) = ((s', w'), Ret answers) ∧
    story ops s w s' w' answers evs.
Proof.
  revert s w. induction ops as [|[id st] ops IH]; intros s w Hinv Hmono.
  - exists s, w, [], []. split; [done | apply story_nil].
  - simpl. unfold mbind, GoM_bind, mret, GoM_ret.
    destruct (svc_view s w !! id) as [t|] eqn:Hid.
    + destruct (transition_known ctx id st _ _ _ Hinv Hid)
        as (s1 & w1 & err & -> & Hinv1 & Hc & Hpos & Hv & Hcalls & Hqe & Hsome).
      destruct (IH s1 w1 Hinv1 ltac:(by rewrite Hc)) as (s2 & w2 & ans & evs & -> & Hst).
      eexists s2, w2, _, _. split; [reflexivity |].
      eapply story_known_cons; [by rewrite Hid | | done.. ].
      unfold next_now. rewrite Hc. apply Hmono. lia.
    + rewrite transition_unknown by done.
      destruct (IH s w Hinv Hmono) as (s2 & w2 & ans & evs & -> & Hst).
      eexists s2, w2, _, _. split; [reflexivity |]. by apply story_unknown_cons.
Qed.

End history.

(** ** The HTTP API *)
Section http_proofs.
Context {S B W : Type} {HS : AdminStore S} {HB : EventBus B W}.

(** The handler with or without an authenticator. *)
Definition admin_handler (auth : option Authenticator) : HTTPHandler S B :=
  NewHTTPHandler (match auth with Some a => [WithAuthenticator a] | None => [] end).

(** The state a verb of the API asks for. *)
Definition verb_state (verb : string) : option State :=
  if decide (verb = "ban") then Some Banned
  else if decide (verb = "disable") then Some Disabled
  else if decide (verb = "activate") then Some Active
  else None.

(** The request as an administrative operation. *)
Definition admin_op (r : Request) : option (TenantID * State) :=
  match r_path r with
  | [t; id; verb] =>
      if decide (t = "tenants" ∧ r_Method r = "PATCH")
      then (λ st, (id, st)) <$> verb_state verb else None
  | _ => None
  end.

(** The response to what the service answered. *)
Definition admin_response (err : option error) : ResponseWriter :=
  match err with
  | None => WriteHeader StatusNoContent rw_new
  | Some e => writeError e rw_new
  end.

Lemma match_tenant_pattern verb path :
  match_segs (pat_segs (tenant_pattern verb)) false path =
  match path with
  | [t; id; v] => if decide (t = "tenants" ∧ v = verb) then Some {["id" := id]} else None
  | _ => None
  end.
Proof.
  destruct path as [|t [|id [|v [|? ?]]]]; simpl; repeat case_decide;
    simplify_eq; try done; try tauto; naive_solver.
Qed.

Lemma serve_op auth r id st w0 sw :
  admin_op r = Some (id, st) →
  HTTPHandler_ServeHTTP (admin_handler auth) w0 r sw =
  withAuth auth (handle_with (λ ctx id, Service_transition ctx id st)) {["id" := id]} w0 r sw.
Proof.
  unfold admin_op. destruct (r_path r) as [|t [|id' [|verb [|? ?]]]] eqn:Hp; try done.
  case_decide as Ht; [destruct Ht as [-> Hm] | done]. unfold verb_state.
  unfold HTTPHandler_ServeHTTP, mux_ServeHTTP. rewrite Hm, Hp.
  repeat case_decide; intros [= <- <-]; subst; by destruct auth.
Qed.

Lemma serve_other auth r w0 sw :
  admin_op r = None →
  ∃ w1, HTTPHandler_ServeHTTP (admin_handler auth) w0 r sw = (sw, Ret w1) ∧
    (rw_status w0 = None →
     rw_status w1 = Some StatusNotFound ∨ rw_status w1 = Some StatusMethodNotAllowed).
Proof.
  intros Hop. unfold HTTPHandler_ServeHTTP, mux_ServeHTTP.
  assert (mux_find (hh_mux (admin_handler auth)) (r_Method r) (r_path r) = None) as ->.
  { assert (hh_mux (admin_handler auth) =
      [ (tenant_pattern "ban", withAuth auth handleBan);
        (tenant_pattern "disable", withAuth auth handleDisable);
        (tenant_pattern "activate", withAuth auth handleActivate) ]) as -> by by destruct auth.
    cbn [mux_find fst]. change (pat_rest (tenant_pattern _)) with false.
    rewrite !match_tenant_pattern. unfold admin_op, verb_state in Hop.
    destruct (r_path r) as [|t [|id' [|verb [|? ?]]]]; try done.
    unfold match_method, tenant_pattern; simpl.
    repeat (case_decide || case_match || case_bool_decide); simplify_eq; try done; naive_solver. }
  destruct (mux_path_known _ _); eexists; (split; [reflexivity |]);
    intros H; unfold http_Error, Header_Set, WriteHeader, Write; rewrite ?H; simpl; rewrite ?H; simpl; rewrite ?H; auto.
Qed.

(** (C30) The authentication gate: with an authenticator that refuses the request, no
    request whatsoever changes the store, the bus, the queue or the clock; an
    administrative route answers 401 with the fixed JSON body, any other request 404
    or 405. *)
Theorem admin_auth_gate (a : Authenticator) r e (s : Service S B) w :
  a r = Err e →
  ∃ rw, HTTPHandler_ServeHTTP (admin_handler (Some a)) rw_new r (s, w) = ((s, w), Ret rw) ∧
    match admin_op r with
    | Some _ => rw_status rw = Some StatusUnauthorized ∧ rw_body rw = [json_error "unauthorized"]
    | None => rw_status rw = Some StatusNotFound ∨ rw_status rw = Some StatusMethodNotAllowed
    end.
Proof.
  intros Ha. destruct (admin_op r) as [[id st]|] eqn:Hop.
  - rewrite (serve_op _ _ _ _ _ _ Hop). unfold withAuth. rewrite Ha. by eexists.
  - destruct (serve_other (Some a) r rw_new (s, w) Hop) as (w1 & -> & Hst). eauto.
Qed.

(** (C31) The API does what its routes say: an admitted request for an administrative
    route runs the service's transition of that tenant to that state, with the
    request's context, and nothing else; it answers 204 when the service returns no
    error, 404 for an error that is or wraps [ErrTenantNotFound], 409 for one that is
    or wraps [ErrTenantAlreadyExists], 500 for any other, the error's text as JSON; a
    request for anything else changes nothing and answers 404 or 405. *)
Theorem admin_api_spec auth r (s : Service S B) w :
  (∀ a, auth = Some a → ∃ p, a r = Ok p) →
  match admin_op r with
  | Some (id, st) =>
      ∀ s' w' err, Service_transition (r_ctx r) id st (s, w) = ((s', w'), Ret err) →
      ∃ rw, HTTPHandler_ServeHTTP (admin_handler auth) rw_new r (s, w) = ((s', w'), Ret rw) ∧
        (err = None → rw_status rw = Some StatusNoContent ∧ rw_body rw = []) ∧
        (∀ e, err = Some e → rw_body rw = [json_error (error_Error e)] ∧
           (errors_Is e ErrTenantNotFound = true → rw_status rw = Some StatusNotFound) ∧
           (errors_Is e ErrTenantNotFound = false → errors_Is e ErrTenantAlreadyExists = true →
              rw_status rw = Some StatusConflict) ∧
           (errors_Is e ErrTenantNotFound = false → errors_Is e ErrTenantAlreadyExists = false →
              rw_status rw = Some StatusInternalServerError))
  | None =>
      ∃ rw, HTTPHandler_ServeHTTP (admin_handler auth) rw_new r (s, w) = ((s, w), Ret rw) ∧
        (rw_status rw = Some StatusNotFound ∨ rw_status rw = Some StatusMethodNotAllowed)
  end.
Proof.
  intros Hauth. destruct (admin_op r) as [[id st]|] eqn:Hop.
  - intros s' w' err E. rewrite (serve_op _ _ _ _ _ _ Hop).
    exists (admin_response err). split.
    + enough (handle_with (λ ctx id, Service_transition ctx id st) {["id" := id]} rw_new r (s, w) =
        ((s', w'), Ret (admin_response err))) as Hh.
      { unfold withAuth. destruct auth as [a|]; [|done].
        destruct (Hauth a eq_refl) as [p ->]. done. }
      unfold handle_with, path_id. rewrite lookup_singleton_eq. simpl. go_unfold. rewrite E.
      by destruct err.
    + split; [by intros -> |]. intros e ->. simpl. unfold error_status.
      split_and!; [done | by intros -> | by intros -> -> | by intros -> ->].
  - destruct (serve_other auth r rw_new (s, w) Hop) as (w1 & -> & Hst). eauto.
Qed.

End http_proofs.

(** ** A concrete service: one tenant, a bus that refuses the second event *)
Definition admin_heap : heap := (heap_alloc demo_tenant heap_empty).2.
Definition admin_world : world := mkWorld admin_heap demo_clock 0.
Definition demo_service (b : scriptedBus) : Service MemoryStore (recBus scriptedBus) :=
  NewAdminService (mkMemoryStore {["acme" := 0]}) (mkRec b [])
    [WithPublishRetryQueue NewPublishRetryQueue].
Definition flaky : scriptedBus := [None; Some (errorf "down")].

Lemma demo_service_inv : svc_inv (demo_service flaky) admin_world.
Proof.
  split; [|by vm_compute]. intros id l Hl. simpl in Hl. apply lookup_singleton_Some in Hl as [<- <-].
  by exists demo_tenant.
Qed.

Lemma service_events_match_store_witness :
  ∃ s' w' answers evs,
    run_transitions Background [("acme", Banned); ("globex", Banned); ("acme", Active)]
      (demo_service flaky, admin_world) = ((s', w'), Ret answers) ∧
    story [("acme", Banned); ("globex", Banned); ("acme", Active)]
      (demo_service flaky) admin_world s' w' answers evs.
Proof.
  apply (service_events_match_store Background
    [("acme", Banned); ("globex", Banned); ("acme", Active)] (demo_service flaky) admin_world).
  - exact demo_service_inv.
  - intros i j Hij. simpl. unfold demo_clock. lia.
Defined.

Definition ban_request : Request := mkRequest "PATCH" "admin.local" ["tenants"; "acme"; "ban"] Background.

Lemma admin_auth_gate_witness :
  ∃ rw, HTTPHandler_ServeHTTP (admin_handler (Some (λ _, Err (errorf "no token")))) rw_new
      ban_request (demo_service [], admin_world) = ((demo_service [], admin_world), Ret rw) ∧
    rw_status rw = Some StatusUnauthorized ∧ rw_body rw = [json_error "unauthorized"].
Proof.
  apply (admin_auth_gate (λ _, Err (errorf "no token")) ban_request (errorf "no token")
    (demo_service []) admin_world). reflexivity.
Defined.

Definition after_ban : Service MemoryStore (recBus scriptedBus) * world :=
  run_state (Service_transition Background "acme" Banned) (demo_service [], admin_world).

Lemma after_ban_eq :
  Service_transition Background "acme" Banned (demo_service [], admin_world) =
    ((after_ban.1, after_ban.2), Ret None).
Proof. reflexivity. Qed.

Lemma admin_api_spec_witness :
  ∃ sw rw, HTTPHandler_ServeHTTP (admin_handler (Some (λ _, Ok (mkPrincipal "root" []))))
      rw_new ban_request (demo_service [], admin_world) = (sw, Ret rw) ∧
    rw_status rw = Some StatusNoContent ∧ rw_body rw = [].
Proof.
  destruct (admin_api_spec
    (Some (λ _, Ok (mkPrincipal "root" []))) ban_request
    (demo_service []) admin_world (λ a E, match E with eq_refl => ex_intro _ _ eq_refl end)
    after_ban.1 after_ban.2 None after_ban_eq) as (rw & H1 & H2 & _).
  eexists _, rw. split; [exact H1 | exact (H2 eq_refl)].
Defined.
