(* ===== verification/AdminCalls.v ===== *)
(** * Administrative calls and the snapshot, between their accesses of shared state

    What [Service.transition] and [LoadInitialBannedList] do to the store and the
    clock, cut at each call they make on a shared object.  The relation [f_step] is
    the part common to the systems of [Propagation] and [Delivery], which add the bus
    and the checker; it is labelled with what that other part has to do.

    Calls overlap freely.  [f_ok] holds whatever they do; [tracks] holds for a tenant
    from a moment on as long as calls about that tenant do not overlap, and is what
    makes a checker agree with the store on it ([told_agrees]). *)
From S2P Require Import Prelude GoStrings GoLib Goroutines Tenant MemoryStore EventBus BanChecker BanRaces RetryQueue Admin.
From Stdlib Require Import Sorting.Sorted.
Set Default Goal Selector "!".

(** Where an administrative call is: before [SetState], before [time.Now], before
    [Publish]. *)
Inductive call_phase : Type :=
| TSet (id : TenantID) (st : State)
| TNow (id : TenantID) (st : State)
| TPub (event : TenantEvent).

(** Where [LoadInitialBannedList] is: not started, before the next [IsBanned],
    between [IsBanned] and [apply], inside [apply] between [Load] and [Store], returned. *)
Inductive snap_phase : Type :=
| SnapNone
| SnapRun (ts : Z) (ids : list TenantID)
| SnapGot (ts : Z) (id : TenantID) (banned : bool) (ids : list TenantID)
| SnapLoaded (ts : Z) (id : TenantID) (banned : bool) (ids : list TenantID)
| SnapDone (err : option error).

(** [f_evs] and [f_snapw] record the events made and the entries applied. *)
Record front := mkF {
  f_ms : MemoryStore;
  f_w : world;
  f_calls : list call_phase;
  f_snap : snap_phase;
  f_evs : list TenantEvent;
  f_snapw : list ban_write
}.

(** What a step asks of the rest of the system: a call starts, an event goes to the
    bus, [apply] loads the checker's entry for an entry of the snapshot and finds it newer
    or not, it stores, or nothing. *)
Inductive f_event : Type :=
| FStart (id : TenantID)
| FPublish (event : TenantEvent)
| FLoad (x : ban_write) (stale : bool)
| FStore (x : ban_write)
| FTau.

Inductive f_step : front → f_event → front → Prop :=
| fstep_start ms w cs sn evs sw id st :
    f_step (mkF ms w cs sn evs sw) (FStart id) (mkF ms w (cs ++ [TSet id st]) sn evs sw)
| fstep_set ms w cs1 cs2 sn evs sw id st ctx ms' w' err :
    AdminStore_SetState ctx id st (ms, w) = ((ms', w'), Ret err) →
    f_step (mkF ms w (cs1 ++ TSet id st :: cs2) sn evs sw) FTau
      (mkF ms' w' (cs1 ++ (match err with None => [TNow id st] | Some _ => [] end) ++ cs2) sn evs sw)
| fstep_now ms w cs1 cs2 sn evs sw id st :
    f_step (mkF ms w (cs1 ++ TNow id st :: cs2) sn evs sw) FTau
      (mkF ms (tick w) (cs1 ++ TPub (mkEvent id st (next_now w)) :: cs2) sn
         (evs ++ [mkEvent id st (next_now w)]) sw)
| fstep_publish ms w cs1 cs2 sn evs sw event :
    f_step (mkF ms w (cs1 ++ TPub event :: cs2) sn evs sw) (FPublish event)
      (mkF ms w (cs1 ++ cs2) sn evs sw)
| fstep_time ms w cs sn evs sw :
    f_step (mkF ms w cs sn evs sw) FTau (mkF ms (tick w) cs sn evs sw)
| fstep_snap_start ms w cs evs sw ids :
    f_step (mkF ms w cs SnapNone evs sw) FTau
      (mkF ms (tick w) cs (SnapRun (next_now w) ids) evs sw)
| fstep_snap_read ms w cs ts id ids evs sw ctx ms' w' r :
    Store_IsBanned ctx id (ms, w) = ((ms', w'), Ret r) →
    f_step (mkF ms w cs (SnapRun ts (id :: ids)) evs sw) FTau
      (mkF ms' w' cs
         (match r with Ok banned => SnapGot ts id banned ids | Err e => SnapDone (Some e) end) evs sw)
| fstep_snap_skip ms w cs ts id banned ids evs sw :
    f_step (mkF ms w cs (SnapGot ts id banned ids) evs sw) (FLoad (mkWrite id banned ts) true)
      (mkF ms w cs (SnapRun ts ids) evs (sw ++ [mkWrite id banned ts]))
| fstep_snap_load ms w cs ts id banned ids evs sw :
    f_step (mkF ms w cs (SnapGot ts id banned ids) evs sw) (FLoad (mkWrite id banned ts) false)
      (mkF ms w cs (SnapLoaded ts id banned ids) evs sw)
| fstep_snap_store ms w cs ts id banned ids evs sw :
    f_step (mkF ms w cs (SnapLoaded ts id banned ids) evs sw) (FStore (mkWrite id banned ts))
      (mkF ms w cs (SnapRun ts ids) evs (sw ++ [mkWrite id banned ts]))
| fstep_snap_end ms w cs ts evs sw :
    f_step (mkF ms w cs (SnapRun ts []) evs sw) FTau (mkF ms w cs (SnapDone None) evs sw).

Definition f_view (f : front) : gmap TenantID Tenant := ms_view (f_ms f) (w_heap (f_w f)).

(** The checker has been told about the tenant, or will be. *)
Definition f_heard (id : TenantID) (f : front) : Prop :=
  (∃ ev, ev ∈ f_evs f ∧ ev_TenantID ev = id) ∨ id ∈ bw_id <$> f_snapw f.

(** Two readings of the clock are never equal. *)
Definition clock_strict (c : nat → Z) : Prop := ∀ i j, i < j → (c i < c j)%Z.

(** The tenant a call is about. *)
Definition call_id (c : call_phase) : TenantID :=
  match c with TSet id _ | TNow id _ => id | TPub ev => ev_TenantID ev end.

Definition calls_on (id : TenantID) (cs : list call_phase) : list call_phase :=
  filter (λ c, call_id c = id) cs.

(** A call about [id] starts only when no other one is in progress. *)
Definition apart (id : TenantID) (cs : list call_phase) (l : f_event) : Prop :=
  l = FStart id → calls_on id cs = [].

(** ** What holds however calls overlap *)
Definition pubs (cs : list call_phase) : list TenantEvent :=
  omap (λ c, match c with TPub ev => Some ev | _ => None end) cs.

Definition ev_on (id : TenantID) (evs : list TenantEvent) : list TenantEvent :=
  filter (λ ev, ev_TenantID ev = id) evs.

Definition snap_time (sn : snap_phase) : option Z :=
  match sn with SnapRun ts _ | SnapGot ts _ _ _ | SnapLoaded ts _ _ _ => Some ts | _ => None end.

(** The entry read and not applied yet, and the one between [Load] and [Store]. *)
Definition snap_got (sn : snap_phase) : list ban_write :=
  match sn with SnapGot ts id b _ | SnapLoaded ts id b _ => [mkWrite id b ts] | _ => [] end.
Definition snap_loaded (sn : snap_phase) : list ban_write :=
  match sn with SnapLoaded ts id b _ => [mkWrite id b ts] | _ => [] end.

Definition snap_times (f : front) : list Z :=
  (bw_at <$> f_snapw f) ++ option_list (snap_time (f_snap f)).

Record f_ok (f : front) : Prop := {
  fo_wf : ms_wf (f_ms f) (w_heap (f_w f));
  fo_clock : clock_strict (w_clock (f_w f));
  fo_sorted : StronglySorted Z.lt (ev_Timestamp <$> f_evs f);
  fo_now ev : ev ∈ f_evs f → (ev_Timestamp ev < next_now (f_w f))%Z;
  fo_pubs ev : ev ∈ pubs (f_calls f) → ev ∈ f_evs f;
  fo_snap_at ts : ts ∈ snap_times f →
    (ts < next_now (f_w f))%Z ∧ ∀ ev, ev ∈ f_evs f → ev_Timestamp ev ≠ ts
}.

Lemma pubs_app cs1 cs2 : pubs (cs1 ++ cs2) = pubs cs1 ++ pubs cs2.
Proof. apply omap_app. Qed.

Lemma ev_on_app id evs evs' : ev_on id (evs ++ evs') = ev_on id evs ++ ev_on id evs'.
Proof. apply filter_app. Qed.

Lemma ev_on_snoc id evs ev :
  ev_on id (evs ++ [ev]) = ev_on id evs ++ (if decide (ev_TenantID ev = id) then [ev] else []).
Proof. unfold ev_on. by rewrite filter_app. Qed.

Lemma elem_of_ev_on id evs ev : ev ∈ ev_on id evs ↔ ev_TenantID ev = id ∧ ev ∈ evs.
Proof. unfold ev_on. by rewrite list_elem_of_filter. Qed.

Lemma next_now_tick w : clock_strict (w_clock w) → (next_now w < next_now (tick w))%Z.
Proof. intros H. apply H. simpl. lia. Qed.

Lemma sorted_snoc (l : list Z) z :
  StronglySorted Z.lt l → (∀ x, x ∈ l → (x < z)%Z) → StronglySorted Z.lt (l ++ [z]).
Proof.
  induction 1 as [|x l Hs IH Hx]; intros Hz; simpl; [repeat constructor |].
  constructor; [apply IH; set_solver |]. apply Forall_app. split; [done |].
  constructor; [|constructor]. apply Hz. by left.
Qed.

(** [SetState] on the [MemoryStore]: it changes the tenant's state in the view, or
    nothing. *)
Lemma SetState_view ctx id st ms w ms' w' err :
  ms_wf ms (w_heap w) → AdminStore_SetState ctx id st (ms, w) = ((ms', w'), Ret err) →
  ms_wf ms' (w_heap w') ∧ w_clock w' = w_clock w ∧ w_pos w' = w_pos w ∧
  match err with
  | None => is_Some (ms_view ms (w_heap w) !! id) ∧
      ms_view ms' (w_heap w') = alter (with_state st) id (ms_view ms (w_heap w))
  | Some _ => ms' = ms ∧ w' = w
  end.
Proof.
  intros Hwf E. simpl in E. destruct (ms_view ms (w_heap w) !! id) as [t|] eqn:Hid.
  - destruct (SetState_known ctx id st _ _ _ Hwf Hid) as (h' & E' & Hwf' & Hv).
    rewrite E' in E. injection E as <- <- <-. simpl. eauto 10.
  - rewrite SetState_eq, Hid in E by done.
    assert (((ms, w), Ret (Some ErrTenantNotFound)) = ((ms', w'), Ret err)) as [= <- <- <-].
    { by destruct (ms_tenants ms !! id). }
    done.
Qed.

Lemma next_now_eq w w' : w_clock w' = w_clock w → w_pos w' = w_pos w → next_now w' = next_now w.
Proof. unfold next_now. by intros -> ->. Qed.

Lemma f_ok_tick ms w cs sn sn' evs sw :
  (∀ ts, snap_time sn' = Some ts → snap_time sn = Some ts ∨ ts = next_now w) →
  f_ok (mkF ms w cs sn evs sw) → f_ok (mkF ms (tick w) cs sn' evs sw).
Proof.
  intros Hts [Hwf Hck Hso Hnow Hpub Hat]. pose proof (next_now_tick w Hck) as Htick.
  unfold snap_times in *; simpl in *. split; unfold snap_times; simpl; try done.
  - intros e He. specialize (Hnow e He). lia.
  - intros ts [Ht|Ht]%elem_of_app.
    + destruct (Hat ts) as [H1 H2]; [by apply elem_of_app; left |]. split; [lia | done].
    + destruct (snap_time sn') as [ts'|] eqn:E; [|by apply not_elem_of_nil in Ht].
      apply list_elem_of_singleton in Ht as ->. destruct (Hts _ eq_refl) as [Ht| ->].
      * destruct (Hat ts') as [H1 H2]; [apply elem_of_app; right; rewrite Ht; by left |].
        split; [lia | done].
      * split; [done |]. intros e He. specialize (Hnow e He). lia.
Qed.

Lemma f_ok_now ms w cs1 cs2 sn evs sw id st :
  let ev := mkEvent id st (next_now w) in
  f_ok (mkF ms w (cs1 ++ TNow id st :: cs2) sn evs sw) →
  f_ok (mkF ms (tick w) (cs1 ++ TPub ev :: cs2) sn (evs ++ [ev]) sw).
Proof.
  intros ev [Hwf Hck Hso Hnow Hpub Hat]. pose proof (next_now_tick w Hck) as Htick.
  unfold snap_times in *; simpl in *. split; unfold snap_times; simpl; try done.
  - rewrite fmap_app. apply sorted_snoc; [done |].
    intros z (e & -> & He)%list_elem_of_fmap. by apply Hnow.
  - intros e [He|He%list_elem_of_singleton]%elem_of_app; [|by subst].
    specialize (Hnow e He). lia.
  - intros e. rewrite pubs_app in *. simpl in *. set_solver.
  - intros ts Hts'. destruct (Hat ts Hts') as [H1 H2]. split; [lia |].
    intros e [He|He%list_elem_of_singleton]%elem_of_app; [by apply H2 |]. subst. simpl. lia.
Qed.

(** Every step keeps it. *)
Lemma f_step_ok f l f' : f_step f l f' → f_ok f → f_ok f'.
Proof.
  intros Hstep Hok. destruct Hstep; simpl in *.
  - destruct Hok as [Hwf Hck Hso Hnow Hpub Hat]. split; try done. simpl in *.
    intros ev. rewrite pubs_app. simpl. rewrite app_nil_r. apply Hpub.
  - destruct Hok as [Hwf Hck Hso Hnow Hpub Hat]. simpl in *.
    destruct (SetState_view _ _ _ _ _ _ _ _ Hwf H) as (Hwf' & Hc & Hp & _).
    pose proof (next_now_eq _ _ Hc Hp) as Hn.
    split; simpl; unfold snap_times in *; simpl in *; rewrite ?Hc, ?Hn; try done.
    intros ev Hev. apply Hpub. rewrite !pubs_app in *. destruct err; set_solver.
  - by apply f_ok_now.
  - destruct Hok as [Hwf Hck Hso Hnow Hpub Hat]. split; try done. simpl in *.
    intros ev Hev. apply Hpub. rewrite !pubs_app in *. set_solver.
  - by eapply f_ok_tick; [intros ts; left |].
  - eapply f_ok_tick; [|exact Hok]. simpl. intros ? [= <-]. auto.
  - rewrite IsBanned_eq in H by apply Hok. injection H as <- <- Hb.
    destruct Hok as [Hwf Hck Hso Hnow Hpub Hat]. split; try done.
    intros ts'. unfold snap_times in *; simpl in *. intros Ht. apply Hat. destruct r; simpl in *; set_solver.
  - destruct Hok as [Hwf Hck Hso Hnow Hpub Hat]. split; try done.
    intros ts'. unfold snap_times in *; simpl in *. rewrite fmap_app. simpl. intros Ht. apply Hat. set_solver.
  - by destruct Hok as [Hwf Hck Hso Hnow Hpub Hat].
  - destruct Hok as [Hwf Hck Hso Hnow Hpub Hat]. split; try done.
    intros ts'. unfold snap_times in *; simpl in *. rewrite fmap_app. simpl. intros Ht. apply Hat. set_solver.
  - destruct Hok as [Hwf Hck Hso Hnow Hpub Hat]. split; try done.
    intros ts'. unfold snap_times in *; simpl in *. intros Ht. apply Hat. set_solver.
Qed.

Lemma f_ok_init ms w :
  ms_wf ms (w_heap w) → clock_strict (w_clock w) → f_ok (mkF ms w [] SnapNone [] []).
Proof.
  intros Hwf Hck. split; simpl; try done; try (by intros ? ?%not_elem_of_nil). constructor.
Qed.

(** ** A tenant whose calls do not overlap *)

(** A state change that has no event yet. *)
Definition changing (id : TenantID) (cs : list call_phase) : Prop := ∃ st, TNow id st ∈ cs.

(** What the store holds is what the last event says, or what the call in between
    is about to announce. *)
Definition store_ok (id : TenantID) (v : gmap TenantID Tenant) (cs : list call_phase)
    (evs : list TenantEvent) : Prop :=
  (∀ st, TNow id st ∈ cs → ∃ t, v !! id = Some t ∧ Tenant_State t = st) ∧
  (¬ changing id cs → ∀ ev, last (ev_on id evs) = Some ev →
     ∃ t, v !! id = Some t ∧ Tenant_State t = ev_State ev).

(** An entry of the snapshot is current, or a later event exists or is coming. *)
Definition snap_ok (v : gmap TenantID Tenant) (cs : list call_phase) (evs : list TenantEvent)
    (x : ban_write) : Prop :=
  (∃ ev, ev ∈ evs ∧ ev_TenantID ev = bw_id x ∧ (bw_at x < ev_Timestamp ev)%Z) ∨
  changing (bw_id x) cs ∨
  ∃ t, v !! bw_id x = Some t ∧ bw_banned x = bool_decide (Tenant_State t = Banned).

(** The events from number [k] on tell the story of tenant [id]; entries of the snapshot
    that are [stale] are older than all of them. *)
Record tracks (id : TenantID) (k : nat) (stale : ban_write → Prop) (f : front) : Prop := {
  tk_serial : length (calls_on id (f_calls f)) ≤ 1;
  tk_from : k ≤ length (f_evs f);
  tk_store : store_ok id (f_view f) (f_calls f) (drop k (f_evs f));
  tk_snap x : x ∈ f_snapw f ++ snap_got (f_snap f) → bw_id x = id →
    stale x ∨ snap_ok (f_view f) (f_calls f) (drop k (f_evs f)) x;
  tk_old x : stale x → (bw_at x < next_now (f_w f))%Z;
  tk_stale x ev : stale x → ev ∈ drop k (f_evs f) → (bw_at x < ev_Timestamp ev)%Z
}.

Definition same_changing (id : TenantID) (cs cs' : list call_phase) : Prop :=
  ∀ st, TNow id st ∈ cs ↔ TNow id st ∈ cs'.

Lemma changing_same id cs cs' : same_changing id cs cs' → changing id cs ↔ changing id cs'.
Proof. intros H. split; intros [st Hst]; exists st; by apply H. Qed.

Lemma store_ok_same id v v' cs cs' evs :
  same_changing id cs cs' → v' !! id = v !! id → store_ok id v cs evs → store_ok id v' cs' evs.
Proof.
  intros Hcs Hv [H1 H2]. split.
  - intros st Hst. rewrite Hv. by apply H1, Hcs.
  - rewrite <- (changing_same _ _ _ Hcs), Hv. apply H2.
Qed.

Lemma snap_ok_same v v' cs cs' evs x :
  same_changing (bw_id x) cs cs' → v' !! bw_id x = v !! bw_id x → snap_ok v cs evs x → snap_ok v' cs' evs x.
Proof. intros Hcs Hv. unfold snap_ok. by rewrite (changing_same _ _ _ Hcs), Hv. Qed.

(** The only call about a tenant. *)
Lemma calls_on_split id cs1 c cs2 :
  length (calls_on id (cs1 ++ c :: cs2)) ≤ 1 → call_id c = id →
  calls_on id cs1 = [] ∧ calls_on id cs2 = [].
Proof.
  unfold calls_on. rewrite filter_app, filter_cons. intros H Hc. rewrite decide_True, length_app in H by done.
  simpl in H. split; apply length_zero_iff_nil; lia.
Qed.

Lemma calls_on_nil id cs c : calls_on id cs = [] → c ∈ cs → call_id c ≠ id.
Proof.
  intros H Hc Hid. apply (not_elem_of_nil c). rewrite <- H. by apply list_elem_of_filter.
Qed.

Lemma calls_on_other id cs1 c cs2 :
  call_id c ≠ id → calls_on id (cs1 ++ c :: cs2) = calls_on id (cs1 ++ cs2).
Proof. intros Hc. unfold calls_on. by rewrite !filter_app, filter_cons, decide_False. Qed.

Lemma calls_on_fewer id cs1 c cs2 :
  length (calls_on id (cs1 ++ cs2)) ≤ length (calls_on id (cs1 ++ c :: cs2)).
Proof. unfold calls_on. rewrite !filter_app, filter_cons, !length_app. case_decide; simpl; lia. Qed.

(** A call about another tenant, or one that has no change to announce, comes or goes. *)
Lemma same_changing_other id cs1 c cs2 :
  (∀ st, c ≠ TNow id st) → same_changing id (cs1 ++ c :: cs2) (cs1 ++ cs2).
Proof. intros Hc st. rewrite !elem_of_app, elem_of_cons. specialize (Hc st). naive_solver. Qed.

(** Calls, world and store change where [id] does not notice. *)
Lemma tracks_same id k stale ms ms' w w' cs cs' sn evs sw :
  same_changing id cs cs' → length (calls_on id cs') ≤ length (calls_on id cs) →
  ms_view ms' (w_heap w') !! id = ms_view ms (w_heap w) !! id → (next_now w ≤ next_now w')%Z →
  tracks id k stale (mkF ms w cs sn evs sw) → tracks id k stale (mkF ms' w' cs' sn evs sw).
Proof.
  intros Hsame Hlen Hv Hn [Hser Hk Hst Hsn Hold Hstale]. unfold f_view in *; simpl in *.
  split; unfold f_view; simpl; [lia | done | by eapply store_ok_same | | | done].
  - intros x Hx Hid. destruct (Hsn x Hx Hid) as [?|?]; [by left | right].
    subst id. by eapply snap_ok_same.
  - intros x Hx. specialize (Hold x Hx). lia.
Qed.

(** The step that changes the store. *)
Lemma tracks_set id k stale ms w cs1 cs2 sn evs sw id' st ctx ms' w' err :
  AdminStore_SetState ctx id' st (ms, w) = ((ms', w'), Ret err) → ms_wf ms (w_heap w) →
  tracks id k stale (mkF ms w (cs1 ++ TSet id' st :: cs2) sn evs sw) →
  tracks id k stale
    (mkF ms' w' (cs1 ++ (match err with None => [TNow id' st] | Some _ => [] end) ++ cs2) sn evs sw).
Proof.
  intros E Hwf Htk. destruct (SetState_view _ _ _ _ _ _ _ _ Hwf E) as (_ & Hc & Hp & Hv).
  pose proof (next_now_eq _ _ Hc Hp) as Hn.
  assert (same_changing id (cs1 ++ TSet id' st :: cs2) (cs1 ++ cs2)) as Hsame
    by by apply same_changing_other.
  pose proof (calls_on_fewer id cs1 (TSet id' st) cs2) as Hlen.
  destruct err as [e|]; simpl.
  { destruct Hv as [-> ->]. by eapply tracks_same. }
  destruct Hv as [[t Ht] Hv]. destruct (decide (id' = id)) as [->|Hne].
  2:{ eapply tracks_same; [| | | |exact Htk]; rewrite ?Hv, ?lookup_alter_ne, ?Hn by done; [| |done|done].
      - intros st'. rewrite (Hsame st'), !elem_of_app, elem_of_cons. naive_solver.
      - by rewrite (calls_on_other _ _ (TNow id' st)). }
  destruct Htk as [Hser Hk Hst Hsn Hold Hstale]. simpl in *. unfold f_view in *; simpl in *.
  destruct (calls_on_split _ _ _ _ Hser eq_refl) as [H1 H2].
  split; unfold f_view; simpl; [|done| | | |done].
  - unfold calls_on in *. rewrite filter_app, filter_cons, H1, H2. simpl. case_decide; simpl; lia.
  - split.
    + intros st' [Hx|[[= ->]|Hx]%elem_of_cons]%elem_of_app;
        [by destruct (calls_on_nil _ _ _ H1 Hx) | | by destruct (calls_on_nil _ _ _ H2 Hx)].
      exists (with_state st t). by rewrite Hv, lookup_alter_eq, Ht.
    + intros Hch. destruct Hch. exists st. set_solver.
  - intros x Hx Hid. right. right; left. exists st. rewrite Hid. set_solver.
  - intros x Hx. rewrite Hn. auto.
Qed.

(** The time of an entry is the snapshot's. *)
Lemma snap_entry_time x sw sn :
  x ∈ sw ++ snap_got sn → bw_at x ∈ (bw_at <$> sw) ++ option_list (snap_time sn).
Proof.
  rewrite !elem_of_app. intros [Hx|Hx]; [left; by apply list_elem_of_fmap_2 | right].
  destruct sn; simpl in *; try by apply not_elem_of_nil in Hx.
  all: apply list_elem_of_singleton in Hx as ->; by left.
Qed.

(** The step that makes the event. *)
Lemma tracks_now id k stale ms w cs1 cs2 sn evs sw id' st :
  let ev := mkEvent id' st (next_now w) in
  f_ok (mkF ms w (cs1 ++ TNow id' st :: cs2) sn evs sw) →
  tracks id k stale (mkF ms w (cs1 ++ TNow id' st :: cs2) sn evs sw) →
  tracks id k stale (mkF ms (tick w) (cs1 ++ TPub ev :: cs2) sn (evs ++ [ev]) sw).
Proof.
  intros ev [Hwf Hck Hso Hnow Hpub Hat] [Hser Hk [Hst1 Hst2] Hsn Hold Hstale].
  pose proof (next_now_tick w Hck) as Htick.
  unfold f_view in *; simpl in *. split; unfold f_view; simpl.
  - unfold calls_on in *. rewrite !filter_app, !filter_cons, !length_app in *. simpl in *.
    repeat case_decide; simpl in *; lia.
  - rewrite length_app. simpl. lia.
  - rewrite drop_app_le by done. destruct (decide (id' = id)) as [->|Hne].
    + destruct (calls_on_split _ _ _ _ Hser eq_refl) as [H1 H2]. split.
      * intros st' [Hx|[?|Hx]%elem_of_cons]%elem_of_app;
          [by destruct (calls_on_nil _ _ _ H1 Hx) | done | by destruct (calls_on_nil _ _ _ H2 Hx)].
      * intros _ e. rewrite ev_on_snoc, decide_True, last_snoc by done. intros [= <-]. simpl.
        apply Hst1. set_solver.
    + assert (ev_on id (drop k evs ++ [ev]) = ev_on id (drop k evs)) as Eev
        by (rewrite ev_on_snoc, decide_False by done; apply app_nil_r).
      split; rewrite ?Eev; [intros st' Hx; apply Hst1; set_solver |].
      intros Hch. apply Hst2. intros [st' Hx]. apply Hch. exists st'.
      rewrite !elem_of_app, !elem_of_cons in *. naive_solver.
  - intros x Hx Hid. rewrite drop_app_le by done.
    destruct (Hsn x Hx Hid) as [?|[(e & ? & ? & ?)|[[st' Hch]|?]]]; [by left | right..].
    + left. exists e. set_solver.
    + destruct (decide (id' = id)) as [->|Hne].
      * left. exists ev. split_and!; [set_solver | by rewrite Hid |]. simpl. apply Hat. unfold snap_times. simpl.
        apply snap_entry_time. done.
      * right; left. exists st'. rewrite !elem_of_app, !elem_of_cons in *. naive_solver.
    + by right; right.
  - intros x Hx. specialize (Hold x Hx). lia.
  - intros x e Hx. rewrite drop_app_le by done.
    intros [He|He%list_elem_of_singleton]%elem_of_app; [by eapply Hstale |]. subst e. simpl. auto.
Qed.

(** The snapshot moves on. *)
Lemma tracks_snap id k stale ms w cs sn sn' evs sw sw' :
  tracks id k stale (mkF ms w cs sn evs sw) →
  (∀ x, x ∈ sw' ++ snap_got sn' → x ∈ sw ++ snap_got sn ∨
     snap_ok (ms_view ms (w_heap w)) cs (drop k evs) x) →
  tracks id k stale (mkF ms w cs sn' evs sw').
Proof.
  intros [Hser Hk Hst Hsn Hold Hstale] Hx. unfold f_view in *; simpl in *. split; try done; simpl.
  intros x Hin Hid. destruct (Hx x Hin) as [?|?]; [by apply Hsn | by right].
Qed.

(** Every step keeps it, if calls about the tenant stay apart. *)
Lemma f_step_tracks id k stale f l f' :
  f_step f l f' → apart id (f_calls f) l → f_ok f → tracks id k stale f → tracks id k stale f'.
Proof.
  intros Hstep Hap Hok Htk. unfold apart in Hap. destruct Hstep; simpl in *.
  - assert (length (calls_on id (cs ++ [TSet id0 st])) ≤ 1) as Hlen.
    { pose proof (tk_serial _ _ _ _ Htk) as Hser. simpl in Hser. unfold calls_on in *.
      rewrite filter_app, filter_cons, filter_nil, length_app. case_decide as Hid; simpl in *; [|lia].
      rewrite Hap by congruence. simpl. lia. }
    destruct Htk as [Hser Hk Hst Hsn Hold Hstale].
    assert (same_changing id cs (cs ++ [TSet id0 st])) as Hsame.
    { intros st'. rewrite elem_of_app, list_elem_of_singleton. naive_solver. }
    split; try done; simpl in *; [by eapply store_ok_same |].
    intros x Hx Hid. destruct (Hsn x Hx Hid) as [?|?]; [by left | right]. subst id. by eapply snap_ok_same.
  - eapply tracks_set; [done | apply Hok | done].
  - by apply tracks_now.
  - eapply tracks_same; [| | | |exact Htk]; [by apply same_changing_other | apply calls_on_fewer | done | done].
  - eapply tracks_same; [| | | |exact Htk]; [done | done | done |].
    apply Z.lt_le_incl, next_now_tick, (fo_clock _ Hok).
  - eapply (tracks_snap _ _ _ _ _ _ SnapNone); [|by left].
    eapply tracks_same; [| | | |exact Htk]; [done | done | done |].
    apply Z.lt_le_incl, next_now_tick, (fo_clock _ Hok).
  - rewrite IsBanned_eq in H by apply Hok. injection H as <- <- Hb. eapply tracks_snap; [done |].
    intros x Hx. destruct r as [b|e]; simpl in Hx; [|rewrite app_nil_r in *; left; set_solver].
    apply elem_of_app in Hx as [?|Hx%list_elem_of_singleton]; [left; set_solver |]. right. subst x.
    right; right. simpl. case_match; [|done]. injection Hb as <-. eauto.
  - eapply tracks_snap; [done |]. intros x. simpl. rewrite app_nil_r. by left.
  - eapply tracks_snap; [done |]. by left.
  - eapply tracks_snap; [done |]. intros x. simpl. rewrite app_nil_r. by left.
  - eapply tracks_snap; [done |]. by left.
Qed.

(** It holds at startup, of all events and with nothing stale. *)
Lemma tracks_init id ms w : tracks id 0 (λ _, False) (mkF ms w [] SnapNone [] []).
Proof.
  split; simpl; try done; [lia | | by intros ? ?%not_elem_of_nil].
  split; [by intros st ?%not_elem_of_nil | done].
Qed.

(** And it holds from any moment on at which no call about the tenant is in progress: what
    the snapshot had by then is stale. *)
Lemma tracks_restart id f :
  f_ok f → calls_on id (f_calls f) = [] →
  tracks id (length (f_evs f)) (λ x, (bw_at x < next_now (f_w f))%Z) f.
Proof.
  intros Hok Hc. split; try done; rewrite ?Hc, ?drop_all; simpl; [lia | | |].
  - split; [|done]. intros st Hx. by destruct (calls_on_nil _ _ _ Hc Hx).
  - intros x Hx _. left. apply (fo_snap_at _ Hok). unfold snap_times. by apply snap_entry_time.
  - by intros x ev _ ?%not_elem_of_nil.
Qed.

(** The events only grow, and so do the entries of the snapshot. *)
Lemma f_step_heard id f l f' : f_step f l f' → f_heard id f → f_heard id f'.
Proof.
  unfold f_heard. intros Hstep Hh. destruct Hstep; simpl in *; try done.
  - destruct Hh as [(ev & ? & ?)|?]; [left | by right]. exists ev. set_solver.
  - destruct Hh as [?|?]; [by left | right]. rewrite fmap_app. set_solver.
  - destruct Hh as [?|?]; [by left | right]. rewrite fmap_app. set_solver.
Qed.

(** What the checker can have been told is in the past. *)
Lemma writes_past f x :
  f_ok f → x ∈ (write_of <$> f_evs f) ++ f_snapw f → (bw_at x < next_now (f_w f))%Z.
Proof.
  intros Hf [(ev & -> & Hev)%list_elem_of_fmap|Hx]%elem_of_app; [by apply (fo_now _ Hf) |].
  apply (fo_snap_at _ Hf). unfold snap_times. apply elem_of_app. left. by apply list_elem_of_fmap_2.
Qed.

(** ** The latest event *)
Lemma sorted_snoc_inv (l : list Z) z :
  StronglySorted Z.lt (l ++ [z]) → StronglySorted Z.lt l ∧ ∀ x, x ∈ l → (x < z)%Z.
Proof.
  induction l as [|y l IH]; simpl; [intros _; split; [constructor | by intros ? ?%not_elem_of_nil] |].
  intros H. inversion H as [|? ? Hs Hf]; subst. destruct (IH Hs) as [H1 H2].
  apply Forall_app in Hf as [Hf1 Hf2]. split; [by constructor |].
  inversion Hf2; subst. intros x [->|Hx]%elem_of_cons; [done | by apply H2].
Qed.

(** The last event about a tenant is its latest. *)
Lemma last_is_latest evs id ev :
  StronglySorted Z.lt (ev_Timestamp <$> evs) → ev ∈ evs → ev_TenantID ev = id →
  ∃ ev', last (ev_on id evs) = Some ev' ∧ ev' ∈ evs ∧ ev_TenantID ev' = id ∧
    (ev = ev' ∨ (ev_Timestamp ev < ev_Timestamp ev')%Z).
Proof.
  induction evs as [|e evs IH] using rev_ind; [by intros _ ?%not_elem_of_nil |].
  rewrite fmap_app. intros [Hs Hlt]%sorted_snoc_inv [Hev|Hev%list_elem_of_singleton]%elem_of_app Hid.
  - rewrite ev_on_snoc. case_decide as He.
    + exists e. rewrite last_snoc. split_and!; [done | set_solver | done |]. right.
      apply Hlt. by apply list_elem_of_fmap_2.
    + rewrite app_nil_r. destruct (IH Hs Hev Hid) as (ev' & ? & ? & ? & ?).
      exists ev'. split_and!; [done | set_solver | done | done].
  - subst e. rewrite ev_on_snoc, decide_True by done. exists ev. rewrite last_snoc.
    split_and!; [done | set_solver | done | by left].
Qed.

(** The checker has been told about the tenant since the moment [tracks] speaks of. *)
Definition heard_since (id : TenantID) (k : nat) (stale : ban_write → Prop) (f : front) : Prop :=
  (∃ ev, ev ∈ drop k (f_evs f) ∧ ev_TenantID ev = id) ∨
  (k = 0 ∧ (∀ x, ¬ stale x) ∧ f_heard id f).

Lemma heard_since_last id k stale f ev :
  heard_since id k stale f → last (ev_on id (f_evs f)) = Some ev →
  last (ev_on id (drop k (f_evs f))) = Some ev.
Proof.
  intros [(e & He & Hid)|(-> & _)]; [|done].
  rewrite <- (take_drop k (f_evs f)) at 1. rewrite ev_on_app.
  assert (e ∈ ev_on id (drop k (f_evs f))) as Hin by by apply elem_of_ev_on.
  destruct (ev_on id (drop k (f_evs f))) as [|x l _] using rev_ind; [by apply not_elem_of_nil in Hin |].
  by rewrite app_assoc, !last_snoc.
Qed.

(** The times [tracks] calls stale are those before the moment it speaks of. *)
Lemma fresh_event id k old f ev :
  tracks id k (λ x, old (bw_at x)) f → ev ∈ drop k (f_evs f) → ¬ old (ev_Timestamp ev).
Proof.
  intros Htk Hev Ho. pose proof (tk_stale _ _ _ _ Htk (write_of ev) ev Ho Hev). simpl in *. lia.
Qed.

(** The latest event since then wins over everything the checker was told. *)
Lemma latest_wins id k old f (ap : list ban_write) w ev :
  f_ok f → tracks id k (λ x, old (bw_at x)) f → heard_since id k (λ x, old (bw_at x)) f →
  (∀ ev, last (ev_on id (f_evs f)) = Some ev → write_of ev ∈ ap) →
  (∀ x, x ∈ ap → bw_id x = id → le_old old (bw_at x) (bw_at w)) →
  ev ∈ f_evs f → ev_TenantID ev = id → (ev_Timestamp ev ≤ bw_at w)%Z.
Proof.
  intros Hok Htk Hh Hlast Hmax Hev Hid.
  destruct (last_is_latest _ _ _ (fo_sorted _ Hok) Hev Hid) as (ev' & Hl & Hev' & Hid' & Hor).
  assert (¬ old (ev_Timestamp ev')) as Hfresh.
  { pose proof (heard_since_last _ _ _ _ _ Hh Hl) as Hl'.
    apply last_Some_elem_of, elem_of_ev_on in Hl' as [_ Hin]. by eapply fresh_event. }
  destruct (Hmax (write_of ev') (Hlast _ Hl) Hid') as [?|?]; [done |]. simpl in *. destruct Hor as [<-|?]; lia.
Qed.

(** A checker that was told nothing false, everything of the snapshot and the latest
    event of a tenant agrees with the store on it. *)
Lemma told_agrees f bc ld ap id k old :
  f_ok f → tracks id k (λ x, old (bw_at x)) f → calls_on id (f_calls f) = [] →
  converging id old None bc ld ap →
  (∀ x, x ∈ ap → x ∈ (write_of <$> f_evs f) ++ f_snapw f) →
  (∀ x, x ∈ f_snapw f → x ∈ ap) →
  (∀ ev, last (ev_on id (f_evs f)) = Some ev → write_of ev ∈ ap) →
  heard_since id k (λ x, old (bw_at x)) f →
  ∃ t, f_view f !! id = Some t ∧
    BanChecker_IsBanned id bc = bool_decide (Tenant_State t = Banned).
Proof.
  intros Hok Htk Hc [Hent _] Hsub Hsnap Hlast Hh.
  assert (¬ changing id (f_calls f)) as Hch.
  { intros [st Hx]. by destruct (calls_on_nil _ _ _ Hc Hx). }
  pose proof (fo_sorted _ Hok) as Hso. unfold BanChecker_IsBanned.
  destruct Hent as [[_ Hall]|(w & Hw & Hid & -> & Hmax & _)].
  - exfalso. assert (f_heard id f) as [(ev & Hev & Hid)|(w & Hid & Hw)%list_elem_of_fmap].
    { destruct Hh as [(ev & Hev%elem_of_drop_in & Hid)|(_ & _ & ?)]; [left; eauto | done]. }
    + destruct (last_is_latest _ _ _ Hso Hev Hid) as (ev' & Hl & _ & Hid' & _).
      by specialize (Hall (write_of ev') (Hlast _ Hl) Hid').
    + by specialize (Hall w (Hsnap _ Hw) (eq_sym Hid)).
  - assert (∀ ev, ev ∈ f_evs f → ev_TenantID ev = id → (ev_Timestamp ev ≤ bw_at w)%Z) as Hlatest.
    { intros ev. by eapply latest_wins. }
    apply Hsub, elem_of_app in Hw as [Hw|Hw]; simpl.
    + apply list_elem_of_fmap in Hw as (ev & -> & Hev). simpl in Hid.
      destruct (last_is_latest _ _ _ Hso Hev Hid) as (ev' & Hl & Hev' & Hid' & [<-|Hlt]).
      * destruct (proj2 (tk_store _ _ _ _ Htk) Hch ev) as (t & Hv & Hs); [by eapply heard_since_last |].
        exists t. by rewrite Hs.
      * specialize (Hlatest _ Hev' Hid'). simpl in *. lia.
    + destruct (tk_snap _ _ _ _ Htk w) as [Hst|[(ev & Hev%elem_of_drop_in & Hide & Hlt)|[Hx|(t & Hv & Hb)]]].
      * by apply elem_of_app; left.
      * done.
      * exfalso. destruct Hh as [(ev & Hev & Hide)|(_ & Hns & _)]; [|by destruct (Hns w)].
        pose proof (tk_stale _ _ _ _ Htk _ _ Hst Hev). apply elem_of_drop_in in Hev.
        specialize (Hlatest _ Hev Hide). lia.
      * rewrite Hid in Hide. specialize (Hlatest _ Hev Hide). lia.
      * rewrite Hid in Hx. done.
      * rewrite Hid in Hv. eauto.
Qed.

(** ** Calls in progress can return *)
Definition call_weight (c : call_phase) : nat :=
  match c with TSet _ _ => 3 | TNow _ _ => 2 | TPub _ => 1 end.

Fixpoint weights (cs : list call_phase) : nat :=
  match cs with [] => 0 | c :: cs => call_weight c + weights cs end.

Definition calls_weight (f : front) : nat := weights (f_calls f).

Lemma calls_weight_0 f : calls_weight f = 0 → f_calls f = [].
Proof. unfold calls_weight. destruct (f_calls f) as [|[] cs]; simpl; [done | lia..]. Qed.

Lemma SetState_returns ctx id st ms w :
  ms_wf ms (w_heap w) → ∃ ms' w' err, AdminStore_SetState ctx id st (ms, w) = ((ms', w'), Ret err).
Proof.
  intros Hwf. simpl. rewrite SetState_eq by done. repeat case_match; eauto.
Qed.

Lemma call_progress f :
  f_ok f → calls_weight f ≠ 0 →
  ∃ l f', f_step f l f' ∧ (l = FTau ∨ ∃ ev, l = FPublish ev) ∧ calls_weight f' < calls_weight f.
Proof.
  intros Hok Hw. destruct f as [ms w [|[id st|id st|ev] cs] sn evs sw]; unfold calls_weight in *; simpl in *; [done |..].
  - destruct (SetState_returns Background id st ms w (fo_wf _ Hok)) as (ms' & w' & err & E).
    eexists FTau, _. split; [exact (fstep_set ms w [] cs sn evs sw id st Background ms' w' err E) |].
    split; [by left |]. destruct err; simpl; lia.
  - eexists FTau, _. split; [exact (fstep_now ms w [] cs sn evs sw id st) |]. split; [by left | simpl; lia].
  - eexists (FPublish ev), _. split; [exact (fstep_publish ms w [] cs sn evs sw ev) |].
    split; [right; by eexists | simpl; lia].
Qed.

(** Events are only added. *)
Lemma f_step_evs f l f' : f_step f l f' → ∃ new, f_evs f' = f_evs f ++ new.
Proof. destruct 1; simpl; try (exists []; by rewrite app_nil_r). by eexists. Qed.
