(* ===== verification/Propagation.v ===== *)
(** * From [Service] to [BanChecker]

    One instance of the system: [admin.Service] over the [MemoryStore], the
    [MemoryEventBus], and a [BanChecker] subscribed by [New] before anything is
    published, which also loads its initial list from the store.  The goroutines
    (administrative calls, event handlers, the snapshot) interleave between their accesses
    of shared objects; administrative calls overlap freely, and so do handlers and the
    snapshot, which all run [apply].

    A tenant whose own calls do not overlap and whose entry is stored in order is followed
    by the checker; one whose calls overlap may not be, until its next change, nor one
    whose entry is stored by two goroutines at a time ([handlers_can_race]). *)
From S2P Require Import Prelude GoStrings GoLib Goroutines Tenant MemoryStore EventBus BanChecker BanRaces.
From S2P Require Import RetryQueue Admin AdminCalls.
Set Default Goal Selector "!".

Record psys := mkP {
  ps_front : front;
  ps_bus : runningBus BanChecker;
  ps_bc : BanChecker
}.

Inductive p_event : Type :=
| PFront (l : f_event)
| PHandler (a : nat * BanChecker).

Inductive p_step : psys → p_event → psys → Prop :=
| pstep_start f f' bus bc id :
    f_step f (FStart id) f' → p_step (mkP f bus bc) (PFront (FStart id)) (mkP f' bus bc)
| pstep_front f f' bus bc :
    f_step f FTau f' → p_step (mkP f bus bc) (PFront FTau) (mkP f' bus bc)
| pstep_publish f f' bus bc event ctx bus' err :
    f_step f (FPublish event) f' → EventBus_Publish ctx event bus = (bus', err) →
    p_step (mkP f bus bc) (PFront (FPublish event)) (mkP f' bus' bc)
| pstep_load f f' bus bc x :
    f_step f (FLoad x (newer (bc_banned bc !! bw_id x) (bw_at x))) f' →
    p_step (mkP f bus bc) (PFront (FLoad x (newer (bc_banned bc !! bw_id x) (bw_at x)))) (mkP f' bus bc)
| pstep_store f f' bus bc x :
    f_step f (FStore x) f' →
    p_step (mkP f bus bc) (PFront (FStore x)) (mkP f' bus (store_write x bc))
| pstep_handler f meb ts bc a bc' ts' :
    pool_step (bc, ts) a (bc', ts') →
    p_step (mkP f (meb, ts) bc) (PHandler a) (mkP f (meb, ts') bc').

(** The instance at startup: [New] has subscribed the checker. *)
Definition p_init (ms : MemoryStore) (w : world) : psys :=
  let '(bc, bus) := BanChecker_New (B := runningBus BanChecker) (NewMemoryEventBus, []) in
  mkP (mkF ms w [] SnapNone [] []) bus bc.

(** Nothing is in flight: every call has returned and every handler has ended. *)
Definition quiescent (s : psys) : Prop := f_calls (ps_front s) = [] ∧ pool_done (ps_bus s).2.

Definition heard (id : TenantID) (s : psys) : Prop := f_heard id (ps_front s).

Definition ps_view (s : psys) : gmap TenantID Tenant := f_view (ps_front s).

(** The step stores an entry of the checker only if [R] holds of the write, the handlers'
    goroutines and what the snapshot has loaded. *)
Definition p_stores (R : list (routine BanChecker) → list ban_write → ban_write → Prop)
    (s : psys) (l : p_event) : Prop :=
  let ts := (ps_bus s).2 in
  let others := snap_loaded (f_snap (ps_front s)) in
  match l with
  | PHandler a => ∀ y, ts !! a.1 = Some (at_store y) → R ts others y
  | PFront (FStore x) => R ts others x
  | PFront _ => True
  end.

(** A step at which no call about [id] starts while another one is in progress, and nothing
    is stored about [id] while a goroutine with older data is between [Load] and [Store]. *)
Definition p_apart (id : TenantID) (s : psys) (l : p_event) (s' : psys) : Prop :=
  p_step s l s' ∧ (∀ fl, l = PFront fl → apart id (f_calls (ps_front s)) fl) ∧ p_stores (oldest id) s l.

(** A step at which no call starts and whatever is stored is stored in order. *)
Definition p_internal (s : psys) (l : p_event) (s' : psys) : Prop :=
  p_step s l s' ∧ (∀ id, l ≠ PFront (FStart id)) ∧ ∀ id, p_stores (oldest id) s l.

(** ** The invariant *)
Section inv.
Context (id : TenantID) (old : Z → Prop).
Hypothesis old_down : ∀ a b, (a ≤ b)%Z → old b → old a.

(** What was written to the checker, what handlers will write and what calls will
    publish are the events made and the entries applied, each once. *)
Definition writes_ok (bus : runningBus BanChecker) (bc : BanChecker) (cs : list call_phase)
    (others : list ban_write) (evs : list TenantEvent) (sw : list ban_write) : Prop :=
  meb_handlers bus.1 = [BanChecker_handleEvent] ∧
  ∃ ap td, told id old bc bus.2 others ap td ∧
    ap ++ td ++ (write_of <$> pubs cs) ≡ₚ (write_of <$> evs) ++ sw.

Record p_inv (s : psys) : Prop := {
  pi_front : f_ok (ps_front s);
  pi_writes : writes_ok (ps_bus s) (ps_bc s) (f_calls (ps_front s)) (snap_loaded (f_snap (ps_front s)))
                (f_evs (ps_front s)) (f_snapw (ps_front s))
}.

Lemma writes_ok_now bus bc cs1 cs2 ot evs sw id' st ev :
  writes_ok bus bc (cs1 ++ TNow id' st :: cs2) ot evs sw →
  writes_ok bus bc (cs1 ++ TPub ev :: cs2) ot (evs ++ [ev]) sw.
Proof.
  intros (Hb & ap & td & Ht & Hp). split; [done |]. exists ap, td. split; [done |].
  revert Hp. rewrite !pubs_app, !fmap_app. simpl.
  intros Hp. rewrite <- (app_assoc _ _ sw). simpl.
  rewrite <- (Permutation_middle (write_of <$> evs) sw), <- Hp, !app_assoc. symmetry.
  apply Permutation_middle.
Qed.

Lemma writes_ok_publish bus bc cs1 cs2 ot evs sw event ctx bus' err :
  EventBus_Publish ctx event bus = (bus', err) →
  writes_ok bus bc (cs1 ++ TPub event :: cs2) ot evs sw → writes_ok bus' bc (cs1 ++ cs2) ot evs sw.
Proof.
  intros E (Hb & ap & td & Ht & Hp). destruct bus as [meb ts]; simpl in *.
  rewrite Hb in E. injection E as <- <-. split; [done |]. exists ap, (td ++ [write_of event]).
  split; [by apply told_start |]. rewrite <- Hp. rewrite !pubs_app, !fmap_app. simpl.
  rewrite <- !app_assoc. do 2 apply Permutation_app_head. simpl. apply Permutation_middle.
Qed.

Lemma writes_ok_handler meb ts bc cs ot evs sw a bc' ts' :
  pool_step (bc, ts) a (bc', ts') → (∀ y, ts !! a.1 = Some (at_store y) → oldest_than id old ts ot y) →
  writes_ok (meb, ts) bc cs ot evs sw → writes_ok (meb, ts') bc' cs ot evs sw.
Proof using old_down.
  intros Hs Ho (Hb & ap & td & Ht & Hp). split; [done |].
  destruct (told_run id old old_down _ _ _ _ _ _ _ _ Hs Ho Ht) as (ap' & td' & Ht' & Hp'). exists ap', td'.
  split; [done |]. by rewrite app_assoc, Hp', <- app_assoc.
Qed.

(** An entry of the snapshot is through. *)
Lemma writes_ok_snap bus bc bc' cs ot ot' evs sw x :
  (∀ ap td, told id old bc bus.2 ot ap td → told id old bc' bus.2 ot' (x :: ap) td) →
  writes_ok bus bc cs ot evs sw → writes_ok bus bc' cs ot' evs (sw ++ [x]).
Proof.
  intros Hx (Hb & ap & td & Ht & Hp). split; [done |]. exists (x :: ap), td. split; [by apply Hx |].
  simpl. rewrite Hp, app_assoc. apply Permutation_cons_append.
Qed.

(** A step that makes no event leaves the books alone. *)
Lemma writes_ok_calls bus bc cs cs' ot evs sw :
  pubs cs' = pubs cs → writes_ok bus bc cs ot evs sw → writes_ok bus bc cs' ot evs sw.
Proof. unfold writes_ok. by intros ->. Qed.

(** A step of the system is a step of its front part, or of a handler. *)
Lemma p_step_front s l s' :
  p_step s l s' →
  (∃ a, l = PHandler a ∧ ps_front s' = ps_front s) ∨
  ∃ fl, l = PFront fl ∧ f_step (ps_front s) fl (ps_front s').
Proof. destruct 1; simpl; eauto. Qed.

Lemma p_step_inv s l s' : p_step s l s' → p_stores (oldest_than id old) s l → p_inv s → p_inv s'.
Proof using old_down.
  intros Hstep Ho [Hf Hok].
  assert (f_ok (ps_front s')) as Hf'.
  { destruct (p_step_front _ _ _ Hstep) as [(a & _ & ->)|(fl & _ & Hfs)]; [done |]. by eapply f_step_ok. }
  split; [exact Hf' | clear Hf'].
  destruct Hstep as [? ? ? ? ? Hs|? ? ? ? Hs|? ? ? ? ? ? ? ? Hs E|? ? ? ? ? Hs|? ? ? ? ? Hs|]; simpl in *.
  - inversion Hs; subst; simpl in *. eapply writes_ok_calls; [|done]. rewrite pubs_app. apply app_nil_r.
  - inversion Hs; subst; simpl in *; try done; [| by eapply writes_ok_now |].
    + eapply writes_ok_calls; [|done]. rewrite !pubs_app. by destruct err.
    + by destruct r.
  - inversion Hs; subst; simpl in *. exact (writes_ok_publish _ _ _ _ _ _ _ _ ctx _ _ E Hok).
  - inversion Hs as [| | | | | | |? ? ? ? ? ? ? ? ? E1 E2 E3|? ? ? ? ? ? ? ? ? E1 E2 E3| |]; subst; simpl in *.
    + eapply writes_ok_snap; [|exact Hok]. intros ap td. by apply (told_skip _ _ _ _ _ _ _ (mkWrite id0 banned ts)).
    + destruct Hok as (Hb & ap & td & Ht & Hp). split; [done |]. exists ap, td. split; [|done].
      by apply told_load.
  - inversion Hs; subst; simpl in *. eapply writes_ok_snap; [|exact Hok]. intros ap td.
    by apply (told_store _ _ old_down _ _ _ _ (mkWrite id0 banned ts)).
  - by eapply writes_ok_handler.
Qed.

End inv.

(** What holds of every run, of which [oldest_than] asks nothing. *)
Definition p_reach (s : psys) : Prop := ∀ id, p_inv id anything s.

Lemma stores_anything id s l : p_stores (oldest_than id anything) s l.
Proof. unfold p_stores. repeat case_match; try done; intros; intros ? ? ? ?; apply le_anything. Qed.

Lemma stores_weaken id old s l : p_stores (oldest id) s l → p_stores (oldest_than id old) s l.
Proof. unfold p_stores. repeat case_match; try done; eauto using oldest_weaken. Qed.

Lemma p_step_reach s l s' : p_step s l s' → p_reach s → p_reach s'.
Proof. intros Hs Hr id. by eapply (p_step_inv id anything (λ _ _ _ _, I)), Hr; [exact Hs | apply stores_anything]. Qed.

Lemma p_inv_init id old ms w :
  ms_wf ms (w_heap w) → clock_strict (w_clock w) → p_inv id old (p_init ms w).
Proof.
  intros Hwf Hck. split; [by apply f_ok_init | split; [done |]]. exists [], []. split; [apply told_init | done].
Qed.

(** From any moment on, what was written by then is old. *)
Lemma p_inv_restart id s :
  p_inv id anything s → p_inv id (λ z, z < next_now (f_w (ps_front s)))%Z s.
Proof.
  intros [Hf (Hb & ap & td & Ht & Hp)]. split; [done |]. split; [done |]. exists ap, td. split; [|done].
  eapply told_restart; [|exact Ht]. intros x Hx _. apply writes_past; [done |].
  rewrite <- Hp. apply elem_of_app. by left.
Qed.

Lemma p_apart_tracks id k old s l s' :
  (∀ a b, (a ≤ b)%Z → old b → old a) → p_apart id s l s' →
  p_inv id old s ∧ tracks id k (λ x, old (bw_at x)) (ps_front s) →
  p_inv id old s' ∧ tracks id k (λ x, old (bw_at x)) (ps_front s').
Proof.
  intros Hdown (Hstep & Hap & Ho) [Hinv Htk]. split; [by eapply p_step_inv; [..|apply stores_weaken|] |].
  destruct (p_step_front _ _ _ Hstep) as [(a & _ & ->)|(fl & -> & Hfs)]; [done |].
  eapply f_step_tracks; [done | by apply Hap | apply Hinv | done].
Qed.

Lemma p_step_heard id s l s' : p_step s l s' → heard id s → heard id s'.
Proof.
  intros Hstep. unfold heard.
  destruct (p_step_front _ _ _ Hstep) as [(a & _ & ->)|(fl & _ & Hfs)]; [done | by eapply f_step_heard].
Qed.

(** ** Quiescence *)
Lemma quiescent_agrees s id k old :
  p_inv id old s → tracks id k (λ x, old (bw_at x)) (ps_front s) → quiescent s →
  heard_since id k (λ x, old (bw_at x)) (ps_front s) →
  ∃ t, ps_view s !! id = Some t ∧
    BanChecker_IsBanned id (ps_bc s) = bool_decide (Tenant_State t = Banned).
Proof.
  intros [Hf (_ & ap & td & Ht & Hp)] Htk [Hc Hd] Hh.
  apply (told_done _ _ _ _ _ _ _ Ht) in Hd as ->. rewrite Hc in Hp. simpl in Hp. rewrite app_nil_r in Hp.
  destruct Ht as (ds & _ & _ & Hcv).
  eapply told_agrees; [done | done | by rewrite Hc | exact Hcv | | | | done].
  - intros x. by rewrite Hp.
  - intros x Hx. rewrite Hp. apply elem_of_app. by right.
  - intros ev Hl. rewrite Hp. apply elem_of_app. left. apply list_elem_of_fmap_2.
    apply last_Some_elem_of, elem_of_ev_on in Hl. by destruct Hl.
Qed.

(** ** From every reachable state what is in flight can finish *)
Definition later_p (s s' : psys) : Prop := p_reach s' ∧ ∀ id, heard id s → heard id s'.

Lemma later_p_step s s1 l s2 : later_p s s1 → p_step s1 l s2 → later_p s s2.
Proof.
  intros [Hr Hh] Hs. split; [by eapply p_step_reach |]. intros id Hid. eapply p_step_heard; [done | auto].
Qed.

(** The calls return. *)
Lemma calls_finish s :
  p_reach s → ∃ tr s', trace p_internal s tr s' ∧ later_p s s' ∧ calls_weight (ps_front s') = 0.
Proof.
  intros Hr. apply (trace_measure p_internal (later_p s) (λ s', calls_weight (ps_front s'))); [|done].
  intros s1 Hl Hn. pose proof (pi_front _ _ _ (proj1 Hl "")) as Hf. destruct s1 as [f [meb ts] bc]; simpl in *.
  destruct (call_progress f Hf Hn) as (fl & f' & Hs & [->|[ev ->]] & Hlt).
  - pose proof (pstep_front _ _ (meb, ts) bc Hs) as Hp. eexists [_], _.
    split; [eapply trace_cons; [split; [exact Hp | done] | apply trace_nil] |]. split; [by eapply later_p_step | done].
  - pose proof (pstep_publish _ _ (meb, ts) bc ev Background _ _ Hs (surjective_pairing _)) as Hp. eexists [_], _.
    split; [eapply trace_cons; [split; [exact Hp | done] | apply trace_nil] |]. split; [by eapply later_p_step | done].
Qed.

(** The handlers end, and with them a store of the snapshot that has to come first. *)
Lemma handlers_finish s f meb ds bc :
  later_p s (mkP f (meb, thread_routine <$> ds) bc) → f_calls f = [] →
  ∃ tr s', trace p_internal (mkP f (meb, thread_routine <$> ds) bc) tr s' ∧ later_p s s' ∧ quiescent s'.
Proof.
  remember (thread_weight ds + length (snap_loaded (f_snap f))) as n eqn:Hn. revert f ds bc Hn.
  induction n as [n IH] using lt_wf_ind. intros f ds bc -> Hl Hc.
  destruct (decide (todo ds = [])) as [Hd|Hd].
  { eexists [], _. split; [apply trace_nil |]. split; [done |]. split; [done | by apply todo_done]. }
  destruct (pool_goes_on bc ds (snap_loaded (f_snap f)) Hd) as [(a & bc1 & ds1 & Hs & Ho & Hlt)|(x & Hx & Ho)].
  - pose proof (pstep_handler f meb _ _ _ _ _ Hs) as Hp.
    destruct (IH (thread_weight ds1 + length (snap_loaded (f_snap f))) ltac:(lia) f ds1 bc1 eq_refl)
      as (tr & s' & Htr & Hl' & Hq); [by eapply later_p_step | done |].
    eexists _, s'. split; [eapply trace_cons; [split; [exact Hp | by split] | exact Htr] | done].
  - destruct f as [ms w cs sn evs sw]; simpl in *.
    destruct sn as [| | |ts id banned ids|]; simpl in Hx; try by apply not_elem_of_nil in Hx.
    apply list_elem_of_singleton in Hx as ->.
    pose proof (pstep_store _ _ (meb, thread_routine <$> ds) bc _ (fstep_snap_store ms w cs ts id banned ids evs sw)) as Hp.
    destruct (IH (thread_weight ds + 0) ltac:(simpl; lia) (mkF ms w cs (SnapRun ts ids) evs (sw ++ [mkWrite id banned ts]))
      ds (store_write (mkWrite id banned ts) bc)) as (tr & s' & Htr & Hl' & Hq); [reflexivity | by eapply later_p_step | done |].
    eexists _, s'. split; [eapply trace_cons; [split; [exact Hp | by split] | exact Htr] | done].
Qed.

Lemma drains s :
  p_reach s → ∃ tr s', trace p_internal s tr s' ∧ quiescent s' ∧ ∀ id, heard id s → heard id s'.
Proof.
  intros Hr. destruct (calls_finish s Hr) as (tr1 & [f [meb ts] bc] & Htr1 & Hl & H0). simpl in *.
  destruct (pi_writes _ _ _ (proj1 Hl "")) as (_ & ap & td & (ds & E & _) & _). simpl in E. subst ts.
  destruct (handlers_finish s f meb ds bc Hl (calls_weight_0 _ H0)) as (tr2 & s' & Htr2 & [_ Hh] & Hq).
  exists (tr1 ++ tr2), s'. split; [by eapply trace_app | done].
Qed.

(** (C2) A state change reaches the checker, and the checker never stays wrong about a
    tenant whose own calls do not overlap and whose entry is stored in order.
    Administrative calls, event handlers and the initial snapshot interleave between any
    two accesses of the store, the clock, the bus and the checker's map, on a clock whose
    readings differ.  From every reachable state the calls and handlers in flight can
    finish, storing in order.  Take a moment [s0] of a run at which no call about [id] is in
    progress, the start of the run for example; if from then on calls about [id] do not
    overlap, and no goroutine stores the entry of [id] while another one with older data
    about it is between its [Load] and its [Store], then whenever nothing is in flight the
    checker reports [id] as banned exactly when the store does, as soon as it was told about
    [id]: by an event made after [s0], or, from the start of the run, by any event or by the
    snapshot.  Handlers may start and end in any order, a snapshot that started before an
    event never overwrites it, and whatever overlapping calls or stores left behind before
    [s0] is repaired by the next change. *)
Theorem ban_checker_follows_store ms w tr0 s0 id tr s :
  ms_wf ms (w_heap w) → clock_strict (w_clock w) →
  trace p_step (p_init ms w) tr0 s0 → calls_on id (f_calls (ps_front s0)) = [] →
  trace (p_apart id) s0 tr s →
  (∃ tr' s', trace p_internal s tr' s' ∧ quiescent s' ∧ ∀ id', heard id' s → heard id' s') ∧
  (quiescent s →
   (∃ ev, ev ∈ drop (length (f_evs (ps_front s0))) (f_evs (ps_front s)) ∧ ev_TenantID ev = id) ∨
   (tr0 = [] ∧ heard id s) →
   ∃ t, ps_view s !! id = Some t ∧
     BanChecker_IsBanned id (ps_bc s) = bool_decide (Tenant_State t = Banned)).
Proof.
  intros Hwf Hck Htr0 Hc Htr.
  pose proof (trace_inv _ _ p_step_reach _ _ _ Htr0 (λ id, p_inv_init id anything ms w Hwf Hck)) as Hr0.
  assert (∀ k (old : Z → Prop), (∀ a b, (a ≤ b)%Z → old b → old a) → p_inv id old s0 →
    tracks id k (λ x, old (bw_at x)) (ps_front s0) →
    p_inv id old s ∧ tracks id k (λ x, old (bw_at x)) (ps_front s)) as Htk.
  { intros k old Hd Hi Ht. apply (trace_inv _ _ (λ s1 l s2, p_apart_tracks id k old s1 l s2 Hd) _ _ _ Htr). done. }
  split.
  { apply drains. eapply (trace_inv (p_apart id) p_reach); [|exact Htr | exact Hr0].
    intros s1 l s2 [Hs _]. by eapply p_step_reach. }
  intros Hq [He|[-> Hh]].
  - destruct (Htk (length (f_evs (ps_front s0))) (λ z, z < next_now (f_w (ps_front s0)))%Z) as [Hinv Htk1];
      [intros; lia | apply p_inv_restart, Hr0 | apply tracks_restart; [apply (Hr0 id) | done] |].
    eapply quiescent_agrees; [exact Hinv | exact Htk1 | done | by left].
  - inversion Htr0; subst. destruct (Htk 0 (λ _, False)) as [Hinv Htk2];
      [done | by apply p_inv_init | apply tracks_init |].
    eapply quiescent_agrees; [exact Hinv | exact Htk2 | done |]. right. by split_and!; [|intros _ []|].
Qed.

(** ** Concrete runs *)
Definition acme_store : MemoryStore := mkMemoryStore {["acme" := 0]}.

Lemma acme_store_wf : ms_wf acme_store (w_heap admin_world).
Proof. intros id l Hl. simpl in Hl. apply lookup_singleton_Some in Hl as [<- <-]. by exists demo_tenant. Qed.

Lemma demo_clock_strict : clock_strict demo_clock.
Proof. intros i j Hij. unfold demo_clock. lia. Qed.

(** The tenant's state, the number of clock readings, and the rest of the front part. *)
Definition acme_front (st : State) (pos : nat) (cs : list call_phase) (sn : snap_phase)
    (evs : list TenantEvent) (sw : list ban_write) : front :=
  mkF acme_store (mkWorld (mkHeap [mkTenant "acme" st None] []) demo_clock pos) cs sn evs sw.

(** The bus with goroutines at these positions. *)
Definition acme_bus (ds : list apply_thread) : runningBus BanChecker :=
  (mkMemoryEventBus [BanChecker_handleEvent], thread_routine <$> ds).

Lemma handler_access f bc ds i bc' ds' :
  thread_access bc ds i bc' ds' →
  p_step (mkP f (acme_bus ds) bc) (PHandler (i, bc)) (mkP f (acme_bus ds') bc').
Proof. intros Hac. apply pstep_handler, pool_thread_step. eauto. Qed.

(** Two calls overlap: the state is written by the ban first, stamped by the activation
    first. *)
Definition after_overlap : psys :=
  mkP (acme_front Active 2 [] SnapNone [mkEvent "acme" Active 0; mkEvent "acme" Banned 1] [])
    (acme_bus [ADone; ADone]) (mkBanChecker {["acme" := mkBan true 1]}).

Lemma after_overlap_reachable :
  ∃ tr, trace p_step (p_init acme_store admin_world) tr after_overlap.
Proof.
  eexists. unfold p_init. simpl.
  eapply trace_cons; [apply pstep_start, (fstep_start _ _ _ _ _ _ "acme" Banned) |].
  eapply trace_cons; [apply pstep_start, (fstep_start _ _ _ _ _ _ "acme" Active) |]. simpl.
  eapply trace_cons; [by eapply pstep_front, (fstep_set _ _ [] [_] _ _ _ _ _ Background) |]. simpl.
  eapply trace_cons; [by eapply pstep_front, (fstep_set _ _ [_] [] _ _ _ _ _ Background) |]. simpl.
  eapply trace_cons; [apply pstep_front, (fstep_now _ _ [_] []) |]. simpl.
  eapply trace_cons; [apply pstep_front, (fstep_now _ _ [] [_]) |]. simpl.
  eapply trace_cons; [by eapply (pstep_publish _ _ _ _ _ Background); [apply (fstep_publish _ _ [] [_])|] |]. simpl.
  eapply trace_cons; [by eapply (pstep_publish _ _ _ _ _ Background); [apply (fstep_publish _ _ [] [])|] |]. simpl.
  eapply trace_cons; [by eapply (handler_access _ _ [AStart (mkWrite "acme" true 1); AStart (mkWrite "acme" false 0)]),
    (access_load _ _ _ [_] _ []) |]. simpl app.
  eapply trace_cons; [by eapply handler_access, (access_store _ _ _ [_] _ []) |]. simpl app.
  eapply trace_cons; [by eapply handler_access, (access_load _ _ _ [] _ [_]) |]. simpl app.
  eapply trace_cons; [by eapply handler_access, (access_store _ _ _ [] _ [_]) |].
  apply trace_nil.
Qed.

(** The next change is applied, stamped, published and handled. *)
Definition after_repair : psys :=
  mkP (acme_front Disabled 3 [] SnapNone
         [mkEvent "acme" Active 0; mkEvent "acme" Banned 1; mkEvent "acme" Disabled 2] [])
    (acme_bus [ADone; ADone; ADone]) (mkBanChecker {["acme" := mkBan false 2]}).

Lemma after_repair_reachable : ∃ tr, trace (p_apart "acme") after_overlap tr after_repair.
Proof.
  eexists. unfold after_overlap.
  eapply trace_cons; [split; [apply pstep_start, (fstep_start _ _ _ _ _ _ "acme" Disabled) | by split; [intros ? [= <-]|]] |]. simpl.
  eapply trace_cons; [split; [by eapply pstep_front, (fstep_set _ _ [] [] _ _ _ _ _ Background) | by split; [intros ? [= <-]|]] |]. simpl.
  eapply trace_cons; [split; [apply pstep_front, (fstep_now _ _ [] []) | by split; [intros ? [= <-]|]] |]. simpl.
  eapply trace_cons; [split; [by eapply (pstep_publish _ _ _ _ _ Background); [apply (fstep_publish _ _ [] [])|] | by split; [intros ? [= <-]|]] |]. simpl.
  eapply trace_cons; [split; [by eapply (handler_access _ _ [ADone; ADone; AStart (mkWrite "acme" false 2)]), (access_load _ _ _ [_; _] _ []) |] |].
  { split; [done |]. by apply (load_in_order _ [ADone; ADone; AStart (mkWrite "acme" false 2)] _ [ADone; ADone] (mkWrite "acme" false 2) []). }
  simpl app.
  eapply trace_cons; [split; [by eapply handler_access, (access_store _ _ _ [_; _] _ []) |] |].
  { split; [done |]. by apply (alone_in_order _ _ [ADone; ADone] (mkWrite "acme" false 2) []). }
  apply trace_nil.
Qed.

Lemma ban_checker_follows_store_witness :
  ∃ t, ps_view after_repair !! "acme" = Some t ∧
    BanChecker_IsBanned "acme" (ps_bc after_repair) = bool_decide (Tenant_State t = Banned).
Proof.
  destruct after_overlap_reachable as [tr0 Htr0]. destruct after_repair_reachable as [tr Htr].
  apply (ban_checker_follows_store acme_store admin_world tr0 after_overlap "acme" tr after_repair
    acme_store_wf demo_clock_strict Htr0 eq_refl Htr).
  - split; [done | by apply todo_done].
  - left. exists (mkEvent "acme" Disabled 2). split; [|done]. left.
Defined.

(** Overlapping administrative calls on one tenant can leave the checker wrong
    until the next change: the state is written before the timestamp is taken, so two
    calls can write in one order and be stamped in the other.  Here the store ends with
    the tenant active, every event is delivered, and the checker reports it banned. *)
Theorem overlapping_calls_can_diverge :
  ∃ tr s t, trace p_step (p_init acme_store admin_world) tr s ∧ quiescent s ∧
    ps_view s !! "acme" = Some t ∧ Tenant_State t = Active ∧
    BanChecker_IsBanned "acme" (ps_bc s) = true.
Proof.
  destruct after_overlap_reachable as [tr Htr]. eexists tr, after_overlap, _.
  split; [exact Htr |]. split; [split; [done | by apply todo_done] | done].
Qed.

(** Nor is it enough that calls do not overlap: the handlers of two calls of which the
    second starts after the first returned can both [Load] before either [Store]s, and the
    older one can store last.  The store ends with the tenant active, every event is
    delivered, and the checker reports it banned. *)
Definition p_serial (s : psys) (l : p_event) (s' : psys) : Prop :=
  p_step s l s' ∧ ∀ id fl, l = PFront fl → apart id (f_calls (ps_front s)) fl.

Theorem handlers_can_race :
  ∃ tr s t, trace p_serial (p_init acme_store admin_world) tr s ∧ quiescent s ∧
    ps_view s !! "acme" = Some t ∧ Tenant_State t = Active ∧
    BanChecker_IsBanned "acme" (ps_bc s) = true.
Proof.
  eexists _, (mkP (acme_front Active 2 [] SnapNone [mkEvent "acme" Banned 0; mkEvent "acme" Active 1] [])
    (acme_bus [ADone; ADone]) (mkBanChecker {["acme" := mkBan true 0]})), _.
  split; [|split; [split; [done | by apply todo_done] | done]]. unfold p_init. simpl.
  eapply trace_cons; [split; [apply pstep_start, (fstep_start _ _ _ _ _ _ "acme" Banned) | by intros ? ? [= <-]] |]. simpl.
  eapply trace_cons; [split; [by eapply pstep_front, (fstep_set _ _ [] [] _ _ _ _ _ Background) | by intros ? ? [= <-]] |]. simpl.
  eapply trace_cons; [split; [apply pstep_front, (fstep_now _ _ [] []) | by intros ? ? [= <-]] |]. simpl.
  eapply trace_cons; [split; [by eapply (pstep_publish _ _ _ _ _ Background); [apply (fstep_publish _ _ [] [])|] | by intros ? ? [= <-]] |]. simpl.
  eapply trace_cons; [split; [apply pstep_start, (fstep_start _ _ _ _ _ _ "acme" Active) | by intros ? ? [= <-]] |]. simpl.
  eapply trace_cons; [split; [by eapply pstep_front, (fstep_set _ _ [] [] _ _ _ _ _ Background) | by intros ? ? [= <-]] |]. simpl.
  eapply trace_cons; [split; [apply pstep_front, (fstep_now _ _ [] []) | by intros ? ? [= <-]] |]. simpl.
  eapply trace_cons; [split; [by eapply (pstep_publish _ _ _ _ _ Background); [apply (fstep_publish _ _ [] [])|] | by intros ? ? [= <-]] |]. simpl.
  eapply trace_cons; [split; [by eapply (handler_access _ _ [AStart (mkWrite "acme" true 0); AStart (mkWrite "acme" false 1)]), (access_load _ _ _ [] _ [_]) | done] |]. simpl app.
  eapply trace_cons; [split; [by eapply handler_access, (access_load _ _ _ [_] _ []) | done] |]. simpl app.
  eapply trace_cons; [split; [by eapply handler_access, (access_store _ _ _ [_] _ []) | done] |]. simpl app.
  eapply trace_cons; [split; [by eapply handler_access, (access_store _ _ _ [] _ [_]) | done] |].
  apply trace_nil.
Qed.
