(* ===== verification/Delivery.v ===== *)
(** * From [Service] to [BanChecker] over a bus that fails

    The whole way of a state change when [Publish] may fail: [admin.Service] with a
    retry queue over the [MemoryStore], any [EventBus], the queue's worker, and a
    [BanChecker] at the other end.  The steps are those of [AdminCalls], of
    [RetryQueue] and of the handlers' goroutines, and all of them interleave; the checker
    is right about a tenant whose own calls do not overlap and whose entry is stored in
    order.

    What the bus does with an event is the environment's: an event it accepted is in
    flight until a goroutine is started for it or it is lost (Redis and NATS deliver at
    most once), and one it refused may have gone out all the same. *)
From S2P Require Import Prelude GoStrings GoLib Goroutines Tenant MemoryStore EventBus BanChecker BanRaces.
From S2P Require Import RetryQueue Admin AdminCalls Propagation.
Set Default Goal Selector "!".

(** [d_enq] has the event of a call that is between a failed [Publish] and
    [Enqueue]; [d_hist] is the history of the queue, [d_lost] what the bus lost, [d_pool] the
    goroutines of the checker's subscription. *)
Record dsys (B : Type) := mkD {
  d_front : front;
  d_enq : list TenantEvent;
  d_bus : B;
  d_q : PublishRetryQueue;
  d_ph : worker_phase;
  d_hist : list q_event;
  d_flight : list TenantEvent;
  d_lost : list TenantEvent;
  d_pool : list (routine BanChecker);
  d_bc : BanChecker
}.
Arguments mkD {B} _ _ _ _ _ _ _ _ _ _.
Arguments d_front {B} _.
Arguments d_enq {B} _.
Arguments d_bus {B} _.
Arguments d_q {B} _.
Arguments d_ph {B} _.
Arguments d_hist {B} _.
Arguments d_flight {B} _.
Arguments d_lost {B} _.
Arguments d_pool {B} _.
Arguments d_bc {B} _.

Definition f_set_w (w : world) (f : front) : front :=
  mkF (f_ms f) w (f_calls f) (f_snap f) (f_evs f) (f_snapw f).

(** What the bus has taken when [Publish] answers [err]. *)
Definition took (err : option error) (event : TenantEvent) (new : list TenantEvent) : Prop :=
  new = [event] ∨ (err ≠ None ∧ new = []).

(** A step of a call or of the snapshot, a step of the queue, its worker or the bus, or an
    access of a handler. *)
Inductive d_event : Type :=
| DFront (l : f_event)
| DQueue (what : string)
| DHandler (a : nat * BanChecker).

Section steps.
Context {B W : Type} {HB : EventBus B W}.

Inductive d_step : dsys B → d_event → dsys B → Prop :=
| dstep_start f f' enq b q ph h fl lo pl bc id :
    f_step f (FStart id) f' →
    d_step (mkD f enq b q ph h fl lo pl bc) (DFront (FStart id)) (mkD f' enq b q ph h fl lo pl bc)
| dstep_front f f' enq b q ph h fl lo pl bc :
    f_step f FTau f' →
    d_step (mkD f enq b q ph h fl lo pl bc) (DFront FTau) (mkD f' enq b q ph h fl lo pl bc)
| dstep_load f f' enq b q ph h fl lo pl bc x :
    f_step f (FLoad x (newer (bc_banned bc !! bw_id x) (bw_at x))) f' →
    d_step (mkD f enq b q ph h fl lo pl bc) (DFront (FLoad x (newer (bc_banned bc !! bw_id x) (bw_at x))))
      (mkD f' enq b q ph h fl lo pl bc)
| dstep_store f f' enq b q ph h fl lo pl bc x :
    f_step f (FStore x) f' →
    d_step (mkD f enq b q ph h fl lo pl bc) (DFront (FStore x))
      (mkD f' enq b q ph h fl lo pl (store_write x bc))
| dstep_publish f f' enq b q ph h fl lo pl bc event ctx b' err new :
    f_step f (FPublish event) f' →
    EventBus_Publish ctx event b = (b', err) → took err event new →
    d_step (mkD f enq b q ph h fl lo pl bc) (DFront (FPublish event))
      (mkD f' (enq ++ match err with Some _ => [event] | None => [] end) b' q ph h
         (fl ++ new) lo pl bc)
| dstep_enqueue f enq1 event enq2 b q ph h fl lo pl bc q' w' :
    PublishRetryQueue_Enqueue event (q, f_w f) = ((q', w'), Ret tt) →
    d_step (mkD f (enq1 ++ event :: enq2) b q ph h fl lo pl bc) (DQueue "Enqueue")
      (mkD (f_set_w w' f) (enq1 ++ enq2) b q' ph (h ++ [QEnqueue (length (q_pes q)) event]) fl lo pl bc)
| dstep_collect f enq b q h fl lo pl bc :
    d_step (mkD f enq b q Waiting h fl lo pl bc) (DQueue "collect")
      (mkD (f_set_w (tick (f_w f)) f) enq b q (Publishing [] (q_due (next_now (f_w f)) q))
         (h ++ [QTick]) fl lo pl bc)
| dstep_retry f enq b q outcomes p todo h fl lo pl bc pe ctx b' err new :
    q_pes q !! p = Some pe →
    EventBus_Publish ctx (pe_event pe) b = (b', err) → took err (pe_event pe) new →
    d_step (mkD f enq b q (Publishing outcomes (p :: todo)) h fl lo pl bc) (DQueue "retry")
      (mkD f enq b' q (Publishing (outcomes ++ [(p, err)]) todo) (h ++ [QPublish p err])
         (fl ++ new) lo pl bc)
| dstep_settle f enq b q outcomes h fl lo pl bc q' w' :
    settle_all outcomes (q, f_w f) = ((q', w'), Ret tt) →
    d_step (mkD f enq b q (Publishing outcomes []) h fl lo pl bc) (DQueue "settle")
      (mkD (f_set_w w' f) enq b q' Waiting (h ++ [QTick]) fl lo pl bc)
| dstep_deliver f enq b q ph h fl1 event fl2 lo pl bc :
    d_step (mkD f enq b q ph h (fl1 ++ event :: fl2) lo pl bc) (DQueue "deliver")
      (mkD f enq b q ph h (fl1 ++ fl2) lo (pl ++ [safeCall BanChecker_handleEvent event]) bc)
| dstep_handler f enq b q ph h fl lo pl bc a pl' bc' :
    pool_step (bc, pl) a (bc', pl') →
    d_step (mkD f enq b q ph h fl lo pl bc) (DHandler a) (mkD f enq b q ph h fl lo pl' bc')
| dstep_lose f enq b q ph h fl1 event fl2 lo pl bc :
    d_step (mkD f enq b q ph h (fl1 ++ event :: fl2) lo pl bc) (DQueue "lose")
      (mkD f enq b q ph h (fl1 ++ fl2) (lo ++ [event]) pl bc).

(** At startup the checker has been subscribed and knows nothing. *)
Definition d_init (ms : MemoryStore) (w : world) (b : B) (q : PublishRetryQueue) : dsys B :=
  mkD (mkF ms w [] SnapNone [] []) [] b q Waiting [] [] [] [] (mkBanChecker ∅).

(** Nothing is in progress and nothing waits. *)
Definition d_quiescent (s : dsys B) : Prop :=
  f_calls (d_front s) = [] ∧ d_enq s = [] ∧ d_ph s = Waiting ∧ q_pending (d_q s) = [] ∧
  d_flight s = [] ∧ pool_done (d_pool s).

(** The step stores an entry of the checker only if [R] holds of the write, the handlers'
    goroutines and what the snapshot has loaded. *)
Definition d_stores (R : list (routine BanChecker) → list ban_write → ban_write → Prop)
    (s : dsys B) (l : d_event) : Prop :=
  let others := snap_loaded (f_snap (d_front s)) in
  match l with
  | DHandler a => ∀ y, d_pool s !! a.1 = Some (at_store y) → R (d_pool s) others y
  | DFront (FStore x) => R (d_pool s) others x
  | _ => True
  end.

(** A step at which no call about [id] starts while another one is in progress, and nothing
    is stored about [id] while a goroutine with older data is between [Load] and [Store];
    and a step at which no call starts and whatever is stored is stored in order. *)
Definition d_apart (id : TenantID) (s : dsys B) (l : d_event) (s' : dsys B) : Prop :=
  d_step s l s' ∧ (∀ fl, l = DFront fl → apart id (f_calls (d_front s)) fl) ∧ d_stores (oldest id) s l.

Definition d_internal (s : dsys B) (l : d_event) (s' : dsys B) : Prop :=
  d_step s l s' ∧ (∀ id, l ≠ DFront (FStart id)) ∧ ∀ id, d_stores (oldest id) s l.

Lemma internal_apart id s tr s' : trace d_internal s tr s' → trace (d_apart id) s tr s'.
Proof.
  apply trace_mono. intros s1 l s2 (Hs & Hl & Ho). split_and!; [done | | done].
  intros fl -> ->. by destruct (Hl id).
Qed.

(** The event was lost by the bus or is named by a CRITICAL line of the queue. *)
Definition given_up (event : TenantEvent) (s : dsys B) : Prop :=
  event ∈ d_lost s ∨
  ∃ p pe, q_pes (d_q s) !! p = Some pe ∧ pe_event pe = event ∧ logged p (q_log (d_q s)).

(** From now on the bus accepts everything. *)
Definition accepting (b : B) : Prop :=
  ∃ P : B → Prop, P b ∧
    ∀ b0 ctx event, P b0 → ∃ b1, EventBus_Publish ctx event b0 = (b1, None) ∧ P b1.

End steps.

(** ** The invariant *)

(** A goroutine has the event, or it is on its way, or lost by the bus. *)
Definition reached (ap : list ban_write) (fl lo : list TenantEvent) (event : TenantEvent) : Prop :=
  write_of event ∈ ap ∨ event ∈ fl ∨ event ∈ lo.

(** Where every event is, [ap] being what a handler or the snapshot has written to the
    checker or is about to. *)
Record books (f : front) (enq : list TenantEvent) (q : PublishRetryQueue) (h : list q_event)
    (fl lo : list TenantEvent) (ap : list ban_write) : Prop := {
  bk_true x : x ∈ ap → x ∈ (write_of <$> f_evs f) ++ f_snapw f;
  bk_snap x : x ∈ f_snapw f → x ∈ ap;
  bk_evs ev : ev ∈ fl ∨ ev ∈ enq ∨ ev ∈ pe_event <$> q_pes q → ev ∈ f_evs f;
  bk_all ev : ev ∈ f_evs f →
    reached ap fl lo ev ∨ ev ∈ pubs (f_calls f) ∨ ev ∈ enq ∨ ev ∈ pe_event <$> q_pes q;
  bk_sent p pe : q_pes q !! p = Some pe → delivered p h → reached ap fl lo (pe_event pe)
}.

Record d_inv {B} (id : TenantID) (old : Z → Prop) (s : dsys B) : Prop := {
  di_front : f_ok (d_front s);
  di_queue : q_inv (d_q s) (d_hist s) (phase_rem (d_ph s)) (phase_todo (d_ph s));
  di_size : (1 ≤ q_maxSize (d_q s))%Z;
  di_books : ∃ ap td, told id old (d_bc s) (d_pool s) (snap_loaded (f_snap (d_front s))) ap td ∧
    books (d_front s) (d_enq s) (d_q s) (d_hist s) (d_flight s) (d_lost s) (ap ++ td)
}.

Lemma reached_mono ap ap' fl fl' lo lo' ev :
  (∀ x, x ∈ ap → x ∈ ap') → (∀ x, x ∈ fl → reached ap' fl' lo' x) → (∀ x, x ∈ lo → x ∈ lo') →
  reached ap fl lo ev → reached ap' fl' lo' ev.
Proof. unfold reached. naive_solver. Qed.

(** What the internal steps of the front part do to the events. *)
Lemma f_tau_events f f' :
  f_step f FTau f' →
  f_snapw f' = f_snapw f ∧ snap_loaded (f_snap f') = snap_loaded (f_snap f) ∧
  ∃ new, f_evs f' = f_evs f ++ new ∧
    ∀ ev, ev ∈ pubs (f_calls f') ↔ ev ∈ pubs (f_calls f) ∨ ev ∈ new.
Proof.
  intros Hs. inversion Hs; subst; simpl; (split; [done |]); (split; [try done; by destruct r |]).
  all: try (exists []; rewrite app_nil_r; split; [done |]; set_solver).
  - exists []. rewrite app_nil_r. split; [done |]. intros ev. rewrite !pubs_app. destruct err; set_solver.
  - eexists. split; [done |]. intros ev. rewrite !pubs_app. simpl. set_solver.
Qed.

Lemma books_tau f f' enq q h fl lo ap :
  f_step f FTau f' → books f enq q h fl lo ap → books f' enq q h fl lo ap.
Proof.
  intros (Hsw & _ & new & Hev & Hp)%f_tau_events [H1 H2 H3 H4 H5]. split; rewrite ?Hsw, ?Hev.
  - intros x [Hx|Hx]%H1%elem_of_app; rewrite fmap_app; set_solver.
  - done.
  - intros ev Hx%H3. set_solver.
  - intros ev [Hx|Hx]%elem_of_app.
    + destruct (H4 _ Hx) as [?|[?|?]]; [by left | | by right; right]. right; left. apply Hp. by left.
    + right; left. apply Hp. by right.
  - done.
Qed.

(** The front part only reads the clock. *)
Lemma books_time f w enq q h fl lo ap :
  books f enq q h fl lo ap → books (f_set_w w f) enq q h fl lo ap.
Proof. by intros [H1 H2 H3 H4 H5]. Qed.

(** Readings of the clock by the queue are steps of the front part. *)
Lemma f_set_w_step n f :
  f_step (f_set_w (Nat.iter n tick (f_w f)) f) FTau (f_set_w (Nat.iter (S n) tick (f_w f)) f).
Proof. destruct f. apply fstep_time. Qed.

Lemma f_ok_time n f : f_ok f → f_ok (f_set_w (Nat.iter n tick (f_w f)) f).
Proof.
  intros Hf. induction n as [|n IH]; [by destruct f | exact (f_step_ok _ _ _ (f_set_w_step n f) IH)].
Qed.

Lemma tracks_time id k stale n f :
  f_ok f → tracks id k stale f → tracks id k stale (f_set_w (Nat.iter n tick (f_w f)) f).
Proof.
  intros Hf Htk. induction n as [|n IH]; [by destruct f |].
  eapply f_step_tracks; [exact (f_set_w_step n f) | done | by apply f_ok_time | exact IH].
Qed.

Lemma books_publish f f' event enq q h fl lo ap err new :
  f_step f (FPublish event) f' → f_ok f → took err event new →
  books f enq q h fl lo ap →
  books f' (enq ++ match err with Some _ => [event] | None => [] end) q h (fl ++ new) lo ap.
Proof.
  intros Hs Hf Ht [H1 H2 H3 H4 H5]. pose proof (fo_pubs _ Hf) as Hp.
  inversion Hs; subst; simpl in *.
  assert (event ∈ evs) as Hev by (apply Hp; rewrite pubs_app; set_solver).
  assert (∀ ev, reached ap fl lo ev → reached ap (fl ++ new) lo ev) as Hm.
  { intros ev. apply reached_mono; [done | | done]. unfold reached. set_solver. }
  split; simpl; [done | done | | | intros p pe ? ?; eauto].
  - intros ev Hx. destruct Ht as [-> | [_ ->]], err; set_solver.
  - intros ev Hx. destruct (decide (ev = event)) as [->|Hne].
    + destruct Ht as [-> | [He ->]]; [left; unfold reached; set_solver |].
      destruct err; [|done]. set_solver.
    + destruct (H4 _ Hx) as [?|[Hx'|?]]; [by left; apply Hm | | set_solver].
      right; left. rewrite pubs_app in *. simpl in Hx'. set_solver.
Qed.

Lemma books_enqueue f w event enq1 enq2 q q' h fl lo ap n :
  q_pes q' = q_pes q ++ [mkPE event 0 n] → (∀ p, publishes p h ≠ 0 → p < length (q_pes q)) →
  books f (enq1 ++ event :: enq2) q h fl lo ap →
  books (f_set_w w f) (enq1 ++ enq2) q' (h ++ [QEnqueue (length (q_pes q)) event]) fl lo ap.
Proof.
  intros Hq Hal [H1 H2 H3 H4 H5]. split; simpl; [done | done | | |].
  - intros ev. rewrite Hq, fmap_app. simpl. intros Hx. apply H3. set_solver.
  - intros ev [?|[?|Hx]]%H4; rewrite Hq, fmap_app; set_solver.
  - intros p pe Hp Hd.
    assert (delivered p h) as Hd' by (unfold delivered in *; set_solver).
    assert (p < length (q_pes q)) as Hlt.
    { apply Hal. unfold publishes. intros E%length_zero_iff_nil.
      apply (not_elem_of_nil (QPublish p None)). rewrite <- E. apply list_elem_of_filter.
      split; [|done]. simpl. by rewrite bool_decide_true. }
    apply (H5 p); [|done]. rewrite Hq, lookup_app_l in Hp by done. done.
Qed.

Lemma books_retry f enq q h fl lo ap p pe err new :
  q_pes q !! p = Some pe → took err (pe_event pe) new →
  books f enq q h fl lo ap → books f enq q (h ++ [QPublish p err]) (fl ++ new) lo ap.
Proof.
  intros Hp Ht [H1 H2 H3 H4 H5].
  assert (∀ ev, reached ap fl lo ev → reached ap (fl ++ new) lo ev) as Hm.
  { intros ev. apply reached_mono; [done | | done]. unfold reached. set_solver. }
  split; [done | done | | |].
  - intros ev Hx. assert (pe_event pe ∈ pe_event <$> q_pes q) as Hin.
    { apply list_elem_of_fmap_2. by eapply list_elem_of_lookup_2. }
    destruct Ht as [-> | [_ ->]]; set_solver.
  - intros ev [?|?]%H4; [left; by apply Hm | by right].
  - intros p' pe' Hp' [Hd|Hd%list_elem_of_singleton]%elem_of_app; [by eapply Hm, H5 |].
    injection Hd as -> <-. simplify_eq. destruct Ht as [-> | [? ->]]; [|done].
    unfold reached. set_solver.
Qed.

(** Settling keeps the payloads, and only reads the clock. *)
Lemma settle_one_payload p err q w q' w' :
  settle_one p err (q, w) = ((q', w'), Ret tt) →
  pe_event <$> q_pes q' = pe_event <$> q_pes q ∧ ∃ n, w' = Nat.iter n tick w.
Proof.
  unfold settle_one, time_Now. go_unfold; simpl.
  repeat case_match; intros; simplify_eq; simpl; (split; [|first [by exists 0 | by exists 1]]); try done.
  rewrite list_fmap_insert. simpl. apply list_insert_id. rewrite list_lookup_fmap. by simplify_option_eq.
Qed.

Lemma settle_all_payload outcomes q w q' w' :
  settle_all outcomes (q, w) = ((q', w'), Ret tt) →
  pe_event <$> q_pes q' = pe_event <$> q_pes q ∧ ∃ n, w' = Nat.iter n tick w.
Proof.
  revert q w; induction outcomes as [|[p err] outcomes IH]; intros q w; simpl.
  - intros [= <- <-]. split; [done | by exists 0].
  - unfold mbind, GoM_bind. destruct (settle_one_returns p err (q, w)) as [[q1 w1] E].
    rewrite E. intros [H1 [n ->]]%IH. destruct (settle_one_payload _ _ _ _ _ _ E) as [H2 [m ->]].
    split; [congruence |]. exists (n + m). by rewrite Nat.iter_add.
Qed.

Lemma books_settle f w enq q q' h fl lo ap :
  pe_event <$> q_pes q' = pe_event <$> q_pes q →
  books f enq q h fl lo ap → books (f_set_w w f) enq q' (h ++ [QTick]) fl lo ap.
Proof.
  intros Hq [H1 H2 H3 H4 H5]. split; simpl; rewrite ?Hq; [done.. |].
  intros p pe Hp Hd. assert ((pe_event <$> q_pes q) !! p = Some (pe_event pe)) as Hp'.
  { by rewrite <- Hq, list_lookup_fmap, Hp. }
  rewrite list_lookup_fmap in Hp'. apply fmap_Some in Hp' as (pe0 & Hp0 & ->).
  apply (H5 p); [done |]. unfold delivered in *. set_solver.
Qed.

(** The books only ask which writes there are. *)
Lemma books_same f enq q h fl lo ap ap' :
  (∀ x, x ∈ ap ↔ x ∈ ap') → books f enq q h fl lo ap → books f enq q h fl lo ap'.
Proof.
  intros Ha [H1 H2 H3 H4 H5]. unfold reached in *. split; unfold reached; try done; setoid_rewrite <- Ha; eauto.
Qed.

Lemma books_perm f enq q h fl lo ap ap' :
  ap' ≡ₚ ap → books f enq q h fl lo ap → books f enq q h fl lo ap'.
Proof. intros Hp. apply books_same. intros x. by rewrite Hp. Qed.

(** An entry of the snapshot is through. *)
Lemma books_snap f x enq q h fl lo ap sn :
  books f enq q h fl lo ap →
  books (mkF (f_ms f) (f_w f) (f_calls f) sn (f_evs f) (f_snapw f ++ [x])) enq q h fl lo (x :: ap).
Proof.
  intros [H1 H2 H3 H4 H5].
  assert (∀ ev, reached ap fl lo ev → reached (x :: ap) fl lo ev) as Hm.
  { intros ev. unfold reached. set_solver. }
  split; simpl; try done.
  - intros y [->|Hy]%elem_of_cons; [set_solver |]. apply H1 in Hy. set_solver.
  - intros y [Hy|Hy%list_elem_of_singleton]%elem_of_app; [right; by apply H2 | subst; by left].
  - intros ev [?|?]%H4; [left; by apply Hm | by right].
  - intros p pe Hp Hd. by eapply Hm, H5.
Qed.

Lemma books_phase f enq q h fl lo ap sn :
  books f enq q h fl lo ap →
  books (mkF (f_ms f) (f_w f) (f_calls f) sn (f_evs f) (f_snapw f)) enq q h fl lo ap.
Proof. by intros [H1 H2 H3 H4 H5]. Qed.

(** An event in flight gets its goroutine. *)
Lemma books_deliver f event enq q h fl1 fl2 lo ap :
  books f enq q h (fl1 ++ event :: fl2) lo ap →
  books f enq q h (fl1 ++ fl2) lo (ap ++ [write_of event]).
Proof.
  intros [H1 H2 H3 H4 H5]. assert (event ∈ f_evs f) as Hev by (apply H3; set_solver).
  assert (∀ ev, reached ap (fl1 ++ event :: fl2) lo ev →
    reached (ap ++ [write_of event]) (fl1 ++ fl2) lo ev) as Hm.
  { intros ev. apply reached_mono; [set_solver | unfold reached; set_solver | done]. }
  split; try done.
  - intros x [?|Hx%list_elem_of_singleton]%elem_of_app; [by apply H1 |]. subst x.
    apply elem_of_app. left. by apply list_elem_of_fmap_2.
  - set_solver.
  - intros ev Hx. apply H3. set_solver.
  - intros ev [?|?]%H4; [left; by apply Hm | by right].
  - intros p pe Hp Hd. by eapply Hm, H5.
Qed.

Lemma books_lose f event enq q h fl1 fl2 lo ap :
  books f enq q h (fl1 ++ event :: fl2) lo ap → books f enq q h (fl1 ++ fl2) (lo ++ [event]) ap.
Proof.
  intros [H1 H2 H3 H4 H5].
  assert (∀ ev, reached ap (fl1 ++ event :: fl2) lo ev →
    reached ap (fl1 ++ fl2) (lo ++ [event]) ev) as Hm.
  { intros ev. apply reached_mono; [set_solver | unfold reached; set_solver | set_solver]. }
  split; try done.
  - intros ev Hx. apply H3. set_solver.
  - intros ev [?|?]%H4; [left; by apply Hm | by right].
  - intros p pe Hp Hd. by eapply Hm, H5.
Qed.

Section proofs.
Context {B W : Type} {HB : EventBus B W}.

Lemma d_inv_init id old ms w (b : B) q :
  ms_wf ms (w_heap w) → clock_strict (w_clock w) → fresh_queue q → d_inv id old (d_init ms w b q).
Proof.
  intros Hwf Hck Hq. pose proof (qs_inv_init (B := B) q b w Hq) as Hi.
  destruct Hq as (Hpes & _ & _ & _ & Hsz). split; simpl; [by apply f_ok_init | exact Hi | done |].
  exists [], []. split; [apply told_init |]. split; simpl; rewrite ?Hpes; simpl; try (by intros ? ?%not_elem_of_nil).
  - intros ev. rewrite !elem_of_nil. tauto.
  - done.
Qed.

(** A call starts: no event yet. *)
Lemma books_start f f' id enq q h fl lo ap :
  f_step f (FStart id) f' → books f enq q h fl lo ap → books f' enq q h fl lo ap.
Proof.
  intros Hs [H1 H2 H3 H4 H5]. inversion Hs; subst; simpl in *. split; try done; simpl.
  rewrite pubs_app. simpl. by rewrite app_nil_r.
Qed.

Lemma d_inv_enqueue id old f enq1 event enq2 (b : B) q ph h fl lo pl bc q' w' :
  PublishRetryQueue_Enqueue event (q, f_w f) = ((q', w'), Ret tt) →
  d_inv id old (mkD f (enq1 ++ event :: enq2) b q ph h fl lo pl bc) →
  d_inv id old (mkD (f_set_w w' f) (enq1 ++ enq2) b q' ph (h ++ [QEnqueue (length (q_pes q)) event]) fl lo pl bc).
Proof.
  intros E [Hf Hq Hsz (ap & td & Ht & Hbk)]. simpl in *.
  destruct (Enqueue_cases _ _ _ _ _ E) as (rest & log' & -> & -> & _).
  split; simpl in *; [exact (f_ok_time 1 f Hf) | by eapply q_inv_enqueue | done |].
  exists ap, td. split; [done |]. eapply books_enqueue; [done | | done].
  intros p Hp. apply (qi_alloc _ _ _ _ Hq). auto.
Qed.

Lemma d_step_inv id old (s : dsys B) l s' :
  (∀ a b, (a ≤ b)%Z → old b → old a) → d_step s l s' → d_stores (oldest_than id old) s l →
  d_inv id old s → d_inv id old s'.
Proof.
  intros Hdown Hstep Ho Hinv. pose proof Hinv as [Hf Hq Hsz (ap & td & Ht & Hbk)].
  destruct Hstep as [f f' enq b q ph h fl lo pl bc id' Hs|f f' enq b q ph h fl lo pl bc Hs
    |f f' enq b q ph h fl lo pl bc x Hs|f f' enq b q ph h fl lo pl bc x Hs
    |f f' enq b q ph h fl lo pl bc event ctx b' err new Hs Hpub Htk
    |f enq1 event enq2 b q ph h fl lo pl bc q' w' E|f enq b q h fl lo pl bc
    |f enq b q outs p todo h fl lo pl bc pe ctx b' err new Hp Hpub Htk
    |f enq b q outs h fl lo pl bc q' w' E|f enq b q ph h fl1 event fl2 lo pl bc
    |f enq b q ph h fl lo pl bc a pl' bc' Hs|f enq b q ph h fl1 event fl2 lo pl bc]; simpl in *.
  - split; simpl; [by eapply f_step_ok | done | done |]. exists ap, td.
    split; [by inversion Hs; subst | by eauto using books_start].
  - split; simpl; [by eapply f_step_ok | done | done |]. exists ap, td.
    split; [|by eauto using books_tau]. destruct (f_tau_events _ _ Hs) as (_ & -> & _). done.
  - split; simpl; [by eapply f_step_ok | done | done |].
    inversion Hs as [| | | | | | |ms w cs ts id' ban ids evs sw E1 E2 E3|ms w cs ts id' ban ids evs sw E1 E2 E3| |];
      subst; simpl in *.
    + exists (mkWrite id' ban ts :: ap), td. split; [by apply (told_skip _ _ _ _ _ _ _ (mkWrite id' ban ts)) |].
      exact (books_snap _ (mkWrite id' ban ts) _ _ _ _ _ _ (SnapRun ts ids) Hbk).
    + exists ap, td. split; [by apply told_load |]. exact (books_phase _ _ _ _ _ _ _ (SnapLoaded ts id' ban ids) Hbk).
  - split; simpl; [by eapply f_step_ok | done | done |].
    inversion Hs as [| | | | | | | | |ms w cs ts id' ban ids evs sw E1 E2 E3|]; subst; simpl in *.
    exists (mkWrite id' ban ts :: ap), td. split; [by apply (told_store _ _ Hdown _ _ _ _ (mkWrite id' ban ts)) |].
    exact (books_snap _ (mkWrite id' ban ts) _ _ _ _ _ _ (SnapRun ts ids) Hbk).
  - split; simpl; [by eapply f_step_ok | done | done |]. exists ap, td.
    split; [by inversion Hs; subst | by eapply books_publish].
  - by eapply d_inv_enqueue.
  - split; simpl; [exact (f_ok_time 1 f Hf) | by apply q_inv_tick, q_inv_collect | done |].
    exists ap, td. split; [done |]. by eapply books_settle.
  - split; simpl; [done | by apply q_inv_publish | done |].
    exists ap, td. split; [done |]. by eapply books_retry.
  - destruct (settle_all_payload _ _ _ _ _ E) as [Hpay [n ->]].
    destruct (settle_all_limits _ _ _ _ _ E) as (Hm & _).
    split; simpl; [by apply f_ok_time | apply q_inv_tick; by eapply q_inv_settle_all | by rewrite Hm |].
    exists ap, td. split; [done |]. by eapply books_settle.
  - split; simpl; try done. exists ap, (td ++ [write_of event]). split; [by apply told_start |].
    rewrite app_assoc. by apply books_deliver.
  - split; simpl; try done. destruct (told_run id old Hdown _ _ _ _ _ _ _ _ Hs Ho Ht) as (ap' & td' & Ht' & Hp).
    exists ap', td'. split; [done |]. by eapply books_perm.
  - split; simpl; try done. exists ap, td. split; [done | by apply books_lose].
Qed.

(** What holds of every run. *)
Definition d_reach (s : dsys B) : Prop := ∀ id, d_inv id anything s.

Lemma d_stores_anything id (s : dsys B) l : d_stores (oldest_than id anything) s l.
Proof. unfold d_stores. repeat case_match; try done; intros; intros ? ? ? ?; apply le_anything. Qed.

Lemma d_stores_weaken id old (s : dsys B) l : d_stores (oldest id) s l → d_stores (oldest_than id old) s l.
Proof. unfold d_stores. repeat case_match; try done; eauto using oldest_weaken. Qed.

Lemma d_step_reach (s : dsys B) l s' : d_step s l s' → d_reach s → d_reach s'.
Proof.
  intros Hs Hr id. eapply (d_step_inv id anything); [by intros | exact Hs | apply d_stores_anything | apply Hr].
Qed.

Lemma d_inv_restart id (s : dsys B) :
  d_inv id anything s → d_inv id (λ z, z < next_now (f_w (d_front s)))%Z s.
Proof.
  intros [Hf Hq Hsz (ap & td & Ht & Hbk)]. split; try done. exists ap, td. split; [|done].
  eapply told_restart; [|exact Ht]. intros x Hx _. apply writes_past; [done |].
  apply (bk_true _ _ _ _ _ _ _ Hbk). apply elem_of_app. by left.
Qed.

(** A step is one of the front part, or only reads the clock there. *)
Lemma d_step_front (s : dsys B) l s' :
  d_step s l s' →
  (∃ fl, l = DFront fl ∧ f_step (d_front s) fl (d_front s')) ∨
  ((∀ fl, l ≠ DFront fl) ∧
   ∃ n, d_front s' = f_set_w (Nat.iter n tick (f_w (d_front s))) (d_front s)).
Proof.
  assert (∀ f, f = f_set_w (Nat.iter 0 tick (f_w f)) f) as H0 by by intros [].
  intros Hs. destruct Hs as [| | | | |f enq1 event enq2 b q ph h fl lo pl bc q' w' E| | |f enq b q outs h fl lo pl bc q' w' E| | |];
    simpl; try (by left; eauto); right; (split; [done |]).
  - destruct (Enqueue_cases _ _ _ _ _ E) as (rest & log' & -> & _). by exists 1.
  - by exists 1.
  - by exists 0.
  - destruct (settle_all_payload _ _ _ _ _ E) as [_ [n ->]]. by exists n.
  - by exists 0.
  - by exists 0.
  - by exists 0.
Qed.

Lemma d_apart_tracks id k old (s : dsys B) l s' :
  (∀ a b, (a ≤ b)%Z → old b → old a) → d_apart id s l s' →
  d_inv id old s ∧ tracks id k (λ x, old (bw_at x)) (d_front s) →
  d_inv id old s' ∧ tracks id k (λ x, old (bw_at x)) (d_front s').
Proof.
  intros Hdown (Hstep & Hap & Ho) [Hinv Htk].
  split; [eapply d_step_inv; [done | done | by apply d_stores_weaken | done] |].
  pose proof (di_front _ _ _ Hinv) as Hf.
  destruct (d_step_front _ _ _ Hstep) as [(fl & -> & Hfs)|(_ & n & ->)].
  - eapply f_step_tracks; [done | by apply Hap | done | done].
  - by apply tracks_time.
Qed.

(** ** Quiescence *)
Lemma d_quiescent_agrees (s : dsys B) id k old :
  d_inv id old s → tracks id k (λ x, old (bw_at x)) (d_front s) → d_quiescent s →
  heard_since id k (λ x, old (bw_at x)) (d_front s) →
  (∀ ev, last (ev_on id (f_evs (d_front s))) = Some ev → ¬ given_up ev s) →
  ∃ t, f_view (d_front s) !! id = Some t ∧
    BanChecker_IsBanned id (d_bc s) = bool_decide (Tenant_State t = Banned).
Proof.
  intros [Hf Hq _ (ap & td & Ht & Hbk)] Htk (Hc & He & Hph & Hpd & Hfl & Hd) Hh Hlast.
  apply (told_done _ _ _ _ _ _ _ Ht) in Hd as ->. rewrite app_nil_r in Hbk.
  destruct Hbk as [H1 H2 H3 H4 H5]. destruct Ht as (ds & _ & _ & Hcv).
  eapply told_agrees; [done | done | by rewrite Hc | exact Hcv | done | done | | done].
  intros ev Hl. specialize (Hlast _ Hl). unfold given_up, reached in *.
  assert (ev ∈ f_evs (d_front s)) as Hev.
  { apply last_Some_elem_of, elem_of_ev_on in Hl. by destruct Hl. }
  destruct (H4 _ Hev) as [Hr|Hr]; rewrite Hc, He, Hfl in *; simpl in *; [set_solver |].
  rewrite !elem_of_nil in Hr. destruct Hr as [[]|[[]|(pe & -> & Hpe)%list_elem_of_fmap]].
  apply list_elem_of_lookup in Hpe as [p Hp].
  destruct (qi_events _ _ _ _ Hq _ _ Hp) as (_ & _ & _ & _ & [Hx|[Hx|Hx]]).
  - rewrite Hpd in Hx. by apply not_elem_of_nil in Hx.
  - destruct (H5 _ _ Hp Hx) as [?|[?%not_elem_of_nil|?]]; [done | done |]. exfalso. apply Hlast. by left.
  - exfalso. apply Hlast. right. eauto.
Qed.

(** ** Everything in progress can finish *)

(** A state of the same run: nothing was lost by the bus, nothing forgotten. *)
Definition later (s0 s : dsys B) : Prop :=
  d_reach s ∧ accepting (d_bus s) ∧ d_lost s = d_lost s0 ∧
  ∀ id, f_heard id (d_front s0) → f_heard id (d_front s).

Lemma d_step_heard (s : dsys B) l s' id :
  d_step s l s' → f_heard id (d_front s) → f_heard id (d_front s').
Proof.
  intros Hs. destruct (d_step_front _ _ _ Hs) as [(fl & _ & Hfs)|(_ & n & ->)]; [|done].
  by eapply f_step_heard.
Qed.

Lemma later_step s0 s l s' :
  later s0 s → d_step s l s' → accepting (d_bus s') → d_lost s' = d_lost s → later s0 s'.
Proof.
  intros (Hi & Ha & Hl & Hh) Hs Ha' Hl'. split_and!; [by eapply d_step_reach | done | congruence |].
  intros id Hid. eapply d_step_heard; [done | by apply Hh].
Qed.

Lemma accepting_publish (b : B) ctx event :
  accepting b → ∃ b', EventBus_Publish ctx event b = (b', None) ∧ accepting b'.
Proof.
  intros (P & Hb & HP). destruct (HP b ctx event Hb) as (b' & E & Hb'). exists b'.
  split; [done |]. by exists P.
Qed.

(** How far calls and the worker's pass are from their end. *)
Definition phase_weight (ph : worker_phase) : nat :=
  match ph with Waiting => 0 | Publishing _ todo => S (length todo) end.

Definition busy (s : dsys B) : nat :=
  calls_weight (d_front s) + length (d_enq s) + phase_weight (d_ph s).

Lemma calls_weight_time w f : calls_weight (f_set_w w f) = calls_weight f.
Proof. done. Qed.

Lemma admin_call_step s0 f (b : B) enq q ph h fl lo pl bc :
  later s0 (mkD f enq b q ph h fl lo pl bc) → calls_weight f ≠ 0 →
  ∃ l s', d_internal (mkD f enq b q ph h fl lo pl bc) l s' ∧ later s0 s' ∧
    busy s' < busy (mkD f enq b q ph h fl lo pl bc).
Proof.
  intros Hl Hc. pose proof (di_front _ _ _ (proj1 Hl "")) as Hf. pose proof (proj1 (proj2 Hl)) as Ha. simpl in *.
  destruct (call_progress f Hf Hc) as (fl0 & f' & Hs & [->|[event ->]] & Hlt).
  - eexists _, _. split; [split; [by apply dstep_front | done] |].
    split; [by eapply later_step; [|apply dstep_front| |] | unfold busy; simpl; lia].
  - destruct (accepting_publish _ Background event Ha) as (b' & E & Ha').
    assert (took None event [event]) as Ht by by left.
    pose proof (dstep_publish _ _ enq b q ph h fl lo pl bc event Background b' None [event] Hs E Ht) as Hd.
    eexists _, _. split; [split; [exact Hd | done] |]. split; [by eapply later_step |].
    unfold busy. simpl. rewrite app_nil_r. lia.
Qed.

Lemma busy_step s0 s :
  later s0 s → busy s ≠ 0 → ∃ l s', d_internal s l s' ∧ later s0 s' ∧ busy s' < busy s.
Proof.
  intros Hl Hb. pose proof (proj1 Hl "") as [Hf Hq Hsz _]. pose proof (proj1 (proj2 Hl)) as Ha.
  destruct s as [f enq b q ph h fl lo pl bc]; simpl in *.
  destruct (decide (calls_weight f = 0)) as [Hc|Hc]; [|by eapply admin_call_step].
  destruct enq as [|event enq].
  - destruct ph as [|outs [|p todo]]; unfold busy in *; simpl in *; [lia | |].
    + destruct (settle_all_returns outs (q, f_w f)) as [[q' w'] E].
      eexists _, _. split; [split; [by apply dstep_settle | done] |].
      split; [by eapply later_step; [|apply dstep_settle| |] |]. simpl. rewrite calls_weight_time. lia.
    + destruct (lookup_lt_is_Some_2 (q_pes q) p) as [pe Hp].
      { apply (qi_alloc _ _ _ _ Hq). set_solver. }
      destruct (accepting_publish _ Background (pe_event pe) Ha) as (b' & E & Ha').
      assert (took None (pe_event pe) [pe_event pe]) as Ht by by left.
      pose proof (dstep_retry f [] b q outs p todo h fl lo pl bc pe Background b' None _ Hp E Ht) as Hd.
      eexists _, _. split; [split; [exact Hd | done] |]. split; [by eapply later_step |]. simpl. lia.
  - destruct (Enqueue_returns event q (f_w f) Hsz) as (q' & E & _).
    pose proof (dstep_enqueue f [] event enq b q ph h fl lo pl bc q' _ E) as Hd.
    eexists _, _. split; [split; [exact Hd | done] |]. split; [by eapply later_step |].
    unfold busy. simpl. rewrite calls_weight_time. lia.
Qed.

Lemma settles s0 s :
  later s0 s → ∃ tr s', trace d_internal s tr s' ∧ later s0 s' ∧ busy s' = 0.
Proof.
  apply (trace_measure _ (later s0)). intros s1 Hl Hb.
  destruct (busy_step _ _ Hl Hb) as (l & s' & Hs & Hl' & Hlt).
  exists [l], s'. split; [|done]. eapply trace_cons; [exact Hs | apply trace_nil].
Qed.

(** A pass of the worker whose events are all accepted. *)
Lemma settle_accepted due q w :
  NoDup (q_pending q) →
  settle_all ((λ p, (p, None)) <$> due) (q, w) =
    ((q_with (q_pes q) (filter (λ p, p ∉ due) (q_pending q)) (q_log q) q, w), Ret tt).
Proof.
  revert q; induction due as [|p due IH]; intros q Hnd; simpl.
  - rewrite filter_true; [by destruct q |]. intros x _. apply not_elem_of_nil.
  - unfold mbind, GoM_bind. unfold settle_one. go_unfold; simpl.
    assert (filter (λ x, x ∉ p :: due) (q_pending q) =
      filter (λ x, x ∉ due) (filter (λ x, x ≠ p) (q_pending q))) as ->.
    { rewrite list_filter_filter. apply list_filter_iff. intros x. set_solver. }
    destruct (PublishRetryQueue_indexOf q p) as [idx|] eqn:Hi.
    + pose proof (removeAt_filter _ _ _ Hnd Hi) as Hr. simpl in Hr. rewrite IH.
      * simpl. by rewrite Hr.
      * simpl. rewrite Hr. by apply NoDup_filter.
    + rewrite IH by done. rewrite (filter_ne_notin p); [done |]. by eapply index_from_None.
Qed.

Lemma retries_accepted f (b : B) q todo outs h fl lo pl bc :
  accepting b → (∀ p, p ∈ todo → p < length (q_pes q)) →
  ∃ tr b' h' fl', accepting b' ∧
    trace d_internal (mkD f [] b q (Publishing outs todo) h fl lo pl bc) tr
      (mkD f [] b' q (Publishing (outs ++ ((λ p, (p, None)) <$> todo)) []) h' fl' lo pl bc).
Proof.
  revert b outs h fl; induction todo as [|p todo IH]; intros b outs h fl Ha Hal; simpl.
  - exists [], b, h, fl. rewrite app_nil_r. split; [done | apply trace_nil].
  - destruct (lookup_lt_is_Some_2 (q_pes q) p) as [pe Hp]; [apply Hal; by left |].
    destruct (accepting_publish _ Background (pe_event pe) Ha) as (b1 & E & Ha1).
    assert (took None (pe_event pe) [pe_event pe]) as Ht by by left.
    destruct (IH b1 (outs ++ [(p, None)]) (h ++ [QPublish p None]) (fl ++ [pe_event pe]) Ha1)
      as (tr & b' & h' & fl' & Ha' & Htr); [set_solver |].
    eexists _, b', h', fl'. split; [done |]. rewrite <- app_assoc in Htr.
    eapply trace_cons; [split; [by eapply dstep_retry | done] | exact Htr].
Qed.

(** The worker is between two passes and no call is in progress; the log is [log]. *)
Definition idle (log : list logline) (pes : list pendingEvent) (s : dsys B) : Prop :=
  busy s = 0 ∧ q_log (d_q s) = log ∧ q_pes (d_q s) = pes.

Lemma idle_phase log pes s : idle log pes s → d_enq s = [] ∧ d_ph s = Waiting ∧ f_calls (d_front s) = [].
Proof.
  unfold idle, busy. intros [Hb _]. split_and!; [| |apply calls_weight_0; lia].
  - apply length_zero_iff_nil. lia.
  - destruct (d_ph s); simpl in *; [done | lia].
Qed.

Lemma later_trace s0 s tr s' :
  later s0 s → trace d_internal s tr s' → accepting (d_bus s') → d_lost s' = d_lost s → later s0 s'.
Proof.
  intros (Hi & Ha & Hl & Hh) Htr Ha' Hl'. split_and!; [|done | congruence |].
  - eapply (trace_inv d_internal); [|exact Htr|done]. intros ? ? ? [? _]. by eapply d_step_reach.
  - intros id Hid. eapply (trace_inv d_internal (λ s, f_heard id (d_front s)));
      [intros ? ? ? [? _]; by eapply d_step_heard | exact Htr | by apply Hh].
Qed.

Lemma accepted_pass s0 log pes s :
  later s0 s → idle log pes s →
  ∃ tr s', trace d_internal s tr s' ∧ later s0 s' ∧ idle log pes s' ∧
    f_w (d_front s') = tick (f_w (d_front s)) ∧
    q_pending (d_q s') = filter (λ p, is_due (next_now (f_w (d_front s))) (d_q s) p ≠ true)
                           (q_pending (d_q s)).
Proof.
  intros Hl Hid. pose proof (idle_phase _ _ _ Hid) as (He & Hph & Hc).
  pose proof (di_queue _ _ _ (proj1 Hl "")) as Hq. pose proof (proj1 (proj2 Hl)) as Ha.
  destruct s as [f enq b q ph h fl lo pl bc]; simpl in *. subst enq ph.
  set (due := q_due (next_now (f_w f)) q).
  destruct (retries_accepted (f_set_w (tick (f_w f)) f) b q due [] (h ++ [QTick]) fl lo pl bc Ha)
    as (tr & b' & h' & fl' & Ha' & Htr).
  { intros p [_ Hp]%list_elem_of_filter. apply (qi_alloc _ _ _ _ Hq). by left. }
  pose proof (settle_accepted due q (tick (f_w f)) (qi_nodup _ _ _ _ Hq)) as Hset.
  assert (trace d_internal (mkD f [] b q Waiting h fl lo pl bc) ([DQueue "collect"] ++ tr ++ [DQueue "settle"])
    (mkD (f_set_w (tick (f_w f)) f) [] b'
       (q_with (q_pes q) (filter (λ p, p ∉ due) (q_pending q)) (q_log q) q) Waiting (h' ++ [QTick]) fl' lo pl bc))
    as Hall.
  { simpl. eapply trace_cons; [split; [apply dstep_collect | done] |]. eapply trace_app; [exact Htr |].
    eapply trace_cons; [split; [|done] | apply trace_nil]. simpl. exact (dstep_settle (f_set_w (tick (f_w f)) f) _ _ _ _ _ _ _ _ _ _ _ Hset). }
  eexists _, _. split; [exact Hall |]. split; [by eapply later_trace |].
  destruct Hid as (Hb & Hlog & Hpes). split; [split_and!; done |]. simpl.
  split; [done |]. apply filter_iff_in. intros p Hp.
  unfold due, q_due. rewrite list_elem_of_filter. tauto.
Qed.

(** The latest time at which an event of the queue is due. *)
Definition horizon (pes : list pendingEvent) : Z :=
  foldr (λ pe, Z.max (pe_nextAttemptAt pe)) 0%Z pes.

Lemma horizon_le pes p pe : pes !! p = Some pe → (pe_nextAttemptAt pe ≤ horizon pes)%Z.
Proof.
  intros Hp%list_elem_of_lookup_2. unfold horizon. induction pes as [|x pes IH]; simpl.
  - by apply not_elem_of_nil in Hp.
  - apply elem_of_cons in Hp as [->|Hp]; [lia |]. specialize (IH Hp). lia.
Qed.

(** How many passes are left at most. *)
Definition passes_left (pes : list pendingEvent) (s : dsys B) : nat :=
  match q_pending (d_q s) with
  | [] => 0
  | _ => S (Z.to_nat (horizon pes - next_now (f_w (d_front s))))
  end.

Lemma queue_empties s0 log pes s :
  later s0 s → idle log pes s →
  ∃ tr s', trace d_internal s tr s' ∧ (later s0 s' ∧ idle log pes s') ∧ passes_left pes s' = 0.
Proof.
  intros Hl Hid.
  apply (trace_measure _ (λ s, later s0 s ∧ idle log pes s) (passes_left pes)); [|done].
  clear s Hl Hid. intros s [Hl Hid] Hne.
  destruct (accepted_pass _ _ _ _ Hl Hid) as (tr & s' & Htr & Hl' & Hid' & Hw & Hp).
  exists tr, s'. split_and!; [done.. |]. unfold passes_left in *. rewrite Hw, Hp.
  pose proof (proj1 Hl "") as [Hf Hq _ _].
  pose proof (next_now_tick _ (fo_clock _ Hf)) as Htick.
  destruct (q_pending (d_q s)) as [|p0 pd] eqn:Hpd; [done |]. rewrite <- Hpd in *.
  destruct (filter _ (q_pending (d_q s))) as [|p1 pd1] eqn:Hflt; [lia |].
  assert (p1 ∈ filter (λ p, is_due (next_now (f_w (d_front s))) (d_q s) p ≠ true) (q_pending (d_q s)))
    as [Hnd Hin]%list_elem_of_filter by (rewrite Hflt; by left).
  destruct (lookup_lt_is_Some_2 (q_pes (d_q s)) p1) as [pe Hpe].
  { apply (qi_alloc _ _ _ _ Hq). by left. }
  unfold is_due in Hnd. rewrite Hpe in Hnd. destruct Hid as (_ & _ & <-).
  pose proof (horizon_le _ _ _ Hpe). apply not_true_is_false, Z.leb_gt in Hnd. lia.
Qed.

Lemma flight_lands s0 log pes s :
  later s0 s → idle log pes s → q_pending (d_q s) = [] →
  ∃ tr s', trace d_internal s tr s' ∧ (later s0 s' ∧ idle log pes s' ∧ q_pending (d_q s') = []) ∧
    length (d_flight s') = 0.
Proof.
  intros Hl Hid Hp.
  apply (trace_measure _ (λ s, later s0 s ∧ idle log pes s ∧ q_pending (d_q s) = [])
    (λ s, length (d_flight s))); [|done].
  clear s Hl Hid Hp. intros s (Hl & Hid & Hp) Hne.
  destruct s as [f enq b q ph h [|event fl] lo pl bc]; simpl in *; [done |].
  pose proof (dstep_deliver f enq b q ph h [] event fl lo pl bc) as Hd.
  eexists [_], _. split; [eapply trace_cons; [split; [exact Hd | done] | apply trace_nil] |].
  split; [split_and!; [|done..] | simpl; lia]. eapply later_step; [done | exact Hd | by apply Hl | done].
Qed.

(** The handlers end, and with them a store of the snapshot that has to come first. *)
Lemma pool_ends s0 log pes f enq (b : B) q ph h lo ds bc :
  later s0 (mkD f enq b q ph h [] lo (thread_routine <$> ds) bc) →
  idle log pes (mkD f enq b q ph h [] lo (thread_routine <$> ds) bc) → q_pending q = [] →
  ∃ tr s', trace d_internal (mkD f enq b q ph h [] lo (thread_routine <$> ds) bc) tr s' ∧
    later s0 s' ∧ d_quiescent s' ∧ q_log (d_q s') = log.
Proof.
  remember (thread_weight ds + length (snap_loaded (f_snap f))) as n eqn:Hn. revert f ds bc Hn.
  induction n as [n IH] using lt_wf_ind. intros f ds bc -> Hl Hid Hp.
  destruct (decide (todo ds = [])) as [Hd|Hd].
  { eexists [], _. split; [apply trace_nil |]. split; [done |]. destruct (idle_phase _ _ _ Hid) as (? & ? & ?).
    split; [split_and!; try done; by apply todo_done | apply Hid]. }
  destruct (pool_goes_on bc ds (snap_loaded (f_snap f)) Hd) as [(a & bc1 & ds1 & Hs & Ho & Hlt)|(x & Hx & Ho)].
  - pose proof (dstep_handler f enq b q ph h [] lo _ _ _ _ _ Hs) as Hst.
    destruct (IH (thread_weight ds1 + length (snap_loaded (f_snap f))) ltac:(lia) f ds1 bc1 eq_refl)
      as (tr & s' & Htr & Hrest); [by eapply later_step; [|exact Hst|apply Hl|] | done | done |].
    eexists _, s'. split; [eapply trace_cons; [split; [exact Hst | by split] | exact Htr] | done].
  - destruct f as [ms w cs sn evs sw]; simpl in *.
    destruct sn as [| | |ts id banned ids|]; simpl in Hx; try by apply not_elem_of_nil in Hx.
    apply list_elem_of_singleton in Hx as ->.
    pose proof (dstep_store _ _ enq b q ph h [] lo (thread_routine <$> ds) bc _
      (fstep_snap_store ms w cs ts id banned ids evs sw)) as Hst.
    destruct (IH (thread_weight ds + 0) ltac:(simpl; lia) (mkF ms w cs (SnapRun ts ids) evs (sw ++ [mkWrite id banned ts]))
      ds (store_write (mkWrite id banned ts) bc)) as (tr & s' & Htr & Hrest);
      [reflexivity | by eapply later_step; [|exact Hst|apply Hl|] | done | done |].
    eexists _, s'. split; [eapply trace_cons; [split; [exact Hst | by split] | exact Htr] | done].
Qed.

Lemma idle_drains s0 log pes s :
  later s0 s → idle log pes s →
  ∃ tr s', trace d_internal s tr s' ∧ later s0 s' ∧ d_quiescent s' ∧ q_log (d_q s') = log.
Proof.
  intros Hl Hid. destruct (queue_empties _ _ _ _ Hl Hid) as (tr1 & s1 & Htr1 & [Hl1 Hid1] & Hp1).
  unfold passes_left in Hp1. destruct (q_pending (d_q s1)) eqn:Hpd; [|done].
  destruct (flight_lands _ _ _ _ Hl1 Hid1 Hpd) as (tr2 & s2 & Htr2 & (Hl2 & Hid2 & Hpd2) & Hfl).
  apply length_zero_iff_nil in Hfl. destruct (di_books _ _ _ (proj1 Hl2 "")) as (ap & td & (ds & E & _) & _).
  destruct s2 as [f enq b q ph h fl lo pl bc]; simpl in *. subst pl fl.
  destruct (pool_ends _ _ _ _ _ _ _ _ _ _ _ _ Hl2 Hid2 Hpd2) as (tr3 & s3 & Htr3 & Hrest).
  exists ((tr1 ++ tr2) ++ tr3), s3. split; [|done]. eapply trace_app; [by eapply trace_app | done].
Qed.

Lemma d_drains s :
  d_reach s → accepting (d_bus s) →
  ∃ tr s', trace d_internal s tr s' ∧ d_quiescent s' ∧ d_lost s' = d_lost s ∧
    (∀ id, f_heard id (d_front s) → f_heard id (d_front s')) ∧
    (busy s = 0 → q_log (d_q s') = q_log (d_q s)).
Proof.
  intros Hi Ha. assert (later s s) as Hl by by split_and!.
  destruct (decide (busy s = 0)) as [Hb|Hb].
  - destruct (idle_drains s (q_log (d_q s)) (q_pes (d_q s)) s Hl) as (tr & s' & Htr & (_ & _ & ? & ?) & ? & ?);
      [done |]. exists tr, s'. by split_and!.
  - destruct (settles _ _ Hl) as (tr1 & s1 & Htr1 & Hl1 & Hb1).
    destruct (idle_drains s (q_log (d_q s1)) (q_pes (d_q s1)) s1 Hl1)
      as (tr & s' & Htr & (_ & _ & ? & ?) & ? & _); [done |].
    exists (tr1 ++ tr), s'. split; [by eapply trace_app |]. by split_and!.
Qed.

(** (C1) A state change survives failures of the bus.  With a fresh retry queue,
    administrative calls, the worker, the handlers, the snapshot and losses of the bus
    interleave in any way, between any two accesses of shared state.  From every reachable
    state, once the bus accepts again, everything in progress, queued or in flight can be
    brought to an end without a further loss, storing in order (and without a further
    CRITICAL line, if no call and no pass was in progress).  Take a moment [s0] at which no
    call about [id] is in progress, the start of the run for example; if from then on calls
    about [id] do not overlap, and no goroutine stores the checker's entry of [id] while
    another one with older data about it is between its [Load] and its [Store], then
    whenever nothing is in progress any more the checker agrees with the store on [id], once
    it was told about [id], provided the latest event about it was neither lost by the bus
    nor named by a CRITICAL line: events delivered twice, late or in any order do no harm. *)
Theorem changes_survive_bus_failures ms w (b : B) q tr0 s0 id tr s :
  ms_wf ms (w_heap w) → clock_strict (w_clock w) → fresh_queue q →
  trace d_step (d_init ms w b q) tr0 s0 → calls_on id (f_calls (d_front s0)) = [] →
  trace (d_apart id) s0 tr s →
  (accepting (d_bus s) →
     ∃ tr' s', trace d_internal s tr' s' ∧ d_quiescent s' ∧ d_lost s' = d_lost s ∧
       (∀ id', f_heard id' (d_front s) → f_heard id' (d_front s')) ∧
       (busy s = 0 → q_log (d_q s') = q_log (d_q s))) ∧
  (d_quiescent s →
   (∃ ev, ev ∈ drop (length (f_evs (d_front s0))) (f_evs (d_front s)) ∧ ev_TenantID ev = id) ∨
   (tr0 = [] ∧ f_heard id (d_front s)) →
   (∀ ev, last (ev_on id (f_evs (d_front s))) = Some ev → ¬ given_up ev s) →
   ∃ t, f_view (d_front s) !! id = Some t ∧
     BanChecker_IsBanned id (d_bc s) = bool_decide (Tenant_State t = Banned)).
Proof.
  intros Hwf Hck Hq Htr0 Hc Htr.
  pose proof (trace_inv _ _ d_step_reach _ _ _ Htr0 (λ id, d_inv_init id anything ms w b q Hwf Hck Hq)) as Hr0.
  assert (∀ k (old : Z → Prop), (∀ a b, (a ≤ b)%Z → old b → old a) → d_inv id old s0 →
    tracks id k (λ x, old (bw_at x)) (d_front s0) →
    d_inv id old s ∧ tracks id k (λ x, old (bw_at x)) (d_front s)) as Htk.
  { intros k old Hd Hi Ht. apply (trace_inv _ _ (λ s1 l s2, d_apart_tracks id k old s1 l s2 Hd) _ _ _ Htr). done. }
  split.
  { apply d_drains. eapply (trace_inv (d_apart id) d_reach); [|exact Htr | exact Hr0].
    intros s1 l s2 [Hs _]. by eapply d_step_reach. }
  intros Hqu [He|[-> Hh]] Hg.
  - destruct (Htk (length (f_evs (d_front s0))) (λ z, z < next_now (f_w (d_front s0)))%Z) as [Hinv Htk1];
      [intros; lia | apply d_inv_restart, Hr0 | apply tracks_restart; [apply (Hr0 id) | done] |].
    eapply d_quiescent_agrees; [exact Hinv | exact Htk1 | done | by left | done].
  - inversion Htr0; subst. destruct (Htk 0 (λ _, False)) as [Hinv Htk2];
      [done | by apply d_inv_init | apply tracks_init |].
    eapply d_quiescent_agrees; [exact Hinv | exact Htk2 | done | | done]. right. by split_and!; [|intros _ []|].
Qed.

(** ** The code's functions are runs of the steps *)

(** [transition], undisturbed, among calls in progress. *)
Lemma transition_runs ctx id st (svc svc' : Service MemoryStore B) q w w' err cs enq sn evs sw ph h fl lo pl bc :
  svc_retryQueue svc = Some q →
  Service_transition ctx id st (svc, w) = ((svc', w'), Ret err) →
  ∃ tr evs' h' fl' q', svc_retryQueue svc' = Some q' ∧
    trace d_step
      (mkD (mkF (svc_store svc) w cs sn evs sw) enq (svc_bus svc) q ph h fl lo pl bc) tr
      (mkD (mkF (svc_store svc') w' cs sn evs' sw) enq (svc_bus svc') q' ph h' fl' lo pl bc).
Proof.
  intros Hq. destruct svc as [ms b rq log]; simpl in *. subst rq.
  unfold Service_transition, svc_SetState. go_unfold. simpl.
  destruct (MemoryStore_SetState ctx id st (ms, w)) as [[ms1 w1] [[e|]|msg]] eqn:E; simpl; [| |done].
  - intros [= <- <- <-]. eexists _, evs, h, fl, q. split; [done |].
    eapply trace_cons; [by apply dstep_start, (fstep_start _ _ _ _ _ _ id st) |].
    pose proof (dstep_front _ _ enq b q ph h fl lo pl bc (fstep_set ms w cs [] sn evs sw id st ctx _ _ _ E)) as Hs.
    simpl in Hs. rewrite app_nil_r in Hs. eapply trace_cons; [exact Hs | apply trace_nil].
  - set (ev := mkEvent id st (next_now w1)). unfold Service_announce, svc_Publish. go_unfold. simpl.
    assert (∀ b1 err new, EventBus_Publish ctx ev b = (b1, err) → took err ev new →
      trace d_step (mkD (mkF ms w cs sn evs sw) enq b q ph h fl lo pl bc)
        [DFront (FStart id); DFront FTau; DFront FTau; DFront (FPublish ev)]
        (mkD (mkF ms1 (tick w1) cs sn (evs ++ [ev]) sw)
           (enq ++ match err with Some _ => [ev] | None => [] end) b1 q ph h (fl ++ new) lo pl bc)) as Hpub.
    { intros b1 err1 new Hb Ht.
      eapply trace_cons; [by apply dstep_start, (fstep_start _ _ _ _ _ _ id st) |].
      eapply trace_cons; [apply dstep_front; exact (fstep_set ms w cs [] sn evs sw id st ctx _ _ _ E) |].
      eapply trace_cons; [apply dstep_front; exact (fstep_now ms1 w1 cs [] sn evs sw id st) |].
      pose proof (dstep_publish _ _ enq b q ph h fl lo pl bc ev ctx b1 err1 new
        (fstep_publish ms1 (tick w1) cs [] sn (evs ++ [ev]) sw ev) Hb Ht) as Hs.
      rewrite app_nil_r in Hs. eapply trace_cons; [exact Hs | apply trace_nil]. }
    destruct (EventBus_Publish ctx ev b) as [b1 [e|]] eqn:Eb; simpl.
    + unfold svc_Enqueue. simpl.
      destruct (PublishRetryQueue_Enqueue ev (q, tick w1)) as [[q2 w2] [u|msg]] eqn:Eq; [|done].
      simpl. intros [= <- <- <-]. destruct u. eexists _, _, _, _, q2. split; [done |].
      eapply trace_app; [by apply (Hpub b1 (Some e) []); [|right] |].
      pose proof (dstep_enqueue (mkF ms1 (tick w1) cs sn (evs ++ [ev]) sw) enq ev [] b1 q ph h (fl ++ []) lo pl bc q2 w2 Eq) as Hs.
      rewrite (app_nil_r enq) in Hs. eapply trace_cons; [exact Hs | apply trace_nil].
    + intros [= <- <- <-]. eexists _, _, _, _, q. split; [done |].
      pose proof (Hpub b1 None [ev] eq_refl ltac:(by left)) as Hs. rewrite app_nil_r in Hs. exact Hs.
Qed.

(** [LoadInitialBannedList], undisturbed. *)
Lemma load_loop_runs ctx ts ids bc ms w bc' ms' w' err cs evs sw enq (b : B) q ph h fl lo pl :
  load_loop ctx ts ids ((bc, ms), w) = (((bc', ms'), w'), Ret err) →
  ∃ tr sw', trace d_step
    (mkD (mkF ms w cs (SnapRun ts ids) evs sw) enq b q ph h fl lo pl bc) tr
    (mkD (mkF ms' w' cs (SnapDone err) evs sw') enq b q ph h fl lo pl bc').
Proof.
  revert bc ms w sw; induction ids as [|id ids IH]; intros bc ms w sw; simpl.
  - intros [= <- <- <- <-]. eexists _, sw. eapply trace_cons; [|apply trace_nil].
    apply dstep_front, fstep_snap_end.
  - go_unfold. simpl. destruct (MemoryStore_IsBanned ctx id (ms, w)) as [[ms1 w1] [[banned|e]|msg]] eqn:E; simpl.
    + unfold bc_apply_m. simpl. destruct (newer (bc_banned bc !! id) ts) eqn:Hn; simpl;
        intros (tr & sw' & Htr)%(IH _ _ _ (sw ++ [mkWrite id banned ts])); eexists _, sw';
        (eapply trace_cons; [apply dstep_front;
           exact (fstep_snap_read ms w cs ts id ids evs sw ctx _ _ _ E) |]).
      * eapply trace_cons; [|exact Htr]. eapply (dstep_load _ _ enq b q ph h fl lo pl bc (mkWrite id banned ts)).
        simpl. rewrite Hn. apply fstep_snap_skip.
      * eapply trace_cons; [|eapply trace_cons; [|exact Htr]].
        -- eapply (dstep_load _ _ enq b q ph h fl lo pl bc (mkWrite id banned ts)).
           simpl. rewrite Hn. apply fstep_snap_load.
        -- apply (dstep_store _ _ enq b q ph h fl lo pl bc (mkWrite id banned ts)), fstep_snap_store.
    + intros [= <- <- <- <-]. eexists _, sw. eapply trace_cons; [|apply trace_nil].
      apply dstep_front. exact (fstep_snap_read ms w cs ts id ids evs sw ctx _ _ _ E).
    + done.
Qed.

(** The publish loop of [retryDue]. *)
Lemma publish_all_runs ctx f enq q due outs h fl lo pl bc (b : B) b' outs' :
  (∀ p, p ∈ due → p < length (q_pes q)) → publish_all ctx q due b = (b', outs') →
  ∃ tr h' fl', trace d_step
    (mkD f enq b q (Publishing outs due) h fl lo pl bc) tr
    (mkD f enq b' q (Publishing (outs ++ outs') []) h' fl' lo pl bc).
Proof.
  revert b outs outs' h fl; induction due as [|p due IH]; intros b outs outs' h fl Hal; simpl.
  - intros [= <- <-]. exists [], h, fl. rewrite app_nil_r. apply trace_nil.
  - destruct (lookup_lt_is_Some_2 _ _ (Hal p ltac:(by left))) as [pe Hp]. rewrite Hp.
    destruct (EventBus_Publish ctx (pe_event pe) b) as [b1 err] eqn:Eb.
    destruct (publish_all ctx q due b1) as [b2 outs2] eqn:E2. intros [= <- <-].
    destruct (IH b1 (outs ++ [(p, err)]) outs2 (h ++ [QPublish p err]) (fl ++ [pe_event pe])
      ltac:(intros; apply Hal; by right) E2) as (tr & h' & fl' & Htr).
    eexists _, h', fl'. rewrite <- app_assoc in Htr. eapply trace_cons; [|exact Htr].
    eapply dstep_retry; [done | exact Eb | by left].
Qed.

(** The steps are the code's.  A call of [transition], of
    [LoadInitialBannedList] or of [retryDue] that returns, undisturbed, is a run of
    the steps above from the state it is called in, whatever other calls are in progress
    there, to the state it leaves, with the
    store, the clock, the bus, the queue and the checker exactly as the function left
    them: what is proved of all interleavings of the steps holds of the calls. *)
Theorem calls_are_runs ctx f enq (b : B) q h fl lo pl bc :
  (∀ p, p ∈ q_pending q → p < length (q_pes q)) →
  (∀ id st log svc' w' err ph,
     Service_transition ctx id st (mkService (f_ms f) b (Some q) log, f_w f) = ((svc', w'), Ret err) →
     ∃ tr evs' h' fl' q', svc_retryQueue svc' = Some q' ∧
       trace d_step (mkD f enq b q ph h fl lo pl bc) tr
         (mkD (mkF (svc_store svc') w' (f_calls f) (f_snap f) evs' (f_snapw f)) enq (svc_bus svc') q' ph h' fl' lo pl bc)) ∧
  (∀ ids bc' ms' w' err ph,
     f_snap f = SnapNone →
     BanChecker_LoadInitialBannedList ctx ids ((bc, f_ms f), f_w f) = (((bc', ms'), w'), Ret err) →
     ∃ tr sw', trace d_step (mkD f enq b q ph h fl lo pl bc) tr
       (mkD (mkF ms' w' (f_calls f) (SnapDone err) (f_evs f) sw') enq b q ph h fl lo pl bc')) ∧
  (∀ q' b' w',
     PublishRetryQueue_retryDue ctx ((q, b), f_w f) = (((q', b'), w'), Ret tt) →
     ∃ tr h' fl', trace d_step (mkD f enq b q Waiting h fl lo pl bc) tr
       (mkD (f_set_w w' f) enq b' q' Waiting h' fl' lo pl bc)).
Proof.
  intros Hal. destruct f as [ms w cs sn evs sw]; simpl in *. split_and!.
  - intros id st log svc' w' err ph E.
    exact (transition_runs ctx id st (mkService ms b (Some q) log) svc' q w w' err cs enq sn evs sw ph h fl lo pl bc
      eq_refl E).
  - intros ids bc' ms' w' err ph ->. unfold BanChecker_LoadInitialBannedList, time_Now. go_unfold. simpl.
    intros (tr & sw' & Htr)%(load_loop_runs _ _ _ _ _ _ _ _ _ _ cs evs sw enq b q ph h fl lo pl).
    eexists _, sw'. eapply trace_cons; [|exact Htr]. apply dstep_front, fstep_snap_start.
  - intros q' b' w' E. unfold PublishRetryQueue_retryDue in E. simpl in E.
    set (due := q_due (next_now w) q) in *.
    destruct (publish_all ctx q due b) as [b1 outs] eqn:Ep.
    destruct (publish_all_runs ctx (f_set_w (tick w) (mkF ms w cs sn evs sw)) enq q due [] (h ++ [QTick]) fl lo pl bc
      b b1 outs) as (tr & h' & fl' & Htr); [|done|].
    { intros p [_ Hp]%list_elem_of_filter. by apply Hal. }
    assert (∃ qs w1, settle_all outs (q, tick w) = ((qs, w1), Ret tt) ∧ q' = qs ∧ b' = b1 ∧ w' = w1)
      as (qs & w1 & Es & -> & -> & ->).
    { destruct due as [|p due'] eqn:Hdue.
      - injection E as <- <- <-. injection Ep as <- <-. by eexists _, _.
      - destruct (settle_all outs (q, tick w)) as [[qs w1] o]. injection E as <- <- <- ->.
        by eexists _, _. }
    eexists _, _, _. eapply trace_cons; [apply dstep_collect |]. eapply trace_app; [exact Htr |].
    eapply trace_cons; [|apply trace_nil].
    exact (dstep_settle (f_set_w (tick w) (mkF ms w cs sn evs sw)) _ _ _ _ _ _ _ _ _ _ _ Es).
Qed.

End proofs.

(** ** Concrete runs *)

Lemma script_accepting : accepting ([] : scriptedBus).
Proof. exists (λ b, b = []). split; [done |]. intros b0 ctx event ->. by exists []. Qed.

Definition ban_event : TenantEvent := mkEvent "acme" Banned 0.

(** acme was banned, the bus refused the event, and it waits in the queue. *)
Definition refused_ban : dsys scriptedBus :=
  mkD (mkF acme_store (mkWorld (mkHeap [mkTenant "acme" Banned None] []) demo_clock 2) [] SnapNone
         [ban_event] []) [] []
    (mkQ [mkPE ban_event 0 1] [0] 5 1000 1000000000 []) Waiting [QEnqueue 0 ban_event] [] [] []
    (mkBanChecker ∅).

Lemma refused_ban_reachable :
  ∃ tr, trace (d_apart "acme") (d_init acme_store admin_world ([Some (errorf "down")] : scriptedBus)
    NewPublishRetryQueue) tr refused_ban.
Proof.
  eexists.
  eapply trace_cons; [split; [by apply dstep_start, (fstep_start _ _ _ _ _ _ "acme" Banned) | by split; [intros ? [= <-]|]] |]. simpl.
  eapply trace_cons; [split; [by eapply dstep_front, (fstep_set _ _ [] [] _ _ _ _ _ Background) | by split; [intros ? [= <-]|]] |]. simpl.
  eapply trace_cons; [split; [apply dstep_front, (fstep_now _ _ [] []) | by split; [intros ? [= <-]|]] |]. simpl.
  eapply trace_cons; [split; [eapply (dstep_publish _ _ _ _ _ _ _ _ _ _ _ _ Background _ _ []);
    [apply (fstep_publish _ _ [] []) | reflexivity | by right] | by split; [intros ? [= <-]|]] |]. simpl.
  eapply trace_cons; [split; [by eapply (dstep_enqueue _ [] _ []) | done] |]. apply trace_nil.
Qed.

(** Before the retry the checker does not know; when the bus is back it will. *)
Lemma changes_survive_bus_failures_witness :
  BanChecker_IsBanned "acme" (d_bc refused_ban) = false ∧
  ∃ tr s t, trace d_internal refused_ban tr s ∧ d_quiescent s ∧ f_view (d_front s) !! "acme" = Some t ∧
    BanChecker_IsBanned "acme" (d_bc s) = bool_decide (Tenant_State t = Banned).
Proof.
  split; [done |]. destruct refused_ban_reachable as [tr Htr].
  assert (fresh_queue NewPublishRetryQueue) as Hq by (split_and!; vm_compute; congruence).
  destruct (changes_survive_bus_failures _ _ _ _ [] _ "acme" _ _ acme_store_wf demo_clock_strict Hq
    (trace_nil _ _) eq_refl Htr) as [Hdrain _].
  destruct (Hdrain script_accepting) as (tr' & s & Htr' & Hqu & Hlost & Hheard & Hlog).
  destruct (changes_survive_bus_failures _ _ _ _ [] _ "acme" _ _ acme_store_wf demo_clock_strict Hq
    (trace_nil _ _) eq_refl (trace_app _ _ _ _ _ _ Htr (internal_apart _ _ _ _ Htr'))) as [_ Hagree].
  destruct (Hagree Hqu) as (t & Ht & Hb).
  - right. split; [done |]. apply Hheard. left. exists ban_event. split; [by left | reflexivity].
  - intros ev _ [Hl|(p & pe & _ & _ & a & Ha)].
    + rewrite Hlost in Hl. by apply not_elem_of_nil in Hl.
    + rewrite (Hlog eq_refl) in Ha. simpl in Ha. setoid_rewrite elem_of_nil in Ha. naive_solver.
  - by exists tr', s, t.
Defined.
