(* ===== verification/Rbac.v ===== *)
(** * Package rbac

    Permissions per tenant and role.  Every method runs under the lock, so a
    history of the object is a sequence of calls. *)
From S2P Require Import Prelude GoStrings GoLib Tenant.
Set Default Goal Selector "!".

Abbreviation Permission := string (only parsing).

Record RBAC := mkRBAC { rb_definitions : gmap TenantID (gmap Role (gset Permission)) }.

Definition rbac_New : RBAC := mkRBAC ∅.

(** [permSet[p] = struct{}{}] for every [p], from an empty map. *)
Definition perm_set (permissions : list Permission) : gset Permission :=
  foldl (λ s p, {[p]} ∪ s) ∅ permissions.

Definition RBAC_DefineRole (tenantID : TenantID) (role : Role) (permissions : list Permission)
    (r : RBAC) : RBAC :=
  let defs :=
    match rb_definitions r !! tenantID with
    | None => <[tenantID := ∅]> (rb_definitions r)
    | Some _ => rb_definitions r
    end in
  mkRBAC (alter (insert role (perm_set permissions)) tenantID defs).

(** The loop over [t.Roles]. *)
Fixpoint can_loop (tenantRoles : gmap Role (gset Permission)) (permission : Permission)
    (roles : list Role) : bool :=
  match roles with
  | [] => false
  | role :: roles =>
      match tenantRoles !! role with
      | Some permSet =>
          if decide (permission ∈ permSet) then true else can_loop tenantRoles permission roles
      | None => can_loop tenantRoles permission roles
      end
  end.

Definition RBAC_Can (t : ptr) (permission : Permission) : GoM (RBAC * world) bool :=
  tv ← deref t;
  rw ← go_get;
  match rb_definitions rw.1 !! Tenant_ID tv with
  | None => mret false
  | Some tenantRoles => mret (can_loop tenantRoles permission (tenant_roles (w_heap rw.2) tv))
  end.

(** ** The specification: the latest definition of a role decides *)
Record role_def := mkDef { rd_tenant : TenantID; rd_role : Role; rd_perms : list Permission }.

Definition define (r : RBAC) (d : role_def) : RBAC :=
  RBAC_DefineRole (rd_tenant d) (rd_role d) (rd_perms d) r.

(** The object after the calls [ds] of [DefineRole]. *)
Definition defined (ds : list role_def) : RBAC := foldl define rbac_New ds.

Definition latest (ds : list role_def) (id : TenantID) (role : Role) : option role_def :=
  last (filter (λ d, rd_tenant d = id ∧ rd_role d = role) ds).

(** ** Lemmas *)
Lemma elem_of_perm_set p ps : p ∈ perm_set ps ↔ p ∈ ps.
Proof.
  unfold perm_set.
  enough (∀ s : gset Permission, p ∈ foldl (λ s p, {[p]} ∪ s) s ps ↔ p ∈ s ∨ p ∈ ps) as ->
    by set_solver.
  induction ps as [|x ps IH]; intros s; simpl; [set_solver |]. rewrite IH. set_solver.
Qed.

(** The stored set for a tenant's role. *)
Definition role_set (r : RBAC) (id : TenantID) (role : Role) : option (gset Permission) :=
  rb_definitions r !! id ≫= λ roles, roles !! role.

Lemma role_set_define r d id role :
  role_set (define r d) id role =
  if decide (rd_tenant d = id ∧ rd_role d = role) then Some (perm_set (rd_perms d))
  else role_set r id role.
Proof.
  unfold role_set, define, RBAC_DefineRole. simpl.
  destruct (decide (rd_tenant d = id)) as [<-|Hne].
  - destruct (rb_definitions r !! rd_tenant d) as [m|] eqn:Hm; simpl.
    all: rewrite lookup_alter_eq, ?lookup_insert_eq, ?Hm; simpl.
    all: destruct (decide (rd_role d = role)) as [<-|Hr];
      [rewrite lookup_insert_eq, decide_True by done |
       rewrite lookup_insert_ne, decide_False by naive_solver]; done.
  - rewrite lookup_alter_ne, decide_False by naive_solver.
    destruct (rb_definitions r !! rd_tenant d); [done |]. by rewrite lookup_insert_ne.
Qed.

Lemma role_set_defined ds id role :
  role_set (defined ds) id role = perm_set <$> (rd_perms <$> latest ds id role).
Proof.
  unfold defined, latest. induction ds as [|d ds IH] using rev_ind.
  - unfold role_set, rbac_New; simpl. by rewrite lookup_empty.
  - rewrite foldl_app, filter_app. simpl. rewrite role_set_define, filter_cons, filter_nil.
    case_decide; [by rewrite last_snoc | by rewrite app_nil_r].
Qed.

Lemma can_loop_spec roles permission (rs : list Role) :
  can_loop roles permission rs = true ↔
  ∃ role s, role ∈ rs ∧ roles !! role = Some s ∧ permission ∈ s.
Proof.
  induction rs as [|role rs IH]; simpl; [set_solver |].
  destruct (roles !! role) as [s|] eqn:Hs; [case_decide |]; rewrite ?IH; set_solver.
Qed.

Lemma RBAC_Can_eq (r : RBAC) p t w permission :
  heap_load (w_heap w) p = Some t →
  RBAC_Can (Some p) permission (r, w) =
  ((r, w), Ret match rb_definitions r !! Tenant_ID t with
               | None => false
               | Some roles => can_loop roles permission (tenant_roles (w_heap w) t)
               end).
Proof.
  intros Ht. unfold RBAC_Can, deref. go_unfold. simpl. rewrite Ht. simpl.
  by destruct (rb_definitions r !! Tenant_ID t).
Qed.

(** (C13) Access is exactly what was granted.  After any sequence of [DefineRole]
    calls, [Can] returns (and changes nothing) for any allocated tenant, and it
    returns true exactly when the tenant holds a role whose latest definition for
    that very tenant lists the permission: nothing is granted by another tenant's
    definitions, by an undefined role, or by a definition that was replaced. *)
Theorem rbac_can_iff_granted ds p t w permission :
  heap_load (w_heap w) p = Some t →
  ∃ b, RBAC_Can (Some p) permission (defined ds, w) = ((defined ds, w), Ret b) ∧
    (b = true ↔ ∃ role d, role ∈ tenant_roles (w_heap w) t ∧
       latest ds (Tenant_ID t) role = Some d ∧ permission ∈ rd_perms d).
Proof.
  intros Ht. rewrite (RBAC_Can_eq _ _ _ _ _ Ht).
  assert (∀ role s, role_set (defined ds) (Tenant_ID t) role = Some s ∧ permission ∈ s ↔
    ∃ d, latest ds (Tenant_ID t) role = Some d ∧ permission ∈ rd_perms d ∧
         s = perm_set (rd_perms d)) as Hrs.
  { intros role s. rewrite role_set_defined. destruct (latest ds _ role) as [d|]; simpl; [|naive_solver].
    split; [intros [[= <-] Hp] | intros (d' & [= <-] & Hp & ->)];
      [exists d; by rewrite elem_of_perm_set in Hp | by rewrite elem_of_perm_set]. }
  unfold role_set in Hrs.
  destruct (rb_definitions (defined ds) !! Tenant_ID t) as [roles|]; simpl in Hrs.
  - eexists. split; [done |]. rewrite can_loop_spec. split.
    + intros (role & s & Hr & Hs). apply Hrs in Hs as (d & ? & ? & _). eauto.
    + intros (role & d & Hr & Hd). exists role, (perm_set (rd_perms d)). split; [done |].
      apply Hrs. naive_solver.
  - eexists. split; [done |]. split; [done |]. intros (role & d & Hr & Hd & Hp).
    destruct (proj2 (Hrs role (perm_set (rd_perms d)))) as [? _]; [eauto | done].
Qed.

(** Roles defined for two tenants, one of them twice. *)
Definition demo_defs : list role_def :=
  [mkDef "acme" "admin" ["users:read"; "users:write"]; mkDef "globex" "viewer" ["users:read"];
   mkDef "globex" "viewer" []].

Definition viewer_world : world :=
  mkWorld (mkHeap [mkTenant "globex" Active (Some (mkSlice 0 0 2))] [["viewer"; "admin"]])
    (λ n, Z.of_nat n) 0.

Lemma rbac_can_iff_granted_witness :
  ∃ b, RBAC_Can (Some 0) "users:write" (defined demo_defs, viewer_world) =
      ((defined demo_defs, viewer_world), Ret b) ∧
    (b = true ↔ ∃ role d, role ∈ ["viewer"; "admin"] ∧
       latest demo_defs "globex" role = Some d ∧ "users:write" ∈ rd_perms d).
Proof.
  apply (rbac_can_iff_granted demo_defs 0 (mkTenant "globex" Active (Some (mkSlice 0 0 2)))
    viewer_world "users:write"). reflexivity.
Defined.
