(* ===== verification/Metrics.v ===== *)
(** * Package metrics

    [MemoryMetrics]: per-tenant atomic counters in a [sync.Map].  A method is a
    sequence of atomic accesses; [met_step] interleaves the accesses of concurrent
    calls.  [PrometheusMetrics]: the label values it uses, over the metric vectors of
    the Prometheus client. *)
From S2P Require Import Prelude GoStrings GoLib GoTime GoJson Tenant.
Set Default Goal Selector "!".

Record tenantMetrics := mkTM {
  tm_requests : Z;
  tm_errors : Z;
  tm_latencySum : Z;
  tm_latencyCount : Z
}.

Record MemoryMetrics := mkMM { mm_tenants : gmap TenantID tenantMetrics }.

Definition metrics_New : MemoryMetrics := mkMM ∅.

Definition tm_zero : tenantMetrics := mkTM 0 0 0 0.

(** [LoadOrStore(id, &tenantMetrics{})]: the entry is there afterwards. *)
Definition getOrCreate (id : TenantID) (m : MemoryMetrics) : MemoryMetrics :=
  match mm_tenants m !! id with
  | Some _ => m
  | None => mkMM (<[id := tm_zero]> (mm_tenants m))
  end.

(** [Add] on one counter of an entry that exists. *)
Inductive counter : Type := CReq | CErr | CSum | CCount.

#[global] Instance counter_eq_dec : EqDecision counter.
Proof. solve_decision. Defined.

Definition tm_get (c : counter) (t : tenantMetrics) : Z :=
  match c with
  | CReq => tm_requests t | CErr => tm_errors t
  | CSum => tm_latencySum t | CCount => tm_latencyCount t
  end.

Definition tm_add (c : counter) (d : Z) (t : tenantMetrics) : tenantMetrics :=
  match c with
  | CReq => mkTM (wrap64 (tm_requests t + d)) (tm_errors t) (tm_latencySum t) (tm_latencyCount t)
  | CErr => mkTM (tm_requests t) (wrap64 (tm_errors t + d)) (tm_latencySum t) (tm_latencyCount t)
  | CSum => mkTM (tm_requests t) (tm_errors t) (wrap64 (tm_latencySum t + d)) (tm_latencyCount t)
  | CCount => mkTM (tm_requests t) (tm_errors t) (tm_latencySum t) (wrap64 (tm_latencyCount t + d))
  end.

(** One atomic access of the shared map or of a counter. *)
Inductive access : Type :=
| AGet (id : TenantID)
| AAdd (id : TenantID) (c : counter) (d : Z).

Definition run_access (a : access) (m : MemoryMetrics) : MemoryMetrics :=
  match a with
  | AGet id => getOrCreate id m
  | AAdd id c d => mkMM (alter (tm_add c d) id (mm_tenants m))
  end.

Definition run_accesses (l : list access) (m : MemoryMetrics) : MemoryMetrics :=
  foldl (λ m a, run_access a m) m l.

(** The three methods, as the accesses they make. *)
Definition IncRequests_accesses (tenantID : TenantID) : list access :=
  [AGet tenantID; AAdd tenantID CReq 1].
Definition IncErrors_accesses (tenantID : TenantID) : list access :=
  [AGet tenantID; AAdd tenantID CErr 1].
Definition ObserveLatency_accesses (tenantID : TenantID) (duration : Z) : list access :=
  [AGet tenantID; AAdd tenantID CSum duration; AAdd tenantID CCount 1].

Definition MemoryMetrics_IncRequests (ctx : context) (tenantID : TenantID) :
    MemoryMetrics → MemoryMetrics := run_accesses (IncRequests_accesses tenantID).
Definition MemoryMetrics_IncErrors (ctx : context) (tenantID : TenantID) :
    MemoryMetrics → MemoryMetrics := run_accesses (IncErrors_accesses tenantID).
Definition MemoryMetrics_ObserveLatency (ctx : context) (tenantID : TenantID) (duration : Z) :
    MemoryMetrics → MemoryMetrics := run_accesses (ObserveLatency_accesses tenantID duration).

Record Snapshot := mkSnapshot { sn_Requests : Z; sn_Errors : Z; sn_AverageLatency : Z }.

Definition MemoryMetrics_Snapshot (id : TenantID) (m : MemoryMetrics) : MemoryMetrics * Snapshot :=
  let m := getOrCreate id m in
  let tm := default tm_zero (mm_tenants m !! id) in
  let count := tm_latencyCount tm in
  let avg := if (0 <? count)%Z then (tm_latencySum tm ÷ count)%Z else 0%Z in
  (m, mkSnapshot (tm_requests tm) (tm_errors tm) avg).

(** ** Concurrent calls *)
Inductive metric_call : Type :=
| MIncRequests (id : TenantID)
| MIncErrors (id : TenantID)
| MObserveLatency (id : TenantID) (duration : Z).

Definition accesses_of (c : metric_call) : list access :=
  match c with
  | MIncRequests id => IncRequests_accesses id
  | MIncErrors id => IncErrors_accesses id
  | MObserveLatency id d => ObserveLatency_accesses id d
  end.

(** Some goroutine makes its next access. *)
Inductive met_step : MemoryMetrics * list (list access) → access →
    MemoryMetrics * list (list access) → Prop :=
| met_run m ts1 a rest ts2 :
    met_step (m, ts1 ++ (a :: rest) :: ts2) a (run_access a m, ts1 ++ rest :: ts2).

(** What one access, and a list of calls, adds to a counter of a tenant. *)
Definition contrib (id : TenantID) (c : counter) (a : access) : Z :=
  match a with
  | AAdd id' c' d => if decide (id' = id ∧ c' = c) then d else 0
  | AGet _ => 0
  end.

Definition total (id : TenantID) (c : counter) (l : list access) : Z :=
  foldr (λ a z, contrib id c a + z)%Z 0%Z l.

Definition read (m : MemoryMetrics) (id : TenantID) (c : counter) : Z :=
  default 0%Z (tm_get c <$> mm_tenants m !! id).

(** What a call means: it counts for its own tenant only. *)
Definition call_adds (id : TenantID) (c : counter) (call : metric_call) : Z :=
  match call, c with
  | MIncRequests i, CReq => if decide (i = id) then 1 else 0
  | MIncErrors i, CErr => if decide (i = id) then 1 else 0
  | MObserveLatency i d, CSum => if decide (i = id) then d else 0
  | MObserveLatency i _, CCount => if decide (i = id) then 1 else 0
  | _, _ => 0
  end.

Definition expected (id : TenantID) (c : counter) (calls : list metric_call) : Z :=
  foldr (λ call z, call_adds id c call + z)%Z 0%Z calls.

(** ** Lemmas *)
Lemma total_app id c l1 l2 : total id c (l1 ++ l2) = (total id c l1 + total id c l2)%Z.
Proof. induction l1; simpl; lia. Qed.

Lemma total_perm id c l1 l2 : l1 ≡ₚ l2 → total id c l1 = total id c l2.
Proof. induction 1; simpl; lia. Qed.

Lemma total_calls id c calls : total id c (concat (accesses_of <$> calls)) = expected id c calls.
Proof.
  induction calls as [|call calls IH]; [done |]. rewrite fmap_cons. simpl.
  rewrite total_app, IH. f_equal. destruct call, c; simpl; repeat case_decide; naive_solver lia.
Qed.

Lemma tm_get_add c c' d t :
  tm_get c (tm_add c' d t) = if decide (c' = c) then wrap64 (tm_get c t + d) else tm_get c t.
Proof. by destruct c, c'. Qed.

(** The accesses a goroutine still has to make find their entry. *)
Definition thread_ok (m : MemoryMetrics) (t : list access) : Prop :=
  match t with
  | AGet id :: rest => ∀ a, a ∈ rest → ∃ c d, a = AAdd id c d
  | _ => ∀ a, a ∈ t → ∃ id c d, a = AAdd id c d ∧ is_Some (mm_tenants m !! id)
  end.

Lemma run_access_dom a m id : is_Some (mm_tenants m !! id) → is_Some (mm_tenants (run_access a m) !! id).
Proof.
  intros H. destruct a as [i|i c d]; simpl.
  - unfold getOrCreate. destruct (mm_tenants m !! i) eqn:Hi; [done |]. simpl.
    rewrite lookup_insert_ne; [done |]. intros ->. rewrite Hi in H. by destruct H.
  - by rewrite lookup_alter_is_Some.
Qed.

Lemma thread_ok_access a m t : thread_ok m t → thread_ok (run_access a m) t.
Proof.
  destruct t as [|[i|i c d] t]; simpl; [by intros _ x ?%not_elem_of_nil | done |].
  intros H x Hx. destruct (H x Hx) as (id & c' & d' & ? & ?). eauto 10 using run_access_dom.
Qed.

Lemma thread_ok_next a m t : thread_ok m (a :: t) → thread_ok (run_access a m) t.
Proof.
  destruct a as [i|i c d]; simpl; intros H.
  - assert (is_Some (mm_tenants (getOrCreate i m) !! i)) as Hs.
    { unfold getOrCreate. destruct (mm_tenants m !! i) eqn:Hi; [by rewrite Hi |].
      simpl. by rewrite lookup_insert_eq. }
    destruct t as [|[i'|i' c' d'] t]; simpl; [by intros a ?%not_elem_of_nil | |].
    + destruct (H (AGet i')) as (? & ? & ?); [by left | done].
    + intros a Ha. destruct (H a Ha) as (c & d & ->). eauto 10.
  - assert (∀ x, x ∈ t → ∃ id c' d', x = AAdd id c' d' ∧ is_Some (mm_tenants m !! id)) as Ht.
    { intros x Hx. apply H. by right. }
    assert (∀ x, x ∈ t → ∃ id c' d', x = AAdd id c' d' ∧
      is_Some (alter (tm_add c d) i (mm_tenants m) !! id)) as Ht'.
    { intros x Hx. destruct (Ht x Hx) as (id & c' & d' & ? & ?). exists id, c', d'.
      by rewrite lookup_alter_is_Some. }
    destruct t as [|[i'|i' c' d'] t]; simpl; [done | | done].
    destruct (Ht (AGet i')) as (? & ? & ? & ? & _); [by left | done].
Qed.

(** An access adds its contribution, modulo 2^64. *)
Lemma read_access a rest m id c :
  thread_ok m (a :: rest) → wrap64 (read m id c) = read m id c →
  read (run_access a m) id c = wrap64 (read m id c + contrib id c a).
Proof.
  intros Hok Hr. destruct a as [i|i c' d]; simpl.
  - rewrite Z.add_0_r, Hr. unfold read, getOrCreate.
    destruct (mm_tenants m !! i) eqn:Hi; [done |]. simpl. rewrite lookup_insert.
    case_decide as Hid; [|done]. subst. rewrite Hi. by destruct c.
  - simpl in Hok. destruct (Hok (AAdd i c' d)) as (id' & ? & ? & [= <- <- <-] & [t Ht]); [by left |].
    unfold read in *. simpl. rewrite lookup_alter. case_decide as Hid.
    + subst id. rewrite Ht in *. simpl in *. rewrite tm_get_add.
      destruct (decide (c' = c)) as [->|Hc]; [rewrite decide_True by done; done |].
      rewrite decide_False by naive_solver. by rewrite Z.add_0_r.
    + rewrite decide_False by naive_solver. by rewrite Z.add_0_r.
Qed.

Definition met_inv (s : MemoryMetrics * list (list access)) : Prop :=
  (∀ t, t ∈ s.2 → thread_ok s.1 t) ∧ ∀ id c, wrap64 (read s.1 id c) = read s.1 id c.

Lemma met_step_inv s a s' :
  met_step s a s' → met_inv s →
  met_inv s' ∧ (∀ id c, read s'.1 id c = wrap64 (read s.1 id c + contrib id c a)) ∧
  concat s.2 ≡ₚ a :: concat s'.2.
Proof.
  intros Hstep [Hok Hr]. destruct Hstep as [m ts1 a rest ts2]; simpl in *.
  assert (thread_ok m (a :: rest)) as Ha by (apply Hok; set_solver).
  assert (∀ id c, read (run_access a m) id c = wrap64 (read m id c + contrib id c a)) as Hread.
  { intros id c. eapply read_access; eauto. }
  split; [split |]; simpl.
  - intros t Ht. apply elem_of_app in Ht as [Ht|[->|Ht]%elem_of_cons].
    + apply thread_ok_access, Hok. set_solver.
    + by apply thread_ok_next.
    + apply thread_ok_access, Hok. set_solver.
  - intros id c. rewrite Hread. apply wrap64_id, wrap64_range.
  - split; [done |]. rewrite !concat_app. simpl. symmetry. apply Permutation_middle.
Qed.

Lemma met_trace s tr s' :
  trace met_step s tr s' → met_inv s →
  met_inv s' ∧ (∀ id c, read s'.1 id c = wrap64 (read s.1 id c + total id c tr)) ∧
  concat s.2 ≡ₚ tr ++ concat s'.2.
Proof.
  induction 1 as [s|s a s1 tr s2 Hstep _ IH]; intros Hinv.
  - split_and!; [done | | done]. intros id c. simpl. rewrite Z.add_0_r. symmetry. apply Hinv.
  - destruct (met_step_inv _ _ _ Hstep Hinv) as (Hinv1 & Hread & Hp).
    destruct (IH Hinv1) as (Hinv2 & Hread2 & Hp2). split_and!; [done | |].
    + intros id c. rewrite Hread2, Hread, wrap64_add_mod. simpl. f_equal. lia.
    + by rewrite Hp, Hp2.
Qed.

Lemma met_inv_init calls : met_inv (metrics_New, accesses_of <$> calls).
Proof.
  split; simpl.
  - intros t (call & -> & _)%list_elem_of_fmap.
    destruct call; simpl; intros a; rewrite ?elem_of_cons, elem_of_nil; naive_solver.
  - intros id c. unfold read. simpl. by rewrite lookup_empty.
Qed.

Lemma met_finishes m ts : ∃ tr m', trace met_step (m, ts) tr (m', (λ _, []) <$> ts).
Proof.
  assert (∀ done m t ts, ∃ tr m', trace met_step (m, done ++ t :: ts) tr (m', done ++ [] :: ts))
    as Hone.
  { intros done m0 t. revert m0. induction t as [|a t IH]; intros m0 ts0; [eexists [], _; apply trace_nil |].
    destruct (IH (run_access a m0) ts0) as (tr & m' & Htr). eexists _, m'.
    eapply trace_cons; [apply met_run | exact Htr]. }
  enough (∀ done m, ∃ tr m', trace met_step (m, done ++ ts) tr (m', done ++ ((λ _, []) <$> ts))) as H
    by exact (H [] m).
  clear m. induction ts as [|t ts IH]; intros done m; [eexists [], _; apply trace_nil |].
  destruct (Hone done m t ts) as (tr1 & m1 & Htr1).
  destruct (IH (done ++ [[]]) m1) as (tr2 & m2 & Htr2). rewrite <- !app_assoc in Htr2. simpl in Htr2.
  eexists _, m2. by eapply trace_app.
Qed.

(** (C28) No update is lost and tenants do not mix: concurrent calls can always
    finish, and however their atomic accesses interleave, afterwards the snapshot of
    a tenant shows exactly the number of requests and errors recorded for that
    tenant and the mean of its latencies, as 64-bit integers: the sum and the counts
    wrap at 2^63, and without observations the mean is 0. *)
Theorem metrics_lose_nothing calls :
  (∃ tr m, trace met_step (metrics_New, accesses_of <$> calls) tr (m, (λ _, []) <$> calls)) ∧
  ∀ tr m id, trace met_step (metrics_New, accesses_of <$> calls) tr (m, (λ _, []) <$> calls) →
    let count := wrap64 (expected id CCount calls) in
    (MemoryMetrics_Snapshot id m).2 =
      mkSnapshot (wrap64 (expected id CReq calls)) (wrap64 (expected id CErr calls))
        (if (0 <? count)%Z then wrap64 (expected id CSum calls) ÷ count else 0)%Z.
Proof.
  split.
  - destruct (met_finishes metrics_New (accesses_of <$> calls)) as (tr & m & Htr).
    exists tr, m. by rewrite <- list_fmap_compose in Htr.
  - intros tr m id Htr count.
    destruct (met_trace _ _ _ Htr (met_inv_init calls)) as (_ & Hread & Hp). simpl in *.
    assert (concat ((λ _ : metric_call, [] : list access) <$> calls) = []) as Hnil.
    { clear. by induction calls. }
    rewrite Hnil, app_nil_r in Hp.
    assert (∀ c, read m id c = wrap64 (expected id c calls)) as Hexp.
    { intros c. rewrite Hread, <- (total_calls id c calls), <- (total_perm id c _ _ Hp).
      unfold read. simpl. by rewrite lookup_empty. }
    assert (∀ c, tm_get c (default tm_zero (mm_tenants (getOrCreate id m) !! id)) = read m id c) as Hg.
    { intros c. unfold read, getOrCreate. destruct (mm_tenants m !! id) eqn:Hm; [by rewrite Hm |].
      simpl. rewrite lookup_insert_eq. by destruct c. }
    unfold MemoryMetrics_Snapshot. simpl. subst count.
    rewrite <- !Hexp, <- !Hg. reflexivity.
Qed.

(** ** [PrometheusMetrics]

    The client library's metric vectors: what is recorded with a list of label
    values goes to the series of these values; the number of values must be the
    number of label names of the vector and every value must be UTF-8, otherwise
    [WithLabelValues] panics. *)
Definition utf8 (s : string) : Prop := valid_utf8 (bytes_of s).

#[global] Instance utf8_dec s : Decision (utf8 s).
Proof. unfold utf8, valid_utf8. apply _. Defined.

Class MetricVec (V X : Type) := {
  vec_new : list string → V;
  vec_labels : V → list string;
  vec_record : list string → X → V → outcome V;
  vec_series : V → list string → list X
}.

Class MetricVecLaws (V X : Type) {HV : MetricVec V X} := {
  vec_new_labels labels : vec_labels (vec_new labels) = labels;
  vec_new_series labels lvs : vec_series (vec_new labels) lvs = [];
  vec_record_ok lvs x v :
    length lvs = length (vec_labels v) → Forall utf8 lvs →
    ∃ v', vec_record lvs x v = Ret v' ∧ vec_labels v' = vec_labels v ∧
      ∀ lvs', vec_series v' lvs' =
        if decide (lvs' = lvs) then vec_series v lvs' ++ [x] else vec_series v lvs';
  vec_record_panics lvs x v : ¬ Forall utf8 lvs → ∃ msg, vec_record lvs x v = Panic msg
}.

Section prometheus.
(** Counters record [Inc] as [tt]; histograms record the duration, in nanoseconds,
    whose [Seconds] they observe. *)
Context {C H : Type} {HC : MetricVec C unit} {HH : MetricVec H Z}.

(** The vectors are [nil] until [New] sets them. *)
Record PrometheusMetrics := mkPM {
  pm_requests : option C;
  pm_errors : option C;
  pm_latency : option H;
  pm_withTenantID : bool
}.

Definition PrometheusOption : Type := PrometheusMetrics → PrometheusMetrics.

Definition WithTenantLabels : PrometheusOption := λ m,
  mkPM (pm_requests m) (pm_errors m) (pm_latency m) true.

(** [MustRegister] of the caller's registerer panics when it refuses. *)
Definition prometheus_New (mustRegister : list string → outcome unit)
    (opts : list PrometheusOption) : outcome PrometheusMetrics :=
  let m := foldl (λ m opt, opt m) (mkPM None None None false) opts in
  let labels := if pm_withTenantID m then ["tenant_id"] else [] in
  match mustRegister ["tenant_requests_total"; "tenant_errors_total";
                      "tenant_request_latency_seconds"] with
  | Panic msg => Panic msg
  | Ret _ => Ret (mkPM (Some (vec_new labels)) (Some (vec_new labels)) (Some (vec_new labels))
                    (pm_withTenantID m))
  end.

Definition labelValues (m : PrometheusMetrics) (tenantID : TenantID) : list string :=
  if negb (pm_withTenantID m) then [] else [tenantID].

(** A call on a vector; a [nil] vector panics. *)
Definition on_vec {V X : Type} {HV : MetricVec V X} (lvs : list string) (x : X) (v : option V) :
    outcome (option V) :=
  match v with
  | None => Panic "nil vector"
  | Some v => match vec_record lvs x v with Ret v' => Ret (Some v') | Panic msg => Panic msg end
  end.

Definition Prometheus_IncRequests (tenantID : TenantID) (m : PrometheusMetrics) :
    outcome PrometheusMetrics :=
  match on_vec (labelValues m tenantID) tt (pm_requests m) with
  | Ret v => Ret (mkPM v (pm_errors m) (pm_latency m) (pm_withTenantID m))
  | Panic msg => Panic msg
  end.

Definition Prometheus_IncErrors (tenantID : TenantID) (m : PrometheusMetrics) :
    outcome PrometheusMetrics :=
  match on_vec (labelValues m tenantID) tt (pm_errors m) with
  | Ret v => Ret (mkPM (pm_requests m) v (pm_latency m) (pm_withTenantID m))
  | Panic msg => Panic msg
  end.

Definition Prometheus_ObserveLatency (tenantID : TenantID) (duration : Z) (m : PrometheusMetrics) :
    outcome PrometheusMetrics :=
  match on_vec (labelValues m tenantID) duration (pm_latency m) with
  | Ret v => Ret (mkPM (pm_requests m) (pm_errors m) v (pm_withTenantID m))
  | Panic msg => Panic msg
  end.

Definition Prometheus_call (c : metric_call) (m : PrometheusMetrics) : outcome PrometheusMetrics :=
  match c with
  | MIncRequests id => Prometheus_IncRequests id m
  | MIncErrors id => Prometheus_IncErrors id m
  | MObserveLatency id d => Prometheus_ObserveLatency id d m
  end.

(** The tenant a call is about. *)
Definition metric_tenant (c : metric_call) : TenantID :=
  match c with MIncRequests id | MIncErrors id | MObserveLatency id _ => id end.

Fixpoint Prometheus_calls (cs : list metric_call) (m : PrometheusMetrics) :
    outcome PrometheusMetrics :=
  match cs with
  | [] => Ret m
  | c :: cs =>
      match Prometheus_call c m with Ret m' => Prometheus_calls cs m' | Panic msg => Panic msg end
  end.

(** The series a call for a tenant belongs to. *)
Definition series_of (tenantLabels : bool) (id : TenantID) : list string :=
  if tenantLabels then [id] else [].

Definition requests_in (tl : bool) (lvs : list string) (cs : list metric_call) : list unit :=
  omap (λ c, match c with
             | MIncRequests id => if decide (series_of tl id = lvs) then Some tt else None
             | _ => None end) cs.
Definition errors_in (tl : bool) (lvs : list string) (cs : list metric_call) : list unit :=
  omap (λ c, match c with
             | MIncErrors id => if decide (series_of tl id = lvs) then Some tt else None
             | _ => None end) cs.
Definition latencies_in (tl : bool) (lvs : list string) (cs : list metric_call) : list Z :=
  omap (λ c, match c with
             | MObserveLatency id d => if decide (series_of tl id = lvs) then Some d else None
             | _ => None end) cs.

Context {HCL : MetricVecLaws C unit} {HHL : MetricVecLaws H Z}.

(** The state [New] establishes and the calls keep: the vectors exist, with one
    label name exactly when the tenant label is on, and hold these samples. *)
Record prom_state (tl : bool) (cs : list metric_call) (m : PrometheusMetrics) : Prop := {
  ps_tl : pm_withTenantID m = tl;
  ps_requests : ∃ v, pm_requests m = Some v ∧ length (vec_labels v) = (if tl then 1 else 0) ∧
    ∀ lvs, vec_series v lvs = requests_in tl lvs cs;
  ps_errors : ∃ v, pm_errors m = Some v ∧ length (vec_labels v) = (if tl then 1 else 0) ∧
    ∀ lvs, vec_series v lvs = errors_in tl lvs cs;
  ps_latency : ∃ v, pm_latency m = Some v ∧ length (vec_labels v) = (if tl then 1 else 0) ∧
    ∀ lvs, vec_series v lvs = latencies_in tl lvs cs
}.

Lemma on_vec_ok {V X : Type} {HV : MetricVec V X} {HVL : MetricVecLaws V X}
    (tl : bool) id x (v : V) (samples : list string → list X) :
  length (vec_labels v) = (if tl then 1 else 0) → Forall utf8 (series_of tl id) →
  (∀ lvs, vec_series v lvs = samples lvs) →
  ∃ v', on_vec (series_of tl id) x (Some v) = Ret (Some v') ∧
    length (vec_labels v') = (if tl then 1 else 0) ∧
    ∀ lvs, vec_series v' lvs =
      samples lvs ++ if decide (series_of tl id = lvs) then [x] else [].
Proof.
  intros Hl Hu Hs. destruct (vec_record_ok (series_of tl id) x v) as (v' & E & Hl' & Hs').
  { rewrite Hl. by destruct tl. }
  { done. }
  exists v'. unfold on_vec. rewrite E. split_and!; [done | congruence |].
  intros lvs. rewrite Hs', Hs. repeat case_decide; simplify_eq; try done. by rewrite app_nil_r.
Qed.

(** The vector [v] after a call that did not use it, and after one that did. *)
Ltac vec_kept v Hs samples :=
  exists v; split_and!; [done | done |]; intros lvs; rewrite Hs; unfold samples;
  by rewrite omap_app, app_nil_r.
Ltac vec_grown v Hs samples :=
  exists v; split_and!; [done | done |]; intros lvs; rewrite Hs; unfold samples;
  rewrite omap_app; simpl; by case_decide.

Lemma Prometheus_call_ok tl cs m c :
  Forall utf8 (series_of tl (metric_tenant c)) →
  prom_state tl cs m → ∃ m', Prometheus_call c m = Ret m' ∧ prom_state tl (cs ++ [c]) m'.
Proof.
  intros Hu [Htl (vr & Hr & Hrl & Hrs) (ve & He & Hel & Hes) (vl & Hla & Hll & Hls)].
  assert (∀ id, labelValues m id = series_of tl id) as Hlv.
  { intros id. unfold labelValues. rewrite Htl. by destruct tl. }
  destruct c as [id|id|id d]; simpl in *;
    unfold Prometheus_IncRequests, Prometheus_IncErrors, Prometheus_ObserveLatency;
    rewrite Hlv, ?Hr, ?He, ?Hla.
  - destruct (on_vec_ok tl id tt vr _ Hrl Hu Hrs) as (v' & -> & Hl' & Hs').
    eexists. split; [reflexivity |]. split; simpl; [done | | |].
    + vec_grown v' Hs' requests_in.
    + vec_kept ve Hes errors_in.
    + vec_kept vl Hls latencies_in.
  - destruct (on_vec_ok tl id tt ve _ Hel Hu Hes) as (v' & -> & Hl' & Hs').
    eexists. split; [reflexivity |]. split; simpl; [done | | |].
    + vec_kept vr Hrs requests_in.
    + vec_grown v' Hs' errors_in.
    + vec_kept vl Hls latencies_in.
  - destruct (on_vec_ok tl id d vl _ Hll Hu Hls) as (v' & -> & Hl' & Hs').
    eexists. split; [reflexivity |]. split; simpl; [done | | |].
    + vec_kept vr Hrs requests_in.
    + vec_kept ve Hes errors_in.
    + vec_grown v' Hs' latencies_in.
Qed.

(** A tenant id that is not UTF-8 cannot be a label value. *)
Lemma Prometheus_call_panics tl cs m c :
  ¬ Forall utf8 (series_of tl (metric_tenant c)) → prom_state tl cs m →
  ∃ msg, Prometheus_call c m = Panic msg.
Proof.
  intros Hu [Htl (vr & Hr & _) (ve & He & _) (vl & Hla & _)].
  assert (labelValues m (metric_tenant c) = series_of tl (metric_tenant c)) as Hlv.
  { unfold labelValues. rewrite Htl. by destruct tl. }
  destruct c as [id|id|id d]; simpl in *;
    unfold Prometheus_IncRequests, Prometheus_IncErrors, Prometheus_ObserveLatency, on_vec;
    rewrite Hlv, ?Hr, ?He, ?Hla.
  - destruct (vec_record_panics _ tt vr Hu) as [msg ->]. eauto.
  - destruct (vec_record_panics _ tt ve Hu) as [msg ->]. eauto.
  - destruct (vec_record_panics _ d vl Hu) as [msg ->]. eauto.
Qed.

(** The calls return as long as the label values are UTF-8, and record. *)
Lemma Prometheus_calls_run tl cs pre m :
  prom_state tl pre m →
  (Forall (λ c, Forall utf8 (series_of tl (metric_tenant c))) cs →
     ∃ m', Prometheus_calls cs m = Ret m' ∧ prom_state tl (pre ++ cs) m') ∧
  (¬ Forall (λ c, Forall utf8 (series_of tl (metric_tenant c))) cs → ∃ msg, Prometheus_calls cs m = Panic msg).
Proof.
  revert pre m; induction cs as [|c cs IH]; intros pre m Hst; simpl.
  - split; [|by intros []]. intros _. exists m. by rewrite app_nil_r.
  - destruct (decide (Forall utf8 (series_of tl (metric_tenant c)))) as [Hu|Hu].
    + destruct (Prometheus_call_ok _ _ _ c Hu Hst) as (m1 & -> & Hst1).
      destruct (IH _ _ Hst1) as [H1 H2]. rewrite <- app_assoc in H1. rewrite Forall_cons. split; [naive_solver |].
      intros Hn. apply H2. naive_solver.
    + destruct (Prometheus_call_panics _ _ _ c Hu Hst) as [msg ->]. rewrite Forall_cons. naive_solver.
Qed.

(** (C39) The collector labels as documented, and panics exactly where the client library
    does.  When the registerer accepts the metrics, [New] returns; by default every
    later call returns, one series without labels gets every tenant's samples and no other
    series exists; with [WithTenantLabels], as long as the tenant ids are UTF-8, every call
    returns and the series of a tenant gets exactly that tenant's samples, in order; a call
    for a tenant id that is not UTF-8 panics then. *)
Theorem prometheus_series mustRegister tenantLabels cs :
  (∀ names, mustRegister names = Ret tt) →
  ∃ m, prometheus_New mustRegister (if tenantLabels : bool then [WithTenantLabels] else []) = Ret m ∧
    ((tenantLabels = true → ∀ c, c ∈ cs → utf8 (metric_tenant c)) →
       ∃ m', Prometheus_calls cs m = Ret m' ∧ prom_state tenantLabels cs m') ∧
    (∀ c, tenantLabels = true → c ∈ cs → ¬ utf8 (metric_tenant c) → ∃ msg, Prometheus_calls cs m = Panic msg).
Proof.
  intros Hreg.
  assert (∃ m, prometheus_New mustRegister (if tenantLabels : bool then [WithTenantLabels] else []) = Ret m ∧
    prom_state tenantLabels [] m) as (m & Hm & Hst).
  { unfold prometheus_New. rewrite Hreg. eexists. split; [reflexivity |].
    destruct tenantLabels; (split; simpl; [done | | |]); eexists;
      (split_and!; [done | by rewrite vec_new_labels | intros; by rewrite vec_new_series]). }
  exists m. split; [done |]. destruct (Prometheus_calls_run tenantLabels cs [] m Hst) as [Hok Hbad]. split.
  - intros Hu. apply Hok, Forall_forall. intros c Hc. destruct tenantLabels; simpl; [|constructor].
    constructor; [|constructor]. by apply Hu.
  - intros c -> Hc Hu. apply Hbad. rewrite Forall_forall. intros Hall. specialize (Hall c Hc). simpl in Hall.
    by apply Forall_cons in Hall as [? _].
Qed.

End prometheus.

(** A vector as a map from label values to samples, for concrete runs. *)
Record mapVec (X : Type) := mkMapVec { mv_labels : list string; mv_series : gmap (list string) (list X) }.
Arguments mkMapVec {X} _ _.
Arguments mv_labels {X} _.
Arguments mv_series {X} _.

#[global] Instance mapVec_MetricVec X : MetricVec (mapVec X) X := {
  vec_new labels := mkMapVec labels ∅;
  vec_labels := mv_labels;
  vec_record lvs x v :=
    if decide (length lvs = length (mv_labels v) ∧ Forall utf8 lvs)
    then Ret (mkMapVec (mv_labels v) (<[lvs := default [] (mv_series v !! lvs) ++ [x]]> (mv_series v)))
    else Panic "inconsistent label cardinality or invalid label value";
  vec_series v lvs := default [] (mv_series v !! lvs)
}.

#[global] Instance mapVec_Laws X : MetricVecLaws (mapVec X) X.
Proof.
  split; simpl; [done | intros; by rewrite lookup_empty | |].
  - intros lvs x v Hl Hu. rewrite decide_True by done. eexists. split_and!; [done | done |].
    intros lvs'. simpl. rewrite lookup_insert. repeat case_decide; simplify_eq; done.
  - intros lvs x v Hu. rewrite decide_False by naive_solver. eauto.
Qed.

Definition demo_metric_calls : list metric_call :=
  [MIncRequests "acme"; MObserveLatency "acme" 5; MIncRequests "globex"].

(** A byte that starts no UTF-8 sequence. *)
Definition bad_id : TenantID := string_of [255%Z].

Lemma prometheus_series_witness :
  (∃ m m', prometheus_New (C := mapVec unit) (H := mapVec Z) (λ _, Ret tt) [WithTenantLabels] = Ret m ∧
    Prometheus_calls demo_metric_calls m = Ret m' ∧ prom_state true demo_metric_calls m') ∧
  (∃ m msg, prometheus_New (C := mapVec unit) (H := mapVec Z) (λ _, Ret tt) [WithTenantLabels] = Ret m ∧
    Prometheus_calls [MIncErrors bad_id] m = Panic msg).
Proof.
  split.
  - destruct (prometheus_series (C := mapVec unit) (H := mapVec Z) (λ _, Ret tt) true demo_metric_calls)
      as (m & Hm & Hok & _); [reflexivity |].
    destruct Hok as (m' & ? & ?); [|by exists m, m'].
    intros _ c Hc. unfold demo_metric_calls in Hc.
    repeat (apply elem_of_cons in Hc as [->|Hc]); [..|by apply not_elem_of_nil in Hc].
    all: apply (bool_decide_eq_true_1 _); by vm_compute.
  - destruct (prometheus_series (C := mapVec unit) (H := mapVec Z) (λ _, Ret tt) true [MIncErrors bad_id])
      as (m & Hm & _ & Hbad); [reflexivity |].
    destruct (Hbad (MIncErrors bad_id)) as [msg ?]; [done | by left | |by exists m, msg].
    apply (bool_decide_eq_false_1 _). by vm_compute.
Defined.
