(* ===== verification/RateLimit.v ===== *)
(** * Package ratelimit: [TenantRateLimiter]

    One token bucket of [golang.org/x/time/rate] per tenant, created on first use.
    The bucket is a parameter.  [rl_step] runs concurrent calls of [Allow] one
    access of the [sync.Map] or of a bucket at a time. *)
From S2P Require Import Prelude GoStrings GoLib Tenant.
Set Default Goal Selector "!".

(** [rate.Limit], [rate.Limiter], [rate.NewLimiter] and [Limiter.Allow], which
    reads the clock. *)
Class RateLib (Limit L : Type) := {
  rate_NewLimiter : Limit → Z → L;
  Limiter_Allow : Z → L → L * bool
}.

(** [LimitFunc]: the application says which limit a tenant has. *)
Definition LimitFunc (Limit : Type) : Type := Tenant → Limit.

(** [trl_objs] are the buckets the program has allocated; the map holds pointers. *)
Record TenantRateLimiter (Limit L : Type) := mkTRL {
  trl_limitFunc : LimitFunc Limit;
  trl_burst : Z;
  trl_limiters : gmap TenantID nat;
  trl_objs : list L
}.
Arguments mkTRL {Limit L} _ _ _ _.
Arguments trl_limitFunc {Limit L} _ _.
Arguments trl_burst {Limit L} _.
Arguments trl_limiters {Limit L} _.
Arguments trl_objs {Limit L} _.

Section limiter.
Context {Limit L : Type} {HL : RateLib Limit L}.
Abbreviation TRL := (TenantRateLimiter Limit L).

Definition NewTenantRateLimiter (limitFunc : LimitFunc Limit) (burst : Z) : TRL :=
  mkTRL limitFunc burst ∅ [].

(** A new bucket for the tenant, not in the map yet. *)
Definition build (t : Tenant) (rl : TRL) : TRL * nat :=
  (mkTRL (trl_limitFunc rl) (trl_burst rl) (trl_limiters rl)
     (trl_objs rl ++ [rate_NewLimiter (trl_limitFunc rl t) (trl_burst rl)]),
   length (trl_objs rl)).

(** [LoadOrStore]. *)
Definition load_or_store (id : TenantID) (cand : nat) (rl : TRL) : TRL * nat :=
  match trl_limiters rl !! id with
  | Some p => (rl, p)
  | None => (mkTRL (trl_limitFunc rl) (trl_burst rl) (<[id := cand]> (trl_limiters rl)) (trl_objs rl), cand)
  end.

(** [limiter.Allow()] on the bucket behind [p]. *)
Definition bucket_allow (p : nat) (now : Z) (rl : TRL) : option (TRL * bool) :=
  (λ l, let '(l', b) := Limiter_Allow now l in
        (mkTRL (trl_limitFunc rl) (trl_burst rl) (trl_limiters rl) (<[p := l']> (trl_objs rl)), b))
  <$> trl_objs rl !! p.

Definition TenantRateLimiter_getLimiter (t : Tenant) (rl : TRL) : TRL * nat :=
  match trl_limiters rl !! Tenant_ID t with
  | Some p => (rl, p)
  | None =>
      let '(rl, cand) := build t rl in
      load_or_store (Tenant_ID t) cand rl
  end.

Definition TenantRateLimiter_Allow (t : ptr) : GoM (TRL * world) bool :=
  tv ← deref t;
  rw ← go_get;
  let '(rl, p) := TenantRateLimiter_getLimiter tv rw.1 in
  _ ← go_put (rl, rw.2);
  now ← time_Now;
  rw ← go_get;
  match bucket_allow p now rw.1 with
  | None => go_panic "nil limiter"
  | Some (rl, b) => _ ← go_put (rl, rw.2); mret b
  end.

(** ** Concurrent calls

    A call is before [Load], between the miss and [LoadOrStore] with its candidate,
    or holds its bucket.  [rs_hist] lists the answers in the order they were given. *)
Inductive rl_phase : Type :=
| GLoad (t : Tenant)
| GStore (t : Tenant) (cand : nat)
| GAllow (id : TenantID) (p : nat).

Record rl_sys := mkRS {
  rs_rl : TRL;
  rs_w : world;
  rs_calls : list rl_phase;
  rs_hist : list (TenantID * Z * bool)
}.

Inductive rl_step : rl_sys → string → rl_sys → Prop :=
| rl_call rl w cs h t :
    rl_step (mkRS rl w cs h) "call" (mkRS rl w (cs ++ [GLoad t]) h)
| rl_hit rl w cs1 cs2 h t p :
    trl_limiters rl !! Tenant_ID t = Some p →
    rl_step (mkRS rl w (cs1 ++ GLoad t :: cs2) h) "Load"
      (mkRS rl w (cs1 ++ GAllow (Tenant_ID t) p :: cs2) h)
| rl_miss rl w cs1 cs2 h t :
    trl_limiters rl !! Tenant_ID t = None →
    rl_step (mkRS rl w (cs1 ++ GLoad t :: cs2) h) "Load"
      (mkRS (build t rl).1 w (cs1 ++ GStore t (build t rl).2 :: cs2) h)
| rl_store rl w cs1 cs2 h t cand :
    rl_step (mkRS rl w (cs1 ++ GStore t cand :: cs2) h) "LoadOrStore"
      (mkRS (load_or_store (Tenant_ID t) cand rl).1 w
         (cs1 ++ GAllow (Tenant_ID t) (load_or_store (Tenant_ID t) cand rl).2 :: cs2) h)
| rl_allow rl w cs1 cs2 h id p rl' b :
    bucket_allow p (next_now w) rl = Some (rl', b) →
    rl_step (mkRS rl w (cs1 ++ GAllow id p :: cs2) h) "Allow"
      (mkRS rl' (tick w) (cs1 ++ cs2) (h ++ [(id, next_now w, b)])).

(** The bucket after calls at the given times, and its answers. *)
Definition bucket_after (l : L) (nows : list Z) : L :=
  foldl (λ l now, (Limiter_Allow now l).1) l nows.

Fixpoint bucket_answers (l : L) (nows : list Z) : list bool :=
  match nows with
  | [] => []
  | now :: nows => (Limiter_Allow now l).2 :: bucket_answers (Limiter_Allow now l).1 nows
  end.

(** The calls of one tenant in a history. *)
Definition hist_of (id : TenantID) (h : list (TenantID * Z * bool)) : list (TenantID * Z * bool) :=
  filter (λ e, e.1.1 = id) h.

Definition times (h : list (TenantID * Z * bool)) : list Z := (λ e, e.1.2) <$> h.

(** ** The invariant *)
Definition cands (cs : list rl_phase) : list nat :=
  omap (λ c, match c with GStore _ p => Some p | _ => None end) cs.

Record rl_inv (limitFunc : Tenant → Limit) (burst : Z) (s : rl_sys) : Prop := {
  ri_func : trl_limitFunc (rs_rl s) = limitFunc ∧ trl_burst (rs_rl s) = burst;
  ri_inj id id' p : trl_limiters (rs_rl s) !! id = Some p →
    trl_limiters (rs_rl s) !! id' = Some p → id = id';
  ri_cands : NoDup (cands (rs_calls s));
  ri_fresh id p : trl_limiters (rs_rl s) !! id = Some p → p ∉ cands (rs_calls s);
  ri_store t p : GStore t p ∈ rs_calls s →
    trl_objs (rs_rl s) !! p = Some (rate_NewLimiter (limitFunc t) burst);
  ri_allow id p : GAllow id p ∈ rs_calls s → trl_limiters (rs_rl s) !! id = Some p;
  ri_none id : trl_limiters (rs_rl s) !! id = None → hist_of id (rs_hist s) = [];
  ri_bucket id p : trl_limiters (rs_rl s) !! id = Some p →
    ∃ t, Tenant_ID t = id ∧
      let l := rate_NewLimiter (limitFunc t) burst in
      trl_objs (rs_rl s) !! p = Some (bucket_after l (times (hist_of id (rs_hist s)))) ∧
      (λ e, e.2) <$> hist_of id (rs_hist s) = bucket_answers l (times (hist_of id (rs_hist s)))
}.

(** ** Lemmas *)
Lemma cands_app cs1 cs2 : cands (cs1 ++ cs2) = cands cs1 ++ cands cs2.
Proof. apply omap_app. Qed.

Lemma elem_of_cands p cs : p ∈ cands cs ↔ ∃ t, GStore t p ∈ cs.
Proof.
  unfold cands. rewrite list_elem_of_omap. split.
  - intros ([t|t p'|id p'] & Hc & E); simplify_eq. eauto.
  - intros [t Ht]. by exists (GStore t p).
Qed.

Lemma bucket_after_snoc l nows now :
  bucket_after l (nows ++ [now]) = (Limiter_Allow now (bucket_after l nows)).1.
Proof. unfold bucket_after. by rewrite foldl_app. Qed.

Lemma bucket_answers_snoc l nows now :
  bucket_answers l (nows ++ [now]) =
  bucket_answers l nows ++ [(Limiter_Allow now (bucket_after l nows)).2].
Proof.
  revert l; induction nows as [|n nows IH]; intros l; [done |]. simpl. by rewrite IH.
Qed.

Lemma hist_of_snoc id h e :
  hist_of id (h ++ [e]) = hist_of id h ++ (if decide (e.1.1 = id) then [e] else []).
Proof. unfold hist_of. by rewrite filter_app. Qed.

Context (limitFunc : Tenant → Limit) (burst : Z).

(** Replacing a phase that holds no candidate by one that holds none. *)
Lemma rl_inv_phase rl w cs cs' h :
  cands cs' = cands cs → (∀ t p, GStore t p ∈ cs' → GStore t p ∈ cs) →
  (∀ id p, GAllow id p ∈ cs' → GAllow id p ∈ cs ∨ trl_limiters rl !! id = Some p) →
  rl_inv limitFunc burst (mkRS rl w cs h) → rl_inv limitFunc burst (mkRS rl w cs' h).
Proof.
  intros Hc Hs Ha [Hf Hi Hn Hfr Hst Hal Hno Hb]; simpl in *. split; simpl; try done.
  - by rewrite Hc.
  - intros id p Hp. rewrite Hc. by eapply Hfr.
  - eauto.
  - intros id p [?|?]%Ha; eauto.
Qed.

Lemma rl_inv_miss rl w cs1 cs2 h t :
  rl_inv limitFunc burst (mkRS rl w (cs1 ++ GLoad t :: cs2) h) →
  rl_inv limitFunc burst
    (mkRS (build t rl).1 w (cs1 ++ GStore t (build t rl).2 :: cs2) h).
Proof.
  intros [[Hlf Hbu] Hi Hn Hfr Hst Hal Hno Hb]; simpl in *.
  assert (∀ p, p ∈ cands (cs1 ++ GLoad t :: cs2) → p < length (trl_objs rl)) as Hlt.
  { intros p [t' Ht]%elem_of_cands. by apply Hst, lookup_lt_Some in Ht. }
  rewrite cands_app in *. simpl in *.
  split; simpl; try done.
  - rewrite cands_app. simpl. rewrite <- Permutation_middle. apply NoDup_cons. split; [|done].
    intros Hx%Hlt. lia.
  - intros id p Hp. rewrite cands_app. simpl. rewrite <- Permutation_middle.
    intros [->|Hx]%elem_of_cons; [|by eapply Hfr].
    destruct (Hb _ _ Hp) as (t' & _ & Hobj & _). apply lookup_lt_Some in Hobj. lia.
  - intros t' p [Hx|[Hx|Hx]%elem_of_cons]%elem_of_app.
    + apply lookup_app_l_Some, Hst. set_solver.
    + injection Hx as -> ->. rewrite Hlf, Hbu. by apply list_lookup_middle.
    + apply lookup_app_l_Some, Hst. set_solver.
  - intros id p Hx. apply Hal. set_solver.
  - intros id p Hp. destruct (Hb _ _ Hp) as (t' & ? & ? & ?). exists t'.
    split_and!; [done | by apply lookup_app_l_Some | done].
Qed.

Lemma rl_inv_store rl w cs1 cs2 h t cand :
  rl_inv limitFunc burst (mkRS rl w (cs1 ++ GStore t cand :: cs2) h) →
  rl_inv limitFunc burst
    (mkRS (load_or_store (Tenant_ID t) cand rl).1 w
       (cs1 ++ GAllow (Tenant_ID t) (load_or_store (Tenant_ID t) cand rl).2 :: cs2) h).
Proof.
  intros [[Hlf Hbu] Hi Hn Hfr Hst Hal Hno Hb]; simpl in *.
  rewrite cands_app in Hn, Hfr. simpl in Hn, Hfr. rewrite <- Permutation_middle in Hn.
  apply NoDup_cons in Hn as [Hcand Hn].
  assert (∀ id p, trl_limiters rl !! id = Some p → p ≠ cand ∧ p ∉ cands cs1 ++ cands cs2) as Hfr'.
  { intros id p Hp%Hfr. rewrite elem_of_app, elem_of_cons in Hp. rewrite elem_of_app. tauto. }
  assert (trl_objs rl !! cand = Some (rate_NewLimiter (limitFunc t) burst)) as Hnew.
  { apply Hst. set_solver. }
  unfold load_or_store. destruct (trl_limiters rl !! Tenant_ID t) as [p0|] eqn:Hid; simpl;
    (split; simpl; try done; rewrite ?cands_app; simpl; try done).
  - intros id p Hp. by apply (Hfr' id p).
  - intros t' p Hx. apply Hst. set_solver.
  - intros id p [Hx|[Hx|Hx]%elem_of_cons]%elem_of_app; [apply Hal; set_solver | by simplify_eq | apply Hal; set_solver].
  - intros id id' p. rewrite !lookup_insert. repeat case_decide; simplify_eq; try done.
    + intros [= <-] Hp. by destruct (Hfr' _ _ Hp).
    + intros Hp [= <-]. by destruct (Hfr' _ _ Hp).
    + apply Hi.
  - intros id p. rewrite lookup_insert. case_decide; [by intros [= <-] |]. intros Hp. by apply (Hfr' id p).
  - intros t' p Hx. apply Hst. set_solver.
  - intros id p [Hx|[Hx|Hx]%elem_of_cons]%elem_of_app.
    + rewrite lookup_insert_ne; [apply Hal; set_solver |]. intros Heq.
      assert (trl_limiters rl !! id = Some p) by (apply Hal; set_solver). congruence.
    + injection Hx as -> ->. apply lookup_insert_eq.
    + rewrite lookup_insert_ne; [apply Hal; set_solver |]. intros Heq.
      assert (trl_limiters rl !! id = Some p) by (apply Hal; set_solver). congruence.
  - intros id. rewrite lookup_insert. case_decide; [done | apply Hno].
  - intros id p. rewrite lookup_insert. case_decide as Heq; [|apply Hb].
    intros [= <-]. subst id. exists t. rewrite (Hno _ Hid). done.
Qed.

Lemma rl_inv_allow rl w cs1 cs2 h id p rl' b :
  bucket_allow p (next_now w) rl = Some (rl', b) →
  rl_inv limitFunc burst (mkRS rl w (cs1 ++ GAllow id p :: cs2) h) →
  rl_inv limitFunc burst (mkRS rl' (tick w) (cs1 ++ cs2) (h ++ [(id, next_now w, b)])).
Proof.
  intros (l & Hl & E)%fmap_Some [[Hlf Hbu] Hi Hn Hfr Hst Hal Hno Hb]; simpl in *.
  destruct (Limiter_Allow (next_now w) l) as [l' b'] eqn:Ea. injection E as -> ->.
  assert (trl_limiters rl !! id = Some p) as Hid by (apply Hal; set_solver).
  rewrite cands_app in Hn, Hfr. simpl in Hn, Hfr.
  split; simpl; try done; rewrite ?cands_app; try done.
  - intros t' p' Hx. rewrite list_lookup_insert_ne; [apply Hst; set_solver |].
    intros ->. apply (Hfr id p' Hid). rewrite <- cands_app. apply elem_of_cands. eauto.
  - intros id' p' Hx. apply Hal. set_solver.
  - intros id' Hid'. rewrite hist_of_snoc, (Hno _ Hid'). simpl.
    rewrite decide_False; [done |]. intros ->. congruence.
  - intros id' p' Hp'. rewrite hist_of_snoc. simpl. case_decide as Heq.
    + subst id'. assert (p' = p) as -> by congruence.
      destruct (Hb _ _ Hid) as (t & Ht & Hobj & Hans). exists t. split; [done |].
      assert (l = bucket_after (rate_NewLimiter (limitFunc t) burst) (times (hist_of id h))) as ->
        by congruence.
      unfold times. rewrite !fmap_app. fold (times (hist_of id h)). simpl.
      rewrite bucket_after_snoc, bucket_answers_snoc, Ea. simpl. split; [|by rewrite Hans].
      apply list_lookup_insert_eq. by eapply lookup_lt_Some.
    + rewrite app_nil_r. destruct (Hb _ _ Hp') as (t & Ht & Hobj & Hans). exists t.
      split_and!; [done | | done]. rewrite list_lookup_insert_ne; [done |].
      intros ->. by eapply Heq, Hi.
Qed.

Lemma rl_step_inv s ev s' : rl_step s ev s' → rl_inv limitFunc burst s → rl_inv limitFunc burst s'.
Proof.
  intros Hstep Hinv. destruct Hstep as [rl w cs h t|rl w cs1 cs2 h t p Hp|rl w cs1 cs2 h t Hp
    |rl w cs1 cs2 h t c|rl w cs1 cs2 h id p rl' b E].
  - eapply rl_inv_phase, Hinv; [by rewrite cands_app, app_nil_r | set_solver | set_solver].
  - eapply rl_inv_phase, Hinv; [by rewrite !cands_app | set_solver |].
    intros id' p' [Hx|[Hx|Hx]%elem_of_cons]%elem_of_app; [left; set_solver | right; by simplify_eq | left; set_solver].
  - by apply rl_inv_miss.
  - by apply rl_inv_store.
  - by eapply rl_inv_allow.
Qed.

Lemma rl_inv_reachable w tr s :
  trace rl_step (mkRS (NewTenantRateLimiter limitFunc burst) w [] []) tr s → rl_inv limitFunc burst s.
Proof.
  intros Htr. eapply (trace_inv rl_step); [exact rl_step_inv | exact Htr |].
  split; simpl; try done; try (intros *; by rewrite ?lookup_empty); try (intros *; set_solver).
  constructor.
Qed.

(** The answers of a tenant are those of one bucket. *)
Lemma rl_inv_answers s id :
  rl_inv limitFunc burst s → hist_of id (rs_hist s) ≠ [] →
  ∃ t, Tenant_ID t = id ∧
    (λ e, e.2) <$> hist_of id (rs_hist s) =
      bucket_answers (rate_NewLimiter (limitFunc t) burst) (times (hist_of id (rs_hist s))).
Proof.
  intros Hinv Hh. destruct (trl_limiters (rs_rl s) !! id) as [p|] eqn:Hp.
  - destruct (ri_bucket _ _ _ Hinv _ _ Hp) as (t & ? & _ & ?). eauto.
  - by destruct Hh; apply (ri_none _ _ _ Hinv).
Qed.

(** (C27) Each tenant has one bucket, and only its own calls drain it.  However
    concurrent calls interleave, also when several of them race on a tenant's first
    use and build their own candidates, the answers a tenant got are, in order, the
    answers of a single bucket, made with the limit [limitFunc] gave for one call of
    that tenant and the common burst, asked once per call at that call's time;
    every call in flight can take its next step. *)
Theorem one_bucket_per_tenant w tr s :
  trace rl_step (mkRS (NewTenantRateLimiter limitFunc burst) w [] []) tr s →
  (∀ id, hist_of id (rs_hist s) ≠ [] →
     ∃ t, Tenant_ID t = id ∧
       (λ e, e.2) <$> hist_of id (rs_hist s) =
         bucket_answers (rate_NewLimiter (limitFunc t) burst) (times (hist_of id (rs_hist s)))) ∧
  (rs_calls s ≠ [] → ∃ ev s', rl_step s ev s' ∧ ev ≠ "call").
Proof.
  intros Htr. pose proof (rl_inv_reachable _ _ _ Htr) as Hinv.
  split; [intros id; by apply rl_inv_answers |]. destruct Hinv as [_ _ _ _ _ Hal _ Hb].
  destruct s as [rl w' [|c cs] h]; [done |]. intros _. simpl in *.
  destruct c as [t|t c|id p].
  - destruct (trl_limiters rl !! Tenant_ID t) as [p|] eqn:Hp; eexists _, _; split.
    + by apply (rl_hit rl w' [] cs h t p).
    + done.
    + by apply (rl_miss rl w' [] cs h t).
    + done.
  - eexists _, _; split; [apply (rl_store rl w' [] cs h t c) | done].
  - assert (trl_limiters rl !! id = Some p) as Hp by (apply Hal; by left).
    destruct (Hb _ _ Hp) as (t & _ & Hobj & _).
    destruct (bucket_allow p (next_now w') rl) as [[rl' b]|] eqn:E.
    + eexists _, _; split; [by apply (rl_allow rl w' [] cs h id p rl' b) | done].
    + unfold bucket_allow in E. rewrite Hobj in E. done.
Qed.

(** [Allow] run without interruption is one of the interleavings. *)
Lemma Allow_is_a_run p t (rl : TRL) w rl' w' b h :
  heap_load (w_heap w) p = Some t →
  TenantRateLimiter_Allow (Some p) (rl, w) = ((rl', w'), Ret b) →
  ∃ tr, trace rl_step (mkRS rl w [] h) tr (mkRS rl' w' [] (h ++ [(Tenant_ID t, next_now w, b)])).
Proof.
  intros Ht. unfold TenantRateLimiter_Allow, TenantRateLimiter_getLimiter, deref, time_Now.
  go_unfold. simpl. rewrite Ht. simpl.
  destruct (trl_limiters rl !! Tenant_ID t) as [q|] eqn:Hq.
  - destruct (bucket_allow q (next_now w) rl) as [[rl1 b1]|] eqn:Eb; [|done].
    intros [= <- <- <-]. eexists.
    eapply trace_cons; [apply (rl_call rl w [] h t) |].
    eapply trace_cons; [by apply (rl_hit rl w [] [] h t q) |].
    eapply trace_cons; [by apply (rl_allow rl w [] []) |]. apply trace_nil.
  - destruct (load_or_store (Tenant_ID t) (length (trl_objs rl)) (build t rl).1) as [rl0 q] eqn:El.
    unfold build in El. simpl in El. rewrite El. simpl.
    destruct (bucket_allow q (next_now w) rl0) as [[rl1 b1]|] eqn:Eb; [|done].
    intros [= <- <- <-]. eexists.
    eapply trace_cons; [apply (rl_call rl w [] h t) |].
    eapply trace_cons; [by apply (rl_miss rl w [] [] h t) |].
    eapply trace_cons; [apply (rl_store _ w [] []) |]. unfold build. simpl. rewrite El. simpl.
    eapply trace_cons; [by apply (rl_allow rl0 w [] []) |]. apply trace_nil.
Qed.

End limiter.

(** A bucket that never refills, for concrete runs. *)
#[global] Instance countdown : RateLib Z Z := {
  rate_NewLimiter limit burst := burst;
  Limiter_Allow now l := if (0 <? l)%Z then ((l - 1)%Z, true) else (l, false)
}.

Definition rl_world : world := mkWorld heap_empty Z.of_nat 0.
Definition acme : Tenant := mkTenant "acme" Active None.

(** Two calls race on the first use: both miss, both build a bucket, one is kept. *)
Lemma racing_calls :
  ∃ tr s, trace rl_step (mkRS (NewTenantRateLimiter (λ _, 10%Z) 1) rl_world [] []) tr s ∧
    rs_hist s = [("acme", 0%Z, true); ("acme", 1%Z, false)].
Proof.
  eexists _, _. split.
  - eapply trace_cons; [apply (rl_call _ _ _ _ acme) |].
    eapply trace_cons; [apply (rl_call _ _ _ _ acme) |]. simpl.
    eapply trace_cons; [by apply (rl_miss _ _ [] [_]) |].
    eapply trace_cons; [by apply (rl_miss _ _ [_] []) |]. simpl.
    eapply trace_cons; [apply (rl_store _ _ [_] []) |]. simpl.
    eapply trace_cons; [apply (rl_store _ _ [] [_]) |]. simpl.
    eapply trace_cons; [by apply (rl_allow _ _ [] [_]) |]. simpl.
    eapply trace_cons; [by apply (rl_allow _ _ [] []) |]. apply trace_nil.
  - reflexivity.
Qed.

Lemma one_bucket_per_tenant_witness :
  ∃ s : rl_sys (Limit := Z) (L := Z), rs_hist s = [("acme", 0%Z, true); ("acme", 1%Z, false)] ∧
    ∃ t : Tenant, Tenant_ID t = "acme" ∧
      [true; false] = bucket_answers (rate_NewLimiter 10%Z 1) [0%Z; 1%Z].
Proof.
  destruct racing_calls as (tr & s & Htr & Hh). exists s. split; [exact Hh |].
  destruct (one_bucket_per_tenant (λ _, 10%Z) 1 rl_world tr s Htr) as [H _].
  rewrite Hh in H. destruct (H "acme") as (t & Ht & Hans); [done |]. by exists t.
Defined.
