(* ===== verification/RateBounds.v ===== *)
(** * The rate a [TenantRateLimiter] enforces

    [one_bucket_per_tenant] reduces the answers a tenant gets to those of one bucket of
    [golang.org/x/time/rate].  With what that package documents of a bucket, the tenant
    gets at most the burst plus the rate times the length of the span. *)
From S2P Require Import Prelude GoStrings GoLib Tenant RateLimit.
From Stdlib Require Import QArith Lqa.
From Stdlib Require Import Sorting.Sorted.
Set Default Goal Selector "!".
Open Scope nat_scope.

(** What [golang.org/x/time/rate] documents: a bucket of size [b], initially full and
    refilled at [r] tokens per second; [Allow] takes a token, and says no when there is
    none.  A [Limit] that is not a positive rate ([Inf], 0) has no [Limit_rate]. *)
Class TokenBucket (Limit L : Type) {HL : RateLib Limit L} := {
  Limit_rate : Limit → option Q;
  Limiter_Limit : L → Limit;
  Limiter_Burst : L → Z;
  Limiter_TokensAt : Z → L → Q;
  New_Limit limit burst : Limiter_Limit (rate_NewLimiter limit burst) = limit;
  New_Burst limit burst : Limiter_Burst (rate_NewLimiter limit burst) = burst;
  Allow_Limit now l : Limiter_Limit (Limiter_Allow now l).1 = Limiter_Limit l;
  Allow_Burst now l q : Limit_rate (Limiter_Limit l) = Some q →
    Limiter_Burst (Limiter_Allow now l).1 = Limiter_Burst l;
  Limit_rate_pos limit q : Limit_rate limit = Some q → (0 < q)%Q;
  TokensAt_size now l : (Limiter_TokensAt now l <= inject_Z (Limiter_Burst l))%Q;
  Allow_needs_token now l q :
    Limit_rate (Limiter_Limit l) = Some q → (Limiter_Allow now l).2 = true →
    (1 <= Limiter_TokensAt now l)%Q;
  Allow_takes_token now now' l q :
    Limit_rate (Limiter_Limit l) = Some q → (now ≤ now')%Z →
    (Limiter_TokensAt now' (Limiter_Allow now l).1 <=
       Limiter_TokensAt now l - (if (Limiter_Allow now l).2 then 1 else 0) +
       q * inject_Z (now' - now) * (1 # 1000000000))%Q
}.

(** How many of the answers at times within [[a, b]] are positive. *)
Fixpoint span_count (a b : Z) (nows : list Z) (answers : list bool) : Z :=
  match nows, answers with
  | now :: nows, ok :: answers =>
      (if (a <=? now)%Z && (now <=? b)%Z && ok then 1 else 0) + span_count a b nows answers
  | _, _ => 0
  end.

Lemma span_count_nonneg a b nows answers : (0 ≤ span_count a b nows answers)%Z.
Proof. revert answers; induction nows as [|n nows IH]; intros [|ok answers]; simpl; [done.. |]. specialize (IH answers). case_match; lia. Qed.

Lemma inject_Z_nonneg z : (0 ≤ z)%Z → (0 <= inject_Z z)%Q.
Proof. intros Hz. change 0%Q with (inject_Z 0). by rewrite <- Zle_Qle. Qed.

Section bucket.
Context {Limit L : Type} {HL : RateLib Limit L} {HB : TokenBucket Limit L}.

Lemma span_count_late a b l nows :
  Forall (λ n, (b < n)%Z) nows → span_count a b nows (bucket_answers l nows) = 0%Z.
Proof.
  revert l; induction nows as [|n nows IH]; intros l; simpl; [done |].
  intros [Hn Hr]%Forall_cons. rewrite IH by done. by rewrite (proj2 (Z.leb_gt n b) Hn), andb_false_r.
Qed.

(** From the first call within the span on, each token given was there or came since. *)
Lemma bucket_from l q a b n nows :
  Limit_rate (Limiter_Limit l) = Some q → StronglySorted Z.le (n :: nows) →
  (0 < span_count a b (n :: nows) (bucket_answers l (n :: nows)))%Z →
  (inject_Z (span_count a b (n :: nows) (bucket_answers l (n :: nows))) <=
     Limiter_TokensAt n l + q * inject_Z (b - n) * (1 # 1000000000))%Q.
Proof.
  revert l n; induction nows as [|n2 nows IH]; intros l n Hq Hs Hpos.
  all: destruct (Z.leb_spec n b) as [Hn|Hn];
    [|rewrite span_count_late in Hpos; [lia |]; apply StronglySorted_inv in Hs as [_ Hf];
      constructor; [done |]; eapply Forall_impl; [exact Hf | simpl; lia]].
  all: pose proof (Allow_needs_token n l q Hq) as Hneed; pose proof (Limit_rate_pos _ _ Hq) as Hqp.
  all: assert (0 <= q * inject_Z (b - n))%Q as Hge by
    (apply Qmult_le_0_compat; [lra | apply inject_Z_nonneg; lia]).
  - simpl in *. destruct (Limiter_Allow n l) as [l' ok]; simpl in *.
    destruct ok; [|by rewrite andb_false_r in Hpos]. specialize (Hneed eq_refl).
    destruct ((a <=? n)%Z && (n <=? b)%Z && true); simpl; [|done]. change (inject_Z (1 + 0)) with 1%Q. lra.
  - pose proof (Allow_takes_token n n2 l q Hq) as Htake.
    apply StronglySorted_inv in Hs as [Hs Hf]. assert (n ≤ n2)%Z as Hn2 by by inversion Hf.
    specialize (Htake Hn2). pose proof (Allow_Limit n l) as Hlim.
    specialize (IH (Limiter_Allow n l).1 n2). rewrite Hlim in IH. specialize (IH Hq Hs).
    change (span_count a b (n :: n2 :: nows) (bucket_answers l (n :: n2 :: nows))) with
      ((if (a <=? n)%Z && (n <=? b)%Z && (Limiter_Allow n l).2 then 1 else 0) +
       span_count a b (n2 :: nows) (bucket_answers (Limiter_Allow n l).1 (n2 :: nows)))%Z in *.
    set (C := span_count a b (n2 :: nows) _) in *. rewrite inject_Z_plus.
    assert (inject_Z (b - n) == inject_Z (b - n2) + inject_Z (n2 - n))%Q as Hsplit.
    { rewrite <- inject_Z_plus. by replace (b - n)%Z with (b - n2 + (n2 - n))%Z by lia. }
    assert (inject_Z (if (a <=? n)%Z && (n <=? b)%Z && (Limiter_Allow n l).2 then 1 else 0) <=
      if (Limiter_Allow n l).2 then 1 else 0)%Q as Hx.
    { destruct (Limiter_Allow n l).2; [|rewrite andb_false_r]; [case_match|]; by vm_compute. }
    destruct (Z.eq_dec C 0) as [HC|HC].
    + rewrite HC in *. destruct (Limiter_Allow n l).2; [|by rewrite andb_false_r in Hpos].
      specialize (Hneed eq_refl). change (inject_Z 0) with 0%Q. lra.
    + pose proof (span_count_nonneg a b (n2 :: nows) (bucket_answers (Limiter_Allow n l).1 (n2 :: nows))).
      specialize (IH ltac:(unfold C in *; lia)). rewrite Hsplit. lra.
Qed.

(** The bound for one bucket. *)
Lemma bucket_rate l q a b nows :
  Limit_rate (Limiter_Limit l) = Some q → StronglySorted Z.le nows →
  (0 ≤ Limiter_Burst l)%Z → (a ≤ b)%Z →
  (inject_Z (span_count a b nows (bucket_answers l nows)) <=
     inject_Z (Limiter_Burst l) + q * inject_Z (b - a) * (1 # 1000000000))%Q.
Proof.
  intros Hq Hs Hb Hab. pose proof (Limit_rate_pos _ _ Hq) as Hqp.
  assert (0 <= inject_Z (Limiter_Burst l))%Q as Hb' by (apply inject_Z_nonneg; lia).
  assert (0 <= q * inject_Z (b - a))%Q as Hge by
    (apply Qmult_le_0_compat; [lra | apply inject_Z_nonneg; lia]).
  revert l Hq Hb Hb'; induction nows as [|n nows IH]; intros l Hq Hb Hb'.
  - simpl. change (inject_Z 0) with 0%Q. lra.
  - destruct (Z.leb_spec a n) as [Ha|Ha].
    + destruct (Z.eq_dec (span_count a b (n :: nows) (bucket_answers l (n :: nows))) 0) as [->|Hne].
      { change (inject_Z 0) with 0%Q. lra. }
      pose proof (span_count_nonneg a b (n :: nows) (bucket_answers l (n :: nows))).
      pose proof (bucket_from l q a b n nows Hq Hs ltac:(lia)) as Hfrom.
      pose proof (TokensAt_size n l) as Hsize.
      assert (q * inject_Z (b - n) <= q * inject_Z (b - a))%Q as Hm.
      { apply Qmult_le_l; [done |]. rewrite <- Zle_Qle. lia. }
      lra.
    + simpl. rewrite (proj2 (Z.leb_gt a n) Ha). simpl. apply StronglySorted_inv in Hs as [Hs _].
      rewrite <- (Allow_Burst n l q Hq). apply IH; [done | by rewrite Allow_Limit | |];
        by rewrite (Allow_Burst n l q Hq).
Qed.

(** ** The clock is read in the order of the answers *)
Definition clock_monotone (c : nat → Z) : Prop := ∀ i j, i ≤ j → (c i ≤ c j)%Z.

Definition times_ok (s : rl_sys (Limit := Limit) (L := L)) : Prop :=
  clock_monotone (w_clock (rs_w s)) ∧ StronglySorted Z.le (times (rs_hist s)) ∧
  ∀ n, n ∈ times (rs_hist s) → (n ≤ next_now (rs_w s))%Z.

Lemma sorted_le_snoc (l : list Z) z :
  StronglySorted Z.le l → (∀ x, x ∈ l → (x ≤ z)%Z) → StronglySorted Z.le (l ++ [z]).
Proof.
  induction 1 as [|x l Hs IH Hx]; intros Hz; simpl; [repeat constructor |].
  constructor; [apply IH; set_solver |]. apply Forall_app. split; [done |].
  constructor; [|constructor]. apply Hz. by left.
Qed.

Lemma rl_step_times s ev s' : rl_step s ev s' → times_ok s → times_ok s'.
Proof.
  intros Hs (Hc & Hso & Hn). destruct Hs; unfold times_ok; simpl in *; try done.
  assert (next_now w ≤ next_now (tick w))%Z as Ht by (apply Hc; simpl; lia).
  unfold times in *. rewrite fmap_app. split_and!; [done | by apply sorted_le_snoc |].
  intros n [Hin|Hin%list_elem_of_singleton]%elem_of_app; [|by subst n].
  etrans; [by apply Hn | exact Ht].
Qed.

Lemma hist_of_sorted id h :
  StronglySorted Z.le (times h) → StronglySorted Z.le (times (hist_of id h)).
Proof.
  unfold times, hist_of. induction h as [|e h IH]; simpl; intros Hs; [constructor |].
  apply StronglySorted_inv in Hs as [Hs Hf]. rewrite filter_cons. case_decide; [|by apply IH].
  simpl. constructor; [by apply IH |]. apply Forall_forall. intros n (e' & -> & [_ He]%list_elem_of_filter)%list_elem_of_fmap.
  rewrite Forall_forall in Hf. apply Hf. by apply (list_elem_of_fmap_2 (λ e, e.1.2) h).
Qed.

(** (C16) A tenant never exceeds its rate.  Given what [golang.org/x/time/rate] documents of
    one bucket, however calls of [Allow] interleave, also when they race on a tenant's
    first use: in any span of time the calls of a tenant that were allowed are at most the
    burst plus the tenant's rate times the length of the span, whatever the other tenants
    do. *)
Theorem tenant_rate_bound limitFunc burst w tr s id q a b :
  clock_monotone (w_clock w) →
  trace rl_step (mkRS (NewTenantRateLimiter limitFunc burst) w [] []) tr s →
  (∀ t, Tenant_ID t = id → Limit_rate (limitFunc t) = Some q) → (0 ≤ burst)%Z → (a ≤ b)%Z →
  (inject_Z (span_count a b (times (hist_of id (rs_hist s))) ((λ e, e.2) <$> hist_of id (rs_hist s))) <=
     inject_Z burst + q * inject_Z (b - a) * (1 # 1000000000))%Q.
Proof.
  intros Hc Htr Hq Hb Hab.
  assert (times_ok s) as (_ & Hs & _).
  { eapply (trace_inv rl_step); [exact rl_step_times | exact Htr |]. split_and!; [done | constructor |].
    by intros ? ?%not_elem_of_nil. }
  destruct (decide (hist_of id (rs_hist s) = [])) as [->|Hne].
  - simpl. pose proof (inject_Z_nonneg burst Hb). change (inject_Z 0) with 0%Q.
    pose proof (Limit_rate_pos _ _ (Hq (mkTenant id Active None) eq_refl)).
    assert (0 <= q * inject_Z (b - a))%Q by (apply Qmult_le_0_compat; [lra | apply inject_Z_nonneg; lia]).
    lra.
  - destruct (rl_inv_answers limitFunc burst s id (rl_inv_reachable _ _ _ _ _ Htr) Hne) as (t & Ht & ->).
    rewrite <- (New_Burst (limitFunc t) burst) at 2. apply bucket_rate; [|by apply hist_of_sorted | |done].
    + by rewrite New_Limit, Hq.
    + by rewrite New_Burst.
Qed.
End bucket.

(** A bucket that refills, for concrete runs: whole tokens per second, and the tokens in
    units of 1e-9 at the last call that took one. *)
Record bucket := mkBucket { bk_limit : Z; bk_burst : Z; bk_tokens : Z; bk_last : Z }.

Definition bucket_tokens (now : Z) (l : bucket) : Z :=
  Z.min (bk_burst l * 1000000000) (bk_tokens l + Z.max 0 (bk_limit l) * Z.max 0 (now - bk_last l)).

#[global] Instance bucket_RateLib : RateLib Z bucket := {
  rate_NewLimiter limit burst := mkBucket limit burst (burst * 1000000000) 0;
  Limiter_Allow now l :=
    if (1000000000 <=? bucket_tokens now l)%Z
    then (mkBucket (bk_limit l) (bk_burst l) (bucket_tokens now l - 1000000000) now, true)
    else (l, false)
}.

#[global, refine] Instance bucket_TokenBucket : TokenBucket Z bucket := {
  Limit_rate limit := if (0 <? limit)%Z then Some (inject_Z limit) else None;
  Limiter_Limit := bk_limit;
  Limiter_Burst := bk_burst;
  Limiter_TokensAt now l := Qmake (bucket_tokens now l) 1000000000
}.
Proof.
  - done.
  - done.
  - intros now l. simpl. by case_match.
  - intros now l q _. simpl. by case_match.
  - intros limit q. destruct (Z.ltb_spec 0 limit) as [Hl|]; [|done]. intros [= <-].
    change 0%Q with (inject_Z 0). by rewrite <- Zlt_Qlt.
  - intros now l. unfold Qle, bucket_tokens. simpl. lia.
  - intros now l q _. simpl. destruct (Z.leb_spec 1000000000 (bucket_tokens now l)); [|done].
    intros _. unfold Qle. simpl. lia.
  - intros now now' l q. destruct (Z.ltb_spec 0 (bk_limit l)) as [Hl|]; [|done]. intros [= <-] Hn. simpl.
    destruct (Z.leb_spec 1000000000 (bucket_tokens now l)) as [Ht|Ht]; simpl;
      unfold Qle; simpl; unfold bucket_tokens in *; simpl in *; nia.
Defined.

Lemma tenant_rate_bound_witness :
  ∃ s : rl_sys (Limit := Z) (L := bucket), rs_hist s = [("acme", 0%Z, true); ("acme", 1%Z, false)] ∧
    (inject_Z (span_count 0 1 (times (hist_of "acme" (rs_hist s))) ((λ e, e.2) <$> hist_of "acme" (rs_hist s))) <=
       1 + 10 * 1 * (1 # 1000000000))%Q.
Proof.
  eexists (mkRS _ _ _ _). split; [reflexivity |].
  eapply (tenant_rate_bound (λ _, 10%Z) 1 rl_world _ _ "acme" (inject_Z 10) 0 1).
  - intros i j Hij. simpl. lia.
  - eapply trace_cons; [apply (rl_call _ _ _ _ acme) |].
    eapply trace_cons; [apply (rl_call _ _ _ _ acme) |]. simpl.
    eapply trace_cons; [by apply (rl_miss _ _ [] [_]) |].
    eapply trace_cons; [by apply (rl_miss _ _ [_] []) |]. simpl.
    eapply trace_cons; [apply (rl_store _ _ [_] []) |]. simpl.
    eapply trace_cons; [apply (rl_store _ _ [] [_]) |]. simpl.
    eapply trace_cons; [by apply (rl_allow _ _ [] [_]) |]. simpl.
    eapply trace_cons; [by apply (rl_allow _ _ [] []) |]. apply trace_nil.
  - intros t _. reflexivity.
  - lia.
  - lia.
Defined.
