(* ===== verification/RedisRateLimit.v ===== *)
(** * Package ratelimit/redis

    The fixed-window counter shared through Redis.  The Lua script is the program's
    own; the two commands it calls are a parameter with their documented behaviour.
    Redis runs a script atomically, so the calls of all instances are a sequence. *)
From S2P Require Import Prelude GoStrings GoLib Tenant.
Set Default Goal Selector "!".

Definition FailurePolicy : Type := Z.
Definition FailOpen : FailurePolicy := 0%Z.
Definition FailClosed : FailurePolicy := 1%Z.

#[global] Instance FailurePolicy_eq_dec : EqDecision FailurePolicy := Z.eq_dec.

Definition FailurePolicy_String (p : FailurePolicy) : string :=
  if decide (p = FailOpen) then "fail-open"
  else if decide (p = FailClosed) then "fail-closed"
  else "unknown".

(** [LimitFunc] of this package: at most [limit] requests per [window]. *)
Definition RedisLimitFunc : Type := Tenant → Z * Z.

Record RedisRateLimiter := mkRRL {
  rrl_limitFunc : RedisLimitFunc;
  rrl_failurePolicy : FailurePolicy
}.

Definition RedisOption : Type := RedisRateLimiter → RedisRateLimiter.

Definition WithFailurePolicy (p : FailurePolicy) : RedisOption := λ rl, mkRRL (rrl_limitFunc rl) p.

Definition redisratelimit_New (limitFunc : RedisLimitFunc) (opts : list RedisOption) :
    RedisRateLimiter :=
  foldl (λ rl opt, opt rl) (mkRRL limitFunc FailOpen) opts.

(** ** Time *)

(** Nanoseconds from the zero [time.Time] to the Unix epoch. *)
Definition zero_time : Z := 62135596800 * 1000000000.

(** [t.Truncate(d)] on Unix nanoseconds: down to a multiple of [d] since the zero
    time; [t] itself when [d <= 0]. *)
Definition time_Truncate (t d : Z) : Z :=
  if (d <=? 0)%Z then t else t - (t + zero_time) mod d.

(** [d.Milliseconds()]. *)
Definition Duration_Milliseconds (d : Z) : Z := d ÷ 1000000.

(** ** Redis

    The server's data: a key's value with its deadline in milliseconds, absent once
    the deadline is reached.  [INCR] of an absent key starts at 0 and sets no
    deadline; [PEXPIRE] with a non-positive time deletes the key. *)
Definition redis_live (now : Z) (e : option (Z * option Z)) : option (Z * option Z) :=
  match e with
  | Some (v, Some dl) => if (now <? dl)%Z then Some (v, Some dl) else None
  | _ => e
  end.

Class RedisServer (R : Type) := {
  redis_db : R → gmap string (Z * option Z);
  redis_INCR : Z → string → R → R * Z;
  redis_PEXPIRE : Z → string → Z → R → R
}.

Class RedisLaws (R : Type) {HR : RedisServer R} := {
  redis_INCR_spec now k r :
    let '(v, dl) := default (0%Z, None) (redis_live now (redis_db r !! k)) in
    (v < max_int64)%Z →
    (redis_INCR now k r).2 = (v + 1)%Z ∧
    redis_db (redis_INCR now k r).1 = <[k := (v + 1, dl)%Z]> (redis_db r);
  redis_PEXPIRE_spec now k ms r v dl :
    redis_live now (redis_db r !! k) = Some (v, dl) →
    redis_db (redis_PEXPIRE now k ms r) =
      if (ms <=? 0)%Z then delete k (redis_db r) else <[k := (v, Some (now + ms)%Z)]> (redis_db r)
}.

(** What came back: the script's result, or an error after the server did or did
    not run the script. *)
Inductive reply : Type := Replied | LostAfter | LostBefore.

#[global] Instance reply_eq_dec : EqDecision reply.
Proof. solve_decision. Defined.

(** [defaultCommandTimeout], the timeout of the context the command runs with. *)
Definition defaultCommandTimeout : Z := 200000000.

(** The command on the network: whether the server runs the script, and after how long
    its result is back, if it comes back. *)
Record command := mkCommand { cm_runs : bool; cm_back : option Z }.

(** What [Run] returns, and for how long [Allow] waits for it. *)
Definition command_reply (c : command) : reply :=
  match cm_back c with
  | Some d =>
      if cm_runs c then if (d <=? defaultCommandTimeout)%Z then Replied else LostAfter else LostBefore
  | None => if cm_runs c then LostAfter else LostBefore
  end.

Definition command_wait (c : command) : Z :=
  match cm_back c with Some d => Z.min d defaultCommandTimeout | None => defaultCommandTimeout end.

Section redis.
Context {R : Type} {HR : RedisServer R}.

(** [allowScript], at the server's time [srv]. *)
Definition allowScript (srv : Z) (key : string) (ms limit : Z) (r : R) : R * Z :=
  let '(r, current) := redis_INCR srv key r in
  let r := if (current =? 1)%Z then redis_PEXPIRE srv key ms r else r in
  (r, if (limit <? current)%Z then 0%Z else 1%Z).

(** [fmt.Sprintf("ratelimit:%s:%d", t.ID, windowStart.UnixNano())]. *)
Definition window_key (id : TenantID) (windowStart : Z) : string :=
  "ratelimit:" +:+ id +:+ ":" +:+ fmt_d windowStart.

(** [Allow] when [time.Now()] is [now]. *)
Definition RedisRateLimiter_Allow (rl : RedisRateLimiter) (t : Tenant) (now srv : Z) (rep : reply)
    (r : R) : R * bool :=
  let '(limit, window) := rrl_limitFunc rl t in
  let windowStart := time_Truncate now window in
  let key := window_key (Tenant_ID t) windowStart in
  let run := allowScript srv key (Duration_Milliseconds window) limit r in
  match rep with
  | Replied => (run.1, bool_decide (run.2 = 1%Z))
  | LostAfter => (run.1, bool_decide (rrl_failurePolicy rl = FailOpen))
  | LostBefore => (r, bool_decide (rrl_failurePolicy rl = FailOpen))
  end.

(** A Redis that hangs cannot hold a request for longer than the timeout: the failure
    policy answers then. *)
Lemma Allow_waits_bounded rl t now srv c (r : R) :
  (command_wait c ≤ defaultCommandTimeout)%Z ∧
  ((∀ d, cm_back c = Some d → (defaultCommandTimeout < d)%Z) →
   (RedisRateLimiter_Allow rl t now srv (command_reply c) r).2 = bool_decide (rrl_failurePolicy rl = FailOpen)).
Proof.
  unfold command_wait, command_reply, RedisRateLimiter_Allow. split; [destruct (cm_back c); lia |].
  intros Hlate. destruct (rrl_limitFunc rl t) as [limit window]. destruct (cm_back c) as [d|]; [|by destruct (cm_runs c)].
  specialize (Hlate d eq_refl). rewrite (proj2 (Z.leb_gt _ _)) by lia. by destruct (cm_runs c).
Qed.

(** ** Sequences of calls, from any number of instances *)
Record rcall := mkCall { rc_t : Tenant; rc_now : Z; rc_srv : Z; rc_reply : reply }.

Fixpoint run_calls (rl : RedisRateLimiter) (calls : list rcall) (r : R) : R * list bool :=
  match calls with
  | [] => (r, [])
  | c :: calls =>
      let '(r, b) := RedisRateLimiter_Allow rl (rc_t c) (rc_now c) (rc_srv c) (rc_reply c) r in
      let '(r, bs) := run_calls rl calls r in
      (r, b :: bs)
  end.

End redis.

(** ** The script in terms of one entry *)
Section entry.
Context {R : Type} {HR : RedisServer R} {HRL : RedisLaws R}.

(** The counter a call finds, and the entry the script leaves. *)
Definition live_count (srv : Z) (e : option (Z * option Z)) : Z * option Z :=
  default (0%Z, None) (redis_live srv e).

Definition script_entry (srv ms : Z) (e : option (Z * option Z)) : option (Z * option Z) :=
  let '(v, dl) := live_count srv e in
  if (v + 1 =? 1)%Z then (if (ms <=? 0)%Z then None else Some (1, Some (srv + ms))%Z)
  else Some ((v + 1)%Z, dl).

Lemma allowScript_entry srv key ms limit (r : R) :
  ((live_count srv (redis_db r !! key)).1 < max_int64)%Z →
  let res := allowScript srv key ms limit r in
  (∀ k, redis_db res.1 !! k =
     if decide (k = key) then script_entry srv ms (redis_db r !! key) else redis_db r !! k) ∧
  res.2 = (if limit <? (live_count srv (redis_db r !! key)).1 + 1 then 0 else 1)%Z.
Proof using HRL.
  intros Hv. unfold allowScript, script_entry. pose proof (redis_INCR_spec srv key r) as Hincr.
  unfold live_count in *. destruct (default (0%Z, None) (redis_live srv (redis_db r !! key))) as [v dl] eqn:Hlive.
  destruct (redis_INCR srv key r) as [r1 cur]. simpl in *. destruct (Hincr Hv) as [-> Hdb].
  destruct (Z.eqb_spec (v + 1) 1) as [Hone|Hone]; simpl; (split; [|done]).
  - intros k. rewrite (redis_PEXPIRE_spec srv key ms r1 1 dl).
    + rewrite Hdb. destruct (Z.leb_spec ms 0).
      * rewrite lookup_delete, lookup_insert. repeat case_decide; congruence.
      * rewrite !lookup_insert. repeat case_decide; congruence.
    + rewrite Hdb, lookup_insert_eq, Hone. destruct (redis_db r !! key) as [[v' [d|]]|]; simpl in *;
        repeat case_match; simplify_eq/=; try done; congruence.
  - intros k. rewrite Hdb, lookup_insert. repeat case_decide; congruence.
Qed.

End entry.

Section quota.
Context (rl : RedisRateLimiter) (window : TenantID → Z).

(** The window a call falls in. *)
Definition window_of (c : rcall) : Z := time_Truncate (rc_now c) (window (Tenant_ID (rc_t c))).

(** The script ran for this tenant and window. *)
Definition counted (id : TenantID) (ws : Z) (c : rcall) : bool :=
  bool_decide (Tenant_ID (rc_t c) = id ∧ window_of c = ws ∧ rc_reply c ≠ LostBefore).

Definition count_in (id : TenantID) (ws : Z) (calls : list rcall) : Z :=
  Z.of_nat (length (filter (λ c, counted id ws c = true) calls)).

(** The answer the contract asks for after the calls [before]. *)
Definition quota_answer (before : list rcall) (c : rcall) : bool :=
  match rc_reply c with
  | Replied => bool_decide (count_in (Tenant_ID (rc_t c)) (window_of c) before <
                            (rrl_limitFunc rl (rc_t c)).1)%Z
  | _ => bool_decide (rrl_failurePolicy rl = FailOpen)
  end.

Fixpoint quota_answers (before calls : list rcall) : list bool :=
  match calls with
  | [] => []
  | c :: calls => quota_answer before c :: quota_answers (before ++ [c]) calls
  end.

(** How long a counter lives, in milliseconds. *)
Definition lifetime (id : TenantID) : Z := Duration_Milliseconds (window id).

(** The window of a tenant does not change, and is at least a millisecond. *)
Definition windows_ok : Prop :=
  (∀ t, (rrl_limitFunc rl t).2 = window (Tenant_ID t)) ∧ (∀ id, 0 < lifetime id)%Z.

(** The scripts of the calls that fall in one window of a tenant run within one lifetime of
    the server's clock, and the key's number fits.  Neither the instances' clocks nor the
    server's need to agree, and the calls may take their time on the network. *)
Definition calls_timely (calls : list rcall) : Prop :=
  (∀ c, c ∈ calls → int64_range (window_of c)) ∧
  ∀ c c', c ∈ calls → c' ∈ calls → Tenant_ID (rc_t c) = Tenant_ID (rc_t c') →
    window_of c = window_of c' → (rc_srv c' < rc_srv c + lifetime (Tenant_ID (rc_t c)))%Z.

Context {R : Type} {HR : RedisServer R} {HRL : RedisLaws R}.

(** The counter of every tenant and window: absent before the first call, and then
    the number of calls, kept for a lifetime from a call of this window on. *)
Definition counters_ok (before : list rcall) (r : R) : Prop :=
  ∀ id ws, int64_range ws →
    if decide (count_in id ws before = 0%Z) then redis_db r !! window_key id ws = None
    else ∃ c, c ∈ before ∧ Tenant_ID (rc_t c) = id ∧ window_of c = ws ∧
      redis_db r !! window_key id ws = Some (count_in id ws before, Some (rc_srv c + lifetime id)%Z).

(** ** Lemmas *)
Lemma window_key_inj id ws id' ws' :
  int64_range ws → int64_range ws' → window_key id ws = window_key id' ws' → id = id' ∧ ws = ws'.
Proof.
  intros Hws Hws' E. unfold window_key in E. apply str_app_inv_head in E.
  change (":" +:+ fmt_d ws) with (String ":" (fmt_d ws)) in E.
  change (":" +:+ fmt_d ws') with (String ":" (fmt_d ws')) in E.
  apply str_last_sep_inj in E as [-> E]; [|by apply fmt_d_no_colon..].
  split; [done |]. by apply fmt_d_inj.
Qed.

Lemma count_in_snoc id ws before c :
  count_in id ws (before ++ [c]) = (count_in id ws before + if counted id ws c then 1 else 0)%Z.
Proof.
  unfold count_in. rewrite filter_app, length_app, Nat2Z.inj_add. f_equal.
  rewrite filter_cons, filter_nil. by destruct (counted id ws c).
Qed.

Lemma count_in_bound id ws before : (0 ≤ count_in id ws before ≤ Z.of_nat (length before))%Z.
Proof. unfold count_in. pose proof (length_filter (λ c, counted id ws c = true) before). lia. Qed.

(** One run of the script counts one and keeps the deadline. *)
Lemma allowScript_counts before c limit r :
  windows_ok → calls_timely (before ++ [c]) → rc_reply c ≠ LostBefore →
  counters_ok before r → (Z.of_nat (length before) < max_int64)%Z →
  let id := Tenant_ID (rc_t c) in
  let res := allowScript (rc_srv c) (window_key id (window_of c)) (lifetime id) limit r in
  (res.2 = 1%Z ↔ (count_in id (window_of c) before < limit)%Z) ∧ counters_ok (before ++ [c]) res.1.
Proof.
  intros [_ Hlife] [Hws Htime] Hrep Hcnt Hlen id res. specialize (Hlife id).
  assert (int64_range (window_of c)) as Hwc by (apply Hws; set_solver).
  pose proof (count_in_bound id (window_of c) before) as Hn.
  pose proof (Hcnt id (window_of c) Hwc) as Hown.
  assert (∃ dl, live_count (rc_srv c) (redis_db r !! window_key id (window_of c)) =
      (count_in id (window_of c) before, dl) ∧
    ∃ c1, c1 ∈ before ++ [c] ∧ Tenant_ID (rc_t c1) = id ∧ window_of c1 = window_of c ∧
      script_entry (rc_srv c) (lifetime id) (redis_db r !! window_key id (window_of c)) =
        Some ((count_in id (window_of c) before + 1)%Z, Some (rc_srv c1 + lifetime id)%Z))
    as (dl & Hlive & c1 & Hc1 & Hid1 & Hw1 & Hent).
  { unfold script_entry, live_count. case_decide as Hz.
    - rewrite Hown. exists None. simpl. rewrite Hz. split; [done |]. exists c. split_and!; [set_solver | done | done |].
      by rewrite (proj2 (Z.leb_gt _ _)).
    - destruct Hown as (c1 & Hc1 & Hid1 & Hw1 & ->). simpl.
      assert (rc_srv c < rc_srv c1 + lifetime id)%Z as Hlt.
      { rewrite <- Hid1. apply Htime; [set_solver | set_solver | done | done]. }
      rewrite (proj2 (Z.ltb_lt _ _) Hlt). simpl. eexists. split; [done |]. exists c1.
      rewrite (proj2 (Z.eqb_neq _ _)) by lia. split_and!; [set_solver | done | done | done]. }
  destruct (allowScript_entry (rc_srv c) (window_key id (window_of c)) (lifetime id) limit r) as [Hdb Hres].
  { rewrite Hlive. simpl. lia. }
  fold res in Hdb, Hres. rewrite Hlive in Hres. simpl in Hres. split.
  { rewrite Hres. destruct (Z.ltb_spec limit (count_in id (window_of c) before + 1)); split; (done || lia). }
  intros id' ws' Hws'. rewrite count_in_snoc, Hdb. unfold counted. case_bool_decide as Hc.
  - destruct Hc as (<- & <- & _). fold id. rewrite decide_False by lia. exists c1.
    rewrite decide_True by done. done.
  - rewrite Z.add_0_r. destruct (decide (window_key id' ws' = window_key id (window_of c))) as [E|_].
    + exfalso. apply window_key_inj in E as [? ?]; [|done..]. naive_solver.
    + specialize (Hcnt id' ws' Hws'). destruct (decide (count_in id' ws' before = 0%Z)); [done |]. destruct Hcnt as (c2 & ? & ? & ? & ?).
      exists c2. split_and!; [set_solver | done..].
Qed.

Lemma counters_skip before c r :
  rc_reply c = LostBefore → counters_ok before r → counters_ok (before ++ [c]) r.
Proof.
  intros Hrep Hcnt id ws Hin. specialize (Hcnt id ws Hin). rewrite count_in_snoc.
  unfold counted. rewrite bool_decide_false by naive_solver. rewrite Z.add_0_r.
  destruct (decide (count_in id ws before = 0%Z)); [done |].
  destruct Hcnt as (c2 & ? & ? & ? & ?). exists c2. split_and!; [set_solver | done..].
Qed.

Lemma Allow_step before c r :
  windows_ok → calls_timely (before ++ [c]) → counters_ok before r → (Z.of_nat (length before) < max_int64)%Z →
  let res := RedisRateLimiter_Allow rl (rc_t c) (rc_now c) (rc_srv c) (rc_reply c) r in
  res.2 = quota_answer before c ∧ counters_ok (before ++ [c]) res.1.
Proof.
  intros Hwin Hc Hcnt Hlen. unfold RedisRateLimiter_Allow, quota_answer.
  destruct (rrl_limitFunc rl (rc_t c)) as [limit win] eqn:Hlf.
  assert (win = window (Tenant_ID (rc_t c))) as -> by (rewrite <- (proj1 Hwin), Hlf; done).
  fold (window_of c). fold (lifetime (Tenant_ID (rc_t c))).
  destruct (rc_reply c) eqn:Hrep; simpl.
  - destruct (allowScript_counts before c limit r Hwin Hc ltac:(by rewrite Hrep) Hcnt Hlen) as [Hres Hcnt'].
    split; [by apply bool_decide_ext | done].
  - split; [done |]. by apply allowScript_counts; [..|rewrite Hrep| |].
  - split; [done |]. by apply counters_skip.
Qed.

Lemma timely_app calls1 calls2 : calls_timely (calls1 ++ calls2) → calls_timely calls1.
Proof. intros [H1 H2]. split; intros; [apply H1 | apply H2]; set_solver. Qed.

Lemma run_calls_quota before calls r :
  windows_ok → calls_timely (before ++ calls) → counters_ok before r →
  (Z.of_nat (length before + length calls) ≤ max_int64)%Z →
  (run_calls rl calls r).2 = quota_answers before calls.
Proof.
  intros Hwin. revert before r; induction calls as [|c calls IH]; intros before r Hok Hcnt Hlen; [done |].
  simpl in *. rewrite cons_middle, app_assoc in Hok.
  destruct (Allow_step before c r Hwin) as [Hb Hcnt']; [by eapply timely_app | done | lia |].
  destruct (RedisRateLimiter_Allow _ _ _ _ _ r) as [r1 b]. simpl in Hb, Hcnt'.
  specialize (IH (before ++ [c]) r1 Hok Hcnt').
  destruct (run_calls rl calls r1) as [r2 bs]. simpl in *. f_equal; [done |].
  apply IH. rewrite length_app. simpl. lia.
Qed.

Lemma counters_empty r : (∀ id ws, redis_db r !! window_key id ws = None) → counters_ok [] r.
Proof. intros Hempty id ws _. rewrite decide_True by done. apply Hempty. Qed.

(** (C14) The shared quota is exact.  For windows of at least a millisecond that do not
    change, over any sequence of calls from any number of instances and tenants in which
    the scripts of the calls that fall in one window of a tenant run on the server within
    one lifetime of the counter (the window in whole milliseconds): a call that reaches
    Redis is allowed exactly when fewer than [limit] calls of that tenant ran the script
    before it in the same window, whatever other tenants do and whatever their ids contain;
    a call whose reply is lost gets the failure policy's answer.  No clock has to agree with
    another one and the network may be slow, as long as calls of one window are not a
    lifetime apart when they arrive. *)
Theorem redis_quota_exact calls r :
  windows_ok → calls_timely calls → (Z.of_nat (length calls) ≤ max_int64)%Z →
  (∀ id ws, redis_db r !! window_key id ws = None) →
  (run_calls rl calls r).2 = quota_answers [] calls.
Proof. intros Hwin Hok Hlen Hempty. by apply run_calls_quota; [| |apply counters_empty|]. Qed.

End quota.

(** Instances whose clocks agree with the server's, windows of whole milliseconds and a
    network that takes no time are in time. *)
Lemma synchronised_timely (window : TenantID → Z) calls :
  (∀ id, ∃ k, (0 < k)%Z ∧ window id = (k * 1000000)%Z) →
  (∀ c, c ∈ calls → rc_srv c = (rc_now c / 1000000)%Z ∧ int64_range (window_of window c)) →
  calls_timely window calls.
Proof.
  intros Hms Hc. split; [intros c Hin; by apply Hc |]. intros c c' Hin Hin' Hid Hw.
  destruct (Hms (Tenant_ID (rc_t c))) as (k & Hk & Hwin). destruct (Hc c Hin) as [-> _]. destruct (Hc c' Hin') as [-> _].
  unfold lifetime, Duration_Milliseconds. rewrite Hwin, Z.quot_mul by done.
  unfold window_of, time_Truncate in Hw. rewrite <- Hid, Hwin in Hw.
  rewrite (proj2 (Z.leb_gt _ _)) in Hw by lia.
  pose proof (Z.mod_pos_bound (rc_now c + zero_time) (k * 1000000) ltac:(lia)).
  pose proof (Z.mod_pos_bound (rc_now c' + zero_time) (k * 1000000) ltac:(lia)).
  pose proof (Z_div_mod_eq_full (rc_now c + zero_time) (k * 1000000)).
  set (q := ((rc_now c + zero_time) / (k * 1000000))%Z) in *.
  assert (rc_now c' < (k * q + k - 62135596800 * 1000) * 1000000)%Z by (unfold zero_time in *; lia).
  assert ((k * q - 62135596800 * 1000) * 1000000 ≤ rc_now c)%Z by (unfold zero_time in *; lia).
  assert (rc_now c' / 1000000 < k * q + k - 62135596800 * 1000)%Z by (apply Z.div_lt_upper_bound; lia).
  assert (k * q - 62135596800 * 1000 ≤ rc_now c / 1000000)%Z by (apply Z.div_le_lower_bound; lia).
  lia.
Qed.

(** ** Windows below a millisecond *)
Section submillisecond.
Context {R : Type} {HR : RedisServer R} {HRL : RedisLaws R}.

(** A window shorter than a millisecond disables the limit: its time to live is
    truncated to 0, [PEXPIRE] deletes the counter it has just created, every call is
    the first of its window, and every call that reaches Redis is allowed, however
    small the limit and however many calls fall in one window. *)
Theorem submillisecond_window_never_limits rl calls (r : R) :
  (∀ t, 1 ≤ (rrl_limitFunc rl t).1)%Z → (∀ t, 0 < (rrl_limitFunc rl t).2 < 1000000)%Z →
  (∀ c, c ∈ calls → rc_reply c = Replied) →
  (∀ id ws, redis_db r !! window_key id ws = None) →
  (run_calls rl calls r).2 = replicate (length calls) true.
Proof.
  intros Hlim Hwin Hrep Hempty. revert r Hempty.
  induction calls as [|c calls IH]; intros r Hempty; [done |]. simpl.
  unfold RedisRateLimiter_Allow. rewrite Hrep by by left.
  specialize (Hlim (rc_t c)). specialize (Hwin (rc_t c)).
  destruct (rrl_limitFunc rl (rc_t c)) as [limit win]. simpl in *.
  assert (Duration_Milliseconds win = 0%Z) as -> by (apply Z.quot_small; lia).
  set (key := window_key _ _). unfold allowScript.
  pose proof (redis_INCR_spec (rc_srv c) key r) as Hincr. unfold key in Hincr.
  rewrite Hempty in Hincr. fold key in Hincr. simpl in Hincr.
  destruct Hincr as [Hcur Hdb]; [unfold max_int64; lia |].
  destruct (redis_INCR (rc_srv c) key r) as [r1 current]. simpl in *. subst current. simpl.
  rewrite (proj2 (Z.ltb_ge _ _)) by lia. rewrite bool_decide_true by done.
  specialize (IH ltac:(intros c' Hc'; apply Hrep; by right) (redis_PEXPIRE (rc_srv c) key 0 r1)).
  destruct (run_calls rl calls (redis_PEXPIRE (rc_srv c) key 0 r1)) as [r2 bs]. simpl in *.
  rewrite IH; [done |]. intros id ws.
  rewrite (redis_PEXPIRE_spec _ _ _ _ 1 None) by (by rewrite Hdb, lookup_insert_eq). simpl.
  rewrite Hdb, lookup_delete, lookup_insert. repeat case_decide; done.
Qed.

End submillisecond.

(** A server that is its data, for concrete runs. *)
Abbreviation redisMap := (gmap string (Z * option Z)).

#[global] Instance redisMap_Server : RedisServer redisMap := {
  redis_db r := r;
  redis_INCR now k r :=
    let '(v, dl) := default (0%Z, None) (redis_live now (r !! k)) in
    (<[k := (v + 1, dl)%Z]> r, (v + 1)%Z);
  redis_PEXPIRE now k ms r :=
    match redis_live now (r !! k) with
    | Some (v, _) => if (ms <=? 0)%Z then delete k r else <[k := (v, Some (now + ms)%Z)]> r
    | None => r
    end
}.

#[global] Instance redisMap_Laws : RedisLaws redisMap.
Proof.
  split; simpl.
  - intros now k r. by destruct (default _ _) as [v dl].
  - by intros now k ms r v dl ->.
Qed.

(** Two requests per second for everyone. *)
Definition two_per_second : RedisRateLimiter := redisratelimit_New (λ _, (2, 1000000000)%Z) [].
Definition call_at (id : TenantID) (now : Z) (rep : reply) : rcall :=
  mkCall (mkTenant id Active None) now (now / 1000000) rep.

(** The server's clock is three seconds ahead, and calls take some milliseconds to reach
    it. *)
Definition late_call (id : TenantID) (now delay : Z) (rep : reply) : rcall :=
  mkCall (mkTenant id Active None) now (now / 1000000 + 3000 + delay) rep.
Definition demo_calls : list rcall :=
  [late_call "acme" 5000000 7 Replied; late_call "globex" 6000000 0 Replied;
   late_call "acme" 7000000 90 LostAfter; late_call "acme" 8000000 20 Replied;
   late_call "acme" 1200000000 3 Replied].

Lemma redis_quota_exact_witness :
  (run_calls two_per_second demo_calls (∅ : redisMap)).2 = [true; true; true; false; true].
Proof.
  rewrite (redis_quota_exact two_per_second (λ _, 1000000000%Z) demo_calls).
  - reflexivity.
  - by split.
  - split.
    + intros c Hc. unfold demo_calls in Hc.
      repeat (apply elem_of_cons in Hc as [->|Hc]); [..|by apply not_elem_of_nil in Hc].
      all: unfold int64_range; vm_compute; by split.
    + intros c c' Hc Hc'. unfold demo_calls in Hc, Hc'.
      repeat (apply elem_of_cons in Hc as [->|Hc]); [..|by apply not_elem_of_nil in Hc].
      all: repeat (apply elem_of_cons in Hc' as [->|Hc']); [..|by apply not_elem_of_nil in Hc'].
      all: intros Hid Hw; first [discriminate Hid | vm_compute in Hw; discriminate Hw | by vm_compute].
  - by vm_compute.
  - intros id ws. exact (lookup_empty (M := gmap string) (window_key id ws)).
Defined.

Lemma submillisecond_window_never_limits_witness :
  (run_calls (redisratelimit_New (λ _, (1, 500000)%Z) [])
     [call_at "acme" 1 Replied; call_at "acme" 2 Replied; call_at "acme" 3 Replied]
     (∅ : redisMap)).2 = [true; true; true].
Proof.
  apply (submillisecond_window_never_limits (redisratelimit_New (λ _, (1, 500000)%Z) [])
    [call_at "acme" 1 Replied; call_at "acme" 2 Replied; call_at "acme" 3 Replied]).
  - intros t. simpl. lia.
  - intros t. simpl. lia.
  - intros c Hc. repeat (apply elem_of_cons in Hc as [->|Hc]); [done.. |].
    by apply not_elem_of_nil in Hc.
  - intros id ws. exact (lookup_empty (M := gmap string) (window_key id ws)).
Defined.
