(* ===== verification/RateLimiters.v ===== *)
(** * The interface [ratelimit.RateLimiter]

    Two implementations are behind one method: [TenantRateLimiter], local to a process,
    and [RedisRateLimiter], shared through Redis.  What a caller may rely on whichever it
    has is that tenants are isolated: the class [TenantIsolation].  From it alone follows
    that the answers a tenant gets are those it would get if no other tenant existed, for
    every sequence of calls; both implementations are instances. *)
From S2P Require Import Prelude GoStrings GoLib Tenant RateLimit RedisRateLimit.
Set Default Goal Selector "!".

(** [Allow], with the state [S] it works on and what [I] a call takes from outside: the
    clock, and for Redis the server's clock and the fate of the command. *)
Class RateLimiter (S I : Type) := { RateLimiter_Allow : Tenant → I → S → S * bool }.

(** [iso_same id s s']: what the limiter knows of tenant [id] is the same.  [iso_valid] is
    what a call needs of the tenant's state. *)
Class TenantIsolation (S I : Type) {HR : RateLimiter S I} := {
  iso_inv : S → Prop;
  iso_same : TenantID → S → S → Prop;
  iso_valid : Tenant → I → S → Prop;
  iso_equiv id : Equivalence (iso_same id);
  iso_step t i s : iso_inv s → iso_valid t i s → iso_inv (RateLimiter_Allow t i s).1;
  iso_other t i s id : iso_inv s → iso_valid t i s → Tenant_ID t ≠ id →
    iso_same id s (RateLimiter_Allow t i s).1;
  iso_own t i s s' : iso_inv s → iso_inv s' → iso_valid t i s → iso_same (Tenant_ID t) s s' →
    iso_valid t i s' ∧ (RateLimiter_Allow t i s).2 = (RateLimiter_Allow t i s').2 ∧
    iso_same (Tenant_ID t) (RateLimiter_Allow t i s).1 (RateLimiter_Allow t i s').1
}.
#[global] Existing Instance iso_equiv.

(** ** What follows from the interface *)
Section client.
Context {S I : Type} {HR : RateLimiter S I}.

Fixpoint allow_all (calls : list (Tenant * I)) (s : S) : list bool :=
  match calls with
  | [] => []
  | (t, i) :: calls => (RateLimiter_Allow t i s).2 :: allow_all calls (RateLimiter_Allow t i s).1
  end.

(** The calls of one tenant, and the answers to them. *)
Definition calls_of (id : TenantID) (calls : list (Tenant * I)) : list (Tenant * I) :=
  filter (λ c, Tenant_ID c.1 = id) calls.

Fixpoint answers_of (id : TenantID) (calls : list (Tenant * I)) (answers : list bool) : list bool :=
  match calls, answers with
  | (t, _) :: calls, b :: answers =>
      if decide (Tenant_ID t = id) then b :: answers_of id calls answers else answers_of id calls answers
  | _, _ => []
  end.

Context {HI : TenantIsolation S I}.

(** Every call is valid when it is made. *)
Fixpoint calls_valid (calls : list (Tenant * I)) (s : S) : Prop :=
  match calls with
  | [] => True
  | (t, i) :: calls => iso_valid t i s ∧ calls_valid calls (RateLimiter_Allow t i s).1
  end.

Lemma isolated id calls s s' :
  iso_inv s → iso_inv s' → iso_same id s s' → calls_valid calls s →
  answers_of id calls (allow_all calls s) = allow_all (calls_of id calls) s'.
Proof.
  revert s s'; induction calls as [|[t i] calls IH]; intros s s' Hs Hs' Hid; [done |].
  intros [Hv Hvs]. unfold calls_of. simpl allow_all. simpl answers_of. rewrite filter_cons. simpl fst.
  destruct (decide (Tenant_ID t = id)) as [<-|Hne].
  - destruct (iso_own t i s s' Hs Hs' Hv Hid) as (Hv' & Hb & Hsame). simpl. rewrite <- Hb. f_equal.
    apply IH; [by apply iso_step | by apply iso_step | done | done].
  - apply IH; [by apply iso_step | done | | done].
    transitivity s; [|done]. symmetry. by apply iso_other.
Qed.

End client.

(** ** [TenantRateLimiter] *)
Section local.
Context {Limit L : Type} {HL : RateLib Limit L}.

(** [Allow] at time [now]; the bucket a call gets is always there. *)
#[global] Instance local_RateLimiter : RateLimiter (TenantRateLimiter Limit L) Z := {
  RateLimiter_Allow t now rl :=
    let '(rl, p) := TenantRateLimiter_getLimiter t rl in
    default (rl, false) (bucket_allow p now rl)
}.

(** Every tenant has a bucket of its own. *)
Definition local_inv (rl : TenantRateLimiter Limit L) : Prop :=
  (∀ id id' p, trl_limiters rl !! id = Some p → trl_limiters rl !! id' = Some p → id = id') ∧
  (∀ id p, trl_limiters rl !! id = Some p → is_Some (trl_objs rl !! p)).

Definition bucket_of (id : TenantID) (rl : TenantRateLimiter Limit L) : option L :=
  p ← trl_limiters rl !! id; trl_objs rl !! p.

Definition local_same (id : TenantID) (rl rl' : TenantRateLimiter Limit L) : Prop :=
  trl_limitFunc rl = trl_limitFunc rl' ∧ trl_burst rl = trl_burst rl' ∧ bucket_of id rl = bucket_of id rl'.

Lemma local_inv_new limitFunc burst : local_inv (NewTenantRateLimiter limitFunc burst).
Proof. split; intros *; simpl; by rewrite lookup_empty. Qed.

(** A call in terms of the tenants' buckets. *)
Lemma local_Allow_spec t now rl :
  local_inv rl →
  let l := default (rate_NewLimiter (trl_limitFunc rl t) (trl_burst rl)) (bucket_of (Tenant_ID t) rl) in
  let res := RateLimiter_Allow t now rl in
  local_inv res.1 ∧ res.2 = (Limiter_Allow now l).2 ∧
  trl_limitFunc res.1 = trl_limitFunc rl ∧ trl_burst res.1 = trl_burst rl ∧
  ∀ id, bucket_of id res.1 =
    if decide (id = Tenant_ID t) then Some (Limiter_Allow now l).1 else bucket_of id rl.
Proof.
  intros [Hinj Hobj]. unfold bucket_of. simpl. unfold TenantRateLimiter_getLimiter, bucket_allow.
  destruct (trl_limiters rl !! Tenant_ID t) as [p|] eqn:Hp; simpl.
  - destruct (Hobj _ _ Hp) as [l Hl]. rewrite Hl. simpl. destruct (Limiter_Allow now l) as [l' b]. simpl.
    split_and!; [split; simpl | done | done | done |]; [done | |].
    + intros id q Hq. destruct (decide (q = p)) as [->|Hne].
      * rewrite list_lookup_insert_eq by by eapply lookup_lt_Some. by eexists.
      * rewrite list_lookup_insert_ne by done. eauto.
    + intros id. case_decide as Hid; [subst id; rewrite Hp; simpl; apply list_lookup_insert_eq; by eapply lookup_lt_Some |].
      destruct (trl_limiters rl !! id) as [q|] eqn:Hq; [|done]. simpl. apply list_lookup_insert_ne.
      intros ->. by eapply Hid, Hinj.
  - unfold load_or_store. simpl. rewrite Hp. simpl. rewrite list_lookup_middle by done. simpl.
    destruct (Limiter_Allow now _) as [l' b]. simpl.
    assert (∀ id p, trl_limiters rl !! id = Some p → p < length (trl_objs rl)) as Hlt.
    { intros id p [l Hl]%Hobj. by eapply lookup_lt_Some. }
    split_and!; [split; simpl | done | done | done |].
    + intros id id' p. rewrite !lookup_insert. repeat case_decide; simplify_eq; try done.
      * intros [= <-] Hq%Hlt. lia.
      * intros Hq%Hlt [= <-]. lia.
      * apply Hinj.
    + intros id p. rewrite lookup_insert. rewrite insert_app_r_alt, Nat.sub_diag by done. simpl.
      case_decide; [intros [= <-]; rewrite list_lookup_middle by done; by eexists |].
      intros Hq. destruct (Hobj _ _ Hq) as [l Hl]. exists l. by apply lookup_app_l_Some.
    + intros id. rewrite lookup_insert. rewrite insert_app_r_alt, Nat.sub_diag by done. simpl.
      destruct (decide (Tenant_ID t = id)) as [<-|Hne].
      * rewrite decide_True by done. simpl. by apply list_lookup_middle.
      * rewrite decide_False by done. destruct (trl_limiters rl !! id) as [q|] eqn:Hq; [|done]. simpl.
        rewrite lookup_app_l; [done | by eapply Hlt].
Qed.

#[global] Program Instance local_TenantIsolation : TenantIsolation (TenantRateLimiter Limit L) Z := {
  iso_inv := local_inv;
  iso_same := local_same;
  iso_valid t now rl := True
}.
Next Obligation. unfold local_same. split; repeat intro; deconj; split_and!; congruence. Qed.
Next Obligation. intros t now rl Hinv _. by apply (local_Allow_spec t now rl Hinv). Qed.
Next Obligation.
  intros t now rl id Hinv _ Hne. destruct (local_Allow_spec t now rl Hinv) as (_ & _ & Hf & Hb & Ho).
  split_and!; [done | done |]. by rewrite Ho, decide_False.
Qed.
Next Obligation.
  intros t now rl rl' Hinv Hinv' _ (Hf & Hb & Ho). split; [done |].
  destruct (local_Allow_spec t now rl Hinv) as (_ & -> & Hf1 & Hb1 & Ho1).
  destruct (local_Allow_spec t now rl' Hinv') as (_ & -> & Hf2 & Hb2 & Ho2).
  rewrite Hf, Hb, Ho in *. split; [done |]. split_and!; [congruence | congruence |].
  by rewrite Ho1, Ho2, !decide_True.
Qed.

(** The interface's method is the method of the package. *)
Lemma local_Allow_is_Allow p t (rl : TenantRateLimiter Limit L) w :
  heap_load (w_heap w) p = Some t → local_inv rl →
  TenantRateLimiter_Allow (Some p) (rl, w) =
    (((RateLimiter_Allow t (next_now w) rl).1, tick w), Ret (RateLimiter_Allow t (next_now w) rl).2).
Proof.
  intros Ht [_ Hobj]. unfold TenantRateLimiter_Allow, deref, time_Now. go_unfold. simpl. rewrite Ht. simpl.
  assert (is_Some (trl_objs (TenantRateLimiter_getLimiter t rl).1 !! (TenantRateLimiter_getLimiter t rl).2)) as [l Hl].
  { unfold TenantRateLimiter_getLimiter. destruct (trl_limiters rl !! Tenant_ID t) as [q|] eqn:Hq; [by eapply Hobj |].
    unfold load_or_store. simpl. rewrite Hq. simpl. rewrite list_lookup_middle by done. by eexists. }
  destruct (TenantRateLimiter_getLimiter t rl) as [rl1 q]. simpl in *. unfold bucket_allow. rewrite Hl. simpl.
  by destruct (Limiter_Allow (next_now w) l).
Qed.

End local.

(** ** [RedisRateLimiter] *)
Section shared.
Context {R : Type} {HR : RedisServer R} {HRL : RedisLaws R}.

(** What a call meets: the instance's clock, the server's, and the fate of the command. *)
Record redis_call := mkRC { rcl_now : Z; rcl_srv : Z; rcl_reply : reply }.

#[global] Instance redis_RateLimiter : RateLimiter (RedisRateLimiter * R) redis_call := {
  RateLimiter_Allow t c s :=
    let '(r, b) := RedisRateLimiter_Allow s.1 t (rcl_now c) (rcl_srv c) (rcl_reply c) s.2 in
    ((s.1, r), b)
}.

(** The key a call counts on. *)
Definition call_window (t : Tenant) (c : redis_call) (rl : RedisRateLimiter) : Z :=
  time_Truncate (rcl_now c) (rrl_limitFunc rl t).2.

Definition redis_same (id : TenantID) (s s' : RedisRateLimiter * R) : Prop :=
  s.1 = s'.1 ∧ ∀ ws, int64_range ws → redis_db s.2 !! window_key id ws = redis_db s'.2 !! window_key id ws.

Definition redis_valid (t : Tenant) (c : redis_call) (s : RedisRateLimiter * R) : Prop :=
  int64_range (call_window t c s.1) ∧
  ((live_count (rcl_srv c) (redis_db s.2 !! window_key (Tenant_ID t) (call_window t c s.1))).1 < max_int64)%Z.

(** A call in terms of the counters. *)
Lemma redis_Allow_entry t c s :
  redis_valid t c s →
  let key := window_key (Tenant_ID t) (call_window t c s.1) in
  let '(limit, window) := rrl_limitFunc s.1 t in
  let e := redis_db s.2 !! key in
  let res := RateLimiter_Allow t c s in
  res.1.1 = s.1 ∧
  (∀ k, redis_db res.1.2 !! k =
     if decide (k = key ∧ rcl_reply c ≠ LostBefore)
     then script_entry (rcl_srv c) (Duration_Milliseconds window) e else redis_db s.2 !! k) ∧
  res.2 = match rcl_reply c with
          | Replied => negb (limit <? (live_count (rcl_srv c) e).1 + 1)%Z
          | _ => bool_decide (rrl_failurePolicy s.1 = FailOpen)
          end.
Proof using HRL.
  destruct s as [rl r], c as [now srv rep]. unfold redis_valid, call_window. simpl. intros [Hws Hv].
  unfold RedisRateLimiter_Allow. destruct (rrl_limitFunc rl t) as [limit window]. simpl in *.
  destruct (allowScript_entry srv (window_key (Tenant_ID t) (time_Truncate now window))
    (Duration_Milliseconds window) limit r Hv) as [Hdb Hres].
  destruct rep; simpl; (split; [done |]); (split; [|try done]).
  - intros k. rewrite Hdb. repeat case_decide; naive_solver.
  - rewrite Hres. by destruct (limit <? _)%Z.
  - intros k. rewrite Hdb. repeat case_decide; naive_solver.
  - intros k. rewrite decide_False; [done | tauto].
Qed.

#[global] Program Instance redis_TenantIsolation : TenantIsolation (RedisRateLimiter * R) redis_call := {
  iso_inv s := True;
  iso_same := redis_same;
  iso_valid := redis_valid
}.
Next Obligation.
  unfold redis_same. intros id. split.
  - done.
  - intros s s' [? H]. split; [done |]. intros ws Hws. by rewrite H.
  - intros s1 s2 s3 [? H1] [? H2]. split; [congruence |]. intros ws Hws. by rewrite H1, H2.
Qed.
Next Obligation. done. Qed.
Next Obligation.
  intros t c s id _ Hv Hne. pose proof (redis_Allow_entry t c s Hv) as H.
  destruct (rrl_limitFunc s.1 t) as [limit window]. destruct H as (Hrl & Hdb & _).
  split; [done |]. intros ws Hws. rewrite Hdb, decide_False; [done |]. intros [E _].
  apply window_key_inj in E as [? _]; [done | done | apply Hv].
Qed.
Next Obligation.
  intros t c s s' _ _ Hv [Hrl Hsame]. destruct s as [rl r], s' as [rl' r']. simpl in Hrl. subst rl'.
  assert (redis_valid t c (rl, r')) as Hv'.
  { destruct Hv as [Hws Hlt]. split; [done |]. simpl in *. by rewrite <- Hsame. }
  split; [done |]. pose proof (redis_Allow_entry t c (rl, r) Hv) as H. pose proof (redis_Allow_entry t c (rl, r') Hv') as H'.
  destruct Hv as [Hws _]. simpl in Hws, Hsame. cbn [fst snd] in H, H'. rewrite <- Hsame in H' by done.
  destruct (rrl_limitFunc rl t) as [limit window]. destruct H as (Hrl & Hdb & Hb), H' as (Hrl' & Hdb' & Hb').
  split; [by rewrite Hb, Hb' |]. split; [by rewrite Hrl, Hrl' |]. intros ws Hin. rewrite Hdb, Hdb'.
  repeat case_decide; first [reflexivity | by apply Hsame].
Qed.

End shared.

(** (C17) Tenants do not share quota, whichever limiter is behind the interface.  For
    every sequence of calls by any tenants, the answers a tenant gets are the answers to
    its own calls alone: with the local limiter for any bucket, limits and times; with
    Redis for windows of any length, clocks that do not agree, lost commands and ids that
    contain the separator of the keys, as long as a window's start is a 64-bit number and
    its counter has not reached the largest one. *)
Theorem rate_limiters_isolate_tenants {Limit L R} {HL : RateLib Limit L} {HR : RedisServer R} {HRL : RedisLaws R}
    id limitFunc burst (lcalls : list (Tenant * Z)) rl (r : R) (rcalls : list (Tenant * redis_call)) :
  (let s := NewTenantRateLimiter (L := L) limitFunc burst in
   answers_of id lcalls (allow_all lcalls s) = allow_all (calls_of id lcalls) s) ∧
  (calls_valid rcalls (rl, r) →
   answers_of id rcalls (allow_all rcalls (rl, r)) = allow_all (calls_of id rcalls) (rl, r)).
Proof.
  split; [|intros Hv; by apply isolated].
  apply isolated; [apply local_inv_new | apply local_inv_new | done |].
  generalize (NewTenantRateLimiter (L := L) limitFunc burst).
  induction lcalls as [|[t now] calls IH]; intros s; simpl; [done | split; [done | apply IH]].
Qed.

(** Two tenants whose ids differ by the separator and a number, one request per second. *)
Definition one_per_second : RedisRateLimiter := redisratelimit_New (λ _, (1, 1000000000)%Z) [].

Definition colon_calls : list (Tenant * redis_call) :=
  [(mkTenant "acme" Active None, mkRC 5000000 5 Replied);
   (mkTenant "acme:0" Active None, mkRC 6000000 6 Replied);
   (mkTenant "acme" Active None, mkRC 7000000 9 Replied);
   (mkTenant "acme:0" Active None, mkRC 8000000 8 LostBefore);
   (mkTenant "acme" Active None, mkRC 1200000000 1100 Replied)].

Lemma rate_limiters_isolate_tenants_witness :
  answers_of "acme:0" colon_calls (allow_all colon_calls (one_per_second, ∅ : redisMap)) = [true; true] ∧
  answers_of "acme" colon_calls (allow_all colon_calls (one_per_second, ∅ : redisMap)) = [true; false; true].
Proof.
  assert (calls_valid colon_calls (one_per_second, ∅ : redisMap)) as Hv.
  { simpl. unfold redis_valid, int64_range. repeat split; vm_compute; discriminate. }
  split; (etransitivity;
    [exact (proj2 (rate_limiters_isolate_tenants _ (λ _, 1%Z) 1 [] one_per_second (∅ : redisMap) colon_calls) Hv) |]);
    vm_compute; reflexivity.
Defined.
