(* ===== verification/RedisBounds.v ===== *)
(** * What the fixed-window counter guarantees

    [RedisRateLimit] shows that the counter is exact when the calls of a window arrive
    within its lifetime.  Here are the bounds a caller gets from it: how much goes through
    in a span of time that is not a window ([redis_rate_bound], the limitation the
    documentation accepts), and what is left of the quota of a window when its calls arrive
    at any time, whatever the clocks and the network do ([redis_quota_skew]). *)
From S2P Require Import Prelude GoStrings GoLib Tenant RedisRateLimit.
Set Default Goal Selector "!".

(** A call that reached Redis and came back with an answer. *)
Definition admitted (P : rcall → bool) (e : rcall * bool) : bool :=
  P e.1 && bool_decide (rc_reply e.1 = Replied) && e.2.
Arguments admitted : simpl never.

(** How many of the calls that satisfy [P] were allowed by Redis. *)
Definition allowed (P : rcall → bool) (calls : list rcall) (answers : list bool) : Z :=
  Z.of_nat (length (filter (λ e, admitted P e = true) (zip calls answers))).

(** The calls of a tenant within the span [[a, b]] of the instances' clocks. *)
Definition in_span (id : TenantID) (a b : Z) (c : rcall) : bool :=
  bool_decide (Tenant_ID (rc_t c) = id ∧ (a ≤ rc_now c ≤ b)%Z).

(** The calls of a tenant that use the key of the window [ws]. *)
Definition on_key (window : TenantID → Z) (id : TenantID) (ws : Z) (c : rcall) : bool :=
  bool_decide (Tenant_ID (rc_t c) = id ∧ window_of window c = ws).

Lemma allowed_cons P c calls b answers :
  allowed P (c :: calls) (b :: answers) =
    ((if admitted P (c, b) then 1 else 0) + allowed P calls answers)%Z.
Proof.
  unfold allowed. simpl. rewrite filter_cons. destruct (admitted P (c, b)); simpl; [lia | done].
Qed.

(** Calls that fall under one of several predicates. *)
Lemma allowed_cover P (Qs : list (rcall → bool)) calls answers :
  (∀ c, c ∈ calls → P c = true → ∃ Q, Q ∈ Qs ∧ Q c = true) →
  (allowed P calls answers ≤ foldr (λ Q, Z.add (allowed Q calls answers)) 0 Qs)%Z.
Proof.
  assert (∀ calls answers, 0 ≤ foldr (λ Q, Z.add (allowed Q calls answers)) 0 Qs)%Z as Hpos.
  { intros cs bs. induction Qs; simpl; [done |]. unfold allowed in *. lia. }
  revert answers; induction calls as [|c calls IH]; intros [|b answers] Hc; try (apply Hpos).
  rewrite allowed_cons. specialize (IH answers ltac:(intros; apply Hc; [by right | done])).
  assert (foldr (λ Q, Z.add (allowed Q (c :: calls) (b :: answers))) 0 Qs =
    foldr (λ Q, Z.add (if admitted Q (c, b) then 1 else 0)) 0 Qs +
    foldr (λ Q, Z.add (allowed Q calls answers)) 0 Qs)%Z as ->.
  { clear. induction Qs as [|Q Qs IH]; simpl; [done |]. rewrite allowed_cons. lia. }
  enough ((if admitted P (c, b) then 1 else 0) ≤
    foldr (λ Q, Z.add (if admitted Q (c, b) then 1 else 0)) 0 Qs)%Z by lia.
  assert (∀ Qs : list (rcall → bool), 0 ≤ foldr (λ Q, Z.add (if admitted Q (c, b) then 1 else 0)) 0 Qs)%Z as Hp.
  { clear. intros Qs. induction Qs as [|Q Qs IH]; simpl; [done | case_match; lia]. }
  destruct (admitted P (c, b)) eqn:Ha; [|apply Hp]. unfold admitted in Ha. simpl in Ha.
  apply andb_true_iff in Ha as [[HP Hr]%andb_true_iff Hb].
  destruct (Hc c ltac:(by left) HP) as (Q & (Qs1 & Qs2 & ->)%list_elem_of_split & HQ).
  assert (admitted Q (c, b) = true) as HQ' by (unfold admitted; simpl; by rewrite HQ, Hr, Hb).
  clear -Hp HQ'. induction Qs1 as [|Q1 Qs1 IH]; simpl; [|case_match; lia].
  rewrite HQ'. specialize (Hp Qs2). lia.
Qed.

Section bounds.
Context (rl : RedisRateLimiter) (limit window : TenantID → Z).
Hypothesis rl_limits : ∀ t, rrl_limitFunc rl t = (limit (Tenant_ID t), window (Tenant_ID t)).

(** ** A window lets at most [limit] through *)

Lemma window_quota id ws before calls :
  (allowed (on_key window id ws) calls (quota_answers rl window before calls) ≤
     Z.max 0 (limit id - count_in window id ws before))%Z.
Proof.
  revert before; induction calls as [|c calls IH]; intros before; simpl; [unfold allowed; simpl; lia |].
  rewrite allowed_cons. specialize (IH (before ++ [c])). rewrite count_in_snoc in IH.
  unfold admitted, on_key, counted, quota_answer in *; simpl.
  destruct (decide (Tenant_ID (rc_t c) = id ∧ window_of window c = ws)) as [[<- <-]|Hne].
  - rewrite bool_decide_true by done. rewrite rl_limits. simpl.
    destruct (rc_reply c); simpl; rewrite ?(bool_decide_true (_ ∧ _)) in IH by done;
      repeat case_bool_decide; simpl in *; try done; lia.
  - rewrite (bool_decide_false _ Hne), bool_decide_false in * by naive_solver. simpl. lia.
Qed.

(** The windows that meet a span: one more than the span is long. *)
Definition span_windows (W a b : Z) : list Z :=
  (λ i, time_Truncate a W + Z.of_nat i * W)%Z <$> seq 0 (Z.to_nat ((b - a + W - 1) / W + 1)).

Lemma span_covered id a b c :
  (0 < window id)%Z → in_span id a b c = true →
  ∃ ws, ws ∈ span_windows (window id) a b ∧ on_key window id ws c = true.
Proof.
  intros HW [<- Hab]%bool_decide_eq_true_1. set (W := window (Tenant_ID (rc_t c))) in *.
  set (u := ((a + zero_time) / W)%Z). set (v := ((rc_now c + zero_time) / W)%Z).
  assert (∀ x, time_Truncate x W = W * ((x + zero_time) / W) - zero_time)%Z as Htr.
  { intros x. unfold time_Truncate. rewrite (proj2 (Z.leb_gt _ _)) by done.
    pose proof (Z_div_mod_eq_full (x + zero_time) W). lia. }
  assert (u ≤ v)%Z as Huv by (apply Z.div_le_mono; lia).
  assert (v - u < (b - a + W - 1) / W + 1)%Z as Hvu.
  { pose proof (Z_div_mod_eq_full (a + zero_time) W). pose proof (Z.mod_pos_bound (a + zero_time) W HW).
    pose proof (Z_div_mod_eq_full (rc_now c + zero_time) W).
    pose proof (Z.mod_pos_bound (rc_now c + zero_time) W HW).
    enough (v - u ≤ (b - a + W - 1) / W)%Z by lia. apply Z.div_le_lower_bound; [done |]. subst u v. nia. }
  exists (time_Truncate (rc_now c) W). split; [|by apply bool_decide_eq_true_2].
  apply list_elem_of_fmap. exists (Z.to_nat (v - u)). split; [|apply elem_of_seq; lia].
  rewrite !Htr. fold u v. rewrite Z2Nat.id by lia. lia.
Qed.

Lemma span_quota id a b before calls :
  (0 < window id)%Z → (0 ≤ limit id)%Z → (a ≤ b)%Z →
  (allowed (in_span id a b) calls (quota_answers rl window before calls) ≤
     limit id * ((b - a + window id - 1) / window id + 1))%Z.
Proof.
  intros HW Hl Hab. etrans.
  { apply (allowed_cover _ (on_key window id <$> span_windows (window id) a b)).
    intros c _ (ws & Hws & Hk)%span_covered; [|done]. exists (on_key window id ws).
    split; [by apply list_elem_of_fmap_2 | done]. }
  assert (0 ≤ (b - a + window id - 1) / window id)%Z by (apply Z.div_pos; lia).
  rewrite <- (Z2Nat.id (_ / _ + 1)) by lia. unfold span_windows. generalize (Z.to_nat ((b - a + window id - 1) / window id + 1)).
  intros n. generalize 0%nat. induction n as [|n IH]; intros i; csimpl; [lia |].
  pose proof (window_quota id (time_Truncate a (window id) + Z.of_nat i * window id) before calls).
  pose proof (count_in_bound window id (time_Truncate a (window id) + Z.of_nat i * window id) before).
  specialize (IH (S i)). lia.
Qed.

Context {R : Type} {HR : RedisServer R} {HRL : RedisLaws R}.

(** (C18) The rate the quota enforces.  For limits and windows that depend on the tenant's
    id only, windows of at least a millisecond, and calls of one window whose scripts run on
    the server within one lifetime of the counter, Redis allows a tenant at most [limit]
    calls for each window that meets a span of time of the instances' clocks, which are one
    more than the span is long in windows: at most twice the limit in any span of up to one
    window, the worst case the documentation names. *)
Theorem redis_rate_bound id a b calls (r : R) :
  windows_ok rl window → calls_timely window calls →
  (Z.of_nat (length calls) ≤ max_int64)%Z → (∀ id ws, redis_db r !! window_key id ws = None) →
  (0 ≤ limit id)%Z → (a ≤ b)%Z →
  (allowed (in_span id a b) calls (run_calls rl calls r).2 ≤
     limit id * ((b - a + window id - 1) / window id + 1))%Z.
Proof.
  intros Hwin Hok Hlen Hempty Hl Hab. rewrite (run_calls_quota rl window []) by auto using counters_empty.
  apply span_quota; [|lia|lia]. pose proof (proj2 Hwin id) as Hlife. unfold lifetime, Duration_Milliseconds in Hlife.
  destruct (Z.lt_ge_cases 0 (window id)) as [|Hneg]; [done |].
  pose proof (Z.quot_pos (- window id) 1000000 ltac:(lia) ltac:(lia)) as H. rewrite Z.quot_opp_l in H by done. lia.
Qed.

(** ** Clocks that do not agree *)

(** The counter of a key that was created [n] times, [ms] apart in the server's time,
    from [s0] to [s1], and each time let at most the limit through. *)
Definition key_state (s0 s1 ms lim : Z) (e : option (Z * option Z)) (passed total : Z) : Prop :=
  match e with
  | None => (passed ≤ 0)%Z
  | Some (_, None) => False
  | Some (v, Some dl) =>
      ∃ n, (0 < n)%Z ∧ (s0 + n * ms ≤ dl ≤ s1 + ms)%Z ∧ (0 < v ≤ total)%Z ∧
        (passed ≤ lim * (n - 1) + Z.min v lim)%Z
  end.

Lemma key_state_mono s0 s1 ms lim e passed passed' total total' :
  (passed' ≤ passed)%Z → (total ≤ total')%Z →
  key_state s0 s1 ms lim e passed total → key_state s0 s1 ms lim e passed' total'.
Proof.
  intros Hp Ht. destruct e as [[v [dl|]]|]; simpl; [|done | lia].
  intros (n & ? & ? & ? & ?). exists n. lia.
Qed.

Lemma key_state_bound s0 s1 ms lim e passed total :
  (0 < ms)%Z → (0 ≤ lim)%Z → (s0 ≤ s1)%Z → key_state s0 s1 ms lim e passed total →
  (passed ≤ lim * ((s1 - s0) / ms + 1))%Z.
Proof.
  intros Hms Hl Hs. assert (0 ≤ (s1 - s0) / ms)%Z by (apply Z.div_pos; lia).
  destruct e as [[v [dl|]]|]; simpl; [|done | intros; nia].
  intros (n & Hn & Hdl & Hv & Hp).
  assert (n - 1 ≤ (s1 - s0) / ms)%Z by (apply Z.div_le_lower_bound; lia). nia.
Qed.

Lemma key_state_step s0 s1 ms lim srv key (r : R) passed total :
  (0 < ms)%Z → (0 ≤ lim)%Z → (s0 ≤ srv ≤ s1)%Z → (0 ≤ total < max_int64)%Z →
  key_state s0 s1 ms lim (redis_db r !! key) passed total →
  let res := allowScript srv key ms lim r in
  key_state s0 s1 ms lim (redis_db res.1 !! key)
    (passed + if bool_decide (res.2 = 1%Z) then 1 else 0) (total + 1).
Proof.
  intros Hms Hl Hsrv Htot Hk. unfold allowScript.
  pose proof (redis_INCR_spec srv key r) as Hincr.
  destruct (redis_INCR srv key r) as [r1 current]. simpl in Hincr.
  destruct (redis_live srv (redis_db r !! key)) as [[v dl]|] eqn:Hlive; simpl in Hincr.
  - assert (redis_db r !! key = Some (v, dl)) as Hdb.
    { unfold redis_live in Hlive. repeat case_match; congruence. }
    rewrite Hdb in Hk. simpl in Hk. destruct dl as [dl|]; [|done].
    destruct Hk as (n & Hn & Hdl & Hv & Hp). destruct Hincr as [-> Hdb1]; [lia |].
    rewrite (proj2 (Z.eqb_neq _ _)) by lia. simpl. rewrite Hdb1, lookup_insert_eq. simpl.
    exists n. split_and!; try lia. destruct (Z.ltb_spec lim (v + 1)); case_bool_decide; lia || done.
  - destruct Hincr as [-> Hdb1]; [unfold max_int64; lia |]. simpl.
    rewrite (redis_PEXPIRE_spec _ _ _ _ 1 None) by (by rewrite Hdb1, lookup_insert_eq).
    rewrite (proj2 (Z.leb_gt _ _)) by lia. rewrite lookup_insert_eq. simpl.
    assert (∃ n, (0 ≤ n)%Z ∧ (s0 + n * ms ≤ srv)%Z ∧ (passed ≤ lim * n)%Z) as (n & Hn & Hs & Hp).
    { destruct (redis_db r !! key) as [[v [dl|]]|]; simpl in *; [|done | exists 0%Z; lia].
      destruct Hk as (n & Hn & Hdl & Hv & Hp). exists n. destruct (Z.ltb_spec srv dl); [done |].
      split_and!; nia. }
    exists (n + 1)%Z. split_and!; try lia. destruct (Z.ltb_spec lim (0 + 1)); case_bool_decide; lia || done.
Qed.

(** The script touches its key only, and counts one more at most. *)
Lemma allowScript_db srv key ms lim (r : R) total :
  (0 ≤ total < max_int64)%Z → (∀ v dl, redis_db r !! key = Some (v, dl) → (v ≤ total)%Z) →
  let res := allowScript srv key ms lim r in
  (∀ k, k ≠ key → redis_db res.1 !! k = redis_db r !! k) ∧
  (∀ v dl, redis_db res.1 !! key = Some (v, dl) → (v ≤ total + 1)%Z).
Proof.
  intros Htot Hmax.
  assert ((live_count srv (redis_db r !! key)).1 ≤ total)%Z as Hv.
  { unfold live_count, redis_live. destruct (redis_db r !! key) as [[v [dl|]]|]; simpl; [|by eapply Hmax | lia].
    case_match; simpl; [by eapply Hmax | lia]. }
  destruct (allowScript_entry srv key ms lim r) as [Hdb _]; [lia |]. split.
  - intros k Hk. by rewrite Hdb, decide_False.
  - intros v dl. rewrite Hdb, decide_True by done. unfold script_entry.
    destruct (live_count srv (redis_db r !! key)) as [v' dl']. simpl in Hv.
    repeat case_match; intros; simplify_eq/=; lia.
Qed.

(** What [Allow] does to the keys: it runs the script on its own key, or nothing. *)
Lemma Allow_keys c (r : R) :
  let key := window_key (Tenant_ID (rc_t c)) (window_of window c) in
  let run := allowScript (rc_srv c) key (Duration_Milliseconds (window (Tenant_ID (rc_t c))))
               (limit (Tenant_ID (rc_t c))) r in
  let res := RedisRateLimiter_Allow rl (rc_t c) (rc_now c) (rc_srv c) (rc_reply c) r in
  (rc_reply c = LostBefore ∧ res.1 = r) ∨
  (res.1 = run.1 ∧ (rc_reply c = Replied → res.2 = bool_decide (run.2 = 1%Z))).
Proof.
  unfold RedisRateLimiter_Allow. rewrite rl_limits. fold (window_of window c).
  destruct (rc_reply c); simpl; [by right | by right | by left].
Qed.

(** The state of one key over a sequence of calls, other keys being counted too. *)
Definition keys_ok (id : TenantID) (ws s0 s1 total passed : Z) (r : R) : Prop :=
  (∀ id' ws' v dl, redis_db r !! window_key id' ws' = Some (v, dl) → (v ≤ total)%Z) ∧
  key_state s0 s1 (Duration_Milliseconds (window id)) (limit id) (redis_db r !! window_key id ws)
    passed total.

Lemma keys_ok_step id ws s0 s1 total passed c (r : R) :
  (0 < Duration_Milliseconds (window id))%Z → (0 ≤ limit id)%Z → (0 ≤ total < max_int64)%Z →
  int64_range ws → int64_range (window_of window c) →
  (on_key window id ws c = true → (s0 ≤ rc_srv c ≤ s1)%Z) → keys_ok id ws s0 s1 total passed r →
  let res := RedisRateLimiter_Allow rl (rc_t c) (rc_now c) (rc_srv c) (rc_reply c) r in
  keys_ok id ws s0 s1 (total + 1) (passed + if admitted (on_key window id ws) (c, res.2) then 1 else 0) res.1.
Proof.
  intros Hms Hl Htot Hws Hwc Hsrv [Hmax Hk] res.
  destruct (Allow_keys c r) as [[Hrep Hr]|[Hr Hans]]; fold res in Hr; rewrite Hr.
  - unfold admitted. simpl. rewrite Hrep. simpl. rewrite andb_false_r. simpl. split.
    + intros id' ws' v dl Hv%Hmax. lia.
    + eapply key_state_mono; [| |exact Hk]; lia.
  - fold res in Hans. set (key := window_key (Tenant_ID (rc_t c)) (window_of window c)) in *.
    destruct (allowScript_db (rc_srv c) key (Duration_Milliseconds (window (Tenant_ID (rc_t c))))
      (limit (Tenant_ID (rc_t c))) r total Htot (Hmax _ _)) as [Hother Hown]. split.
    + intros id' ws' v dl Hv. destruct (decide (window_key id' ws' = key)) as [E|E].
      * rewrite E in Hv. by eapply Hown.
      * rewrite Hother in Hv by done. apply Hmax in Hv. lia.
    + unfold admitted. simpl. destruct (on_key window id ws c) eqn:Hc; simpl.
      * apply bool_decide_eq_true_1 in Hc as [<- <-]. eapply key_state_mono;
          [| |by apply (key_state_step _ _ _ _ _ _ _ _ _ Hms Hl (Hsrv eq_refl) Htot Hk)]; [|lia].
        fold key. destruct (decide (rc_reply c = Replied)) as [Hrep|Hrep].
        { rewrite bool_decide_true by done. by rewrite Hans. }
        rewrite (bool_decide_false _ Hrep). simpl. destruct (bool_decide _); lia.
      * apply bool_decide_eq_false_1 in Hc. rewrite Hother; [eapply key_state_mono; [| |exact Hk]; lia |].
        intros E. apply window_key_inj in E as [? ?]; [naive_solver | done | done].
Qed.

(** (C15) The quota of a window does not depend on clocks that agree.  The instances may
    read any time, the window need not be a whole number of milliseconds, replies may be
    lost and other tenants may do anything: the calls that share a window's key and
    reach the server within [s1 - s0] milliseconds of its own time are allowed at most
    [limit] times per started time-to-live.  A counter that expires early because an
    instance's clock is behind is created again only a whole time-to-live later. *)
Theorem redis_quota_skew id ws s0 s1 calls (r : R) :
  (0 < Duration_Milliseconds (window id))%Z → (0 ≤ limit id)%Z → (s0 ≤ s1)%Z → int64_range ws →
  (∀ c, c ∈ calls → int64_range (window_of window c)) →
  (∀ c, c ∈ calls → on_key window id ws c = true → (s0 ≤ rc_srv c ≤ s1)%Z) →
  (Z.of_nat (length calls) ≤ max_int64)%Z →
  (∀ id ws, redis_db r !! window_key id ws = None) →
  (allowed (on_key window id ws) calls (run_calls rl calls r).2 ≤
     limit id * ((s1 - s0) / Duration_Milliseconds (window id) + 1))%Z.
Proof.
  intros Hms Hl Hs Hws Hwc Hsrv Hlen Hempty.
  assert (keys_ok id ws s0 s1 0 0 r) as Hk.
  { split; [intros *; by rewrite Hempty | by rewrite Hempty]. }
  enough (∀ total passed r, keys_ok id ws s0 s1 total passed r → (0 ≤ total)%Z →
    (total + Z.of_nat (length calls) ≤ max_int64)%Z →
    (passed + allowed (on_key window id ws) calls (run_calls rl calls r).2 ≤
       limit id * ((s1 - s0) / Duration_Milliseconds (window id) + 1))%Z) as H.
  { by specialize (H 0 0 r Hk ltac:(lia) Hlen)%Z. }
  clear r Hempty Hlen Hk.
  induction calls as [|c calls IH]; intros total passed r Hk Ht Hlen; simpl in *.
  - unfold allowed. simpl. rewrite Z.add_0_r. by eapply key_state_bound, Hk.
  - pose proof (keys_ok_step id ws s0 s1 total passed c r Hms Hl ltac:(lia) Hws
      ltac:(apply Hwc; by left) ltac:(apply Hsrv; by left) Hk) as Hk'.
    destruct (RedisRateLimiter_Allow _ _ _ _ _ r) as [r1 b]. simpl in Hk'.
    specialize (IH ltac:(intros; apply Hwc; by right) ltac:(intros c' Hc'; apply Hsrv; by right)
      _ _ _ Hk' ltac:(lia) ltac:(lia)).
    destruct (run_calls rl calls r1) as [r2 bs]. simpl in *. rewrite allowed_cons. lia.
Qed.
End bounds.

(** ** The worst case is reached *)
Section burst.
Context {R : Type} {HR : RedisServer R} {HRL : RedisLaws R}.

Lemma quota_answers_app rl window before calls1 calls2 :
  quota_answers rl window before (calls1 ++ calls2) =
    quota_answers rl window before calls1 ++ quota_answers rl window (before ++ calls1) calls2.
Proof.
  revert before; induction calls1 as [|c calls1 IH]; intros before; simpl; [by rewrite app_nil_r |].
  by rewrite IH, <- app_assoc.
Qed.

Lemma quota_answers_replicate rl window before c n :
  rc_reply c = Replied →
  (count_in window (Tenant_ID (rc_t c)) (window_of window c) before + Z.of_nat n ≤
     (rrl_limitFunc rl (rc_t c)).1)%Z →
  quota_answers rl window before (replicate n c) = replicate n true.
Proof.
  intros Hrep. revert before; induction n as [|n IH]; intros before Hn; simpl; [done |]. f_equal.
  - unfold quota_answer. rewrite Hrep. apply bool_decide_eq_true_2. lia.
  - apply IH. rewrite count_in_snoc. case_match; lia.
Qed.

(** The end of the first window after the epoch. *)
Definition first_boundary (W : Z) : Z := W * (zero_time / W + 1) - zero_time.

Lemma first_boundary_window W id x rep :
  (0 < W)%Z → (- W ≤ x < W)%Z →
  window_of (λ _, W) (call_at id (first_boundary W + x) rep) =
    (first_boundary W + if (x <? 0)%Z then - W else 0)%Z.
Proof.
  intros HW Hx. unfold window_of, time_Truncate, first_boundary. simpl.
  rewrite (proj2 (Z.leb_gt _ _)) by done.
  replace (W * (zero_time / W + 1) - zero_time + x + zero_time)%Z
    with (x + (zero_time / W + 1) * W)%Z by lia. rewrite Z.mod_add by lia.
  destruct (Z.ltb_spec x 0).
  - replace x with (x + W + (- 1) * W)%Z at 2 by lia. rewrite Z.mod_add, Z.mod_small by lia. lia.
  - rewrite Z.mod_small by lia. lia.
Qed.

Lemma first_boundary_range W : (0 < W)%Z → (0 < first_boundary W ≤ W)%Z.
Proof.
  intros HW. unfold first_boundary. pose proof (Z_div_mod_eq_full zero_time W).
  pose proof (Z.mod_pos_bound zero_time W HW). lia.
Qed.

(** [lim] calls in the last nanosecond of the window and [lim] in the first of the next. *)
Definition burst_calls (id : TenantID) (lim : nat) (W : Z) : list rcall :=
  replicate lim (call_at id (first_boundary W + -1) Replied) ++
  replicate lim (call_at id (first_boundary W + 0) Replied).

Lemma elem_of_burst id lim W c :
  c ∈ burst_calls id lim W → ∃ x, (-1 ≤ x ≤ 0)%Z ∧ c = call_at id (first_boundary W + x) Replied.
Proof.
  unfold burst_calls. intros [[-> _]%elem_of_replicate|[-> _]%elem_of_replicate]%elem_of_app.
  - by exists (-1)%Z.
  - by exists 0%Z.
Qed.

Lemma count_in_other window id ws calls :
  (∀ c, c ∈ calls → window_of window c ≠ ws) → count_in window id ws calls = 0%Z.
Proof.
  intros Hc. unfold count_in. destruct (filter _ calls) as [|c l] eqn:E; [done |].
  assert (c ∈ filter (λ c, counted window id ws c = true) calls) as Hin by (rewrite E; by left).
  apply list_elem_of_filter in Hin as [(_ & Hw & _)%bool_decide_eq_true_1 Hin]. by destruct (Hc c Hin).
Qed.

Lemma burst_answers id lim W :
  (0 < W)%Z →
  quota_answers (redisratelimit_New (λ _, (Z.of_nat lim, W)) []) (λ _, W) [] (burst_calls id lim W) =
    replicate (length (burst_calls id lim W)) true.
Proof.
  intros HW. unfold burst_calls. rewrite length_app, !length_replicate, replicate_add, quota_answers_app.
  f_equal; apply quota_answers_replicate; simpl; try done.
  rewrite count_in_other; [lia |]. intros c [-> _]%elem_of_replicate.
  rewrite !first_boundary_window by lia. simpl. lia.
Qed.

Lemma allowed_all P calls :
  (∀ c, c ∈ calls → P c = true ∧ rc_reply c = Replied) →
  allowed P calls (replicate (length calls) true) = Z.of_nat (length calls).
Proof.
  induction calls as [|c calls IH]; intros Hc; simpl; [done |]. rewrite allowed_cons, IH by set_solver.
  destruct (Hc c) as [HP Hr]; [by left |]. unfold admitted. simpl.
  rewrite HP, Hr, bool_decide_true by done. simpl. lia.
Qed.

(** The worst case of the fixed window is reached: whatever the limit and the window,
    twice the limit goes through within one nanosecond around the end of a window. *)
Theorem redis_burst_reached id lim k (r : R) :
  let W := (k * 1000000)%Z in
  let rl := redisratelimit_New (λ _, (Z.of_nat lim, W)) [] in
  (0 < k)%Z → (W ≤ max_int64)%Z → (2 * Z.of_nat lim ≤ max_int64)%Z →
  (∀ id ws, redis_db r !! window_key id ws = None) →
  ∃ a calls, (∀ c, c ∈ calls → in_span id a (a + 1) c = true) ∧
    allowed (in_span id a (a + 1)) calls (run_calls rl calls r).2 = (2 * Z.of_nat lim)%Z.
Proof.
  intros W rl Hk HW Hlim Hempty. assert (0 < W)%Z as HW0 by lia.
  pose proof (first_boundary_range W HW0) as Hb.
  assert (length (burst_calls id lim W) = lim + lim) as Hlen
    by (unfold burst_calls; by rewrite length_app, !length_replicate).
  assert (∀ c, c ∈ burst_calls id lim W →
    in_span id (first_boundary W + -1) (first_boundary W + -1 + 1) c = true) as Hin.
  { intros c (x & Hx & ->)%elem_of_burst. apply bool_decide_eq_true_2. simpl. split; [done | lia]. }
  exists (first_boundary W + -1)%Z, (burst_calls id lim W). split; [exact Hin |].
  rewrite (run_calls_quota rl (λ _, W) []); [| |apply synchronised_timely|by apply counters_empty|rewrite Hlen; simpl; lia].
  - unfold rl, W. rewrite burst_answers by done. rewrite allowed_all; [fold W; lia |].
    intros c Hc. split; [by apply Hin |]. by apply elem_of_burst in Hc as (x & _ & ->).
  - split; [done |]. intros id'. unfold lifetime, Duration_Milliseconds, W. by rewrite Z.quot_mul.
  - intros id'. by exists k.
  - intros c (x & Hx & ->)%elem_of_burst. split; [done |].
    rewrite first_boundary_window by lia. unfold int64_range, min_int64, max_int64 in *. case_match; lia.
Qed.
End burst.

(** ** Concrete runs *)

(** Twice the limit around the end of a window. *)
Definition straddling_calls : list rcall :=
  [call_at "acme" 999999999 Replied; call_at "acme" 999999999 Replied; call_at "acme" 999999999 Replied;
   call_at "acme" 1000000000 Replied; call_at "acme" 1000000000 Replied; call_at "acme" 1000000000 Replied].

Lemma redis_rate_bound_witness :
  (allowed (in_span "acme" 999999999 1000000000) straddling_calls
     (run_calls two_per_second straddling_calls (∅ : redisMap)).2 ≤ 4)%Z ∧
  (run_calls two_per_second straddling_calls (∅ : redisMap)).2 = [true; true; false; true; true; false].
Proof.
  split; [|by vm_compute].
  apply (redis_rate_bound two_per_second (λ _, 2%Z) (λ _, 1000000000%Z) ltac:(done) "acme").
  - by split.
  - apply synchronised_timely; [intros id; by exists 1000%Z |]. intros c Hc. unfold straddling_calls in Hc.
    repeat (apply elem_of_cons in Hc as [->|Hc]); [..|by apply not_elem_of_nil in Hc].
    all: split; [done |]; unfold int64_range; vm_compute; by split.
  - by vm_compute.
  - intros id ws. exact (lookup_empty (M := gmap string) (window_key id ws)).
  - lia.
  - lia.
Defined.

(** One call per window of 2.5 milliseconds, whose counter lives 2; the instance's clock
    is behind, so the counter of its window is made again. *)
Definition slow_clock_calls : list rcall :=
  [mkCall (mkTenant "acme" Active None) 0 0 Replied; mkCall (mkTenant "acme" Active None) 500000 1 Replied;
   mkCall (mkTenant "acme" Active None) 1000000 3 Replied].

Lemma redis_quota_skew_witness :
  let rl := redisratelimit_New (λ _, (1, 2500000)%Z) [] in
  (allowed (on_key (λ _, 2500000%Z) "acme" 0) slow_clock_calls
     (run_calls rl slow_clock_calls (∅ : redisMap)).2 ≤ 2)%Z ∧
  (run_calls rl slow_clock_calls (∅ : redisMap)).2 = [true; false; true].
Proof.
  intros rl. split; [|by vm_compute].
  apply (redis_quota_skew rl (λ _, 1%Z) (λ _, 2500000%Z) ltac:(done) "acme" 0 0 3).
  - by vm_compute.
  - lia.
  - lia.
  - unfold int64_range. vm_compute. by split.
  - intros c Hc. unfold slow_clock_calls in Hc.
    repeat (apply elem_of_cons in Hc as [->|Hc]); [..|by apply not_elem_of_nil in Hc].
    all: unfold int64_range; vm_compute; by split.
  - intros c Hc _. unfold slow_clock_calls in Hc.
    repeat (apply elem_of_cons in Hc as [->|Hc]); [..|by apply not_elem_of_nil in Hc].
    all: simpl; lia.
  - by vm_compute.
  - intros id ws. exact (lookup_empty (M := gmap string) (window_key id ws)).
Defined.

Lemma redis_burst_reached_witness :
  ∃ a calls, (∀ c, c ∈ calls → in_span "acme" a (a + 1) c = true) ∧
    allowed (in_span "acme" a (a + 1)) calls
      (run_calls (redisratelimit_New (λ _, (10, 60000 * 1000000)%Z) []) calls (∅ : redisMap)).2 = 20%Z.
Proof.
  apply (redis_burst_reached "acme" 10 60000).
  - lia.
  - unfold max_int64. lia.
  - unfold max_int64. lia.
  - intros id ws. exact (lookup_empty (M := gmap string) (window_key id ws)).
Defined.
