(* ===== verification/BrokerBus.v ===== *)
(** * Packages eventbus/redis and eventbus/nats

    The two distributed buses.  Both keep the list of their subscriptions and a
    [stopped] flag under a mutex; they differ in how a subscription is opened: Redis
    opens it and then waits for a confirmation, NATS opens it in one call.  The
    broker's client library is a parameter; events travel as the JSON of [EventCodec].
    [bb_step] interleaves [Subscribe] and [Stop] between their critical sections.  The
    handlers of a subscription run in goroutines whose accesses interleave; with a
    [BanChecker] as the handler this is how a ban reaches another instance. *)
From S2P Require Import Prelude GoStrings GoLib Goroutines GoJson GoTime Tenant EventBus EventCodec BanChecker BanRaces.
Set Default Goal Selector "!".

Inductive bus_kind : Type := RedisKind | NATSKind.

(** The two packages' [ErrStopped]. *)
Definition redis_ErrStopped : error := ErrStopped "eventbus/redis".
Definition nats_ErrStopped : error := ErrStopped "eventbus/nats".

Definition bus_ErrStopped (k : bus_kind) : error :=
  match k with RedisKind => redis_ErrStopped | NATSKind => nats_ErrStopped end.

(** The client library: opening a subscription (with its handle or an error),
    waiting for its confirmation, ending it, and publishing. *)
Class Broker (E : Type) := {
  br_Subscribe : string → E → E * result nat;
  br_Receive : nat → E → E * option error;
  br_Close : nat → E → E * option error;
  br_Publish : string → string → E → E * option error;
  br_live : E → gset nat
}.

(** A handle is new and live; only ending a subscription ends it. *)
Class BrokerLaws (E : Type) {HE : Broker E} := {
  br_Subscribe_ok ch e e' n :
    br_Subscribe ch e = (e', Ok n) → (n ∉ br_live e) ∧ br_live e' = {[n]} ∪ br_live e;
  br_Subscribe_err ch e e' err :
    br_Subscribe ch e = (e', Err err) → br_live e' = br_live e;
  br_Receive_live n e : br_live (br_Receive n e).1 = br_live e;
  br_Close_live n e : br_live (br_Close n e).1 = br_live e ∖ {[n]};
  br_Publish_live ch data e : br_live (br_Publish ch data e).1 = br_live e
}.

(** [RedisEventBus] and [NATSEventBus]: [pubsubs] or [subs], and [stopped]. *)
Record BrokerBus := mkBB {
  bb_kind : bus_kind;
  bb_channel : string;
  bb_subs : list nat;
  bb_stopped : bool
}.

Definition RedisEventBus : Type := BrokerBus.
Definition NATSEventBus : Type := BrokerBus.

Definition brokerbus_New (kind : bus_kind) (channel : string) : BrokerBus :=
  mkBB kind channel [] false.

Definition RedisEventBus_New (channel : string) : RedisEventBus := brokerbus_New RedisKind channel.
Definition NATSEventBus_New (subject : string) : NATSEventBus := brokerbus_New NATSKind subject.

Section bus.
Context {E : Type} {HE : Broker E}.

(** The critical section of [Subscribe]: [true] when the subscription was registered. *)
Definition bb_register (sub : nat) (b : BrokerBus) : BrokerBus * bool :=
  if bb_stopped b then (b, false)
  else (mkBB (bb_kind b) (bb_channel b) (bb_subs b ++ [sub]) (bb_stopped b), true).

(** [Stop]: the errors of ending a subscription are logged. *)
Definition bb_Stop (b : BrokerBus) (e : E) : BrokerBus * E :=
  (mkBB (bb_kind b) (bb_channel b) [] true,
   foldl (λ e sub, (br_Close sub e).1) e (bb_subs b)).

Definition RedisEventBus_Stop (b : BrokerBus) (e : E) : BrokerBus * E := bb_Stop b e.
Definition NATSEventBus_Stop (b : BrokerBus) (e : E) : BrokerBus * E := bb_Stop b e.

(** The end of both [Subscribe]s: register, or end the subscription. *)
Definition bb_finish (sub : nat) (b : BrokerBus) (e : E) : BrokerBus * E * option error :=
  let '(b', registered) := bb_register sub b in
  if registered then (b', e, None)
  else (b', (br_Close sub e).1, Some (bus_ErrStopped (bb_kind b))).

(** [Subscribe] without interruption.  The Redis client opens a subscription without
    reporting an error, so there the first branch is not taken. *)
Definition RedisEventBus_Subscribe (b : BrokerBus) (e : E) : BrokerBus * E * option error :=
  match br_Subscribe (bb_channel b) e with
  | (e1, Err err) => (b, e1, Some err)
  | (e1, Ok pubsub) =>
      match br_Receive pubsub e1 with
      | (e2, Some err) => (b, (br_Close pubsub e2).1, Some err)
      | (e2, None) => bb_finish pubsub b e2
      end
  end.

Definition NATSEventBus_Subscribe (b : BrokerBus) (e : E) : BrokerBus * E * option error :=
  match br_Subscribe (bb_channel b) e with
  | (e1, Err err) => (b, e1, Some err)
  | (e1, Ok sub) => bb_finish sub b e1
  end.

Definition bb_Subscribe (b : BrokerBus) (e : E) : BrokerBus * E * option error :=
  match bb_kind b with
  | RedisKind => RedisEventBus_Subscribe b e
  | NATSKind => NATSEventBus_Subscribe b e
  end.

(** ** Concurrent [Subscribe] and [Stop]

    A call of [Subscribe] is waiting for the confirmation, before the critical
    section, or past it on a stopped bus and about to end its subscription, as it
    also is after a failed confirmation. *)
Inductive sub_phase : Type :=
| SReceive (sub : nat)
| SRegister (sub : nat)
| SClose (sub : nat) (err : error).

Definition phase_sub (p : sub_phase) : nat :=
  match p with SReceive n | SRegister n | SClose n _ => n end.

Inductive bb_event : Type :=
| BInternal
| BSubscribed (sub : nat) (err : option error)
| BFailed (err : error)
| BStopped.

Record bb_sys := mkBS { bs_bus : BrokerBus; bs_env : E; bs_calls : list sub_phase }.

Inductive bb_step : bb_sys → bb_event → bb_sys → Prop :=
| bb_open b e e' cs n :
    br_Subscribe (bb_channel b) e = (e', Ok n) →
    bb_step (mkBS b e cs) BInternal
      (mkBS b e' (cs ++ [match bb_kind b with RedisKind => SReceive n | NATSKind => SRegister n end]))
| bb_open_err b e e' cs err :
    br_Subscribe (bb_channel b) e = (e', Err err) →
    bb_step (mkBS b e cs) (BFailed err) (mkBS b e' cs)
| bb_confirmed b e e' cs1 cs2 n :
    br_Receive n e = (e', None) →
    bb_step (mkBS b e (cs1 ++ SReceive n :: cs2)) BInternal
      (mkBS b e' (cs1 ++ SRegister n :: cs2))
| bb_unconfirmed b e e' cs1 cs2 n err :
    br_Receive n e = (e', Some err) →
    bb_step (mkBS b e (cs1 ++ SReceive n :: cs2)) BInternal
      (mkBS b e' (cs1 ++ SClose n err :: cs2))
| bb_registered b b' e cs1 cs2 n :
    bb_register n b = (b', true) →
    bb_step (mkBS b e (cs1 ++ SRegister n :: cs2)) (BSubscribed n None) (mkBS b' e (cs1 ++ cs2))
| bb_refused b b' e cs1 cs2 n :
    bb_register n b = (b', false) →
    bb_step (mkBS b e (cs1 ++ SRegister n :: cs2)) BInternal
      (mkBS b' e (cs1 ++ SClose n (bus_ErrStopped (bb_kind b)) :: cs2))
| bb_closed b e cs1 cs2 n err :
    bb_step (mkBS b e (cs1 ++ SClose n err :: cs2)) (BSubscribed n (Some err))
      (mkBS b (br_Close n e).1 (cs1 ++ cs2))
| bb_stop b e cs :
    bb_step (mkBS b e cs) BStopped (mkBS (bb_Stop b e).1 (bb_Stop b e).2 cs).

(** [Subscribe] run without interruption is one of the interleavings. *)
Lemma Subscribe_is_a_run b e b' e' err :
  bb_Subscribe b e = (b', e', err) →
  ∃ tr ev, trace bb_step (mkBS b e []) (tr ++ [ev]) (mkBS b' e' []) ∧
    match err with
    | None => ∃ n, ev = BSubscribed n None
    | Some x => (∃ n, ev = BSubscribed n (Some x)) ∨ ev = BFailed x
    end.
Proof.
  assert (∀ pre e1 n, trace bb_step (mkBS b e []) pre (mkBS b e1 [SRegister n]) →
    bb_finish n b e1 = (b', e', err) →
    ∃ tr ev, trace bb_step (mkBS b e []) (tr ++ [ev]) (mkBS b' e' []) ∧
      match err with
      | None => ∃ n, ev = BSubscribed n None
      | Some x => (∃ n, ev = BSubscribed n (Some x)) ∨ ev = BFailed x
      end) as Hfin.
  { intros pre e1 n Htr. unfold bb_finish. destruct (bb_register n b) as [b1 []] eqn:Hreg; intros [= <- <- <-].
    - exists pre, (BSubscribed n None). split; [|by eexists]. eapply trace_app; [exact Htr |].
      eapply trace_cons; [by apply (bb_registered b b1 e1 [] [] n) | apply trace_nil].
    - exists (pre ++ [BInternal]). eexists. split; [|left; by eexists]. rewrite <- app_assoc.
      eapply trace_app; [exact Htr |].
      eapply trace_cons; [by apply (bb_refused b b1 e1 [] [] n) |].
      eapply trace_cons; [apply (bb_closed b1 e1 [] []) | apply trace_nil]. }
  unfold bb_Subscribe, RedisEventBus_Subscribe, NATSEventBus_Subscribe.
  destruct (br_Subscribe (bb_channel b) e) as [e1 [n|x]] eqn:Hs.
  - pose proof (bb_open b e e1 [] n Hs) as Hopen.
    destruct (bb_kind b); simpl in Hopen.
    + destruct (br_Receive n e1) as [e2 [x|]] eqn:Hr.
      * intros [= <- <- <-]. exists [BInternal; BInternal]. eexists. split; [|left; by eexists]. simpl.
        eapply trace_cons; [exact Hopen |].
        eapply trace_cons; [by apply (bb_unconfirmed b e1 e2 [] [] n x) |].
        eapply trace_cons; [apply (bb_closed b e2 [] []) | apply trace_nil].
      * apply (Hfin [BInternal; BInternal]). eapply trace_cons; [exact Hopen |].
        eapply trace_cons; [by apply (bb_confirmed b e1 e2 [] [] n) | apply trace_nil].
    + apply (Hfin [BInternal]). eapply trace_cons; [exact Hopen | apply trace_nil].
  - assert (∀ k : bus_kind, (match k with RedisKind | NATSKind => (b, e1, Some x) end) = (b, e1, Some x))
      as Hk by by intros []. rewrite Hk. intros [= <- <- <-]. exists [], (BFailed x).
    split; [|by right]. eapply trace_cons; [by apply bb_open_err | apply trace_nil].
Qed.

(** ** The invariant: every live subscription of the bus is registered or belongs to
    a call in flight *)
Record bb_inv (e0 : E) (s : bb_sys) : Prop := {
  bi_live n : n ∈ br_live (bs_env s) → n ∈ br_live e0 ∨
    n ∈ bb_subs (bs_bus s) ∨ n ∈ phase_sub <$> bs_calls s;
  bi_registered n : n ∈ bb_subs (bs_bus s) → n ∈ br_live (bs_env s);
  bi_inflight n : n ∈ phase_sub <$> bs_calls s → n ∈ br_live (bs_env s);
  bi_nodup : NoDup (bb_subs (bs_bus s) ++ (phase_sub <$> bs_calls s));
  bi_stopped : bb_stopped (bs_bus s) = true → bb_subs (bs_bus s) = []
}.

Context {HEL : BrokerLaws E}.

Lemma close_all_live subs e :
  br_live (foldl (λ e sub, (br_Close sub e).1) e subs) = br_live e ∖ list_to_set subs.
Proof.
  revert e; induction subs as [|n subs IH]; intros e; simpl; [set_solver |].
  rewrite IH, br_Close_live. set_solver.
Qed.

(** A step that only renames the phase of a call. *)
Lemma bb_inv_phase e0 b e e' cs cs' :
  br_live e' = br_live e → (phase_sub <$> cs') = phase_sub <$> cs →
  bb_inv e0 (mkBS b e cs) → bb_inv e0 (mkBS b e' cs').
Proof.
  intros He Hp [H1 H2 H3 H4 H5]; simpl in *. split; simpl; rewrite ?He, ?Hp; done.
Qed.

Lemma bb_step_inv e0 s ev s' : bb_step s ev s' → bb_inv e0 s → bb_inv e0 s'.
Proof.
  intros Hstep Hinv. destruct Hstep as [b e e' cs n Ho|b e e' cs err Ho|b e e' cs1 cs2 n Hr
    |b e e' cs1 cs2 n err Hr|b b' e cs1 cs2 n Hr|b b' e cs1 cs2 n Hr|b e cs1 cs2 n err|b e cs].
  - destruct (br_Subscribe_ok _ _ _ _ Ho) as [Hn He'].
    destruct Hinv as [H1 H2 H3 H4 H5]; simpl in *.
    assert (∀ c, phase_sub (match c with RedisKind => SReceive n | NATSKind => SRegister n end) = n)
      as Hph by by intros [].
    split; simpl; rewrite ?He', ?fmap_app; simpl; rewrite ?Hph; [set_solver.. | | done].
    rewrite app_assoc. apply NoDup_app. split_and!; [done | set_solver | apply NoDup_singleton].
  - eapply bb_inv_phase, Hinv; [by eapply br_Subscribe_err | done].
  - eapply bb_inv_phase, Hinv; [|by rewrite !fmap_app]. by rewrite <- (br_Receive_live n e), Hr.
  - eapply bb_inv_phase, Hinv; [|by rewrite !fmap_app]. by rewrite <- (br_Receive_live n e), Hr.
  - unfold bb_register in Hr. destruct (bb_stopped b) eqn:Hs; [done |]. injection Hr as <-.
    destruct Hinv as [H1 H2 H3 H4 H5]; simpl in *. rewrite fmap_app in *. simpl in *.
    split; simpl; rewrite ?fmap_app; [set_solver.. | | done].
    rewrite <- app_assoc. simpl. by rewrite (Permutation_middle (phase_sub <$> cs1)).
  - unfold bb_register in Hr. destruct (bb_stopped b) eqn:Hs; [|done]. injection Hr as <-.
    eapply bb_inv_phase, Hinv; [done | by rewrite !fmap_app].
  - destruct Hinv as [H1 H2 H3 H4 H5]; simpl in *. rewrite fmap_app in *. simpl in *.
    rewrite <- (Permutation_middle (phase_sub <$> cs1)), <- Permutation_middle in H4.
    apply NoDup_cons in H4 as [H4n H4].
    split; simpl; rewrite ?br_Close_live, ?fmap_app; [set_solver.. | done | done].
  - destruct Hinv as [H1 H2 H3 H4 H5]; simpl in *. apply NoDup_app in H4 as (_ & Hd & Hn).
    split; simpl; rewrite ?close_all_live; [| set_solver | | done | done].
    + intros n [Hn1 Hn2]%elem_of_difference. rewrite elem_of_list_to_set in Hn2.
      naive_solver.
    + intros n Hin. apply elem_of_difference. split; [by apply H3 |].
      rewrite elem_of_list_to_set. intros Hs. by apply (Hd n).
Qed.

Lemma bb_inv_init e0 kind ch : bb_inv e0 (mkBS (brokerbus_New kind ch) e0 []).
Proof.
  split; simpl; try done; [by left | by intros n ?%not_elem_of_nil | by intros n ?%not_elem_of_nil |].
  constructor.
Qed.

(** The flag is set by [Stop] and never cleared; with it set no call succeeds. *)
Lemma stopped_step s ev s' :
  bb_step s ev s' → bb_stopped (bs_bus s) = true →
  bb_stopped (bs_bus s') = true ∧ ∀ n, ev ≠ BSubscribed n None.
Proof.
  intros Hstep Hs. destruct Hstep; simpl in *; try done;
    unfold bb_register in *; rewrite Hs in *; by simplify_eq.
Qed.

Lemma stopped_trace s tr s' :
  trace bb_step s tr s' → bb_stopped (bs_bus s) = true →
  bb_stopped (bs_bus s') = true ∧ ∀ n, BSubscribed n None ∉ tr.
Proof.
  induction 1 as [s|s ev s1 tr s2 Hstep _ IH]; intros Hs; [by split; [|intros n; apply not_elem_of_nil] |].
  destruct (stopped_step _ _ _ Hstep Hs) as [Hs1 Hev]. destruct (IH Hs1) as [? Htr]. split; [done |].
  intros n [Heq|?]%elem_of_cons; [by apply (Hev n) | by apply (Htr n)].
Qed.

(** Until [Stop], what was subscribed is registered. *)
Lemma subscribed_step s ev s' :
  bb_step s ev s' → ev ≠ BStopped →
  (∀ n, n ∈ bb_subs (bs_bus s) → n ∈ bb_subs (bs_bus s')) ∧
  (∀ n, ev = BSubscribed n None → n ∈ bb_subs (bs_bus s')).
Proof.
  intros Hstep Hne. destruct Hstep; simpl in *; try done;
    unfold bb_register in *; destruct (bb_stopped _); simplify_eq; simpl; try done.
  split; [intros; apply elem_of_app; by left |]. intros n' [= <-]. apply elem_of_app. right. by left.
Qed.

Lemma subscribed_trace s tr s' :
  trace bb_step s tr s' → BStopped ∉ tr →
  (∀ n, n ∈ bb_subs (bs_bus s) → n ∈ bb_subs (bs_bus s')) ∧
  (∀ n, BSubscribed n None ∈ tr → n ∈ bb_subs (bs_bus s')).
Proof.
  induction 1 as [s|s ev s1 tr s2 Hstep _ IH]; intros Hns;
    [split; [done | by intros n ?%not_elem_of_nil] |].
  apply not_elem_of_cons in Hns as [Hne Hns].
  destruct (subscribed_step _ _ _ Hstep (not_eq_sym Hne)) as [Hk Hn]. destruct (IH Hns) as [Hk2 Hn2].
  split; [eauto |]. intros n [Heq|?]%elem_of_cons; eauto.
Qed.

(** (C26) Shutdown is clean, for both buses and every interleaving of [Subscribe]
    and [Stop], also of calls that were waiting for the broker when [Stop] ran: once
    [Stop] has run and no call is in flight, the bus has no live subscription left;
    after [Stop] no [Subscribe] succeeds; and before it every subscription that was
    reported as successful is live. *)
Theorem broker_bus_shutdown (e0 : E) kind channel tr s :
  trace bb_step (mkBS (brokerbus_New kind channel) e0 []) tr s →
  (BStopped ∈ tr → bs_calls s = [] → br_live (bs_env s) ⊆ br_live e0) ∧
  (∀ tr1 tr2 n, tr = tr1 ++ BStopped :: tr2 → BSubscribed n None ∉ tr2) ∧
  (BStopped ∉ tr → ∀ n, BSubscribed n None ∈ tr → n ∈ br_live (bs_env s)).
Proof.
  intros Htr. pose proof (trace_inv _ _ (bb_step_inv e0) _ _ _ Htr (bb_inv_init e0 kind channel)) as Hinv.
  assert (∀ tr1 tr2, tr = tr1 ++ BStopped :: tr2 →
    bb_stopped (bs_bus s) = true ∧ ∀ n, BSubscribed n None ∉ tr2) as Hstop.
  { intros tr1 tr2 ->. apply trace_split in Htr as (s1 & _ & Htr).
    inversion Htr as [|? ? s2 ? ? Hs Hrest]; subst. eapply stopped_trace; [exact Hrest |].
    by inversion Hs; subst. }
  split_and!.
  - intros (tr1 & tr2 & Htr12)%list_elem_of_split Hc. destruct (Hstop _ _ Htr12) as [Hs _].
    intros n [?|[Hn|Hn]]%(bi_live _ _ Hinv); [done | |].
    + rewrite (bi_stopped _ _ Hinv Hs) in Hn. by apply not_elem_of_nil in Hn.
    + rewrite Hc in Hn. by apply not_elem_of_nil in Hn.
  - intros tr1 tr2 n Htr12. by apply (Hstop _ _ Htr12).
  - intros Hns n Hn. apply (bi_registered _ _ Hinv). by eapply subscribed_trace.
Qed.

End bus.

(** ** Publishing and receiving *)
Section codec.
Context {E : Type} {HE : Broker E} (zone : Z → Z).

Definition bb_Publish (event : TenantEvent) (b : BrokerBus) (e : E) : E * option error :=
  match json_Marshal zone event with
  | Err err => (e, Some err)
  | Ok data => br_Publish (bb_channel b) data e
  end.

Definition RedisEventBus_Publish (event : TenantEvent) (b : RedisEventBus) (e : E) := bb_Publish event b e.
Definition NATSEventBus_Publish (event : TenantEvent) (b : NATSEventBus) (e : E) := bb_Publish event b e.

End codec.

(** The two packages' [safeCall]: a panic of the handler is recovered (and logged). *)
Definition redis_safeCall {W} (handler : EventHandler W) (event : TenantEvent) : routine W :=
  routine_recover (handler event).
Definition nats_safeCall {W} (handler : EventHandler W) (event : TenantEvent) : routine W :=
  routine_recover (handler event).

(** What a subscription does with a message: the goroutine it starts, if any; a
    payload that does not decode is logged and skipped.  Redis does this in a loop over
    the subscription's channel, NATS in a callback. *)
Definition redis_on_message {W} (handler : EventHandler W) (payload : string) : list (routine W) :=
  match json_Unmarshal payload with
  | Err _ => []
  | Ok event => [redis_safeCall handler event]
  end.

Definition nats_on_message {W} (handler : EventHandler W) (payload : string) : list (routine W) :=
  match json_Unmarshal payload with
  | Err _ => []
  | Ok event => [nats_safeCall handler event]
  end.

(** The messages of a subscription in order, each handled in its own goroutine. *)
Definition on_messages {W} (kind : bus_kind) (handler : EventHandler W) (payloads : list string) :
    list (routine W) :=
  match kind with
  | RedisKind => payloads ≫= redis_on_message handler
  | NATSKind => payloads ≫= nats_on_message handler
  end.

(** A message is the payload an instance sent for an event, in its zone, or a payload
    that does not decode. *)
Definition message_of (item : option TenantEvent) (payload : string) : Prop :=
  match item with
  | Some event =>
      ∃ zone, Z.rem (zone (ev_Timestamp event)) 60 = 0%Z ∧ json_Marshal zone event = Ok payload
  | None => ∃ err, json_Unmarshal payload = Err err
  end.

(** The events among the messages, as they arrive. *)
Definition received (event : TenantEvent) : TenantEvent :=
  mkEvent (clean (ev_TenantID event)) (clean (ev_State event)) (ev_Timestamp event).

Definition arrivals (items : list (option TenantEvent)) : list TenantEvent :=
  received <$> omap (λ x, x) items.

(** Both strings are UTF-8. *)
Definition sendable (event : TenantEvent) : Prop :=
  valid_utf8 (bytes_of (ev_TenantID event)) ∧ valid_utf8 (bytes_of (ev_State event)).

Lemma received_sendable event : sendable event → received event = event.
Proof. destruct event. intros [H1%clean_iff H2%clean_iff]. unfold received. simpl in *. by rewrite H1, H2. Qed.

Lemma on_messages_arrivals {W} kind (handler : EventHandler W) items payloads :
  Forall2 message_of items payloads →
  on_messages kind handler payloads = (λ event, routine_recover (handler event)) <$> arrivals items.
Proof.
  intros Hm. destruct kind; (induction Hm as [|item p items payloads Hp _ IH]; [done |]);
    unfold on_messages, redis_on_message, nats_on_message in *; cbn [mbind list_bind]; rewrite IH;
    (destruct item as [event|]; simpl in Hp; [|by destruct Hp as [err ->]]);
    destruct Hp as (zone & Hz & Hm'); by rewrite (Unmarshal_Marshal _ _ _ Hz Hm').
Qed.

(** Remote handlers see the events that were published.  A subscription that
    receives the payloads [Publish] sent for some events, each from a writer in any zone
    of whole minutes, mixed with payloads that do not decode, starts one goroutine per
    event, also beside handlers that panic; they can always run to the end, and when
    they have, however their accesses interleaved, the handler has made exactly one
    complete run on each event.  The event it gets has the timestamp of the one published,
    and is that event whenever its strings are UTF-8. *)
Theorem broker_delivers_published_events {W} kind (handler : EventHandler W) items payloads w :
  Forall2 message_of items payloads →
  (∃ tr w' ts, trace pool_step (w, on_messages kind handler payloads) tr (w', ts) ∧ pool_done ts) ∧
  (∀ tr w' ts, trace pool_step (w, on_messages kind handler payloads) tr (w', ts) → pool_done ts →
     (∀ i event, arrivals items !! i = Some event → ∃ o, execution (handler event) (found_by i tr) o) ∧
     ∀ a, a ∈ tr → is_Some (arrivals items !! a.1)) ∧
  (∀ event, ev_Timestamp (received event) = ev_Timestamp event ∧
     (sendable event → received event = event)).
Proof.
  intros Hm. rewrite (on_messages_arrivals kind handler _ _ Hm). split_and!.
  - destruct (pool_runs_in_order handler (arrivals items) w) as (tr & ts & Htr & Hd). eauto.
  - intros tr w' ts Htr Hd. destruct (pool_length _ _ _ _ _ Htr) as [Hlen Hin]. rewrite length_fmap in *.
    split; [|intros a Ha%Hin; by apply lookup_lt_is_Some_2].
    intros i event Hi. destruct (lookup_lt_is_Some_2 ts i) as [t Ht].
    { rewrite Hlen. by eapply lookup_lt_Some. }
    pose proof (Forall_lookup_1 _ _ _ _ Hd Ht) as ->.
    apply (recover_execution _ _ (Ret tt)). eapply pool_execution; [exact Htr | | exact Ht].
    apply list_lookup_fmap_Some. by exists event.
  - intros event. split; [done | apply received_sendable].
Qed.



(** ** Concrete runs

    A broker that is the set of its live subscriptions and always answers. *)
Abbreviation setBroker := (gset nat).

#[global] Instance setBroker_Broker : Broker setBroker := {
  br_Subscribe ch e := ({[fresh e]} ∪ e, Ok (fresh e));
  br_Receive n e := (e, None);
  br_Close n e := (e ∖ {[n]}, None);
  br_Publish ch data e := (e, None);
  br_live e := e
}.

#[global] Instance setBroker_Laws : BrokerLaws setBroker.
Proof.
  split; simpl; try done. intros ch e e' n [= <- <-]. split; [apply is_fresh | done].
Qed.

(** A [Subscribe] waits for its confirmation while [Stop] runs. *)
Lemma late_subscribe :
  ∃ n, trace bb_step (mkBS (brokerbus_New RedisKind "events") (∅ : setBroker) [])
    [BInternal; BStopped; BInternal; BInternal;
     BSubscribed n (Some redis_ErrStopped)]
    (mkBS (mkBB RedisKind "events" [] true) (({[n]} ∪ ∅) ∖ {[n]} : setBroker) []).
Proof.
  exists (fresh (∅ : setBroker)).
  eapply trace_cons; [by eapply bb_open |]. simpl.
  eapply trace_cons; [apply bb_stop |]. simpl.
  eapply trace_cons; [by eapply (bb_confirmed _ _ _ [] []) |]. simpl.
  eapply trace_cons; [by eapply (bb_refused _ _ _ [] []) |]. simpl.
  eapply trace_cons; [eapply (bb_closed _ _ [] []) |]. apply trace_nil.
Qed.

Lemma broker_bus_shutdown_witness :
  ∃ n, br_live (({[n]} ∪ ∅) ∖ {[n]} : setBroker) ⊆ br_live (∅ : setBroker).
Proof.
  destruct late_subscribe as [n Htr]. exists n.
  apply (broker_bus_shutdown (∅ : setBroker) RedisKind "events" _ _ Htr).
  - right. left.
  - reflexivity.
Defined.




