(* ===== verification/Config.v ===== *)
(** * Commands cmd/server (configuration) and cmd/healthcheck

    The process environment is a map; a variable that is absent is different from
    one that is present and empty.  [fmt_q], the [%q] verb, only shapes the text of
    error messages and is a parameter. *)
From S2P Require Import Prelude GoStrings GoLib Tenant.
Set Default Goal Selector "!".

Definition environ : Type := gmap string string.

Definition os_LookupEnv (env : environ) (k : string) : option string := env !! k.

(** [os.Getenv]: empty when absent. *)
Definition os_Getenv (env : environ) (k : string) : string := default "" (env !! k).

Definition defaultPort : Z := 8080.
Definition defaultTenantBaseDomain : string := "localhost".
Definition defaultCacheTTLSeconds : Z := 10.
Definition defaultLogFormat : string := "text".

Definition time_Second : Z := 1000000000.

Record serverConfig := mkConfig {
  cfg_port : Z;
  cfg_tenantBaseDomain : string;
  cfg_cacheTTL : Z;
  cfg_logFormat : string
}.

Section config.
Context (fmt_q : string → string).

Definition parsePort (env : environ) : result Z :=
  match os_LookupEnv env "PORT" with
  | None => Ok defaultPort
  | Some raw =>
      let bad := Err (errorf ("invalid PORT: " +:+ fmt_q raw +:+
                              " (must be an integer between 1 and 65535)")) in
      match strconv_Atoi raw with
      | None => bad
      | Some port => if ((port <? 1) || (65535 <? port))%Z then bad else Ok port
      end
  end.

Definition parseTenantBaseDomain (env : environ) : result string :=
  match os_LookupEnv env "TENANT_BASE_DOMAIN" with
  | None => Ok defaultTenantBaseDomain
  | Some raw =>
      if decide (raw = "") then Err (errorf "invalid TENANT_BASE_DOMAIN: must not be empty")
      else Ok raw
  end.

Definition parseCacheTTLSeconds (env : environ) : result Z :=
  match os_LookupEnv env "CACHE_TTL_SECONDS" with
  | None => Ok defaultCacheTTLSeconds
  | Some raw =>
      let bad := Err (errorf ("invalid CACHE_TTL_SECONDS: " +:+ fmt_q raw +:+
                              " (must be a positive integer)")) in
      match strconv_Atoi raw with
      | None => bad
      | Some seconds => if (seconds <=? 0)%Z then bad else Ok seconds
      end
  end.

Definition parseLogFormat (env : environ) : result string :=
  match os_LookupEnv env "LOG_FORMAT" with
  | None => Ok defaultLogFormat
  | Some raw =>
      if decide (raw ≠ "text" ∧ raw ≠ "json")
      then Err (errorf ("invalid LOG_FORMAT: " +:+ fmt_q raw +:+ " (must be " +:+ fmt_q "text" +:+
                        " or " +:+ fmt_q "json" +:+ ")"))
      else Ok raw
  end.

(** [time.Duration(ttlSeconds) * time.Second] is a 64-bit product. *)
Definition loadServerConfig (env : environ) : result serverConfig :=
  match parsePort env with
  | Err e => Err e
  | Ok port =>
      match parseTenantBaseDomain env with
      | Err e => Err e
      | Ok domain =>
          match parseCacheTTLSeconds env with
          | Err e => Err e
          | Ok ttlSeconds =>
              match parseLogFormat env with
              | Err e => Err e
              | Ok logFormat =>
                  Ok (mkConfig port domain (wrap64 (ttlSeconds * time_Second)) logFormat)
              end
          end
      end
  end.

(** [fmt.Sprintf(":%d", cfg.port)]. *)
Definition server_addr (cfg : serverConfig) : string := ":" +:+ fmt_d (cfg_port cfg).

(** ** cmd/healthcheck *)

(** The constants of the command; its default port is a constant of its own. *)
Definition healthcheck_defaultPort : Z := 8080.
Definition requestTimeout : Z := 3 * time_Second.

Definition healthcheck_port (env : environ) : Z :=
  let raw := os_Getenv env "PORT" in
  if decide (raw = "") then healthcheck_defaultPort
  else match strconv_Atoi raw with Some parsed => parsed | None => healthcheck_defaultPort end.

Definition healthcheck_url (env : environ) : string :=
  "http://127.0.0.1:" +:+ fmt_d (healthcheck_port env) +:+ "/healthz".

(** The exit code, for what the HTTP client's GET of a URL returns. *)
Definition healthcheck_main (get : string → result Z) (env : environ) : Z :=
  match get (healthcheck_url env) with
  | Err _ => 1
  | Ok status => if decide (status = StatusOK) then 0 else 1
  end.

(** ** Which settings are valid *)
Definition setting_ok (env : environ) (k : string) (P : string → Prop) : Prop :=
  ∀ raw, env !! k = Some raw → P raw.

Definition valid_port (raw : string) : Prop :=
  ∃ n, strconv_Atoi raw = Some n ∧ (1 ≤ n ≤ 65535)%Z.
Definition valid_ttl (raw : string) : Prop := ∃ n, strconv_Atoi raw = Some n ∧ (1 ≤ n)%Z.

Definition valid_env (env : environ) : Prop :=
  setting_ok env "PORT" valid_port ∧
  setting_ok env "TENANT_BASE_DOMAIN" (λ raw, raw ≠ "") ∧
  setting_ok env "CACHE_TTL_SECONDS" valid_ttl ∧
  setting_ok env "LOG_FORMAT" (λ raw, raw = "text" ∨ raw = "json").

(** The number of seconds in force. *)
Definition ttl_seconds (env : environ) : Z :=
  match env !! "CACHE_TTL_SECONDS" with
  | None => defaultCacheTTLSeconds
  | Some raw => default 0%Z (strconv_Atoi raw)
  end.

Lemma parsePort_spec env :
  match parsePort env with
  | Ok port => setting_ok env "PORT" valid_port ∧ (1 ≤ port ≤ 65535)%Z ∧ healthcheck_port env = port
  | Err _ => ¬ setting_ok env "PORT" valid_port
  end.
Proof.
  unfold parsePort, healthcheck_port, os_LookupEnv, os_Getenv, setting_ok, valid_port.
  destruct (env !! "PORT") as [raw|]; simpl; [|split; [done | split; [unfold defaultPort; lia | done]]].
  destruct (decide (raw = "")) as [->|Hne]; simpl; [by intros H; destruct (H "" eq_refl) as (? & ? & _) |].
  destruct (strconv_Atoi raw) as [port|] eqn:Ha.
  - destruct (Z.ltb_spec port 1), (Z.ltb_spec 65535 port); simpl.
    4:{ split; [|split; [lia | done]]. intros raw' [= <-]. exists port. split; [done | lia]. }
    all: intros Hv; destruct (Hv raw eq_refl) as (? & ? & ?); simplify_eq; lia.
  - intros H. by destruct (H raw eq_refl) as (? & ? & _); simplify_eq.
Qed.

Lemma parseTTL_spec env :
  match parseCacheTTLSeconds env with
  | Ok s => setting_ok env "CACHE_TTL_SECONDS" valid_ttl ∧ (1 ≤ s)%Z ∧ ttl_seconds env = s
  | Err _ => ¬ setting_ok env "CACHE_TTL_SECONDS" valid_ttl
  end.
Proof.
  unfold parseCacheTTLSeconds, ttl_seconds, os_LookupEnv, setting_ok, valid_ttl.
  destruct (env !! "CACHE_TTL_SECONDS") as [raw|]; simpl; [|done].
  destruct (strconv_Atoi raw) as [s|] eqn:Ha; simpl.
  - destruct (Z.leb_spec s 0); simpl.
    + intros Hv. destruct (Hv raw eq_refl) as (? & ? & ?). simplify_eq. lia.
    + split; [|split; [lia | done]]. intros raw' [= <-]. exists s. split; [done | lia].
  - intros Hv. by destruct (Hv raw eq_refl) as (? & ? & _); simplify_eq.
Qed.

(** (C37) Configuration is all or nothing: the server gets a configuration exactly
    when every variable is absent or valid, and then the port is between 1 and
    65535, the base domain is not empty, the log format is one of the two, and the
    TTL is the requested number of seconds (positive) as a [time.Duration]. *)
Theorem config_accepts_exactly_valid env :
  match loadServerConfig env with
  | Ok cfg => valid_env env ∧ (1 ≤ cfg_port cfg ≤ 65535)%Z ∧ cfg_tenantBaseDomain cfg ≠ "" ∧
      (cfg_logFormat cfg = "text" ∨ cfg_logFormat cfg = "json") ∧
      (1 ≤ ttl_seconds env)%Z ∧ cfg_cacheTTL cfg = wrap64 (ttl_seconds env * time_Second)
  | Err _ => ¬ valid_env env
  end.
Proof.
  unfold loadServerConfig. pose proof (parsePort_spec env) as Hp. pose proof (parseTTL_spec env) as Ht.
  destruct (parsePort env) as [port|e]; [|by intros (? & _)].
  destruct (parseTenantBaseDomain env) as [dom|e] eqn:Hd.
  2:{ intros (_ & H & _). unfold parseTenantBaseDomain, os_LookupEnv in Hd.
      destruct (env !! "TENANT_BASE_DOMAIN") eqn:E; [|done]. case_decide; [|done]. by apply (H _ E). }
  destruct (parseCacheTTLSeconds env) as [ttl|e]; [|by intros (_ & _ & ? & _)].
  destruct (parseLogFormat env) as [lf|e] eqn:Hl.
  2:{ intros (_ & _ & _ & H). unfold parseLogFormat, os_LookupEnv in Hl.
      destruct (env !! "LOG_FORMAT") eqn:E; [|done]. case_decide; [|done]. destruct (H _ E); naive_solver. }
  destruct Hp as (Hp & ? & _), Ht as (Ht & ? & ->). simpl.
  assert (setting_ok env "TENANT_BASE_DOMAIN" (λ raw, raw ≠ "") ∧ dom ≠ "") as [??].
  { unfold parseTenantBaseDomain, os_LookupEnv, setting_ok in *.
    destruct (env !! "TENANT_BASE_DOMAIN"); [case_decide; [done |] |]; simplify_eq; naive_solver. }
  assert (setting_ok env "LOG_FORMAT" (λ raw, raw = "text" ∨ raw = "json") ∧
    (lf = "text" ∨ lf = "json")) as [??].
  { unfold parseLogFormat, os_LookupEnv, setting_ok in *.
    destruct (env !! "LOG_FORMAT") as [raw|]; [case_decide as Hdec; [done |] |]; simplify_eq; [|naive_solver].
    destruct (decide (lf = "text")), (decide (lf = "json")); naive_solver. }
  unfold valid_env. split_and!; try done; lia.
Qed.

(** (C40) The TTL is exact up to 9223372036 seconds and wrong beyond: a larger value,
    which the parser accepts, overflows the 64-bit duration, and the cache runs with
    some other TTL (negative for 9223372037, so nothing is ever cached). *)
Theorem cache_ttl_exact_iff_small env cfg :
  loadServerConfig env = Ok cfg →
  (cfg_cacheTTL cfg = (ttl_seconds env * time_Second)%Z ↔ (ttl_seconds env ≤ 9223372036)%Z) ∧
  (ttl_seconds env = 9223372037%Z → (cfg_cacheTTL cfg < 0)%Z).
Proof.
  intros E. unfold loadServerConfig in E. pose proof (parseTTL_spec env) as Ht.
  destruct (parsePort env); [|done]. destruct (parseTenantBaseDomain env); [|done].
  destruct (parseCacheTTLSeconds env) as [s|]; [|done]. destruct (parseLogFormat env); [|done].
  injection E as <-. simpl. destruct Ht as (_ & Hs & ->). unfold time_Second. split.
  - split.
    + intros Heq. pose proof (wrap64_range (s * 1000000000)) as Hr. rewrite Heq in Hr.
      unfold int64_range, max_int64 in Hr. lia.
    + intros Hle. apply wrap64_id. unfold int64_range, min_int64, max_int64. lia.
  - intros ->. by vm_compute.
Qed.

(** The health check asks on the very port the server listens on. *)
Lemma healthcheck_url_addr env cfg :
  loadServerConfig env = Ok cfg →
  healthcheck_port env = cfg_port cfg ∧ (1 ≤ cfg_port cfg ≤ 65535)%Z.
Proof.
  intros E. unfold loadServerConfig in E. pose proof (parsePort_spec env) as Hp.
  destruct (parsePort env) as [port|]; [|done]. destruct (parseTenantBaseDomain env); [|done].
  destruct (parseCacheTTLSeconds env); [|done]. destruct (parseLogFormat env); [|done].
  injection E as <-. destruct Hp as (_ & ? & ?). done.
Qed.

End config.

(** ** Concrete environments *)
Definition demo_env : environ := {["PORT" := "9090"; "LOG_FORMAT" := "json"]}.
Definition huge_env : environ := {["CACHE_TTL_SECONDS" := "9223372037"]}.

Lemma cache_ttl_exact_iff_small_witness :
  ∃ cfg, loadServerConfig (λ s, s) huge_env = Ok cfg ∧ (cfg_cacheTTL cfg < 0)%Z.
Proof.
  eexists. split; [vm_compute; reflexivity |].
  apply (cache_ttl_exact_iff_small (λ s, s) huge_env); vm_compute; reflexivity.
Defined.
