(* ===== verification/Site.v ===== *)
(** * A site: tenants created at startup, behind the cache, the resolver and [Wrap]

    The pipeline that cmd/server and the programs under loadtest/ assemble from the
    library's parts, for any tenants created at startup and any application behind the
    middleware.  [site_ok] is what holds of such a program while it serves requests;
    [site_wrap] says how it answers one. *)
From S2P Require Import Prelude GoStrings GoLib Tenant MemoryStore Resolver TenantCtx CachedStore.
From S2P Require Import Middleware.
Set Default Goal Selector "!".

(** The program's state, with application state [A] beside the manager. *)
Abbreviation site A := (app SubdomainResolver (CachedStore MemoryStore) A).

(** [memStore.Create(ctx, &tenant.Tenant{...})] of an active tenant, its error
    discarded; [None] is a struct literal without [Roles]. *)
Definition seed_tenant (id : TenantID) (roles : option (list Role)) : GoM (MemoryStore * world) unit :=
  λ sw,
  let '(ms, w) := sw in
  let '(sl, h) :=
    match roles with
    | None => (None, w_heap w)
    | Some rs => let '(sl, h) := heap_alloc_roles rs (w_heap w) in (Some sl, h)
    end in
  let '(l, h) := heap_alloc (mkTenant id Active sl) h in
  let '(sw', o) := MemoryStore_Create Background (Some l) (ms, set_heap h w) in
  (sw', match o with Ret _ => Ret tt | Panic msg => Panic msg end).

(** [w.Header().Set("Content-Type", "application/json")] and one JSON value. *)
Definition json_response (j : json) (w : ResponseWriter) : ResponseWriter :=
  Write (JSON j) (Header_Set "Content-Type" "application/json" w).

Definition status_json (s : string) : json := JObject [("status", JString s)].

(** A pattern with method GET serves GET and HEAD. *)
Definition is_get (r : Request) : bool :=
  bool_decide (r_Method r = "GET") || bool_decide (r_Method r = "HEAD").

Lemma match_get r : match_method (Some "GET") (r_Method r) = is_get r.
Proof.
  unfold match_method, is_get. rewrite (bool_decide_true ("GET" = "GET")) by done. simpl.
  f_equal. by apply bool_decide_ext.
Qed.

(** Requests served one after the other, with their responses. *)
Fixpoint serve_all {S} (h : Handler S) (rs : list Request) : GoM S (list ResponseWriter) :=
  match rs with
  | [] => mret []
  | r :: rs => w ← h rw_new r; ws ← serve_all h rs; mret (w :: ws)
  end.

(** If one request is answered by a function of it under an invariant, so is every
    sequence. *)
Lemma serve_all_answers {S} (h : Handler S) (inv : S → Prop) (answer : Request → ResponseWriter) rs s :
  (∀ s r, inv s → ∃ s', h rw_new r s = (s', Ret (answer r)) ∧ inv s') → inv s →
  ∃ s', serve_all h rs s = (s', Ret (answer <$> rs)) ∧ inv s'.
Proof.
  intros Hh. revert s; induction rs as [|r rs IH]; intros s Hs; [by exists s |].
  destruct (Hh s r Hs) as (s1 & E1 & Hs1). destruct (IH s1 Hs1) as (s2 & E2 & Hs2).
  exists s2. split; [|done]. simpl. unfold mbind, GoM_bind. by rewrite E1, E2.
Qed.

(** ** The invariant

    [value] has the tenants created at startup, [arrs] their role arrays and [a] the
    application's state. *)
Record site_ok {A} (value : TenantID → option Tenant) (arrs : list (list Role)) (domain : string)
    (a : A) (cs : CachedStore MemoryStore) (s : site A) : Prop := {
  so_manager : s.1 = (managed (NewSubdomainResolver domain) cs, a);
  so_wf : ms_wf (cs_source cs) (w_heap s.2);
  so_view id : ms_view (cs_source cs) (w_heap s.2) !! id = value id;
  so_cache id e : cs_cache cs !! id = Some e →
    ∃ l t, ce_tenant e = Some l ∧ heap_load (w_heap s.2) l = Some t ∧ value id = Some t;
  so_arrays : arrays (w_heap s.2) = arrs
}.

Section proofs.
Context {SF : Singleflight} {SFL : SingleflightLaw}.
Context {A : Type} (value : TenantID → option Tenant) (arrs : list (list Role)) (domain : string).
Context (Hvalue : ∀ id t, value id = Some t → Tenant_ID t = id).

(** [Get] through the cache answers the tenant created at startup, or that there is
    none. *)
Lemma site_Get (a : A) cs m w ctx id :
  site_ok value arrs domain a cs (m, w) →
  ∃ cs' w', CachedStore_Get ctx id (cs, w) =
      ((cs', w'), Ret match value id with
                      | None => Err ErrTenantNotFound
                      | Some _ => Ok (ce_tenant (default (mkEntry None 0) (cs_cache cs' !! id)))
                      end) ∧
    site_ok value arrs domain a cs' ((managed (NewSubdomainResolver domain) cs', a), w') ∧
    (is_Some (value id) → is_Some (cs_cache cs' !! id)).
Proof using SFL.
  intros [Hm Hwf Hv Hc Ha]; simpl in *.
  destruct (cs_hit_or_miss cs id w) as [(e & He & Hlt)|(w0 & Hmiss & Hext & Hh)].
  - rewrite (cached_Get_hit _ _ _ _ _ He Hlt). destruct (Hc _ _ He) as (l & t & ? & ? & Hs).
    exists cs, (tick w). rewrite Hs, He. split_and!; [done | by split | done].
  - rewrite (cached_Get_miss _ _ _ _ _ Hmiss). simpl.
    rewrite <- Hh in *. rewrite (Get_eq _ _ _ Hwf), Hv.
    destruct (value id) as [t|] eqn:Hs.
    + eexists (mkCachedStore _ _ (<[id := mkEntry (Some _) _]> (cs_cache cs))), _.
      cbn [cs_cache]. rewrite lookup_insert_eq. split; [reflexivity |]. split; [|by eexists].
      split; cbn [fst snd cs_source cs_cache w_heap w_clock w_pos set_heap tick];
        [done | by apply ms_wf_alloc | | | done].
      * intros id'. rewrite view_alloc by done. apply Hv.
      * intros id' e'. rewrite lookup_insert. case_decide as Hid; intros He'.
        -- injection He' as <-. subst id'. eexists _, t. cbn [ce_tenant].
           split_and!; [reflexivity | apply heap_alloc_load | done].
        -- destruct (Hc _ _ He') as (l & t' & ? & ? & ?). exists l, t'. eauto using heap_alloc_load_old.
    + eexists _, _. simpl. split; [reflexivity |]. split; [by split | by intros [? ?]].
Qed.

Lemma site_store_inv (a : A) cs s :
  site_ok value arrs domain a cs s → store_inv cs (w_heap s.2).
Proof using Hvalue.
  intros [_ Hwf _ Hc _]. split; [exact Hwf |]. intros id e He.
  destruct (Hc _ _ He) as (l & t & ? & ? & Hs). exists l, t. split_and!; [done | done |]. by apply Hvalue.
Qed.

Lemma site_resolve (a : A) cs s r :
  site_ok value arrs domain a cs s →
  ∃ cs' s' res, resolve r s = (s', Ret res) ∧ site_ok value arrs domain a cs' s' ∧
    match SubdomainResolver_Resolve (NewSubdomainResolver domain) r with
    | Err e => res = Err e
    | Ok id =>
        match value id with
        | None => res = Err ErrTenantNotFound
        | Some t => ∃ l, res = Ok (Some l) ∧ heap_load (w_heap s'.2) l = Some t
        end
    end.
Proof using SFL Hvalue.
  intros Hok. pose proof (site_store_inv _ _ _ Hok) as Hi.
  destruct s as [m w]. pose proof (so_manager _ _ _ _ _ _ Hok) as Hm. simpl in Hm. subst m.
  destruct (resolve_cases (NewSubdomainResolver domain) cs a w r Hi)
    as (cs1 & w1 & res & E & _ & _ & Hres).
  destruct (SubdomainResolver_Resolve (NewSubdomainResolver domain) r) as [id|e].
  - destruct (site_Get _ _ _ _ (r_ctx r) id Hok) as (cs' & w' & Eg & Hok' & Hsome).
    simpl in Hres. rewrite Eg in Hres. injection Hres as <- <- <-.
    eexists _, _, _. split; [exact E |]. split; [exact Hok' |].
    destruct (value id) as [t|] eqn:Hs; [|done].
    destruct (Hsome ltac:(by eexists)) as [e He]. rewrite He. simpl.
    destruct (so_cache _ _ _ _ _ _ Hok' _ _ He) as (l & t' & -> & Hl & Ht'). exists l.
    split; [done |]. simpl in Hl. congruence.
  - destruct Hres as (-> & -> & ->). eauto 10.
Qed.

(** The answer of the routes behind the middleware: by the tenant of the host, or 404
    when there is none. *)
Definition site_answer (answer : TenantID → Tenant → Request → ResponseWriter) (r : Request) :
    ResponseWriter :=
  match SubdomainResolver_Resolve (NewSubdomainResolver domain) r with
  | Err _ => http_Error "tenant not found" StatusNotFound rw_new
  | Ok id =>
      match value id with
      | None => http_Error "tenant not found" StatusNotFound rw_new
      | Some t => answer id t r
      end
  end.

Lemma site_wrap (next : Handler (site A)) answer (a : A) cs s r :
  site_ok value arrs domain a cs s →
  (∀ cs' s' id t l ctx, site_ok value arrs domain a cs' s' →
     FromContext (Some ctx) = Some l → heap_load (w_heap s'.2) l = Some t → value id = Some t →
     next rw_new (Request_WithContext r ctx) s' = (s', Ret (answer id t r))) →
  ∃ cs' s', Wrap next rw_new r s = (s', Ret (site_answer answer r)) ∧
    site_ok value arrs domain a cs' s'.
Proof using SFL Hvalue.
  intros Hok Hnext. destruct (site_resolve _ _ _ r Hok) as (cs' & s' & res & E & Hok' & Hres).
  exists cs', s'. split; [|done]. unfold Wrap, site_answer, mbind, GoM_bind. rewrite E.
  destruct (SubdomainResolver_Resolve (NewSubdomainResolver domain) r) as [id|e]; [|by subst].
  destruct (value id) as [t|] eqn:Hs; [|by subst].
  destruct Hres as (l & -> & Hl). unfold with_tenant. rewrite WithTenant_Some.
  unfold mret, GoM_ret. rewrite (Hnext cs' s' id t l); [done.. |]. done.
Qed.

End proofs.
