(* ===== verification/SiteRequests.v ===== *)
(** * Requests that overlap, for any program built on the pipeline of [Site]

    net/http serves each request on a goroutine of its own.  Here the serving of a request
    is cut at its accesses of shared state: what the routes outside the middleware read,
    and the steps of [CachedStore.Get], which are those of [CacheFlights], with its clock,
    its cache, its flights and the store behind it.  Any number of requests interleave.
    Handlers behind the middleware only read, from a struct nobody writes and from the
    application's state, and run in one step.  A program ([program]) is given by its
    routes; [program_ok] says how its handlers answer when nothing else runs, and what is
    proved from it is that they answer the same when requests overlap.  cmd/server and the
    load-test servers are instances. *)
From S2P Require Import Prelude GoStrings GoLib Tenant MemoryStore Resolver TenantCtx CachedStore.
From S2P Require Import CacheFlights Middleware Site.
Set Default Goal Selector "!".

(** The routes outside the middleware, the handler behind it, and the writes of the
    application's state that are not made by requests. *)
Record program (A U : Type) := mkProgram {
  pg_front : list (route (site A));
  pg_next : Handler (site A);
  pg_write : U → GoM (site A) unit
}.
Arguments mkProgram {A U}.
Arguments pg_front {A U}.
Arguments pg_next {A U}.
Arguments pg_write {A U}.

(** Where the serving of a request is: accepted, or inside [Manager.Resolve], in call [n]
    of [CachedStore.Get]. *)
Inductive req_phase : Type :=
| RNew
| RGet (n : nat).

(** [v_accepted] and [v_answered] record all requests and responses. *)
Record vsys (A : Type) := mkV {
  v_cf : cf_sys;
  v_resolver : SubdomainResolver;
  v_app : A;
  v_reqs : list (Request * req_phase);
  v_accepted : list Request;
  v_answered : list (Request * ResponseWriter)
}.
Arguments mkV {A}.
Arguments v_cf {A}.
Arguments v_resolver {A}.
Arguments v_app {A}.
Arguments v_reqs {A}.
Arguments v_accepted {A}.
Arguments v_answered {A}.

Inductive v_event (U : Type) : Type :=
| VAccept (r : Request)
| VAnswer (r : Request) (w : ResponseWriter)
| VTau
| VWrite (u : U).
Arguments VAccept {U}.
Arguments VAnswer {U}.
Arguments VTau {U}.
Arguments VWrite {U}.

(** The state the handlers of [Site] run in. *)
Definition site_at {A} (sr : SubdomainResolver) (a : A) (cs : CachedStore MemoryStore) (w : world) : site A :=
  ((managed sr cs, a), w).

Definition tenant_not_found : ResponseWriter := http_Error "tenant not found" StatusNotFound rw_new.

Inductive v_step {A U} (pg : program A U) : vsys A → v_event U → vsys A → Prop :=
| v_accept cf sr a qs ac an r :
    v_step pg (mkV cf sr a qs ac an) (VAccept r) (mkV cf sr a (qs ++ [(r, RNew)]) (ac ++ [r]) an)
| v_front cs w C calls fls sr a qs1 r qs2 ac an vals h cs' a' w' rw :
    mux_find (pg_front pg) (r_Method r) (r_path r) = Some (vals, h) →
    h vals rw_new r (site_at sr a cs w) = (site_at sr a' cs' w', Ret rw) →
    v_step pg (mkV (mkCF (mkCSys cs w C) calls fls) sr a (qs1 ++ (r, RNew) :: qs2) ac an) (VAnswer r rw)
      (mkV (mkCF (mkCSys cs' w' C) calls fls) sr a' (qs1 ++ qs2) ac (an ++ [(r, rw)]))
| v_reject cf sr a qs1 r qs2 ac an e :
    mux_find (pg_front pg) (r_Method r) (r_path r) = None →
    SubdomainResolver_Resolve sr r = Err e →
    v_step pg (mkV cf sr a (qs1 ++ (r, RNew) :: qs2) ac an) (VAnswer r tenant_not_found)
      (mkV cf sr a (qs1 ++ qs2) ac (an ++ [(r, tenant_not_found)]))
| v_get cf cf' sr a qs1 r qs2 ac an id :
    mux_find (pg_front pg) (r_Method r) (r_path r) = None →
    SubdomainResolver_Resolve sr r = Ok id →
    cf_step cf (CFCall id) cf' →
    v_step pg (mkV cf sr a (qs1 ++ (r, RNew) :: qs2) ac an) VTau
      (mkV cf' sr a (qs1 ++ (r, RGet (length (cf_calls cf))) :: qs2) ac an)
| v_cache cf cf' sr a qs ac an :
    cf_step cf CFStep cf' →
    v_step pg (mkV cf sr a qs ac an) VTau (mkV cf' sr a qs ac an)
| v_missing cf sr a qs1 r n qs2 ac an id e :
    cf_calls cf !! n = Some (GRet id (Err e)) →
    v_step pg (mkV cf sr a (qs1 ++ (r, RGet n) :: qs2) ac an) (VAnswer r tenant_not_found)
      (mkV cf sr a (qs1 ++ qs2) ac (an ++ [(r, tenant_not_found)]))
| v_serve cs w C calls fls sr a qs1 r n qs2 ac an id t ctx cs' a' w' rw :
    calls !! n = Some (GRet id (Ok t)) →
    WithTenant (Some (r_ctx r)) t = Ret ctx →
    pg_next pg rw_new (Request_WithContext r ctx) (site_at sr a cs w) = (site_at sr a' cs' w', Ret rw) →
    v_step pg (mkV (mkCF (mkCSys cs w C) calls fls) sr a (qs1 ++ (r, RGet n) :: qs2) ac an) (VAnswer r rw)
      (mkV (mkCF (mkCSys cs' w' C) calls fls) sr a' (qs1 ++ qs2) ac (an ++ [(r, rw)]))
| v_write cs w C calls fls sr a qs ac an u cs' a' w' :
    pg_write pg u (site_at sr a cs w) = (site_at sr a' cs' w', Ret tt) →
    v_step pg (mkV (mkCF (mkCSys cs w C) calls fls) sr a qs ac an) (VWrite u)
      (mkV (mkCF (mkCSys cs' w' C) calls fls) sr a' qs ac an).

(** A step of the serving itself: nothing is accepted and the application's state is
    written by requests alone. *)
Definition v_internal {A U} (pg : program A U) (v : vsys A) (ev : v_event U) (v' : vsys A) : Prop :=
  v_step pg v ev v' ∧ match ev with VTau | VAnswer _ _ => True | _ => False end.

(** A program that has just started; [New] has checked that its manager has a resolver and
    a store. *)
Definition v_start {A} (s : site A) : vsys A :=
  mkV (mkCF (mkCSys (default (NewCachedStore NewMemoryStore 0) (mgr_store s.1.1)) s.2 ∅) [] [])
    (default (NewSubdomainResolver "") (mgr_resolver s.1.1)) s.1.2 [] [] [].

(** ** Concurrent gets of tenants nobody changes *)
Section gets.
Context (value : TenantID → option Tenant) (arrs : list (list Role)).

(** What a [Get] of tenant [id] may return. *)
Definition got (h : heap) (id : TenantID) (r : result ptr) : Prop :=
  match r with
  | Ok p => ∃ l t, p = Some l ∧ heap_load h l = Some t ∧ value id = Some t
  | Err _ => value id = None
  end.

Definition call_got (h : heap) (c : get_call) : Prop :=
  match c with
  | GCheck id e => got h id (Ok (ce_tenant e))
  | GRet id r => got h id r
  | _ => True
  end.

Definition flight_got (h : heap) (f : flight) : Prop :=
  match fl_phase f with
  | FGot p => got h (fl_id f) (Ok p)
  | FEnd r => got h (fl_id f) r
  | FAsk => True
  end.

Record gets_ok (s : cf_sys) : Prop := {
  gt_sys : sys_inv (csys_source (cf_cs s));
  gt_view id : ms_view (cs_source (csys_cs (cf_cs s))) (w_heap (csys_w (cf_cs s))) !! id = value id;
  gt_cache id e : cs_cache (csys_cs (cf_cs s)) !! id = Some e →
    got (w_heap (csys_w (cf_cs s))) id (Ok (ce_tenant e));
  gt_calls : Forall (call_got (w_heap (csys_w (cf_cs s)))) (cf_calls s);
  gt_flights : Forall (flight_got (w_heap (csys_w (cf_cs s)))) (cf_flights s);
  gt_waits : waits_ok s;
  gt_arrays : arrays (w_heap (csys_w (cf_cs s))) = arrs
}.

Lemma got_alloc h t id r : got h id r → got (heap_alloc t h).2 id r.
Proof.
  destruct r as [p|e]; [|done]. intros (l & t' & -> & Hl & Hv). exists l, t'.
  split_and!; [done | by apply heap_alloc_load_old | done].
Qed.

Lemma call_got_alloc h t c : call_got h c → call_got (heap_alloc t h).2 c.
Proof. destruct c; cbn [call_got]; try done; apply got_alloc. Qed.

Lemma flight_got_alloc h t f : flight_got h f → flight_got (heap_alloc t h).2 f.
Proof. unfold flight_got. destruct (fl_phase f); try done; apply got_alloc. Qed.

(** The source answers a flight. *)
Lemma gets_ask cs w C calls fls k id ctx ms' w' r :
  fls !! k = Some (mkFlight id FAsk) →
  MemoryStore_Get ctx id (cs_source cs, w) = ((ms', w'), Ret r) →
  gets_ok (mkCF (mkCSys cs w C) calls fls) →
  let f := mkFlight id (match r with Ok t => FGot t | Err e => FEnd (Err e) end) in
  waits_ok (mkCF (mkCSys (set_source ms' cs) w' C) calls (<[k := f]> fls)) →
  gets_ok (mkCF (mkCSys (set_source ms' cs) w' C) calls (<[k := f]> fls)).
Proof.
  intros Hk E [Hsi Hv Hc Hca Hfl _ Ha] f Hw'. cf_simpl. rewrite Get_eq in E by apply Hsi.
  destruct (ms_view (cs_source cs) (w_heap w) !! id) as [t|] eqn:Ht.
  - assert (ms' = cs_source cs ∧ w' = set_heap (heap_alloc t (w_heap w)).2 w ∧
      r = Ok (Some (heap_alloc t (w_heap w)).1)) as (-> & -> & ->) by (split_and!; congruence).
    split; cf_simpl; try done.
    + eapply sys_inv_weaken; [| |by apply (sys_inv_alloc _ w C t)]; [done | set_solver].
    + intros id'. rewrite view_alloc by apply Hsi. apply Hv.
    + intros id' e He. by apply got_alloc, Hc.
    + eapply Forall_impl; [exact Hca | intros; by apply call_got_alloc].
    + apply Forall_insert; [eapply Forall_impl; [exact Hfl | intros; by apply flight_got_alloc] |].
      eexists _, t. split_and!; [done | apply heap_alloc_load | by rewrite <- Hv].
  - injection E as <- <- <-. split; cf_simpl; try done.
    apply Forall_insert; [done |]. simpl. unfold flight_got. simpl. by rewrite <- Hv.
Qed.

Lemma gets_step s ev s' :
  cf_step s ev s' → (∀ e, ev ≠ CFSource e) → gets_ok s → gets_ok s'.
Proof.
  intros Hs Hev Hok. pose proof (waits_step _ _ _ Hs (gt_waits _ Hok)) as Hw'.
  destruct Hs as [s calls fls id'|s calls fls i id' Hc1|cs w C calls fls i id' e Hc1|s calls fls i id' Hc1 Hno
    |s calls fls i id' k f Hc1 Hk Hid Huw|cs w C calls fls k id' ctx ms' w' r Hk E
    |cs w C calls fls k id' p Hk|s calls fls i id' k r Hc1 Hk|cs w C calls fls ev ms' w' C' Hms|cs w C calls fls];
    try (by eapply gets_ask); try (exfalso; by eapply Hev); destruct Hok as [Hsi Hv Hc Hca Hfl Hw Ha]; (split; cf_simpl; try done).
  - apply Forall_app. split; [done | by repeat constructor].
  - apply Forall_insert; [done |]. destruct (cs_cache (csys_cs s) !! id') as [e|] eqn:He; simpl; [by apply Hc | done].
  - apply Forall_insert; [done |]. rewrite Forall_lookup in Hca. specialize (Hca _ _ Hc1). by case_match.
  - by apply Forall_insert.
  - apply Forall_app. split; [done | by repeat constructor].
  - by apply Forall_insert.
  - intros id e. rewrite lookup_insert. case_decide as Hid; [|apply Hc]. intros [= <-]. subst id.
    rewrite Forall_lookup in Hfl. exact (Hfl _ _ Hk).
  - apply Forall_insert; [done |]. rewrite Forall_lookup in Hfl. exact (Hfl _ _ Hk).
  - apply Forall_insert; [done |]. rewrite Forall_lookup in Hfl. exact (Hfl _ _ Hk).
Qed.

(** The tenant a call is for does not change. *)
Definition get_id (c : get_call) : TenantID :=
  match c with GProbe id | GCheck id _ | GDo id | GWait id _ | GRet id _ => id end.

Lemma call_keeps_id s ev s' n c :
  cf_step s ev s' → cf_calls s !! n = Some c → ∃ c', cf_calls s' !! n = Some c' ∧ get_id c' = get_id c.
Proof.
  intros Hs Hn. destruct Hs; cf_simpl; eauto; [exists c; split; [by apply lookup_app_l_Some | done] |..].
  all: rewrite (call_at _ _ _ _ _ Hn); eexists; (split; [reflexivity |]).
  all: case_decide; [simplify_eq | done]; repeat case_match; done.
Qed.
End gets.

(** ** How a program's handlers answer *)

(** For tenants [value] with role arrays [arrs] under [domain]: in application state [a],
    of those [inv] allows, a request is answered with [answer a], and handlers leave the
    state as it is; [after] is what the writes do. *)
Record program_ok {A U} (pg : program A U) (value : TenantID → option Tenant) (arrs : list (list Role))
    (domain : string) (inv : A → Prop) (after : U → A → A) (answer : A → Request → ResponseWriter) : Prop := {
  pk_front a cs w r vals h :
    inv a → mux_find (pg_front pg) (r_Method r) (r_path r) = Some (vals, h) →
    let s := site_at (NewSubdomainResolver domain) a cs w in
    h vals rw_new r s = (s, Ret (answer a r));
  pk_not_found a r :
    inv a → mux_find (pg_front pg) (r_Method r) (r_path r) = None →
    match SubdomainResolver_Resolve (NewSubdomainResolver domain) r with
    | Err _ => True
    | Ok id => value id = None
    end → answer a r = tenant_not_found;
  pk_next a cs w r id t l ctx :
    inv a → mux_find (pg_front pg) (r_Method r) (r_path r) = None →
    SubdomainResolver_Resolve (NewSubdomainResolver domain) r = Ok id → value id = Some t →
    let s := site_at (NewSubdomainResolver domain) a cs w in
    site_ok value arrs domain a cs s →
    heap_load (w_heap w) l = Some t → FromContext (Some ctx) = Some l →
    pg_next pg rw_new (Request_WithContext r ctx) s = (s, Ret (answer a r));
  pk_write u a cs w :
    inv a → inv (after u a) ∧
    pg_write pg u (site_at (NewSubdomainResolver domain) a cs w) =
      (site_at (NewSubdomainResolver domain) (after u a) cs w, Ret tt)
}.

Section requests.
Context {A U : Type} (pg : program A U).
Context (value : TenantID → option Tenant) (arrs : list (list Role)) (domain : string).
Context (inv : A → Prop) (after : U → A → A) (answer : A → Request → ResponseWriter).
Context (Hpg : program_ok pg value arrs domain inv after answer).

Local Arguments mux_find : simpl never.
Local Arguments mux_ServeHTTP : simpl never.

Record v_ok (a : A) (v : vsys A) : Prop := {
  vo_resolver : v_resolver v = NewSubdomainResolver domain;
  vo_app : v_app v = a;
  vo_inv : inv a;
  vo_gets : gets_ok value arrs (v_cf v);
  vo_reqs r n : (r, RGet n) ∈ v_reqs v →
    mux_find (pg_front pg) (r_Method r) (r_path r) = None ∧
    ∃ c, cf_calls (v_cf v) !! n = Some c ∧ SubdomainResolver_Resolve (v_resolver v) r = Ok (get_id c);
  vo_all : v_accepted v ≡ₚ (v_answered v).*1 ++ (v_reqs v).*1;
  vo_answers r rw : (r, rw) ∈ v_answered v → ∃ a, inv a ∧ rw = answer a r
}.

Lemma gets_site_ok (a : A) cs w C calls fls :
  gets_ok value arrs (mkCF (mkCSys cs w C) calls fls) →
  site_ok value arrs domain a cs (site_at (NewSubdomainResolver domain) a cs w).
Proof.
  intros [Hsi Hv Hc _ _ _ Ha]. split; [done | apply Hsi | done | | done].
  intros id e He. destruct (Hc _ _ He) as (l & t & ? & ? & ?). eauto.
Qed.

(** What the rest of [Wrap] does with what [Get] returned. *)
Lemma wrap_rest a cs w C calls fls r n id res :
  inv a → mux_find (pg_front pg) (r_Method r) (r_path r) = None →
  gets_ok value arrs (mkCF (mkCSys cs w C) calls fls) → calls !! n = Some (GRet id res) →
  SubdomainResolver_Resolve (NewSubdomainResolver domain) r = Ok id →
  match res with
  | Err _ => answer a r = tenant_not_found
  | Ok t =>
      let s := site_at (NewSubdomainResolver domain) a cs w in
      ∃ ctx, WithTenant (Some (r_ctx r)) t = Ret ctx ∧
        pg_next pg rw_new (Request_WithContext r ctx) s = (s, Ret (answer a r))
  end.
Proof using Hpg.
  intros Hinv Hf Hg Hn Hr. pose proof (gets_site_ok a _ _ _ _ _ Hg) as Hok.
  pose proof (gt_calls _ _ _ Hg) as Hca. rewrite Forall_lookup in Hca. specialize (Hca _ _ Hn).
  destruct res as [p|e]; simpl in Hca.
  - destruct Hca as (l & t & -> & Hl & Hv). eexists. split; [apply WithTenant_Some |].
    by eapply (pk_next _ _ _ _ _ _ _ Hpg a cs w r id t l).
  - apply (pk_not_found _ _ _ _ _ _ _ Hpg); [done | done |]. by rewrite Hr.
Qed.

Definition app_after (a : A) (ev : v_event U) : A :=
  match ev with VWrite u => after u a | _ => a end.

(** The answer given in a step, whatever else is going on, and what the step leaves. *)
Lemma v_step_answer a v r rw v' :
  v_step pg v (VAnswer r rw) v' → v_ok a v → rw = answer a r ∧
  v_cf v' = v_cf v ∧ v_resolver v' = v_resolver v ∧ v_app v' = v_app v.
Proof using Hpg.
  remember (VAnswer r rw) as ev eqn:Hev. intros Hs [Hsr Ha Hinv Hg Hq _ _].
  destruct Hs as [| cs w C calls fls sr a0 qs1 r0 qs2 ac an vals h cs' a' w' rw0 Hf E
    |cf sr a0 qs1 r0 qs2 ac an e Hf He| |
    |cf sr a0 qs1 r0 n qs2 ac an id e Hn|cs w C calls fls sr a0 qs1 r0 n qs2 ac an id t ctx cs' a' w' rw0 Hn Hctx E
    |]; try discriminate; injection Hev as -> <-; simpl in *; subst.
  - pose proof (pk_front _ _ _ _ _ _ _ Hpg a cs w r vals h Hinv Hf) as E'. simpl in E'.
    rewrite E in E'. injection E' as -> -> -> ->. done.
  - split; [|done]. symmetry. apply (pk_not_found _ _ _ _ _ _ _ Hpg); [done | done |]. by rewrite He.
  - destruct (Hq r n) as (Hf & c & Hc & Hres); [set_solver |]. rewrite Hn in Hc. injection Hc as <-.
    destruct cf as [[cs w C] calls fls].
    by rewrite (wrap_rest a _ _ _ _ _ _ _ _ _ Hinv Hf Hg Hn Hres).
  - destruct (Hq r n) as (Hf & c & Hc & Hres); [set_solver |]. rewrite Hn in Hc. injection Hc as <-.
    destruct (wrap_rest a _ _ _ _ _ _ _ _ _ Hinv Hf Hg Hn Hres) as (ctx' & Hctx' & E').
    assert (ctx' = ctx) as -> by (simpl in Hctx'; congruence). simpl in E'. rewrite E in E'.
    injection E' as -> -> -> ->. done.
Qed.

(** A request leaves. *)
Lemma answered_all (ac : list Request) (an : list (Request * ResponseWriter)) qs1 r (ph : req_phase) qs2 rw :
  ac ≡ₚ an.*1 ++ (qs1 ++ (r, ph) :: qs2).*1 → ac ≡ₚ (an ++ [(r, rw)]).*1 ++ (qs1 ++ qs2).*1.
Proof.
  intros ->. rewrite !fmap_app, <- app_assoc. apply Permutation_app_head. simpl.
  symmetry. apply Permutation_middle.
Qed.

Lemma v_step_ok a v ev v' :
  v_step pg v ev v' → v_ok a v → v_ok (app_after a ev) v'.
Proof using Hpg.
  intros Hs Hok. assert (∀ r rw, ev = VAnswer r rw → rw = answer a r ∧
    v_cf v' = v_cf v ∧ v_resolver v' = v_resolver v ∧ v_app v' = v_app v) as Han.
  { intros r rw ->. by eapply v_step_answer. }
  assert (∀ r rw v'', ev = VAnswer r rw → v_resolver v'' = v_resolver v → v_app v'' = v_app v →
    v_cf v'' = v_cf v → (∀ x, x ∈ v_reqs v'' → x ∈ v_reqs v) →
    v_accepted v'' ≡ₚ (v_answered v'').*1 ++ (v_reqs v'').*1 →
    v_answered v'' = v_answered v ++ [(r, rw)] → v_ok a v'') as Hleave.
  { destruct Hok as [Hsr Ha Hinv Hg Hq Hall Hans]. intros r rw v'' -> H1 H2 H3 H4 H5 H6.
    destruct (Han _ _ eq_refl) as [-> _]. split; rewrite ?H1, ?H2, ?H3; try done; [by eauto |].
    rewrite H6. intros r' rw' [?|Hr%list_elem_of_singleton]%elem_of_app; [eauto |]. injection Hr as -> ->. eauto. }
  destruct Hok as [Hsr Ha Hinv Hg Hq Hall Hans].
  destruct Hs as [cf sr a0 qs ac an r|cs w C calls fls sr a0 qs1 r qs2 ac an vals h cs' a' w' rw Hf E
    |cf sr a0 qs1 r qs2 ac an e Hf He|cf cf' sr a0 qs1 r qs2 ac an id Hf Hr Hcf|cf cf' sr a0 qs ac an Hcf
    |cf sr a0 qs1 r n qs2 ac an id e Hn|cs w C calls fls sr a0 qs1 r n qs2 ac an id t ctx cs' a' w' rw Hn Hctx E
    |cs w C calls fls sr a0 qs ac an u cs' a' w' E]; simpl in *.
  - split; simpl; try done; [set_solver |]. by rewrite Hall, fmap_app, app_assoc.
  - eapply Hleave; simpl; try done; [by destruct (Han _ _ eq_refl) as (_ & ? & _ & ?) .. | set_solver |].
    by eapply answered_all.
  - eapply Hleave; simpl; try done; [set_solver |]. by eapply answered_all.
  - split; simpl; try done; [by eapply gets_step | |].
    + intros r' n [Hin|[Hin|Hin]%elem_of_cons]%elem_of_app.
      * destruct (Hq r' n) as (Hf' & c & Hc & Hres); [set_solver |]. split; [done |].
        destruct (call_keeps_id _ _ _ _ _ Hcf Hc) as (c' & ? & Hid). exists c'. by rewrite Hid.
      * injection Hin as -> ->. split; [done |]. exists (GProbe id). split; [|done].
        inversion Hcf; subst. simpl. by apply list_lookup_middle.
      * destruct (Hq r' n) as (Hf' & c & Hc & Hres); [set_solver |]. split; [done |].
        destruct (call_keeps_id _ _ _ _ _ Hcf Hc) as (c' & ? & Hid). exists c'. by rewrite Hid.
    + rewrite Hall, !fmap_app. done.
  - split; simpl; try done; [by eapply gets_step |]. intros r n Hin.
    destruct (Hq r n Hin) as (Hf' & c & Hc & Hres). split; [done |].
    destruct (call_keeps_id _ _ _ _ _ Hcf Hc) as (c' & ? & Hid). exists c'. by rewrite Hid.
  - eapply Hleave; simpl; try done; [set_solver |]. by eapply answered_all.
  - eapply Hleave; simpl; try done; [by destruct (Han _ _ eq_refl) as (_ & ? & _ & ?) .. | set_solver |].
    by eapply answered_all.
  - subst a0 sr. destruct (pk_write _ _ _ _ _ _ _ Hpg u a cs w Hinv) as [Hinv' E']. rewrite E in E'.
    injection E' as -> -> ->. split; simpl; try done.
Qed.

(** ** Every request is answered *)

(** The state of the program while request [r] is first in line. *)
Definition serving (a : A) (r : Request) (ph : req_phase)
    (qs : list (Request * req_phase)) (ac : list Request) (v : vsys A) : Prop :=
  v_ok a v ∧ v_reqs v = (r, ph) :: qs ∧ v_accepted v = ac.

Lemma get_returns a r n qs ac v :
  serving a r (RGet n) qs ac v →
  ∃ tr v' id res, trace (v_internal pg) v tr v' ∧ serving a r (RGet n) qs ac v' ∧
    cf_calls (v_cf v') !! n = Some (GRet id res).
Proof using Hpg.
  intros Hv. destruct (trace_measure (v_internal pg) (serving a r (RGet n) qs ac)
    (λ v, call_weight (cf_flights (v_cf v)) (cf_calls (v_cf v) !! n))) with v as (tr & v' & Htr & Hv' & Hw);
    [|done|].
  - clear v Hv. intros v (Hok & Hq & Hac) Hne.
    destruct (vo_reqs _ _ Hok r n) as (_ & c & Hc & _); [rewrite Hq; by left |]. rewrite Hc in Hne.
    destruct (get_call_step "" n (v_cf v) c (gt_sys _ _ _ (vo_gets _ _ Hok)) (gt_waits _ _ _ (vo_gets _ _ Hok)) Hc Hne)
      as (cf' & c' & [Hs _] & Hc' & Hlt).
    destruct v as [cf sr a0 qs0 ac0 an]; simpl in *. pose proof (v_cache pg _ _ sr a0 qs0 ac0 an Hs) as Hstep.
    eexists [VTau], _. split; [eapply trace_cons; [split; [exact Hstep | done] | apply trace_nil] |].
    split; [split_and!; [exact (v_step_ok _ _ _ _ Hstep Hok) | done | done] |]. simpl. by rewrite Hc, Hc'.
  - destruct Hv' as (Hok & Hq & Hac).
    destruct (vo_reqs _ _ Hok r n) as (_ & c & Hc & _); [rewrite Hq; by left |]. rewrite Hc in Hw.
    destruct c as [| | |id k|id res]; simpl in Hw; try lia; [unfold flight_weight in Hw; repeat case_match; lia |].
    exists tr, v', id, res. by split_and!.
Qed.

(** Once [Get] has returned, the answer is one step away. *)
Lemma get_answered a r n qs ac v id res :
  serving a r (RGet n) qs ac v → cf_calls (v_cf v) !! n = Some (GRet id res) →
  ∃ rw v', v_internal pg v (VAnswer r rw) v' ∧ v_reqs v' = qs ∧ v_accepted v' = ac.
Proof using Hpg.
  intros (Hok & Hq & Hac) Hn. destruct (vo_reqs _ _ Hok r n) as (Hf & c & Hc & Hres); [rewrite Hq; by left |].
  rewrite Hn in Hc. injection Hc as <-. destruct Hok as [Hsr Ha Hinv Hg _ _ _].
  destruct v as [[[cs w C] calls fls] sr a0 qs0 ac0 an]; simpl in *. subst.
  pose proof (wrap_rest a _ _ _ _ _ _ _ _ _ Hinv Hf Hg Hn Hres) as Hrest. destruct res as [t|e].
  - destruct Hrest as (ctx & Hctx & E). eexists _, _. split; [split; [|done] |].
    + by eapply (v_serve pg _ _ _ _ _ _ _ [] r n qs).
    + done.
  - eexists _, _. split; [split; [by eapply (v_missing pg _ _ _ [] r n qs) | done] | done].
Qed.

Lemma request_finishes a r ph qs ac v :
  serving a r ph qs ac v →
  ∃ tr v', trace (v_internal pg) v tr v' ∧ v_ok a v' ∧ v_reqs v' = qs ∧ v_accepted v' = ac.
Proof using Hpg.
  assert (∀ n v, serving a r (RGet n) qs ac v →
    ∃ tr v', trace (v_internal pg) v tr v' ∧ v_ok a v' ∧ v_reqs v' = qs ∧ v_accepted v' = ac) as Hget.
  { intros n v1 (tr & v2 & id & res & Htr & Hv2 & Hn)%get_returns.
    destruct (get_answered _ _ _ _ _ _ _ _ Hv2 Hn) as (rw & v3 & Hs & ? & ?).
    exists (tr ++ [VAnswer r rw]), v3. split; [eapply trace_app, trace_cons; [done | done | apply trace_nil] |].
    split; [|done]. destruct Hs as [Hs _], Hv2 as [Hok _]. exact (v_step_ok _ _ _ _ Hs Hok). }
  destruct ph as [|n]; [|by eauto]. intros (Hok & Hq & Hac).
  destruct v as [[[cs w C] calls fls] sr a0 qs0 ac0 an]; simpl in *. subst qs0 ac0.
  pose proof (vo_resolver _ _ Hok) as Hsr. pose proof (vo_app _ _ Hok) as Ha. simpl in *. subst sr a0.
  destruct (mux_find (pg_front pg) (r_Method r) (r_path r)) as [[vals h]|] eqn:Hf.
  - pose proof (v_front pg cs w C calls fls _ _ [] r qs ac an vals h _ _ _ _ Hf
      (pk_front _ _ _ _ _ _ _ Hpg a cs w r vals h (vo_inv _ _ Hok) Hf)) as Hs.
    eexists [_], _. split; [eapply trace_cons; [split; [exact Hs | done] | apply trace_nil] |].
    split; [exact (v_step_ok _ _ _ _ Hs Hok) | done].
  - destruct (SubdomainResolver_Resolve (NewSubdomainResolver domain) r) as [id|e] eqn:Hr.
    + pose proof (v_get pg _ _ _ a [] r qs ac an id Hf Hr (cf_call (mkCSys cs w C) calls fls id)) as Hs.
      destruct (Hget (length calls) _ (conj (v_step_ok _ _ _ _ Hs Hok) (conj eq_refl eq_refl)))
        as (tr & v' & Htr & ?).
      exists (VTau :: tr), v'. split; [|done]. eapply trace_cons; [split; [exact Hs | done] | exact Htr].
    + pose proof (v_reject pg (mkCF (mkCSys cs w C) calls fls) _ a [] r qs ac an e Hf Hr) as Hs.
      eexists [_], _. split; [eapply trace_cons; [split; [exact Hs | done] | apply trace_nil] |].
      split; [exact (v_step_ok _ _ _ _ Hs Hok) | done].
Qed.

Lemma requests_finish a v :
  v_ok a v →
  ∃ tr v', trace (v_internal pg) v tr v' ∧ v_ok a v' ∧ v_reqs v' = [] ∧ v_accepted v' = v_accepted v.
Proof using Hpg.
  intros Hok. destruct (trace_measure (v_internal pg)
    (λ v', v_ok a v' ∧ v_accepted v' = v_accepted v) (λ v, length (v_reqs v))) with v
    as (tr & v' & Htr & [? ?] & H0%length_zero_iff_nil); [|done|by exists tr, v'].
  intros v1 [Hok1 Hac] Hne. destruct (v_reqs v1) as [|[r ph] qs] eqn:Hq; [done |].
  destruct (request_finishes a r ph qs (v_accepted v1) v1) as (tr & v' & Htr & ? & Hq' & Hac'); [done |].
  exists tr, v'. rewrite Hq'. split_and!; [done | done | congruence | simpl; lia].
Qed.


(** A program that has just started. *)
Lemma v_start_ok a cs s :
  inv a → site_ok value arrs domain a cs s → v_ok a (v_start s).
Proof.
  intros Hinv [Hm Hwf Hv Hc Ha]. destruct s as [m w]; simpl in *. subst m.
  assert (gets_ok value arrs (mkCF (mkCSys cs w ∅) [] [])) as Hg by by split.
  split; simpl; try done; by intros ? ? ?%not_elem_of_nil.
Qed.

(** What holds in every run of the program: nothing is lost, every answer is [answer]'s
    in the state of that moment, and what is being served can be brought to its end. *)
Lemma requests_answered a v0 tr v :
  v_ok a v0 → trace (v_step pg) v0 tr v →
  v_ok (v_app v) v ∧
  (∀ r rw v', v_step pg v (VAnswer r rw) v' → rw = answer (v_app v) r) ∧
  ∃ tr' v', trace (v_internal pg) v tr' v' ∧ v_accepted v' = v_accepted v ∧ v_accepted v ≡ₚ (v_answered v').*1.
Proof using Hpg.
  intros Hok Htr. assert (v_ok (v_app v) v) as Hv.
  { refine (trace_inv (v_step pg) (λ v, v_ok (v_app v) v) _ _ _ _ Htr _).
    - intros v1 ev v2 Hs H1. pose proof (v_step_ok _ _ _ _ Hs H1) as H2. by rewrite (vo_app _ _ H2) at 1.
    - by rewrite (vo_app _ _ Hok) at 1. }
  split; [done |]. split; [intros r rw v' Hs; by destruct (v_step_answer _ _ _ _ _ Hs Hv) |].
  destruct (requests_finish _ _ Hv) as (tr' & v' & Htr' & Hv' & Hq & Hac). exists tr', v'.
  split_and!; [done | done |]. rewrite <- Hac, (vo_all _ _ Hv'), Hq. by rewrite app_nil_r.
Qed.

End requests.

(** ** A request served as a whole is a run of these steps *)
Section runs.
Context {SF : Singleflight} {SFL : SingleflightLaw}.
Context {A U : Type} (pg : program A U).

(** The handler of the whole program. *)
Definition pg_ServeHTTP : Handler (site A) := λ rw r,
  match mux_find (pg_front pg) (r_Method r) (r_path r) with
  | Some (vals, h) => h vals rw r
  | None => Wrap (pg_next pg) rw r
  end.

Lemma cache_runs s tr s' sr a qs ac an :
  trace cf_tau s tr s' → ∃ tr', trace (v_step pg) (mkV s sr a qs ac an) tr' (mkV s' sr a qs ac an).
Proof.
  induction 1 as [s|s ev s1 tr s2 [Hs ->] _ [tr' IH]]; [eexists; apply trace_nil |].
  exists (VTau :: tr'). eapply trace_cons; [by apply v_cache | done].
Qed.

Lemma request_runs r sr a cs w a' cs' w' rw C calls fls qs ac an :
  (∀ k f, fls !! k = Some f → under_way f = false) →
  pg_ServeHTTP rw_new r (site_at sr a cs w) = (site_at sr a' cs' w', Ret rw) →
  ∃ tr calls' fls',
    trace (v_step pg) (mkV (mkCF (mkCSys cs w C) calls fls) sr a qs ac an) tr
      (mkV (mkCF (mkCSys cs' w' C) calls' fls') sr a' qs (ac ++ [r]) (an ++ [(r, rw)])).
Proof.
  intros Hno. unfold pg_ServeHTTP.
  destruct (mux_find (pg_front pg) (r_Method r) (r_path r)) as [[vals h]|] eqn:Hf.
  - intros E. eexists _, calls, fls. eapply trace_cons; [apply v_accept |].
    eapply trace_cons; [by eapply (v_front pg _ _ _ _ _ _ _ qs r []) |]. rewrite app_nil_r. apply trace_nil.
  - unfold Wrap, resolve, Manager_Resolve, mgr_call. go_unfold. simpl.
    assert (∀ e, SubdomainResolver_Resolve sr r = Err e →
      trace (v_step pg) (mkV (mkCF (mkCSys cs w C) calls fls) sr a qs ac an)
        [VAccept r; VAnswer r tenant_not_found]
        (mkV (mkCF (mkCSys cs w C) calls fls) sr a qs (ac ++ [r])
           (an ++ [(r, tenant_not_found)]))) as Hrej.
    { intros e He. eapply trace_cons; [apply v_accept |].
      eapply trace_cons; [by eapply (v_reject pg _ _ _ qs r []) |]. rewrite app_nil_r. apply trace_nil. }
    destruct (SubdomainResolver_Resolve sr r) as [id|e] eqn:Hr; simpl.
    + destruct (CachedStore_Get (r_ctx r) id (cs, w)) as [[cs1 w1] [res|msg]] eqn:Eg; simpl; [|done].
      destruct (get_runs (r_ctx r) id cs w cs1 w1 C calls fls res ltac:(eauto) Eg)
        as (s1 & tr & fls' & Hcall & Htr).
      assert (∃ tr, trace (v_step pg) (mkV (mkCF (mkCSys cs w C) calls fls) sr a qs ac an) tr
        (mkV (mkCF (mkCSys cs1 w1 C) (calls ++ [GRet id res]) fls') sr a
           (qs ++ [(r, RGet (length calls))]) (ac ++ [r]) an)) as [tr0 Htr0].
      { destruct (cache_runs _ _ _ sr a (qs ++ [(r, RGet (length calls))]) (ac ++ [r]) an Htr) as [tr' Htr'].
        eexists. eapply trace_cons; [apply v_accept |].
        eapply trace_cons; [by eapply (v_get pg _ _ _ _ qs r []) | exact Htr']. }
      assert ((calls ++ [GRet id res]) !! length calls = Some (GRet id res)) as Hn by by apply list_lookup_middle.
      destruct res as [t|e]; simpl.
      * intros E. eexists _, _, _. eapply trace_app; [exact Htr0 |].
        eapply trace_cons; [eapply (v_serve pg _ _ _ _ _ _ _ qs r _ []); [exact Hn | reflexivity | exact E] |]. rewrite app_nil_r. apply trace_nil.
      * intros [= <- <- <- <-]. eexists _, _, _. eapply trace_app; [exact Htr0 |].
        eapply trace_cons; [by eapply (v_missing pg _ _ _ qs r _ []) |]. rewrite app_nil_r. apply trace_nil.
    + intros [= <- <- <- <-]. eexists _, calls, fls. exact (Hrej _ eq_refl).
Qed.
End runs.
