(* ===== verification/Server.v ===== *)
(** * Command cmd/server

    The reference server: two tenants in a [MemoryStore] behind a [CachedStore], the
    subdomain resolver, RBAC, the tenant-aware routes and the probes beside them.
    Startup is [server_boot], a request is [server_ServeHTTP]; the life of the process
    around them, with signals, listening and shutdown, is in [Lifecycle]. *)
From S2P Require Import Prelude GoStrings GoLib Tenant MemoryStore Resolver TenantCtx CachedStore.
From S2P Require Import Middleware Rbac Config Site.
Set Default Goal Selector "!".

(** The application state beside the manager: the RBAC object and [ready]. *)
Definition srv_app : Type := RBAC * bool.

Abbreviation srv := (site srv_app).

Definition boot_store : GoM (MemoryStore * world) unit :=
  _ ← seed_tenant "acme" (Some ["admin"]);
  seed_tenant "globex" (Some ["viewer"]).

Definition server_rbac : RBAC :=
  RBAC_DefineRole "globex" "viewer" ["users:read"]
    (RBAC_DefineRole "acme" "admin" ["users:read"; "users:write"] rbac_New).

(** Steps 1 to 4 of [main]; the server is not ready yet. *)
Definition server_boot (cfg : serverConfig) (w : world) : outcome srv :=
  match boot_store (NewMemoryStore, w) with
  | (_, Panic msg) => Panic msg
  | ((ms, w'), Ret _) =>
      match tenant_New [WithResolver (NewSubdomainResolver (cfg_tenantBaseDomain cfg));
                        WithStore (NewCachedStore ms (cfg_cacheTTL cfg))] with
      | Panic msg => Panic msg
      | Ret m => Ret ((m, (server_rbac, false)), w')
      end
  end.

(** ** Routes *)
(** [t.Roles] as JSON: [null] for a nil slice. *)
Definition roles_json (h : heap) (s : option Slice) : json :=
  match s with None => JNull | Some _ => JArray (JString <$> slice_elems h s) end.

(** The encoder writes a map's keys in order. *)
Definition me_json (h : heap) (t : Tenant) : json :=
  JObject [("roles", roles_json h (Tenant_Roles t));
           ("tenant_id", JString (Tenant_ID t));
           ("tenant_state", JString (Tenant_State t))].

Definition handle_me : routeHandler srv := λ _ w r,
  match FromContext (Some (r_ctx r)) with
  | None => mret (http_Error "no tenant in context" StatusInternalServerError w)
  | Some l =>
      t ← deref (Some l);
      s ← go_get;
      mret (json_response (me_json (w_heap s.2) t) w)
  end.

(** [authz.Can(t, "users:write")]. *)
Definition authz_can (l : loc) (permission : Permission) : GoM srv bool :=
  zoom (T := Manager SubdomainResolver (CachedStore MemoryStore) * srv_app)
    (λ t, t.2.1) (λ r t, (t.1, (r, t.2.2))) (RBAC_Can (Some l) permission).

Definition users_json : json := JObject [("message", JString "user list would go here")].

Definition handle_users : routeHandler srv := λ _ w r,
  match FromContext (Some (r_ctx r)) with
  | None => mret (http_Error "no tenant in context" StatusInternalServerError w)
  | Some l =>
      allowed ← authz_can l "users:write";
      if negb allowed : bool then mret (http_Error "forbidden: users:write required" StatusForbidden w)
      else mret (json_response users_json w)
  end.

Definition healthzHandler : routeHandler srv := λ _ w r,
  mret (json_response (status_json "ok") w).

Definition readyzHandler : routeHandler srv := λ _ w r,
  s ← go_get;
  let w := Header_Set "Content-Type" "application/json" w in
  if negb s.1.2.2 : bool
  then mret (Write (JSON (status_json "not ready")) (WriteHeader StatusServiceUnavailable w))
  else mret (Write (JSON (status_json "ready")) w).

Definition api_mux : list (route srv) :=
  [ (mkPattern (Some "GET") [Lit "api"; Lit "me"] false, handle_me);
    (mkPattern (Some "GET") [Lit "api"; Lit "users"] false, handle_users) ].

(** The probes are registered outside the middleware. *)
Definition probe_mux : list (route srv) :=
  [ (mkPattern (Some "GET") [Lit "healthz"] false, healthzHandler);
    (mkPattern (Some "GET") [Lit "readyz"] false, readyzHandler) ].

Section serve.
Context {SF : Singleflight}.

(** The top-level router: the probes, and everything else through tenant
    resolution. *)
Definition top_mux : list (route srv) :=
  probe_mux ++ [ (mkPattern None [] true, λ _, Wrap (mux_ServeHTTP api_mux)) ].

Definition server_ServeHTTP : Handler srv := mux_ServeHTTP top_mux.

(** What happens to a running server: requests, and [ready.Store(b)] (true once it
    listens, false when a signal starts the shutdown). *)
Inductive srv_event : Type :=
| SReq (r : Request)
| SReady (b : bool).

Definition set_ready (b : bool) : GoM srv unit := λ s,
  (((s.1.1, (s.1.2.1, b)), s.2), Ret tt).

(** The responses to the requests, in order. *)
Fixpoint run_server (evs : list srv_event) : GoM srv (list ResponseWriter) :=
  match evs with
  | [] => mret []
  | SReady b :: evs => _ ← set_ready b; run_server evs
  | SReq r :: evs =>
      w ← server_ServeHTTP rw_new r;
      ws ← run_server evs;
      mret (w :: ws)
  end.

End serve.

(** ** What the server promises: a response that depends on the request and [ready]
    alone *)
(** The roles a tenant was created with, as the API shows them. *)
Definition seeded (id : TenantID) : option Role :=
  if decide (id = "acme") then Some "admin"
  else if decide (id = "globex") then Some "viewer" else None.

Definition api_answer (id : TenantID) (role : Role) (r : Request) : ResponseWriter :=
  if decide (r_path r = ["api"; "me"]) then
    if is_get r then
      json_response (JObject [("roles", JArray [JString role]); ("tenant_id", JString id);
                              ("tenant_state", JString Active)]) rw_new
    else http_Error "Method Not Allowed" StatusMethodNotAllowed rw_new
  else if decide (r_path r = ["api"; "users"]) then
    if is_get r then
      if decide (id = "acme") then json_response users_json rw_new
      else http_Error "forbidden: users:write required" StatusForbidden rw_new
    else http_Error "Method Not Allowed" StatusMethodNotAllowed rw_new
  else http_Error "404 page not found" StatusNotFound rw_new.

Definition server_answer (domain : string) (ready : bool) (r : Request) : ResponseWriter :=
  if bool_decide (r_path r = ["healthz"]) && is_get r then json_response (status_json "ok") rw_new
  else if bool_decide (r_path r = ["readyz"]) && is_get r then
    if ready then json_response (status_json "ready") rw_new
    else Write (JSON (status_json "not ready"))
           (WriteHeader StatusServiceUnavailable (Header_Set "Content-Type" "application/json" rw_new))
  else match SubdomainResolver_Resolve (NewSubdomainResolver domain) r with
       | Err _ => http_Error "tenant not found" StatusNotFound rw_new
       | Ok id =>
           match seeded id with
           | None => http_Error "tenant not found" StatusNotFound rw_new
           | Some role => api_answer id role r
           end
       end.

Fixpoint server_answers (domain : string) (ready : bool) (evs : list srv_event) : list ResponseWriter :=
  match evs with
  | [] => []
  | SReady b :: evs => server_answers domain b evs
  | SReq r :: evs => server_answer domain ready r :: server_answers domain ready evs
  end.

(** ** The invariant of the running server *)
Definition seed_array (id : TenantID) : option (loc * Role) :=
  if decide (id = "acme") then Some (0, "admin")
  else if decide (id = "globex") then Some (1, "viewer") else None.

(** The tenants in the store, as values. *)
Definition seed_value (id : TenantID) : option Tenant :=
  (λ x, mkTenant id Active (Some (mkSlice x.1 0 1))) <$> seed_array id.

Definition srv_ok (domain : string) (ready : bool) : CachedStore MemoryStore → srv → Prop :=
  site_ok seed_value [["admin"]; ["viewer"]] domain (server_rbac, ready).

Lemma server_boot_ok cfg clock :
  ∃ cs s, server_boot cfg (mkWorld heap_empty clock 0) = Ret s ∧
    srv_ok (cfg_tenantBaseDomain cfg) false cs s.
Proof.
  eexists _, _. split; [reflexivity |].
  split; [reflexivity | | | | reflexivity].
  - intros id l. simpl. rewrite !lookup_insert, lookup_empty.
    repeat case_decide; intros [= <-]; subst; by eexists.
  - intros id. rewrite view_lookup. simpl. rewrite !lookup_insert, lookup_empty.
    unfold seed_value, seed_array. repeat case_decide; subst; done.
  - intros id e. simpl. by rewrite lookup_empty.
Qed.

Section proofs.
Context {SF : Singleflight} {SFL : SingleflightLaw}.

Lemma seeded_cases id t :
  seed_value id = Some t →
  (id = "acme" ∧ t = mkTenant "acme" Active (Some (mkSlice 0 0 1)) ∧ seeded id = Some "admin") ∨
  (id = "globex" ∧ t = mkTenant "globex" Active (Some (mkSlice 1 0 1)) ∧ seeded id = Some "viewer").
Proof.
  unfold seed_value, seed_array, seeded. repeat case_decide; simpl; intros [= <-]; subst; auto.
Qed.

Lemma can_users_write h t :
  arrays h = [["admin"]; ["viewer"]] →
  seed_value (Tenant_ID t) = Some t →
  match rb_definitions server_rbac !! Tenant_ID t with
  | None => false
  | Some roles => can_loop roles "users:write" (tenant_roles h t)
  end = bool_decide (Tenant_ID t = "acme").
Proof.
  intros Ha Hs. unfold tenant_roles.
  destruct (seeded_cases _ _ Hs) as [(Hid & -> & _)|(Hid & -> & _)]; simpl; rewrite Ha; by vm_compute.
Qed.

(** The state of a running server, written out. *)
Abbreviation srv_state domain ready cs w :=
  ((managed (NewSubdomainResolver domain) cs, (server_rbac, ready)), w).

Lemma me_serves domain ready cs w vals l t id role r :
  arrays (w_heap w) = [["admin"]; ["viewer"]] → FromContext (Some (r_ctx r)) = Some l →
  heap_load (w_heap w) l = Some t → seed_value id = Some t → seeded id = Some role →
  handle_me vals rw_new r (srv_state domain ready cs w) =
    (srv_state domain ready cs w,
     Ret (json_response (JObject [("roles", JArray [JString role]); ("tenant_id", JString id);
                              ("tenant_state", JString Active)]) rw_new)).
Proof.
  intros Ha Hctx Hl Hs Hrole. unfold handle_me, deref. rewrite Hctx. go_unfold; simpl.
  rewrite Hl. do 3 f_equal. unfold me_json.
  destruct (seeded_cases _ _ Hs) as [(-> & -> & E)|(-> & -> & E)];
    rewrite E in Hrole; injection Hrole as <-; simpl; by rewrite Ha.
Qed.

Lemma users_serves domain ready cs w vals l t id r :
  arrays (w_heap w) = [["admin"]; ["viewer"]] → FromContext (Some (r_ctx r)) = Some l →
  heap_load (w_heap w) l = Some t → seed_value id = Some t →
  handle_users vals rw_new r (srv_state domain ready cs w) =
    (srv_state domain ready cs w,
     Ret (if decide (id = "acme") then json_response users_json rw_new
          else http_Error "forbidden: users:write required" StatusForbidden rw_new)).
Proof.
  intros Ha Hctx Hl Hs.
  assert (Tenant_ID t = id) as Hid by (unfold seed_value in Hs; by apply fmap_Some in Hs as (? & _ & ->)).
  rewrite <- Hid in Hs |- *. pose proof (can_users_write _ _ Ha Hs) as Hcan.
  unfold handle_users, authz_can. rewrite Hctx. go_unfold. cbn [fst snd].
  rewrite (RBAC_Can_eq _ _ _ _ _ Hl), Hcan.
  destruct (decide (Tenant_ID t = "acme")) as [He|He].
  - by rewrite (bool_decide_true _ He).
  - by rewrite (bool_decide_false _ He).
Qed.

(** The two routes behind tenant resolution. *)
Lemma api_serves domain ready cs s l t id role r :
  srv_ok domain ready cs s → FromContext (Some (r_ctx r)) = Some l →
  heap_load (w_heap s.2) l = Some t → seed_value id = Some t → seeded id = Some role →
  mux_ServeHTTP api_mux rw_new r s = (s, Ret (api_answer id role r)).
Proof.
  intros Hok Hctx Hl Hs Hrole. destruct s as [m w].
  pose proof (so_manager _ _ _ _ _ _ Hok) as Hm. simpl in Hm. subst m.
  pose proof (so_arrays _ _ _ _ _ _ Hok) as Ha. simpl in Hl, Ha.
  pose proof (λ vals, me_serves domain ready cs w vals l t id role r Ha Hctx Hl Hs Hrole) as Hme.
  pose proof (λ vals, users_serves domain ready cs w vals l t id r Ha Hctx Hl Hs) as Hus.
  unfold mux_ServeHTTP, api_mux, api_answer. cbn [mux_find pat_segs pat_rest pat_method].
  rewrite !match_get. unfold mux_path_known. cbn [existsb fst pat_segs pat_rest].
  destruct (r_path r) as [|x [|y [|z ps]]]; cbn [match_segs].
  all: repeat (case_decide; simplify_eq; cbn [fmap option_fmap option_map]); try done.
  all: destruct (is_get r); try done.
Qed.

(** The answer of everything but the probes. *)
Definition tenant_answer (domain : string) (r : Request) : ResponseWriter :=
  match SubdomainResolver_Resolve (NewSubdomainResolver domain) r with
  | Err _ => http_Error "tenant not found" StatusNotFound rw_new
  | Ok id =>
      match seeded id with
      | None => http_Error "tenant not found" StatusNotFound rw_new
      | Some role => api_answer id role r
      end
  end.

Lemma seeded_value_None id : seed_value id = None ↔ seeded id = None.
Proof. unfold seed_value, seed_array, seeded. by repeat case_decide. Qed.

Lemma seed_value_id id t : seed_value id = Some t → Tenant_ID t = id.
Proof. unfold seed_value. by intros (? & _ & ->)%fmap_Some. Qed.

Lemma wrap_serves domain ready cs s r :
  srv_ok domain ready cs s →
  ∃ cs' s', Wrap (mux_ServeHTTP api_mux) rw_new r s = (s', Ret (tenant_answer domain r)) ∧
    srv_ok domain ready cs' s'.
Proof.
  intros Hok.
  destruct (site_wrap seed_value _ domain seed_value_id (mux_ServeHTTP api_mux)
    (λ id _ r, api_answer id (default "" (seeded id)) r) _ _ _ r Hok) as (cs' & s' & E & Hok').
  - intros cs' s' id t l ctx Hok' Hctx Hl Hs.
    destruct (seeded id) as [role|] eqn:Hrole; [|apply seeded_value_None in Hrole; congruence].
    by eapply (api_serves domain ready cs' s' l t id role (Request_WithContext r ctx)).
  - exists cs', s'. split; [|done]. rewrite E. do 2 f_equal. unfold site_answer, tenant_answer.
    destruct (SubdomainResolver_Resolve _ r) as [id|]; [|done].
    destruct (seed_value id) eqn:Hs, (seeded id) eqn:Hrole; try done.
    + apply seeded_value_None in Hrole. congruence.
    + apply seeded_value_None in Hs. congruence.
Qed.

Lemma server_serves domain ready cs s r :
  srv_ok domain ready cs s →
  ∃ cs' s', server_ServeHTTP rw_new r s = (s', Ret (server_answer domain ready r)) ∧
    srv_ok domain ready cs' s'.
Proof.
  intros Hok. destruct (wrap_serves _ _ _ _ r Hok) as (cs' & s' & E & Hok').
  pose proof (so_manager _ _ _ _ _ _ Hok) as Hm.
  unfold server_ServeHTTP, mux_ServeHTTP, top_mux, probe_mux, server_answer. fold (tenant_answer domain r).
  cbn [Datatypes.app mux_find pat_segs pat_rest pat_method]. rewrite !match_get.
  assert (∀ ps, match_segs [] true ps = Some ∅) as Hany by by intros [].
  rewrite Hany. destruct (is_get r) eqn:Hg; rewrite ?andb_true_r, ?andb_false_r.
  - destruct (decide (r_path r = ["healthz"])) as [Hp|Hp].
    { rewrite Hp, (bool_decide_true _ eq_refl).
      assert (match_segs [Lit "healthz"] false ["healthz"] = Some ∅) as -> by done.
      by exists cs, s. }
    rewrite (bool_decide_false _ Hp). destruct (decide (r_path r = ["readyz"])) as [Hp'|Hp'].
    { rewrite Hp', (bool_decide_true _ eq_refl).
      assert (match_segs [Lit "healthz"] false ["readyz"] = None) as -> by done.
      assert (match_segs [Lit "readyz"] false ["readyz"] = Some ∅) as -> by done.
      exists cs, s. split; [|done]. destruct s as [m w]. simpl in Hm. subst m. by destruct ready. }
    rewrite (bool_decide_false _ Hp').
    assert (match_segs [Lit "healthz"] false (r_path r) = None) as ->.
    { destruct (r_path r) as [|x [|? ?]]; simpl; [done | | by case_decide].
      by case_decide; subst. }
    assert (match_segs [Lit "readyz"] false (r_path r) = None) as ->.
    { destruct (r_path r) as [|x [|? ?]]; simpl; [done | | by case_decide].
      by case_decide; subst. }
    by exists cs', s'.
  - exists cs', s'. split; [|done].
    destruct (match_segs [Lit "healthz"] false (r_path r)), (match_segs [Lit "readyz"] false (r_path r));
      exact E.
Qed.

(** The server is a function of the request.  For any accepted configuration
    and any clock it starts; then, for every sequence of requests and switches of
    [ready], it answers every request, and each response is [server_answer]'s,
    whatever was asked before, what the cache holds and what time it is: the probes
    answer without resolving a tenant, whatever the host; a host that is not a
    subdomain of the base domain naming one of the two tenants gets 404; /api/me
    shows that tenant's own data; /api/users lets acme in and answers globex 403. *)
Theorem server_answers_by_request cfg clock evs :
  ∃ s s', server_boot cfg (mkWorld heap_empty clock 0) = Ret s ∧
    run_server evs s = (s', Ret (server_answers (cfg_tenantBaseDomain cfg) false evs)).
Proof.
  destruct (server_boot_ok cfg clock) as (cs & s & Hb & Hok). exists s.
  enough (∀ ready cs s, srv_ok (cfg_tenantBaseDomain cfg) ready cs s →
    ∃ s', run_server evs s =
      (s', Ret (server_answers (cfg_tenantBaseDomain cfg) ready evs))) as Hrun.
  { destruct (Hrun _ _ _ Hok) as (s' & Hr). eauto. }
  clear s cs Hb Hok. induction evs as [|[r|b] evs IH]; intros ready cs s Hok; cbn [run_server server_answers].
  - by eexists.
  - destruct (server_serves _ _ _ _ r Hok) as (cs' & s' & E & Hok').
    destruct (IH _ _ _ Hok') as (s2 & E2). exists s2.
    unfold mbind, GoM_bind. rewrite E, E2. done.
  - destruct s as [[m [rb rd]] w]. destruct Hok as [Hm Hwf Hv Hc Ha]. simpl in *. simplify_eq.
    apply (IH b cs). by split.
Qed.

End proofs.

(** ** A concrete run *)
Definition get (host : string) (path : list string) : srv_event :=
  SReq (mkRequest "GET" host path Background).

Definition demo_config : serverConfig := mkConfig 8080 "localhost" 10000000000 "text".

Definition demo_events : list srv_event :=
  [get "10.0.0.7" ["readyz"]; SReady true; get "10.0.0.7" ["readyz"]; get "10.0.0.7" ["healthz"];
   get "acme.localhost:8080" ["api"; "users"]; get "globex.localhost" ["api"; "users"];
   get "acme.localhost" ["api"; "me"]; get "initech.localhost" ["api"; "me"]].

Lemma server_answers_by_request_witness :
  ∃ s s' answers, server_boot demo_config (mkWorld heap_empty demo_clock 0) = Ret s ∧
    @run_server direct_sf demo_events s = (s', Ret answers) ∧
    rw_status <$> answers = Some <$> [503; 200; 200; 200; 403; 200; 404]%Z.
Proof.
  destruct (@server_answers_by_request direct_sf direct_sf_law demo_config demo_clock demo_events)
    as (s & s' & Hb & Hr).
  eexists s, s', _. split; [exact Hb |]. split; [exact Hr |]. vm_compute. reflexivity.
Defined.
