(* ===== verification/ServerRequests.v ===== *)
(** * Command cmd/server: requests that overlap

    The reference server as a [program] of [SiteRequests]: the probes are outside the
    middleware, the API routes behind it, and [ready] is what the process writes. *)
From S2P Require Import Prelude GoStrings GoLib Tenant MemoryStore Resolver TenantCtx CachedStore.
From S2P Require Import CacheFlights Middleware Rbac Config Site SiteRequests Server.
Set Default Goal Selector "!".

Definition server_program : program srv_app bool :=
  mkProgram probe_mux (mux_ServeHTTP api_mux) set_ready.

(** ** The routes *)
Lemma match_one name path :
  match_segs [Lit name] false path = if decide (path = [name]) then Some ∅ else None.
Proof.
  destruct path as [|x [|y path]]; simpl; repeat case_decide; simplify_eq; done.
Qed.

Lemma probe_find r :
  mux_find probe_mux (r_Method r) (r_path r) =
    if bool_decide (r_path r = ["healthz"]) && is_get r then Some (∅, healthzHandler)
    else if bool_decide (r_path r = ["readyz"]) && is_get r then Some (∅, readyzHandler) else None.
Proof.
  unfold probe_mux. cbn [mux_find pat_segs pat_rest pat_method]. rewrite !match_get, !match_one.
  destruct (is_get r); rewrite ?andb_true_r, ?andb_false_r; repeat case_decide; repeat case_bool_decide;
    simplify_eq; try done; congruence.
Qed.

Lemma top_find {SF : Singleflight} r :
  mux_find top_mux (r_Method r) (r_path r) =
    match mux_find probe_mux (r_Method r) (r_path r) with
    | Some x => Some x
    | None => Some (∅, λ _, Wrap (mux_ServeHTTP api_mux))
    end.
Proof.
  unfold top_mux, probe_mux. cbn [Datatypes.app mux_find pat_segs pat_rest pat_method].
  assert (∀ ps, match_segs [] true ps = Some ∅) as -> by by intros [].
  repeat case_match; done.
Qed.

(** The probes only read [ready]. *)
Lemma probe_serves domain ready cs w r vals h :
  mux_find probe_mux (r_Method r) (r_path r) = Some (vals, h) →
  let s := site_at (NewSubdomainResolver domain) (server_rbac, ready) cs w in
  h vals rw_new r s = (s, Ret (server_answer domain ready r)).
Proof.
  rewrite probe_find. unfold server_answer.
  destruct (bool_decide (r_path r = ["healthz"]) && is_get r); [by intros [= <- <-] |].
  destruct (bool_decide (r_path r = ["readyz"]) && is_get r); [|done].
  intros [= <- <-]. by destruct ready.
Qed.

Lemma no_probe_answer domain ready r :
  mux_find probe_mux (r_Method r) (r_path r) = None →
  server_answer domain ready r = tenant_answer domain r.
Proof. rewrite probe_find. unfold server_answer, tenant_answer. by repeat case_match. Qed.

(** The server keeps its RBAC tables; [ready] is what was written last. *)
Definition srv_inv (a : srv_app) : Prop := a.1 = server_rbac.
Definition srv_after (b : bool) (a : srv_app) : srv_app := (a.1, b).

Lemma server_program_ok domain :
  program_ok server_program seed_value [["admin"]; ["viewer"]] domain srv_inv srv_after
    (λ a, server_answer domain a.2).
Proof.
  split.
  - intros [rb ready] cs w r vals h Hrb Hf. unfold srv_inv in Hrb. simpl in Hrb. subst rb. by apply probe_serves.
  - intros [rb ready] r _ Hf Hr. simpl in *. rewrite (no_probe_answer _ _ _ Hf). unfold tenant_answer.
    destruct (SubdomainResolver_Resolve _ r) as [id|e]; [|done]. by apply seeded_value_None in Hr as ->.
  - intros [rb ready] cs w r id t l ctx Hrb Hf Hr Hv s Hok Hl Hctx. unfold srv_inv in Hrb. simpl in *. subst rb.
    rewrite (no_probe_answer _ _ _ Hf). unfold tenant_answer. rewrite Hr.
    destruct (seeded id) as [role|] eqn:Hrole; [|apply seeded_value_None in Hrole; congruence].
    by eapply (api_serves domain ready cs s l t id role (Request_WithContext r ctx)).
  - intros b [rb ready] cs w Hrb. done.
Qed.

(** The server in a state with [ready]. *)
Abbreviation srv_v_ok domain ready :=
  (v_ok server_program seed_value [["admin"]; ["viewer"]] domain srv_inv (λ a, server_answer domain a.2)
     (server_rbac, ready)).

Definition ready_after (ready : bool) (ev : v_event bool) : bool :=
  match ev with VWrite b => b | _ => ready end.

Lemma srv_step_ok domain ready v ev v' :
  v_step server_program v ev v' → srv_v_ok domain ready v → srv_v_ok domain (ready_after ready ev) v'.
Proof.
  intros Hs Hok. pose proof (v_step_ok _ _ _ _ _ _ _ (server_program_ok domain) _ _ _ _ Hs Hok) as Hok'.
  by destruct ev.
Qed.

Lemma srv_start_ok domain cs s : srv_ok domain false cs s → srv_v_ok domain false (v_start s).
Proof. intros Hok. by eapply v_start_ok. Qed.

(** (C6) Requests that overlap are answered as if each was alone.  For any accepted
    configuration and any clock the server starts; then, in every interleaving of any
    number of requests, of the flights they share, of the clock and of switches of
    [ready]: every accepted request is answered or being served; every answer is
    [server_answer]'s, with [ready] as it is at that moment, whatever other requests do
    and whatever the cache holds; and what is being served can always be brought to its
    end, no request waits for ever. *)
Theorem overlapping_requests_answered cfg clock :
  ∃ s, server_boot cfg (mkWorld heap_empty clock 0) = Ret s ∧
  ∀ tr v, trace (v_step server_program) (v_start s) tr v →
    v_accepted v ≡ₚ (v_answered v).*1 ++ (v_reqs v).*1 ∧
    (∀ r rw v', v_step server_program v (VAnswer r rw) v' → rw = server_answer (cfg_tenantBaseDomain cfg) (v_app v).2 r) ∧
    ∃ tr' v', trace (v_internal server_program) v tr' v' ∧ v_accepted v' = v_accepted v ∧ v_accepted v ≡ₚ (v_answered v').*1.
Proof.
  destruct (server_boot_ok cfg clock) as (cs & s & Hb & Hok). exists s. split; [done |].
  intros tr v Htr.
  destruct (requests_answered _ _ _ _ _ _ _ (server_program_ok (cfg_tenantBaseDomain cfg)) _ _ _ _
    (srv_start_ok _ _ _ Hok) Htr) as (Hv & Hans & Hend).
  split_and!; [apply Hv | exact Hans | exact Hend].
Qed.

(** A request served as a whole by [server_ServeHTTP] is a run of these steps. *)
Lemma server_request_runs {SF : Singleflight} {SFL : SingleflightLaw} r sr a cs w a' cs' w' rw C calls fls qs ac an :
  (∀ k f, fls !! k = Some f → under_way f = false) →
  server_ServeHTTP rw_new r (site_at sr a cs w) = (site_at sr a' cs' w', Ret rw) →
  ∃ tr calls' fls',
    trace (v_step server_program) (mkV (mkCF (mkCSys cs w C) calls fls) sr a qs ac an) tr
      (mkV (mkCF (mkCSys cs' w' C) calls' fls') sr a' qs (ac ++ [r]) (an ++ [(r, rw)])).
Proof.
  intros Hno E. eapply request_runs; [done |]. rewrite <- E. unfold pg_ServeHTTP, server_ServeHTTP.
  unfold mux_ServeHTTP. rewrite top_find. change (pg_front server_program) with probe_mux. by destruct (mux_find probe_mux (r_Method r) (r_path r)) as [[vals h]|].
Qed.

(** ** A concrete run: two requests share a flight *)
Definition me_request : Request := mkRequest "GET" "acme.localhost" ["api"; "me"] Background.
Definition users_request : Request := mkRequest "GET" "acme.localhost:8080" ["api"; "users"] Background.

Definition sharing (ms : MemoryStore) (ttl : Z) (w : world) (a : srv_app) : vsys srv_app :=
  mkV (mkCF (mkCSys (mkCachedStore ms ttl ∅) w ∅) [GWait "acme" 0; GWait "acme" 0] [mkFlight "acme" FAsk])
    (NewSubdomainResolver "localhost") a [(me_request, RGet 0); (users_request, RGet 1)]
    [me_request; users_request] [].

Lemma sharing_reachable ms ttl w a :
  ∃ tr, trace (v_step server_program)
    (mkV (mkCF (mkCSys (mkCachedStore ms ttl ∅) w ∅) [] []) (NewSubdomainResolver "localhost") a [] [] []) tr
    (sharing ms ttl w a).
Proof.
  eexists.
  eapply trace_cons; [apply (v_accept _ _ _ _ _ _ _ me_request) |].
  eapply trace_cons; [apply (v_accept _ _ _ _ _ _ _ users_request) |]. simpl.
  eapply trace_cons; [by eapply (v_get _ _ _ _ _ [] me_request [_] _ _ "acme"), cf_call |]. simpl.
  eapply trace_cons; [by eapply (v_get _ _ _ _ _ [_] users_request [] _ _ "acme"), cf_call |]. simpl.
  eapply trace_cons; [by eapply v_cache, (cf_probe _ _ _ 0 "acme") |]. simpl.
  eapply trace_cons; [by eapply v_cache, (cf_lead _ _ _ 0 "acme") |]. simpl.
  eapply trace_cons; [by eapply v_cache, (cf_probe _ _ _ 1 "acme") |]. simpl.
  eapply trace_cons; [by eapply v_cache, (cf_join _ _ _ 1 "acme" 0) |]. simpl.
  apply trace_nil.
Qed.

Lemma overlapping_requests_answered_witness :
  ∃ v tr' v', cf_calls (v_cf v) = [GWait "acme" 0; GWait "acme" 0] ∧
    trace (v_internal server_program) v tr' v' ∧ [me_request; users_request] ≡ₚ (v_answered v').*1.
Proof.
  destruct (overlapping_requests_answered demo_config demo_clock) as (s & Hb & Hall).
  assert (∃ ms w, v_start s =
    mkV (mkCF (mkCSys (mkCachedStore ms (cfg_cacheTTL demo_config) ∅) w ∅) [] [])
      (NewSubdomainResolver "localhost") (server_rbac, false) [] [] []) as (ms & w & Hs).
  { injection Hb as <-. by eexists _, _. }
  rewrite Hs in Hall.
  destruct (sharing_reachable ms (cfg_cacheTTL demo_config) w (server_rbac, false)) as [tr Htr].
  destruct (Hall _ _ Htr) as (_ & _ & tr' & v' & Htr' & _ & Han). eexists _, tr', v'. split_and!; [|exact Htr' | exact Han].
  reflexivity.
Defined.
