(* ===== verification/Lifecycle.v ===== *)
(** * Command cmd/server: the life of the process

    [main] from the environment to the exit code: configuration, startup, the goroutine
    that listens, the readiness flag, signals and the graceful shutdown.  The two
    goroutines, the requests being served, signals and the passing of time interleave.
    What [main] uses of net/http, os/signal and context is in the steps: [ListenAndServe]
    returns [ErrServerClosed] once [Shutdown] was called, [Shutdown] refuses new requests
    at once and returns when none is being served or its context expires, and a signal
    that is not caught kills the process.  The requests are served by the steps of
    [SiteRequests], any number of them at a time. *)
From S2P Require Import Prelude GoStrings GoLib Tenant MemoryStore Resolver TenantCtx CachedStore.
From S2P Require Import CacheFlights Middleware Rbac Config Site SiteRequests Server ServerRequests.
Set Default Goal Selector "!".

(** [shutdownTimeout]. *)
Definition shutdownTimeout : Z := 10 * time_Second.

(** A structured log event: its level, message and component; the other attributes are
    left out. *)
Inductive slog_level : Type := LevelInfo | LevelWarn | LevelError.
Record slog_event := mkLog { lg_level : slog_level; lg_msg : string; lg_component : string }.

Definition slog_Info (msg component : string) : slog_event := mkLog LevelInfo msg component.
Definition slog_Warn (msg component : string) : slog_event := mkLog LevelWarn msg component.
Definition slog_Error (msg component : string) : slog_event := mkLog LevelError msg component.

(** The handler the default logger gets. *)
Inductive slog_handler : Type := JSONHandler | TextHandler.

Definition logHandler (cfg : serverConfig) : slog_handler :=
  if decide (cfg_logFormat cfg = "json") then JSONHandler else TextHandler.

(** Where the main goroutine is.  [MDraining] is inside [Shutdown], with the deadline of
    its context and the error of closing the listener; [MSwitch] is before the [switch]
    on the error [Shutdown] returned. *)
Inductive main_pc : Type :=
| MReady
| MWait
| MUnready
| MStop
| MShutdown
| MDraining (deadline : Z) (lnerr : option error)
| MSwitch (deadline : Z) (err : option error).

(** Where the listening goroutine is: before [ListenAndServe], in its accept loop,
    after it, at its end. *)
Inductive listen_pc : Type :=
| LStart
| LServing
| LReturned (err : error)
| LDone.

(** [pc_notify]: the signals are caught; [pc_done]: the context of [NotifyContext] is
    cancelled; [pc_closing]: [Shutdown] was called. *)
Record proc := mkProc {
  pc_srv : vsys srv_app;
  pc_main : main_pc;
  pc_listen : listen_pc;
  pc_notify : bool;
  pc_done : bool;
  pc_closing : bool;
  pc_now : Z;
  pc_handler : slog_handler;
  pc_log : list slog_event
}.

Abbreviation srv_step := (v_step server_program).
Abbreviation srv_internal := (v_internal server_program).

(** The requests being served, all requests accepted and all responses given. *)
Definition pc_flight (p : proc) : list Request := (v_reqs (pc_srv p)).*1.
Definition pc_accepted (p : proc) : list Request := v_accepted (pc_srv p).
Definition pc_answered (p : proc) : list (Request * ResponseWriter) := v_answered (pc_srv p).

Inductive process : Type :=
| Running (p : proc)
| Exited (code : Z) (p : proc)
| Killed (p : proc).

(** ** [main] up to the start of the goroutine *)
Section start.
Context (fmt_q : string → string).

(** The result of startup: an exit code with what was logged, or a running process. *)
Definition server_main (env : environ) (w : world) (now : Z) : process + (Z * list slog_event) :=
  match loadServerConfig fmt_q env with
  | Err e => inr (1, [slog_Error "invalid configuration" "config"])%Z
  | Ok cfg =>
      let log := [slog_Info "configuration loaded" "config"] in
      match server_boot cfg w with
      | Panic msg => inr (2, log)%Z
      | Ret s =>
          inl (Running (mkProc (v_start s) MReady LStart true false false now (logHandler cfg) log))
      end
  end.

End start.

Inductive m_event : Type :=
| EMain
| EListen
| ESignal
| EAccept (r : Request)
| EServe (ev : v_event bool)
| ETime.

(** The main goroutine, statement by statement. *)
Inductive main_step : proc → process → Prop :=
| main_ready s s' l nt dn cl now h log :
    srv_step s (VWrite true) s' →
    main_step (mkProc s MReady l nt dn cl now h log)
      (Running (mkProc s' MWait l nt dn cl now h log))
| main_wait s l nt cl now h log :
    main_step (mkProc s MWait l nt true cl now h log)
      (Running (mkProc s MUnready l nt true cl now h log))
| main_unready s s' l nt dn cl now h log :
    srv_step s (VWrite false) s' →
    main_step (mkProc s MUnready l nt dn cl now h log)
      (Running (mkProc s' MStop l nt dn cl now h log))
| main_stop s l nt dn cl now h log :
    main_step (mkProc s MStop l nt dn cl now h log)
      (Running (mkProc s MShutdown l false dn cl now h
         (log ++ [slog_Info "shutdown signal received" "shutdown"])))
| main_shutdown s l nt dn cl now h log lnerr :
    (is_Some lnerr → l = LServing) →
    main_step (mkProc s MShutdown l nt dn cl now h log)
      (Running (mkProc s (MDraining (now + shutdownTimeout) lnerr) l nt dn true now h
         (log ++ [slog_Info "shutting down server" "shutdown"])))
| main_drained s l nt dn cl now h log deadline lnerr :
    v_reqs s = [] →
    main_step (mkProc s (MDraining deadline lnerr) l nt dn cl now h log)
      (Running (mkProc s (MSwitch deadline lnerr) l nt dn cl now h log))
| main_expired s l nt dn cl now h log deadline lnerr :
    (deadline ≤ now)%Z →
    main_step (mkProc s (MDraining deadline lnerr) l nt dn cl now h log)
      (Running (mkProc s (MSwitch deadline (Some DeadlineExceeded)) l nt dn cl now h log))
| main_clean s l nt dn cl now h log deadline :
    main_step (mkProc s (MSwitch deadline None) l nt dn cl now h log)
      (Exited 0 (mkProc s (MSwitch deadline None) l nt dn cl now h
         (log ++ [slog_Info "server shut down cleanly" "shutdown"])))
| main_warn s l nt dn cl now h log deadline e :
    (deadline ≤ now)%Z →
    main_step (mkProc s (MSwitch deadline (Some e)) l nt dn cl now h log)
      (Exited 0 (mkProc s (MSwitch deadline (Some e)) l nt dn cl now h
         (log ++ [slog_Warn "shutdown did not complete within timeout" "shutdown"])))
| main_error s l nt dn cl now h log deadline e :
    (now < deadline)%Z →
    main_step (mkProc s (MSwitch deadline (Some e)) l nt dn cl now h log)
      (Exited 1 (mkProc s (MSwitch deadline (Some e)) l nt dn cl now h
         (log ++ [slog_Error "shutdown error" "shutdown"]))).

(** The listening goroutine.  [ListenAndServe] fails at once when the address cannot be
    bound, and later when [Accept] fails for good. *)
Inductive listen_step : proc → process → Prop :=
| listen_start s m nt dn now h log :
    listen_step (mkProc s m LStart nt dn false now h log)
      (Running (mkProc s m LServing nt dn false now h
         (log ++ [slog_Info "server listening" "server"])))
| listen_closed s m l nt dn now h log log' :
    (l = LStart ∧ log' = log ++ [slog_Info "server listening" "server"]) ∨ (l = LServing ∧ log' = log) →
    listen_step (mkProc s m l nt dn true now h log)
      (Running (mkProc s m (LReturned ErrServerClosed) nt dn true now h log'))
| listen_error s m l nt dn cl now h log log' e :
    (l = LStart ∧ log' = log ++ [slog_Info "server listening" "server"]) ∨ (l = LServing ∧ log' = log) →
    errors_Is e ErrServerClosed = false →
    listen_step (mkProc s m l nt dn cl now h log)
      (Running (mkProc s m (LReturned e) nt dn cl now h log'))
| listen_returned s m nt dn cl now h log e :
    errors_Is e ErrServerClosed = true →
    listen_step (mkProc s m (LReturned e) nt dn cl now h log)
      (Running (mkProc s m LDone nt dn cl now h log))
| listen_failed s m nt dn cl now h log e :
    errors_Is e ErrServerClosed = false →
    listen_step (mkProc s m (LReturned e) nt dn cl now h log)
      (Exited 1 (mkProc s m (LReturned e) nt dn cl now h
         (log ++ [slog_Error "server error" "server"]))).

Inductive m_step : process → m_event → process → Prop :=
| mstep_main p q : main_step p q → m_step (Running p) EMain q
| mstep_listen p q : listen_step p q → m_step (Running p) EListen q
| mstep_signal s m l dn cl now h log :
    m_step (Running (mkProc s m l true dn cl now h log)) ESignal
      (Running (mkProc s m l true true cl now h log))
| mstep_kill s m l dn cl now h log :
    m_step (Running (mkProc s m l false dn cl now h log)) ESignal
      (Killed (mkProc s m l false dn cl now h log))
| mstep_accept s s' m nt dn now h log r :
    srv_step s (VAccept r) s' →
    m_step (Running (mkProc s m LServing nt dn false now h log)) (EAccept r)
      (Running (mkProc s' m LServing nt dn false now h log))
| mstep_serve s ev s' m l nt dn cl now h log :
    srv_internal s ev s' →
    m_step (Running (mkProc s m l nt dn cl now h log)) (EServe ev)
      (Running (mkProc s' m l nt dn cl now h log))
| mstep_time s m l nt dn cl now now' h log :
    (now ≤ now')%Z →
    m_step (Running (mkProc s m l nt dn cl now h log)) ETime
      (Running (mkProc s m l nt dn cl now' h log)).

(** ** The phases *)

(** [ready] is set. *)
Definition is_ready (m : main_pc) : bool := match m with MWait | MUnready => true | _ => false end.

(** [stop] has not been called. *)
Definition catches (m : main_pc) : bool :=
  match m with MReady | MWait | MUnready | MStop => true | _ => false end.

(** [Shutdown] has been called. *)
Definition is_closing (m : main_pc) : bool :=
  match m with MDraining _ _ | MSwitch _ _ => true | _ => false end.

(** [ListenAndServe] returned because of [Shutdown]. *)
Definition has_closed (l : listen_pc) : bool :=
  match l with LDone => true | LReturned e => errors_Is e ErrServerClosed | _ => false end.

(** Before the signal. *)
Definition before_signal (m : main_pc) : bool := match m with MReady | MWait => true | _ => false end.

(** [Shutdown] returns when no request is being served, or when its context expired. *)
Definition shutdown_outcome (p : proc) : Prop :=
  ∀ deadline err, pc_main p = MSwitch deadline err →
    pc_flight p = [] ∨ (err = Some DeadlineExceeded ∧ (deadline ≤ pc_now p)%Z).

Record proc_ok (domain : string) (p : proc) : Prop := {
  po_srv : srv_v_ok domain (is_ready (pc_main p)) (pc_srv p);
  po_notify : pc_notify p = catches (pc_main p);
  po_done : before_signal (pc_main p) = false → pc_done p = true;
  po_closing : pc_closing p = is_closing (pc_main p);
  po_listen : has_closed (pc_listen p) = true → pc_closing p = true;
  po_outcome : shutdown_outcome p
}.

(** Why a process ended. *)
Definition exit_reason (code : Z) (p : proc) : Prop :=
  (code = 0%Z ∧ pc_done p = true ∧
   ((pc_flight p = [] ∧ last (pc_log p) = Some (slog_Info "server shut down cleanly" "shutdown")) ∨
    (last (pc_log p) = Some (slog_Warn "shutdown did not complete within timeout" "shutdown") ∧
     ∃ deadline err, pc_main p = MSwitch deadline (Some err) ∧ (deadline ≤ pc_now p)%Z))) ∨
  (code = 1%Z ∧ ∃ l, last (pc_log p) = Some l ∧ lg_level l = LevelError).

Definition process_ok (domain : string) (q : process) : Prop :=
  match q with
  | Running p => proc_ok domain p
  | Exited code p => proc_ok domain p ∧ exit_reason code p
  | Killed p => proc_ok domain p ∧ catches (pc_main p) = false
  end.

(** The fields a step leaves alone. *)
Ltac proc_solve :=
  split; unfold shutdown_outcome; simpl in *; try done;
  eauto using srv_step_ok; try (intros ? ? [= <- <-]; auto).

Lemma main_step_ok domain p q : main_step p q → proc_ok domain p → process_ok domain q.
Proof.
  intros Hs [Hsrv Hn Hd Hcl Hl Hout]. unfold shutdown_outcome in Hout.
  destruct Hs; simpl in *; try (by proc_solve).
  - pose proof (srv_step_ok _ _ _ _ _ H Hsrv). by proc_solve.
  - pose proof (srv_step_ok _ _ _ _ _ H Hsrv). by proc_solve.
  - proc_solve. left. unfold pc_flight. simpl. by rewrite H.
  - split; [by proc_solve |]. left. unfold exit_reason; simpl; rewrite last_snoc. split_and!; [done | by auto |].
    left. destruct (Hout _ _ eq_refl) as [?|[? _]]; done.
  - split; [by proc_solve |]. left. unfold exit_reason; simpl; rewrite last_snoc. split_and!; [done | by auto |].
    right. eauto.
  - split; [by proc_solve |]. right. unfold exit_reason; simpl; rewrite last_snoc. eauto.
Qed.

Lemma listen_step_ok domain p q : listen_step p q → proc_ok domain p → process_ok domain q.
Proof.
  intros Hs [Hsrv Hn Hd Hcl Hl Hout]. unfold shutdown_outcome in Hout.
  destruct Hs; simpl in *; try (by proc_solve).
  - proc_solve. congruence.
  - split; [by proc_solve |]. right. simpl. rewrite last_snoc. eauto.
Qed.

(** Serving a request takes none up. *)
Lemma v_internal_flight v ev v' : srv_internal v ev v' → v_reqs v = [] → v_reqs v' = [].
Proof.
  intros [Hs Hev] Hq. destruct Hs; simpl in *; try done; try (by apply app_nil in Hq as [_ ?]).
  all: by destruct qs1.
Qed.

Lemma m_step_ok domain q ev q' : m_step q ev q' → process_ok domain q → process_ok domain q'.
Proof.
  intros Hs Hok. destruct Hs as [| | | |s s' m nt dn now h log r Hv|s e s' m l nt dn cl now h log Hv|]; simpl in *.
  - by eapply main_step_ok.
  - by eapply listen_step_ok.
  - destruct Hok as [Hsrv Hn Hd Hcl Hl Hout]. by proc_solve.
  - split; [done |]. pose proof (po_notify _ _ Hok) as Hn. simpl in Hn. done.
  - destruct Hok as [Hsrv Hn Hd Hcl Hl Hout]. pose proof (srv_step_ok _ _ _ _ _ Hv Hsrv). proc_solve.
    intros d e ->. simpl in Hcl. done.
  - destruct Hok as [Hsrv Hn Hd Hcl Hl Hout].
    assert (srv_v_ok domain (is_ready m) s') as Hsrv'.
    { destruct Hv as [Hv He]. pose proof (srv_step_ok _ _ _ _ _ Hv Hsrv) as H. by destruct e. }
    proc_solve. intros d err ->. destruct (Hout _ _ eq_refl) as [Hf|?]; [|by right]. left.
    unfold pc_flight in *. simpl in *. apply fmap_nil_inv in Hf. by rewrite (v_internal_flight _ _ _ Hv Hf).
  - destruct Hok as [Hsrv Hn Hd Hcl Hl Hout]. proc_solve.
    intros d e ->. destruct (Hout _ _ eq_refl) as [?|[? ?]]; [by left | right; simpl in *; split; [done | lia]].
Qed.

Lemma po_requests domain p : proc_ok domain p → pc_accepted p ≡ₚ (pc_answered p).*1 ++ pc_flight p.
Proof. intros [Hsrv _ _ _ _ _]. apply Hsrv. Qed.

Lemma server_main_cases fmt_q env clock now :
  (∃ e, loadServerConfig fmt_q env = Err e ∧
     server_main fmt_q env (mkWorld heap_empty clock 0) now =
       inr (1, [slog_Error "invalid configuration" "config"])%Z) ∨
  (∃ cfg p, loadServerConfig fmt_q env = Ok cfg ∧
     server_main fmt_q env (mkWorld heap_empty clock 0) now = inl (Running p) ∧
     pc_handler p = logHandler cfg ∧ proc_ok (cfg_tenantBaseDomain cfg) p).
Proof.
  unfold server_main. destruct (loadServerConfig fmt_q env) as [cfg|e]; [right | left; eauto].
  destruct (server_boot_ok cfg clock) as (cs & s & -> & Hok).
  eexists cfg, _. split_and!; [done | done | done |].
  split; unfold shutdown_outcome; simpl; try done. by eapply srv_start_ok.
Qed.

(** (C7) The life of the server, for every environment and every interleaving of the two
    goroutines, signals, time and requests that overlap.  With an
    invalid configuration [main] exits with 1 before anything is started; otherwise it
    runs.  While it runs every accepted request is answered or being served, and an
    answer given now is the server's answer with [ready] as the phase says: /readyz
    answers 503 before startup is complete and again from the first step of the shutdown
    on; once [Shutdown] was called nothing is accepted any more.  It exits with 0 only
    after a signal: cleanly, and then every request it ever accepted was answered, or
    with a warning, and then the deadline had passed.  It exits with 1 only with an error
    in the log, and a signal kills it only when [stop] had been called, that is a second
    signal during the shutdown. *)
Theorem server_lifecycle fmt_q env clock now :
  match loadServerConfig fmt_q env with
  | Err _ =>
      server_main fmt_q env (mkWorld heap_empty clock 0) now =
        inr (1, [slog_Error "invalid configuration" "config"])%Z
  | Ok cfg =>
      ∃ p0, server_main fmt_q env (mkWorld heap_empty clock 0) now = inl (Running p0) ∧
      ∀ tr q, trace m_step (Running p0) tr q →
      match q with
      | Running p =>
          pc_accepted p ≡ₚ (pc_answered p).*1 ++ pc_flight p ∧
          (∀ r w q', m_step q (EServe (VAnswer r w)) q' →
             w = server_answer (cfg_tenantBaseDomain cfg) (is_ready (pc_main p)) r) ∧
          (pc_closing p = true → is_ready (pc_main p) = false ∧ ∀ r q', ¬ m_step q (EAccept r) q')
      | Exited code p =>
          exit_reason code p ∧ (pc_flight p = [] → pc_accepted p ≡ₚ (pc_answered p).*1)
      | Killed p => pc_done p = true ∧ catches (pc_main p) = false
      end
  end.
Proof.
  destruct (server_main_cases fmt_q env clock now) as [(e & -> & ->)|(cfg & p0 & -> & -> & _ & Hok)]; [done |].
  exists p0. split; [done |]. intros tr q Htr.
  pose proof (trace_inv _ _ (m_step_ok (cfg_tenantBaseDomain cfg)) _ _ _ Htr Hok) as Hq.
  destruct q as [p|code p|p]; simpl in Hq.
  - split_and!; [by eapply po_requests | |].
    + intros r w q' Hs. inversion Hs as [| | | | |? ? ? ? ? ? ? ? ? ? ? [Hv _]|]; subst.
      by destruct (v_step_answer _ _ _ _ _ _ _ (server_program_ok _) _ _ _ _ _ Hv (po_srv _ _ Hq)).
    + intros Hcl. split.
      * rewrite (po_closing _ _ Hq) in Hcl. by destruct (pc_main p).
      * intros r q' Hs. inversion Hs; subst. done.
  - destruct Hq as [Hp Hr]. split; [done |]. intros Hf. rewrite (po_requests _ _ Hp), Hf.
    by rewrite app_nil_r.
  - destruct Hq as [Hp Hc]. split; [|done]. apply (po_done _ _ Hp). by destruct (pc_main p).
Qed.

(** ** The shutdown ends *)

(** [Shutdown] has not met an error. *)
Definition main_fine (m : main_pc) : Prop :=
  match m with MDraining _ (Some _) | MSwitch _ (Some _) => False | _ => True end.

Definition phase_left (m : main_pc) (done : bool) : nat :=
  match m with
  | MReady => 7
  | MWait => if done then 5 else 6
  | MUnready => 4
  | MStop => 3
  | MShutdown => 2
  | MDraining _ _ => 1
  | MSwitch _ _ => 0
  end.

(** The statements of [main] and the answers that are left. *)
Definition work_left (q : process) : nat :=
  match q with
  | Running p => phase_left (pc_main p) (pc_done p) + length (pc_flight p)
  | _ => 0
  end.

(** On the way to a clean end: nothing more is accepted. *)
Definition winding_down (domain : string) (accepted : list Request) (q : process) : Prop :=
  ∃ p, q = Running p ∧ proc_ok domain p ∧ main_fine (pc_main p) ∧ pc_accepted p = accepted.

Lemma serve_runs s tr s' m l nt dn cl now h log :
  trace srv_internal s tr s' →
  trace m_step (Running (mkProc s m l nt dn cl now h log)) (EServe <$> tr)
    (Running (mkProc s' m l nt dn cl now h log)).
Proof. induction 1 as [|s ev s1 tr s2 Hs _ IH]; simpl; [apply trace_nil | by eapply trace_cons; [apply mstep_serve |]]. Qed.

Lemma set_ready_runs v b :
  ∃ v', srv_step v (VWrite b) v' ∧ v_reqs v' = v_reqs v ∧ v_accepted v' = v_accepted v.
Proof.
  destruct v as [[[cs w C] calls fls] sr [rb rd] qs ac an].
  eexists. split; [by apply (v_write server_program cs w C calls fls sr (rb, rd) qs ac an b cs (rb, b) w) | done].
Qed.

Lemma wind_step domain accepted q :
  winding_down domain accepted q → work_left q ≠ 0 →
  ∃ tr q', trace m_step q tr q' ∧ winding_down domain accepted q' ∧ work_left q' < work_left q.
Proof.
  intros (p & -> & Hok & Hm & Hac) Hw.
  enough (∃ tr p', trace m_step (Running p) tr (Running p') ∧ main_fine (pc_main p') ∧
    pc_accepted p' = accepted ∧ work_left (Running p') < work_left (Running p))
    as (tr & p' & Htr & Hm' & Hac' & Hlt).
  { exists tr, (Running p'). split; [done |]. split; [|done]. exists p'.
    split_and!; [done | exact (trace_inv _ _ (m_step_ok domain) _ _ _ Htr Hok) | done | done]. }
  destruct Hok as [Hsrv Hn Hd Hcl Hl Hout]. unfold shutdown_outcome, pc_accepted in *.
  assert (∀ ev p', m_step (Running p) ev (Running p') → trace m_step (Running p) [ev] (Running p')) as Hone.
  { intros ev p' Hs. eapply trace_cons; [exact Hs | apply trace_nil]. }
  destruct p as [s m l nt dn cl now h log]; simpl in *.
  destruct m as [| | | | |d [e|]|d [e|]]; simpl in *; try done.
  - destruct (set_ready_runs s true) as (s' & Hs & Hq' & Hac').
    eexists _, _. split; [by eapply Hone, mstep_main, main_ready |]. unfold pc_flight; simpl. rewrite Hq', Hac'.
    split_and!; [done.. | destruct dn; lia].
  - destruct dn.
    + eexists _, _. split; [eapply Hone, mstep_main, main_wait |]. unfold pc_flight; simpl. split_and!; [done.. | lia].
    + subst nt. eexists _, _. split; [eapply Hone, mstep_signal |]. unfold pc_flight; simpl. split_and!; [done.. | lia].
  - destruct (set_ready_runs s false) as (s' & Hs & Hq' & Hac').
    eexists _, _. split; [by eapply Hone, mstep_main, main_unready |]. unfold pc_flight; simpl. rewrite Hq', Hac'.
    split_and!; [done.. | lia].
  - eexists _, _. split; [eapply Hone, mstep_main, main_stop |]. unfold pc_flight; simpl. split_and!; [done.. | lia].
  - eexists _, _. split; [eapply Hone, mstep_main, (main_shutdown _ _ _ _ _ _ _ _ None); by intros [] |].
    unfold pc_flight; simpl. split_and!; [done.. | lia].
  - destruct (v_reqs s) as [|q qs] eqn:Hq.
    + eexists _, _. split; [by eapply Hone, mstep_main, main_drained |]. unfold pc_flight; simpl. rewrite Hq.
      simpl. split_and!; [done.. | lia].
    + destruct (requests_finish _ _ _ _ _ _ _ (server_program_ok _) _ _ Hsrv) as (tr & s' & Htr & _ & Hq' & Hac').
      eexists _, _. split; [exact (serve_runs _ _ _ _ _ _ _ _ _ _ _ Htr) |]. unfold pc_flight; simpl.
      rewrite Hq, Hq', Hac'. simpl. split_and!; [done.. | lia].
  - destruct (Hout _ _ eq_refl) as [Hf|[? _]]; [|done]. unfold pc_flight in *. simpl in *. by rewrite Hf in Hw.
Qed.

(** Without an error, the end is clean. *)
Lemma fine_ends domain p :
  proc_ok domain p → main_fine (pc_main p) →
  ∃ tr p', trace m_step (Running p) tr (Exited 0 p') ∧
    pc_accepted p' = pc_accepted p ∧ pc_accepted p' ≡ₚ (pc_answered p').*1.
Proof.
  intros Hp Hm.
  destruct (trace_measure _ _ _ (wind_step domain (pc_accepted p)) (Running p))
    as (tr' & q & Htr' & (p1 & -> & Hok1 & Hm1 & Hac) & Hw); [by exists p |].
  pose proof (po_requests _ _ Hok1) as Hreq.
  destruct p1 as [s m l nt dn cl nw h log]. simpl in *. unfold pc_flight, pc_accepted, pc_answered in *. simpl in *.
  assert ((v_reqs s).*1 = [] ∧ ∃ d, m = MSwitch d None) as [Hq [d ->]].
  { destruct m as [| | | | |? [|]|d [|]], (v_reqs s), dn; simpl in *; try lia; try done; eauto. }
  eexists (tr' ++ [EMain]), _. split.
  { eapply trace_app; [exact Htr' |]. eapply trace_cons; [apply mstep_main, main_clean | apply trace_nil]. }
  simpl. split; [done |]. by rewrite Hreq, Hq, app_nil_r.
Qed.

(** The exit code when [Shutdown] returned an error: the deadline decides. *)
Definition error_code (deadline now : Z) : Z := if (deadline <=? now)%Z then 0 else 1.

Lemma switch_ends p deadline e :
  pc_main p = MSwitch deadline (Some e) →
  ∃ log, trace m_step (Running p) [EMain]
    (Exited (error_code deadline (pc_now p))
       (mkProc (pc_srv p) (pc_main p) (pc_listen p) (pc_notify p) (pc_done p) (pc_closing p) (pc_now p)
          (pc_handler p) log)).
Proof.
  intros Hm. destruct p as [s m l nt dn cl nw h log]. simpl in *. subst m. unfold error_code.
  destruct (Z.leb_spec deadline nw); eexists; (eapply trace_cons; [|apply trace_nil]); apply mstep_main.
  - by apply main_warn.
  - by apply main_error.
Qed.

(** [Shutdown] met an error of the listener: the requests can still be answered. *)
Lemma failed_shutdown_ends domain p deadline e :
  proc_ok domain p → pc_main p = MDraining deadline (Some e) →
  ∃ tr p', trace m_step (Running p) tr (Exited (error_code deadline (pc_now p)) p') ∧
    pc_accepted p' = pc_accepted p ∧ pc_accepted p' ≡ₚ (pc_answered p').*1.
Proof.
  intros Hok Hm. destruct p as [s m l nt dn cl nw h log]. simpl in *. subst m.
  destruct (requests_finish _ _ _ _ _ _ _ (server_program_ok _) _ _ (po_srv _ _ Hok)) as (tr & s' & Htr & _ & Hq' & Hac').
  pose proof (serve_runs s tr s' (MDraining deadline (Some e)) l nt dn cl nw h log Htr) as Hserve.
  pose proof (trace_inv _ _ (m_step_ok domain) _ _ _ Hserve Hok) as Hok'. simpl in Hok'.
  destruct (switch_ends (mkProc s' (MSwitch deadline (Some e)) l nt dn cl nw h log) deadline e eq_refl) as [log' Hend].
  eexists _, _. split.
  { eapply trace_app; [exact Hserve |]. eapply trace_cons; [|exact Hend]. by apply mstep_main, main_drained. }
  pose proof (po_requests _ _ Hok') as Hreq. unfold pc_accepted, pc_answered, pc_flight in *. simpl in *.
  split; [done |]. by rewrite Hreq, Hq', app_nil_r.
Qed.

(** (C8) The server can always be shut down, and the shutdown is bounded.  From every
    reachable state in which it runs, some run without a further request ends the process.
    As long as [Shutdown] has returned no error and has met none closing the listener, it
    can end with exit code 0 and every accepted request answered.  When closing the
    listener failed, every accepted request can still be answered, and the exit code is 1,
    or 0 once the deadline has passed; when [Shutdown] has returned an error, one more
    statement ends the process with that code.  And however long requests take, once the
    deadline has passed two statements of [main] end the process with code 0, whatever is
    still being served. *)
Theorem server_shuts_down fmt_q env clock now cfg p0 tr p :
  loadServerConfig fmt_q env = Ok cfg →
  server_main fmt_q env (mkWorld heap_empty clock 0) now = inl (Running p0) →
  trace m_step (Running p0) tr (Running p) →
  match pc_main p with
  | MSwitch deadline (Some _) =>
      ∃ p', trace m_step (Running p) [EMain] (Exited (error_code deadline (pc_now p)) p')
  | m => ∃ tr' code p', trace m_step (Running p) tr' (Exited code p') ∧
      pc_accepted p' = pc_accepted p ∧ pc_accepted p' ≡ₚ (pc_answered p').*1 ∧
      code = match m with MDraining deadline (Some _) => error_code deadline (pc_now p) | _ => 0%Z end
  end ∧
  (∀ deadline lnerr, pc_main p = MDraining deadline lnerr → (deadline ≤ pc_now p)%Z →
     ∃ p', trace m_step (Running p) [EMain; EMain] (Exited 0 p')).
Proof.
  intros Hcfg Hmain Htr.
  destruct (server_main_cases fmt_q env clock now) as [(e & E & _)|(cfg' & p1 & E & Em & _ & Hok)];
    [congruence |].
  rewrite Hmain in Em. injection Em as <-. rewrite Hcfg in E. injection E as <-.
  pose proof (trace_inv _ _ (m_step_ok (cfg_tenantBaseDomain cfg)) _ _ _ Htr Hok) as Hp. simpl in Hp. split.
  - assert (main_fine (pc_main p) → ∃ tr' code p', trace m_step (Running p) tr' (Exited code p') ∧
      pc_accepted p' = pc_accepted p ∧ pc_accepted p' ≡ₚ (pc_answered p').*1 ∧ code = 0%Z) as Hfine.
    { intros Hm. destruct (fine_ends _ _ Hp Hm) as (tr' & p' & ? & ? & ?). eauto 10. }
    destruct (pc_main p) as [| | | | |d [e|]|d [e|]] eqn:Hm; try by apply Hfine.
    + destruct (failed_shutdown_ends _ _ _ _ Hp Hm) as (tr' & p' & ? & ? & ?). eauto 10.
    + destruct (switch_ends _ _ _ Hm) as [log Hend]. eauto.
  - intros d lnerr Hm Hnow. destruct p as [s m l nt dn cl nw h log]. simpl in *. subst m.
    eexists. eapply trace_cons; [by apply mstep_main, main_expired |].
    eapply trace_cons; [by apply mstep_main, main_warn | apply trace_nil].
Qed.

(** ** A concrete run: a request is accepted, a signal comes, the shutdown begins while
    the request is being served *)
Definition demo_main : process + (Z * list slog_event) :=
  server_main (λ s, s) ∅ (mkWorld heap_empty demo_clock 0) 0.

Definition demo_proc : proc :=
  match demo_main with
  | inl (Running p) => p
  | _ => mkProc (v_start ((mkManager None None, (rbac_New, false)), mkWorld heap_empty demo_clock 0)) MReady LStart
           true false false 0 TextHandler []
  end.

Lemma demo_main_runs : demo_main = inl (Running demo_proc).
Proof. reflexivity. Qed.

Definition demo_request : Request := mkRequest "GET" "acme.localhost" ["api"; "me"] Background.

(** Inside [Shutdown], with one request being served. *)
Definition demo_draining : proc :=
  mkProc (mkV (v_cf (pc_srv demo_proc)) (v_resolver (pc_srv demo_proc)) (v_app (pc_srv demo_proc))
            [(demo_request, RNew)] [demo_request] []) (MDraining shutdownTimeout None) LServing
    false true true 0 TextHandler
    [slog_Info "configuration loaded" "config"; slog_Info "server listening" "server";
     slog_Info "shutdown signal received" "shutdown"; slog_Info "shutting down server" "shutdown"].

Lemma draining_from cs w C calls fls sr rb r h log :
  ∃ tr, trace m_step
    (Running (mkProc (mkV (mkCF (mkCSys cs w C) calls fls) sr (rb, false) [] [] []) MReady LStart
                true false false 0 h log)) tr
    (Running (mkProc (mkV (mkCF (mkCSys cs w C) calls fls) sr (rb, false) [(r, RNew)] [r] [])
                (MDraining shutdownTimeout None) LServing false true true 0 h
                (((log ++ [slog_Info "server listening" "server"]) ++
                  [slog_Info "shutdown signal received" "shutdown"]) ++
                 [slog_Info "shutting down server" "shutdown"]))).
Proof.
  eexists.
  eapply trace_cons; [by apply mstep_listen, listen_start |].
  eapply trace_cons; [by eapply mstep_main, main_ready, (v_write _ _ _ _ _ _ _ _ _ _ _ true) |].
  eapply trace_cons; [by eapply mstep_accept, v_accept |].
  eapply trace_cons; [apply mstep_signal |].
  eapply trace_cons; [apply mstep_main, main_wait |].
  eapply trace_cons; [by eapply mstep_main, main_unready, (v_write _ _ _ _ _ _ _ _ _ _ _ false) |].
  eapply trace_cons; [apply mstep_main, main_stop |].
  eapply trace_cons; [by apply mstep_main, (main_shutdown _ _ _ _ _ _ _ _ None); intros [] |].
  apply trace_nil.
Qed.

Lemma demo_draining_reachable :
  ∃ tr, trace m_step (Running demo_proc) tr (Running demo_draining).
Proof.
  destruct (v_cf (pc_srv demo_proc)) as [[cs w C] calls fls] eqn:Hcf.
  destruct (draining_from cs w C calls fls (v_resolver (pc_srv demo_proc)) server_rbac demo_request TextHandler
    [slog_Info "configuration loaded" "config"]) as [tr Htr].
  rewrite <- Hcf in Htr. by exists tr.
Qed.

Lemma server_lifecycle_witness :
  pc_accepted demo_draining ≡ₚ (pc_answered demo_draining).*1 ++ pc_flight demo_draining ∧
  ∀ r q', ¬ m_step (Running demo_draining) (EAccept r) q'.
Proof.
  pose proof (server_lifecycle (λ s, s) ∅ demo_clock 0) as (p0 & Hp0 & Hall).
  fold demo_main in Hp0. rewrite demo_main_runs in Hp0. injection Hp0 as <-.
  destruct demo_draining_reachable as [tr Htr].
  destruct (Hall _ _ Htr) as (Hreq & _ & Hcl). split; [exact Hreq |]. by apply Hcl.
Defined.

Lemma server_shuts_down_witness :
  ∃ tr p, trace m_step (Running demo_draining) tr (Exited 0 p) ∧
    [demo_request] ≡ₚ (pc_answered p).*1.
Proof.
  destruct demo_draining_reachable as [tr Htr].
  assert (loadServerConfig (λ s, s) ∅ = Ok (mkConfig 8080 "localhost" 10000000000 "text")) as Hcfg
    by (vm_compute; reflexivity).
  pose proof demo_main_runs as Hmain. unfold demo_main in Hmain.
  destruct (server_shuts_down (λ s, s) ∅ demo_clock 0 _ demo_proc tr demo_draining
    Hcfg Hmain Htr) as [Hend _].
  destruct Hend as (tr' & code & p' & Htr' & Hac & Han & ->). exists tr', p'. split; [exact Htr' |].
  rewrite <- Han, Hac. reflexivity.
Defined.
