(* ===== verification/HealthProbe.v ===== *)
(** * cmd/healthcheck against cmd/server

    The container's health check is a second program: it reads the same [PORT], asks for
    /healthz with an HTTP client that gives up after [requestTimeout], and turns the
    answer into an exit code.  Here its request meets the server process of
    [Lifecycle]. *)
From S2P Require Import Prelude GoStrings GoLib Tenant MemoryStore Resolver TenantCtx CachedStore.
From S2P Require Import CacheFlights Middleware Rbac Config Site SiteRequests Server ServerRequests Lifecycle.
Set Default Goal Selector "!".

(** ** The HTTP client *)

(** The segments between slashes. *)
Fixpoint split_slash (s : string) : list string :=
  match s with
  | EmptyString => [EmptyString]
  | String c s =>
      if decide (c = "/"%char) then EmptyString :: split_slash s
      else match split_slash s with
           | [] => []
           | x :: xs => String c x :: xs
           end
  end.

(** The request a GET of an http URL sends, if the URL has a host and a path. *)
Definition client_request (url : string) : option Request :=
  if String.prefix "http://" url then
    let rest := str_drop 7 url in
    (λ i, mkRequest "GET" (str_take i rest) (split_slash (str_drop (S i) rest)) Background)
    <$> strings_Index rest (str1 "/")
  else None.

(** What becomes of a request: no connection, or a response with its status after some
    time. *)
Inductive exchange : Type :=
| NoConnection (err : error)
| Answered (after : Z) (status : Z).

(** [client.Get] of a client with [Timeout]: its context expires after that time. *)
Definition client_Get (timeout : Z) (ex : exchange) : result Z :=
  match ex with
  | NoConnection err => Err err
  | Answered after status => if (after <=? timeout)%Z then Ok status else Err DeadlineExceeded
  end.

(** [main] of the health check, with what becomes of its request. *)
Definition healthcheck_run (env : environ) (ex : exchange) : Z :=
  healthcheck_main (λ _, client_Get requestTimeout ex) env.

(** ** Its request *)
Lemma dec_digits_no_slash n : (0 ≤ n < 10 ^ 20)%Z → str_mem "/" (dec_digits 20 n "") = false.
Proof.
  intros Hn. destruct (dec_digits_ind (λ _ acc, str_mem "/" acc = false) 20 n "")
    as (d & s & _ & _ & H); [exact Hn | done | | done | done].
  intros m acc Hm Hc. cbn [str_mem]. rewrite Hc, orb_false_r. apply Ascii.eqb_neq.
  pose proof (Z.mod_pos_bound m 10 ltac:(lia)) as Hd. destruct (digit_char_cases (m mod 10) Hd) as [Hv _].
  intros Heq. rewrite <- Heq in Hv. discriminate.
Qed.

Lemma Index_first c a b : str_mem c a = false → strings_Index (a +:+ String c b) (str1 c) = Some (String.length a).
Proof.
  intros Ha. destruct (strings_Index (a +:+ String c b) (str1 c)) as [i|] eqn:Hi.
  - destruct (Index_str1_Some _ _ _ Hi) as [Hm Hs].
    destruct (str_sep_inj c a (str_take i (a +:+ String c b)) b (str_drop (S i) (a +:+ String c b)) Ha Hm) as [Hl _];
      [exact Hs |].
    assert (i ≤ String.length (a +:+ String c b)) as Hle.
    { clear -Hi. revert i Hi. generalize (a +:+ String c b) as s.
      induction s as [|d s IH]; intros i; [done |]. cbn [strings_Index]. rewrite prefix_str1.
      destruct (Ascii.eqb c d); [by intros [= <-]; simpl; lia |].
      destruct (strings_Index s (str1 c)) as [j|]; [|done]. intros [= <-]. simpl. specialize (IH j eq_refl). lia. }
    f_equal. rewrite Hl. symmetry. clear -Hle. revert i Hle. generalize (a +:+ String c b) as s.
    induction s as [|d s IH]; intros [|i]; simpl; try done; [lia |]. intros Hle. f_equal. apply IH. lia.
  - apply Index_str1_None in Hi. rewrite str_mem_app in Hi. simpl in Hi.
    by rewrite Ascii.eqb_refl, orb_true_r in Hi.
Qed.

Definition probe_request (host : string) : Request := mkRequest "GET" host ["healthz"] Background.

Lemma probe_url host :
  str_mem "/" host = false → client_request ("http://" +:+ host +:+ "/healthz") = Some (probe_request host).
Proof.
  intros Hh. unfold client_request.
  assert (String.prefix "http://" ("http://" +:+ host +:+ "/healthz") = true) as -> by (by destruct host).
  change (str_drop 7 ("http://" +:+ host +:+ "/healthz")) with (host +:+ String "/" "healthz").
  rewrite (Index_first _ _ _ Hh). cbn [fmap option_fmap option_map]. rewrite str_take_app.
  replace (str_drop (S (String.length host)) (host +:+ String "/" "healthz")) with "healthz"; [done |].
  clear Hh. induction host as [|c host IH]; [done |]. exact IH.
Qed.

Lemma healthcheck_request fmt_q env cfg :
  loadServerConfig fmt_q env = Ok cfg →
  client_request (healthcheck_url env) = Some (probe_request ("127.0.0.1" +:+ server_addr cfg)).
Proof.
  intros [Hp Hr]%healthcheck_url_addr. unfold healthcheck_url, server_addr. rewrite Hp.
  rewrite <- (probe_url ("127.0.0.1" +:+ ":" +:+ fmt_d (cfg_port cfg))).
  - done.
  - unfold fmt_d. rewrite (proj2 (Z.ltb_ge _ _)) by lia. rewrite !str_mem_app, dec_digits_no_slash by lia. done.
Qed.

(** /healthz is answered 200 whatever the host, the base domain and [ready]. *)
Lemma healthz_ok domain ready host : rw_status (server_answer domain ready (probe_request host)) = Some StatusOK.
Proof. done. Qed.

(** (C38) The health check tells whether the server answers.  Both programs read the same
    environment; whenever the server accepts it, the check's request goes to the address
    the server listens on and is for /healthz.  In every state the running server can
    reach, starting up and shutting down included, and whatever the base domain is, the
    answer to that request has status 200: the check exits with 0 when it arrives within
    the client's timeout, and with 1 when it comes later or the server cannot be
    reached. *)
Theorem healthcheck_tells_liveness fmt_q env cfg clock now :
  loadServerConfig fmt_q env = Ok cfg →
  ∃ r p0, client_request (healthcheck_url env) = Some r ∧
    r_Host r = "127.0.0.1" +:+ server_addr cfg ∧ r_path r = ["healthz"] ∧
    server_main fmt_q env (mkWorld heap_empty clock 0) now = inl (Running p0) ∧
    (∀ tr p w q', trace m_step (Running p0) tr (Running p) → m_step (Running p) (EServe (VAnswer r w)) q' →
       ∃ status, rw_status w = Some status ∧
         ∀ after, healthcheck_run env (Answered after status) = (if (after <=? requestTimeout)%Z then 0 else 1)%Z) ∧
    ∀ err, healthcheck_run env (NoConnection err) = 1%Z.
Proof.
  intros Hcfg. exists (probe_request ("127.0.0.1" +:+ server_addr cfg)).
  destruct (server_main_cases fmt_q env clock now) as [(e & E & _)|(cfg' & p0 & E & Em & _ & Hok)]; [congruence |].
  assert (cfg' = cfg) as -> by congruence. exists p0.
  split_and!; [by eapply healthcheck_request | done | done | done | | done].
  intros tr p w q' Htr Hs. exists StatusOK.
  pose proof (trace_inv _ _ (m_step_ok (cfg_tenantBaseDomain cfg)) _ _ _ Htr Hok) as Hp. simpl in Hp.
  inversion Hs as [| | | | |? ? ? ? ? ? ? ? ? ? ? [Hv _]|]; subst.
  destruct (v_step_answer _ _ _ _ _ _ _ (server_program_ok _) _ _ _ _ _ Hv (po_srv _ _ Hp)) as [-> _].
  split; [apply healthz_ok |]. intros after. unfold healthcheck_run, healthcheck_main, client_Get.
  by destruct (after <=? requestTimeout)%Z.
Qed.

(** On port 9090, with a base domain under which the probe's host would be a tenant's. *)
Definition probe_env : environ := {["PORT" := "9090"; "TENANT_BASE_DOMAIN" := "0.0.1"]}.

Lemma healthcheck_tells_liveness_witness :
  ∃ r, client_request (healthcheck_url probe_env) = Some r ∧ r_Host r = "127.0.0.1:9090" ∧
    SubdomainResolver_Resolve (NewSubdomainResolver "0.0.1") r = Ok "127".
Proof.
  destruct (healthcheck_tells_liveness (λ s, s) probe_env (mkConfig 9090 "0.0.1" 10000000000 "text") demo_clock 0)
    as (r & p0 & Hr & Hh & Hp & _); [vm_compute; reflexivity |].
  exists r. split; [exact Hr |]. split; [exact Hh |]. unfold SubdomainResolver_Resolve. rewrite Hh.
  vm_compute. reflexivity.
Defined.
