(* ===== verification/ResponseBodies.v ===== *)
(** * Response bodies on the wire

    The handlers write JSON with [json.NewEncoder(w).Encode]: the compact text of a value,
    with the escapes of encoding/json, and a newline.  A reader of that text gets the
    value back, so that what a client sees is what the handler meant, whatever an id, a
    role or an error message contains. *)
From S2P Require Import Prelude GoStrings GoLib GoTime GoJson Tenant EventBus EventCodec MemoryStore RetryQueue Admin.
From S2P Require Import TenantCtx CachedStore Middleware Site Rbac Server.
Set Default Goal Selector "!".
Local Open Scope Z_scope.

(** ** Writing *)

(** Pieces with a separator between them. *)
Fixpoint sep_by {A} (x : A) (ls : list (list A)) : list A :=
  match ls with
  | [] => []
  | l :: ls => match ls with [] => l | _ => l ++ x :: sep_by x ls end
  end.

(** [Encode], without the newline. *)
Fixpoint json_text (j : json) : list Z :=
  match j with
  | JNull => bytes_of "null"
  | JString s => quote_string (bytes_of s)
  | JArray l => 91 :: sep_by 44 (json_text <$> l) ++ [93]
  | JObject ms => 123 :: sep_by 44 ((λ m, member m.1 (json_text m.2)) <$> ms) ++ [125]
  end.

(** What a write sends: [http.Error] ends its text with a newline, too. *)
Definition chunk_text (c : GoLib.chunk) : list Z :=
  match c with
  | Text s => bytes_of s ++ [10]
  | JSON j => json_text j ++ [10]
  end.

Definition body_text (w : ResponseWriter) : list Z := rw_body w ≫= chunk_text.

(** ** Reading *)

(** A value as a client sees it: its strings decoded.  Booleans and numbers do not
    occur. *)
Fixpoint read_value (v : jvalue) : option json :=
  match v with
  | VNull => Some JNull
  | VString raw => (JString ∘ string_of) <$> unquote_bytes raw
  | VArray vs => JArray <$> mapM read_value vs
  | VObject ms =>
      JObject <$> mapM (λ m, k ← unquote_bytes m.1; v ← read_value m.2; Some (string_of k, v)) ms
  | _ => None
  end.

Definition read_body (body : list Z) : option json := v ← json_parse body; read_value v.

(** The value that arrives: bytes that are not UTF-8 are replaced by U+FFFD. *)
Fixpoint clean_json (j : json) : json :=
  match j with
  | JNull => JNull
  | JString s => JString (clean s)
  | JArray l => JArray (clean_json <$> l)
  | JObject ms => JObject ((λ m, (clean m.1, clean_json m.2)) <$> ms)
  end.

(** ** Induction on values *)
Section json_induction.
Context (P : json → Prop).
Context (Hnull : P JNull) (Hstring : ∀ s, P (JString s)).
Context (Harray : ∀ l, Forall P l → P (JArray l)).
Context (Hobject : ∀ ms, Forall (λ m, P m.2) ms → P (JObject ms)).

Fixpoint json_induct (j : json) : P j :=
  match j with
  | JNull => Hnull
  | JString s => Hstring s
  | JArray l =>
      Harray l ((fix go l : Forall P l :=
        match l with [] => Forall_nil_2 P | j :: l => Forall_cons_2 P j l (json_induct j) (go l) end) l)
  | JObject ms =>
      Hobject ms ((fix go ms : Forall (λ m, P m.2) ms :=
        match ms with
        | [] => Forall_nil_2 _
        | (k, j) :: ms => Forall_cons_2 (λ m, P m.2) (k, j) ms (json_induct j) (go ms)
        end) ms)
  end.
End json_induction.

(** ** The scanner on a written value *)
Fixpoint json_tokens (j : json) : list token :=
  match j with
  | JNull => [TNull]
  | JString s => [TString (quote (bytes_of s))]
  | JArray l => TLBracket :: sep_by TComma (json_tokens <$> l) ++ [TRBracket]
  | JObject ms =>
      TLBrace :: sep_by TComma ((λ m, TString (quote (bytes_of m.1)) :: TColon :: json_tokens m.2) <$> ms) ++
      [TRBrace]
  end.

(** The text [l] is scanned as the tokens [ts], whatever follows. *)
Definition scans (l : list Z) (ts : list token) : Prop :=
  ∀ rest, lex LStart (l ++ rest) = (ts ++.) <$> lex LStart rest.

Lemma scans_app l1 l2 ts1 ts2 : scans l1 ts1 → scans l2 ts2 → scans (l1 ++ l2) (ts1 ++ ts2).
Proof.
  intros H1 H2 rest. rewrite <- app_assoc, H1, H2, <- option_fmap_compose.
  apply option_fmap_ext. intros ts. unfold compose. by rewrite app_assoc.
Qed.

Lemma scans_emit c t l ts :
  lex_step LStart c = Some ([t], LStart) → scans l ts → scans (c :: l) (t :: ts).
Proof.
  intros Hc Hl rest. cbn [Datatypes.app]. rewrite (lex_emit _ _ _ _ Hc), Hl, <- option_fmap_compose.
  by apply option_fmap_ext.
Qed.

Lemma scans_nil : scans [] [].
Proof. intros rest. cbn [Datatypes.app]. by destruct (lex LStart rest). Qed.

Lemma scans_string s : scans (quote_string (bytes_of s)) [TString (quote (bytes_of s))].
Proof. intros rest. by rewrite lex_quote_string by apply bytes_of_bytes. Qed.

Lemma scans_sep ls tss : Forall2 scans ls tss → scans (sep_by 44 ls) (sep_by TComma tss).
Proof.
  induction 1 as [|l ts ls tss Hl Hls IH]; cbn [sep_by]; [apply scans_nil |].
  destruct Hls as [|l2 ts2 ls tss]; [done |]. by apply scans_app; [|apply scans_emit].
Qed.

Lemma json_scans j : scans (json_text j) (json_tokens j).
Proof.
  induction j as [|s|l IH|ms IH] using json_induct; cbn [json_text json_tokens].
  - intros rest. change (bytes_of "null") with [110; 117; 108; 108]. cbn [Datatypes.app].
    do 3 (erewrite lex_silent; [|done]). by erewrite lex_emit.
  - apply scans_string.
  - apply scans_emit; [done |]. apply scans_app; [|apply scans_emit; [done | apply scans_nil]].
    apply scans_sep. induction IH as [|j l Hj _ IHl]; constructor; done.
  - apply scans_emit; [done |]. apply scans_app; [|apply scans_emit; [done | apply scans_nil]].
    apply scans_sep. induction IH as [|[k j] ms Hj _ IHm]; constructor; [|done]. cbn [fst snd] in *.
    apply (scans_app _ _ [_]); [apply scans_string | by apply scans_emit].
Qed.

(** ** The parser on its tokens *)
Fixpoint json_value (j : json) : jvalue :=
  match j with
  | JNull => VNull
  | JString s => VString (quote (bytes_of s))
  | JArray l => VArray (json_value <$> l)
  | JObject ms => VObject ((λ m, (quote (bytes_of m.1), json_value m.2)) <$> ms)
  end.

Fixpoint json_depth (j : json) : nat :=
  match j with
  | JArray l => S (foldr (λ j, Nat.max (json_depth j)) O l)
  | JObject ms => S (foldr (λ m, Nat.max (json_depth m.2)) O ms)
  | _ => O
  end.

(** Its tokens are read as the value, at any place where a value may begin. *)
Definition parses (j : json) : Prop :=
  ∀ stack empty_ok rest, (length stack + json_depth j ≤ 100)%nat →
    parse_tokens (stack, PBegin empty_ok) (json_tokens j ++ rest) =
    parse_tokens (stack, PEnd (json_value j)) rest.

Lemma sep_by_fmap {A B} (x : B) (f : A → list B) a b l :
  sep_by x (f <$> a :: b :: l) = f a ++ x :: sep_by x (f <$> b :: l).
Proof. done. Qed.

Lemma parse_elems l stack vs empty_ok rest :
  l ≠ [] → Forall parses l → (length stack + S (foldr (λ j, Nat.max (json_depth j)) O l) ≤ 100)%nat →
  parse_tokens (InArray vs :: stack, PBegin empty_ok) (sep_by TComma (json_tokens <$> l) ++ TRBracket :: rest) =
  parse_tokens (stack, PEnd (VArray (vs ++ (json_value <$> l)))) rest.
Proof.
  intros Hne Hl. revert vs empty_ok Hne. induction Hl as [|j l Hj Hl IH]; intros vs empty_ok Hne Hd; [done |].
  cbn [foldr] in Hd. destruct l as [|j2 l].
  - cbn [fmap list_fmap sep_by]. rewrite Hj by (simpl; lia). done.
  - rewrite sep_by_fmap, <- app_assoc, Hj by (cbn [length]; lia).
    cbn [Datatypes.app parse_tokens parse_step mbind option_bind].
    rewrite (IH (vs ++ [json_value j]) false) by (done || lia). by rewrite <- app_assoc.
Qed.

Lemma parse_members ms stack done_ key empty_ok rest :
  ms ≠ [] → Forall (λ m, parses m.2) ms →
  (length stack + S (foldr (λ m, Nat.max (json_depth m.2)) O ms) ≤ 100)%nat →
  parse_tokens (InObject done_ key :: stack, PKey empty_ok)
    (sep_by TComma ((λ m, TString (quote (bytes_of m.1)) :: TColon :: json_tokens m.2) <$> ms) ++ TRBrace :: rest) =
  parse_tokens (stack, PEnd (VObject (done_ ++ ((λ m, (quote (bytes_of m.1), json_value m.2)) <$> ms)))) rest.
Proof.
  intros Hne Hl. revert done_ key empty_ok Hne. induction Hl as [|[k j] ms Hj Hl IH]; intros done_ key empty_ok Hne Hd; [done |].
  cbn [foldr fst snd] in Hd, Hj. destruct ms as [|m2 ms].
  - cbn [fmap list_fmap sep_by fst snd Datatypes.app parse_tokens parse_step mbind option_bind].
    rewrite Hj by (simpl; lia). done.
  - rewrite sep_by_fmap. cbn [fst snd Datatypes.app parse_tokens parse_step mbind option_bind].
    rewrite <- app_assoc, Hj by (cbn [length]; lia). cbn [Datatypes.app parse_tokens parse_step mbind option_bind].
    rewrite (IH (done_ ++ [(quote (bytes_of k), json_value j)]) [] false) by (done || lia). by rewrite <- app_assoc.
Qed.

Lemma json_parses j : parses j.
Proof.
  induction j as [|s|l IH|ms IH] using json_induct; intros stack empty_ok rest Hd; cbn [json_tokens json_depth] in *.
  - by destruct stack as [|[] ?].
  - by destruct stack as [|[] ?].
  - assert (parse_step (stack, PBegin empty_ok) TLBracket = Some (InArray [] :: stack, PBegin true)) as E
      by (rewrite <- push_ok by lia; by destruct stack as [|[] ?]).
    cbn [Datatypes.app parse_tokens]. rewrite E. cbn [mbind option_bind].
    rewrite <- app_assoc. change ([TRBracket] ++ rest) with (TRBracket :: rest). destruct l as [|j l]; [done |]. by rewrite (parse_elems (j :: l) stack []).
  - assert (parse_step (stack, PBegin empty_ok) TLBrace = Some (InObject [] [] :: stack, PKey true)) as E
      by (rewrite <- push_ok by lia; by destruct stack as [|[] ?]).
    cbn [Datatypes.app parse_tokens]. rewrite E. cbn [mbind option_bind].
    rewrite <- app_assoc. change ([TRBrace] ++ rest) with (TRBrace :: rest). destruct ms as [|m ms]; [done |]. by rewrite (parse_members (m :: ms) stack []).
Qed.

Lemma json_parse_text j : (json_depth j ≤ 100)%nat → json_parse (json_text j ++ [10]) = Some (json_value j).
Proof.
  intros Hd. unfold json_parse. rewrite json_scans. change (lex LStart [10]) with (Some ([] : list token)).
  cbn [mbind option_bind fmap option_fmap option_map]. by rewrite json_parses.
Qed.

(** ** Reading back *)
Lemma mapM_fmap_Some {A B C} (f : B → option C) (g : A → B) (h : A → C) l :
  Forall (λ x, f (g x) = Some (h x)) l → mapM f (g <$> l) = Some (h <$> l).
Proof.
  induction 1 as [|x l Hx _ IH]; [done |]. rewrite !fmap_cons. cbn [mapM]. rewrite Hx.
  cbn [mbind option_bind]. by rewrite IH.
Qed.

Lemma read_json_value j : read_value (json_value j) = Some (clean_json j).
Proof.
  induction j as [|s|l IH|ms IH] using json_induct; cbn [json_value read_value clean_json].
  - done.
  - by rewrite unquote_quote by apply bytes_of_bytes.
  - by rewrite (mapM_fmap_Some _ _ clean_json).
  - rewrite (mapM_fmap_Some _ _ (λ m, (clean m.1, clean_json m.2))); [done |].
    eapply Forall_impl; [exact IH |]. intros [k j] Hj. cbn [fst snd] in *.
    rewrite unquote_quote by apply bytes_of_bytes. cbn [mbind option_bind]. by rewrite Hj.
Qed.

Lemma read_json_text j : (json_depth j ≤ 100)%nat → read_body (json_text j ++ [10]) = Some (clean_json j).
Proof. intros Hd. unfold read_body. rewrite json_parse_text by done. apply read_json_value. Qed.

(** A response with one JSON value. *)
Lemma read_json_body w j :
  rw_body w = [JSON j] → (json_depth j ≤ 100)%nat → read_body (body_text w) = Some (clean_json j).
Proof. intros Hb Hd. unfold body_text. rewrite Hb. cbn. rewrite app_nil_r. by apply read_json_text. Qed.

(** ** The handlers *)

(** The roles a client of /api/me reads. *)
Definition read_roles (h : heap) (t : Tenant) : json :=
  match Tenant_Roles t with
  | None => JNull
  | Some _ => JArray ((λ role, JString (clean role)) <$> slice_elems h (Tenant_Roles t))
  end.

Lemma flat_depth (l : list string) : foldr (λ j, Nat.max (json_depth j)) O (JString <$> l) = O.
Proof. by induction l. Qed.

Lemma me_json_reads h t :
  (json_depth (me_json h t) ≤ 100)%nat ∧
  clean_json (me_json h t) =
    JObject [("roles", read_roles h t); ("tenant_id", JString (clean (Tenant_ID t)));
             ("tenant_state", JString (clean (Tenant_State t)))].
Proof.
  unfold me_json, roles_json, read_roles. destruct (Tenant_Roles t) as [sl|]; cbn [json_depth foldr snd clean_json fst].
  - rewrite flat_depth. split; [simpl; lia |]. cbn [fmap list_fmap fst snd clean_json].
    rewrite <- list_fmap_compose. reflexivity.
  - split; [simpl; lia | reflexivity].
Qed.

Lemma handle_me_reads vals r (s : srv) l t :
  FromContext (Some (r_ctx r)) = Some l → heap_load (w_heap s.2) l = Some t →
  handle_me vals rw_new r s = (s, Ret (json_response (me_json (w_heap s.2) t) rw_new)).
Proof.
  intros Hctx Hl. unfold handle_me, deref. rewrite Hctx. destruct s as [a w]. go_unfold; simpl in *. by rewrite Hl.
Qed.

(** A response of the server that is labelled as JSON. *)
Definition labelled_json (w : ResponseWriter) : Prop :=
  rw_header w !! "Content-Type" = Some "application/json".

Lemma server_answer_json domain ready r :
  labelled_json (server_answer domain ready r) →
  ∃ j, rw_body (server_answer domain ready r) = [JSON j] ∧ (json_depth j ≤ 100)%nat ∧ clean_json j = j.
Proof.
  unfold labelled_json, server_answer, api_answer, seeded.
  repeat case_match; try (intros H'; by vm_compute in H'); intros _; simplify_eq;
    eexists; (split; [reflexivity |]); (split; [simpl; lia | vm_compute; reflexivity]).
Qed.

(** (C34) What the handlers write as JSON, a client reads.  The body of every error of the
    Admin API reads back as an object with the error's text; the body of /api/me, for any
    tenant with any roles, as that tenant's own id, state and roles; and every response of
    the server that is labelled application/json is a JSON text that reads back as exactly
    the value meant.  Quotes, control characters and markup in ids, roles and messages do
    no harm; only bytes that are not UTF-8 are replaced by U+FFFD. *)
Theorem json_bodies_read_back :
  (∀ err, read_body (body_text (writeError err rw_new)) =
     Some (JObject [("error", JString (clean (error_Error err)))])) ∧
  (∀ vals r (s : srv) l t, FromContext (Some (r_ctx r)) = Some l → heap_load (w_heap s.2) l = Some t →
     ∃ rw, handle_me vals rw_new r s = (s, Ret rw) ∧
       read_body (body_text rw) =
         Some (JObject [("roles", read_roles (w_heap s.2) t); ("tenant_id", JString (clean (Tenant_ID t)));
                        ("tenant_state", JString (clean (Tenant_State t)))])) ∧
  (∀ domain ready r, labelled_json (server_answer domain ready r) →
     ∃ j, rw_body (server_answer domain ready r) = [JSON j] ∧
       read_body (body_text (server_answer domain ready r)) = Some j).
Proof.
  split_and!.
  - intros err. rewrite (read_json_body _ (JObject [("error", JString (error_Error err))])); [|done | simpl; lia].
    reflexivity.
  - intros vals r s l t Hctx Hl. eexists. split; [by eapply handle_me_reads |].
    destruct (me_json_reads (w_heap s.2) t) as [Hd Hc].
    rewrite (read_json_body _ (me_json (w_heap s.2) t)); [by rewrite Hc | done | done].
  - intros domain ready r (j & Hb & Hd & Hc)%server_answer_json. exists j. split; [done |].
    by rewrite (read_json_body _ j), Hc.
Qed.

(** A message with quotes, markup and a backslash. *)
Definition odd_error : error := errorf (dq "<b>" +:+ " \ ").

Lemma json_bodies_read_back_witness :
  read_body (body_text (writeError odd_error rw_new)) = Some (JObject [("error", JString (error_Error odd_error))]) ∧
  string_of (body_text (writeError odd_error rw_new)) ≠ "".
Proof.
  destruct json_bodies_read_back as [H _]. rewrite H. split; vm_compute; [reflexivity | discriminate].
Defined.
