(* ===== verification/LoadTest.v ===== *)
(** * The load-test servers, loadtest/servers/

    Three programs measured against each other: [httponly] is net/http alone,
    [tenantcore] adds resolution, the cache and the middleware, [rbac] adds a permission
    check.  What each answers is proved for every sequence of requests, and that the
    scenarios compare like with like; each is then a [program] of [SiteRequests], so that
    the same holds of requests that overlap, which is how they are loaded.  The processes
    around the handlers, with the profiling listener, are in [LoadProcess]. *)
From S2P Require Import Prelude GoStrings GoLib Tenant MemoryStore Resolver TenantCtx CachedStore.
From S2P Require Import Middleware Rbac Config Site SiteRequests.
Set Default Goal Selector "!".

(** A mux with one route, [GET /<p1>/<p2>/...]. *)
Definition get_route {S} (p : list string) (h : routeHandler S) : route S :=
  (mkPattern (Some "GET") (Lit <$> p) false, h).

(** ** Scenario A: httponly *)
Definition httponly_ping {S} : routeHandler S := λ _ w r,
  mret (json_response (status_json "ok") w).

Definition httponly_handler {S} : Handler S :=
  mux_ServeHTTP [get_route ["ping"] httponly_ping].

(** ** Scenario B: tenantcore *)
Definition tenantcore_seed : GoM (MemoryStore * world) unit :=
  _ ← seed_tenant "acme" None;
  _ ← seed_tenant "globex" None;
  seed_tenant "initech" None.

(** The store behind a cache of ten seconds, the resolver for localhost and the manager,
    as both [tenantcore] and [rbac] build them. *)
Definition loadtest_manager (ms : MemoryStore) :
    outcome (Manager SubdomainResolver (CachedStore MemoryStore)) :=
  tenant_New [WithResolver (NewSubdomainResolver "localhost");
              WithStore (NewCachedStore ms (10 * time_Second))].

Definition tenantcore_boot (w : world) : outcome (site unit) :=
  match tenantcore_seed (NewMemoryStore, w) with
  | (_, Panic msg) => Panic msg
  | ((ms, w'), Ret _) =>
      match loadtest_manager ms with
      | Panic msg => Panic msg
      | Ret m => Ret ((m, tt), w')
      end
  end.

Definition id_json (t : Tenant) : json := JObject [("tenant_id", JString (Tenant_ID t))].

Definition tenantcore_me : routeHandler (site unit) := λ _ w r,
  match FromContext (Some (r_ctx r)) with
  | None => mret (http_Error "no tenant in context" StatusInternalServerError w)
  | Some l => t ← deref (Some l); mret (json_response (id_json t) w)
  end.

(** ** Scenario C: rbac *)
Definition rbacload_seed : GoM (MemoryStore * world) unit :=
  _ ← seed_tenant "acme" (Some ["admin"]);
  _ ← seed_tenant "globex" (Some ["viewer"]);
  seed_tenant "initech" (Some ["viewer"]).

Definition rbacload_authz : RBAC :=
  RBAC_DefineRole "initech" "viewer" ["users:read"]
    (RBAC_DefineRole "globex" "viewer" ["users:read"]
      (RBAC_DefineRole "acme" "admin" ["users:read"; "users:write"] rbac_New)).

Definition rbacload_boot (w : world) : outcome (site RBAC) :=
  match rbacload_seed (NewMemoryStore, w) with
  | (_, Panic msg) => Panic msg
  | ((ms, w'), Ret _) =>
      match loadtest_manager ms with
      | Panic msg => Panic msg
      | Ret m => Ret ((m, rbacload_authz), w')
      end
  end.

Definition rbacload_can (l : loc) (permission : Permission) : GoM (site RBAC) bool :=
  zoom (T := Manager SubdomainResolver (CachedStore MemoryStore) * RBAC)
    snd (λ a t, (t.1, a)) (RBAC_Can (Some l) permission).

Definition rbacload_users : routeHandler (site RBAC) := λ _ w r,
  match FromContext (Some (r_ctx r)) with
  | None => mret (http_Error "no tenant in context" StatusInternalServerError w)
  | Some l =>
      allowed ← rbacload_can l "users:write";
      if negb allowed : bool then mret (http_Error "forbidden: users:write required" StatusForbidden w)
      else t ← deref (Some l); mret (json_response (id_json t) w)
  end.

(** What is behind the middleware; no state is written but by requests. *)
Definition tenantcore_mux : Handler (site unit) := mux_ServeHTTP [get_route ["api"; "me"] tenantcore_me].
Definition rbacload_mux : Handler (site RBAC) := mux_ServeHTTP [get_route ["api"; "users"] rbacload_users].

Definition tenantcore_program : program unit Empty_set :=
  mkProgram [] tenantcore_mux (λ u : Empty_set, match u with end).
Definition rbacload_program : program RBAC Empty_set :=
  mkProgram [] rbacload_mux (λ u : Empty_set, match u with end).

Section handlers.
Context {SF : Singleflight}.

Definition tenantcore_handler : Handler (site unit) :=
  Wrap tenantcore_mux.

Definition rbacload_handler : Handler (site RBAC) :=
  Wrap rbacload_mux.

End handlers.

(** ** What they answer *)

(** One route: [ok] on GET and HEAD of the path, 405 on other methods, 404 elsewhere. *)
Definition route_answer (p : list string) (ok : ResponseWriter) (r : Request) : ResponseWriter :=
  if decide (r_path r = p) then
    if is_get r then ok else http_Error "Method Not Allowed" StatusMethodNotAllowed rw_new
  else http_Error "404 page not found" StatusNotFound rw_new.

Definition httponly_answer : Request → ResponseWriter :=
  route_answer ["ping"] (json_response (status_json "ok") rw_new).

Definition loadtest_ids : list TenantID := ["acme"; "globex"; "initech"].

(** The tenants of scenario B have no roles; those of scenario C one array each. *)
Definition tenantcore_value (id : TenantID) : option Tenant :=
  if decide (id ∈ loadtest_ids) then Some (mkTenant id Active None) else None.

Definition rbacload_value (id : TenantID) : option Tenant :=
  (λ i, mkTenant id Active (Some (mkSlice i 0 1))) <$>
  (if decide (id = "acme") then Some 0
   else if decide (id = "globex") then Some 1
   else if decide (id = "initech") then Some 2 else None).

Definition tenantcore_answer : Request → ResponseWriter :=
  site_answer tenantcore_value "localhost"
    (λ _ t, route_answer ["api"; "me"] (json_response (id_json t) rw_new)).

Definition rbacload_answer : Request → ResponseWriter :=
  site_answer rbacload_value "localhost"
    (λ id t, route_answer ["api"; "users"]
       (if decide (id = "acme") then json_response (id_json t) rw_new
        else http_Error "forbidden: users:write required" StatusForbidden rw_new)).

(** The same request for another path. *)
Definition with_path (p : list string) (r : Request) : Request :=
  mkRequest (r_Method r) (r_Host r) p (r_ctx r).

(** ** Proofs *)
Lemma match_lits p path :
  match_segs (Lit <$> p) false path = if decide (path = p) then Some ∅ else None.
Proof.
  revert path; induction p as [|x p IH]; intros [|y path]; simpl; [done | done | done |].
  case_decide as Hxy; [|by rewrite decide_False by congruence].
  subst y. rewrite IH. repeat case_decide; congruence.
Qed.

Lemma one_route {S} p (h : routeHandler S) r s :
  mux_ServeHTTP [get_route p h] rw_new r s =
    if decide (r_path r = p) then
      if is_get r then h ∅ rw_new r s
      else (s, Ret (http_Error "Method Not Allowed" StatusMethodNotAllowed rw_new))
    else (s, Ret (http_Error "404 page not found" StatusNotFound rw_new)).
Proof.
  unfold mux_ServeHTTP, mux_path_known. cbn [mux_find get_route existsb fst pat_segs pat_rest pat_method].
  rewrite match_get, match_lits. case_decide; [|done]. by destruct (is_get r).
Qed.

(** A route whose handler answers [ok]. *)
Lemma one_route_answers {S} p (h : routeHandler S) r (s : S) ok :
  (is_get r = true → h ∅ rw_new r s = (s, Ret ok)) →
  mux_ServeHTTP [get_route p h] rw_new r s = (s, Ret (route_answer p ok r)).
Proof.
  intros Hh. rewrite one_route. unfold route_answer. case_decide; [|done].
  destruct (is_get r); [by apply Hh | done].
Qed.

Lemma httponly_serves_one {S} r (s : S) : httponly_handler rw_new r s = (s, Ret (httponly_answer r)).
Proof. by apply one_route_answers. Qed.

Lemma httponly_serves {S} rs (s : S) :
  serve_all httponly_handler rs s = (s, Ret (httponly_answer <$> rs)).
Proof.
  destruct (serve_all_answers httponly_handler (λ s', s' = s) httponly_answer rs s)
    as (s' & E & ->); [|done|exact E].
  intros ? r ->. exists s. split; [apply httponly_serves_one | done].
Qed.

Lemma tenantcore_value_id id t : tenantcore_value id = Some t → Tenant_ID t = id.
Proof. unfold tenantcore_value. case_decide; [|done]. by intros [= <-]. Qed.

Lemma rbacload_value_id id t : rbacload_value id = Some t → Tenant_ID t = id.
Proof. unfold rbacload_value. by intros (? & _ & ->)%fmap_Some. Qed.

Lemma tenantcore_boot_ok clock :
  ∃ cs s, tenantcore_boot (mkWorld heap_empty clock 0) = Ret s ∧
    site_ok tenantcore_value [] "localhost" tt cs s.
Proof.
  eexists _, _. split; [reflexivity |]. split; [reflexivity | | | | reflexivity].
  - intros id l. simpl. rewrite !lookup_insert, lookup_empty.
    repeat case_decide; intros [= <-]; subst; by eexists.
  - intros id. rewrite view_lookup. simpl. rewrite !lookup_insert, lookup_empty.
    unfold tenantcore_value, loadtest_ids. repeat case_decide; subst; set_solver.
  - intros id e. simpl. by rewrite lookup_empty.
Qed.

Lemma rbacload_boot_ok clock :
  ∃ cs s, rbacload_boot (mkWorld heap_empty clock 0) = Ret s ∧
    site_ok rbacload_value [["admin"]; ["viewer"]; ["viewer"]] "localhost" rbacload_authz cs s.
Proof.
  eexists _, _. split; [reflexivity |]. split; [reflexivity | | | | reflexivity].
  - intros id l. simpl. rewrite !lookup_insert, lookup_empty.
    repeat case_decide; intros [= <-]; subst; by eexists.
  - intros id. rewrite view_lookup. simpl. rewrite !lookup_insert, lookup_empty.
    unfold rbacload_value. repeat case_decide; subst; done.
  - intros id e. simpl. by rewrite lookup_empty.
Qed.

(** The handler behind the middleware, with the tenant in the context. *)
Lemma tenantcore_next r s t l ctx :
  FromContext (Some ctx) = Some l → heap_load (w_heap s.2) l = Some t →
  tenantcore_mux rw_new (Request_WithContext r ctx) s =
    (s, Ret (route_answer ["api"; "me"] (json_response (id_json t) rw_new) r)).
Proof.
  intros Hctx Hl. apply (one_route_answers _ _ (Request_WithContext r ctx)). intros _.
  unfold tenantcore_me, deref. cbn [r_ctx Request_WithContext]. rewrite Hctx. go_unfold; simpl. by rewrite Hl.
Qed.

Lemma rbacload_can_write h id t :
  arrays h = [["admin"]; ["viewer"]; ["viewer"]] → rbacload_value id = Some t →
  match rb_definitions rbacload_authz !! Tenant_ID t with
  | None => false
  | Some roles => can_loop roles "users:write" (tenant_roles h t)
  end = bool_decide (id = "acme").
Proof.
  intros Ha. unfold rbacload_value. repeat case_decide; simpl; intros [= <-]; subst;
    unfold tenant_roles; simpl; rewrite Ha; by vm_compute.
Qed.

Lemma rbacload_next r s t l ctx id cs :
  site_ok rbacload_value [["admin"]; ["viewer"]; ["viewer"]] "localhost" rbacload_authz cs s →
  FromContext (Some ctx) = Some l → heap_load (w_heap s.2) l = Some t → rbacload_value id = Some t →
  rbacload_mux rw_new (Request_WithContext r ctx) s =
    (s, Ret (route_answer ["api"; "users"]
      (if decide (id = "acme") then json_response (id_json t) rw_new
       else http_Error "forbidden: users:write required" StatusForbidden rw_new) r)).
Proof.
  intros Hok Hctx Hl Hs. destruct s as [m w].
  apply (one_route_answers _ _ (Request_WithContext r ctx)). intros _.
  pose proof (rbacload_can_write _ _ _ (so_arrays _ _ _ _ _ _ Hok) Hs) as Hcan.
  pose proof (so_manager _ _ _ _ _ _ Hok) as Hm. cbn [fst snd] in Hm, Hl, Hcan. subst m.
  unfold rbacload_users, rbacload_can, deref. cbn [r_ctx Request_WithContext]. rewrite Hctx. go_unfold. cbn [fst snd].
  rewrite (RBAC_Can_eq _ _ _ _ _ Hl), Hcan. cbn [fst snd].
  destruct (decide (id = "acme")) as [He|He].
  - rewrite (bool_decide_true _ He). simpl. by rewrite Hl.
  - by rewrite (bool_decide_false _ He).
Qed.

(** ** As programs whose requests overlap *)
Lemma tenantcore_program_ok :
  program_ok tenantcore_program tenantcore_value [] "localhost" (λ _, True) (λ u a, a)
    (λ _, tenantcore_answer).
Proof.
  split; [done | | |by intros []].
  - intros a r _ _ Hr. unfold tenantcore_answer, site_answer.
    destruct (SubdomainResolver_Resolve _ r) as [id|e]; [by rewrite Hr | done].
  - intros a cs w r id t l ctx _ _ Hr Hv s _ Hl Hctx. unfold tenantcore_answer, site_answer.
    rewrite Hr, Hv. by eapply tenantcore_next.
Qed.

Lemma rbacload_program_ok :
  program_ok rbacload_program rbacload_value [["admin"]; ["viewer"]; ["viewer"]] "localhost"
    (λ a, a = rbacload_authz) (λ u a, a) (λ _, rbacload_answer).
Proof.
  split; [done | | |by intros []].
  - intros a r _ _ Hr. unfold rbacload_answer, site_answer.
    destruct (SubdomainResolver_Resolve _ r) as [id|e]; [by rewrite Hr | done].
  - intros a cs w r id t l ctx -> _ Hr Hv s Hok Hl Hctx. unfold rbacload_answer, site_answer.
    rewrite Hr, Hv. by eapply rbacload_next.
Qed.

(** ** Requests one after the other *)
Section proofs.
Context {SF : Singleflight} {SFL : SingleflightLaw}.

Lemma tenantcore_serves cs s r :
  site_ok tenantcore_value [] "localhost" tt cs s →
  ∃ s', tenantcore_handler rw_new r s = (s', Ret (tenantcore_answer r)) ∧
    ∃ cs', site_ok tenantcore_value [] "localhost" tt cs' s'.
Proof.
  intros Hok.
  destruct (site_wrap tenantcore_value [] "localhost" tenantcore_value_id tenantcore_mux
    (λ _ t, route_answer ["api"; "me"] (json_response (id_json t) rw_new)) tt cs s r Hok)
    as (cs' & s' & E & Hok'); [|by eauto].
  intros cs' s' id t l ctx _ Hctx Hl _. by eapply tenantcore_next.
Qed.

Lemma rbacload_serves cs s r :
  site_ok rbacload_value [["admin"]; ["viewer"]; ["viewer"]] "localhost" rbacload_authz cs s →
  ∃ s', rbacload_handler rw_new r s = (s', Ret (rbacload_answer r)) ∧
    ∃ cs', site_ok rbacload_value [["admin"]; ["viewer"]; ["viewer"]] "localhost" rbacload_authz cs' s'.
Proof.
  intros Hok.
  destruct (site_wrap rbacload_value _ "localhost" rbacload_value_id rbacload_mux
    (λ id t, route_answer ["api"; "users"]
       (if decide (id = "acme") then json_response (id_json t) rw_new
        else http_Error "forbidden: users:write required" StatusForbidden rw_new)) _ cs s r Hok)
    as (cs' & s' & E & Hok'); [|by eauto].
  intros cs' s' id t l ctx Hok' Hctx Hl Hs. by eapply rbacload_next.
Qed.

(** (C22) The three scenarios answer every sequence of requests, each by a function
    of the request, and compare like with like: the baseline answers /ping whatever the
    host; for a host of a tenant that may write users, scenario C answers /api/users
    exactly what scenario B answers /api/me; for the other hosts it answers what B
    answers, or 403 where B shows the tenant.  And scenario B serves nothing but its
    one route: a path under /debug/pprof gets a 404 on the port of the application. *)
Theorem loadtest_scenarios {S} (s0 : S) clock rs :
  serve_all httponly_handler rs s0 = (s0, Ret (httponly_answer <$> rs)) ∧
  (∃ b b', tenantcore_boot (mkWorld heap_empty clock 0) = Ret b ∧
     serve_all tenantcore_handler rs b = (b', Ret (tenantcore_answer <$> rs))) ∧
  (∃ c c', rbacload_boot (mkWorld heap_empty clock 0) = Ret c ∧
     serve_all rbacload_handler rs c = (c', Ret (rbacload_answer <$> rs))) ∧
  (∀ r, is_get r = true →
     let b := tenantcore_answer (with_path ["api"; "me"] r) in
     let c := rbacload_answer (with_path ["api"; "users"] r) in
     c = b ∨ (SubdomainResolver_Resolve (NewSubdomainResolver "localhost") r ≠ Ok "acme" ∧
              rw_status b = Some StatusOK ∧ rw_status c = Some StatusForbidden)) ∧
  (∀ r rest, rw_status (tenantcore_answer (with_path ("debug" :: "pprof" :: rest) r)) =
     Some StatusNotFound).
Proof.
  split_and!; [apply httponly_serves | | | |].
  - destruct (tenantcore_boot_ok clock) as (cs & b & Hb & Hok).
    destruct (serve_all_answers tenantcore_handler
      (λ s, ∃ cs, site_ok tenantcore_value [] "localhost" tt cs s) tenantcore_answer rs b)
      as (b' & E & _); [|by exists cs|by exists b, b'].
    intros s r [cs' Hs]. by eapply tenantcore_serves.
  - destruct (rbacload_boot_ok clock) as (cs & c & Hc & Hok).
    destruct (serve_all_answers rbacload_handler
      (λ s, ∃ cs, site_ok rbacload_value [["admin"]; ["viewer"]; ["viewer"]] "localhost" rbacload_authz cs s)
      rbacload_answer rs c) as (c' & E & _); [|by exists cs|by exists c, c'].
    intros s r [cs' Hs]. by eapply rbacload_serves.
  - intros r Hg. simpl. unfold tenantcore_answer, rbacload_answer, site_answer.
    change (SubdomainResolver_Resolve (NewSubdomainResolver "localhost") (with_path ?p r))
      with (SubdomainResolver_Resolve (NewSubdomainResolver "localhost") r).
    destruct (SubdomainResolver_Resolve (NewSubdomainResolver "localhost") r) as [id|e]; [|by left].
    unfold tenantcore_value, rbacload_value, loadtest_ids, route_answer. simpl.
    change (is_get (with_path ?p r)) with (is_get r). rewrite Hg.
    repeat case_decide; subst; simpl; try (by left); try set_solver; right; (split; [congruence | done]).
  - intros r rest. unfold tenantcore_answer, site_answer. case_match; [|done]. case_match; [|done].
    unfold route_answer. by rewrite decide_False.
Qed.

End proofs.

(** ** A concrete run *)
Lemma loadtest_scenarios_witness :
  ∃ b b' answers, tenantcore_boot (mkWorld heap_empty demo_clock 0) = Ret b ∧
    @serve_all _ (@tenantcore_handler direct_sf)
      [mkRequest "GET" "acme.localhost:8082" ["api"; "me"] Background;
       mkRequest "GET" "umbrella.localhost:8082" ["api"; "me"] Background;
       mkRequest "GET" "acme.localhost:8082" ["debug"; "pprof"; "heap"] Background] b =
      (b', Ret answers) ∧
    rw_status <$> answers = Some <$> [200; 404; 404]%Z.
Proof.
  destruct (@loadtest_scenarios direct_sf direct_sf_law unit tt demo_clock
    [mkRequest "GET" "acme.localhost:8082" ["api"; "me"] Background;
     mkRequest "GET" "umbrella.localhost:8082" ["api"; "me"] Background;
     mkRequest "GET" "acme.localhost:8082" ["debug"; "pprof"; "heap"] Background])
    as (_ & (b & b' & Hb & Hr) & _).
  eexists b, b', _. split; [exact Hb |]. split; [exact Hr |]. vm_compute. reflexivity.
Defined.
