(* ===== verification/LoadProcess.v ===== *)
(** * The load-test servers as processes

    The [main]s of loadtest/servers/ from the end of their setup: two log lines and
    [ListenAndServe], whose error is fatal; [tenantcore] has a goroutine beside it that
    serves the profiling handlers on a port of its own and only logs its error.  The
    goroutines, the requests being served and failures of the listeners interleave.
    [ListenAndServe] fails at once when the address cannot be bound, or later when
    [Accept] fails, and always returns an error.  How requests are served is a [service];
    the site programs of [SiteRequests] and the stateless handler of [httponly] are
    services. *)
From S2P Require Import Prelude GoStrings GoLib Tenant MemoryStore Resolver TenantCtx CachedStore.
From S2P Require Import CacheFlights Middleware Rbac Config Site SiteRequests LoadTest.
Set Default Goal Selector "!".

(** ** What a process needs of the code that serves requests *)

(** [sv_serve] makes a step of the serving, with the response if one is given. *)
Record service (S : Type) := mkService {
  sv_accept : S → Request → S → Prop;
  sv_serve : S → option (Request * ResponseWriter) → S → Prop;
  sv_pending : S → list Request;
  sv_accepted : S → list Request;
  sv_answered : S → list (Request * ResponseWriter)
}.
Arguments mkService {S}.
Arguments sv_accept {S}.
Arguments sv_serve {S}.
Arguments sv_pending {S}.
Arguments sv_accepted {S}.
Arguments sv_answered {S}.

(** Under [ok]: a request can always be accepted, every response is [answer]'s, nothing is
    lost, and what is pending can be answered. *)
Record service_ok {S} (sv : service S) (answer : Request → ResponseWriter) (ok : S → Prop) : Prop := {
  sk_accept s r : ok s → ∃ s', sv_accept sv s r s';
  sk_accepted s r s' : ok s → sv_accept sv s r s' → ok s' ∧ sv_accepted sv s' = sv_accepted sv s ++ [r];
  sk_serve s ev s' : ok s → sv_serve sv s ev s' → ok s' ∧ sv_accepted sv s' = sv_accepted sv s;
  sk_answer s r w s' : ok s → sv_serve sv s (Some (r, w)) s' → w = answer r;
  sk_all s : ok s → sv_accepted sv s ≡ₚ (sv_answered sv s).*1 ++ sv_pending sv s;
  sk_finish s : ok s → ∃ tr s', trace (sv_serve sv) s tr s' ∧ sv_pending sv s' = []
}.

(** ** The process *)

(** The main goroutine: log lines to print before listening, in [ListenAndServe], or
    after it. *)
Inductive lmain : Type :=
| LMLog (todo : list string)
| LMServing
| LMReturned (err : error).

(** The profiling goroutine, where there is one. *)
Inductive lprof : Type :=
| LPNone
| LPStart
| LPListen
| LPServing
| LPReturned (err : error)
| LPDone.

Record lproc (S : Type) := mkLP {
  lp_svc : S;
  lp_main : lmain;
  lp_prof : lprof;
  lp_log : list string
}.
Arguments mkLP {S}.
Arguments lp_svc {S}.
Arguments lp_main {S}.
Arguments lp_prof {S}.
Arguments lp_log {S}.

Inductive lprocess (S : Type) : Type :=
| LRunning (p : lproc S)
| LExited (code : Z) (p : lproc S)
| LKilled (p : lproc S).
Arguments LRunning {S}.
Arguments LExited {S}.
Arguments LKilled {S}.

Inductive l_event : Type :=
| LMain
| LProf
| LAccept (r : Request)
| LServe (ev : option (Request * ResponseWriter))
| LSignal.

Definition pprof_listening : string := "pprof listening on :6061 (http://localhost:6061/debug/pprof/)".
Definition pprof_error (e : error) : string := "pprof server error: " +:+ error_Error e.

Inductive l_step {S} (sv : service S) : lprocess S → l_event → lprocess S → Prop :=
| l_println s line todo g log :
    l_step sv (LRunning (mkLP s (LMLog (line :: todo)) g log)) LMain
      (LRunning (mkLP s (LMLog todo) g (log ++ [line])))
| l_listen s g log :
    l_step sv (LRunning (mkLP s (LMLog []) g log)) LMain (LRunning (mkLP s LMServing g log))
| l_listen_error s m g log e :
    m = LMLog [] ∨ m = LMServing →
    l_step sv (LRunning (mkLP s m g log)) LMain (LRunning (mkLP s (LMReturned e) g log))
| l_fatal s g log e :
    l_step sv (LRunning (mkLP s (LMReturned e) g log)) LMain
      (LExited 1 (mkLP s (LMReturned e) g (log ++ [error_Error e])))
| l_prof_println s m log :
    l_step sv (LRunning (mkLP s m LPStart log)) LProf
      (LRunning (mkLP s m LPListen (log ++ [pprof_listening])))
| l_prof_listen s m log :
    l_step sv (LRunning (mkLP s m LPListen log)) LProf (LRunning (mkLP s m LPServing log))
| l_prof_error s m g log e :
    g = LPListen ∨ g = LPServing →
    l_step sv (LRunning (mkLP s m g log)) LProf (LRunning (mkLP s m (LPReturned e) log))
| l_prof_printf s m log e :
    l_step sv (LRunning (mkLP s m (LPReturned e) log)) LProf
      (LRunning (mkLP s m LPDone (log ++ [pprof_error e])))
| l_prof_serve s m log :
    l_step sv (LRunning (mkLP s m LPServing log)) LProf (LRunning (mkLP s m LPServing log))
| l_accept s s' g log r :
    sv_accept sv s r s' →
    l_step sv (LRunning (mkLP s LMServing g log)) (LAccept r) (LRunning (mkLP s' LMServing g log))
| l_serve s ev s' m g log :
    sv_serve sv s ev s' →
    l_step sv (LRunning (mkLP s m g log)) (LServe ev) (LRunning (mkLP s' m g log))
| l_signal p :
    l_step sv (LRunning p) LSignal (LKilled p).

(** A process whose setup is done, about to start its goroutine and print its lines. *)
Definition l_start {S} (lines : list string) (prof : lprof) (s : S) : lprocess S :=
  LRunning (mkLP s (LMLog lines) prof []).

(** ** The three programs *)

(** A double quote. *)
Definition dquote : string := String "034" EmptyString.

Definition curl_host (url : string) : string :=
  "try: curl -H " +:+ dquote +:+ "Host: acme.localhost" +:+ dquote +:+ " " +:+ url.

Definition httponly_lines : list string :=
  ["Scenario A (httponly baseline) listening on :8081"; "try: curl http://localhost:8081/ping"].
Definition tenantcore_lines : list string :=
  ["Scenario B (tenant-core, no RBAC) listening on :8082"; curl_host "http://localhost:8082/api/me"].
Definition rbacload_lines : list string :=
  ["Scenario C (tenant-core + RBAC) listening on :8083"; curl_host "http://localhost:8083/api/users"].

(** A site program serves by the steps of [SiteRequests]. *)
Definition serve_event {U} (ev : v_event U) : option (Request * ResponseWriter) :=
  match ev with VAnswer r w => Some (r, w) | _ => None end.

Definition site_service {A U} (pg : program A U) : service (vsys A) :=
  mkService (λ v r v', v_step pg v (VAccept r) v')
    (λ v ev v', ∃ e, v_internal pg v e v' ∧ serve_event e = ev)
    (λ v, (v_reqs v).*1) v_accepted v_answered.

(** The baseline has no state: a goroutine runs the handler in one step. *)
Record plain_sys := mkPlain {
  ps_reqs : list Request;
  ps_accepted : list Request;
  ps_answered : list (Request * ResponseWriter)
}.

Inductive plain_step (h : Handler unit) : plain_sys → option (Request * ResponseWriter) → plain_sys → Prop :=
| plain_answer qs1 r qs2 ac an w :
    h rw_new r tt = (tt, Ret w) →
    plain_step h (mkPlain (qs1 ++ r :: qs2) ac an) (Some (r, w)) (mkPlain (qs1 ++ qs2) ac (an ++ [(r, w)])).

Definition plain_service (h : Handler unit) : service plain_sys :=
  mkService (λ s r s', s' = mkPlain (ps_reqs s ++ [r]) (ps_accepted s ++ [r]) (ps_answered s))
    (plain_step h) ps_reqs ps_accepted ps_answered.

Definition httponly_main : lprocess plain_sys := l_start httponly_lines LPNone (mkPlain [] [] []).
Definition tenantcore_main (w : world) : outcome (lprocess (vsys unit)) :=
  match tenantcore_boot w with
  | Panic msg => Panic msg
  | Ret s => Ret (l_start tenantcore_lines LPStart (v_start s))
  end.
Definition rbacload_main (w : world) : outcome (lprocess (vsys RBAC)) :=
  match rbacload_boot w with
  | Panic msg => Panic msg
  | Ret s => Ret (l_start rbacload_lines LPNone (v_start s))
  end.

(** ** The services keep their promises *)
Lemma site_service_ok {A U} (pg : program A U) value arrs domain inv after answer :
  program_ok pg value arrs domain inv after (λ _, answer) →
  service_ok (site_service pg) answer (λ v, v_ok pg value arrs domain inv (λ _, answer) (v_app v) v).
Proof.
  intros Hpg. assert (∀ v ev v', v_step pg v ev v' → v_ok pg value arrs domain inv (λ _, answer) (v_app v) v →
    v_ok pg value arrs domain inv (λ _, answer) (v_app v') v') as Hkeep.
  { intros v ev v' Hs Hok. pose proof (v_step_ok _ _ _ _ _ _ _ Hpg _ _ _ _ Hs Hok) as Hok'.
    by rewrite (vo_app _ _ _ _ _ _ _ _ Hok') at 1. }
  split.
  - intros [cf sr a qs ac an] r _. eexists. apply v_accept.
  - intros v r v' Hok Hs. split; [exact (Hkeep _ _ _ Hs Hok) |]. by inversion Hs.
  - intros v ev v' Hok (e & [Hs He] & _). split; [exact (Hkeep _ _ _ Hs Hok) |]. by destruct Hs.
  - intros v r w v' Hok (e & [Hs _] & [= He]). destruct e; simplify_eq/=.
    by destruct (v_step_answer _ _ _ _ _ _ _ Hpg _ _ _ _ _ Hs Hok).
  - intros v Hok. apply Hok.
  - intros v Hok. destruct (requests_finish _ _ _ _ _ _ _ Hpg _ _ Hok) as (tr & v' & Htr & _ & Hq & _).
    exists (serve_event <$> tr), v'. simpl. rewrite Hq. split; [|done]. clear Hok Hq.
    induction Htr as [|v1 e v2 tr v3 Hs _ IH]; [apply trace_nil |]. simpl. eapply trace_cons; [by exists e | done].
Qed.

Lemma site_start_ok {A U} (pg : program A U) value arrs domain inv answer a cs s :
  inv a → site_ok value arrs domain a cs s →
  v_ok pg value arrs domain inv answer (v_app (v_start s)) (v_start s).
Proof.
  intros Ha Hok. pose proof (v_start_ok pg _ _ _ _ answer _ _ _ Ha Hok) as Hv.
  by rewrite (vo_app _ _ _ _ _ _ _ _ Hv) at 1.
Qed.

Lemma plain_service_ok h answer :
  (∀ r, h rw_new r tt = (tt, Ret (answer r))) →
  service_ok (plain_service h) answer (λ s, ps_accepted s ≡ₚ (ps_answered s).*1 ++ ps_reqs s).
Proof.
  intros Hh. assert (∀ qs1 r qs2 ac (an : list (Request * ResponseWriter)) w,
    ac ≡ₚ an.*1 ++ (qs1 ++ r :: qs2) → ac ≡ₚ (an ++ [(r, w)]).*1 ++ (qs1 ++ qs2)) as Hleave.
  { intros qs1 r qs2 ac an w ->. rewrite fmap_app, <- app_assoc. apply Permutation_app_head. simpl.
    symmetry. apply Permutation_middle. }
  split; simpl.
  - eauto.
  - intros s r s' Hok ->. split; [|done]. simpl. by rewrite Hok, app_assoc.
  - intros s ev s' Hok Hs. destruct Hs. simpl in *. split; [by apply Hleave | done].
  - intros s r w s' _ Hs. inversion Hs as [? ? ? ? ? ? E]; subst. rewrite Hh in E. by injection E.
  - done.
  - intros [qs ac an] _. revert an; induction qs as [|r qs IH]; intros an; [eexists [], _; split; [apply trace_nil | done] |].
    destruct (IH (an ++ [(r, answer r)])) as (tr & s' & Htr & Hq).
    exists (Some (r, answer r) :: tr), s'. split; [|done]. eapply trace_cons; [by apply (plain_answer h []) | exact Htr].
Qed.

(** ** The life of such a process *)

(** The lines that were to be printed so far have been. *)
Definition lines_logged (lines : list string) (m : lmain) (log : list string) : Prop :=
  match m with
  | LMLog todo => ∃ printed, lines = printed ++ todo ∧ printed ⊆ log
  | _ => lines ⊆ log
  end.

Lemma lines_logged_more lines m log line : lines_logged lines m log → lines_logged lines m (log ++ [line]).
Proof. destruct m; simpl; [|set_solver..]. intros (printed & ? & ?). exists printed. set_solver. Qed.

(** The process is well formed: what it has logged, and the code of its exit. *)
Definition lproc_ok {S} (ok : S → Prop) (lines : list string) (p : lproc S) : Prop :=
  ok (lp_svc p) ∧ lines_logged lines (lp_main p) (lp_log p).

Definition exit_ok {S} (code : Z) (p : lproc S) : Prop :=
  code = 1%Z ∧ ∃ e, lp_main p = LMReturned e ∧ last (lp_log p) = Some (error_Error e).

Definition lprocess_ok {S} (ok : S → Prop) (lines : list string) (q : lprocess S) : Prop :=
  match q with
  | LRunning p | LKilled p => lproc_ok ok lines p
  | LExited code p => lproc_ok ok lines p ∧ exit_ok code p
  end.

Section process.
Context {S : Type} (sv : service S) (answer : Request → ResponseWriter) (ok : S → Prop) (lines : list string).
Context (Hsv : service_ok sv answer ok).

Lemma l_step_ok q ev q' : l_step sv q ev q' → lprocess_ok ok lines q → lprocess_ok ok lines q'.
Proof using Hsv.
  intros Hs. destruct Hs as [s line todo g log|s g log|s m g log e Hm|s g log e|s m log|s m log|s m g log e Hg
    |s m log e|s m log|s s' g log r Ha|s ev s' m g log Hv|p]; try done; intros [Hok Hlog]; simpl in *;
    try (split; [done | by apply lines_logged_more]).
  - split; [done |]. destruct Hlog as (printed & -> & Hin). exists (printed ++ [line]).
    split; [by rewrite <- app_assoc | set_solver].
  - split; [done |]. destruct Hlog as (printed & -> & Hin). simpl. by rewrite app_nil_r.
  - split; [done |]. destruct Hm as [-> | ->]; [|done].
    destruct Hlog as (printed & -> & Hin). simpl. by rewrite app_nil_r.
  - split; [split; simpl; [done | set_solver] |]. split; [done |]. exists e. simpl. by rewrite last_snoc.
  - split; [by eapply sk_accepted | done].
  - split; [by eapply sk_serve | done].
Qed.

Lemma serve_all_pending s tr s' m g log :
  trace (sv_serve sv) s tr s' →
  trace (l_step sv) (LRunning (mkLP s m g log)) (LServe <$> tr) (LRunning (mkLP s' m g log)).
Proof.
  induction 1 as [|s ev s1 tr s2 Hs _ IH]; simpl; [apply trace_nil |].
  eapply trace_cons; [by apply l_serve | done].
Qed.

(** While its listener has not failed, the process can get to serve, with every accepted
    request answered. *)
Lemma process_settles p :
  ok (lp_svc p) → (∀ e, lp_main p ≠ LMReturned e) →
  ∃ tr p', trace (l_step sv) (LRunning p) tr (LRunning p') ∧ lp_main p' = LMServing ∧
    sv_accepted sv (lp_svc p') = sv_accepted sv (lp_svc p) ∧
    sv_accepted sv (lp_svc p) ≡ₚ (sv_answered sv (lp_svc p')).*1.
Proof using Hsv.
  destruct p as [s m g log]. simpl. intros Hok Hm.
  assert (∃ tr log', trace (l_step sv) (LRunning (mkLP s m g log)) tr (LRunning (mkLP s LMServing g log')))
    as (tr1 & log' & Htr1).
  { destruct m as [todo| |e]; [|by exists [], log; apply trace_nil | by destruct (Hm e)].
    clear Hm. revert log; induction todo as [|line todo IH]; intros log.
    - exists [LMain], log. eapply trace_cons; [apply l_listen | apply trace_nil].
    - destruct (IH (log ++ [line])) as (tr & log' & Htr). exists (LMain :: tr), log'.
      eapply trace_cons; [apply l_println | done]. }
  destruct (sk_finish _ _ _ Hsv s Hok) as (tr2 & s' & Htr2 & Hp).
  assert (ok s' ∧ sv_accepted sv s' = sv_accepted sv s) as [Hok' Hac].
  { refine (trace_inv (sv_serve sv) (λ x, ok x ∧ sv_accepted sv x = sv_accepted sv s) _ _ _ _ Htr2 (conj Hok eq_refl)).
    intros x ev x' Hx [Hx1 Hx2]. destruct (sk_serve _ _ _ Hsv _ _ _ Hx1 Hx). split; [done | congruence]. }
  eexists (tr1 ++ _), _. split; [eapply trace_app; [exact Htr1 | by apply serve_all_pending] |]. simpl.
  split_and!; [done | done |]. pose proof (sk_all _ _ _ Hsv s' Hok') as Hall.
  by rewrite Hac, Hp, app_nil_r in Hall.
Qed.

(** What holds in every run of a process that starts as [q0]. *)
Definition runs_well (q0 : lprocess S) : Prop :=
  ∀ tr q, trace (l_step sv) q0 tr q →
  match q with
  | LRunning p =>
      lines_logged lines (lp_main p) (lp_log p) ∧
      sv_accepted sv (lp_svc p) ≡ₚ (sv_answered sv (lp_svc p)).*1 ++ sv_pending sv (lp_svc p) ∧
      (∀ r w q', l_step sv q (LServe (Some (r, w))) q' → w = answer r) ∧
      (∀ q', l_step sv q LProf q' →
         ∃ p', q' = LRunning p' ∧ lp_main p' = lp_main p ∧ lp_svc p' = lp_svc p) ∧
      ((∀ e, lp_main p ≠ LMReturned e) →
         ∃ tr' p', trace (l_step sv) q tr' (LRunning p') ∧ lp_main p' = LMServing ∧
           sv_accepted sv (lp_svc p') = sv_accepted sv (lp_svc p) ∧
           sv_accepted sv (lp_svc p) ≡ₚ (sv_answered sv (lp_svc p')).*1)
  | LExited code p => exit_ok code p
  | LKilled p => lines_logged lines (lp_main p) (lp_log p)
  end.

Lemma process_runs_well prof s : ok s → runs_well (l_start lines prof s).
Proof using Hsv.
  intros Hs tr q Htr.
  assert (lprocess_ok ok lines q) as Hq.
  { refine (trace_inv _ (lprocess_ok ok lines) l_step_ok _ _ _ Htr _). split; [done |]. by exists []. }
  destruct q as [p|code p|p]; simpl in Hq; [|by destruct Hq | by destruct Hq].
  destruct Hq as [Hok Hlog]. split_and!; [done | by eapply sk_all | | | by apply process_settles].
  - intros r w q' Hst. inversion Hst; subst. by eapply sk_answer.
  - intros q' Hst. inversion Hst; subst; simpl; eauto.
Qed.

End process.

(** (C23) The load-test servers as processes, with requests that overlap.  Each of the
    three starts; then, however its goroutines, the serving of any number of requests,
    shared cache flights and failing listeners interleave: every accepted request is
    answered or being served, each answer is the scenario's, and while the listener of
    the application has not failed what is pending can be answered and the process goes
    on serving; nothing the profiling goroutine of scenario B does, failing included,
    touches the application or ends the process; a process only ends by itself with exit
    code 1 after its own listener failed, with the error as its last log line, and it has
    printed its address before it listens. *)
Theorem loadtest_processes clock :
  runs_well (plain_service httponly_handler) httponly_answer httponly_lines httponly_main ∧
  (∃ b, tenantcore_main (mkWorld heap_empty clock 0) = Ret b ∧
     runs_well (site_service tenantcore_program) tenantcore_answer tenantcore_lines b) ∧
  (∃ c, rbacload_main (mkWorld heap_empty clock 0) = Ret c ∧
     runs_well (site_service rbacload_program) rbacload_answer rbacload_lines c).
Proof.
  split_and!.
  - eapply process_runs_well; [by apply plain_service_ok, (λ r, httponly_serves_one r tt) | by simpl].
  - destruct (tenantcore_boot_ok clock) as (cs & b & Hb & Hok). unfold tenantcore_main. rewrite Hb.
    eexists. split; [done |]. eapply process_runs_well; [by eapply site_service_ok, tenantcore_program_ok |].
    by eapply site_start_ok.
  - destruct (rbacload_boot_ok clock) as (cs & c & Hc & Hok). unfold rbacload_main. rewrite Hc.
    eexists. split; [done |]. eapply process_runs_well; [by eapply site_service_ok, rbacload_program_ok |].
    by eapply site_start_ok.
Qed.

(** ** A concrete run: the profiling port is taken, the application serves *)
Lemma profiler_fails {S} (sv : service S) lines s e :
  trace (l_step sv) (l_start lines LPStart s) [LProf; LProf; LProf]
    (LRunning (mkLP s (LMLog lines) LPDone [pprof_listening; pprof_error e])).
Proof.
  eapply trace_cons; [apply l_prof_println |].
  eapply trace_cons; [apply (l_prof_error _ _ _ _ _ e); by left |].
  eapply trace_cons; [apply l_prof_printf |]. apply trace_nil.
Qed.

Lemma loadtest_processes_witness :
  ∃ s tr p, tenantcore_boot (mkWorld heap_empty demo_clock 0) = Ret s ∧
    trace (l_step (site_service tenantcore_program))
      (LRunning (mkLP (v_start s) (LMLog tenantcore_lines) LPDone
         [pprof_listening; "pprof server error: listen tcp :6061: bind: address already in use"])) tr (LRunning p) ∧
    lp_main p = LMServing.
Proof.
  destruct (loadtest_processes demo_clock) as (_ & (b & Hb & Hrun) & _). unfold tenantcore_main in Hb.
  destruct (tenantcore_boot (mkWorld heap_empty demo_clock 0)) as [s|msg]; [|discriminate].
  injection Hb as <-.
  pose proof (profiler_fails (site_service tenantcore_program) tenantcore_lines (v_start s)
    (errorf "listen tcp :6061: bind: address already in use")) as Htr.
  destruct (Hrun _ _ Htr) as (_ & _ & _ & _ & Hgo). destruct (Hgo ltac:(by intros e)) as (tr' & p' & Htr' & Hm & _).
  exists s, tr', p'. split_and!; [reflexivity | exact Htr' | exact Hm].
Defined.
